(* ===== verification/_CoqProject ===== *)
-Q . S2P
Prelude.v
Runtime.v
Strconv.v
Card.v
Eval.v
EvalProofs.v
EvalProps.v
Ephemeral.v
Deck.v
DeckProofs.v
DeckProps.v
Net.v
Peer.v
PeerProofs.v
PeerProps.v
Showdown.v
ShowdownProps.v
Dispatch.v
DispatchProps.v
DispatchServe.v
DispatchServeProps.v
GameState.v
GameStateProofs.v
GameLog.v
GameLogProofs.v
GameLogProps.v
Runner.v
RunnerProofs.v
RoundNet.v
RunnerProps.v
FinishProps.v
Events.v
Rpc.v
RpcProps.v
Announce.v
Clean.v
Hand.v
HandProofs.v
HandProps.v
Game.v
Threads.v
GameSim.v
GameProofs.v
GameProps.v
Transport.v
TransportProps.v
Remote.v
RemoteProofs.v
RemoteProps.v
RemoteLive.v
RemoteGames.v
Client.v
ClientProps.v
ClientApi.v
ClientApiProps.v
HostPort.v
Lifecycle.v
LifecycleProps.v
Api.v
ApiProps.v
Stream.v
StreamProps.v
Mesh.v
MeshProofs.v
MeshProps.v
Chan.v
ChanProofs.v
Sim.v
SimProofs.v
SimProps.v
Rounds.v
RoundsProofs.v
RoundsProps.v
Commands.v
CommandsProps.v
