(* ===== verification/Prelude.v ===== *)
(** * Verification of p2poker

    p2poker plays Texas hold'em between peers without a trusted dealer.  A
    small dispatch server introduces the nodes to each other and fixes the
    seating order; from then on the peers shuffle and deal an encrypted deck
    among themselves, run every bet as a signed proposal that all seats verify
    and acknowledge, and compare hands at the showdown.  All exchange between
    peers goes through one mechanism: a node hosts a value in its ephemeral
    store, and the others poll the store for the key.  A local frontend
    follows the game over a gRPC server fed by the node's event bus.

    This development translates that program (Go, under [src/internal] and [src/cmd]) into
    executable definitions and proves what each part promises.  No axioms are
    used.

    ** Conventions

    A Go function that can fail is a function into [res E T] (below): [Ok],
    [Err] with the branch's error, or [Panic] for a run-time panic.  Machine
    integers are [Z] with the wrap-around ([u8], [u32], [u64], [i64], ...)
    written where the source computes; slices and arrays are lists that [idx]
    and [upd] index with Go's bounds checks.  What a mutex protects is one
    atomic function; code that talks to other nodes is an [act] of file [Net],
    and concurrency is the interleaving of such computations.  Error and log
    texts are left out, the branch that produces them is kept.

    What the program does not define is a class with its documented laws, so
    every theorem holds for every implementation of it: [GoRuntime] and
    [RuntimeLaws] (unstable sort, map iteration order), [RandSource] and
    [RandLaws] ([crypto/rand]), [SigScheme] and [SigLaws] (Ed25519, SHA-256),
    [Codec], [CodecLaws] and [EntryCodecLaws] ([encoding/gob] of one value),
    [GobStream] and [GobLaws] (gob streams), [Schedule] and [ScheduleLaws] (the order in which parallel polls complete), [Env] (the
    actions a frontend submits and the deadlines that pass).  Each law is
    inhabited by a concrete instance in the witnesses.  Two more classes are
    interfaces between parts of the program: [CommCipher] (what the ring
    protocols need of the deck cipher) and [Requester] (what the dispatch API
    of a node needs of the connection it runs over).

    Goroutines are modelled at two levels.  Where one protocol phase runs at
    all seats, each goroutine is an [act] and the network of [Net] interleaves
    them, a poll being one atomic read.  [Remote] goes below that: requests
    and responses as frames that travel, are lost and are answered by
    handlers, and a refinement theorem that carries the results of [Net] down
    to it.  The two sides of the dispatch connection ([Client],
    [DispatchServe]), the handshakes ([Mesh]), waiting for a game ([Lifecycle]),
    event streams ([Stream]), the node process ([Commands]) and the simulation
    ([Sim], over the channels of [Chan]) are step relations between blocking
    operations.  [Transport] goes below the frames: goroutines that write to one
    connection, piece by piece.  [Game] puts the phases of [Run] together: every
    seat goes through them at its own pace, with its dealing goroutines in
    parallel.

    ** Files

    - [Prelude], [Runtime], [Strconv]: results, words and byte strings; sort
      and map iteration; decimal printing and parsing.
    - [Card] ([card/card.go]): cards, names, deck index, wire strings.
    - [Eval], [EvalProofs], [EvalProps] ([card/eval.go]): hand ranking.
      [EvalProofs] writes the rules of poker as a reference ranking on the
      multiset of ranks; [EvalProps] proves that [Rank5] computes it, that
      [Best] is maximal among the five-card subsets, and that neither depends
      on card order, sort or map order.
    - [Ephemeral] ([ephemeral/store.go]): the store and all key formats; keys
      of different messages differ, bulk deletions remove exactly a round.
    - [Deck], [DeckProofs], [DeckProps] ([crypto/deck/deck.go]): Fisher-Yates
      shuffle (each permutation from exactly one sequence of draws) and SRA
      encryption (layers commute and cancel over a prime modulus).  The class
      [CommCipher] is what the ring protocols rely on.
    - [Net]: computations that host and poll, networks of them, and
      [net_correct], the theorem on all interleavings that the protocol
      theorems instantiate.
    - [Remote], [RemoteProofs], [RemoteProps], [RemoteLive], [RemoteGames]
      ([peer/ephemeral.go], [Send] and [Broadcast] of [peer/message.go], the
      message dispatch of [peer/mesh.go]): polls as request and response
      messages with request ids, a backoff, and connections that break.
      [RemoteProps] shows that this refines the atomic polls of [Net], that a
      poll returns a value hosted while it ran, and the bounds of the backoff;
      [RemoteLive] that without failures every run can be completed;
      [RemoteGames] draws the consequences for a round and a deal, and shows
      what a lost request and a forged response do.
    - [Peer], [PeerProofs], [PeerProps] ([peer/shuffle.go], [deal.go],
      [community.go], [game.go]): the shuffle ring, the hole-card deal and the
      community reveals, for every table size and every interleaving.
    - [Showdown], [ShowdownProps] ([peer/showdown.go]): publishing, checking
      and judging claims.
    - [Dispatch], [DispatchProps] ([dispatch/server.go], [protocol/frame.go]):
      the server as a state machine over frames, connections and time, and its
      refinement of an abstract lobby.
    - [DispatchServe], [DispatchServeProps] ([serve], [handleConn] and
      [leaseReaper] of [dispatch/server.go]): a goroutine per connection beside
      the reaper.  The node table is exactly the open connections that are
      served; a node that comes back too early is thrown out.
    - [Client], [ClientProps] ([dispatchRequest], [dispatchReadLoop] and
      [closeAllPending] of [peer/dispatch.go]; [AttachDispatch] and
      [DetachDispatch] of [peer/node.go]): callers, read loops, attaching and
      detaching goroutines that share a node.  Responses reach their callers,
      detaching releases them; two races with detaching are shown as runs.
    - [ClientApi], [ClientApiProps] (the calls of [peer/dispatch.go],
      [ListPeers]): the API over [Requester], and its behaviour against the
      dispatch server: node and server agree on the session, heartbeats keep a
      node in the lobby, a game start seats every member.
    - [Mesh], [MeshProofs], [MeshProps] ([peer/mesh.go]): dialling, accepting
      and handshakes of all nodes at once.  Key tables are right, the full mesh
      forms within a stated number of steps; what a stranger's handshake can
      do.
    - [GameState], [GameStateProofs] ([game/action.go], [game/state.go]):
      betting as a replay of the log; chip conservation, the betting
      invariant, legality of actions, termination of a hand.
    - [GameLog], [GameLogProofs], [GameLogProps] ([game/log.go],
      [crypto/log/log.go]): the signed log.  The encoding is uniquely
      decodable, so a signature binds a history; auto-folds need every other
      active seat; the three signed payloads never coincide.
    - [Runner], [RunnerProofs], [RoundNet], [RunnerProps] ([round/runner.go]):
      the propose/verify/commit loop.  [RunnerProofs] treats one node against
      arbitrary peers (no panic, atomic attempts, termination), [RoundNet] and
      [RunnerProps] a whole table in every interleaving (all seats commit the
      same entry; with expired deadlines, that entry or nothing).
    - [Clean], [Hand], [HandProofs], [HandProps]: the same for whole hands, with
      the clean-ups between the rounds.  [Clean] extends [Net]'s theorem to
      computations that remove what they hosted, several of them per node, and
      that start when others of their node have returned: it suffices that each
      has a schedule in which nothing is read after its removal.  [HandProps]
      applies it to [run_rounds] at every seat, and shows a run in which a
      folded seat is left behind.
    - [FinishProps] ([finishHand] of [round/runner.go]): the winners that a seat
      names, against a reference computed from the cards.
    - [Game], [Threads], [GameSim], [GameProofs], [GameProps]: whole games.
      [Game] is [Run] at all seats as a step relation (with one seat it is the
      function [Run] of [Runner]); [Threads] numbers the threads of all seats;
      [GameSim] shows that a game refines the network of its threads, each
      waiting for those before it; [GameProofs] gives the threads' schedules for
      [Clean].  [GameProps]: every game ends with the same log, cards, board and
      winners at all seats.
    - [Transport], [TransportProps] ([transport/gob_conn.go]): sending under the
      write mutex in pieces, bytes that arrive in any portions, receiving and
      closing.  A connection refines a queue of whole frames, which is how all
      other files see it.
    - [Events] ([peer/events.go]), [Rpc], [RpcProps] ([clientrpc/server.go]):
      the event bus, submitting actions, and what frontends are told.
    - [Announce] ([PrintCards], [PrintCommunity] and the event of
      [setCommunity]): the cards on their way to a frontend.
    - [HostPort], [Lifecycle], [LifecycleProps] ([peer/node.go]): addresses;
      making, connecting and closing a node without leaking a listener;
      [WaitForGameStart] beside [GameStart] and detaching.
    - [Api], [ApiProps], [Stream], [StreamProps] ([clientrpc/server.go]): the
      RPC handlers that forward to the node, and [SubscribeEvents]: any number
      of streams that share the bus and the chat handler.
    - [Chan], [ChanProofs], [Sim], [SimProofs], [SimProps] ([sim/sim.go]):
      goroutines over channels of capacity one.  [ChanProofs] shows that a
      network whose goroutines follow a timed certificate neither deadlocks
      nor runs longer than it; [SimProps] gives the certificate of the
      simulated shuffle and deal.
    - [Rounds], [RoundsProofs], [RoundsProps] ([sim/rounds.go]): the scripted
      simulation, as a function of the nodes' answers to its calls and of what
      it sees of their runners.  Its auto-fold script is what a stalled runner
      does; the scripts fit a table of four.
    - [Commands], [CommandsProps] ([cmd/dispatch], [cmd/node], [cmd/sim]): from
      the flags to the running programs.  The dispatch server's flags are the
      rules of every runner; the frontend reaches the running game.

    ** Bounds and fuel

    [Run]'s loop over rounds has fuel; [run_terminates] shows that any fuel
    above [max_rounds] (seats * stack * (seats + 1) + 4 * seats) is never
    exhausted, the bound coming from the termination measure of a hand.
    [GenerateKey] repeats until the random source yields an invertible
    exponent: its fuel counts the draws, and the theorem gives a key for any
    sequence of draws that contains one.  Decimal printing has fuel
    [log2 + 1], enough for every number.  Networks need no fuel: a theorem
    about a network speaks of every run, and bounds its length by the number
    of store accesses of its computations.  Runs of [Remote] and [Client] are
    bounded by [2^64] (or [2^63]) steps because request ids come from a
    [uint64] counter that would wrap.  The mesh forms within five steps per
    announced peer and one per node, the simulation within [2n² + 5n - 1]
    channel operations, a game of [n] seats and [m] rounds within
    [n * (3 + 4n + m * span + 2n + 2)] steps ([span] accesses a round and
    seat).

    ** Not modelled

    Sockets and listeners below the bytes of a connection, the bytes of gob's
    encoding, flag parsing and printing, gRPC ([Serve]) and the generated
    protobuf code: input and output around the modelled operations.  Time passes
    only where a lease or a deadline is checked.  The theorems on the shuffle,
    the deal and single reveals treat one protocol phase at a time, over the
    keys of that phase; [game_agrees] joins all phases, for hands in which a
    fold ends the hand, with actions that arrive in time.  In [game_winners] the
    claims of the showdown are read when all players have published them. *)

From stdpp Require Import base list gmap strings numbers sorting.
From Stdlib Require Import ZArith Lia.

#[local] Open Scope Z_scope.

(** ** Go results

    A Go function that returns [(T, error)] is a function into [res E T]:
    [Ok] is a nil error, [Err] a non-nil one, and [Panic] a run-time panic
    (an index out of range, a nil dereference), which no caller handles. *)

Inductive res (E A : Type) : Type :=
| Ok (a : A)
| Err (e : E)
| Panic.
Arguments Ok {E A} a.
Arguments Err {E A} e.
Arguments Panic {E A}.

#[export] Instance res_eq_dec {E A} `{EqDecision E, EqDecision A} : EqDecision (res E A).
Proof. solve_decision. Defined.

#[export] Instance res_ret {E} : MRet (res E) := @Ok E.

#[export] Instance res_bind {E} : MBind (res E) := λ A B f m,
  match m with
  | Ok a => f a
  | Err e => Err e
  | Panic => Panic
  end.

#[export] Instance res_fmap {E} : FMap (res E) := λ A B f m,
  match m with
  | Ok a => Ok (f a)
  | Err e => Err e
  | Panic => Panic
  end.

(** Wrapping an error ([fmt.Errorf("...: %w", err)]). *)
Definition wrap_err {E E' A} (f : E → E') (m : res E A) : res E' A :=
  match m with
  | Ok a => Ok a
  | Err e => Err (f e)
  | Panic => Panic
  end.

(** Turning the result of a function without an error return into any error
    type: only [Ok] and [Panic] occur. *)
Definition no_err {E A} (m : res Empty_set A) : res E A :=
  wrap_err (λ e, match e : Empty_set with end) m.

Definition is_ok {E A} (m : res E A) : bool :=
  match m with Ok _ => true | _ => false end.

Lemma res_bind_Ok {E A B} (m : res E A) (f : A → res E B) b :
  m ≫= f = Ok b ↔ ∃ a, m = Ok a ∧ f a = Ok b.
Proof. destruct m; cbn; naive_solver. Qed.

Lemma wrap_err_Ok {E E' A} (g : E → E') (m : res E A) a :
  wrap_err g m = Ok a ↔ m = Ok a.
Proof. destruct m; cbn; naive_solver. Qed.

Lemma no_err_Ok {E A} (m : res Empty_set A) (a : A) :
  no_err (E:=E) m = Ok a ↔ m = Ok a.
Proof. apply wrap_err_Ok. Qed.

Lemma is_ok_spec {E A} (m : res E A) : is_ok m = true ↔ ∃ a, m = Ok a.
Proof. destruct m; cbn; naive_solver. Qed.

(** A loop whose body may fail: [for _, a := range l { s = f(s, a) }]. *)
Fixpoint foldM {E S A} (f : S → A → res E S) (l : list A) (s : S) : res E S :=
  match l with
  | [] => Ok s
  | a :: l => s' ← f s a; foldM f l s'
  end.

Lemma foldM_app {E S A} (f : S → A → res E S) l1 l2 s :
  foldM f (l1 ++ l2) s = foldM f l1 s ≫= foldM f l2.
Proof. revert s. induction l1; intros s; cbn; [done|]. destruct (f s a); cbn; auto. Qed.

(** A loop whose every iteration succeeds and keeps an invariant. *)
Lemma foldM_inv {E S A} (P : S → Prop) (f : S → A → res E S) l s :
  (∀ s a, P s → a ∈ l → ∃ s', f s a = Ok s' ∧ P s') → P s → ∃ s', foldM f l s = Ok s' ∧ P s'.
Proof.
  revert s. induction l as [|a l IH]; intros s Hf Hs; cbn; [eauto|].
  destruct (Hf s a) as (s' & -> & Hs'); [done|by left|]. cbn. apply IH; [|done].
  intros s'' b ??. apply Hf; [done|by right].
Qed.

(** ** Machine integers

    An unsigned [w]-bit integer is a [Z]; its wrap-around is written out where
    the source computes.  [i64] is the two's-complement wrap of Go's [int]. *)

Definition u8 (x : Z) : Z := x mod 2 ^ 8.
Definition u16 (x : Z) : Z := x mod 2 ^ 16.
Definition u32 (x : Z) : Z := x mod 2 ^ 32.
Definition u64 (x : Z) : Z := x mod 2 ^ 64.
Definition i64 (x : Z) : Z := (x + 2 ^ 63) mod 2 ^ 64 - 2 ^ 63.
#[global] Arguments u8 : simpl never.
#[global] Arguments u16 : simpl never.
#[global] Arguments u32 : simpl never.
#[global] Arguments u64 : simpl never.
#[global] Arguments i64 : simpl never.

Lemma u8_small x : 0 ≤ x < 2 ^ 8 → u8 x = x.
Proof. apply Z.mod_small. Qed.
Lemma u16_small x : 0 ≤ x < 2 ^ 16 → u16 x = x.
Proof. apply Z.mod_small. Qed.
Lemma u32_small x : 0 ≤ x < 2 ^ 32 → u32 x = x.
Proof. apply Z.mod_small. Qed.
Lemma u64_small x : 0 ≤ x < 2 ^ 64 → u64 x = x.
Proof. apply Z.mod_small. Qed.
Lemma i64_small x : - 2 ^ 63 ≤ x < 2 ^ 63 → i64 x = x.
Proof. intros. unfold i64. rewrite Z.mod_small; lia. Qed.
Lemma u64_range x : 0 ≤ u64 x < 2 ^ 64.
Proof. apply Z.mod_pos_bound. lia. Qed.
Lemma u8_range x : 0 ≤ u8 x < 2 ^ 8.
Proof. apply Z.mod_pos_bound. lia. Qed.

(** ** Big-endian encoding ([encoding/binary]) *)

(** [be n x] is what [binary.BigEndian.PutUint(8n)] writes for [x]. *)
Fixpoint be (n : nat) (x : Z) : list Z :=
  match n with
  | O => []
  | S n' => (x / 256 ^ Z.of_nat n') mod 256 :: be n' x
  end.

(** [unbe bs] is the integer whose big-endian digits are [bs]. *)
Definition unbe (bs : list Z) : Z := fold_left (λ acc b, acc * 256 + b) bs 0.

Definition is_byte (b : Z) : Prop := 0 ≤ b < 256.

Lemma length_be n x : length (be n x) = n.
Proof. induction n; cbn; congruence. Qed.

Lemma be_bytes n x : Forall is_byte (be n x).
Proof.
  induction n; constructor; [|done]. unfold is_byte. apply Z.mod_pos_bound. lia.
Qed.

Lemma unbe_fold bs acc :
  fold_left (λ acc b, acc * 256 + b) bs acc
  = acc * 256 ^ Z.of_nat (length bs) + unbe bs.
Proof.
  unfold unbe. revert acc. induction bs as [|b bs IH]; intros acc; cbn [fold_left length].
  - rewrite Z.pow_0_r. lia.
  - rewrite IH, (IH (0 * 256 + b)).
    rewrite Nat2Z.inj_succ, Z.pow_succ_r by lia. lia.
Qed.

Lemma unbe_cons b bs : unbe (b :: bs) = b * 256 ^ Z.of_nat (length bs) + unbe bs.
Proof. unfold unbe at 1. cbn [fold_left]. rewrite unbe_fold. lia. Qed.

Lemma unbe_nil : unbe [] = 0.
Proof. done. Qed.

Lemma unbe_app l1 l2 : unbe (l1 ++ l2) = unbe l1 * 256 ^ Z.of_nat (length l2) + unbe l2.
Proof. unfold unbe at 1. rewrite fold_left_app. apply unbe_fold. Qed.

Lemma unbe_be_mod n x : unbe (be n x) = x mod 256 ^ Z.of_nat n.
Proof.
  induction n as [|n IH]; [cbn; symmetry; apply Z.mod_1_r|].
  cbn [be]. rewrite unbe_cons, length_be, IH.
  rewrite Nat2Z.inj_succ, Z.pow_succ_r by lia.
  rewrite (Z.mul_comm 256), Z.rem_mul_r by lia. lia.
Qed.

(** Round trip of [PutUint] and [Uint]. *)
Lemma unbe_be n x : 0 ≤ x < 256 ^ Z.of_nat n → unbe (be n x) = x.
Proof. intros. rewrite unbe_be_mod. by apply Z.mod_small. Qed.

Lemma unbe_range bs : Forall is_byte bs → 0 ≤ unbe bs < 256 ^ Z.of_nat (length bs).
Proof.
  unfold is_byte. induction 1 as [|b bs Hb _ IH].
  - rewrite unbe_nil. cbn. lia.
  - rewrite unbe_cons. cbn [length].
    rewrite Nat2Z.inj_succ, Z.pow_succ_r by lia. nia.
Qed.

(** ** Slices

    Indexing and index assignment of a Go slice: out of range panics. *)

Definition idx {E A} (l : list A) (i : Z) : res E A :=
  if decide (0 ≤ i) then
    match l !! Z.to_nat i with Some a => Ok a | None => Panic end
  else Panic.

Definition upd {E A} (l : list A) (i : Z) (a : A) : res E (list A) :=
  if decide (0 ≤ i < Z.of_nat (length l)) then Ok (<[Z.to_nat i := a]> l) else Panic.

Lemma idx_Ok {E A} (l : list A) i a :
  idx (E:=E) l i = Ok a ↔ 0 ≤ i ∧ l !! Z.to_nat i = Some a.
Proof. unfold idx. case_decide; [destruct (_ !! _)|]; naive_solver. Qed.

Lemma idx_in_range {E A} (l : list A) i :
  0 ≤ i < Z.of_nat (length l) → ∃ a, l !! Z.to_nat i = Some a ∧ idx (E:=E) l i = Ok a.
Proof.
  intros Hi. destruct (lookup_lt_is_Some_2 l (Z.to_nat i)) as [a Ha]; [lia|].
  exists a. rewrite idx_Ok. split_and!; [done|lia|done].
Qed.

Lemma upd_Ok {E A} (l : list A) i a l' :
  upd (E:=E) l i a = Ok l' ↔ 0 ≤ i < Z.of_nat (length l) ∧ l' = <[Z.to_nat i := a]> l.
Proof. unfold upd. case_decide; naive_solver. Qed.

Lemma upd_in_range {E A} (l : list A) i a :
  0 ≤ i < Z.of_nat (length l) → upd (E:=E) l i a = Ok (<[Z.to_nat i := a]> l).
Proof. intros. by apply upd_Ok. Qed.

(** ** Sums of integer lists *)

Fixpoint sumZ (l : list Z) : Z :=
  match l with [] => 0 | x :: l => x + sumZ l end.

Lemma sumZ_insert (l : list Z) (i : nat) (x y : Z) :
  l !! i = Some x → sumZ (<[i := y]> l) = sumZ l - x + y.
Proof.
  revert i. induction l as [|z l IH]; intros [|i] Hi; simplify_eq/=; [lia|].
  rewrite (IH _ Hi). lia.
Qed.

Lemma sumZ_replicate n x : sumZ (replicate n x) = Z.of_nat n * x.
Proof. induction n; cbn [sumZ replicate]; lia. Qed.

Lemma sumZ_nonneg l : Forall (λ x, 0 ≤ x) l → 0 ≤ sumZ l.
Proof. induction 1; cbn; lia. Qed.

Lemma sumZ_zero (l : list Z) : sumZ ((λ _, 0) <$> l) = 0.
Proof. by induction l. Qed.

Lemma sumZ_elem (l : list Z) (i : nat) x : Forall (λ x, 0 ≤ x) l → l !! i = Some x → x ≤ sumZ l.
Proof.
  intros Hl. revert i. induction Hl as [|y l Hy Hl IH]; intros [|i] Hi; simplify_eq/=.
  - pose proof (sumZ_nonneg l Hl). lia.
  - pose proof (IH _ Hi). lia.
Qed.

(** ** Counting in boolean lists *)

Definition count_false (l : list bool) : Z :=
  Z.of_nat (length (filter (λ b : bool, b = false) l)).
#[global] Arguments count_false : simpl never.

Lemma count_false_cons b l :
  count_false (b :: l) = (if b then 0 else 1) + count_false l.
Proof. unfold count_false. rewrite filter_cons. destruct b; case_decide; simplify_eq/=; lia. Qed.

Lemma count_false_nonneg l : 0 ≤ count_false l.
Proof. unfold count_false. lia. Qed.

Lemma count_false_length l : count_false l ≤ Z.of_nat (length l).
Proof. unfold count_false. pose proof (length_filter (λ b : bool, b = false) l). lia. Qed.

Lemma count_false_insert (l : list bool) (i : nat) (b b' : bool) :
  l !! i = Some b →
  count_false (<[i := b']> l)
  = count_false l - (if b then 0 else 1) + (if b' then 0 else 1).
Proof.
  revert i. induction l as [|z l IH]; intros [|i] Hi; simplify_eq/=;
    rewrite !count_false_cons; [destruct b', b; lia|]. rewrite (IH _ Hi). lia.
Qed.

Lemma count_false_replicate n : count_false (replicate n false) = Z.of_nat n.
Proof. induction n; [done|]. cbn [replicate]. rewrite count_false_cons. lia. Qed.

Lemma count_false_pos (l : list bool) (i : nat) : l !! i = Some false → 0 < count_false l.
Proof.
  intros Hi. pose proof (count_false_insert l i false true Hi) as Hc. cbv iota in Hc.
  pose proof (count_false_nonneg (<[i:=true]> l)). lia.
Qed.

Lemma count_false_witness (l : list bool) :
  0 < count_false l → ∃ i : nat, l !! i = Some false.
Proof.
  induction l as [|b l IH]; [done|]. rewrite count_false_cons. destruct b; [|by exists 0%nat].
  intros Hc. destruct IH as [i Hi]; [lia|]. by exists (S i).
Qed.

(** ** Filtering lists *)

Lemma filter_none {A} (P : A → Prop) `{∀ x, Decision (P x)} (l : list A) :
  (∀ x, x ∈ l → ¬ P x) → filter P l = [].
Proof.
  induction l as [|x l IH]; intros Hn; [done|]. rewrite filter_cons, decide_False by (apply Hn; left).
  apply IH. intros y Hy. apply Hn. by right.
Qed.

Lemma filter_all {A} (P : A → Prop) `{∀ x, Decision (P x)} (l : list A) :
  (∀ x, x ∈ l → P x) → filter P l = l.
Proof.
  induction l as [|x l IH]; intros Ha; [done|]. rewrite filter_cons, decide_True by (apply Ha; left).
  f_equal. apply IH. intros y Hy. apply Ha. by right.
Qed.

Lemma filter_ext_in {A} (P Q : A → Prop) `{∀ x, Decision (P x), ∀ x, Decision (Q x)} (l : list A) :
  (∀ x, x ∈ l → P x ↔ Q x) → filter P l = filter Q l.
Proof.
  induction l as [|x l IH]; intros Hpq; [done|]. rewrite !filter_cons.
  rewrite IH by (intros y Hy; apply Hpq; by right). specialize (Hpq x ltac:(left)).
  repeat case_decide; tauto.
Qed.

(** A sum over a list after one element was replaced. *)
Lemma sum_list_insert {A} (f : A → nat) (l : list A) i x y :
  l !! i = Some x → (sum_list (f <$> <[i := y]> l) + f x = sum_list (f <$> l) + f y)%nat.
Proof.
  revert i. induction l as [|z l IH]; intros [|i] Hi; try done.
  - injection Hi as <-. change (<[0%nat := y]> (z :: l)) with (y :: l). cbn. lia.
  - change (<[S i := y]> (z :: l)) with (z :: <[i := y]> l). rewrite !fmap_cons. specialize (IH i Hi).
    unfold sum_list in *. cbn in *. lia.
Qed.

(** ** Automation *)

(** Decompose successful runs of the result monad. *)
Ltac inv_res :=
  repeat match goal with
  | H : _ ≫= _ = Ok _ |- _ => apply res_bind_Ok in H as (? & ? & ?)
  | H : wrap_err _ _ = Ok _ |- _ => apply wrap_err_Ok in H
  | H : no_err _ = Ok _ |- _ => apply no_err_Ok in H
  | H : idx _ _ = Ok _ |- _ => apply idx_Ok in H as [? ?]
  | H : upd _ _ _ = Ok _ |- _ => apply upd_Ok in H as [? ->]
  | H : mret _ = Ok _ |- _ => injection H as H
  | H : Ok _ = Ok _ |- _ => injection H as H
  | H : Err _ = Ok _ |- _ => discriminate H
  | H : Panic = Ok _ |- _ => discriminate H
  end; simplify_eq/=.

(** Case analysis on the boolean comparisons of [Z] in the goal or in a
    hypothesis, with the facts they decide. *)
Ltac zcases :=
  repeat match goal with
  | |- context [Z.eqb ?a ?b] => destruct (Z.eqb_spec a b)
  | |- context [Z.ltb ?a ?b] => destruct (Z.ltb_spec a b)
  | |- context [Z.leb ?a ?b] => destruct (Z.leb_spec a b)
  | H : context [Z.eqb ?a ?b] |- _ => destruct (Z.eqb_spec a b)
  | H : context [Z.ltb ?a ?b] |- _ => destruct (Z.ltb_spec a b)
  | H : context [Z.leb ?a ?b] |- _ => destruct (Z.leb_spec a b)
  end.

Create HintDb go.
#[export] Hint Resolve u64_range u8_range be_bytes count_false_nonneg : go.
Create Rewrite HintDb go.
#[export] Hint Rewrite @length_be @length_app @length_insert @length_replicate @length_fmap : go.
