(* ===== verification/Runtime.v ===== *)
(** * What the language leaves open: sorting and map iteration

    [sort.Slice] sorts by a given "less" but is not stable, and a [range] over
    a map visits the entries in an unspecified order.  The class [GoRuntime]
    holds the two operations, [RuntimeLaws] what Go's documentation promises
    of them; the components that sort or iterate over maps are proved for
    every runtime with these laws.  [insertion_runtime] is one of them, used
    wherever a concrete input is evaluated. *)

From stdpp Require Import base list gmap strings numbers sorting.
From Stdlib Require Import ZArith Lia.
From S2P Require Import Prelude.

#[local] Open Scope Z_scope.

Class GoRuntime := {
  sort_slice : ∀ {A : Type}, (A → A → bool) → list A → list A;
  range_order : ∀ {A : Type}, list A → list A;
}.

(** A strict weak order, the documented precondition of [sort.Slice]. *)
Definition weak_order {A} (less : A → A → bool) : Prop :=
  (∀ x y, less x y = true → less y x = false) ∧
  (∀ x y z, less y x = false → less z y = false → less z x = false).

Class RuntimeLaws `{GoRuntime} : Prop := {
  sort_perm : ∀ A (less : A → A → bool) l, sort_slice less l ≡ₚ l;
  sort_sorted : ∀ A (less : A → A → bool) l, weak_order less →
    StronglySorted (λ x y, less y x = false) (sort_slice less l);
  range_perm : ∀ A (l : list A), range_order l ≡ₚ l;
}.

(** ** A concrete runtime *)

Fixpoint insert_by {A} (less : A → A → bool) (x : A) (l : list A) : list A :=
  match l with
  | [] => [x]
  | y :: l' => if less x y then x :: l else y :: insert_by less x l'
  end.

Definition insertion_sort {A} (less : A → A → bool) (l : list A) : list A :=
  fold_left (λ acc x, insert_by less x acc) l [].

Definition insertion_runtime : GoRuntime :=
  {| sort_slice := @insertion_sort; range_order := λ A l, l |}.

Lemma insert_by_perm {A} (less : A → A → bool) x l : insert_by less x l ≡ₚ x :: l.
Proof.
  induction l as [|y l IH]; cbn; [done|]. destruct (less x y); [done|].
  rewrite IH. apply Permutation_swap.
Qed.

Lemma insert_by_sorted {A} (less : A → A → bool) x l :
  weak_order less →
  StronglySorted (λ x y, less y x = false) l →
  StronglySorted (λ x y, less y x = false) (insert_by less x l).
Proof.
  intros [Has Htr] Hl. induction Hl as [|y l Hl IH Hy]; cbn; [by repeat constructor|].
  destruct (less x y) eqn:E.
  - constructor; [by constructor|]. constructor; [by apply Has|].
    eapply Forall_impl; [exact Hy|]. intros z Hz. apply (Htr x y z); auto.
  - constructor; [done|]. rewrite insert_by_perm. by constructor.
Qed.

Lemma insertion_sort_acc {A} (less : A → A → bool) l acc :
  fold_left (λ acc x, insert_by less x acc) l acc ≡ₚ l ++ acc ∧
  (weak_order less → StronglySorted (λ x y, less y x = false) acc →
   StronglySorted (λ x y, less y x = false) (fold_left (λ acc x, insert_by less x acc) l acc)).
Proof.
  revert acc. induction l as [|x l IH]; intros acc; cbn; [done|].
  destruct (IH (insert_by less x acc)) as [Hp Hs]. split.
  - rewrite Hp, insert_by_perm. symmetry. apply Permutation_middle.
  - intros Hw Hacc. by apply Hs, insert_by_sorted.
Qed.

#[export] Instance insertion_laws : @RuntimeLaws insertion_runtime.
Proof.
  constructor; cbn; intros.
  - unfold insertion_sort. rewrite (proj1 (insertion_sort_acc less l [])). by rewrite app_nil_r.
  - apply insertion_sort_acc; [done|constructor].
  - done.
Qed.

(** ** Sorted lists are determined by their elements *)

(** When the elements the order does not separate are equal, two sorted
    permutations are the same list. *)
Lemma sorted_unique {A} (less : A → A → bool) (l1 l2 : list A) :
  (∀ x y, x ∈ l1 → y ∈ l1 → less x y = false → less y x = false → x = y) →
  StronglySorted (λ x y, less y x = false) l1 →
  StronglySorted (λ x y, less y x = false) l2 →
  l1 ≡ₚ l2 → l1 = l2.
Proof.
  intros Hanti H1. revert l2. induction H1 as [|x l1 H1 IH Hx]; intros l2 H2 Hp.
  { by apply Permutation_nil_l in Hp. }
  destruct H2 as [|y l2 H2 Hy]; [symmetry in Hp; by apply Permutation_nil_l in Hp|].
  rewrite Forall_forall in Hx, Hy.
  assert (x = y) as ->.
  { assert (x ∈ y :: l2) as Hin by (rewrite <- Hp; left).
    assert (y ∈ x :: l1) as Hin' by (rewrite Hp; left).
    apply elem_of_cons in Hin as [->|Hin]; [done|].
    apply elem_of_cons in Hin' as [->|Hin']; [done|].
    apply Hanti; [by left|by right|by apply Hy|by apply Hx]. }
  f_equal. apply IH; [|done|by apply Permutation_cons_inv in Hp].
  intros a b Ha Hb. apply Hanti; by right.
Qed.

Lemma StronglySorted_map {A B} (f : A → B) (R : B → B → Prop) l :
  StronglySorted (λ x y, R (f x) (f y)) l → StronglySorted R (f <$> l).
Proof. induction 1; cbn; constructor; [done|]. by apply Forall_fmap. Qed.

Lemma StronglySorted_weaken {A} (R R' : A → A → Prop) l :
  (∀ x y, R x y → R' x y) → StronglySorted R l → StronglySorted R' l.
Proof. intros HR. induction 1; constructor; [done|]. eapply Forall_impl; [eassumption|]. auto. Qed.

Section runtime.
Context `{RuntimeLaws}.

Lemma sort_slice_unique {A} (less : A → A → bool) (l1 l2 : list A) :
  weak_order less →
  (∀ x y, x ∈ l1 → y ∈ l1 → less x y = false → less y x = false → x = y) →
  l1 ≡ₚ l2 → sort_slice less l1 = sort_slice less l2.
Proof.
  intros Hw Hanti Hp. apply (sorted_unique less).
  - intros x y. rewrite !sort_perm. apply Hanti.
  - by apply sort_sorted.
  - by apply sort_sorted.
  - by rewrite !sort_perm.
Qed.

(** A runtime's sort agrees with insertion sort where the order separates the
    elements: the form in which concrete sorts are evaluated. *)
Lemma sort_slice_insertion {A} (less : A → A → bool) (l : list A) :
  weak_order less →
  (∀ x y, x ∈ l → y ∈ l → less x y = false → less y x = false → x = y) →
  sort_slice less l = insertion_sort less l.
Proof.
  intros Hw Hanti. apply (sorted_unique less).
  - intros x y. rewrite !sort_perm. apply Hanti.
  - by apply sort_sorted.
  - by apply (@sort_sorted insertion_runtime insertion_laws).
  - rewrite sort_perm. symmetry. apply (@sort_perm insertion_runtime insertion_laws).
Qed.

Lemma length_sort {A} (less : A → A → bool) (l : list A) :
  length (sort_slice less l) = length l.
Proof. apply Permutation_length, sort_perm. Qed.

End runtime.

(** [sort.Strings]: byte-wise lexicographic order. *)
Definition string_less (s t : string) : bool :=
  match String.compare s t with Lt => true | _ => false end.

Lemma string_less_false s t : string_less s t = false ↔ String.leb t s = true.
Proof.
  unfold string_less, String.leb. rewrite (String.compare_antisym s t).
  destruct (String.compare t s); cbn; split; congruence.
Qed.

Lemma string_less_weak : weak_order string_less.
Proof.
  split.
  - intros x y. unfold string_less. rewrite (String.compare_antisym x y).
    by destruct (String.compare y x).
  - intros x y z. rewrite !string_less_false. intros H1 H2.
    apply Is_true_true, (PreOrder_Transitive (R:=String.le) x y z); by apply Is_true_true.
Qed.

Lemma string_less_total s t : string_less s t = false → string_less t s = false → s = t.
Proof.
  rewrite !string_less_false. intros H1 H2. by apply String.leb_antisym.
Qed.
