(* ===== verification/Strconv.v ===== *)
(** * Decimal conversion (Go's [strconv] and the [%d] verb)

    The repository prints integers with [strconv.Itoa] and [fmt]'s [%d] (deck
    strings, store keys, generated ids) and reads them back with [strconv.Atoi],
    [ParseUint] and [ParseInt].  These are models of those library functions
    in base 10; a Go string is a [string], one [ascii] per byte. *)

From stdpp Require Import base list gmap strings numbers.
From Stdlib Require Import ZArith Lia Ascii.
From S2P Require Import Prelude.

#[local] Open Scope Z_scope.

Definition digit_char (d : Z) : ascii := ascii_of_nat (48 + Z.to_nat d).

Definition char_digit (c : ascii) : option Z :=
  let v := Z.of_nat (nat_of_ascii c) - 48 in
  if (0 <=? v) && (v <? 10) then Some v else None.

Fixpoint utoa_acc (fuel : nat) (n : Z) (acc : string) : string :=
  match fuel with
  | O => acc
  | S fuel' =>
      let acc' := String.String (digit_char (n mod 10)) acc in
      if n <? 10 then acc' else utoa_acc fuel' (n / 10) acc'
  end.

(** [strconv.FormatUint(n, 10)]; a number has at most [log2 n + 1] digits. *)
Definition utoa (n : Z) : string := utoa_acc (S (Z.to_nat (Z.log2 n))) n EmptyString.

(** [strconv.Itoa], which is also [fmt]'s [%d]. *)
Definition Itoa (n : Z) : string :=
  if n <? 0 then String.String "-" (utoa (- n)) else utoa n.

Inductive num_err := ErrSyntax | ErrRange.

#[export] Instance num_err_eq_dec : EqDecision num_err.
Proof. solve_decision. Defined.

(** The digit loop of [ParseUint]: the value returned beside an error is the
    one Go returns (0 for a syntax error, the maximum for a range error). *)
Fixpoint parse_digits (maxVal : Z) (s : string) (n : Z) : Z * option num_err :=
  match s with
  | EmptyString => (n, None)
  | String.String c s =>
      match char_digit c with
      | None => (0, Some ErrSyntax)
      | Some d =>
          if maxVal <? n * 10 + d then (maxVal, Some ErrRange)
          else parse_digits maxVal s (n * 10 + d)
      end
  end.

Definition ParseUint (s : string) (bitSize : Z) : Z * option num_err :=
  match s with
  | EmptyString => (0, Some ErrSyntax)
  | _ => parse_digits (2 ^ bitSize - 1) s 0
  end.

Definition strip_sign (s : string) : bool * string :=
  match s with
  | String.String "-" s' => (true, s')
  | String.String "+" s' => (false, s')
  | _ => (false, s)
  end.

Definition ParseInt (s : string) (bitSize : Z) : Z * option num_err :=
  match s with
  | EmptyString => (0, Some ErrSyntax)
  | _ =>
      let '(neg, s') := strip_sign s in
      let '(un, err) := ParseUint s' 64 in
      if bool_decide (err = Some ErrSyntax) then (0, err)
      else
        let cutoff := 2 ^ (bitSize - 1) in
        if negb neg && (cutoff <=? un) then (cutoff - 1, Some ErrRange)
        else if neg && (cutoff <? un) then (- cutoff, Some ErrRange)
        else (if (neg : bool) then - un else un, None)
  end.

Definition Atoi (s : string) : res num_err Z :=
  match ParseInt s 64 with
  | (n, None) => Ok n
  | (_, Some e) => Err e
  end.

(** ** Lemmas *)

Definition is_digit (c : ascii) : Prop := char_digit c ≠ None.

Fixpoint all_digits (s : string) : Prop :=
  match s with
  | EmptyString => True
  | String.String c s => is_digit c ∧ all_digits s
  end.

Lemma char_digit_char d : 0 ≤ d < 10 → char_digit (digit_char d) = Some d.
Proof.
  intros Hd. unfold char_digit, digit_char. rewrite nat_ascii_embedding by lia.
  replace (Z.of_nat (48 + Z.to_nat d) - 48) with d by lia.
  by rewrite (proj2 (Z.leb_le 0 d)), (proj2 (Z.ltb_lt d 10)) by lia.
Qed.

Lemma utoa_acc_digits fuel n acc : all_digits acc → 0 ≤ n → all_digits (utoa_acc fuel n acc).
Proof.
  revert n acc. induction fuel as [|fuel IH]; intros n acc Ha Hn; [done|]. cbn.
  assert (all_digits (String.String (digit_char (n mod 10)) acc)).
  { split; [|done]. unfold is_digit. rewrite char_digit_char; [done|].
    apply Z.mod_pos_bound. lia. }
  destruct (n <? 10); [done|]. apply IH; [done|]. apply Z.div_pos; lia.
Qed.

Lemma utoa_digits n : 0 ≤ n → all_digits (utoa n).
Proof. intros. by apply utoa_acc_digits. Qed.

Lemma string_app_snoc p c s :
  String.app p (String.String c s) = String.app (String.app p (String.String c EmptyString)) s.
Proof.
  induction p as [|a p IH]; [done|].
  exact (f_equal (String.String a) IH).
Qed.

Lemma utoa_acc_app fuel n acc : ∃ p, utoa_acc fuel n acc = String.app p acc
  ∧ (fuel ≠ 0%nat → p ≠ EmptyString).
Proof.
  revert n acc. induction fuel as [|fuel IH]; intros n acc;
    [exists EmptyString; split; [done|by intros []]|]. cbn.
  destruct (n <? 10); [by exists (String.String (digit_char (n mod 10)) EmptyString)|].
  destruct (IH (n / 10) (String.String (digit_char (n mod 10)) acc)) as (p & -> & _).
  exists (String.app p (String.String (digit_char (n mod 10)) EmptyString)). split.
  - apply string_app_snoc.
  - intros _. by destruct p.
Qed.

Lemma utoa_nonempty n : utoa n ≠ EmptyString.
Proof.
  unfold utoa. destruct (utoa_acc_app (S (Z.to_nat (Z.log2 n))) n EmptyString) as (p & -> & Hp).
  specialize (Hp ltac:(done)). by destruct p.
Qed.

Lemma log2_div10 n : 10 ≤ n → (Z.to_nat (Z.log2 (n / 10)) < Z.to_nat (Z.log2 n))%nat.
Proof.
  intros Hn. assert (0 < n / 10) by (apply Z.div_str_pos; lia).
  pose proof (Z.log2_nonneg (n / 10)).
  enough (Z.log2 (n / 10) < Z.log2 n) by lia.
  apply Z.lt_le_trans with (Z.log2 (2 * (n / 10))).
  - rewrite Z.log2_double by lia. lia.
  - apply Z.log2_le_mono. pose proof (Z.mul_div_le n 10). lia.
Qed.

(** The digit loop on a printed number, with what was read before it and what
    follows it. *)
Lemma parse_utoa_acc fuel maxVal n m rest :
  0 ≤ n → 0 ≤ m → (Z.to_nat (Z.log2 n) < fuel)%nat →
  (∃ k, 0 ≤ k ∧ utoa_acc fuel n rest = utoa_acc fuel n rest ∧
    (m * 10 ^ k + n ≤ maxVal → n < 10 ^ k →
     parse_digits maxVal (utoa_acc fuel n rest) m = parse_digits maxVal rest (m * 10 ^ k + n))
    ∧ n < 10 ^ k).
Proof.
  revert n rest. induction fuel as [|fuel IH]; intros n rest Hn Hm Hf; [lia|]. cbn [utoa_acc].
  destruct (Z.ltb_spec n 10) as [Hlt|Hge].
  - exists 1. split; [lia|]. split; [done|]. rewrite Z.pow_1_r. split; [|done]. intros Hle _.
    cbn [parse_digits]. rewrite char_digit_char by (apply Z.mod_pos_bound; lia).
    rewrite Z.mod_small by lia. by rewrite (proj2 (Z.ltb_ge _ _)) by lia.
  - pose proof (log2_div10 n Hge). pose proof (Z.mul_div_le n 10). pose proof (Z.div_pos n 10).
    pose proof (Z.mod_pos_bound n 10). pose proof (Z.div_mod n 10).
    destruct (IH (n / 10) (String.String (digit_char (n mod 10)) rest)) as (k & Hk & _ & Hp & Hnk);
      [lia..|].
    exists (k + 1). rewrite Z.pow_add_r, Z.pow_1_r by lia. split; [lia|]. split; [done|].
    split; [|lia]. intros Hle _.
    rewrite Hp by lia. cbn [parse_digits]. rewrite char_digit_char by lia.
    rewrite (proj2 (Z.ltb_ge _ _)) by lia. f_equal. lia.
Qed.

Lemma parse_digits_utoa maxVal n rest :
  0 ≤ n ≤ maxVal →
  parse_digits maxVal (utoa_acc (S (Z.to_nat (Z.log2 n))) n rest) 0 = parse_digits maxVal rest n.
Proof.
  intros Hn. destruct (parse_utoa_acc (S (Z.to_nat (Z.log2 n))) maxVal n 0 rest)
    as (k & Hk & _ & Hp & Hnk); [lia..|]. rewrite Hp by lia. by rewrite Z.mul_0_l, Z.add_0_l.
Qed.

Lemma ParseUint_utoa bits n : 0 ≤ n < 2 ^ bits → ParseUint (utoa n) bits = (n, None).
Proof.
  intros Hn. unfold ParseUint. pose proof (utoa_nonempty n).
  destruct (utoa n) eqn:E; [done|]. rewrite <- E. unfold utoa.
  by rewrite parse_digits_utoa by lia.
Qed.

Lemma utoa_inj n m : 0 ≤ n < 2 ^ 64 → 0 ≤ m < 2 ^ 64 → utoa n = utoa m → n = m.
Proof.
  intros Hn Hm Heq. pose proof (ParseUint_utoa 64 n Hn) as H1.
  rewrite Heq, ParseUint_utoa in H1 by done. congruence.
Qed.

Lemma strip_sign_digits s : all_digits s → strip_sign s = (false, s).
Proof.
  destruct s as [|c s]; [done|]. intros [Hc _]. unfold is_digit, char_digit in Hc. cbn.
  destruct c as [[] [] [] [] [] [] [] []]; try done; exfalso; by apply Hc.
Qed.

(** [Atoi] inverts [Itoa] on 64-bit integers. *)
Lemma Atoi_Itoa n : - 2 ^ 63 ≤ n < 2 ^ 63 → Atoi (Itoa n) = Ok n.
Proof.
  intros Hn. unfold Atoi, Itoa, ParseInt. destruct (Z.ltb_spec n 0).
  - cbn [strip_sign]. rewrite ParseUint_utoa by lia. cbn [bool_decide].
    rewrite bool_decide_false by done. cbn [negb andb].
    rewrite (proj2 (Z.ltb_ge _ _)) by lia. by rewrite Z.opp_involutive.
  - pose proof (utoa_nonempty n). pose proof (utoa_digits n).
    destruct (utoa n) eqn:E; [done|]. rewrite <- E, strip_sign_digits by (rewrite E; auto).
    rewrite ParseUint_utoa by lia. rewrite bool_decide_false by done. cbn [negb andb].
    by rewrite (proj2 (Z.leb_gt _ _)) by lia.
Qed.

Lemma Itoa_inj n m :
  - 2 ^ 63 ≤ n < 2 ^ 63 → - 2 ^ 63 ≤ m < 2 ^ 63 → Itoa n = Itoa m → n = m.
Proof.
  intros Hn Hm Heq. pose proof (Atoi_Itoa n Hn) as H. rewrite Heq, Atoi_Itoa in H by done. congruence.
Qed.

(** A run of digits followed by a non-digit splits in one way. *)
Lemma digits_split s1 s2 c1 c2 t1 t2 :
  all_digits s1 → all_digits s2 → char_digit c1 = None → char_digit c2 = None →
  String.app s1 (String.String c1 t1) = String.app s2 (String.String c2 t2) →
  s1 = s2 ∧ c1 = c2 ∧ t1 = t2.
Proof.
  revert s2. induction s1 as [|a s1 IH]; intros [|b s2] H1 H2 Hc1 Hc2 Heq; cbn in *; simplify_eq.
  - done.
  - by destruct H2 as [[] _].
  - by destruct H1 as [[] _].
  - destruct (IH s2) as (-> & -> & ->); naive_solver.
Qed.

(** [ParseUint] yields no value above the maximum of its bit size. *)
Lemma parse_digits_range maxVal s n v e :
  0 ≤ n ≤ maxVal → parse_digits maxVal s n = (v, e) → 0 ≤ v ≤ maxVal.
Proof.
  revert n. induction s as [|c s IH]; intros n Hn; cbn; [intros; simplify_eq; lia|].
  destruct (char_digit c) as [d|] eqn:E; [|intros; simplify_eq; lia].
  assert (0 ≤ d < 10).
  { unfold char_digit in E. destruct (Z.leb_spec 0 (Z.of_nat (nat_of_ascii c) - 48)),
      (Z.ltb_spec (Z.of_nat (nat_of_ascii c) - 48) 10); simplify_eq/=; lia. }
  destruct (Z.ltb_spec maxVal (n * 10 + d)); [intros; simplify_eq; lia|].
  apply IH. lia.
Qed.

Lemma ParseUint_range bits s v e :
  0 ≤ bits → ParseUint s bits = (v, e) → 0 ≤ v < 2 ^ bits.
Proof.
  intros Hb. assert (0 < 2 ^ bits) by (apply Z.pow_pos_nonneg; lia).
  unfold ParseUint. destruct s; [intros; simplify_eq; lia|].
  intros Hp%parse_digits_range; lia.
Qed.

(** What [Atoi] accepts fits Go's [int]. *)
Lemma Atoi_range s i : Atoi s = Ok i → - 2 ^ 63 ≤ i < 2 ^ 63.
Proof.
  unfold Atoi, ParseInt. destruct s as [|c s]; [done|].
  destruct (strip_sign (String.String c s)) as [neg s'].
  destruct (ParseUint s' 64) as [un err] eqn:E. apply ParseUint_range in E; [|lia].
  case_bool_decide; subst; [done|].
  destruct neg, (Z.leb_spec (2 ^ (64 - 1)) un), (Z.ltb_spec (2 ^ (64 - 1)) un);
    cbn [negb andb]; intros ?; simplify_eq; lia.
Qed.
