(* ===== verification/Card.v ===== *)
(** * Cards and their wire format ([internal/card/card.go])

    A suit and a rank are the [uint8] values of the source; a card is the pair.
    The wire format of the deck is the decimal string of the 1-based deck
    index.  The theorems show that the encodings are bijections between the 52
    cards and [0..51] / ["1".."52"], and what parsing does on everything
    else. *)

From stdpp Require Import base list gmap strings numbers.
From Stdlib Require Import ZArith Lia.
From S2P Require Import Prelude Strconv.

#[local] Open Scope Z_scope.

(** ** Suits *)

Definition Clubs : Z := 0.
Definition Diamonds : Z := 1.
Definition Hearts : Z := 2.
Definition Spades : Z := 3.

Definition Suit_String (s : Z) : string :=
  if s =? Clubs then "C" else if s =? Diamonds then "D"
  else if s =? Hearts then "H" else if s =? Spades then "S" else "?".

Definition Suit_Symbol (s : Z) : string :=
  if s =? Clubs then "♣" else if s =? Diamonds then "♦"
  else if s =? Hearts then "♥" else if s =? Spades then "♠" else "?".

Definition Suit_Name (s : Z) : string :=
  if s =? Clubs then "Clubs" else if s =? Diamonds then "Diamonds"
  else if s =? Hearts then "Hearts" else if s =? Spades then "Spades" else "?".

(** ** Ranks *)

Definition Two : Z := 0.
Definition Three : Z := 1.
Definition Four : Z := 2.
Definition Five : Z := 3.
Definition Six : Z := 4.
Definition Seven : Z := 5.
Definition Eight : Z := 6.
Definition Nine : Z := 7.
Definition Ten : Z := 8.
Definition Jack : Z := 9.
Definition Queen : Z := 10.
Definition King : Z := 11.
Definition Ace : Z := 12.

(** [const chars] of [Rank.Short]. *)
Definition rank_chars : list string :=
  ["2"; "3"; "4"; "5"; "6"; "7"; "8"; "9"; "T"; "J"; "Q"; "K"; "A"].

Definition Rank_Short (r : Z) : string :=
  if Z.of_nat (length rank_chars) <=? r then "?"
  else default "?" (rank_chars !! Z.to_nat r).

Definition Rank_Name (r : Z) : string :=
  if r =? Two then "Two" else if r =? Three then "Three" else if r =? Four then "Four"
  else if r =? Five then "Five" else if r =? Six then "Six" else if r =? Seven then "Seven"
  else if r =? Eight then "Eight" else if r =? Nine then "Nine" else if r =? Ten then "Ten"
  else if r =? Jack then "Jack" else if r =? Queen then "Queen" else if r =? King then "King"
  else if r =? Ace then "Ace" else "?".

Definition Plural (r : Z) : string :=
  if r =? Six then "Sixes" else Rank_Name r +:+ "s".

(** ** Cards *)

Record Card := mkCard { CSuit : Z; CRank : Z }.

#[export] Instance Card_eq_dec : EqDecision Card.
Proof. solve_decision. Defined.

#[export] Instance Card_countable : Countable Card.
Proof.
  refine (inj_countable' (λ c, (CSuit c, CRank c)) (λ p, mkCard p.1 p.2) _). by intros [].
Defined.

#[export] Instance Card_inhabited : Inhabited Card := populate (mkCard 0 0).

Definition Card_Short (c : Card) : string := Rank_Short (CRank c) +:+ Suit_String (CSuit c).
Definition Pretty (c : Card) : string := Rank_Short (CRank c) +:+ Suit_Symbol (CSuit c).
Definition Card_String (c : Card) : string := Card_Short c.

Definition Int (c : Card) : Z := CSuit c * 13 + CRank c.

Inductive card_err :=
| ErrCardRange (i : Z)
| ErrCardParse (s : string) (e : num_err)
| ErrTooFew (n : Z)
| ErrTooMany (n : Z)
| ErrDuplicate (c : Card).

#[export] Instance card_err_eq_dec : EqDecision card_err.
Proof. solve_decision. Defined.

(** The division is of a non-negative [int], so truncation and flooring
    agree; both conversions are to [uint8]. *)
Definition FromInt (i : Z) : res card_err Card :=
  if (i <? 0) || (52 <=? i) then Err (ErrCardRange i)
  else Ok (mkCard (u8 (Z.quot i 13)) (u8 (Z.rem i 13))).

Definition ParseDeckString (s : string) : res card_err Card :=
  i ← wrap_err (ErrCardParse s) (Atoi s);
  FromInt (i64 (i - 1)).

Definition DeckString (c : Card) : string := Itoa (Int c + 1).

(** The loop fills [out] by index, which is collecting the results; the first
    failing string decides the error. *)
Fixpoint ParseDeckStrings (ss : list string) : res card_err (list Card) :=
  match ss with
  | [] => Ok []
  | s :: ss =>
      c ← ParseDeckString s;
      cs ← ParseDeckStrings ss;
      Ok (c :: cs)
  end.

(** ** Properties *)

(** The 52 cards. *)
Definition card_wf (c : Card) : Prop := 0 ≤ CSuit c < 4 ∧ 0 ≤ CRank c < 13.

#[export] Instance card_wf_dec c : Decision (card_wf c).
Proof. unfold card_wf. apply _. Defined.

Lemma Int_range c : card_wf c → 0 ≤ Int c < 52.
Proof. unfold card_wf, Int. lia. Qed.

Lemma FromInt_Int c : card_wf c → FromInt (Int c) = Ok c.
Proof.
  intros Hc. pose proof (Int_range c Hc). unfold FromInt.
  rewrite (proj2 (Z.ltb_ge _ _)), (proj2 (Z.leb_gt _ _)) by lia. cbn [orb]. f_equal.
  destruct c as [s r]. unfold card_wf, Int in *. cbn in *.
  rewrite Z.quot_div_nonneg, Z.rem_mod_nonneg by lia. f_equal.
  - rewrite Z.div_add_l, Z.div_small, Z.add_0_r by lia. apply u8_small. lia.
  - rewrite Z.add_comm, Z.mod_add, Z.mod_small by lia. apply u8_small. lia.
Qed.

Lemma FromInt_Ok i c : FromInt i = Ok c ↔ card_wf c ∧ Int c = i.
Proof.
  split; [|intros [Hc <-]; by apply FromInt_Int].
  unfold FromInt. destruct (Z.ltb_spec i 0), (Z.leb_spec 52 i); cbn [orb]; intros ?; simplify_eq/=.
  rewrite Z.quot_div_nonneg, Z.rem_mod_nonneg by lia.
  pose proof (Z.div_mod i 13). pose proof (Z.mod_pos_bound i 13).
  assert (0 ≤ i / 13 < 4) by (split; [apply Z.div_pos|apply Z.div_lt_upper_bound]; lia).
  rewrite !u8_small by lia. unfold card_wf, Int. cbn. lia.
Qed.

Lemma ParseDeckString_DeckString c : card_wf c → ParseDeckString (DeckString c) = Ok c.
Proof.
  intros Hc. pose proof (Int_range c Hc). unfold ParseDeckString, DeckString.
  rewrite Atoi_Itoa by lia. cbn. rewrite i64_small by lia.
  replace (Int c + 1 - 1) with (Int c) by lia. by apply FromInt_Int.
Qed.

(** Every card that parsing yields is one of the 52. *)
Lemma ParseDeckString_wf s c : ParseDeckString s = Ok c → card_wf c.
Proof. unfold ParseDeckString. intros ?. inv_res. by apply FromInt_Ok in H0 as [? _]. Qed.

Lemma ParseDeckStrings_Ok ss cs :
  ParseDeckStrings ss = Ok cs ↔ Forall2 (λ s c, ParseDeckString s = Ok c) ss cs.
Proof.
  revert cs. induction ss as [|s ss IH]; intros cs; cbn.
  - split; [intros [= <-]; constructor|]. inversion 1; subst; done.
  - split.
    + intros ?. inv_res. constructor; [done|]. by apply IH.
    + inversion 1 as [|? c ? cs' Hc Hcs]; subst. rewrite Hc. cbn.
      apply IH in Hcs. by rewrite Hcs.
Qed.

(** The wire format of a card is a bijection.  Every list of the 52 cards
    survives printing to deck strings and parsing back (deck strings are
    1-based), distinct cards print differently, and conversely parsing yields
    only those cards, one per string. *)
Theorem deck_string_roundtrip cs :
  Forall card_wf cs →
  ParseDeckStrings (DeckString <$> cs) = Ok cs ∧
  (∀ c c', c ∈ cs → c' ∈ cs → DeckString c = DeckString c' → c = c') ∧
  (∀ ss cs', ParseDeckStrings ss = Ok cs' → Forall card_wf cs' ∧ length cs' = length ss).
Proof.
  intros Hcs. split_and!.
  - apply ParseDeckStrings_Ok. induction Hcs; constructor; auto.
    by apply ParseDeckString_DeckString.
  - rewrite list.Forall_forall in Hcs. intros c c' Hc Hc' Heq.
    pose proof (ParseDeckString_DeckString c (Hcs _ Hc)) as H.
    rewrite Heq, ParseDeckString_DeckString in H by auto. congruence.
  - intros ss cs' H. apply ParseDeckStrings_Ok in H. split; [|symmetry; by eapply Forall2_length].
    induction H; constructor; auto. by eapply ParseDeckString_wf.
Qed.

Lemma deck_string_roundtrip_witness :
  ParseDeckStrings (DeckString <$> [mkCard Spades Ace; mkCard Clubs Two])
  = Ok [mkCard Spades Ace; mkCard Clubs Two].
Proof.
  apply (deck_string_roundtrip [mkCard Spades Ace; mkCard Clubs Two]).
  repeat constructor; vm_compute; congruence.
Defined.

(** What [FromInt] and [ParseDeckString] do on every input: a card
    exactly for an index of the deck, the range error with the offending index
    for every other integer, and the conversion's error for a string that is
    no 64-bit integer; neither ever panics. *)
Theorem parse_deck_string_total s :
  match Atoi s with
  | Ok i =>
      if decide (1 ≤ i ≤ 52)
      then ∃ c, ParseDeckString s = Ok c ∧ card_wf c ∧ Int c = i - 1
      else ParseDeckString s = Err (ErrCardRange (i64 (i - 1)))
  | Err e => ParseDeckString s = Err (ErrCardParse s e)
  | Panic => False
  end.
Proof.
  unfold ParseDeckString. pose proof (Atoi_range s) as Hr.
  destruct (Atoi s) as [i|e|] eqn:E; cbn; [|done|].
  - specialize (Hr i eq_refl). case_decide.
    + rewrite i64_small by lia. destruct (FromInt (i - 1)) as [c|e|] eqn:F.
      * exists c. apply FromInt_Ok in F. naive_solver.
      * exfalso. unfold FromInt in F.
        rewrite (proj2 (Z.ltb_ge _ _)), (proj2 (Z.leb_gt _ _)) in F by lia. done.
      * exfalso. unfold FromInt in F. by destruct (_ || _).
    + unfold FromInt. destruct (decide (i = - 2 ^ 63)) as [->|].
      { by vm_compute. }
      rewrite i64_small by lia.
      destruct (Z.ltb_spec (i - 1) 0), (Z.leb_spec 52 (i - 1)); cbn [orb]; try done. lia.
  - unfold Atoi in E. by destruct (ParseInt s 64) as [? []].
Qed.
