(* ===== verification/Eval.v ===== *)
(** * Hand evaluation ([internal/card/eval.go])

    The operations of the evaluator, over any [GoRuntime] (the evaluator sorts
    with [sort.Slice] and ranges over a map).  A Go array [[5]T] is a list that
    the operations index; the proofs show that it always has five elements and
    that no index is out of range. *)

From stdpp Require Import base list gmap strings numbers sorting.
From Stdlib Require Import ZArith Lia.
From S2P Require Import Prelude Runtime Strconv Card.

#[local] Open Scope Z_scope.

Definition HighCard : Z := 0.
Definition OnePair : Z := 1.
Definition TwoPair : Z := 2.
Definition ThreeOfAKind : Z := 3.
Definition Straight : Z := 4.
Definition Flush : Z := 5.
Definition FullHouse : Z := 6.
Definition FourOfAKind : Z := 7.
Definition StraightFlush : Z := 8.

Definition Category_String (c : Z) : string :=
  if c =? HighCard then "High Card" else if c =? OnePair then "One Pair"
  else if c =? TwoPair then "Two Pair" else if c =? ThreeOfAKind then "Three of a Kind"
  else if c =? Straight then "Straight" else if c =? Flush then "Flush"
  else if c =? FullHouse then "Full House" else if c =? FourOfAKind then "Four of a Kind"
  else if c =? StraightFlush then "Straight Flush" else "?".

Record HandRank := mkHandRank {
  HCategory : Z;
  Tiebreakers : list Z;
  HBest : list Card;
}.

#[export] Instance HandRank_eq_dec : EqDecision HandRank.
Proof. solve_decision. Defined.

(** The tie-breaker array after assigning its first entries, the rest zero. *)
Definition ties (rs : list Z) : list Z := take 5 (rs ++ replicate 5 0).

Definition zero_card : Card := mkCard 0 0.

Definition zero_HandRank : HandRank := mkHandRank 0 (ties []) (replicate 5 zero_card).

Fixpoint compare_ties (a b : list Z) : Z :=
  match a, b with
  | x :: a, y :: b =>
      if negb (x =? y) then if y <? x then 1 else -1 else compare_ties a b
  | _, _ => 0
  end.

Definition Compare (a b : HandRank) : Z :=
  if negb (HCategory a =? HCategory b) then
    if HCategory b <? HCategory a then 1 else -1
  else compare_ties (Tiebreakers a) (Tiebreakers b).

Definition Describe (h : HandRank) : res Empty_set string :=
  t0 ← idx (Tiebreakers h) 0;
  t1 ← idx (Tiebreakers h) 1;
  Ok (if HCategory h =? StraightFlush then
        if t0 =? Ace then "Royal Flush" else "Straight Flush, " +:+ Rank_Name t0 +:+ "-high"
      else if HCategory h =? FourOfAKind then "Four of a Kind, " +:+ Plural t0
      else if HCategory h =? FullHouse then
        "Full House, " +:+ Plural t0 +:+ " full of " +:+ Plural t1
      else if HCategory h =? Flush then "Flush, " +:+ Rank_Name t0 +:+ "-high"
      else if HCategory h =? Straight then "Straight, " +:+ Rank_Name t0 +:+ "-high"
      else if HCategory h =? ThreeOfAKind then "Three of a Kind, " +:+ Plural t0
      else if HCategory h =? TwoPair then "Two Pair, " +:+ Plural t0 +:+ " and " +:+ Plural t1
      else if HCategory h =? OnePair then "Pair of " +:+ Plural t0
      else if HCategory h =? HighCard then "High Card, " +:+ Rank_Name t0
      else Category_String (HCategory h)).

(** ** Straights and groups *)

(** [r[i] != r[i+1]+1] of the loop, on [uint8]. *)
Fixpoint descending (r : list Z) : bool :=
  match r with
  | x :: ((y :: _) as r') => (x =? u8 (y + 1)) && descending r'
  | _ => true
  end.

Definition detectStraight (r : list Z) : res Empty_set (bool * Z) :=
  if decide (r = [Ace; Five; Four; Three; Two]) then Ok (true, Five)
  else if descending r then r0 ← idx r 0; Ok (true, r0) else Ok (false, 0).

Record rankGroup := mkGroup { grank : Z; gcount : Z }.

#[export] Instance rankGroup_eq_dec : EqDecision rankGroup.
Proof. solve_decision. Defined.

Definition group_less (a b : rankGroup) : bool :=
  if negb (gcount a =? gcount b) then gcount b <? gcount a else grank b <? grank a.

(** [counts[c.Rank]++] over the hand. *)
Definition rank_counts (ranks : list Z) : gmap Z Z :=
  fold_left (λ m r, <[r := default 0 (m !! r) + 1]> m) ranks ∅.

(** Writing successive cards into an array: the state is the array and the
    next index. *)
Definition put (st : list Card * Z) (c : Card) : res Empty_set (list Card * Z) :=
  out ← upd st.1 st.2 c; Ok (out, st.2 + 1).

(** [c.Rank == g.rank], [c.Rank != Ace] and [mask&(1<<k) != 0] guard a write. *)
Definition put_if (b : bool) (st : list Card * Z) (c : Card) : res Empty_set (list Card * Z) :=
  if b then put st c else Ok st.

Definition arrangeByGroups (sorted : list Card) (groups : list rankGroup)
    : res Empty_set (list Card) :=
  st ← foldM (λ st g, foldM (λ st c, put_if (CRank c =? grank g) st c) sorted st)
         groups (replicate 5 zero_card, 0);
  Ok st.1.

Definition arrangeStraight (sorted : list Card) (high : Z) : res Empty_set (list Card) :=
  if negb (high =? Five) then Ok sorted
  else
    st ← foldM (λ st c, put_if (negb (CRank c =? Ace)) st c) sorted (replicate 5 zero_card, 0);
    c0 ← idx sorted 0;
    upd st.1 4 c0.

Section eval.
Context `{GoRuntime}.

Definition groupByRank (sorted : list Card) : list rankGroup :=
  sort_slice group_less
    ((λ p, mkGroup p.1 p.2) <$> range_order (map_to_list (rank_counts (CRank <$> sorted)))).

Definition card_less (a b : Card) : bool := CRank b <? CRank a.

(** [groups[i].rank] *)
Definition group_rank (groups : list rankGroup) (i : Z) : res Empty_set Z :=
  g ← idx groups i; Ok (grank g).

(** [len(groups) > 1 && groups[1].count == 2] *)
Definition second_pair (groups : list rankGroup) : res Empty_set bool :=
  if 1 <? Z.of_nat (length groups) then g1 ← idx groups 1; Ok (gcount g1 =? 2) else Ok false.

(** A rank decided by the groups: its tie-breakers are the first [k] group
    ranks, its cards are arranged by group. *)
Definition grouped (cat : Z) (k : nat) (sorted : list Card) (groups : list rankGroup)
    : res Empty_set HandRank :=
  rs ← foldM (λ rs i, r ← group_rank groups (Z.of_nat i); Ok (rs ++ [r])) (seq 0 k) [];
  best ← arrangeByGroups sorted groups;
  Ok (mkHandRank cat (ties rs) best).

Definition Rank5 (hand : list Card) : res Empty_set HandRank :=
  let sorted := sort_slice card_less hand in
  s0 ← idx sorted 0; s1 ← idx sorted 1; s2 ← idx sorted 2; s3 ← idx sorted 3; s4 ← idx sorted 4;
  let flush := (CSuit s0 =? CSuit s1) && (CSuit s1 =? CSuit s2)
               && (CSuit s2 =? CSuit s3) && (CSuit s3 =? CSuit s4) in
  let ranks := [CRank s0; CRank s1; CRank s2; CRank s3; CRank s4] in
  '(straight, straightHigh) ← detectStraight ranks;
  if straight && flush then
    best ← arrangeStraight sorted straightHigh;
    Ok (mkHandRank StraightFlush (ties [straightHigh]) best)
  else
    let groups := groupByRank sorted in
    g0 ← idx groups 0;
    pair1 ← second_pair groups;
    if gcount g0 =? 4 then grouped FourOfAKind 2 sorted groups
    else if (gcount g0 =? 3) && pair1 then grouped FullHouse 2 sorted groups
    else if flush then Ok (mkHandRank Flush (ties ranks) sorted)
    else if straight then
      best ← arrangeStraight sorted straightHigh;
      Ok (mkHandRank Straight (ties [straightHigh]) best)
    else if gcount g0 =? 3 then grouped ThreeOfAKind 3 sorted groups
    else if (gcount g0 =? 2) && pair1 then grouped TwoPair 3 sorted groups
    else if gcount g0 =? 2 then grouped OnePair 4 sorted groups
    else Ok (mkHandRank HighCard (ties ranks) sorted).

(** ** The best five of up to seven *)

(** [for x != 0 { n += x & 1; x >>= 1 }]; a positive [x] has [log2 x + 1]
    bits, so the fuel is never exhausted. *)
Fixpoint popcount_loop (fuel : nat) (x n : Z) : Z :=
  match fuel with
  | O => n
  | S fuel' =>
      if x =? 0 then n else popcount_loop fuel' (Z.shiftr x 1) (n + Z.land x 1)
  end.

Definition popcount (x : Z) : Z := popcount_loop (S (S (Z.to_nat (Z.log2 x)))) x 0.

Fixpoint first_duplicate_from (seen : gset Card) (cards : list Card) : option Card :=
  match cards with
  | [] => None
  | c :: cards => if decide (c ∈ seen) then Some c else first_duplicate_from ({[c]} ∪ seen) cards
  end.

Definition firstDuplicate (cards : list Card) : option Card := first_duplicate_from ∅ cards.

(** The variables of [Best]'s loop. *)
Record best_state := mkBest { bs_best : HandRank; bs_first : bool; bs_combo : list Card }.

(** The inner loop: the cards of [mask] into [combo]. *)
Definition fill_combo (cards : list Card) (mask : Z) (combo : list Card)
    : res Empty_set (list Card) :=
  st ← foldM (λ st k,
          c ← idx cards (Z.of_nat k);
          put_if (negb (Z.land mask (Z.shiftl 1 (Z.of_nat k)) =? 0)) st c)
        (seq 0 (length cards)) (combo, 0);
  Ok st.1.

Definition best_step (cards : list Card) (st : best_state) (mask : Z)
    : res Empty_set best_state :=
  if negb (popcount mask =? 5) then Ok st
  else
    combo ← fill_combo cards mask (bs_combo st);
    r ← Rank5 combo;
    if bs_first st || (0 <? Compare r (bs_best st)) then Ok (mkBest r false combo)
    else Ok (mkBest (bs_best st) (bs_first st) combo).

(** [for mask := 1; mask < (1 << n); mask++] *)
Definition masks (n : nat) : list Z := Z.of_nat <$> seq 1 (2 ^ n - 1).

Definition Best (cards : list Card) : res card_err HandRank :=
  let n := Z.of_nat (length cards) in
  if n <? 5 then Err (ErrTooFew n)
  else if 7 <? n then Err (ErrTooMany n)
  else
    match firstDuplicate cards with
    | Some c => Err (ErrDuplicate c)
    | None =>
        st ← no_err (foldM (best_step cards) (masks (length cards))
                       (mkBest zero_HandRank true (replicate 5 zero_card)));
        Ok (bs_best st)
    end.

End eval.
