(* ===== verification/EvalProofs.v ===== *)
(** * The evaluator: reference definition, classification and order *)

From stdpp Require Import base list gmap strings numbers sorting.
From Stdlib Require Import ZArith Lia.
From S2P Require Import Prelude Runtime Strconv Card Eval.

#[local] Open Scope Z_scope.

(** ** The reference: what a poker hand is worth

    Stated on the multiset of ranks and on whether the suits agree, with no
    sorting of cards: a straight is a run all of whose ranks occur, the other
    hands are told apart by how often their ranks occur. *)

Definition multiplicity (r : Z) (ranks : list Z) : nat := length (filter (λ x, x = r) ranks).

(** The five ranks of the straight with high card [h]; the wheel plays the
    ace below the two. *)
Definition run (h : Z) : list Z :=
  if h =? Five then [Five; Four; Three; Two; Ace] else [h; h - 1; h - 2; h - 3; h - 4].

Definition straight_high (ranks : list Z) : option Z :=
  head (filter (λ h, Forall (λ r, r ∈ ranks) (run h))
          [Ace; King; Queen; Jack; Ten; Nine; Eight; Seven; Six; Five]).

(** The distinct ranks, the more frequent first and then the higher. *)
Definition by_frequency (ranks : list Z) : list rankGroup :=
  insertion_sort group_less
    ((λ r, mkGroup r (Z.of_nat (multiplicity r ranks))) <$> remove_dups ranks).

(** What the ranks are worth by their frequencies alone. *)
Definition kind_of (counts : list Z) : Z :=
  match counts with
  | [4; 1] => FourOfAKind
  | [3; 2] => FullHouse
  | [3; 1; 1] => ThreeOfAKind
  | [2; 2; 1] => TwoPair
  | [2; 1; 1; 1] => OnePair
  | _ => HighCard
  end.

Definition ref_category (ranks : list Z) (flush : bool) : Z :=
  match straight_high ranks with
  | Some _ => if flush then StraightFlush else Straight
  | None => if flush then Flush else kind_of (gcount <$> by_frequency ranks)
  end.

Definition ref_ties (ranks : list Z) : list Z :=
  match straight_high ranks with
  | Some h => ties [h]
  | None => ties (grank <$> by_frequency ranks)
  end.

(** The order in which the five cards are shown. *)
Definition ref_display (ranks : list Z) : list Z :=
  match straight_high ranks with
  | Some h => run h
  | None => concat ((λ g, replicate (Z.to_nat (gcount g)) (grank g)) <$> by_frequency ranks)
  end.

Definition same_suit (hand : list Card) : bool :=
  match hand with
  | [] => true
  | c :: hand => forallb (λ d, CSuit d =? CSuit c) hand
  end.

(** ** Sorting *)

Lemma card_less_weak : weak_order card_less.
Proof. unfold card_less. split; intros x y; intros; zcases; try done; lia. Qed.

Lemma group_less_weak : weak_order group_less.
Proof.
  unfold group_less. split.
  - intros x y. zcases; cbn [negb]; zcases; try done; lia.
  - intros x y z. zcases; cbn [negb] in *; zcases; intros; try done; lia.
Qed.

Lemma group_less_total x y : group_less x y = false → group_less y x = false → x = y.
Proof.
  unfold group_less. destruct x, y; cbn. zcases; cbn [negb] in *; zcases; intros; try done; try lia.
  f_equal; lia.
Qed.

Definition gtb (x y : Z) : bool := y <? x.

Lemma gtb_weak : weak_order gtb.
Proof. unfold gtb. split; intros x y; intros; zcases; try done; lia. Qed.

Section eval.
Context `{RuntimeLaws}.

(** The ranks of the sorted hand, whatever the order of equal ranks. *)
Lemma sorted_ranks hand :
  CRank <$> sort_slice card_less hand = insertion_sort gtb (CRank <$> hand).
Proof.
  apply (sorted_unique gtb).
  - unfold gtb. intros; zcases; try done; lia.
  - apply StronglySorted_map. apply (sort_sorted _ card_less). apply card_less_weak.
  - apply (@sort_sorted insertion_runtime insertion_laws), gtb_weak.
  - rewrite sort_perm. symmetry. apply (@sort_perm insertion_runtime insertion_laws).
Qed.

(** The groups do not depend on the runtime's map order or sort. *)
Lemma groupByRank_insertion sorted :
  groupByRank sorted
  = insertion_sort group_less
      ((λ p, mkGroup p.1 p.2) <$> map_to_list (rank_counts (CRank <$> sorted))).
Proof.
  unfold groupByRank. rewrite <- sort_slice_insertion.
  - apply sort_slice_unique; [apply group_less_weak| |by rewrite range_perm].
    intros; by apply group_less_total.
  - apply group_less_weak.
  - intros; by apply group_less_total.
Qed.

End eval.

(** ** Exhaustive comparison on sorted ranks *)

(** The descending lists of [n] ranks up to [m]. *)
Fixpoint desc_lists (n : nat) (m : nat) : list (list Z) :=
  match n with
  | O => [[]]
  | S n' => concat ((λ k, cons (Z.of_nat k) <$> desc_lists n' k) <$> seq 0 (S m))
  end.

Lemma elem_desc_lists l m :
  StronglySorted (λ x y, gtb y x = false) l → Forall (λ r, 0 ≤ r ≤ Z.of_nat m) l →
  l ∈ desc_lists (length l) m.
Proof.
  intros Hs. revert m. induction Hs as [|x l Hs IH Hx]; intros m Hr; [by left|].
  apply Forall_cons in Hr as [Hxr Hr].
  cbn [length desc_lists]. apply list_elem_of_In, in_concat.
  exists (cons (Z.of_nat (Z.to_nat x)) <$> desc_lists (length l) (Z.to_nat x)). split.
  - apply in_map_iff. exists (Z.to_nat x). split; [done|]. apply in_seq. lia.
  - apply in_map_iff. exists l. split; [f_equal; lia|]. apply list_elem_of_In, IH.
    rewrite list.Forall_forall in Hx, Hr |- *. intros y Hy. specialize (Hx y Hy). specialize (Hr y Hy).
    unfold gtb in Hx. zcases; [done|]. lia.
Qed.

(** The groups as the evaluator computes them from the sorted ranks. *)
Definition computed_groups (l : list Z) : list rankGroup :=
  insertion_sort group_less ((λ p, mkGroup p.1 p.2) <$> map_to_list (rank_counts l)).

Definition patterns : list (list Z) :=
  [[4; 1]; [3; 2]; [3; 1; 1]; [2; 2; 1]; [2; 1; 1; 1]; [1; 1; 1; 1; 1]].

(** What the evaluator's helpers compute on a descending list of ranks, in
    terms of the reference. *)
Definition rank_facts (l : list Z) : Prop :=
  computed_groups l = by_frequency l ∧
  detectStraight l
  = Ok (match straight_high l with Some h => (true, h) | None => (false, 0) end) ∧
  (gcount <$> by_frequency l ∈ patterns ∨ ∃ r, l = replicate 5 r) ∧
  (NoDup l → gcount <$> by_frequency l = [1; 1; 1; 1; 1] ∧ grank <$> by_frequency l = l) ∧
  (gcount <$> by_frequency l = [1; 1; 1; 1; 1] → NoDup l) ∧
  match straight_high l with
  | Some h => NoDup l ∧ (if h =? Five then l = [Ace; Five; Four; Three; Two] else l = run h)
  | None => True
  end ∧
  concat ((λ g, filter (λ r, r = grank g) l) <$> by_frequency l)
  = concat ((λ g, replicate (Z.to_nat (gcount g)) (grank g)) <$> by_frequency l).

Definition all_equal (l : list Z) : bool :=
  match l with [] => false | r :: _ => bool_decide (l = replicate 5 r) end.

Lemma all_equal_spec l : all_equal l = true → ∃ r, l = replicate 5 r.
Proof. destruct l as [|r l]; [done|]. cbn. intros ?%bool_decide_eq_true. eauto. Qed.

Definition rank_facts_b (l : list Z) : bool :=
  let bf := by_frequency l in
  let sh := straight_high l in
  let nd := bool_decide (NoDup l) in
  let ones := bool_decide (gcount <$> bf = [1; 1; 1; 1; 1]) in
  bool_decide (computed_groups l = bf)
  && bool_decide (detectStraight l
                  = Ok (match sh with Some h => (true, h) | None => (false, 0) end))
  && (bool_decide (gcount <$> bf ∈ patterns) || all_equal l)
  && (negb nd || (ones && bool_decide (grank <$> bf = l)))
  && (negb ones || nd)
  && match sh with
     | Some h => nd && (if h =? Five then bool_decide (l = [Ace; Five; Four; Three; Two])
                        else bool_decide (l = run h))
     | None => true
     end
  && bool_decide (concat ((λ g, filter (λ r, r = grank g) l) <$> bf)
       = concat ((λ g, replicate (Z.to_nat (gcount g)) (grank g)) <$> bf)).

Lemma rank_facts_b_spec l : rank_facts_b l = true → rank_facts l.
Proof.
  unfold rank_facts_b, rank_facts. cbn zeta. intros Hb.
  repeat match goal with H : _ && _ = true |- _ => apply andb_prop in H as [? ?] end.
  split_and!.
  - by eapply bool_decide_eq_true.
  - by eapply bool_decide_eq_true.
  - match goal with H : _ || all_equal l = true |- _ => apply orb_prop in H as [H|H] end.
    + left. by eapply bool_decide_eq_true.
    + right. by apply all_equal_spec.
  - intros Hnd. rewrite (bool_decide_true (NoDup l) Hnd) in *. cbn [negb orb] in *.
    match goal with H : bool_decide _ && bool_decide (_ = l) = true |- _ =>
      apply andb_prop in H as [? ?] end.
    split; by eapply bool_decide_eq_true.
  - intros Ho. rewrite (bool_decide_true _ Ho) in *. cbn [negb orb] in *.
    by eapply bool_decide_eq_true.
  - destruct (straight_high l) as [h|]; [|done].
    match goal with H : _ && (if _ then _ else _) = true |- _ => apply andb_prop in H as [? Hl] end.
    split; [by eapply bool_decide_eq_true|]. destruct (h =? Five); by eapply bool_decide_eq_true.
  - by eapply bool_decide_eq_true.
Qed.

Lemma rank_facts_exhaustive : forallb rank_facts_b (desc_lists 5 12) = true.
Proof. vm_compute. reflexivity. Qed.

Lemma rank_facts_sorted l :
  length l = 5%nat → StronglySorted (λ x y, gtb y x = false) l →
  Forall (λ r, 0 ≤ r < 13) l → rank_facts l.
Proof.
  intros Hlen Hs Hr. apply rank_facts_b_spec.
  pose proof rank_facts_exhaustive as Hall. rewrite forallb_forall in Hall.
  apply Hall, list_elem_of_In. rewrite <- Hlen. apply elem_desc_lists; [done|].
  eapply Forall_impl; [exact Hr|]. cbn. lia.
Qed.

(** ** Writing cards into the result array *)

Lemma put_all l dn rest :
  (length l ≤ length rest)%nat →
  foldM put l (dn ++ rest, Z.of_nat (length dn))
  = Ok (dn ++ l ++ drop (length l) rest, Z.of_nat (length dn + length l)).
Proof.
  revert dn rest. induction l as [|c l IH]; intros dn rest Hlen; cbn [foldM length].
  { cbn. by rewrite Nat.add_0_r. }
  destruct rest as [|r rest]; cbn [length] in Hlen; [lia|].
  assert (put (dn ++ r :: rest, Z.of_nat (length dn)) c
          = Ok (dn ++ c :: rest, Z.of_nat (length dn) + 1)) as ->.
  { unfold put. cbn [fst snd]. rewrite upd_in_range by (rewrite length_app; cbn [length]; lia).
    cbn [mbind res_bind]. by rewrite Nat2Z.id, insert_app_r_alt, Nat.sub_diag by lia. }
  cbn [mbind res_bind].
  specialize (IH (dn ++ [c]) rest). rewrite length_app in IH. cbn [length] in IH.
  rewrite <- app_assoc in IH. cbn [app] in IH.
  replace (Z.of_nat (length dn) + 1) with (Z.of_nat (length dn + 1)) by lia.
  rewrite IH by lia. f_equal. f_equal; [|lia]. by rewrite <- app_assoc.
Qed.

Lemma put_if_filter (p : Card → bool) l st :
  foldM (λ st c, put_if (p c) st c) l st = foldM put (filter p l) st.
Proof.
  revert st. induction l as [|c l IH]; intros st; [done|]. cbn [foldM]. rewrite filter_cons.
  destruct (p c) eqn:E; cbn [put_if].
  - rewrite decide_True by done. cbn [foldM]. destruct (put st c); cbn; auto.
  - rewrite decide_False by auto. cbn. apply IH.
Qed.

Lemma foldM_concat {E S A B} (f : S → A → res E S) (g : B → list A) l s :
  foldM (λ s b, foldM f (g b) s) l s = foldM f (concat (g <$> l)) s.
Proof.
  revert s. induction l as [|b l IH]; intros s; [done|].
  cbn [foldM fmap list_fmap concat]. rewrite foldM_app. destruct (foldM f (g b) s); cbn; auto.
Qed.

Lemma foldM_ext {E S A} (f g : S → A → res E S) l s :
  (∀ s a, f s a = g s a) → foldM f l s = foldM g l s.
Proof.
  intros Hfg. revert s. induction l as [|a l IH]; intros s; [done|].
  cbn. rewrite Hfg. destruct (g s a); cbn; auto.
Qed.

(** The cards of each group in turn. *)
Definition grouped_cards (sorted : list Card) (groups : list rankGroup) : list Card :=
  concat ((λ g, filter (λ c, CRank c =? grank g) sorted) <$> groups).

Lemma arrangeByGroups_spec sorted groups :
  length (grouped_cards sorted groups) = 5%nat →
  arrangeByGroups sorted groups = Ok (grouped_cards sorted groups).
Proof.
  intros Hlen. unfold arrangeByGroups.
  rewrite (foldM_ext _ (λ st g, foldM put (filter (λ c, CRank c =? grank g) sorted) st))
    by (intros; apply put_if_filter).
  rewrite foldM_concat. fold (grouped_cards sorted groups).
  pose proof (put_all (grouped_cards sorted groups) [] (replicate 5 zero_card)) as Hp.
  cbn [app length] in Hp. change (Z.of_nat 0) with 0 in Hp.
  rewrite Hp by (rewrite length_replicate; lia). cbn [mbind res_bind fst].
  rewrite drop_ge by (rewrite length_replicate; lia). by rewrite app_nil_r.
Qed.

Lemma filter_split {A} (p q : A → bool) l :
  (∀ x, p x = true → q x = true → False) →
  filter (λ x, p x || q x) l ≡ₚ filter p l ++ filter q l.
Proof.
  intros Hd. induction l as [|x l IH]; [done|]. rewrite !filter_cons.
  specialize (Hd x). repeat case_decide; destruct (p x), (q x); try done; try (by exfalso; auto).
  - cbn. by rewrite IH.
  - rewrite IH. apply Permutation_middle.
Qed.

Lemma grouped_cards_perm sorted groups :
  NoDup (grank <$> groups) → (∀ c, c ∈ sorted → CRank c ∈ grank <$> groups) →
  grouped_cards sorted groups ≡ₚ sorted.
Proof.
  intros Hnd Hcov.
  assert (grouped_cards sorted groups
          ≡ₚ filter (λ c, existsb (λ g, CRank c =? grank g) groups) sorted) as ->.
  { clear Hcov. unfold grouped_cards. induction groups as [|g groups IH].
    - cbn. induction sorted; [done|]. by rewrite filter_cons.
    - apply NoDup_cons in Hnd as [Hg Hnd]. cbn [fmap list_fmap concat existsb].
      rewrite (filter_split (λ c, CRank c =? grank g)
                 (λ c, existsb (λ g, CRank c =? grank g) groups)), IH; [done|done|].
      intros c Hc (g' & Hg' & Heq)%existsb_exists. apply Z.eqb_eq in Hc, Heq.
      apply Hg. apply list_elem_of_fmap. exists g'. split; [congruence|by apply list_elem_of_In]. }
  clear Hnd. induction sorted as [|c sorted IH]; [done|]. rewrite filter_cons, decide_True.
  - f_equiv. apply IH. intros d Hd. apply Hcov. by right.
  - apply Is_true_true, existsb_exists. 
    pose proof (Hcov c ltac:(left)) as (g & ? & ?)%list_elem_of_fmap.
    exists g. split; [by apply list_elem_of_In|]. by apply Z.eqb_eq.
Qed.

Lemma filter_ranks r (sorted : list Card) :
  CRank <$> filter (λ c, CRank c =? r) sorted = filter (λ x, x = r) (CRank <$> sorted).
Proof.
  induction sorted as [|c sorted IH]; [done|]. rewrite fmap_cons, !filter_cons.
  destruct (Z.eqb_spec (CRank c) r); repeat case_decide; try done. cbn. by rewrite IH.
Qed.

Lemma grouped_cards_ranks sorted groups :
  CRank <$> grouped_cards sorted groups
  = concat ((λ g, filter (λ r, r = grank g) (CRank <$> sorted)) <$> groups).
Proof.
  unfold grouped_cards. induction groups as [|g groups IH]; [done|].
  cbn [fmap list_fmap concat]. by rewrite fmap_app, filter_ranks, IH.
Qed.

(** ** The reference depends on the ranks as a multiset *)

#[export] Instance multiplicity_proper : Proper ((=) ==> Permutation ==> (=)) multiplicity.
Proof. intros r ? <- l1 l2 Hp. unfold multiplicity. by rewrite Hp. Qed.

#[export] Instance by_frequency_proper : Proper (Permutation ==> (=)) by_frequency.
Proof.
  intros l1 l2 Hp. unfold by_frequency.
  apply (@sort_slice_unique insertion_runtime insertion_laws); [apply group_less_weak| |].
  { intros; by apply group_less_total. }
  rewrite (list_fmap_ext _ (λ r, mkGroup r (Z.of_nat (multiplicity r l2))) (remove_dups l1)) by
    (intros; by rewrite Hp).
  apply fmap_Permutation, NoDup_Permutation; [apply NoDup_remove_dups|apply NoDup_remove_dups|].
  intros r. rewrite !elem_of_remove_dups. by rewrite Hp.
Qed.

#[export] Instance straight_high_proper : Proper (Permutation ==> (=)) straight_high.
Proof.
  intros l1 l2 Hp. unfold straight_high. f_equal. apply list_filter_iff.
  intros h. apply Forall_iff. intros r. by rewrite Hp.
Qed.

Lemma by_frequency_ranks l :
  NoDup (grank <$> by_frequency l) ∧ (∀ r, r ∈ l → r ∈ grank <$> by_frequency l).
Proof.
  assert (grank <$> by_frequency l ≡ₚ remove_dups l) as Hp.
  { unfold by_frequency. rewrite (@sort_perm insertion_runtime insertion_laws).
    rewrite <- list_fmap_compose. cbn. by rewrite list_fmap_id. }
  split; [rewrite Hp; apply NoDup_remove_dups|]. intros r. by rewrite Hp, elem_of_remove_dups.
Qed.

(** ** The evaluator computes the reference *)

Lemma group_ranks_loop groups n :
  (n ≤ length groups)%nat →
  foldM (λ rs i, r ← group_rank groups (Z.of_nat i); Ok (rs ++ [r])) (seq 0 n) []
  = Ok (grank <$> take n groups).
Proof.
  induction n as [|n IH]; intros Hn; [done|].
  rewrite seq_S, foldM_app, IH by lia. change (0 + n)%nat with n. cbn [mbind res_bind foldM].
  destruct (lookup_lt_is_Some_2 groups n) as [g Hg]; [lia|].
  assert (group_rank groups (Z.of_nat n) = Ok (grank g)) as ->.
  { unfold group_rank. assert (idx groups (Z.of_nat n) = Ok g) as ->; [|done].
    apply idx_Ok. rewrite Nat2Z.id. split; [lia|done]. }
  cbn. erewrite take_S_r by done. by rewrite fmap_app.
Qed.

Lemma grouped_spec cat k sorted groups :
  length groups = k → grouped_cards sorted groups ≡ₚ sorted → length sorted = 5%nat →
  grouped cat k sorted groups
  = Ok (mkHandRank cat (ties (grank <$> groups)) (grouped_cards sorted groups)).
Proof.
  intros <- Hp Hlen. unfold grouped. rewrite group_ranks_loop by lia. cbn [mbind res_bind].
  rewrite arrangeByGroups_spec by (by rewrite Hp). by rewrite firstn_all.
Qed.

Lemma same_suit_spec hand :
  same_suit hand = true ↔ ∀ c d, c ∈ hand → d ∈ hand → CSuit c = CSuit d.
Proof.
  destruct hand as [|e hand]; cbn; [set_solver|]. rewrite forallb_forall. split.
  - intros Hs. assert (∀ c, c ∈ e :: hand → CSuit c = CSuit e) as Hall.
    { intros c [->|Hc]%elem_of_cons; [done|]. apply Z.eqb_eq, Hs. by apply list_elem_of_In. }
    intros c d ??. by rewrite (Hall c), (Hall d).
  - intros Hs c Hc. apply Z.eqb_eq, Hs; [right; by apply list_elem_of_In|left].
Qed.

#[export] Instance same_suit_proper : Proper (Permutation ==> (=)) same_suit.
Proof.
  intros h1 h2 Hp. apply eq_true_iff_eq. rewrite !same_suit_spec.
  split; intros Hs c d ??; apply Hs; by rewrite ?Hp || rewrite <- ?Hp.
Qed.

Lemma same_suit_chain s0 s1 s2 s3 s4 :
  (CSuit s0 =? CSuit s1) && (CSuit s1 =? CSuit s2) && (CSuit s2 =? CSuit s3)
  && (CSuit s3 =? CSuit s4) = same_suit [s0; s1; s2; s3; s4].
Proof. cbn. zcases; cbn [andb]; try done; exfalso; congruence. Qed.

(** Five distinct cards of one suit have distinct ranks. *)
Lemma flush_ranks_nodup hand : NoDup hand → same_suit hand = true → NoDup (CRank <$> hand).
Proof.
  intros Hnd Hs. rewrite same_suit_spec in Hs. apply NoDup_fmap_2_strong; [|done].
  intros [s r] [s' r'] Hc Hd Hr. specialize (Hs _ _ Hc Hd). cbn in *. congruence.
Qed.

(** There are only four cards of a rank. *)
Lemma no_five_of_a_kind hand r :
  NoDup hand → Forall card_wf hand → CRank <$> hand ≠ replicate 5 r.
Proof.
  intros Hnd Hwf Heq.
  assert (∀ c, c ∈ hand → CRank c = r) as Hr.
  { intros c Hc. assert (CRank c ∈ replicate 5 r) as Hin by (rewrite <- Heq; by apply list_elem_of_fmap_2).
    by apply elem_of_replicate in Hin as [? _]. }
  assert (length hand = 5%nat) as Hlen by (by rewrite <- (length_fmap CRank), Heq).
  assert (hand ⊆+ [mkCard 0 r; mkCard 1 r; mkCard 2 r; mkCard 3 r]) as Hsub.
  { apply NoDup_submseteq; [done|]. intros [s r'] Hc. pose proof (Hr _ Hc). cbn in *. subst r'.
    rewrite list.Forall_forall in Hwf. destruct (Hwf _ Hc) as [Hs _]. cbn in Hs.
    assert (s = 0 ∨ s = 1 ∨ s = 2 ∨ s = 3) as [ -> | [ -> | [ -> | -> ]]] by lia; set_solver. }
  apply submseteq_length in Hsub. cbn in Hsub. lia.
Qed.

Lemma arrangeStraight_spec s0 s1 s2 s3 s4 h :
  let sorted := [s0; s1; s2; s3; s4] in
  (if h =? Five then CRank <$> sorted = [Ace; Five; Four; Three; Two]
   else CRank <$> sorted = run h) →
  ∃ best, arrangeStraight sorted h = Ok best ∧ best ≡ₚ sorted ∧ CRank <$> best = run h.
Proof.
  cbn zeta. unfold arrangeStraight. destruct (Z.eqb_spec h Five) as [->|Hh]; cbn [negb].
  - intros Hr. destruct s0 as [? r0], s1 as [? r1], s2 as [? r2], s3 as [? r3], s4 as [? r4].
    cbn in Hr. simplify_eq. eexists. split; [cbn; reflexivity|]. split; [|done].
    by apply Permutation_sym, Permutation_cons_append.
  - eauto.
Qed.

(** What the reference says of a hand, in one predicate. *)
Definition ranked (hand : list Card) (hr : HandRank) : Prop :=
  HCategory hr = ref_category (CRank <$> hand) (same_suit hand) ∧
  Tiebreakers hr = ref_ties (CRank <$> hand) ∧
  CRank <$> HBest hr = ref_display (CRank <$> hand) ∧
  HBest hr ≡ₚ hand.

#[export] Instance ranked_proper : Proper (Permutation ==> (=) ==> iff) ranked.
Proof.
  intros h1 h2 Hp ? hr <-. unfold ranked. assert (CRank <$> h1 ≡ₚ CRank <$> h2) as Hr by (by rewrite Hp).
  unfold ref_category, ref_ties, ref_display.
  by rewrite (straight_high_proper _ _ Hr), (by_frequency_proper _ _ Hr), (same_suit_proper _ _ Hp), Hp.
Qed.

Section rank5.
Context `{RuntimeLaws}.

(** The branches below the straights, where the groups decide. *)
Lemma ranked_grouped s0 s1 s2 s3 s4 cat k :
  let sorted := [s0; s1; s2; s3; s4] in
  let l := CRank <$> sorted in
  rank_facts l → straight_high l = None →
  length (by_frequency l) = k →
  cat = ref_category l (same_suit sorted) →
  ∃ hr, grouped cat k sorted (by_frequency l) = Ok hr ∧ ranked sorted hr.
Proof.
  intros sorted l (_ & _ & _ & _ & _ & _ & Hcat) Hsh Hk Hcase.
  assert (grouped_cards sorted (by_frequency l) ≡ₚ sorted) as Hp.
  { destruct (by_frequency_ranks l) as [Hnd Hcov]. apply grouped_cards_perm; [done|].
    intros c Hc. apply Hcov. by apply list_elem_of_fmap_2. }
  eexists. split; [by apply grouped_spec|]. split_and!; cbn [HCategory Tiebreakers HBest]; [done| | |done].
  - unfold ref_ties. fold l. by rewrite Hsh.
  - unfold ref_display. fold l. rewrite Hsh, grouped_cards_ranks. done.
Qed.

(** The branches that show the cards in sorted order. *)
Lemma ranked_sorted s0 s1 s2 s3 s4 cat :
  let sorted := [s0; s1; s2; s3; s4] in
  let l := CRank <$> sorted in
  rank_facts l → straight_high l = None → NoDup l →
  cat = ref_category l (same_suit sorted) →
  ranked sorted (mkHandRank cat (ties l) sorted).
Proof.
  intros sorted l (_ & _ & _ & Hones & _ & _ & _) Hsh Hnd Hcase. destruct (Hones Hnd) as [Hc Hr].
  split_and!; cbn [HCategory Tiebreakers HBest]; [done| | |done].
  - unfold ref_ties. fold l. by rewrite Hsh, Hr.
  - unfold ref_display. fold l. rewrite Hsh. rewrite <- Hr at 1. clear -Hc.
    destruct (by_frequency l) as [|[] [|[] [|[] [|[] [|[] [|]]]]]]; try discriminate Hc.
    cbn in Hc. by simplify_eq/=.
Qed.

Lemma ranked_straight s0 s1 s2 s3 s4 h cat :
  let sorted := [s0; s1; s2; s3; s4] in
  let l := CRank <$> sorted in
  rank_facts l → straight_high l = Some h →
  cat = ref_category l (same_suit sorted) →
  ∃ best, arrangeStraight sorted h = Ok best ∧ ranked sorted (mkHandRank cat (ties [h]) best).
Proof.
  intros sorted l (_ & _ & _ & _ & _ & Hst & _) Hsh Hcase. rewrite Hsh in Hst.
  destruct Hst as [_ Hl]. destruct (arrangeStraight_spec s0 s1 s2 s3 s4 h Hl) as (best & ? & ? & ?).
  exists best. split; [done|]. split_and!; cbn [HCategory Tiebreakers HBest]; [done| | |done].
  - unfold ref_ties. fold l. by rewrite Hsh.
  - unfold ref_display. fold l. by rewrite Hsh.
Qed.

Lemma idx_5 {A} (a b c d e : A) :
  idx (E:=Empty_set) [a; b; c; d; e] 0 = Ok a ∧ idx (E:=Empty_set) [a; b; c; d; e] 1 = Ok b ∧
  idx (E:=Empty_set) [a; b; c; d; e] 2 = Ok c ∧ idx (E:=Empty_set) [a; b; c; d; e] 3 = Ok d ∧
  idx (E:=Empty_set) [a; b; c; d; e] 4 = Ok e.
Proof. done. Qed.

Lemma idx_0 {A} (a : A) l : idx (E:=Empty_set) (a :: l) 0 = Ok a.
Proof. done. Qed.

Lemma second_pair_cons g0 g1 groups : second_pair (g0 :: g1 :: groups) = Ok (gcount g1 =? 2).
Proof.
  unfold second_pair. rewrite (proj2 (Z.ltb_lt _ _)); [done|]. cbn [length]. lia.
Qed.

(** The groups of the sorted hand, whichever frequencies they have. *)
Lemma groupByRank_facts sorted :
  rank_facts (CRank <$> sorted) → groupByRank sorted = by_frequency (CRank <$> sorted).
Proof. intros [Hg _]. rewrite groupByRank_insertion. apply Hg. Qed.

(** What the evaluator's tests on the first two groups read. *)
Lemma groups_head groups c0 c1 cs :
  gcount <$> groups = c0 :: c1 :: cs →
  ∃ g0, idx (E:=Empty_set) groups 0 = Ok g0 ∧ gcount g0 = c0 ∧
    second_pair groups = Ok (c1 =? 2) ∧ length groups = S (S (length cs)).
Proof.
  intros Hc. pose proof (f_equal length Hc) as Hlen. rewrite length_fmap in Hlen.
  destruct groups as [|g0 [|g1 groups]]; try discriminate Hc.
  injection Hc as <- <- _. exists g0. by rewrite second_pair_cons.
Qed.

(** The sorted hand has the shape and the facts the evaluator relies on. *)
Lemma sorted_hand hand :
  length hand = 5%nat → NoDup hand → Forall card_wf hand →
  ∃ s0 s1 s2 s3 s4, sort_slice card_less hand = [s0; s1; s2; s3; s4] ∧
    NoDup [s0; s1; s2; s3; s4] ∧ Forall card_wf [s0; s1; s2; s3; s4] ∧
    rank_facts (CRank <$> [s0; s1; s2; s3; s4]).
Proof.
  intros Hlen Hnd Hwf. pose proof (sort_perm _ card_less hand) as Hp.
  assert (rank_facts (CRank <$> sort_slice card_less hand)) as Hf.
  { apply rank_facts_sorted.
    - by rewrite length_fmap, Hp.
    - rewrite sorted_ranks. apply (@sort_sorted insertion_runtime insertion_laws), gtb_weak.
    - apply Forall_fmap. rewrite Hp. eapply Forall_impl; [exact Hwf|]. by intros c [_ ?]. }
  rewrite <- Hp in Hlen, Hnd, Hwf.
  destruct (sort_slice card_less hand) as [|s0 [|s1 [|s2 [|s3 [|s4 [|]]]]]]; try discriminate Hlen.
  by exists s0, s1, s2, s3, s4.
Qed.

Lemma Rank5_ranked hand :
  length hand = 5%nat → NoDup hand → Forall card_wf hand →
  ∃ hr, Rank5 hand = Ok hr ∧ ranked hand hr.
Proof.
  intros Hlen Hnd Hwf. pose proof (sort_perm _ card_less hand) as Hp. setoid_rewrite (ranked_proper _ _ (symmetry Hp) _ _ eq_refl).
  destruct (sorted_hand hand Hlen Hnd Hwf) as (s0 & s1 & s2 & s3 & s4 & Hso & Hnd' & Hwf' & Hf).
  unfold Rank5. rewrite Hso. clear Hp Hso Hlen Hnd Hwf hand.
  rewrite (groupByRank_facts _ Hf).
  destruct (idx_5 s0 s1 s2 s3 s4) as (-> & -> & -> & -> & ->). cbn [mbind res_bind].
  rewrite same_suit_chain. set (sorted := [s0; s1; s2; s3; s4]) in *.
  change [CRank s0; CRank s1; CRank s2; CRank s3; CRank s4] with (CRank <$> sorted).
  set (l := CRank <$> sorted) in *.
  pose proof Hf as (_ & Hds & Hpat & Hones & Hones' & Hst & _). rewrite Hds. cbn [mbind res_bind].
  destruct Hpat as [Hpat|[r Hr]]; [|by destruct (no_five_of_a_kind _ r Hnd' Hwf')].
  assert (same_suit sorted = true → NoDup l) as Hfl by (intros; by apply flush_ranks_nodup).
  destruct (straight_high l) as [h|] eqn:Hsh.
  - destruct Hst as [Hndl _]. destruct (Hones Hndl) as [Hc _].
    destruct (groups_head _ _ _ _ Hc) as (g0 & -> & Hg0 & -> & _). cbn [mbind res_bind].
    rewrite Hg0. destruct (same_suit sorted) eqn:Hs; cbn [andb Z.eqb Pos.eqb];
      destruct (ranked_straight s0 s1 s2 s3 s4 h (ref_category l (same_suit sorted)) Hf Hsh eq_refl)
        as (best & Hb & Hrk); fold sorted in Hb, Hrk; rewrite Hb; cbn [mbind res_bind];
      eexists; (split; [done|]); unfold ref_category in Hrk; by rewrite Hsh, Hs in Hrk.
  - cbn [andb]. assert (∀ cs, gcount <$> by_frequency l = cs → cs ≠ [1; 1; 1; 1; 1] →
      same_suit sorted = false) as Hns.
    { intros cs Hc Hne. destruct (same_suit sorted); [|done]. destruct (Hones (Hfl eq_refl)). congruence. }
    assert (∀ cs, gcount <$> by_frequency l = cs →
      ref_category l (same_suit sorted) = if same_suit sorted then Flush else kind_of cs) as Hcat.
    { intros cs <-. unfold ref_category. by rewrite Hsh. }
    unfold patterns in Hpat. repeat rewrite elem_of_cons in Hpat.
    destruct Hpat as [Hc|[Hc|[Hc|[Hc|[Hc|[Hc|[]%not_elem_of_nil]]]]]];
      destruct (groups_head _ _ _ _ Hc) as (g0 & -> & Hg0 & -> & Hlg);
      cbn [mbind res_bind]; rewrite Hg0; cbn [andb Z.eqb Pos.eqb]; specialize (Hcat _ Hc);
      try (specialize (Hns _ Hc ltac:(done)); rewrite Hns in Hcat; rewrite ?Hns;
           apply ranked_grouped; [done|done|done|fold sorted l; by rewrite Hns, Hcat]).
    destruct (same_suit sorted) eqn:Hs; eexists; (split; [done|]);
      apply ranked_sorted; fold sorted l; auto; by rewrite Hs, Hcat.
Qed.
End rank5.
