(* ===== verification/EvalProps.v ===== *)
(** * The evaluator: theorems about [Rank5], [Compare] and [Best] *)

From stdpp Require Import base list gmap strings numbers sorting.
From Stdlib Require Import ZArith Lia.
From S2P Require Import Prelude Runtime Strconv Card Eval EvalProofs.

#[local] Open Scope Z_scope.

(** ** The order of hands *)

Definition rank_key (h : HandRank) : list Z := HCategory h :: Tiebreakers h.

Lemma Compare_key a b : Compare a b = compare_ties (rank_key a) (rank_key b).
Proof. done. Qed.

Lemma compare_ties_antisym a b : compare_ties b a = - compare_ties a b.
Proof.
  revert b. induction a as [|x a IH]; intros [|y b]; cbn; try done.
  zcases; cbn [negb]; zcases; try lia. apply IH.
Qed.

Lemma compare_ties_eq a b : length a = length b → compare_ties a b = 0 ↔ a = b.
Proof.
  revert b. induction a as [|x a IH]; intros [|y b] Hlen; cbn; try done.
  injection Hlen as Hlen. zcases; cbn [negb]; zcases; subst; try (split; congruence || lia).
  rewrite IH by done. split; congruence.
Qed.

Lemma compare_ties_trans a b c :
  length a = length b → length b = length c →
  0 ≤ compare_ties a b → 0 ≤ compare_ties b c → 0 ≤ compare_ties a c.
Proof.
  revert b c. induction a as [|x a IH]; intros [|y b] [|z c] H1 H2; cbn; try done.
  injection H1 as H1. injection H2 as H2.
  zcases; cbn [negb]; zcases; intros; try lia. by eapply IH.
Qed.

Lemma ties_length rs : length (ties rs) = 5%nat.
Proof. unfold ties. rewrite length_take, length_app, length_replicate. lia. Qed.

Lemma ref_ties_length l : length (ref_ties l) = 5%nat.
Proof. unfold ref_ties. destruct (straight_high l); apply ties_length. Qed.

Lemma ranked_ties_length hand hr : ranked hand hr → length (Tiebreakers hr) = 5%nat.
Proof. intros (_ & -> & _). apply ref_ties_length. Qed.

(** [Compare] is a total preorder of hands by category and then
    tie-breakers: swapping the arguments flips the sign, it is transitive,
    and it is 0 exactly for hands with the same category and tie-breakers
    (the tie-breaker array always has five entries). *)
Theorem compare_total_preorder a b c :
  length (Tiebreakers a) = 5%nat → length (Tiebreakers b) = 5%nat →
  length (Tiebreakers c) = 5%nat →
  Compare b a = - Compare a b ∧
  (0 ≤ Compare a b → 0 ≤ Compare b c → 0 ≤ Compare a c) ∧
  (Compare a b = 0 ↔ HCategory a = HCategory b ∧ Tiebreakers a = Tiebreakers b) ∧
  (HCategory b < HCategory a → Compare a b = 1).
Proof.
  intros Ha Hb Hc. rewrite !Compare_key. split_and!.
  - apply compare_ties_antisym.
  - apply compare_ties_trans; cbn; lia.
  - rewrite compare_ties_eq by (cbn; lia). unfold rank_key. split; [intros [=]; auto|intros [-> ->]; done].
  - intros Hlt. cbn. zcases; cbn [negb]; zcases; lia.
Qed.

Lemma compare_total_preorder_witness :
  Compare (mkHandRank Flush (ties [Ace]) []) (mkHandRank Straight (ties [Ace]) []) = 1.
Proof.
  apply (compare_total_preorder (mkHandRank Flush (ties [Ace]) [])
           (mkHandRank Straight (ties [Ace]) []) zero_HandRank); try reflexivity.
Defined.

Section rank5.
Context `{RuntimeLaws}.

(** C9: [Rank5] computes the worth of a hand.  For five distinct cards, in
    whatever order, and whatever the runtime's sort and map order, it returns
    (no index is out of range) the reference category, tie-breakers and
    display order, and [Best] holds the five cards themselves. *)
Theorem rank5_correct hand :
  length hand = 5%nat → NoDup hand → Forall card_wf hand →
  ∃ hr, Rank5 hand = Ok hr ∧
    HCategory hr = ref_category (CRank <$> hand) (same_suit hand) ∧
    Tiebreakers hr = ref_ties (CRank <$> hand) ∧
    CRank <$> HBest hr = ref_display (CRank <$> hand) ∧
    HBest hr ≡ₚ hand.
Proof. intros. by apply Rank5_ranked. Qed.

(** ** The cards of a mask *)

Definition bit (mask : Z) (k : nat) : bool :=
  negb (Z.land mask (Z.shiftl 1 (Z.of_nat k)) =? 0).

Lemma bit_testbit mask k : bit mask k = Z.testbit mask (Z.of_nat k).
Proof.
  unfold bit. rewrite Z.shiftl_1_l. destruct (Z.testbit mask (Z.of_nat k)) eqn:E.
  - destruct (Z.eqb_spec (Z.land mask (2 ^ Z.of_nat k)) 0) as [Hz|]; [|done].
    pose proof (f_equal (λ x, Z.testbit x (Z.of_nat k)) Hz) as Hb. cbn beta in Hb.
    by rewrite Z.land_spec, E, Z.pow2_bits_true, Z.bits_0 in Hb by lia.
  - assert (Z.land mask (2 ^ Z.of_nat k) = 0) as ->; [|done].
    apply Z.bits_inj_0. intros i. rewrite Z.land_spec.
    destruct (decide (i = Z.of_nat k)) as [->|]; [by rewrite E|].
    rewrite Z.pow2_bits_false by lia. apply andb_false_r.
Qed.

Fixpoint mask_cards (j : nat) (mask : Z) (cards : list Card) : list Card :=
  match cards with
  | [] => []
  | c :: cards => if bit mask j then c :: mask_cards (S j) mask cards else mask_cards (S j) mask cards
  end.

Lemma mask_cards_sublist j mask cards : sublist (mask_cards j mask cards) cards.
Proof.
  revert j. induction cards as [|c cards IH]; intros j; cbn; [constructor|].
  destruct (bit mask j); by constructor.
Qed.

Lemma mask_cards_length j mask cards :
  length (mask_cards j mask cards) = length (filter (bit mask) (seq j (length cards))).
Proof.
  revert j. induction cards as [|c cards IH]; intros j; [done|]. cbn [mask_cards length seq].
  rewrite filter_cons. destruct (bit mask j); rewrite ?decide_True, ?decide_False by auto; cbn; auto.
Qed.

Lemma sublist_mask l cards :
  sublist l cards → ∃ m, 0 ≤ m < 2 ^ Z.of_nat (length cards) ∧
    ∀ j mask, (∀ k, 0 ≤ k → Z.testbit mask (Z.of_nat j + k) = Z.testbit m k) →
      mask_cards j mask cards = l.
Proof.
  induction 1 as [|c l cards Hs (m & Hm & IH)|c l cards Hs (m & Hm & IH)].
  - exists 0. cbn. split; [lia|done].
  - exists (2 * m + 1). cbn [length mask_cards]. rewrite Nat2Z.inj_succ, Z.pow_succ_r by lia.
    split; [lia|]. intros j mask Hk. rewrite bit_testbit.
    pose proof (Hk 0 ltac:(lia)) as H0'. rewrite Z.add_0_r, Z.testbit_odd_0 in H0'. rewrite H0'.
    f_equal. apply IH. intros k Hk'. rewrite <- (Z.testbit_odd_succ m k) by lia.
    rewrite <- Hk by lia. f_equal. lia.
  - exists (2 * m). cbn [length mask_cards]. rewrite Nat2Z.inj_succ, Z.pow_succ_r by lia.
    split; [lia|]. intros j mask Hk. rewrite bit_testbit.
    pose proof (Hk 0 ltac:(lia)) as H0'. rewrite Z.add_0_r, Z.testbit_even_0 in H0'. rewrite H0'.
    apply IH. intros k Hk'. rewrite <- (Z.testbit_even_succ m k) by lia.
    rewrite <- Hk by lia. f_equal. lia.
Qed.

Lemma elem_of_masks n m : m ∈ masks n ↔ 1 ≤ m < 2 ^ Z.of_nat n.
Proof.
  unfold masks. rewrite list_elem_of_fmap. setoid_rewrite elem_of_seq.
  assert (Z.of_nat (2 ^ n) = 2 ^ Z.of_nat n) as Hpow by (by rewrite Nat2Z.inj_pow).
  pose proof (Z.pow_pos_nonneg 2 (Z.of_nat n)). split.
  - intros (k & -> & Hk). lia.
  - intros Hm. exists (Z.to_nat m). lia.
Qed.

(** [popcount] against the number of cards a mask selects. *)
Lemma popcount_masks :
  forallb (λ n, forallb (λ m, popcount m =? Z.of_nat (length (filter (bit m) (seq 0 n)))) (masks n))
    [5%nat; 6%nat; 7%nat] = true.
Proof. vm_compute. reflexivity. Qed.

Lemma popcount_cards cards m :
  (5 ≤ length cards ≤ 7)%nat → m ∈ masks (length cards) →
  popcount m = Z.of_nat (length (mask_cards 0 m cards)).
Proof.
  intros Hn Hm. pose proof popcount_masks as Hall. rewrite forallb_forall in Hall.
  assert (In (length cards) [5%nat; 6%nat; 7%nat]) as Hin by (cbn; lia).
  specialize (Hall _ Hin). cbn beta in Hall. rewrite forallb_forall in Hall.
  apply list_elem_of_In in Hm. specialize (Hall _ Hm). cbn beta in Hall.
  apply Z.eqb_eq in Hall. by rewrite mask_cards_length.
Qed.

(** ** The loop of [Best] *)

Lemma fill_combo_loop pre suf mask st :
  foldM (λ st k, c ← idx (pre ++ suf) (Z.of_nat k); put_if (bit mask k) st c)
    (seq (length pre) (length suf)) st
  = foldM put (mask_cards (length pre) mask suf) st.
Proof.
  revert pre st. induction suf as [|c suf IH]; intros pre st; [done|].
  cbn [length seq foldM mask_cards].
  assert (idx (E:=Empty_set) (pre ++ c :: suf) (Z.of_nat (length pre)) = Ok c) as ->.
  { apply idx_Ok. rewrite Nat2Z.id. split; [lia|]. by rewrite lookup_app_r, Nat.sub_diag by lia. }
  cbn [mbind res_bind]. specialize (IH (pre ++ [c])).
  rewrite length_app, <- app_assoc in IH. cbn [length app] in IH.
  replace (length pre + 1)%nat with (S (length pre)) in IH by lia.
  destruct (bit mask (length pre)); cbn [put_if foldM].
  - destruct (put st c); cbn; auto.
  - cbn. apply IH.
Qed.

Lemma fill_combo_spec cards mask combo :
  length combo = 5%nat → length (mask_cards 0 mask cards) = 5%nat →
  fill_combo cards mask combo = Ok (mask_cards 0 mask cards).
Proof.
  intros Hc Hm. unfold fill_combo. pose proof (fill_combo_loop [] cards mask (combo, 0)) as Hf.
  cbn [app length] in Hf. unfold bit in Hf. rewrite Hf.
  pose proof (put_all (mask_cards 0 mask cards) [] combo) as Hp. cbn [app length] in Hp.
  change (Z.of_nat 0) with 0 in Hp. rewrite Hp by lia. cbn [mbind res_bind fst].
  by rewrite drop_ge, app_nil_r by lia.
Qed.

(** The invariant of the loop after the masks [ms]: [best] ranks one of the
    five-card subsets seen so far, and no subset seen so far ranks higher. *)
Definition best_inv (cards : list Card) (ms : list Z) (st : best_state) : Prop :=
  length (bs_combo st) = 5%nat ∧
  (∀ m hr, m ∈ ms → length (mask_cards 0 m cards) = 5%nat →
     ranked (mask_cards 0 m cards) hr → bs_first st = false ∧ Compare hr (bs_best st) ≤ 0) ∧
  (bs_first st = false → ∃ m, m ∈ ms ∧ length (mask_cards 0 m cards) = 5%nat ∧
     ranked (mask_cards 0 m cards) (bs_best st)).

Lemma ranked_fun hand hr hr' :
  ranked hand hr → ranked hand hr' → rank_key hr = rank_key hr'.
Proof. unfold rank_key. intros (-> & -> & _) (-> & -> & _). done. Qed.

Lemma ranked_compare_trans h1 h2 h3 a b c :
  ranked h1 a → ranked h2 b → ranked h3 c → Compare a b ≤ 0 → Compare b c ≤ 0 → Compare a c ≤ 0.
Proof.
  intros Ha%ranked_ties_length Hb%ranked_ties_length Hc%ranked_ties_length.
  rewrite !Compare_key. intros.
  pose proof (compare_ties_trans (rank_key c) (rank_key b) (rank_key a)) as Ht.
  rewrite (compare_ties_antisym (rank_key b) (rank_key c)),
    (compare_ties_antisym (rank_key a) (rank_key b)),
    (compare_ties_antisym (rank_key a) (rank_key c)) in Ht.
  cbn [length rank_key] in *. lia.
Qed.

Lemma Forall_sublist {A} (P : A → Prop) l1 l2 : sublist l1 l2 → Forall P l2 → Forall P l1.
Proof.
  intros Hs. rewrite !list.Forall_forall. intros Hall x Hx. by eapply Hall, elem_of_sublist.
Qed.

Lemma best_step_inv cards ms st m :
  (5 ≤ length cards ≤ 7)%nat → NoDup cards → Forall card_wf cards →
  m ∈ masks (length cards) → best_inv cards ms st →
  ∃ st', best_step cards st m = Ok st' ∧ best_inv cards (ms ++ [m]) st'.
Proof.
  intros Hlen Hnd Hwf Hm (Hcombo & Hmax & Hin). unfold best_step.
  rewrite (popcount_cards cards m) by done.
  destruct (Z.eqb_spec (Z.of_nat (length (mask_cards 0 m cards))) 5) as [H5|H5]; cbn [negb].
  2:{ exists st. split; [done|]. split_and!; [done| |].
      - intros m' hr [Hm'|Hm'%list_elem_of_singleton]%elem_of_app; [by apply Hmax|subst; lia].
      - intros (m' & ? & ? & ?)%Hin. exists m'. split; [apply elem_of_app; by left|done]. }
  pose proof (mask_cards_sublist 0 m cards) as Hsub.
  rewrite fill_combo_spec by lia. cbn [mbind res_bind].
  destruct (Rank5_ranked (mask_cards 0 m cards)) as (r & -> & Hr);
    [lia|by eapply sublist_NoDup|by eapply Forall_sublist|]. cbn [mbind res_bind].
  destruct (bs_first st || (0 <? Compare r (bs_best st))) eqn:Hb.
  - eexists. split; [done|]. split_and!; cbn; [lia| |].
    + intros m' hr [Hm'|Hm'%list_elem_of_singleton]%elem_of_app H5' Hr'; (split; [done|]).
      * destruct (Hmax m' hr Hm' H5' Hr') as [Hf Hle]. rewrite Hf in Hb. apply Z.ltb_lt in Hb.
        destruct (Hin Hf) as (m'' & ? & ? & Hr''). apply (ranked_compare_trans _ _ _ _ _ _ Hr' Hr'' Hr); [done|].
        rewrite Compare_key, compare_ties_antisym, <- Compare_key. lia.
      * subst m'. rewrite Compare_key, (ranked_fun _ _ _ Hr' Hr). by rewrite (proj2 (compare_ties_eq _ _ eq_refl)).
    + intros _. exists m. split; [apply elem_of_app; right; by left|]. split; [lia|done].
  - apply orb_false_iff in Hb as [Hf Hle%Z.ltb_ge]. eexists. split; [done|]. split_and!; cbn; [lia| |].
    + intros m' hr [Hm'|Hm'%list_elem_of_singleton]%elem_of_app H5' Hr'; [by apply Hmax with m'|].
      subst m'. split; [done|]. rewrite Compare_key, (ranked_fun _ _ _ Hr' Hr). by rewrite <- Compare_key.
    + intros (m' & ? & ? & ?)%Hin. exists m'. split; [apply elem_of_app; by left|done].
Qed.

Lemma best_loop cards ms :
  (5 ≤ length cards ≤ 7)%nat → NoDup cards → Forall card_wf cards →
  (∀ m, m ∈ ms → m ∈ masks (length cards)) →
  ∀ dn st, best_inv cards dn st →
  ∃ st', foldM (best_step cards) ms st = Ok st' ∧ best_inv cards (dn ++ ms) st'.
Proof.
  intros Hlen Hnd Hwf. induction ms as [|m ms IH]; intros Hms dn st Hst.
  { exists st. split; [done|]. by rewrite app_nil_r. }
  destruct (best_step_inv cards dn st m) as (st' & Hs & Hst'); [done..|apply Hms; left|done|].
  cbn [foldM]. rewrite Hs. cbn [mbind res_bind].
  destruct (IH (λ m' Hm', Hms m' (list_elem_of_further _ _ _ Hm')) _ _ Hst') as (st'' & -> & Hst'').
  exists st''. split; [done|]. by rewrite <- app_assoc in Hst''.
Qed.

(** ** Duplicates *)

Lemma first_duplicate_from_None seen cards :
  first_duplicate_from seen cards = None ↔ NoDup cards ∧ (∀ c, c ∈ cards → c ∉ seen).
Proof.
  revert seen. induction cards as [|c cards IH]; intros seen; cbn [first_duplicate_from].
  { split; [intros _; split; [constructor|set_solver]|done]. }
  case_decide as Hc.
  - split; [done|]. intros [_ Hs]. destruct (Hs c); [left|done].
  - rewrite IH, NoDup_cons. split.
    + intros [Hnd Hs]. split_and!; [|done|]; [intros Hin; specialize (Hs _ Hin); set_solver|].
      intros d [->|Hd]%elem_of_cons; [done|]. specialize (Hs _ Hd). set_solver.
    + intros [[Hni Hnd] Hs]. split; [done|]. intros d Hd. assert (d ≠ c) by congruence.
      specialize (Hs d (list_elem_of_further _ _ _ Hd)). set_solver.
Qed.

Lemma first_duplicate_from_Some seen cards c :
  first_duplicate_from seen cards = Some c →
  ∃ l1 l2, cards = l1 ++ c :: l2 ∧ NoDup l1 ∧ (∀ d, d ∈ l1 → d ∉ seen) ∧ (c ∈ l1 ∨ c ∈ seen).
Proof.
  revert seen. induction cards as [|d cards IH]; intros seen; [done|]. cbn [first_duplicate_from].
  case_decide as Hd.
  - intros [= ->]. exists [], cards. split_and!; [done|constructor|set_solver|by right].
  - intros (l1 & l2 & -> & Hnd & Hs & Hc)%IH. exists (d :: l1), l2. split_and!; [done| | |].
    + constructor; [|done]. intros Hin. specialize (Hs _ Hin). set_solver.
    + intros e [->|He]%elem_of_cons; [done|]. specialize (Hs _ He). set_solver.
    + set_solver.
Qed.

Lemma Best_loop cards :
  (5 ≤ length cards ≤ 7)%nat → NoDup cards → Forall card_wf cards →
  ∃ st, Best cards = Ok (bs_best st) ∧ best_inv cards (masks (length cards)) st.
Proof.
  intros Hlen Hnd Hwf.
  destruct (best_loop cards (masks (length cards)) Hlen Hnd Hwf ltac:(done) []
    (mkBest zero_HandRank true (replicate 5 zero_card))) as (st & Hf & Hinv).
  { split_and!; cbn; [done| |done]. intros m hr []%elem_of_nil. }
  exists st. split; [|done]. unfold Best.
  rewrite (proj2 (Z.ltb_ge _ _)), (proj2 (Z.ltb_ge _ _)) by lia.
  unfold firstDuplicate.
  rewrite (proj2 (first_duplicate_from_None ∅ cards)) by (split; [done|set_solver]).
  by rewrite Hf.
Qed.

(** The five-card subsets of the given cards. *)
Definition choices (cards sub : list Card) : Prop := sublist sub cards ∧ length sub = 5%nat.

Lemma choices_mask cards sub :
  choices cards sub → ∃ m, m ∈ masks (length cards) ∧ mask_cards 0 m cards = sub.
Proof.
  intros [Hs Hl]. destruct (sublist_mask sub cards Hs) as (m & Hm & Hmc).
  specialize (Hmc 0%nat m (λ k _, eq_refl)). exists m. split; [|done].
  apply elem_of_masks. destruct (decide (m = 0)) as [->|]; [|lia]. exfalso.
  assert (∀ j cs, mask_cards j 0 cs = []) as Hz.
  { intros j cs. revert j. induction cs as [|c cs IH]; intros j; [done|]. cbn. apply IH. }
  rewrite Hz in Hmc. by subst.
Qed.

Lemma Best_max cards :
  (5 ≤ length cards ≤ 7)%nat → NoDup cards → Forall card_wf cards →
  ∃ hr, Best cards = Ok hr ∧ (∃ sub, choices cards sub ∧ ranked sub hr) ∧
    (∀ sub hr', choices cards sub → ranked sub hr' → Compare hr' hr ≤ 0).
Proof.
  intros Hlen Hnd Hwf. destruct (Best_loop cards Hlen Hnd Hwf) as (st & Hb & _ & Hmax & Hin).
  assert (choices cards (take 5 cards)) as Ht.
  { split; [apply sublist_take|]. rewrite length_take. lia. }
  assert (bs_first st = false) as Hf.
  { destruct (choices_mask _ _ Ht) as (m & Hm & Hs).
    destruct (Rank5_ranked (take 5 cards)) as (hr & _ & Hr);
      [apply Ht|eapply sublist_NoDup; [done|apply Ht]|eapply Forall_sublist; [apply Ht|done]|].
    rewrite <- Hs in Hr. apply (Hmax m hr Hm); [|done]. rewrite Hs. apply Ht. }
  exists (bs_best st). split_and!; [done| |].
  - destruct (Hin Hf) as (m & Hm & H5 & Hr). eexists. split; [|exact Hr].
    split; [apply mask_cards_sublist|done].
  - intros sub hr' Hc Hr. destruct (choices_mask _ _ Hc) as (m & Hm & Hs). subst sub.
    apply (Hmax m hr' Hm); [apply Hc|done].
Qed.

(** C3: [Best] is optimal.  For five to seven distinct cards it returns a
    rank that the reference gives to one of the five-card subsets, with that
    subset in [HBest], and no five-card subset is ranked higher. *)
Theorem best_is_maximal cards :
  (5 ≤ length cards ≤ 7)%nat → NoDup cards → Forall card_wf cards →
  ∃ hr, Best cards = Ok hr ∧ (∃ sub, choices cards sub ∧ ranked sub hr) ∧
    (∀ sub hr', choices cards sub → ranked sub hr' → Compare hr' hr ≤ 0).
Proof. apply Best_max. Qed.

(** The errors of [Best]: too few cards, too many, and otherwise the
    first card that already occurred; there is no other error, and on real
    cards no panic. *)
Theorem best_errors cards :
  Forall card_wf cards →
  match Best cards with
  | Ok _ => (5 ≤ length cards ≤ 7)%nat ∧ NoDup cards
  | Err (ErrTooFew n) => n = Z.of_nat (length cards) ∧ n < 5
  | Err (ErrTooMany n) => n = Z.of_nat (length cards) ∧ 7 < n
  | Err (ErrDuplicate c) => (5 ≤ length cards ≤ 7)%nat ∧
      ∃ l1 l2, cards = l1 ++ c :: l2 ∧ NoDup l1 ∧ c ∈ l1
  | _ => False
  end.
Proof.
  intros Hwf. destruct (decide ((5 ≤ length cards ≤ 7)%nat ∧ NoDup cards)) as [[Hl Hnd]|Hn].
  { destruct (Best_loop cards Hl Hnd Hwf) as (st & -> & _). done. }
  unfold Best. destruct (Z.ltb_spec (Z.of_nat (length cards)) 5); [done|].
  destruct (Z.ltb_spec 7 (Z.of_nat (length cards))); [done|].
  unfold firstDuplicate. destruct (first_duplicate_from ∅ cards) as [c|] eqn:Hd.
  - split; [lia|]. apply first_duplicate_from_Some in Hd as (l1 & l2 & ? & ? & _ & [?|?]);
      [by exists l1, l2|set_solver].
  - exfalso. apply first_duplicate_from_None in Hd as [? _]. apply Hn. split; [lia|done].
Qed.

End rank5.

Lemma choice_perm_le cards1 cards2 sub1 hr1 hr2 :
  cards1 ≡ₚ cards2 → choices cards1 sub1 → ranked sub1 hr1 →
  (∀ sub hr', choices cards2 sub → ranked sub hr' → Compare hr' hr2 ≤ 0) → Compare hr1 hr2 ≤ 0.
Proof.
  intros Hp [Hs Hl] Hr Hm.
  assert (sub1 ⊆+ cards2) as Hsub by (rewrite <- Hp; by apply sublist_submseteq).
  apply submseteq_sublist_r in Hsub as (sub & Hps & Hs2). apply (Hm sub).
  - split; [done|]. by rewrite <- Hps.
  - by rewrite <- Hps.
Qed.

(** Every node computes the same strength for a player.  [Best] gives the
    same category and tie-breakers whatever the order in which the cards are
    listed and whatever order the runtime's map iteration and unstable sort
    happen to use. *)
Theorem best_deterministic (R1 R2 : GoRuntime) (L1 : @RuntimeLaws R1) (L2 : @RuntimeLaws R2)
    cards1 cards2 :
  cards1 ≡ₚ cards2 → (5 ≤ length cards1 ≤ 7)%nat → NoDup cards1 → Forall card_wf cards1 →
  ∃ hr1 hr2, @Best R1 cards1 = Ok hr1 ∧ @Best R2 cards2 = Ok hr2 ∧
    HCategory hr1 = HCategory hr2 ∧ Tiebreakers hr1 = Tiebreakers hr2.
Proof.
  intros Hp Hlen Hnd Hwf. pose proof (Permutation_length Hp) as Hl.
  destruct (@Best_max R1 L1 cards1) as (hr1 & Hb1 & (sub1 & Hc1 & Hr1) & Hm1); [done..|].
  rewrite Hp in Hnd, Hwf. rewrite Hl in Hlen.
  destruct (@Best_max R2 L2 cards2) as (hr2 & Hb2 & (sub2 & Hc2 & Hr2) & Hm2); [done..|].
  exists hr1, hr2. split_and!; [done..| |]; clear Hb1 Hb2.
  all: assert (Compare hr1 hr2 ≤ 0) as H12 by (by apply (choice_perm_le cards1 cards2 sub1)).
  all: assert (Compare hr2 hr1 ≤ 0) as H21 by (by apply (choice_perm_le cards2 cards1 sub2)).
  all: rewrite Compare_key in H12, H21; rewrite compare_ties_antisym in H21.
  all: assert (compare_ties (rank_key hr1) (rank_key hr2) = 0) as H0 by lia.
  all: apply compare_ties_eq in H0;
    [|cbn; by rewrite (ranked_ties_length _ _ Hr1), (ranked_ties_length _ _ Hr2)].
  all: unfold rank_key in H0; congruence.
Qed.

(** ** Concrete hands *)

(** Seven cards holding a pair of nines and a wheel straight. *)
Definition sample_seven : list Card :=
  [mkCard Clubs Nine; mkCard Spades Ace; mkCard Hearts Nine; mkCard Diamonds Two;
   mkCard Hearts Three; mkCard Clubs Four; mkCard Clubs Five].

Lemma sample_seven_ok : NoDup sample_seven ∧ Forall card_wf sample_seven.
Proof. split; [by apply (bool_decide_unpack _)|]. repeat constructor; vm_compute; congruence. Qed.

Example sample_best :
  @Best insertion_runtime sample_seven
  = Ok (mkHandRank Straight [Five; 0; 0; 0; 0]
          [mkCard Clubs Five; mkCard Clubs Four; mkCard Hearts Three; mkCard Diamonds Two;
           mkCard Spades Ace]).
Proof. vm_compute. reflexivity. Qed.

Lemma rank5_correct_witness :
  ∃ hr, @Rank5 insertion_runtime (drop 2 sample_seven) = Ok hr ∧
    HBest hr ≡ₚ drop 2 sample_seven.
Proof.
  destruct (@rank5_correct insertion_runtime insertion_laws (drop 2 sample_seven))
    as (hr & Hr & _ & _ & _ & Hp).
  - reflexivity.
  - eapply sublist_NoDup; [apply sample_seven_ok|apply sublist_drop].
  - eapply Forall_sublist; [apply sublist_drop|apply sample_seven_ok].
  - exists hr. split; assumption.
Defined.

Lemma best_is_maximal_witness :
  ∃ hr, @Best insertion_runtime sample_seven = Ok hr ∧
    ∀ sub hr', choices sample_seven sub → ranked sub hr' → Compare hr' hr ≤ 0.
Proof.
  destruct (@best_is_maximal insertion_runtime insertion_laws sample_seven)
    as (hr & Hb & _ & Hm).
  - vm_compute. split; repeat constructor.
  - apply sample_seven_ok.
  - apply sample_seven_ok.
  - exists hr. split; assumption.
Defined.

Lemma best_errors_witness :
  @Best insertion_runtime (mkCard Clubs Five :: take 5 (reverse sample_seven))
  = Err (ErrDuplicate (mkCard Clubs Five)) ∧
  match @Best insertion_runtime (mkCard Clubs Five :: take 5 (reverse sample_seven)) with
  | Ok _ => False | _ => True end.
Proof.
  split; [vm_compute; reflexivity|].
  pose proof (@best_errors insertion_runtime insertion_laws
    (mkCard Clubs Five :: take 5 (reverse sample_seven))) as H.
  destruct (Best _) as [hr|e|]; [|exact I|exact I].
  destruct H as [_ Hnd]; [repeat constructor; vm_compute; congruence|].
  apply NoDup_cons in Hnd as [Hn _]. apply Hn. vm_compute. left.
Defined.

Lemma best_deterministic_witness :
  ∃ hr1 hr2, @Best insertion_runtime sample_seven = Ok hr1 ∧
    @Best insertion_runtime (reverse sample_seven) = Ok hr2 ∧
    HCategory hr1 = HCategory hr2 ∧ Tiebreakers hr1 = Tiebreakers hr2.
Proof.
  apply (best_deterministic insertion_runtime insertion_runtime insertion_laws insertion_laws).
  - symmetry. apply reverse_Permutation.
  - vm_compute. split; repeat constructor.
  - apply sample_seven_ok.
  - apply sample_seven_ok.
Defined.
