(* ===== verification/Ephemeral.v ===== *)
(** * The ephemeral store ([internal/ephemeral/store.go])

    Each node hosts one key-value store that its peers poll.  The mutex makes
    every operation atomic, so a store is a map and an operation a function on
    it.  The file also holds the key formats of all protocols; the theorems
    show that no two protocol messages share a key and what the bulk deletions
    remove. *)

From Stdlib Require Import ZArith Lia Ascii.
From stdpp Require Import base list gmap strings numbers.
From S2P Require Import Prelude Runtime Strconv.

#[local] Open Scope Z_scope.

(** ** Keys *)

Definition ProposalKey (roundID attempt : Z) : string :=
  "proposal-" +:+ utoa roundID +:+ "-" +:+ utoa attempt.
Definition VerifyKey (roundID attempt : Z) (nodeID : string) : string :=
  utoa roundID +:+ "-" +:+ utoa attempt +:+ "_verify_" +:+ nodeID.
Definition AutoFoldKey (roundID : Z) (signerID : string) : string :=
  "auto_fold-" +:+ utoa roundID +:+ "-" +:+ signerID.
Definition CommunityRelayKey (cardIdx seat : Z) : string :=
  "community-relay-" +:+ Itoa cardIdx +:+ "-" +:+ Itoa seat.
Definition CommunityCardKey (cardIdx : Z) : string := "community-card-" +:+ Itoa cardIdx.
Definition ShuffleStepKey (seat : Z) : string := "shuffle-step-" +:+ Itoa seat.
Definition HoleRelayKey (slot stripperSeat : Z) : string :=
  "hole-relay-" +:+ Itoa slot +:+ "-" +:+ Itoa stripperSeat.
Definition ShowdownClaimKey (seat : Z) : string := "showdown-claim-" +:+ Itoa seat.

Definition AutoFoldPrefix (roundID : Z) : string := "auto_fold-" +:+ utoa roundID +:+ "-".
Definition RoundPrefix (roundID : Z) : string := utoa roundID +:+ "-".

(** ** The store *)

Abbreviation Store := (gmap string (list Z)).

Definition New : Store := ∅.
Definition Put (s : Store) (key : string) (value : list Z) : Store := <[key := value]> s.
Definition Get (s : Store) (key : string) : option (list Z) := s !! key.
Definition Delete (s : Store) (key : string) : Store := delete key s.

(** [strings.HasPrefix]. *)
Fixpoint HasPrefix (s prefix : string) : bool :=
  match prefix, s with
  | EmptyString, _ => true
  | String.String a prefix, String.String b s => bool_decide (a = b) && HasPrefix s prefix
  | _, _ => false
  end.

(** Deleting during the range is allowed in Go; each key is visited at most
    once, so the loop removes the keys the condition selects. *)
Definition DeletePrefix (s : Store) (prefix : string) : Store :=
  filter (λ kv, HasPrefix kv.1 prefix = false) s.
Definition Clear (s : Store) : Store := ∅.
Definition Keys `{GoRuntime} (s : Store) : list string := range_order (map_to_list s).*1.

(** ** The protocol's keys *)

Inductive EKey :=
| KProposal (roundID attempt : Z)
| KVerify (roundID attempt : Z) (nodeID : string)
| KAutoFold (roundID : Z) (signerID : string)
| KCommunityRelay (cardIdx seat : Z)
| KCommunityCard (cardIdx : Z)
| KShuffleStep (seat : Z)
| KHoleRelay (slot stripperSeat : Z)
| KShowdownClaim (seat : Z).

Definition key_string (k : EKey) : string :=
  match k with
  | KProposal r a => ProposalKey r a
  | KVerify r a id => VerifyKey r a id
  | KAutoFold r id => AutoFoldKey r id
  | KCommunityRelay c s => CommunityRelayKey c s
  | KCommunityCard c => CommunityCardKey c
  | KShuffleStep s => ShuffleStepKey s
  | KHoleRelay sl st => HoleRelayKey sl st
  | KShowdownClaim s => ShowdownClaimKey s
  end.

(** The numbers fit their Go types: unsigned round ids and attempts, and
    non-negative [int] indices. *)
Definition key_wf (k : EKey) : Prop :=
  match k with
  | KProposal r a | KVerify r a _ => 0 ≤ r < 2 ^ 64 ∧ 0 ≤ a < 2 ^ 32
  | KAutoFold r _ => 0 ≤ r < 2 ^ 64
  | KCommunityRelay x y | KHoleRelay x y => 0 ≤ x < 2 ^ 63 ∧ 0 ≤ y < 2 ^ 63
  | KCommunityCard x | KShuffleStep x | KShowdownClaim x => 0 ≤ x < 2 ^ 63
  end.

(** ** Lemmas *)

Lemma HasPrefix_spec s prefix : HasPrefix s prefix = true ↔ ∃ t, s = prefix +:+ t.
Proof.
  revert s. induction prefix as [|a p IH]; intros s.
  { split; [by exists s|]. by destruct s. }
  destruct s as [|b s]; cbn [HasPrefix].
  { split; [done|]. intros [t Ht]. discriminate Ht. }
  rewrite andb_true_iff, bool_decide_eq_true, IH. split.
  - intros [-> [t ->]]. by exists t.
  - intros [t Ht]. injection Ht as -> ->. eauto.
Qed.

Lemma string_app_assoc (s t u : string) : (s +:+ t) +:+ u = s +:+ (t +:+ u).
Proof. induction s as [|a s IH]; [done|]. exact (f_equal (String.String a) IH). Qed.

Lemma Itoa_nonneg n : 0 ≤ n → Itoa n = utoa n.
Proof. intros. unfold Itoa. by rewrite (proj2 (Z.ltb_ge _ _)) by lia. Qed.

(** A printed number followed by a non-digit reads back in one way. *)
Lemma utoa_split n m c d s t :
  0 ≤ n < 2 ^ 64 → 0 ≤ m < 2 ^ 64 → char_digit c = None → char_digit d = None →
  utoa n +:+ String.String c s = utoa m +:+ String.String d t → n = m ∧ c = d ∧ s = t.
Proof.
  intros Hn Hm Hc Hd Heq.
  apply digits_split in Heq as (Hu & -> & ->); [|apply utoa_digits; lia|apply utoa_digits; lia|done|done].
  split; [|done]. by apply utoa_inj.
Qed.

Lemma utoa_head n : 0 ≤ n → ∃ c s, utoa n = String.String c s ∧ char_digit c ≠ None.
Proof.
  intros Hn. pose proof (utoa_digits n Hn) as Hd. pose proof (utoa_nonempty n).
  destruct (utoa n) as [|c s]; [done|]. exists c, s. split; [done|]. apply Hd.
Qed.

(** What tells the formats apart: the characters at three positions. *)
Lemma key_tags k :
  key_wf k →
  match k with
  | KProposal _ _ => String.get 0 (key_string k) = Some "p"%char
  | KVerify _ _ _ => ∃ c, String.get 0 (key_string k) = Some c ∧ char_digit c ≠ None
  | KAutoFold _ _ => String.get 0 (key_string k) = Some "a"%char
  | KCommunityRelay _ _ => String.get 0 (key_string k) = Some "c"%char ∧
      String.get 10 (key_string k) = Some "r"%char
  | KCommunityCard _ => String.get 0 (key_string k) = Some "c"%char ∧
      String.get 10 (key_string k) = Some "c"%char
  | KShuffleStep _ => String.get 0 (key_string k) = Some "s"%char ∧
      String.get 2 (key_string k) = Some "u"%char
  | KHoleRelay _ _ => String.get 0 (key_string k) = Some "h"%char
  | KShowdownClaim _ => String.get 0 (key_string k) = Some "s"%char ∧
      String.get 2 (key_string k) = Some "o"%char
  end.
Proof.
  destruct k; cbn [key_wf key_string]; intros Hwf; try (repeat split; reflexivity).
  unfold VerifyKey. destruct (utoa_head roundID) as (c & s & -> & Hc); [lia|]. by exists c.
Qed.

Lemma char_not_digit c : char_digit c ≠ None → c ∉ ["p"; "a"; "c"; "s"; "h"; "_"; "-"]%char.
Proof.
  intros Hc Hin. repeat (apply elem_of_cons in Hin as [->|Hin]; [by apply Hc|]). set_solver.
Qed.

(** Keys of one format are told apart by their arguments. *)
Lemma two_numbers_inj x y x' y' :
  0 ≤ x < 2 ^ 64 → 0 ≤ y < 2 ^ 64 → 0 ≤ x' < 2 ^ 64 → 0 ≤ y' < 2 ^ 64 →
  utoa x +:+ "-" +:+ utoa y = utoa x' +:+ "-" +:+ utoa y' → x = x' ∧ y = y'.
Proof.
  intros ???? Heq. apply utoa_split in Heq as (-> & _ & Hy); [|done..]. by apply utoa_inj in Hy.
Qed.

Lemma key_string_inj k k' : key_wf k → key_wf k' → key_string k = key_string k' → k = k'.
Proof.
  intros Hk Hk' Heq.
  assert (∀ i, String.get i (key_string k) = String.get i (key_string k')) as Hg by (by rewrite Heq).
  pose proof (key_tags k Hk) as Ht. pose proof (key_tags k' Hk') as Ht'.
  destruct k, k'; cbn [key_wf] in *;
    try (exfalso; rewrite ?Hg in Ht; destruct_and?; congruence);
    try (exfalso; rewrite ?Hg in Ht; destruct_and?; destruct Ht as (c & Hc & Hd) || destruct Ht' as (c & Hc & Hd);
         destruct_and?; apply (char_not_digit c Hd); set_solver);
    clear Ht Ht' Hg; cbn [key_string] in Heq;
    unfold ProposalKey, VerifyKey, AutoFoldKey, CommunityRelayKey, CommunityCardKey,
      ShuffleStepKey, HoleRelayKey, ShowdownClaimKey in Heq;
    rewrite ?Itoa_nonneg in Heq by lia.
  - apply (inj (String.app "proposal-")) in Heq. apply two_numbers_inj in Heq as [-> ->]; lia || done.
  - apply utoa_split in Heq as (-> & _ & Heq); [|lia..|done|done].
    apply utoa_split in Heq as (-> & _ & Heq); [|lia..|done|done].
    apply (inj (String.app "verify_")) in Heq. by rewrite Heq.
  - apply (inj (String.app "auto_fold-")) in Heq.
    apply utoa_split in Heq as (-> & _ & ->); [|lia..|done|done]. done.
  - apply (inj (String.app "community-relay-")) in Heq. apply two_numbers_inj in Heq as [-> ->]; lia || done.
  - apply (inj (String.app "community-card-")), utoa_inj in Heq as ->; lia || done.
  - apply (inj (String.app "shuffle-step-")), utoa_inj in Heq as ->; lia || done.
  - apply (inj (String.app "hole-relay-")) in Heq. apply two_numbers_inj in Heq as [-> ->]; lia || done.
  - apply (inj (String.app "showdown-claim-")), utoa_inj in Heq as ->; lia || done.
Qed.

(** ** Theorems *)

(** No two protocol messages share a key: over all the formats together,
    with numbers of their Go types and arbitrary node ids, the key determines
    the message. *)
Theorem keys_disjoint k k' :
  key_wf k → key_wf k' → key_string k = key_string k' → k = k'.
Proof. apply key_string_inj. Qed.

Lemma keys_disjoint_witness :
  KVerify 1 2 "n_verify_" = KVerify 1 2 "n_verify_".
Proof.
  apply (keys_disjoint (KVerify 1 2 "n_verify_") (KVerify 1 2 "n_verify_")); cbn; lia || reflexivity.
Defined.

Lemma round_prefix_iff r k :
  0 ≤ r < 2 ^ 64 → key_wf k →
  HasPrefix (key_string k) (RoundPrefix r) = true ↔ ∃ a id, k = KVerify r a id.
Proof.
  intros Hr Hk. rewrite HasPrefix_spec. unfold RoundPrefix. split.
  - intros [t Ht]. rewrite string_app_assoc in Ht. pose proof (key_tags k Hk) as Htag.
    destruct (utoa_head r) as (c & s & Hc & Hd); [lia|].
    assert (String.get 0 (key_string k) = Some c) as Hg by (by rewrite Ht, Hc).
    destruct k; rewrite ?Hg in Htag; destruct_and?;
      try (exfalso; apply (char_not_digit c Hd); set_solver).
    cbn [key_wf] in Hk. apply utoa_split in Ht as (-> & _); [eauto|lia..|done|done].
  - intros (a & id & ->). exists (utoa a +:+ "_verify_" +:+ id). by rewrite string_app_assoc.
Qed.

Lemma auto_fold_prefix_iff r k :
  0 ≤ r < 2 ^ 64 → key_wf k →
  HasPrefix (key_string k) (AutoFoldPrefix r) = true ↔ ∃ id, k = KAutoFold r id.
Proof.
  intros Hr Hk. rewrite HasPrefix_spec. unfold AutoFoldPrefix. split.
  - intros [t Ht]. pose proof (key_tags k Hk) as Htag.
    assert (String.get 0 (key_string k) = Some "a"%char) as Hg by (by rewrite Ht).
    destruct k; rewrite ?Hg in Htag; destruct_and?; try (exfalso; congruence).
    + destruct Htag as (c & [= <-] & Hd). by destruct Hd.
    + cbn [key_string key_wf] in *. unfold AutoFoldKey in Ht. rewrite string_app_assoc in Ht.
      apply (inj (String.app "auto_fold-")) in Ht. rewrite string_app_assoc in Ht.
      apply utoa_split in Ht as (-> & _); [eauto|lia..|done|done].
  - intros (id & ->). exists id. cbn. unfold AutoFoldKey. by rewrite !string_app_assoc.
Qed.

(** The bulk deletions are exact.  [DeletePrefix] with the round prefix
    removes precisely that round's verify receipts, and with the auto-fold
    prefix precisely that round's attestations; every other message's entry
    is untouched, those of rounds whose number merely starts with the same
    digits included. *)
Theorem cleanup_exact (s : Store) r k :
  0 ≤ r < 2 ^ 64 → key_wf k →
  Get (DeletePrefix s (RoundPrefix r)) (key_string k)
    = match k with
      | KVerify r' _ _ => if decide (r' = r) then None else Get s (key_string k)
      | _ => Get s (key_string k)
      end ∧
  Get (DeletePrefix s (AutoFoldPrefix r)) (key_string k)
    = match k with
      | KAutoFold r' _ => if decide (r' = r) then None else Get s (key_string k)
      | _ => Get s (key_string k)
      end.
Proof.
  intros Hr Hk. unfold Get, DeletePrefix.
  assert (∀ p, filter (λ kv, HasPrefix kv.1 p = false) s !! key_string k
    = if HasPrefix (key_string k) p then None else s !! key_string k) as Hf.
  { intros p. destruct (HasPrefix (key_string k) p) eqn:E.
    - apply map_lookup_filter_None. right. cbn. congruence.
    - destruct (s !! key_string k) eqn:Es.
      + apply map_lookup_filter_Some. done.
      + apply map_lookup_filter_None. by left. }
  rewrite !Hf. pose proof (round_prefix_iff r k Hr Hk) as H1. pose proof (auto_fold_prefix_iff r k Hr Hk) as H2.
  destruct (HasPrefix _ (RoundPrefix r)), (HasPrefix _ (AutoFoldPrefix r)).
  all: destruct k; repeat case_decide; subst; try done.
  all: try (exfalso; destruct (proj1 H1 eq_refl) as (? & ? & ?); congruence).
  all: try (exfalso; destruct (proj1 H2 eq_refl) as (? & ?); congruence).
  all: try (exfalso; by (discriminate (proj2 H1 ltac:(eauto)))).
  all: try (exfalso; by (discriminate (proj2 H2 ltac:(eauto)))).
Qed.

Lemma cleanup_exact_witness :
  Get (DeletePrefix (Put (Put New (VerifyKey 12 0 "b") [1]) (VerifyKey 1 0 "b") [2]) (RoundPrefix 1))
    (key_string (KVerify 12 0 "b")) = Some [1].
Proof.
  rewrite (proj1 (cleanup_exact
    (Put (Put New (VerifyKey 12 0 "b") [1]) (VerifyKey 1 0 "b") [2]) 1 (KVerify 12 0 "b")
    ltac:(lia) ltac:(cbn; lia))).
  vm_compute. reflexivity.
Defined.

(** Despite its comment ("all ephemeral files for a round"), the round
    prefix does not cover a round's proposals: cleaning up a round leaves
    every proposal of that round in the store. *)
Theorem round_prefix_misses_proposals (s : Store) r a :
  0 ≤ r < 2 ^ 64 → 0 ≤ a < 2 ^ 32 →
  Get (DeletePrefix s (RoundPrefix r)) (ProposalKey r a) = Get s (ProposalKey r a).
Proof.
  intros Hr Ha. assert (key_wf (KProposal r a)) as Hk by done.
  pose proof (round_prefix_iff r _ Hr Hk) as Hp. cbn [key_string] in Hp.
  unfold Get, DeletePrefix. destruct (s !! ProposalKey r a) eqn:E.
  - apply map_lookup_filter_Some. split; [done|]. apply not_true_is_false. rewrite Hp.
    intros (? & ? & ?). congruence.
  - apply map_lookup_filter_None. by left.
Qed.

Lemma round_prefix_misses_proposals_witness :
  Get (DeletePrefix (Put New (ProposalKey 3 0) [9]) (RoundPrefix 3)) (ProposalKey 3 0) = Some [9].
Proof.
  rewrite (round_prefix_misses_proposals (Put New (ProposalKey 3 0) [9]) 3 0 ltac:(lia) ltac:(lia)).
  vm_compute. reflexivity.
Defined.
