(* ===== verification/Deck.v ===== *)
(** * The deck's cryptography ([internal/crypto/deck/deck.go])

    Shuffling, and the SRA commutative encryption of cards.  A card on the
    wire is a byte string read as a big-endian integer.  [crypto/rand] is the
    class [RandSource]: the [c]-th call of [rand.Int] with a maximum, with its
    documented range as [RandLaws].  Shared with the other components through
    the class [CommCipher]: what the ring protocols rely on. *)

From Stdlib Require Import ZArith Lia Zpow_facts ZmodInv.
From stdpp Require Import base list gmap strings numbers.
From S2P Require Import Prelude.

#[local] Open Scope Z_scope.

Abbreviation bytes := (list Z).

(** ** Big integers as bytes ([math/big]) *)

Definition SetBytes (bs : bytes) : Z := unbe bs.

(** [Bytes]: big-endian, without leading zero bytes (nothing at all for 0). *)
Definition num_bytes (x : Z) : nat := if x =? 0 then 0%nat else Z.to_nat (Z.log2 x / 8 + 1).
Definition big_Bytes (x : Z) : bytes := be (num_bytes x) x.

(** [Exp(x, y, m)] for a non-negative exponent and a positive modulus. *)
Definition Exp (x y m : Z) : Z := Zpow_mod x y m.

Record Key := mkKey { Exponent : Z; InverseExponent : Z }.

Class RandSource := rand_Int : nat → Z → option Z.

Class RandLaws `{RandSource} : Prop :=
  rand_range : ∀ c max r, rand_Int c max = Some r → 0 ≤ r < max.

Inductive deck_err := ErrRand | ErrPrime.

#[export] Instance deck_err_eq_dec : EqDecision deck_err.
Proof. solve_decision. Defined.

Section deck.
Context `{RandSource}.

(** The loop of [Shuffle] from index [i] down to 1; [c] numbers the calls of
    the random source. *)
Fixpoint shuffle_loop (i : nat) (c : nat) (deck : list bytes) : res deck_err (list bytes) :=
  match i with
  | O => Ok deck
  | S i' =>
      match rand_Int c (Z.of_nat i + 1) with
      | None => Err ErrRand
      | Some j =>
          dj ← idx deck j;
          di ← idx deck (Z.of_nat i);
          deck' ← upd deck (Z.of_nat i) dj;
          deck'' ← upd deck' j di;
          shuffle_loop i' (S c) deck''
      end
  end.

Definition Shuffle (c : nat) (deck : list bytes) : res deck_err (list bytes) :=
  shuffle_loop (length deck - 1) c deck.

(** [ModInverse(k, n)]: defined when [k] is invertible modulo [n]. *)
Definition ModInverse (k n : Z) : option Z :=
  if Z.gcd k n =? 1 then Some (Z.invmod k n) else None.

(** The retry loop of [GenerateKey]; [None] when the fuel runs out first. *)
Fixpoint generate_loop (fuel : nat) (c : nat) (phi : Z) : option (res deck_err Key) :=
  match fuel with
  | O => None
  | S fuel' =>
      match rand_Int c phi with
      | None => Some (Err ErrRand)
      | Some k =>
          if k <=? 1 then generate_loop fuel' (S c) phi
          else if negb (Z.gcd k phi =? 1) then generate_loop fuel' (S c) phi
          else match ModInverse k phi with
               | None => generate_loop fuel' (S c) phi
               | Some kInv => Some (Ok (mkKey k kInv))
               end
      end
  end.

(** [rand.Int] panics for a maximum that is not positive. *)
Definition GenerateKey (fuel c : nat) (prime : Z) : option (res deck_err Key) :=
  if prime <=? 0 then Some (Err ErrPrime)
  else
    let phi := prime - 1 in
    if phi <=? 0 then Some Panic else generate_loop fuel c phi.

End deck.

Definition encrypt_card (card : bytes) (key : Key) (prime : Z) : bytes :=
  big_Bytes (Exp (SetBytes card) (Exponent key) prime).

Definition EncryptDeck (deck : list bytes) (key : Key) (prime : Z) : list bytes :=
  (λ card, encrypt_card card key prime) <$> deck.

Definition DecryptCard (encryptedCard : bytes) (key : Key) (prime : Z) : bytes :=
  big_Bytes (Exp (SetBytes encryptedCard) (InverseExponent key) prime).

(** [PRIME] of [internal/peer/node.go]. *)
Definition PRIME : Z := 13619.

(** ** The interface of the ring protocols

    A cipher whose encryptions commute and are undone by the matching
    decryption, on a domain of cards closed under both. *)

Class CommCipher (K M : Type) := {
  cc_enc : K → M → M;
  cc_dec : K → M → M;
  cc_key : K → Prop;
  cc_dom : M → Prop;
  cc_enc_dom : ∀ k m, cc_key k → cc_dom m → cc_dom (cc_enc k m);
  cc_dec_enc : ∀ k m, cc_key k → cc_dom m → cc_dec k (cc_enc k m) = m;
  cc_enc_comm : ∀ k k' m, cc_key k → cc_key k' → cc_dom m →
    cc_enc k (cc_enc k' m) = cc_enc k' (cc_enc k m);
}.

Section ring.
Context {K M : Type} `{CommCipher K M}.

(** Layers added by the keys in turn, and removed in turn. *)
Definition layers (ks : list K) (m : M) : M := fold_left (λ m k, cc_enc k m) ks m.
Definition strip (ks : list K) (m : M) : M := fold_left (λ m k, cc_dec k m) ks m.

Lemma layers_dom ks m : Forall cc_key ks → cc_dom m → cc_dom (layers ks m).
Proof.
  unfold layers. intros Hks. revert m. induction Hks; intros m Hm; cbn; [done|].
  apply IHHks. by apply cc_enc_dom.
Qed.

Lemma layers_cons_out k ks m :
  cc_key k → Forall cc_key ks → cc_dom m → layers (k :: ks) m = cc_enc k (layers ks m).
Proof.
  intros Hk Hks. revert m. unfold layers. induction Hks as [|k' ks Hk' Hks IH]; intros m Hm; [done|].
  cbn [fold_left] in *. rewrite cc_enc_comm by done. rewrite IH by (by apply cc_enc_dom). done.
Qed.

Lemma layers_perm ks ks' m :
  ks ≡ₚ ks' → Forall cc_key ks → cc_dom m → layers ks m = layers ks' m.
Proof.
  intros Hp. revert m. induction Hp as [|k ks ks' Hp IH|k k' ks|ks1 ks2 ks3 H1 IH1 H2 IH2];
    intros m Hks Hm.
  - done.
  - apply list.Forall_cons in Hks as [Hk Hks]. cbn. apply IH; [done|by apply cc_enc_dom].
  - apply list.Forall_cons in Hks as [Hk [Hk' _]%list.Forall_cons]. cbn. by rewrite cc_enc_comm.
  - rewrite IH1 by done. apply IH2; [by rewrite <- H1|done].
Qed.

(** Removing layers in any order leaves the layers of the other keys. *)
Lemma strip_layers ks rest m :
  Forall cc_key ks → Forall cc_key rest → cc_dom m →
  strip ks (layers (ks ++ rest) m) = layers rest m.
Proof.
  intros Hks Hrest Hm. unfold strip. induction Hks as [|k ks Hk Hks IH]; [done|].
  cbn [fold_left app]. rewrite layers_cons_out; [|done|by apply Forall_app|done].
  rewrite cc_dec_enc; [done|done|]. apply layers_dom; [by apply Forall_app|done].
Qed.

End ring.
