(* ===== verification/DeckProofs.v ===== *)
(** * The deck's cryptography: proofs

    SRA over a prime is a [CommCipher]; [GenerateKey] yields its keys;
    [Shuffle] is a bijection between draws and permutations. *)

From Stdlib Require Import ZArith Lia Zpow_facts ZmodInv.
From stdpp Require Import base list gmap strings numbers.
From S2P Require Import Prelude Deck.

#[local] Open Scope Z_scope.

(** ** Bytes of integers *)

Lemma Exp_pow x y m : m ≠ 0 → Exp x y m = x ^ y mod m.
Proof. apply Zpow_mod_correct. Qed.

Lemma Exp_range x y m : 0 < m → 0 ≤ Exp x y m < m.
Proof. intros. rewrite Exp_pow by lia. by apply Z.mod_pos_bound. Qed.

Lemma num_bytes_bound x : 0 ≤ x → x < 256 ^ Z.of_nat (num_bytes x).
Proof.
  intros Hx. unfold num_bytes. destruct (Z.eqb_spec x 0) as [->|]; [done|].
  pose proof (Z.log2_spec x ltac:(lia)) as [_ Hlt]. pose proof (Z.log2_nonneg x).
  pose proof (Z.div_mod (Z.log2 x) 8). pose proof (Z.mod_pos_bound (Z.log2 x) 8).
  assert (0 ≤ Z.log2 x / 8) by (apply Z.div_pos; lia).
  rewrite Z2Nat.id by lia. change 256 with (2 ^ 8). rewrite <- Z.pow_mul_r by lia.
  eapply Z.lt_le_trans; [exact Hlt|]. apply Z.pow_le_mono_r; lia.
Qed.

(** [SetBytes] inverts [Bytes]. *)
Lemma SetBytes_Bytes x : 0 ≤ x → SetBytes (big_Bytes x) = x.
Proof. intros. apply unbe_be. split; [done|]. by apply num_bytes_bound. Qed.

(** ** SRA *)

(** A card the cipher works on: the bytes of a non-zero residue. *)
Definition residue (p : Z) (m : bytes) : Prop :=
  0 < SetBytes m < p ∧ big_Bytes (SetBytes m) = m.

#[export] Instance residue_dec p m : Decision (residue p m).
Proof. unfold residue. apply _. Defined.

Definition key_ok (p : Z) (k : Key) : Prop :=
  0 < Exponent k ∧ 0 < InverseExponent k ∧
  (Exponent k * InverseExponent k) mod (p - 1) = 1 mod (p - 1).

Lemma residue_Bytes p x : 0 < x < p → residue p (big_Bytes x).
Proof. intros. unfold residue. by rewrite SetBytes_Bytes by lia. Qed.

Section sra.
Context (p : Z) (Hp : Z.prime p).

Lemma prime_gt_1 : 1 < p.
Proof. pose proof (Z.prime_ge_2 p Hp). lia. Qed.

(** Exponents only matter modulo [p - 1]. *)
Lemma pow_mod_phi x e e' :
  0 < x < p → 0 ≤ e → 0 ≤ e' → e mod (p - 1) = e' mod (p - 1) → x ^ e mod p = x ^ e' mod p.
Proof using Hp.
  pose proof prime_gt_1. intros Hx He He' Heq.
  assert (∀ e, 0 ≤ e → x ^ e mod p = x ^ (e mod (p - 1)) mod p) as Hred; [|by rewrite (Hred e), (Hred e'), Heq].
  intros f Hf. destruct (Z.eq_dec p 2) as [->|].
  { assert (x = 1) as -> by lia. rewrite !Z.pow_1_l; [done|apply Z.mod_pos_bound; lia|done]. }
  rewrite (Z.div_mod f (p - 1)) at 1 by lia.
  pose proof (Z.mod_pos_bound f (p - 1)). assert (0 ≤ f / (p - 1)) by (apply Z.div_pos; lia).
  rewrite Z.pow_add_r, Z.pow_mul_r by nia.
  rewrite Z.mul_mod, <- (Z.mod_pow_l (x ^ (p - 1))), Z.fermat_nz; try lia; [|done|rewrite Z.mod_small; lia].
  rewrite Z.pow_1_l, Z.mod_1_l, Z.mul_1_l by lia. apply Z.mod_mod. lia.
Qed.

Lemma Exp_Exp x e e' : 0 ≤ e → 0 ≤ e' → Exp (Exp x e p) e' p = x ^ (e * e') mod p.
Proof using Hp.
  pose proof prime_gt_1. intros. rewrite !Exp_pow, Z.mod_pow_l, <- Z.pow_mul_r by lia. done.
Qed.

Lemma Exp_nonzero x e : 0 < x < p → 0 ≤ e → 0 < Exp x e p < p.
Proof using Hp.
  pose proof prime_gt_1. intros Hx He. pose proof (Exp_range x e p).
  enough (Exp x e p ≠ 0) by lia. rewrite Exp_pow by lia. intros Hz.
  assert (Z.coprime (x ^ e) p) as Hc.
  { apply Z.coprime_pow_l; [done|]. symmetry. apply Z.coprime_prime_small; [done|lia]. }
  unfold Z.coprime in Hc. rewrite <- Z.gcd_mod_l, Hz, Z.gcd_0_l in Hc. lia.
Qed.

Lemma Exp_inverse x k : 0 < x < p → key_ok p k → Exp (Exp x (Exponent k) p) (InverseExponent k) p = x.
Proof using Hp.
  pose proof prime_gt_1. intros Hx (He & Hd & Heq). rewrite Exp_Exp by lia.
  rewrite (pow_mod_phi x _ 1), Z.pow_1_r by (done || lia || nia). apply Z.mod_small. lia.
Qed.

Lemma SetBytes_encrypt m k :
  0 < SetBytes m < p → 0 ≤ Exponent k → SetBytes (encrypt_card m k p) = Exp (SetBytes m) (Exponent k) p.
Proof using Hp.
  intros Hm Hk. apply SetBytes_Bytes. pose proof (Exp_nonzero _ _ Hm Hk). lia.
Qed.

#[export] Instance sra_cipher : CommCipher Key bytes.
Proof using p Hp.
  refine {| cc_enc k m := encrypt_card m k p; cc_dec k m := DecryptCard m k p;
            cc_key := key_ok p; cc_dom := residue p |}.
  - intros k m (He & _) [Hm _]. apply residue_Bytes, Exp_nonzero; [done|lia].
  - intros k m Hk [Hm Hc]. pose proof Hk as (He & _). unfold DecryptCard.
    rewrite SetBytes_encrypt, Exp_inverse by (done || lia). done.
  - intros k k' m (He & _) (He' & _) [Hm _]. unfold encrypt_card at 1 3.
    rewrite !SetBytes_encrypt, !Exp_Exp by (done || lia). by rewrite Z.mul_comm.
Defined.

End sra.

(** ** The deployed prime *)

Lemma PRIME_prime : Z.prime PRIME.
Proof.
  assert (forallb (λ d, negb (PRIME mod Z.of_nat d =? 0)) (seq 2 116) = true) as Hall by (vm_compute; reflexivity).
  rewrite forallb_forall in Hall.
  assert (∀ d q, 1 < d < 118 → PRIME ≠ q * d) as Hsmall.
  { intros d q Hd Heq. specialize (Hall (Z.to_nat d)). rewrite in_seq, Z2Nat.id in Hall by lia. specialize (Hall ltac:(lia)).
    by rewrite Heq, Z.mod_mul in Hall by lia. }
  split; [done|]. intros n Hn [q Hq]. destruct (Z.lt_ge_cases n 118) as [Hlt|Hge]; [apply (Hsmall n q); [lia|done]|].
  apply (Hsmall q n); [|lia]. unfold PRIME in *. nia.
Qed.

(** ** Keys *)

Lemma ModInverse_Some k n d :
  1 < n → ModInverse k n = Some d → Z.gcd k n = 1 ∧ 0 ≤ d < n ∧ (k * d) mod n = 1.
Proof.
  intros Hn. unfold ModInverse. destruct (Z.eqb_spec (Z.gcd k n) 1) as [Hg|]; [|done].
  intros [= <-]. split_and!; [done| | |].
  - rewrite <- Z.mod_invmod. apply Z.mod_pos_bound. lia.
  - rewrite <- Z.mod_invmod. apply Z.mod_pos_bound. lia.
  - rewrite Z.mul_comm. apply Z.invmod_coprime; [lia|done].
Qed.

Section keys.
Context `{RandLaws}.

Lemma generate_loop_ok fuel c phi k :
  0 < phi → generate_loop fuel c phi = Some (Ok k) →
  1 < Exponent k < phi ∧ 0 ≤ InverseExponent k < phi ∧ Z.gcd (Exponent k) phi = 1 ∧
  (Exponent k * InverseExponent k) mod phi = 1.
Proof.
  intros Hphi. revert c. induction fuel as [|fuel IH]; intros c; [done|]. cbn [generate_loop].
  destruct (rand_Int c phi) as [r|] eqn:Hr; [|done]. apply rand_range in Hr.
  destruct (Z.leb_spec r 1); [apply IH|]. destruct (Z.eqb_spec (Z.gcd r phi) 1); cbn [negb]; [|apply IH].
  destruct (ModInverse r phi) as [d|] eqn:Hd; [|apply IH]. intros [= <-]. cbn.
  apply ModInverse_Some in Hd; lia.
Qed.

Lemma generate_loop_finds fuel c phi i k :
  0 < phi → (i < fuel)%nat → rand_Int (c + i) phi = Some k → 1 < k → Z.gcd k phi = 1 →
  (∀ j, (j < i)%nat → rand_Int (c + j) phi ≠ None) →
  ∃ key, generate_loop fuel c phi = Some (Ok key).
Proof.
  intros Hphi. revert c i. induction fuel as [|fuel IH]; intros c i Hi Hk Hk1 Hg Hno; [lia|].
  cbn [generate_loop]. destruct i as [|i].
  - rewrite Nat.add_0_r in Hk. rewrite Hk, (proj2 (Z.leb_gt _ _)) by lia.
    unfold ModInverse. rewrite Hg. cbn. eauto.
  - assert (∃ key, generate_loop fuel (S c) phi = Some (Ok key)) as [key Hkey].
    { apply (IH (S c) i); [lia| |done..|].
      - by replace (S c + i)%nat with (c + S i)%nat by lia.
      - intros j Hj. replace (S c + j)%nat with (c + S j)%nat by lia. apply Hno. lia. }
    specialize (Hno 0%nat ltac:(lia)). rewrite Nat.add_0_r in Hno.
    destruct (rand_Int c phi) as [r|]; [|done]. rewrite Hkey.
    destruct (r <=? 1); [eauto|]. destruct (negb _); [eauto|]. destruct (ModInverse r phi); eauto.
Qed.

End keys.
