(* ===== verification/DeckProps.v ===== *)
(** * The deck's cryptography: theorems *)

From Stdlib Require Import ZArith Lia Zpow_facts ZmodInv.
From stdpp Require Import base list gmap strings numbers.
From S2P Require Import Prelude Deck DeckProofs.

#[local] Open Scope Z_scope.

(** ** Fisher-Yates as a function of its draws *)

Definition swap {A} (i j : nat) (l : list A) : list A :=
  match l !! i, l !! j with
  | Some x, Some y => <[j := x]> (<[i := y]> l)
  | _, _ => l
  end.

(** The draws in the order they are made: the first is for the last index. *)
Fixpoint shuffle_draws {A} (js : list nat) (l : list A) : list A :=
  match js with
  | [] => l
  | j :: js' => shuffle_draws js' (swap (length js) j l)
  end.

(** Each draw is at most the index it is drawn for. *)
Fixpoint draws_ok (js : list nat) : Prop :=
  match js with
  | [] => True
  | j :: js' => (j ≤ length js)%nat ∧ draws_ok js'
  end.

Lemma swap_middle {A} (l1 l2 l3 : list A) x y :
  swap (length l1 + S (length l2)) (length l1) (l1 ++ y :: l2 ++ x :: l3) = l1 ++ x :: l2 ++ y :: l3.
Proof.
  unfold swap.
  assert ((l1 ++ y :: l2 ++ x :: l3) !! (length l1 + S (length l2))%nat = Some x) as ->.
  { rewrite lookup_app_r by lia. replace (length l1 + S (length l2) - length l1)%nat
      with (S (length l2)) by lia.
    change ((l2 ++ x :: l3) !! length l2 = Some x). by rewrite lookup_app_r, Nat.sub_diag by lia. }
  assert ((l1 ++ y :: l2 ++ x :: l3) !! length l1 = Some y) as ->.
  { by rewrite lookup_app_r, Nat.sub_diag by lia. }
  rewrite insert_app_r. change (<[S (length l2) := y]> (y :: l2 ++ x :: l3))
    with (y :: <[length l2 := y]> (l2 ++ x :: l3)).
  rewrite (insert_app_r_alt l2), Nat.sub_diag by lia.
  by rewrite (insert_app_r_alt l1), Nat.sub_diag by lia.
Qed.

(** Swapping the last element of a list with any other. *)
Lemma swap_last {A} (l : list A) i j :
  length l = S i → (j ≤ i)%nat → ∃ y r, l !! j = Some y ∧ swap i j l = r ++ [y] ∧ r ++ [y] ≡ₚ l.
Proof.
  intros Hl Hj. destruct (lookup_lt_is_Some_2 l j) as [y Hy]; [lia|].
  destruct (decide (j = i)) as [->|Hne].
  - pose proof (take_drop_middle l i y Hy) as Hsplit. rewrite drop_ge in Hsplit by lia.
    exists y, (take i l). split_and!; [done| |by rewrite Hsplit].
    unfold swap. rewrite Hy. by rewrite !list_insert_id by (rewrite ?list_lookup_insert_eq; done || lia).
  - pose proof (take_drop_middle l j y Hy) as Hsplit.
    destruct (lookup_lt_is_Some_2 l i) as [x Hx]; [lia|].
    assert (drop (S j) l = take (i - S j) (drop (S j) l) ++ [x]) as Hd.
    { rewrite <- (take_drop_middle (drop (S j) l) (i - S j) x) at 1.
      - by rewrite (drop_ge (drop (S j) l)) by (rewrite length_drop; lia).
      - rewrite lookup_drop. by replace (S j + (i - S j))%nat with i by lia. }
    rewrite Hd in Hsplit. set (l1 := take j l) in *. set (l2 := take (i - S j) (drop (S j) l)) in *.
    assert (length l1 = j) as H1 by (unfold l1; rewrite length_take; lia).
    assert (length l2 = (i - S j)%nat) as H2 by (unfold l2; rewrite length_take, length_drop; lia).
    exists y, (l1 ++ x :: l2). split_and!; [done| |].
    + rewrite <- Hsplit. pose proof (swap_middle l1 l2 [] x y) as Hs.
      replace (length l1 + S (length l2))%nat with i in Hs by lia. rewrite H1 in Hs.
      rewrite Hs. by rewrite <- app_assoc.
    + rewrite <- Hsplit, <- app_assoc. cbn. apply Permutation_app_head.
      rewrite <- (Permutation_cons_append l2 y), <- (Permutation_cons_append l2 x).
      apply Permutation_swap.
Qed.

Lemma swap_app {A} (l suf : list A) i j :
  (i < length l)%nat → (j < length l)%nat → swap i j (l ++ suf) = swap i j l ++ suf.
Proof.
  intros Hi Hj. unfold swap. rewrite !lookup_app_l by done.
  destruct (lookup_lt_is_Some_2 l i Hi) as [x ->]. destruct (lookup_lt_is_Some_2 l j Hj) as [y ->].
  rewrite insert_app_l by done. by rewrite insert_app_l by (by rewrite length_insert).
Qed.

Lemma length_swap {A} (l : list A) i j : length (swap i j l) = length l.
Proof. unfold swap. destruct (l !! i), (l !! j); by rewrite ?length_insert. Qed.

Lemma shuffle_draws_app {A} js (l suf : list A) :
  (length js < length l)%nat → draws_ok js → shuffle_draws js (l ++ suf) = shuffle_draws js l ++ suf.
Proof.
  revert l. induction js as [|j js IH]; intros l Hl Hok; [done|].
  destruct Hok as [Hj Hok]. cbn [shuffle_draws length] in *.
  rewrite swap_app by (cbn in *; lia). apply IH; [|done]. rewrite length_swap. lia.
Qed.

(** One round of the shuffle: the drawn element goes last, the rest is
    shuffled on. *)
Lemma shuffle_draws_cons {A} j js (l : list A) :
  length l = S (S (length js)) → draws_ok (j :: js) →
  ∃ y r, l !! j = Some y ∧ swap (S (length js)) j l = r ++ [y] ∧ r ++ [y] ≡ₚ l ∧
    length r = S (length js) ∧ shuffle_draws (j :: js) l = shuffle_draws js r ++ [y].
Proof.
  intros Hl [Hj Hok]. cbn [length] in Hj.
  destruct (swap_last l (S (length js)) j Hl Hj) as (y & r & Hy & Hs & Hp).
  assert (length r = S (length js)) as Hr.
  { apply Permutation_length in Hp. rewrite length_app in Hp. cbn in Hp. lia. }
  exists y, r. split_and!; [done..|]. cbn [shuffle_draws length]. rewrite Hs.
  apply shuffle_draws_app; [lia|done].
Qed.

Lemma shuffle_draws_perm {A} js (l : list A) :
  length l = S (length js) → draws_ok js → shuffle_draws js l ≡ₚ l.
Proof.
  revert l. induction js as [|j js IH]; intros l Hl Hok; [done|].
  destruct (shuffle_draws_cons j js l Hl Hok) as (y & r & _ & _ & Hp & Hr & ->).
  rewrite IH by (done || apply Hok). done.
Qed.

Lemma shuffle_draws_inj {A} js ks (l : list A) :
  length l = S (length js) → length js = length ks → draws_ok js → draws_ok ks → NoDup l →
  shuffle_draws js l = shuffle_draws ks l → js = ks.
Proof.
  revert ks l. induction js as [|j js IH]; intros [|k ks] l Hl Hlen Hjs Hks Hnd Heq; try done.
  injection Hlen as Hlen.
  destruct (shuffle_draws_cons j js l Hl Hjs) as (y & r & Hy & Hsw & Hp & Hr & Hs).
  destruct (shuffle_draws_cons k ks l) as (y' & r' & Hy' & Hsw' & Hp' & Hr' & Hs');
    [by rewrite <- Hlen|done|].
  rewrite Hs, Hs' in Heq. apply app_inj_tail in Heq as [Heq ->].
  assert (j = k) as -> by (by eapply NoDup_lookup). rewrite <- Hlen, Hsw in Hsw'.
  apply app_inj_tail in Hsw' as [-> _]. f_equal.
  apply (IH ks r'); [done|done|apply Hjs|apply Hks| |done].
  rewrite <- Hp in Hnd. by apply list.NoDup_app in Hnd as [? _].
Qed.

Lemma shuffle_draws_surj {A} (l target : list A) n :
  length l = S n → target ≡ₚ l → ∃ js, length js = n ∧ draws_ok js ∧ shuffle_draws js l = target.
Proof.
  revert l target. induction n as [|n IH]; intros l target Hl Hp.
  - exists []. split_and!; [done..|]. destruct l as [|x [|]]; try done.
    by apply Permutation_singleton_r in Hp as ->.
  - destruct target as [|y t _] using rev_ind.
    { apply Permutation_nil_l in Hp as <-. done. }
    assert (y ∈ l) as Hy by (rewrite <- Hp; apply elem_of_app; right; by left).
    apply list_elem_of_lookup in Hy as [j Hj]. pose proof (lookup_lt_Some _ _ _ Hj).
    destruct (swap_last l (S n) j) as (y' & r & Hy' & Hs & Hpr); [done|lia|].
    assert (y' = y) as -> by congruence.
    assert (length r = S n) as Hr.
    { apply Permutation_length in Hpr. rewrite length_app in Hpr. cbn in Hpr. lia. }
    destruct (IH r t Hr) as (js & <- & Hok & Hsh).
    { rewrite <- Hp in Hpr. symmetry. by apply Permutation_app_inv_r in Hpr. }
    exists (j :: js). cbn [shuffle_draws length draws_ok].
    split; [done|]. split; [split; [lia|done]|].
    rewrite Hs, shuffle_draws_app, Hsh by (done || lia). done.
Qed.

(** ** [Shuffle] makes those draws *)

Lemma shuffle_loop_run `{RandSource} js c deck :
  (length js < length deck)%nat ∨ js = [] → draws_ok js →
  (∀ t j, js !! t = Some j →
     rand_Int (c + t) (Z.of_nat (length js - t) + 1) = Some (Z.of_nat j)) →
  shuffle_loop (length js) c deck = Ok (shuffle_draws js deck).
Proof.
  revert c deck. induction js as [|j js IH]; intros c deck Hlen Hok Hr; [done|].
  destruct Hlen as [Hlen|]; [|done]. destruct Hok as [Hj Hok]. cbn [length] in *.
  cbn [shuffle_loop shuffle_draws].
  pose proof (Hr 0%nat j eq_refl) as H0. rewrite Nat.add_0_r, Nat.sub_0_r in H0. rewrite H0.
  destruct (idx_in_range (E:=deck_err) deck (Z.of_nat j)) as (y & Hy & ->); [lia|].
  destruct (idx_in_range (E:=deck_err) deck (Z.of_nat (S (length js)))) as (x & Hx & ->); [lia|].
  cbn [mbind res_bind]. rewrite upd_in_range by lia. cbn [mbind res_bind].
  rewrite upd_in_range by (rewrite length_insert; lia). cbn [mbind res_bind].
  rewrite Nat2Z.id in *. unfold swap. cbn [length]. rewrite Nat2Z.id, Hx, Hy.
  apply IH; [left; rewrite !length_insert; lia|done|].
  intros t k Hk. pose proof (Hr (S t) k Hk) as Hs.
  by replace (S c + t)%nat with (c + S t)%nat by lia.
Qed.

(** The draws of a lawful source, or the call that failed. *)
Lemma collect_draws `{RandLaws} i c :
  (∃ js, length js = i ∧ draws_ok js ∧ ∀ t j, js !! t = Some j →
     rand_Int (c + t) (Z.of_nat (i - t) + 1) = Some (Z.of_nat j)) ∨
  (∃ t, (t < i)%nat ∧ rand_Int (c + t) (Z.of_nat (i - t) + 1) = None).
Proof.
  revert c. induction i as [|i IH]; intros c; [left; by exists []|].
  destruct (rand_Int c (Z.of_nat (S i) + 1)) as [r|] eqn:Hr.
  2:{ right. exists 0%nat. rewrite Nat.add_0_r, Nat.sub_0_r. split; [lia|done]. }
  destruct (IH (S c)) as [(js & <- & Hok & Hjs)|(t & Ht & Hn)].
  - left. exists (Z.to_nat r :: js). split; [done|]. pose proof (rand_range _ _ _ Hr).
    split; [cbn [draws_ok length]; split; [lia|done]|]. intros [|t] j Hj.
    + cbn in Hj. injection Hj as <-. rewrite Nat.add_0_r, Nat.sub_0_r, Z2Nat.id by lia. done.
    + replace (c + S t)%nat with (S c + t)%nat by lia. by apply Hjs.
  - right. exists (S t). split; [lia|]. by replace (c + S t)%nat with (S c + t)%nat by lia.
Qed.

Lemma shuffle_loop_fails `{RandLaws} i c deck :
  (i < length deck)%nat → (∃ t, (t < i)%nat ∧ rand_Int (c + t) (Z.of_nat (i - t) + 1) = None) →
  shuffle_loop i c deck = Err ErrRand.
Proof.
  revert c deck. induction i as [|i IH]; intros c deck Hi (t & Ht & Hn); [lia|]. cbn [shuffle_loop].
  destruct (rand_Int c (Z.of_nat (S i) + 1)) as [r|] eqn:Hr; [|done]. pose proof (rand_range _ _ _ Hr).
  destruct (idx_in_range (E:=deck_err) deck r) as (y & Hy & ->); [lia|].
  destruct (idx_in_range (E:=deck_err) deck (Z.of_nat (S i))) as (x & Hx & ->); [lia|].
  cbn [mbind res_bind]. rewrite upd_in_range by lia. cbn [mbind res_bind].
  rewrite upd_in_range by (rewrite length_insert; lia). cbn [mbind res_bind].
  destruct t as [|t]; [rewrite Nat.add_0_r, Nat.sub_0_r in Hn; congruence|].
  apply IH; [rewrite !length_insert; lia|]. exists t. split; [lia|].
  by replace (S c + t)%nat with (c + S t)%nat by lia.
Qed.

Lemma shuffle_permutes_lemma `{RandLaws} c deck :
  match Shuffle c deck with
  | Ok d => d ≡ₚ deck
  | Err e => e = ErrRand ∧ ∃ t, (S t < length deck)%nat ∧
      rand_Int (c + t) (Z.of_nat (length deck - 1 - t) + 1) = None
  | Panic => False
  end.
Proof.
  unfold Shuffle. destruct (decide (length deck = 0%nat)) as [Hz|Hz].
  { rewrite Hz. cbn. done. }
  destruct (collect_draws (length deck - 1) c) as [(js & Hl & Hok & Hjs)|Hf].
  - rewrite <- Hl in *. rewrite (shuffle_loop_run js) by (done || lia).
    apply shuffle_draws_perm; [lia|done].
  - rewrite shuffle_loop_fails by (done || lia). split; [done|].
    destruct Hf as (t & ? & ?). exists t. split; [lia|done].
Qed.

(** [Shuffle] only reorders.  With a random source that keeps to its
    documented range it never panics; it returns a permutation of the deck,
    or the source's error when one of its calls failed. *)
Theorem shuffle_permutes `{RandLaws} c deck :
  match Shuffle c deck with
  | Ok d => d ≡ₚ deck
  | Err e => e = ErrRand ∧ ∃ t, (S t < length deck)%nat ∧
      rand_Int (c + t) (Z.of_nat (length deck - 1 - t) + 1) = None
  | Panic => False
  end.
Proof. apply shuffle_permutes_lemma. Qed.

(** A lawful source, for the concrete runs: always the smallest number. *)
Definition zero_rand : RandSource := λ _ max, if 0 <? max then Some 0 else None.

#[export] Instance zero_rand_laws : @RandLaws zero_rand.
Proof.
  intros c max r. unfold rand_Int, zero_rand. destruct (Z.ltb_spec 0 max); [|done].
  intros [= <-]. lia.
Qed.

Lemma shuffle_permutes_witness :
  match @Shuffle zero_rand 0 [[1]; [2]; [3]] with
  | Ok d => d ≡ₚ [[1]; [2]; [3]]
  | _ => False
  end.
Proof.
  pose proof (@shuffle_permutes zero_rand zero_rand_laws 0 [[1]; [2]; [3]]) as H.
  vm_compute in H. exact H.
Defined.

(** A source that plays back a list of draws. *)
Definition playback (js : list nat) : RandSource := λ c _, Z.of_nat <$> js !! c.

(** The shuffle is unbiased.  For a deck of distinct cards, every
    reordering is produced by exactly one sequence of in-range draws, so
    uniform draws make every order equally likely. *)
Theorem shuffle_unbiased deck target :
  NoDup deck → target ≡ₚ deck →
  exists! js, length js = (length deck - 1)%nat ∧ draws_ok js ∧
    @Shuffle (playback js) 0 deck = Ok target.
Proof.
  intros Hnd Hp.
  assert (∀ js, length js = (length deck - 1)%nat → draws_ok js →
    @Shuffle (playback js) 0 deck = Ok (shuffle_draws js deck)) as Hrun.
  { intros js Hl Hok. unfold Shuffle. rewrite <- Hl.
    rewrite (@shuffle_loop_run (playback js) js 0 deck); [done| |done|].
    - destruct js; [by right|left]. cbn in *. lia.
    - intros t j Hj. unfold rand_Int, playback. cbn [Nat.add]. by rewrite Hj. }
  destruct deck as [|c0 deck].
  { apply Permutation_nil_r in Hp as ->. exists []. split; [done|]. intros [|] (? & ? & ?); done. }
  cbn [length] in *. rewrite Nat.sub_succ, Nat.sub_0_r in *.
  destruct (shuffle_draws_surj (c0 :: deck) target (length deck)) as (js & Hl & Hok & Hs); [done..|].
  exists js. split.
  - split_and!; [done..|]. rewrite Hrun by done. by rewrite Hs.
  - intros ks (Hl' & Hok' & Hs'). rewrite Hrun in Hs' by done. injection Hs' as Hs'.
    apply (shuffle_draws_inj js ks (c0 :: deck)); [by rewrite Hl|congruence|done..|congruence].
Qed.

Lemma shuffle_unbiased_witness :
  exists! js, length js = 2%nat ∧ draws_ok js ∧
    @Shuffle (playback js) 0 [[1]; [2]; [3]] = Ok [[3]; [1]; [2]].
Proof.
  apply (shuffle_unbiased [[1]; [2]; [3]] [[3]; [1]; [2]]).
  - by apply (bool_decide_unpack _).
  - apply (Permutation_app_comm [[3]] [[1]; [2]]).
Defined.

(** ** Encryption *)

Lemma encrypt_layers p (Hp : Z.prime p) ks deck :
  fold_left (λ d k, EncryptDeck d k p) ks deck = @layers _ _ (sra_cipher p Hp) ks <$> deck.
Proof.
  revert deck. induction ks as [|k ks IH]; intros deck; cbn [fold_left].
  { unfold layers. cbn. by rewrite list_fmap_id. }
  rewrite IH. unfold EncryptDeck. by rewrite <- list_fmap_compose.
Qed.

(** C35: layered encryption cancels.  Over any prime, when a deck of residues
    has been encrypted by every key in turn, decrypting one card with the same
    keys in any order gives that card back; and encryption keeps distinct
    cards distinct. *)
Theorem sra_layers_cancel p deck ks ks' i card :
  Z.prime p → Forall (residue p) deck → Forall (key_ok p) ks → ks' ≡ₚ ks →
  deck !! i = Some card →
  (∃ c, fold_left (λ d k, EncryptDeck d k p) ks deck !! i = Some c ∧
     fold_left (λ c k, DecryptCard c k p) ks' c = card) ∧
  (NoDup deck → NoDup (fold_left (λ d k, EncryptDeck d k p) ks deck)).
Proof.
  intros Hp Hdeck Hks Hperm Hi. rewrite (encrypt_layers p Hp).
  assert (∀ c, residue p c →
    @strip _ _ (sra_cipher p Hp) ks' (@layers _ _ (sra_cipher p Hp) ks c) = c) as Hinv.
  { intros c Hc. assert (Forall (key_ok p) ks') as Hks' by (by rewrite Hperm).
    rewrite (@layers_perm _ _ (sra_cipher p Hp) ks (ks' ++ [])); [|by rewrite app_nil_r|done|done].
    by rewrite (@strip_layers _ _ (sra_cipher p Hp)). }
  rewrite list.Forall_forall in Hdeck. split.
  - exists (@layers _ _ (sra_cipher p Hp) ks card). rewrite list_lookup_fmap, Hi. split; [done|].
    apply Hinv, Hdeck. by eapply list_elem_of_lookup_2.
  - intros Hnd. apply NoDup_fmap_2_strong; [|done]. intros c c' Hc Hc' Heq.
    rewrite <- (Hinv c), <- (Hinv c') by auto. by rewrite Heq.
Qed.

Definition key_5 : Key := mkKey 5 8171.
Definition key_7 : Key := mkKey 7 3891.

Lemma keys_ok : key_ok PRIME key_5 ∧ key_ok PRIME key_7.
Proof. split; split_and!; vm_compute; reflexivity. Qed.

Lemma sra_layers_cancel_witness :
  ∃ c, fold_left (λ d k, EncryptDeck d k PRIME) [key_5; key_7] [[51; 49]; [52; 57]] !! 1%nat = Some c ∧
    fold_left (λ c k, DecryptCard c k PRIME) [key_7; key_5] c = [52; 57].
Proof.
  apply (sra_layers_cancel PRIME [[51; 49]; [52; 57]] [key_5; key_7] [key_7; key_5] 1 [52; 57]).
  - exact PRIME_prime.
  - repeat constructor; vm_compute; reflexivity.
  - repeat constructor; vm_compute; reflexivity.
  - apply Permutation_swap.
  - reflexivity.
Defined.

(** [GenerateKey] makes usable keys and stops.  Every key it returns for
    a prime is a key pair of the cipher with an exponent above 1, and as soon
    as the source draws a number above 1 coprime to [prime - 1] (no earlier
    call failing) it has returned one. *)
Theorem generate_key_correct `{RandLaws} p fuel c :
  Z.prime p →
  (∀ k, GenerateKey fuel c p = Some (Ok k) → key_ok p k ∧ 1 < Exponent k < p - 1) ∧
  (∀ i k, (i < fuel)%nat → rand_Int (c + i) (p - 1) = Some k → 1 < k → Z.gcd k (p - 1) = 1 →
     (∀ j, (j < i)%nat → rand_Int (c + j) (p - 1) ≠ None) →
     ∃ key, GenerateKey fuel c p = Some (Ok key)).
Proof.
  intros Hp. pose proof (Z.prime_ge_2 p Hp). unfold GenerateKey.
  rewrite !(proj2 (Z.leb_gt _ _)) by lia. split.
  - intros k Hk. apply generate_loop_ok in Hk as (He & Hd & Hg & Hm); [|lia].
    split; [|done]. split_and!; [lia| |by rewrite Hm, Z.mod_1_l by lia].
    destruct (decide (InverseExponent k = 0)) as [Hz|]; [|lia].
    rewrite Hz, Z.mul_0_r, Z.mod_0_l in Hm by lia. done.
  - intros i k Hi Hr Hk Hg Hno. eapply generate_loop_finds; eauto. lia.
Qed.

(** A source that answers 5 whenever it may. *)
Definition five_rand : RandSource := λ _ max, if 5 <? max then Some 5 else None.

#[export] Instance five_rand_laws : @RandLaws five_rand.
Proof.
  intros c max r. unfold rand_Int, five_rand. destruct (Z.ltb_spec 5 max); [|done].
  intros [= <-]. lia.
Qed.

Lemma generate_key_correct_witness : ∃ key, @GenerateKey five_rand 1 0 PRIME = Some (Ok key).
Proof.
  destruct (@generate_key_correct five_rand five_rand_laws PRIME 1 0 PRIME_prime) as [_ Hf].
  apply (Hf 0%nat 5); [lia|reflexivity|lia|reflexivity|intros j Hj; lia].
Defined.

(** For the primes 2 and 3 [GenerateKey] never returns a key: there is no
    exponent strictly between 1 and [prime - 1], so the loop retries for as
    long as the source answers. *)
Theorem generate_key_small_primes `{RandLaws} p fuel c :
  p = 2 ∨ p = 3 → (∀ i, rand_Int i (p - 1) ≠ None) → GenerateKey fuel c p = None.
Proof.
  intros Hp Hr. unfold GenerateKey.
  rewrite !(proj2 (Z.leb_gt _ _)) by lia. revert c.
  induction fuel as [|fuel IH]; intros c; [done|]. cbn [generate_loop].
  specialize (Hr c) as Hc. destruct (rand_Int c (p - 1)) as [k|] eqn:E; [|done].
  apply rand_range in E. rewrite (proj2 (Z.leb_le _ _)) by lia. apply IH.
Qed.

Lemma generate_key_small_primes_witness : @GenerateKey zero_rand 100 0 3 = None.
Proof.
  apply (@generate_key_small_primes zero_rand zero_rand_laws 3 100 0).
  - right. reflexivity.
  - intros i. vm_compute. discriminate.
Defined.

(** ** What the encryption does not hide *)

Lemma key_odd p k : p mod 2 = 1 → 2 < p → key_ok p k → Exponent k mod 2 = 1.
Proof.
  intros Hp Hp2 (He & Hd & Hm). rewrite (Z.mod_small 1) in Hm by lia.
  pose proof (Z.div_mod p 2). pose proof (Z.div_mod (Exponent k * InverseExponent k) (p - 1)) as Hdm.
  pose proof (Z.mod_pos_bound (Exponent k) 2). pose proof (Z.div_mod (Exponent k) 2).
  destruct (decide (Exponent k mod 2 = 0)) as [Hz|]; [|lia]. exfalso.
  set (q := Exponent k * InverseExponent k / (p - 1)) in *. nia.
Qed.

(** The Euler criterion's power of a card: 1 for a quadratic residue, [p - 1]
    otherwise. *)
Definition residuosity (p : Z) (c : bytes) : Z := Exp (SetBytes c) ((p - 1) / 2) p.

(** Encryption under the deployed prime is not hiding.  Whatever the key,
    the ace of spades ("52", which is -1 modulo the prime) is its own
    ciphertext, and every card's ciphertext shows whether the card is a
    quadratic residue. *)
Theorem encryption_leaks k c :
  key_ok PRIME k → residue PRIME c →
  encrypt_card [53; 50] k PRIME = [53; 50] ∧
  residuosity PRIME (encrypt_card c k PRIME) = residuosity PRIME c.
Proof.
  intros Hk [Hc _]. pose proof PRIME_prime as Hp.
  pose proof (key_odd PRIME k eq_refl ltac:(done) Hk) as Hodd. destruct Hk as (He & _ & _).
  assert (Exponent k = 2 * (Exponent k / 2) + 1) as Hek by (pose proof (Z.div_mod (Exponent k) 2); lia).
  assert (0 ≤ Exponent k / 2) as Hq by (apply Z.div_pos; lia). split.
  - unfold encrypt_card. rewrite Exp_pow by done. rewrite Hek.
    rewrite Z.pow_add_r, Z.pow_mul_r by lia. rewrite Z.mul_mod by done.
    change (SetBytes [53; 50]) with 13618.
    rewrite <- (Z.mod_pow_l (13618 ^ 2)). change (13618 ^ 2 mod PRIME) with 1.
    rewrite Z.pow_1_l by done. vm_compute. reflexivity.
  - unfold residuosity. rewrite (SetBytes_encrypt _ Hp) by lia.
    rewrite (Exp_Exp _ Hp), Exp_pow by (done || lia).
    apply (pow_mod_phi _ Hp); [done|apply Z.mul_nonneg_nonneg; [lia|done]|done|].
    change ((PRIME - 1) / 2) with 6809. change (PRIME - 1) with 13618. rewrite Hek.
    replace ((2 * (Exponent k / 2) + 1) * 6809) with (6809 + (Exponent k / 2) * 13618) by lia.
    by rewrite Z.mod_add by lia.
Qed.

Lemma encryption_leaks_witness :
  residuosity PRIME (encrypt_card [49] key_5 PRIME) = residuosity PRIME [49] ∧
  residuosity PRIME [49] ≠ residuosity PRIME [50].
Proof.
  split.
  - apply (encryption_leaks key_5 [49]); [apply keys_ok|split_and!; vm_compute; reflexivity].
  - vm_compute. discriminate.
Defined.
