(* ===== verification/Net.v ===== *)
(** * Nodes that host and poll ([internal/peer/ephemeral.go], [PollRemote])

    The peer protocols have one shape: a node computes, hosts values in its
    own store and polls other nodes' stores, blocking until the key appears or
    its context ends.  [act] is such a computation; a [net] is the stores of
    all nodes and the computations running on them, and [net_step] lets any
    computation take its next store access, so that a run is any interleaving
    of them.  [PollRemote]'s request and response are one step: the value read
    is the one in the target's store when the request is served; retries
    change nothing.

    [net_correct] is proved once for all the protocols: when every
    computation follows an assignment of values to keys and no computation
    waits for a key of higher rank than those it still hosts, every
    interleaving ends, with every result the expected one. *)

From Stdlib Require Import ZArith Lia.
From stdpp Require Import base list gmap strings numbers relations.
From S2P Require Import Prelude Ephemeral.

(** A computation of a node: it returns, polls a key of another node (the
    continuation gets [None] when the context ended first), or changes its own
    store: it hosts a value, or removes a key or the keys with a prefix. *)
Inductive act (A : Type) : Type :=
| Ret (a : A)
| PollRemote (targetID key : string) (k : option (list Z) → act A)
| Host (key : string) (value : list Z) (k : act A)
| Remove (key : string) (k : act A)
| RemovePrefix (prefix : string) (k : act A).
Arguments Ret {A} a.
Arguments PollRemote {A} targetID key k.
Arguments Host {A} key value k.
Arguments Remove {A} key k.
Arguments RemovePrefix {A} prefix k.

Fixpoint act_bind {A B} (p : act A) (f : A → act B) : act B :=
  match p with
  | Ret a => f a
  | PollRemote t key k => PollRemote t key (λ v, act_bind (k v) f)
  | Host key v k => Host key v (act_bind k f)
  | Remove key k => Remove key (act_bind k f)
  | RemovePrefix prefix k => RemovePrefix prefix (act_bind k f)
  end.

(** One node's run: its store changes with its accesses, and a poll of [key]
    at [targetID] has the outcome [remote targetID key]. *)
Fixpoint exec {A} (remote : string → string → option (list Z)) (s : Store) (p : act A) : Store * A :=
  match p with
  | Ret a => (s, a)
  | PollRemote t key k => exec remote s (k (remote t key))
  | Host key v k => exec remote (Put s key v) k
  | Remove key k => exec remote (Delete s key) k
  | RemovePrefix prefix k => exec remote (DeletePrefix s prefix) k
  end.

(** The result of such a run does not depend on the node's own store. *)
Fixpoint result {A} (remote : string → string → option (list Z)) (p : act A) : A :=
  match p with
  | Ret a => a
  | PollRemote t key k => result remote (k (remote t key))
  | Host _ _ k | Remove _ k | RemovePrefix _ k => result remote k
  end.

Lemma exec_result {A} remote s (p : act A) : (exec remote s p).2 = result remote p.
Proof. revert s. induction p; intros s; cbn; auto. Qed.

Lemma result_bind {A B} remote (p : act A) (f : A → act B) :
  result remote (act_bind p f) = result remote (f (result remote p)).
Proof. induction p; cbn; auto. Qed.

Record net (A : Type) := mkNet {
  stores : gmap string Store;
  procs : list (string * act A);
}.
Arguments mkNet {A} _ _.
Arguments stores {A} _.
Arguments procs {A} _.

Definition store_of (ss : gmap string Store) (id : string) : Store := default ∅ (ss !! id).

Definition host (ss : gmap string Store) (id key : string) (v : list Z) : gmap string Store :=
  <[id := Put (store_of ss id) key v]> ss.

Inductive net_step {A} : net A → net A → Prop :=
| step_host n i id key v k :
    procs n !! i = Some (id, Host key v k) →
    net_step n (mkNet (host (stores n) id key v) (<[i := (id, k)]> (procs n)))
| step_poll n i id t key k v :
    procs n !! i = Some (id, PollRemote t key k) →
    Get (store_of (stores n) t) key = Some v →
    net_step n (mkNet (stores n) (<[i := (id, k (Some v))]> (procs n)))
| step_remove n i id key k :
    procs n !! i = Some (id, Remove key k) →
    net_step n (mkNet (<[id := Delete (store_of (stores n) id) key]> (stores n)) (<[i := (id, k)]> (procs n)))
| step_remove_prefix n i id prefix k :
    procs n !! i = Some (id, RemovePrefix prefix k) →
    net_step n (mkNet (<[id := DeletePrefix (store_of (stores n) id) prefix]> (stores n))
                 (<[i := (id, k)]> (procs n))).

(** The context of a computation may end while it polls. *)
Inductive cancel_step {A} : net A → net A → Prop :=
| step_cancel n i id t key k :
    procs n !! i = Some (id, PollRemote t key k) →
    cancel_step n (mkNet (stores n) (<[i := (id, k None)]> (procs n))).

Definition finished {A} (n : net A) (i : nat) (r : A) : Prop :=
  ∃ id, procs n !! i = Some (id, Ret r).

(** ** Following an assignment of values to keys *)

(** The accesses of a computation, with the rank of the key. *)
Inductive event := EPoll (targetID key : string) (rank : nat) | EHost (key : string) (rank : nat).

(** A schedule by rank: a key is hosted at twice its rank, and polled next. *)
Definition event_time (e : event) : nat :=
  match e with EHost _ m => (2 * m + 1)%nat | EPoll _ _ m => (2 * m + 2)%nat end.

Section follow.
(** [I id key v m]: node [id] is to host [v] at [key]; [m] is the key's rank. *)
Context {A : Type} (I : string → string → list Z → nat → Prop) (failed : A → Prop).
Context (I_fun : ∀ id key v m v' m', I id key v m → I id key v' m' → v = v').

(** A computation that can only fail, whatever it still polls, and hosts
    nothing more. *)
Fixpoint doomed (p : act A) : Prop :=
  match p with
  | Ret e => failed e
  | PollRemote _ _ k => ∀ v, doomed (k v)
  | _ => False
  end.

(** [follows id p tr r]: with every poll answered from [I], the computation
    [p] of node [id] hosts only values of [I], makes the accesses [tr] and
    returns [r]; it never polls its own node, and once a poll is cancelled it is
    doomed. *)
Inductive follows (id : string) : act A → list event → A → Prop :=
| follows_ret r : follows id (Ret r) [] r
| follows_host key v m k tr r :
    I id key v m → follows id k tr r → follows id (Host key v k) (EHost key m :: tr) r
| follows_poll t key k v m tr r :
    I t key v m → t ≠ id → follows id (k (Some v)) tr r → doomed (k None) →
    follows id (PollRemote t key k) (EPoll t key m :: tr) r.

(** Every key hosted after a poll has a higher rank than the polled one. *)
Fixpoint guarded (tr : list event) : Prop :=
  match tr with
  | [] => True
  | EPoll _ _ m :: tr => (∀ key m', EHost key m' ∈ tr → (m < m')%nat) ∧ guarded tr
  | EHost _ _ :: tr => guarded tr
  end.

Lemma guarded_tail e tr : guarded (e :: tr) → guarded tr.
Proof. destruct e; cbn; naive_solver. Qed.

Lemma guarded_app tr1 tr2 :
  guarded tr1 → guarded tr2 →
  (∀ t key m key' m', EPoll t key m ∈ tr1 → EHost key' m' ∈ tr2 → (m < m')%nat) → guarded (tr1 ++ tr2).
Proof.
  intros H1 H2 Hlt. induction tr1 as [|[t key m|key m] tr1 IH]; cbn [app guarded] in *; [done| |].
  - destruct H1 as [Hm H1]. split.
    + intros key' m' [Hin|Hin]%elem_of_app; [by eapply Hm|]. eapply Hlt; [left|done].
    + apply IH; [done|]. intros. eapply Hlt; [by right|done].
  - apply IH; [done|]. intros. eapply Hlt; [by right|done].
Qed.

(** A computation's remaining accesses and its result. *)
Abbreviation plan := (list event * A)%type.

Definition on_plan (p : string * act A) (pl : plan) : Prop :=
  follows p.1 p.2 pl.1 pl.2 ∧ guarded pl.1.

Record net_inv (n : net A) (pls : list plan) : Prop := {
  inv_stores : ∀ id key v, Get (store_of (stores n) id) key = Some v → ∃ m, I id key v m;
  inv_procs : Forall2 on_plan (procs n) pls;
  inv_complete : ∀ id key v m, I id key v m →
    Get (store_of (stores n) id) key = Some v ∨
    ∃ i p pl, procs n !! i = Some (id, p) ∧ pls !! i = Some pl ∧ EHost key m ∈ pl.1;
}.

Definition work (pls : list plan) : nat := sum_list_with (λ pl, length pl.1) pls.

Lemma store_of_host ss id key v id' :
  store_of (host ss id key v) id' = if decide (id = id') then Put (store_of ss id) key v else store_of ss id'.
Proof.
  unfold store_of at 1, host. case_decide; subst.
  - by rewrite lookup_insert_eq.
  - by rewrite lookup_insert_ne by done.
Qed.

Lemma Get_host ss id key v id' key' :
  Get (store_of (host ss id key v) id') key'
  = if decide (id = id' ∧ key = key') then Some v else Get (store_of ss id') key'.
Proof.
  rewrite store_of_host. unfold Get, Put. destruct (decide (id = id')) as [->|]; [|by rewrite decide_False by naive_solver].
  destruct (decide (key = key')) as [->|].
  - rewrite decide_True by done. apply lookup_insert_eq.
  - rewrite decide_False by naive_solver. by apply lookup_insert_ne.
Qed.

Lemma work_insert (pls : list plan) (i : nat) tr r e :
  pls !! i = Some (e :: tr, r) → work pls = S (work (<[i := (tr, r)]> pls)).
Proof.
  unfold work. revert i. induction pls as [|pl pls IH]; intros [|i] Hi; [done|done| |].
  - injection Hi as ->. done.
  - specialize (IH i Hi). change (<[S i := (tr, r)]> (pl :: pls)) with (pl :: <[i := (tr, r)]> pls).
    cbn [sum_list_with]. lia.
Qed.

(** The keys still to be hosted when one computation takes its next access. *)
Lemma complete_insert ss ss' (ps : list (string * act A)) (pls : list plan) (i : nat) id p p' e tr r :
  ps !! i = Some (id, p) → pls !! i = Some (e :: tr, r) →
  (∀ key m, e = EHost key m → ∀ v, I id key v m → Get (store_of ss' id) key = Some v) →
  (∀ id' key v m, I id' key v m → Get (store_of ss id') key = Some v → Get (store_of ss' id') key = Some v) →
  (∀ id' key v m, I id' key v m → Get (store_of ss id') key = Some v ∨
     ∃ j q pl, ps !! j = Some (id', q) ∧ pls !! j = Some pl ∧ EHost key m ∈ pl.1) →
  ∀ id' key v m, I id' key v m → Get (store_of ss' id') key = Some v ∨
     ∃ j q pl, <[i := (id, p')]> ps !! j = Some (id', q) ∧ <[i := (tr, r)]> pls !! j = Some pl ∧
       EHost key m ∈ pl.1.
Proof.
  intros Hp Hpl He Hmono Hc id' key v m HI.
  destruct (Hc id' key v m HI) as [Hg|(j & q & pl & Hj & Hjpl & Hin)]; [left; by eapply Hmono|].
  pose proof (lookup_lt_Some _ _ _ Hp) as Hlp. pose proof (lookup_lt_Some _ _ _ Hpl) as Hll.
  destruct (decide (j = i)) as [->|Hne].
  - simplify_eq. apply elem_of_cons in Hin as [<-|Hin]; [left; by eapply He|]. right.
    exists i, p', (tr, r). by rewrite !list_lookup_insert_eq by done.
  - right. exists j, q, pl. by rewrite !list_lookup_insert_ne by done.
Qed.

Lemma net_step_inv n pls n' :
  net_inv n pls → net_step n n' → ∃ pls', net_inv n' pls' ∧ work pls = S (work pls') ∧
    (snd <$> pls') = (snd <$> pls).
Proof using I_fun.
  intros [Hst Hpr Hco] Hstep.
  destruct Hstep as [n i id key v k Hp|n i id t key k v Hp Hv|n i id key k Hp|n i id prefix k Hp];
    destruct (Forall2_lookup_l _ _ _ _ _ Hpr Hp) as ([tr r] & Hpl & Hf & Hg); cbn in Hf, Hg;
    [| |by inversion Hf|by inversion Hf].
  - inversion Hf as [|? ? m ? tr' ? HI Hf'|]; subst. exists (<[i := (tr', r)]> pls). split_and!.
    + constructor; cbn [stores procs].
      * intros id' key' v'. rewrite Get_host. case_decide as Hd; [|apply Hst].
        destruct Hd as [<- <-]. intros [= <-]. by exists m.
      * apply Forall2_insert; [done|]. split; [done|]. by eapply guarded_tail.
      * eapply complete_insert; [exact Hp|exact Hpl| | |exact Hco].
        -- intros key' m' [= <- <-] v' HI'. rewrite Get_host, decide_True by done. f_equal.
           by eapply I_fun.
        -- intros id' key' v' m' HI' Hg'. rewrite Get_host. case_decide as Hd; [|done].
           destruct Hd as [<- <-]. f_equal. by eapply I_fun.
    + by eapply work_insert.
    + rewrite list_fmap_insert. apply list_insert_id. rewrite list_lookup_fmap.
      exact (f_equal (fmap snd) Hpl).
  - inversion Hf as [| |? ? ? v' m tr' ? HI Hf']; subst.
    assert (v' = v) as -> by (apply Hst in Hv as [? Hv]; by eapply I_fun).
    exists (<[i := (tr', r)]> pls). split_and!.
    + constructor; cbn [stores procs]; [done| |].
      * apply Forall2_insert; [done|]. split; [done|]. by eapply guarded_tail.
      * eapply complete_insert; [exact Hp|exact Hpl|done|done|exact Hco].
    + by eapply work_insert.
    + rewrite list_fmap_insert. apply list_insert_id. rewrite list_lookup_fmap.
      exact (f_equal (fmap snd) Hpl).
Qed.

(** No deadlock: a key that is still missing is on its way. *)
Lemma net_key_progress n pls : net_inv n pls → ∀ b t key v m,
  (m < b)%nat → I t key v m →
  Get (store_of (stores n) t) key = Some v ∨ ∃ n', net_step n n'.
Proof.
  intros [Hst Hpr Hco] b. induction b as [|b IH]; intros t key v m Hr HI; [lia|].
  destruct (Hco t key v m HI) as [?|(i & p & [tr r] & Hp & Hpl & Hin)]; [by left|right].
  destruct (Forall2_lookup_lr _ _ _ _ _ _ Hpr Hp Hpl) as [Hf Hg]; cbn in *.
  destruct Hf as [r|key' v' m' k tr r HI' Hf|t' key' k v' m' tr r HI' Hf]; [by apply elem_of_nil in Hin| |].
  - eexists. by eapply step_host.
  - cbn in Hg. destruct Hg as [Hlt _]. apply elem_of_cons in Hin as [?|Hin]; [done|].
    destruct (IH t' key' v' m') as [Hv|Hs]; [specialize (Hlt _ _ Hin); lia|done| |done].
    eexists. by eapply step_poll.
Qed.

Lemma net_progress n pls :
  net_inv n pls → (∃ n', net_step n n') ∨ ∀ i pl, pls !! i = Some pl → finished n i pl.2.
Proof.
  intros Hinv. destruct (decide (work pls = 0)%nat) as [Hw|Hw].
  - right. intros i [tr r] Hpl.
    destruct (Forall2_lookup_r _ _ _ _ _ (inv_procs _ _ Hinv) Hpl) as ([id p] & Hp & Hf & _).
    destruct tr as [|e tr]; [|apply work_insert in Hpl; lia]. cbn in *. inversion Hf; subst. by exists id.
  - left. assert (∃ i e tr r, pls !! i = Some (e :: tr, r)) as (i & e & tr & r & Hpl).
    { clear Hinv. unfold work in Hw. induction pls as [|[[|e tr] r] pls IH]; [done| |by exists 0%nat; eauto].
      destruct IH as (i & ?); [done|]. exists (S i). eauto. }
    destruct (Forall2_lookup_r _ _ _ _ _ (inv_procs _ _ Hinv) Hpl) as ([id p] & Hp & Hf & _). cbn in Hf.
    inversion Hf as [|key v m k|t key k v m tr' r' HI Hf']; subst.
    + eexists. by eapply step_host.
    + destruct (net_key_progress n pls Hinv (S m) t key v m) as [Hv|Hs]; [lia|done| |done].
      eexists. by eapply step_poll.
Qed.

(** Every interleaving is bounded, and one that cannot go on has produced
    every expected result. *)
Lemma net_correct n0 pls k n :
  net_inv n0 pls → nsteps net_step k n0 n →
  (k ≤ work pls)%nat ∧
  (∀ i r pl, finished n i r → pls !! i = Some pl → r = pl.2) ∧
  ((∀ n', ¬ net_step n n') → ∀ i pl, pls !! i = Some pl → finished n i pl.2) ∧
  (∀ id key v, Get (store_of (stores n) id) key = Some v → ∃ m, I id key v m) ∧
  ((∀ n', ¬ net_step n n') → ∀ id key v m, I id key v m → Get (store_of (stores n) id) key = Some v).
Proof using I_fun.
  intros Hinv Hk.
  assert (∃ pls', net_inv n pls' ∧ (work pls = k + work pls')%nat ∧ (snd <$> pls') = (snd <$> pls))
    as (pls' & Hinv' & Hw & Hsnd).
  { clear -Hinv Hk I_fun. revert pls Hinv. induction Hk as [n|k n n1 n' Hs Hk IH]; intros pls Hinv; [by exists pls|].
    destruct (net_step_inv _ _ _ Hinv Hs) as (pls1 & Hinv1 & Hw1 & Hs1).
    destruct (IH pls1 Hinv1) as (pls' & ? & ? & ?). exists pls'. split_and!; [done|lia|congruence]. }
  assert (∀ i pl, pls !! i = Some pl → ∃ pl', pls' !! i = Some pl' ∧ pl'.2 = pl.2) as Hres.
  { intros i pl Hpl. assert ((snd <$> pls') !! i = Some pl.2) as Hl 
      by (rewrite Hsnd, list_lookup_fmap; exact (f_equal (fmap snd) Hpl)).
    rewrite list_lookup_fmap in Hl. destruct (pls' !! i) as [pl'|]; [|discriminate Hl].
    injection Hl as Hl. by exists pl'. }
  split_and!.
  - lia.
  - intros i r pl [id Hfin] Hpl. destruct (Hres _ _ Hpl) as (pl' & Hpl' & <-).
    destruct (Forall2_lookup_lr _ _ _ _ _ _ (inv_procs _ _ Hinv') Hfin Hpl') as [Hf _]. cbn in Hf.
    by inversion Hf.
  - intros Hstuck i pl Hpl. destruct (Hres _ _ Hpl) as (pl' & Hpl' & <-).
    destruct (net_progress n pls' Hinv') as [[n' Hn']|Hall]; [by destruct (Hstuck n')|]. by apply Hall.
  - apply Hinv'.
  - intros Hstuck id key v m HI.
    destruct (net_key_progress n pls' Hinv' (S m) id key v m) as [?|[n' Hn']];
      [lia|done|done|by destruct (Hstuck n')].
Qed.

(** ** Cancelled runs

    With contexts ending anywhere, a computation still either fails or has
    the expected result. *)

Definition on_plan_or_failed (p : string * act A) (r : A) : Prop :=
  (∃ tr, follows p.1 p.2 tr r) ∨ doomed p.2.

Definition safe_inv (rs : list A) (n : net A) : Prop :=
  (∀ id key v, Get (store_of (stores n) id) key = Some v → ∃ m, I id key v m) ∧
  Forall2 on_plan_or_failed (procs n) rs.

Lemma safe_step rs n n' :
  safe_inv rs n → net_step n n' ∨ cancel_step n n' → safe_inv rs n'.
Proof using I_fun.
  intros [Hst Hpr] [Hstep|Hstep].
  - destruct Hstep as [n i id key v k Hp|n i id t key k v Hp Hv|n i id key k Hp|n i id prefix k Hp];
      destruct (Forall2_lookup_l _ _ _ _ _ Hpr Hp) as (r & Hr & [[tr Hf]|Hd]); cbn in *;
      try done; [| |specialize (Hd (Some v))|by inversion Hf|by inversion Hf].
    + inversion Hf as [|? ? m ? tr' ? HI Hf'|]; subst. split; cbn [stores procs].
      * intros id' key' v'. rewrite Get_host. case_decide as Hd; [|apply Hst].
        destruct Hd as [<- <-]. intros [= <-]. by exists m.
      * rewrite <- (list_insert_id rs i r) by done. apply Forall2_insert; [done|]. left. eauto.
    + inversion Hf as [| |? ? ? v' m tr' ? HI Hf']; subst. split; [done|]. cbn [procs].
      rewrite <- (list_insert_id rs i r) by done. apply Forall2_insert; [done|]. left.
      assert (v' = v) as -> by (apply Hst in Hv as [? Hv]; by eapply I_fun). eauto.
    + split; [done|]. cbn [procs]. rewrite <- (list_insert_id rs i r) by done.
      apply Forall2_insert; [done|]. by right.
  - destruct Hstep as [n i id t key k Hp].
    destruct (Forall2_lookup_l _ _ _ _ _ Hpr Hp) as (r & Hr & Hor).
    assert (doomed (k None)) as Hd.
    { destruct Hor as [[tr Hf]|Hd]; cbn in *; [by inversion Hf|apply Hd]. }
    split; [done|]. cbn [procs]. rewrite <- (list_insert_id rs i r) by done.
    apply Forall2_insert; [done|]. by right.
Qed.

Lemma safe_finished rs n i r : safe_inv rs n → finished n i r → failed r ∨ rs !! i = Some r.
Proof.
  intros [_ Hpr] [id Hi]. destruct (Forall2_lookup_l _ _ _ _ _ Hpr Hi) as (r' & Hr' & [[tr Hf]|Hd]).
  - right. cbn in Hf. inversion Hf; subst. done.
  - by left.
Qed.

Lemma net_safe rs n0 n :
  safe_inv rs n0 → rtc (λ n n', net_step n n' ∨ cancel_step n n') n0 n →
  ∀ i r, finished n i r → failed r ∨ rs !! i = Some r.
Proof using I_fun.
  intros H0 Hrun i r. apply safe_finished.
  induction Hrun as [|n0 n1 n Hs Hrun IH]; [done|]. apply IH. by eapply safe_step.
Qed.

Lemma doomed_bind (q : act A) (f : A → act A) :
  doomed q → (∀ e, failed e → doomed (f e)) → doomed (act_bind q f).
Proof. intros Hq Hf. induction q; cbn in *; auto. Qed.

(** Sequential composition: the second computation goes on where the first
    returns, and passes a failure on. *)
Lemma follows_bind id (q : act A) tr a (f : A → act A) tr' r :
  follows id q tr a → follows id (f a) tr' r →
  (∀ e, failed e → doomed (f e)) →
  follows id (act_bind q f) (tr ++ tr') r.
Proof.
  intros Hq Hf Hfail. induction Hq as [a|key v m k tr a HI Hq IH|t key k v m tr a HI Hne Hq IH Hd];
    cbn [act_bind app]; [done|by constructor; auto|].
  eapply follows_poll; [done|done|by apply IH|]. by apply doomed_bind.
Qed.

(** A network about to start: no values hosted yet, one plan per computation. *)
Lemma net_inv_start ps pls :
  Forall2 on_plan ps pls →
  (∀ id key v m, I id key v m → ∃ i p pl, ps !! i = Some (id, p) ∧ pls !! i = Some pl ∧ EHost key m ∈ pl.1) →
  net_inv (mkNet ∅ ps) pls.
Proof.
  intros Hps Hc. constructor; cbn [stores procs]; [|done|].
  - intros id key v. unfold store_of, Get. by rewrite lookup_empty.
  - intros id key v m HI. right. by eapply Hc.
Qed.

Lemma safe_inv_start ps pls :
  Forall2 on_plan ps pls → safe_inv (snd <$> pls) (mkNet ∅ ps).
Proof.
  intros Hps. split; cbn [stores procs].
  - intros id key v. unfold store_of, Get. by rewrite lookup_empty.
  - apply Forall2_fmap_r. eapply Forall2_impl; [exact Hps|]. intros p pl [Hf _]. left. eauto.
Qed.

(** The stores may exist and be empty. *)
Lemma net_inv_empty ss ps pls :
  (∀ id, store_of ss id = ∅) → net_inv (mkNet ∅ ps) pls → net_inv (mkNet ss ps) pls.
Proof.
  intros Hss [Hst Hpr Hco]. constructor; cbn [stores procs] in *; [|done|].
  - intros id key v. rewrite Hss. unfold Get. by rewrite lookup_empty.
  - intros id key v m HI. rewrite Hss. apply (Hco id key v m HI).
Qed.

Lemma safe_inv_empty rs ss ps :
  (∀ id, store_of ss id = ∅) → safe_inv rs (mkNet ∅ ps) → safe_inv rs (mkNet ss ps).
Proof.
  intros Hss [Hst Hpr]. split; [|done]. cbn [stores]. intros id key v. rewrite Hss. unfold Get.
  by rewrite lookup_empty.
Qed.

(** What is hosted stays, also when contexts end. *)
Lemma safe_keeps rs n n' t key v :
  safe_inv rs n → net_step n n' ∨ cancel_step n n' →
  Get (store_of (stores n) t) key = Some v → Get (store_of (stores n') t) key = Some v.
Proof using I_fun.
  intros [Hst Hpr] [Hstep|Hstep] Hg; [|by destruct Hstep].
  destruct Hstep as [n i id key' v' k Hp|n i id t' key' k v' Hp Hv|n i id key' k Hp|n i id prefix k Hp];
    [|done|destruct (Forall2_lookup_l _ _ _ _ _ Hpr Hp) as (r & Hr & [[tr Hf]|Hd]); [inversion Hf|done]..].
  cbn [stores]. rewrite Get_host. case_decide as Hd; [|done]. destruct Hd as [-> ->].
  destruct (Forall2_lookup_l _ _ _ _ _ Hpr Hp) as (r & Hr & [[tr Hf]|Hd]); [|done].
  cbn in Hf. inversion Hf; subst. apply Hst in Hg as [m' Hg]. f_equal. by eapply I_fun.
Qed.

Lemma net_inv_safe n pls : net_inv n pls → safe_inv (snd <$> pls) n.
Proof.
  intros [Hst Hpr _]. split; [done|]. apply Forall2_fmap_r. eapply Forall2_impl; [exact Hpr|].
  intros p pl [Hf _]. left. eauto.
Qed.

(** No computation on its plan polls its own node. *)
Lemma net_inv_others n pls i id t key k :
  net_inv n pls → procs n !! i = Some (id, PollRemote t key k) → t ≠ id.
Proof.
  intros [_ Hpr _] Hi. destruct (Forall2_lookup_l _ _ _ _ _ Hpr Hi) as ([tr r] & _ & Hf & _).
  cbn in Hf. by inversion Hf.
Qed.

End follow.

(** ** Running a network

    An executable scheduler: the list names the computation that takes the
    next step. *)

Definition net_next {A} (i : nat) (n : net A) : option (net A) :=
  match procs n !! i with
  | Some (id, Host key v k) => Some (mkNet (host (stores n) id key v) (<[i := (id, k)]> (procs n)))
  | Some (id, PollRemote t key k) =>
      match Get (store_of (stores n) t) key with
      | Some v => Some (mkNet (stores n) (<[i := (id, k (Some v))]> (procs n)))
      | None => None
      end
  | Some (id, Remove key k) =>
      Some (mkNet (<[id := Delete (store_of (stores n) id) key]> (stores n)) (<[i := (id, k)]> (procs n)))
  | Some (id, RemovePrefix prefix k) =>
      Some (mkNet (<[id := DeletePrefix (store_of (stores n) id) prefix]> (stores n))
              (<[i := (id, k)]> (procs n)))
  | _ => None
  end.

Fixpoint net_sched {A} (js : list nat) (n : net A) : option (net A) :=
  match js with
  | [] => Some n
  | i :: js => match net_next i n with Some n' => net_sched js n' | None => None end
  end.

Lemma net_next_step {A} i (n n' : net A) : net_next i n = Some n' → net_step n n'.
Proof.
  unfold net_next. destruct (procs n !! i) as [[id [a|t key k|key v k|key k|prefix k]]|] eqn:Hi; try done.
  - destruct (Get _ key) eqn:Hg; [|done]. intros [= <-]. by eapply step_poll.
  - intros [= <-]. by eapply step_host.
  - intros [= <-]. by eapply step_remove.
  - intros [= <-]. by eapply step_remove_prefix.
Qed.

Lemma net_sched_steps {A} js (n : net A) :
  match net_sched js n with Some n' => nsteps net_step (length js) n n' | None => True end.
Proof.
  revert n. induction js as [|i js IH]; intros n; cbn [net_sched]; [constructor|].
  destruct (net_next i n) as [n1|] eqn:H1; [|done]. specialize (IH n1).
  destruct (net_sched js n1); [|done]. eapply nsteps_l; [by eapply net_next_step|done].
Qed.

(** The network a schedule leads to, and the run to it. *)
Definition net_after {A} (js : list nat) (n : net A) : net A := default n (net_sched js n).

Lemma net_after_run {A} js (n : net A) :
  match net_sched js n with Some _ => true | None => false end = true →
  nsteps net_step (length js) n (net_after js n).
Proof.
  unfold net_after. pose proof (net_sched_steps js n) as Hs.
  destruct (net_sched js n); [done|discriminate].
Qed.

Definition all_returned {A} (n : net A) : bool :=
  forallb (λ q, match q.2 with Ret _ => true | _ => false end) (procs n).

Lemma all_returned_stuck {A} (n : net A) : all_returned n = true → ∀ n', ¬ net_step n n'.
Proof.
  unfold all_returned. rewrite forallb_forall. intros Hall n' Hs.
  destruct Hs as [n i id key v k Hi|n i id t key k v Hi _|n i id key k Hi|n i id prefix k Hi];
    apply list_elem_of_lookup_2, list_elem_of_In, Hall in Hi; discriminate Hi.
Qed.
