(* ===== verification/Peer.v ===== *)
(** * The peer's card protocols
      ([internal/peer/shuffle.go], [deal.go], [community.go], [game.go], [node.go])

    A [Node] is the game state a peer keeps (the fields of [Node] under "GAME
    STATE", with its id, SRA key and prime).  Each protocol routine is a
    computation of [Net]: it hosts values in the node's store and polls the
    other nodes'.  [encoding/gob] is the class [Codec]; [CodecLaws] states
    what is used of it, that decoding inverts encoding. *)

From Stdlib Require Import ZArith Lia Ascii.
From stdpp Require Import base list gmap strings numbers.
From S2P Require Import Prelude Strconv Ephemeral Deck Net.

#[local] Open Scope Z_scope.

Class Codec (T : Type) := {
  gob_encode : T → option bytes;
  gob_decode : bytes → option T;
}.

Class CodecLaws (T : Type) `{Codec T} : Prop := {
  encode_total : ∀ x, ∃ data, gob_encode x = Some data;
  decode_encode : ∀ x data, gob_encode x = Some data → gob_decode data = Some x;
}.

(** Conversions between Go strings and byte slices. *)
Fixpoint to_bytes (s : string) : bytes :=
  match s with
  | EmptyString => []
  | String.String a s => Z.of_nat (nat_of_ascii a) :: to_bytes s
  end.

Fixpoint of_bytes (bs : bytes) : string :=
  match bs with
  | [] => EmptyString
  | b :: bs => String.String (ascii_of_nat (Z.to_nat b)) (of_bytes bs)
  end.

Record SessionConfig := mkSessionConfig { TimeoutInterval : Z; MaxAttempts : Z }.

Record Node := mkNode {
  nid : string;
  modKey : Key;
  prime : Z;
  Started : bool;
  FinalDeck : list bytes;
  Order : list string;
  SeatIdx : Z;
  card1 : string;
  card2 : string;
  money : Z;
  sessionConfig : SessionConfig;
  community : list string;
}.

Definition set_FinalDeck (d : list bytes) (n : Node) : Node :=
  mkNode (nid n) (modKey n) (prime n) (Started n) d (Order n) (SeatIdx n) (card1 n) (card2 n)
    (money n) (sessionConfig n) (community n).
Definition set_cards (c1 c2 : string) (n : Node) : Node :=
  mkNode (nid n) (modKey n) (prime n) (Started n) (FinalDeck n) (Order n) (SeatIdx n) c1 c2
    (money n) (sessionConfig n) (community n).
Definition set_community (cs : list string) (n : Node) : Node :=
  mkNode (nid n) (modKey n) (prime n) (Started n) (FinalDeck n) (Order n) (SeatIdx n) (card1 n)
    (card2 n) (money n) (sessionConfig n) cs.

Inductive peer_err :=
| ErrNotEnoughPlayers
| ErrPoll (key : string)
| ErrDecode (key : string)
| ErrEncode
| ErrShuffle (e : deck_err)
| ErrOutOfBounds (i : Z)
| ErrNoOwner (slot : Z)
| ErrEmptyRing (slot : Z)
| ErrNotInRing (seat slot : Z).

Abbreviation proc A := (act (res peer_err A)).

(** Waiting for a remote value, then going on with it; [PollRemote]'s error is
    returned with the key it was for. *)
Definition poll {A} (targetID key : string) (k : bytes → proc A) : proc A :=
  PollRemote targetID key (λ v, match v with None => Ret (Err (ErrPoll key)) | Some data => k data end).

(** Continuing with the result of a local operation. *)
Definition local {E A B} (g : E → peer_err) (m : res E A) (k : A → proc B) : proc B :=
  match m with
  | Ok a => k a
  | Err e => Ret (Err (g e))
  | Panic => Ret Panic
  end.

(** [n.Order[seat]] *)
Definition order_at {A} (n : Node) (seat : Z) (k : string → proc A) : proc A :=
  local (λ e : Empty_set, match e with end) (idx (Order n) seat) k.

(** ** Starting and resetting a game *)

(** The loop of [GameStart] that finds our seat. *)
Fixpoint find_seat (myID : string) (order : list string) (i : Z) : Z :=
  match order with
  | [] => -1
  | id :: order => if decide (id = myID) then i else find_seat myID order (i + 1)
  end.

(** The frame's fields that [GameStart] uses; durations in nanoseconds. *)
Definition GameStart (n : Node) (PeerIDs : list string) (TimeoutIntervalMS MaxAttempts : Z) : Node :=
  mkNode (nid n) (modKey n) (prime n) true (FinalDeck n) PeerIDs (find_seat (nid n) PeerIDs 0)
    (card1 n) (card2 n) 2000 (mkSessionConfig (i64 (TimeoutIntervalMS * 1000000)) MaxAttempts)
    (community n).

(** [resetGameState]: the second component is the node's store. *)
Definition resetGameState (n : Node) (s : Store) : Node * Store :=
  (mkNode (nid n) (modKey n) (prime n) false [] [] (-1) EmptyString EmptyString 0
     (mkSessionConfig 0 0) [], Clear s).

(** ** The shuffle ring ([shuffle.go]) *)

Definition buildOrderedDeck : list bytes :=
  (λ i : nat, to_bytes (Itoa (Z.of_nat i + 1))) <$> seq 0 52.

Section shuffle.
Context `{Codec (list bytes)} `{RandSource}.

(** The end of [RunShuffle]: non-last seats fetch the final deck. *)
Definition fetch_final (n : Node) (d : list bytes) : proc Node :=
  let lastSeat := Z.of_nat (length (Order n)) - 1 in
  if SeatIdx n =? lastSeat then Ret (Ok (set_FinalDeck d n))
  else
    order_at n lastSeat (λ lastID,
    poll lastID (ShuffleStepKey lastSeat) (λ data,
    match gob_decode data with
    | None => Ret (Err (ErrDecode (ShuffleStepKey lastSeat)))
    | Some final => Ret (Ok (set_FinalDeck final n))
    end)).

(** Shuffle, encrypt and host the deck [d] received from the previous seat. *)
Definition shuffle_step (n : Node) (c : nat) (d : list bytes) : proc Node :=
  local ErrShuffle (Shuffle c d) (λ d,
  let d := EncryptDeck d (modKey n) (prime n) in
  match gob_encode d with
  | None => Ret (Err ErrEncode)
  | Some encoded => Host (ShuffleStepKey (SeatIdx n)) encoded (fetch_final n d)
  end).

(** [c] is the position in the node's random stream. *)
Definition RunShuffle (n : Node) (c : nat) : proc Node :=
  if Z.of_nat (length (Order n)) <? 2 then Ret (Err ErrNotEnoughPlayers)
  else if SeatIdx n =? 0 then shuffle_step n c buildOrderedDeck
  else
    let prevSeat := SeatIdx n - 1 in
    order_at n prevSeat (λ prevID,
    poll prevID (ShuffleStepKey prevSeat) (λ data,
    match gob_decode data with
    | None => Ret (Err (ErrDecode (ShuffleStepKey prevSeat)))
    | Some d => shuffle_step n c d
    end)).

End shuffle.

(** ** Dealing hole cards ([deal.go]) *)

Definition nonOwnerRing (numPlayers ownerSeat : Z) : list Z :=
  filter (λ i, i ≠ ownerSeat) (Z.of_nat <$> seq 0 (Z.to_nat numPlayers)).

Fixpoint ring_position_from (i : Z) (ring : list Z) (seat : Z) : Z :=
  match ring with
  | [] => -1
  | s :: ring => if s =? seat then i else ring_position_from (i + 1) ring seat
  end.

Definition ringPosition (ring : list Z) (seat : Z) : Z := ring_position_from 0 ring seat.

Definition NoCardsYet (n : Node) : bool :=
  bool_decide (card1 n = EmptyString) || bool_decide (card2 n = EmptyString).

Definition HoleCards (n : Node) : string * string := (card1 n, card2 n).

Definition setHole (slot : Z) (card : string) (n : Node) : Node :=
  if Z.rem slot 2 =? 0 then set_cards card (card2 n) n else set_cards (card1 n) card n.

(** The stripper's half of [dealHoleSlot]: remove our layer and host. *)
Definition hole_strip (n : Node) (slot : Z) (layered : bytes) : proc (option (Z * string)) :=
  Host (HoleRelayKey slot (SeatIdx n)) (DecryptCard layered (modKey n) (prime n)) (Ret (Ok None)).

(** [Some (slot, card)] is the [setHole] that the owner's goroutine makes. *)
Definition dealHoleSlot (n : Node) (slot : Z) : proc (option (Z * string)) :=
  if (slot <? 0) || (Z.of_nat (length (FinalDeck n)) <=? slot) then Ret (Err (ErrOutOfBounds slot))
  else
    let ownerSeat := Z.quot slot 2 in
    if Z.of_nat (length (Order n)) <=? ownerSeat then Ret (Err (ErrNoOwner slot))
    else
      let ring := nonOwnerRing (Z.of_nat (length (Order n))) ownerSeat in
      if Z.of_nat (length ring) =? 0 then Ret (Err (ErrEmptyRing slot))
      else if SeatIdx n =? ownerSeat then
        local (λ e : Empty_set, match e with end) (idx ring (Z.of_nat (length ring) - 1)) (λ lastStripper,
        order_at n lastStripper (λ lastID,
        poll lastID (HoleRelayKey slot lastStripper) (λ data,
        Ret (Ok (Some (slot, of_bytes (DecryptCard data (modKey n) (prime n))))))))
      else
        let ringIdx := ringPosition ring (SeatIdx n) in
        if ringIdx <? 0 then Ret (Err (ErrNotInRing (SeatIdx n) slot))
        else if ringIdx =? 0 then
          local (λ e : Empty_set, match e with end) (idx (FinalDeck n) slot) (hole_strip n slot)
        else
          local (λ e : Empty_set, match e with end) (idx ring (ringIdx - 1)) (λ prevSeat,
          order_at n prevSeat (λ prevID,
          poll prevID (HoleRelayKey slot prevSeat) (hole_strip n slot))).

(** The goroutines of [DealHoleCards], one per slot. *)
Definition deal_procs (n : Node) : list (proc (option (Z * string))) :=
  (λ slot : nat, dealHoleSlot n (Z.of_nat slot)) <$> seq 0 (length (Order n) * 2).

(** What [DealHoleCards] does with the goroutines' results, in the order in
    which they complete: the holes are set, the first error is returned. *)
Definition deal_join (n : Node) (done : list (res peer_err (option (Z * string))))
    : res Empty_set (Node * option peer_err) :=
  foldM (λ st r, match r with
                 | Ok None => Ok st
                 | Ok (Some (slot, card)) => Ok (setHole slot card st.1, st.2)
                 | Err e => Ok (st.1, Some (default e st.2))
                 | Panic => Panic
                 end) done (n, None).

(** ** Community cards ([community.go]) *)

Definition communityBase (n : Node) : Z := Z.of_nat (length (Order n)) * 2.

(** [for len(n.community) <= boardIdx { append "" }] *)
Definition pad_board (board : list string) (boardIdx : Z) : list string :=
  board ++ replicate (Z.to_nat (boardIdx + 1) - length board) EmptyString.

Definition setCommunity (n : Node) (cardIdx : Z) (card : string) : res Empty_set Node :=
  let boardIdx := cardIdx - communityBase n in
  let board := pad_board (community n) boardIdx in
  old ← idx board boardIdx;
  if bool_decide (old ≠ EmptyString) then Ok (set_community board n)
  else board' ← upd board boardIdx card; Ok (set_community board' n).

(** The filled prefix that the event carries: ["card1"], ["card2"], ... *)
Fixpoint filled_prefix (i : Z) (snapshot : list string) : list (string * string) :=
  match snapshot with
  | [] => []
  | c :: snapshot =>
      if decide (c = EmptyString) then []
      else ("card" +:+ Itoa (i + 1), c) :: filled_prefix (i + 1) snapshot
  end.

Definition CommunityCards (n : Node) : list string := community n.
Definition CommunityCount (n : Node) : Z :=
  Z.of_nat (length (filter (λ c, c ≠ EmptyString) (community n))).

(** The end of [RevealCommunityCard]: the last seat hosts the plaintext, the
    others fetch it. *)
Definition publish_card (n : Node) (cardIdx : Z) (stripped : bytes) : proc Node :=
  let lastSeat := Z.of_nat (length (Order n)) - 1 in
  let record data := local (λ e : Empty_set, match e with end)
                       (setCommunity n cardIdx (of_bytes data)) (λ n', Ret (Ok n')) in
  if SeatIdx n =? lastSeat then Host (CommunityCardKey cardIdx) stripped (record stripped)
  else
    order_at n lastSeat (λ lastID, poll lastID (CommunityCardKey cardIdx) record).

Definition community_strip (n : Node) (cardIdx : Z) (layered : bytes) : proc Node :=
  let stripped := DecryptCard layered (modKey n) (prime n) in
  Host (CommunityRelayKey cardIdx (SeatIdx n)) stripped (publish_card n cardIdx stripped).

Definition RevealCommunityCard (n : Node) (cardIdx : Z) : proc Node :=
  if (cardIdx <? 0) || (Z.of_nat (length (FinalDeck n)) <=? cardIdx) then
    Ret (Err (ErrOutOfBounds cardIdx))
  else if SeatIdx n =? 0 then
    local (λ e : Empty_set, match e with end) (idx (FinalDeck n) cardIdx) (community_strip n cardIdx)
  else
    let prevSeat := SeatIdx n - 1 in
    order_at n prevSeat (λ prevID,
    poll prevID (CommunityRelayKey cardIdx prevSeat) (community_strip n cardIdx)).

(** Revealing cards one after the other, stopping at the first error. *)
Fixpoint reveal_all (n : Node) (cards : list Z) : proc Node :=
  match cards with
  | [] => Ret (Ok n)
  | c :: cards =>
      act_bind (RevealCommunityCard n c) (λ r, local (λ e, e) r (λ n', reveal_all n' cards))
  end.

Definition RevealFlop (n : Node) : proc Node :=
  let base := communityBase n in reveal_all n [base; base + 1; base + 2].
Definition RevealTurn (n : Node) : proc Node := RevealCommunityCard n (communityBase n + 3).
Definition RevealRiver (n : Node) : proc Node := RevealCommunityCard n (communityBase n + 4).
