(* ===== verification/PeerProofs.v ===== *)
(** * The card protocols: every interleaving deals the cards *)

From Stdlib Require Import ZArith Lia Ascii ZmodInv.
From stdpp Require Import base list gmap strings numbers relations sorting.
From S2P Require Import Prelude Strconv Ephemeral Deck DeckProofs DeckProps Net Peer.

#[local] Open Scope Z_scope.

(** ** Bytes and strings *)

Lemma of_bytes_to_bytes s : of_bytes (to_bytes s) = s.
Proof.
  induction s as [|a s IH]; [done|]. cbn. rewrite Nat2Z.id, ascii_nat_embedding. by rewrite IH.
Qed.

(** The 52 plaintexts are residues of the deployed prime and distinct. *)
Lemma ordered_deck_ok : Forall (residue PRIME) buildOrderedDeck ∧ NoDup buildOrderedDeck ∧
  length buildOrderedDeck = 52%nat.
Proof.
  split_and!; [|by apply (bool_decide_unpack _); vm_compute|done].
  apply (bool_decide_unpack _). vm_compute. done.
Qed.

(** ** The ring of the other seats *)

Abbreviation others o m := (filter (λ i, i ≠ o) (seq 0 m)).

Lemma filter_ne_seq o a m :
  (o < a ∨ a + m ≤ o)%nat → filter (λ i, i ≠ o) (seq a m) = seq a m.
Proof.
  revert a. induction m as [|m IH]; intros a Ha; [done|]. cbn [seq].
  rewrite filter_cons, decide_True by lia. f_equal. apply IH. lia.
Qed.

Lemma others_split o m : (o < m)%nat → others o m = seq 0 o ++ seq (S o) (m - S o).
Proof.
  intros Ho. replace m with (o + S (m - S o))%nat at 1 by lia. rewrite seq_app, filter_app. cbn [seq Nat.add].
  rewrite filter_cons, decide_False by (intros Hne; by apply Hne).
  by rewrite !filter_ne_seq by lia.
Qed.

Lemma others_before o m : (m ≤ o)%nat → others o m = seq 0 m.
Proof. intros. apply filter_ne_seq. lia. Qed.

Lemma others_snoc o j : j ≠ o → others o (S j) = others o j ++ [j].
Proof. intros Hj. rewrite seq_S, filter_app. cbn. by rewrite decide_True. Qed.

Lemma nonOwnerRing_others n o :
  nonOwnerRing (Z.of_nat n) (Z.of_nat o) = Z.of_nat <$> others o n.
Proof.
  unfold nonOwnerRing. rewrite Nat2Z.id. generalize (seq 0 n) as l. induction l as [|i l IH]; [done|].
  rewrite fmap_cons, !filter_cons. destruct (decide (i = o)) as [->|].
  - rewrite !decide_False by (intros Hne; by apply Hne). apply IH.
  - rewrite !decide_True by lia. rewrite fmap_cons. by f_equal.
Qed.

(** The [k]-th seat of the ring. *)
Lemma others_lookup o m k :
  (o < m)%nat → (k < m - 1)%nat → others o m !! k = Some (if decide (k < o)%nat then k else S k).
Proof.
  intros Ho Hk. rewrite others_split by done. case_decide.
  - rewrite lookup_app_l by (rewrite length_seq; lia). by rewrite lookup_seq_lt.
  - rewrite lookup_app_r, length_seq by (rewrite length_seq; lia). rewrite lookup_seq_lt by lia. f_equal. lia.
Qed.

Lemma length_others o m : (o < m)%nat → length (others o m) = (m - 1)%nat.
Proof. intros. rewrite others_split by done. rewrite length_app, !length_seq. lia. Qed.

Lemma ring_position_lookup (l : list nat) b k x :
  NoDup l → l !! k = Some x → ring_position_from b (Z.of_nat <$> l) (Z.of_nat x) = b + Z.of_nat k.
Proof.
  revert b k. induction l as [|y l IH]; intros b k Hl Hk; [done|]. apply NoDup_cons in Hl as [Hy Hl].
  cbn [fmap list_fmap ring_position_from]. destruct k as [|k].
  - injection Hk as ->. rewrite Z.eqb_refl. lia.
  - cbn in Hk. destruct (Z.eqb_spec (Z.of_nat y) (Z.of_nat x)) as [Heq|].
    { exfalso. apply Hy. replace y with x by lia. by eapply list_elem_of_lookup_2. }
    pose proof (IH (b + 1) k Hl Hk) as IH'. cbn in IH'. rewrite IH'. lia.
Qed.

(** Our neighbour in the ring, as [dealHoleSlot] computes it. *)
Lemma ring_prev o j n :
  (o < n)%nat → (j < n)%nat → j ≠ o →
  let ring := nonOwnerRing (Z.of_nat n) (Z.of_nat o) in
  let pos := ringPosition ring (Z.of_nat j) in
  (pos = 0 ∧ others o (S j) = [j]) ∨
  (0 < pos ∧ ∃ prev : nat, (prev < j)%nat ∧ prev ≠ o ∧ idx (E:=Empty_set) ring (pos - 1) = Ok (Z.of_nat prev) ∧
     others o (S j) = others o (S prev) ++ [j]).
Proof.
  intros Ho Hj Hne. cbn zeta. rewrite nonOwnerRing_others. set (k := if decide (j < o)%nat then j else (j - 1)%nat).
  assert (others o n !! k = Some j) as Hk.
  { rewrite others_lookup by (unfold k; repeat case_decide; lia). f_equal. unfold k. repeat case_decide; lia. }
  unfold ringPosition. rewrite (ring_position_lookup _ _ k) by (try done; apply NoDup_filter, NoDup_seq).
  rewrite others_snoc by done. destruct (decide (k = 0%nat)) as [Hz|Hz].
  - left. split; [lia|]. assert (j = 0%nat ∨ (j = 1 ∧ o = 0)%nat) as [->|[-> ->]]
      by (unfold k in Hz; case_decide; lia); done.
  - right. split; [lia|]. set (prev := if decide (k - 1 < o)%nat then (k - 1)%nat else S (k - 1)).
    exists prev. assert (others o n !! (k - 1)%nat = Some prev) as Hprev.
    { apply others_lookup; [done|]. unfold k. repeat case_decide; lia. }
    assert (prev ≠ o ∧ (prev < j)%nat ∧ (j = S prev ∨ (j = S (S prev) ∧ o = S prev))%nat) as (? & ? & Hcase).
    { unfold prev, k in *. repeat case_decide; lia. }
    clearbody prev. split_and!; [done|done| |].
    + apply idx_Ok. split; [lia|]. rewrite list_lookup_fmap.
      replace (Z.to_nat (0 + Z.of_nat k - 1)) with (k - 1)%nat by lia. by rewrite Hprev.
    + f_equal. destruct Hcase as [Hj'|[Hj' Ho']]; rewrite Hj'; [done|]. rewrite Ho'. rewrite (seq_S (S prev)), filter_app. cbn [Nat.add].
      rewrite (filter_cons _ (S prev)), decide_False by (intros Hx; by apply Hx). apply app_nil_r.
Qed.

(** The last stripper, whose value the owner fetches. *)
Lemma ring_last o n :
  (o < n)%nat → (2 ≤ n)%nat →
  ∃ last : nat, (last < n)%nat ∧ last ≠ o ∧
    idx (E:=Empty_set) (nonOwnerRing (Z.of_nat n) (Z.of_nat o))
      (Z.of_nat (length (nonOwnerRing (Z.of_nat n) (Z.of_nat o))) - 1) = Ok (Z.of_nat last) ∧
    others o (S last) = others o n.
Proof.
  intros Ho Hn. rewrite nonOwnerRing_others, length_fmap, length_others by done.
  set (last := if decide (n - 2 < o)%nat then (n - 2)%nat else S (n - 2)).
  assert (others o n !! (n - 2)%nat = Some last) as Hl by (apply others_lookup; lia).
  exists last. assert (last ≠ o ∧ (last < n)%nat ∧ (n = S last ∨ (n = S (S last) ∧ o = S last))%nat) as (? & ? & Hcase).
  { unfold last in *. case_decide; lia. }
  clearbody last. split_and!; [done|done| |].
  - apply idx_Ok. split; [lia|]. rewrite list_lookup_fmap.
    replace (Z.to_nat (Z.of_nat (n - 1) - 1)) with (n - 2)%nat by lia. by rewrite Hl.
  - destruct Hcase as [Hn'|[Hn' Ho']]; rewrite Hn'; [done|]. rewrite Ho'. rewrite (seq_S (S last)), filter_app. cbn [Nat.add].
    rewrite (filter_cons _ (S last)), decide_False by (intros Hx; by apply Hx). by rewrite app_nil_r.
Qed.

(** ** A table of seats *)

Section table.
Context (ids : list string) (ks : list Key) (p : Z) (sc : SessionConfig).
Context (Hnd : NoDup ids) (Hlen : length ks = length ids) (Hsize : (2 ≤ length ids)%nat).
Context (Hbound : Z.of_nat (length ids) < 2 ^ 31).
Context (Hp : Z.prime p) (Hks : Forall (key_ok p) ks).

#[local] Instance Key_inhabited : Inhabited Key := populate (mkKey 0 0).

(** The node at seat [i] with final deck [d], under the session's rules [sc]. *)
Definition seat (d : list bytes) (i : nat) : Node :=
  mkNode (ids !!! i) (ks !!! i) p true d ids (Z.of_nat i) EmptyString EmptyString 2000
    sc [].

Lemma ids_lookup i : (i < length ids)%nat → ids !! i = Some (ids !!! i).
Proof. intros Hi. by apply list_lookup_lookup_total_lt. Qed.

Lemma idx_ids {E} (i : nat) : (i < length ids)%nat → idx (E:=E) ids (Z.of_nat i) = Ok (ids !!! i).
Proof. intros Hi. apply idx_Ok. rewrite Nat2Z.id. split; [apply Nat2Z.is_nonneg|by apply ids_lookup]. Qed.

Lemma order_at_seat {A} n (i : nat) (k : string → proc A) :
  Order n = ids → (i < length ids)%nat → order_at n (Z.of_nat i) k = k (ids !!! i).
Proof. intros Ho Hi. unfold order_at. by rewrite Ho, idx_ids. Qed.

Lemma key_at (i : nat) : (i < length ids)%nat → ks !! i = Some (ks !!! i) ∧ key_ok p (ks !!! i).
Proof.
  intros Hi. assert (ks !! i = Some (ks !!! i)) as Hk by (apply list_lookup_lookup_total_lt; lia).
  split; [done|]. rewrite list.Forall_forall in Hks. apply Hks. by eapply list_elem_of_lookup_2.
Qed.

Abbreviation cipher := (sra_cipher p Hp).

(** A protocol result that carries an error. *)
Definition is_err {A} (r : res peer_err A) : Prop := ∃ e, r = Err e.

(** ** The shuffle ring *)

Section shuffle.
Context `{CodecLaws (list bytes)} (R : nat → RandSource) (c : nat → nat).
Context (HR : ∀ i, @RandLaws (R i)) (Hrand : ∀ i j max, 0 < max → @rand_Int (R i) j max ≠ None).

(** What seat [i]'s random source makes of a deck. *)
Definition shuffled (i : nat) (d : list bytes) : list bytes :=
  match @Shuffle (R i) (c i) d with Ok d' => d' | _ => d end.

Lemma shuffled_spec i d : @Shuffle (R i) (c i) d = Ok (shuffled i d) ∧ shuffled i d ≡ₚ d.
Proof.
  unfold shuffled. pose proof (@shuffle_permutes_lemma (R i) (HR i) (c i) d) as Hs.
  destruct (Shuffle (c i) d) as [d'|e|]; [done| |done].
  destruct Hs as [_ (t & Ht & Hn)]. exfalso. revert Hn. apply Hrand. lia.
Qed.

(** The deck after the first [i] seats. *)
Fixpoint ring_deck (i : nat) : list bytes :=
  match i with
  | O => buildOrderedDeck
  | S i' => EncryptDeck (shuffled i' (ring_deck i')) (ks !!! i') p
  end.

Definition final_deck : list bytes := ring_deck (length ids).

Definition encoded (d : list bytes) : bytes := default [] (gob_encode d).

Lemma encoded_spec d : gob_encode d = Some (encoded d) ∧ gob_decode (encoded d) = Some d.
Proof.
  destruct (encode_total d) as [data Hd]. unfold encoded. rewrite Hd. cbn.
  split; [done|]. by apply decode_encode.
Qed.

(** What the seats are to host. *)
Definition shuffle_ideal (id key : string) (v : bytes) (m : nat) : Prop :=
  (m < length ids)%nat ∧ id = ids !!! m ∧ key = ShuffleStepKey (Z.of_nat m) ∧
  v = encoded (ring_deck (S m)).

Lemma seat_inj i j : (i < length ids)%nat → (j < length ids)%nat → ids !!! i = ids !!! j → i = j.
Proof.
  intros Hi Hj Heq. eapply NoDup_lookup; [done|by apply ids_lookup|]. rewrite Heq. by apply ids_lookup.
Qed.

Lemma shuffle_ideal_fun id key v m v' m' :
  shuffle_ideal id key v m → shuffle_ideal id key v' m' → v = v'.
Proof.
  intros (Hm & -> & _ & ->) (Hm' & Heq & _ & ->). by rewrite (seat_inj m m' Hm Hm' Heq).
Qed.

(** Seat [i]'s accesses and result. *)
Definition last_seat : nat := (length ids - 1)%nat.

Definition shuffle_trace (i : nat) : list event :=
  (if decide (i = 0%nat) then []
   else [EPoll (ids !!! (i - 1)%nat) (ShuffleStepKey (Z.of_nat (i - 1))) (i - 1)%nat])
  ++ EHost (ShuffleStepKey (Z.of_nat i)) i ::
  (if decide (i = last_seat) then []
   else [EPoll (ids !!! last_seat) (ShuffleStepKey (Z.of_nat last_seat)) last_seat]).

Definition shuffle_result (i : nat) : res peer_err Node := Ok (seat final_deck i).

Definition shuffle_procs : list (string * proc Node) :=
  (λ i, (ids !!! i, @RunShuffle _ (R i) (seat [] i) (c i))) <$> seq 0 (length ids).

Definition shuffle_plans : list (list event * res peer_err Node) :=
  (λ i, (shuffle_trace i, shuffle_result i)) <$> seq 0 (length ids).

(** A poll step of a plan. *)
Lemma follows_poll_ok {A} id t key (k : bytes → proc A) v m tr r I :
  I t key v m → t ≠ id → follows I is_err id (k v) tr r →
  follows I is_err id (poll t key k) (EPoll t key m :: tr) r.
Proof. intros HI Hne Hf. eapply follows_poll; [exact HI|exact Hne|exact Hf|]. by eexists. Qed.

Lemma seat_ne i j : (i < length ids)%nat → (j < length ids)%nat → i ≠ j → ids !!! i ≠ ids !!! j.
Proof. intros Hi Hj Hne Heq. by apply Hne, seat_inj. Qed.

Lemma fetch_final_follows i :
  (i < length ids)%nat →
  follows shuffle_ideal is_err (ids !!! i) (fetch_final (seat [] i) (ring_deck (S i)))
    (if decide (i = last_seat) then []
     else [EPoll (ids !!! last_seat) (ShuffleStepKey (Z.of_nat last_seat)) last_seat])
    (shuffle_result i).
Proof.
  intros Hi. unfold fetch_final. cbn [Order SeatIdx seat].
  replace (Z.of_nat (length ids) - 1) with (Z.of_nat last_seat) by (unfold last_seat; lia).
  destruct (Z.eqb_spec (Z.of_nat i) (Z.of_nat last_seat)) as [Heq|Hne].
  - rewrite decide_True by lia. assert (S i = length ids) as Hs by (unfold last_seat in *; lia).
    unfold shuffle_result, final_deck. rewrite <- Hs. constructor.
  - rewrite decide_False by lia. rewrite order_at_seat by (done || unfold last_seat; lia).
    apply (follows_poll_ok _ _ _ _ (encoded (ring_deck (S last_seat)))).
    + split_and!; [unfold last_seat; lia|done..].
    + apply seat_ne; unfold last_seat in *; lia.
    + rewrite (proj2 (encoded_spec _)). unfold shuffle_result, final_deck.
      replace (S last_seat) with (length ids) by (unfold last_seat; lia). constructor.
Qed.

Lemma shuffle_step_follows i :
  (i < length ids)%nat →
  follows shuffle_ideal is_err (ids !!! i)
    (@shuffle_step _ (R i) (seat [] i) (c i) (ring_deck i))
    (EHost (ShuffleStepKey (Z.of_nat i)) i ::
       (if decide (i = last_seat) then []
        else [EPoll (ids !!! last_seat) (ShuffleStepKey (Z.of_nat last_seat)) last_seat]))
    (shuffle_result i).
Proof.
  intros Hi. unfold shuffle_step. rewrite (proj1 (shuffled_spec i (ring_deck i))). cbn [local].
  change (EncryptDeck (shuffled i (ring_deck i)) (modKey (seat [] i)) (prime (seat [] i)))
    with (ring_deck (S i)).
  rewrite (proj1 (encoded_spec _)). constructor; [by split_and!|]. by apply fetch_final_follows.
Qed.

Lemma RunShuffle_follows i :
  (i < length ids)%nat →
  follows shuffle_ideal is_err (ids !!! i) (@RunShuffle _ (R i) (seat [] i) (c i))
    (shuffle_trace i) (shuffle_result i).
Proof.
  intros Hi. unfold RunShuffle, shuffle_trace. cbn [Order SeatIdx seat].
  rewrite (proj2 (Z.ltb_ge _ _)) by lia.
  destruct (Z.eqb_spec (Z.of_nat i) 0) as [Hz|Hz].
  - rewrite decide_True by lia. replace i with 0%nat in * by lia. by apply (shuffle_step_follows 0).
  - rewrite decide_False by lia. cbn [app].
    replace (Z.of_nat i - 1) with (Z.of_nat (i - 1)) by lia.
    rewrite order_at_seat by (done || lia).
    apply (follows_poll_ok _ _ _ _ (encoded (ring_deck i))).
    + split_and!; [lia|done|done|]. by replace (S (i - 1)) with i by lia.
    + apply seat_ne; lia.
    + rewrite (proj2 (encoded_spec _)). by apply shuffle_step_follows.
Qed.

Lemma shuffle_trace_guarded i : guarded (shuffle_trace i).
Proof.
  unfold shuffle_trace. destruct (decide (i = 0%nat)), (decide (i = last_seat)); cbn [app guarded];
    split_and?; try done; try (intros key m' Hin; set_solver);
    intros key m' Hin; repeat (apply elem_of_cons in Hin as [Hin|Hin]; simplify_eq; try lia);
    by apply elem_of_nil in Hin.
Qed.

Lemma shuffle_on_plan : Forall2 (on_plan shuffle_ideal is_err) shuffle_procs shuffle_plans.
Proof.
  unfold shuffle_procs, shuffle_plans. apply Forall2_fmap, Forall_Forall2_diag.
  apply list.Forall_forall. intros i Hi%elem_of_seq. split; cbn.
  - apply RunShuffle_follows. lia.
  - apply shuffle_trace_guarded.
Qed.

Lemma shuffle_net_inv : net_inv shuffle_ideal is_err (mkNet ∅ shuffle_procs) shuffle_plans.
Proof.
  apply net_inv_start; [apply shuffle_on_plan|].
  intros id key v m (Hm & -> & -> & ->).
  exists m, (@RunShuffle _ (R m) (seat [] m) (c m)), (shuffle_trace m, shuffle_result m).
  unfold shuffle_procs, shuffle_plans. rewrite !list_lookup_fmap, !lookup_seq_lt by done. cbn.
  split_and!; [done..|]. unfold shuffle_trace. apply elem_of_app. right. left.
Qed.

Lemma shuffle_work : (work shuffle_plans ≤ 3 * length ids)%nat.
Proof.
  unfold shuffle_plans, work.
  assert (∀ n s, (sum_list_with (λ pl, length pl.1)
    ((λ i, (shuffle_trace i, shuffle_result i)) <$> seq s n) ≤ 3 * n)%nat) as Hw; [|apply Hw].
  induction n as [|n IH]; intros s; [cbn; lia|].
  cbn [seq fmap list_fmap sum_list_with fst]. specialize (IH (S s)).
  assert (length (shuffle_trace s) ≤ 3)%nat; [|cbn in *; lia].
  unfold shuffle_trace. do 2 case_decide; cbn; lia.
Qed.

(** The final deck is the ordered deck under every seat's layer, reordered. *)
Lemma ring_deck_perm i :
  (i ≤ length ids)%nat →
  ring_deck i ≡ₚ @layers _ _ cipher (take i ks) <$> buildOrderedDeck.
Proof.
  induction i as [|i IH]; intros Hi; cbn [ring_deck].
  { change (@layers _ _ cipher (take 0 ks)) with (@id bytes). by rewrite list_fmap_id. }
  destruct (key_at i) as [Hk _]; [lia|]. rewrite (take_S_r _ _ _ Hk).
  assert (∀ d, @layers _ _ cipher (take i ks ++ [ks !!! i]) <$> d
    = EncryptDeck (@layers _ _ cipher (take i ks) <$> d) (ks !!! i) p) as ->.
  { intros d. unfold EncryptDeck. rewrite <- list_fmap_compose. apply list_fmap_ext. intros _ x _.
    unfold layers. by rewrite fold_left_app. }
  unfold EncryptDeck. apply fmap_Permutation. rewrite (proj2 (shuffled_spec _ _)). apply IH. lia.
Qed.

End shuffle.
Definition ring_keys (o m : nat) : list Key := (λ i, ks !!! i) <$> others o m.

Lemma all_keys : (λ i, ks !!! i) <$> seq 0 (length ids) = ks.
Proof.
  rewrite <- Hlen. apply list_eq. intros i. rewrite list_lookup_fmap.
  destruct (decide (i < length ks)%nat) as [Hi|Hi].
  - rewrite lookup_seq_lt by done. cbn. symmetry. by apply list_lookup_lookup_total_lt.
  - rewrite lookup_seq_ge by lia. symmetry. apply lookup_ge_None. lia.
Qed.

Lemma ring_keys_perm o : (o < length ids)%nat → ks ≡ₚ ring_keys o (length ids) ++ [ks !!! o].
Proof.
  intros Ho. rewrite <- all_keys at 1. unfold ring_keys. rewrite others_split by done.
  replace (length ids) with (o + S (length ids - S o))%nat at 1 by lia.
  rewrite seq_app. cbn [seq Nat.add]. rewrite !fmap_app, fmap_cons.
  rewrite <- app_assoc. apply Permutation_app_head. apply Permutation_cons_append.
Qed.

Lemma ring_keys_ok o m : (m ≤ length ids)%nat → Forall (key_ok p) (ring_keys o m).
Proof.
  intros Hm. apply list.Forall_forall. intros k (i & -> & Hi)%list_elem_of_fmap.
  apply list_elem_of_filter in Hi as [_ Hi%elem_of_seq]. apply key_at. lia.
Qed.

(** ** Dealing the hole cards *)

Section deal.
(** The final deck: the plaintexts [pts] under every seat's layer. *)
Context (pts : list bytes) (Hpts : Forall (residue p) pts).
Context (Hdeck : (2 * length ids ≤ length pts)%nat).

Definition layered_deck : list bytes := @layers _ _ cipher ks <$> pts.

Definition slot_owner (s : nat) : nat := (s / 2)%nat.

Lemma slot_owner_lt s : (s < 2 * length ids)%nat → (slot_owner s < length ids)%nat.
Proof. intros. unfold slot_owner. apply Nat.Div0.div_lt_upper_bound. lia. Qed.

(** What stripper [j] hosts for slot [s]: the layers of the ring's seats up to
    [j] are gone. *)
Definition hole_value (s j : nat) : bytes :=
  @strip _ _ cipher (ring_keys (slot_owner s) (S j)) (layered_deck !!! s).

Definition hole_ideal (id key : string) (v : bytes) (m : nat) : Prop :=
  ∃ s, (s < 2 * length ids)%nat ∧ (m < length ids)%nat ∧ m ≠ slot_owner s ∧ id = ids !!! m ∧
    key = HoleRelayKey (Z.of_nat s) (Z.of_nat m) ∧ v = hole_value s m.

Lemma hole_ideal_fun id key v m v' m' :
  hole_ideal id key v m → hole_ideal id key v' m' → v = v'.
Proof.
  intros (s & Hs & Hm & _ & -> & -> & ->) (s' & Hs' & Hm' & _ & Hid & Hkey & ->).
  apply seat_inj in Hid; [|done..]. subst m'.
  assert (KHoleRelay (Z.of_nat s) (Z.of_nat m) = KHoleRelay (Z.of_nat s') (Z.of_nat m)) as Heq.
  { apply key_string_inj; [cbn; lia..|]. exact Hkey. }
  injection Heq as Heq. by replace s' with s by lia.
Qed.

Lemma layered_lookup s :
  (s < 2 * length ids)%nat →
  layered_deck !! s = Some (layered_deck !!! s) ∧
  layered_deck !!! s = @layers _ _ cipher ks (pts !!! s) ∧ residue p (pts !!! s).
Proof.
  intros Hs. assert (pts !! s = Some (pts !!! s)) as Hl by (apply list_lookup_lookup_total_lt; lia).
  assert (layered_deck !! s = Some (@layers _ _ cipher ks (pts !!! s))) as Hd
    by (unfold layered_deck; by rewrite list_lookup_fmap, Hl).
  rewrite (list_lookup_total_correct _ _ _ Hd). split_and!; [done..|].
  rewrite list.Forall_forall in Hpts. apply Hpts. by eapply list_elem_of_lookup_2.
Qed.

(** A hosted value is still encrypted under the owner's key. *)
Lemma hole_value_hidden s j :
  (s < 2 * length ids)%nat → (j < length ids)%nat →
  ∃ rest, Forall (key_ok p) rest ∧
    hole_value s j = @layers _ _ cipher (rest ++ [ks !!! slot_owner s]) (pts !!! s).
Proof.
  intros Hs Hj. destruct (layered_lookup s Hs) as (_ & Hd & Hr).
  pose proof (slot_owner_lt s Hs) as Ho. unfold hole_value. rewrite Hd.
  assert (∃ rest, ring_keys (slot_owner s) (length ids) = ring_keys (slot_owner s) (S j) ++ rest)
    as [rest Hrest].
  { unfold ring_keys. replace (length ids) with (S j + (length ids - S j))%nat by lia.
    rewrite seq_app, filter_app, fmap_app. by eexists. }
  exists rest. assert (Forall (key_ok p) (ring_keys (slot_owner s) (length ids))) as Hok
    by (by apply ring_keys_ok).
  rewrite Hrest in Hok. apply Forall_app in Hok as [Hok1 Hok2]. split; [done|].
  destruct (key_at _ Ho) as [_ Hko].
  rewrite (@layers_perm _ _ cipher ks (ring_keys (slot_owner s) (S j) ++ (rest ++ [ks !!! slot_owner s])));
    [|rewrite app_assoc, <- Hrest; by apply ring_keys_perm|done|done].
  apply (@strip_layers _ _ cipher); [done|by apply Forall_app; split; [|constructor]|done].
Qed.

(** When every other layer is gone, the owner's is left and its key opens the
    card. *)
Lemma hole_value_last s j :
  (s < 2 * length ids)%nat → others (slot_owner s) (S j) = others (slot_owner s) (length ids) →
  hole_value s j = encrypt_card (pts !!! s) (ks !!! slot_owner s) p.
Proof.
  intros Hs Hall. destruct (layered_lookup s Hs) as (_ & Hd & Hr).
  pose proof (slot_owner_lt s Hs) as Ho. destruct (key_at _ Ho) as [_ Hko].
  unfold hole_value, ring_keys. rewrite Hall, Hd. fold (ring_keys (slot_owner s) (length ids)).
  rewrite (@layers_perm _ _ cipher ks _ _ (ring_keys_perm _ Ho)) by done.
  rewrite (@strip_layers _ _ cipher);
    [|by apply ring_keys_ok|by (constructor; [done|constructor])|done].
  done.
Qed.

Lemma hole_open s j :
  (s < 2 * length ids)%nat → others (slot_owner s) (S j) = others (slot_owner s) (length ids) →
  DecryptCard (hole_value s j) (ks !!! slot_owner s) p = pts !!! s.
Proof.
  intros Hs Hall. rewrite hole_value_last by done. destruct (layered_lookup s Hs) as (_ & _ & Hr).
  apply (@cc_dec_enc _ _ cipher); [|done]. by apply key_at, slot_owner_lt.
Qed.

(** Seat [i]'s result for slot [s]. *)
Definition hole_result (i s : nat) : res peer_err (option (Z * string)) :=
  if decide (i = slot_owner s) then Ok (Some (Z.of_nat s, of_bytes (pts !!! s))) else Ok None.

Lemma hole_strip_follows i s layered tr :
  (s < 2 * length ids)%nat → (i < length ids)%nat → i ≠ slot_owner s →
  hole_value s i = DecryptCard layered (ks !!! i) p → tr = [EHost (HoleRelayKey (Z.of_nat s) (Z.of_nat i)) i] →
  follows hole_ideal is_err (ids !!! i) (hole_strip (seat layered_deck i) (Z.of_nat s) layered) tr (hole_result i s).
Proof.
  intros Hs Hi Hne Hv ->. unfold hole_strip, hole_result. cbn [SeatIdx modKey prime seat].
  rewrite decide_False by done. rewrite <- Hv. constructor; [|constructor]. by exists s.
Qed.

(** The accesses for slot [s] are to the relays of that slot. *)
Definition slot_event (i s : nat) (e : event) : Prop :=
  match e with
  | EHost key m => key = HoleRelayKey (Z.of_nat s) (Z.of_nat i) ∧ m = i ∧ i ≠ slot_owner s
  | EPoll t key m => t = ids !!! m ∧ key = HoleRelayKey (Z.of_nat s) (Z.of_nat m) ∧ (m < length ids)%nat ∧ m ≠ slot_owner s
  end.

Lemma dealHoleSlot_follows i s :
  (i < length ids)%nat → (s < 2 * length ids)%nat →
  ∃ tr, follows hole_ideal is_err (ids !!! i) (dealHoleSlot (seat layered_deck i) (Z.of_nat s)) tr (hole_result i s) ∧
    guarded tr ∧ (length tr ≤ 2)%nat ∧
    (i ≠ slot_owner s → EHost (HoleRelayKey (Z.of_nat s) (Z.of_nat i)) i ∈ tr) ∧
    Forall (slot_event i s) tr ∧ StronglySorted lt (event_time <$> tr).
Proof.
  intros Hi Hs. pose proof (slot_owner_lt s Hs) as Ho. destruct (layered_lookup s Hs) as (Hlk & Hd & Hr).
  unfold dealHoleSlot. cbn [FinalDeck Order SeatIdx seat].
  rewrite (proj2 (Z.ltb_ge (Z.of_nat s) 0)), (proj2 (Z.leb_gt _ _))
    by (unfold layered_deck; rewrite ?length_fmap; lia). cbn [orb].
  replace (Z.quot (Z.of_nat s) 2) with (Z.of_nat (slot_owner s))
    by (unfold slot_owner; rewrite Z.quot_div_nonneg, Nat2Z.inj_div by lia; done).
  rewrite (proj2 (Z.leb_gt _ _)) by lia.
  assert (length (nonOwnerRing (Z.of_nat (length ids)) (Z.of_nat (slot_owner s))) = (length ids - 1)%nat) as Hlr
    by (rewrite nonOwnerRing_others, length_fmap; by apply length_others).
  rewrite (proj2 (Z.eqb_neq _ _)) by lia.
  destruct (Z.eqb_spec (Z.of_nat i) (Z.of_nat (slot_owner s))) as [Heq|Hne].
  - replace i with (slot_owner s) in * by lia.
    destruct (ring_last (slot_owner s) (length ids)) as (last & Hl & Hlo & Hidx & Hall); [done..|].
    rewrite Hidx. cbn [local]. rewrite order_at_seat by done.
    eexists [EPoll _ _ last]. split_and!;
      [|cbn; split; [intros ? ? []%elem_of_nil|done]|cbn; lia|done|by repeat constructor|repeat constructor].
    apply (follows_poll_ok _ _ _ _ (hole_value s last)); [by exists s|by apply seat_ne|].
    cbn [modKey prime seat]. rewrite hole_open by done.
    unfold hole_result. rewrite decide_True by done. constructor.
  - destruct (ring_prev (slot_owner s) i (length ids)) as [[Hpos Hall]|(Hpos & prev & Hp1 & Hp2 & Hidx & Hall)];
      [done|done|lia|..].
    + rewrite Hpos. cbn [Z.ltb Z.eqb Z.compare].
      assert (idx (E:=Empty_set) layered_deck (Z.of_nat s) = Ok (layered_deck !!! s)) as ->
        by (apply idx_Ok; rewrite Nat2Z.id; split; [lia|done]). cbn [local].
      eexists. split_and!; [apply hole_strip_follows; [done|done|lia| |done]|done|cbn; lia|by left|by repeat constructor; lia|repeat constructor].
      unfold hole_value, ring_keys. by rewrite Hall.
    + rewrite (proj2 (Z.ltb_ge _ _)), (proj2 (Z.eqb_neq _ _)) by lia. rewrite Hidx. cbn [local].
      rewrite order_at_seat by (done || lia).
      eexists (EPoll _ _ prev :: _). split_and!.
      * apply (follows_poll_ok _ _ _ _ (hole_value s prev)).
        -- exists s. split_and!; done || lia.
        -- apply seat_ne; done || lia.
        -- apply hole_strip_follows; [done|done|lia| |done].
           unfold hole_value, ring_keys. rewrite Hall, fmap_app. unfold strip. by rewrite fold_left_app.
      * cbn. split; [|done]. intros key m Hin. apply elem_of_cons in Hin as [[= -> ->]|[]%elem_of_nil]. done.
      * cbn. lia.
      * intros _. right. left.
      * repeat constructor; done || lia.
      * repeat constructor. cbn. lia.
Qed.

(** All goroutines of all seats. *)
Definition deal_index : list (nat * nat) :=
  i ← seq 0 (length ids); s ← seq 0 (length ids * 2); [(i, s)].

Lemma elem_of_deal_index i s :
  (i, s) ∈ deal_index ↔ (i < length ids)%nat ∧ (s < 2 * length ids)%nat.
Proof.
  unfold deal_index. rewrite list_elem_of_bind. setoid_rewrite list_elem_of_bind.
  setoid_rewrite elem_of_seq. setoid_rewrite list_elem_of_singleton. split.
  - intros (i' & (s' & [= -> ->] & Hs) & Hi). lia.
  - intros [Hi Hs]. exists i. split; [|lia]. exists s. split; [done|lia].
Qed.

Definition all_deal_procs : list (string * proc (option (Z * string))) :=
  (λ ix, (ids !!! ix.1, dealHoleSlot (seat layered_deck ix.1) (Z.of_nat ix.2))) <$> deal_index.

(** They are the goroutines that [DealHoleCards] starts on each seat. *)
Lemma all_deal_procs_spec :
  all_deal_procs = concat ((λ i, pair (ids !!! i) <$> deal_procs (seat layered_deck i)) <$> seq 0 (length ids)).
Proof.
  unfold all_deal_procs, deal_index. generalize (seq 0 (length ids)) as l. induction l as [|i l IH]; [done|].
  cbn [mbind list_bind fmap list_fmap concat]. rewrite fmap_app. f_equal; [|exact IH].
  unfold deal_procs. cbn [Order seat]. rewrite <- list_fmap_compose.
  generalize (seq 0 (length ids * 2)) as m. induction m as [|s m IHm]; [done|].
  cbn [mbind list_bind fmap list_fmap app]. f_equal. exact IHm.
Qed.

Lemma deal_plans_exist :
  ∃ pls, Forall2 (on_plan hole_ideal is_err) all_deal_procs pls ∧
    snd <$> pls = (λ ix, hole_result ix.1 ix.2) <$> deal_index ∧
    (work pls ≤ 2 * length deal_index)%nat ∧
    ∀ k i s pl, deal_index !! k = Some (i, s) → pls !! k = Some pl → i ≠ slot_owner s →
      EHost (HoleRelayKey (Z.of_nat s) (Z.of_nat i)) i ∈ pl.1.
Proof.
  assert (∀ ix, ix ∈ deal_index → (ix.1 < length ids)%nat ∧ (ix.2 < 2 * length ids)%nat) as Hix
    by (intros [i s] Hin; by apply elem_of_deal_index).
  unfold all_deal_procs. revert Hix. generalize deal_index as l. induction l as [|[i s] l IH]; intros Hix.
  { exists []. split_and!; [constructor|done|cbn; lia|done]. }
  destruct IH as (pls & Hpl & Hsnd & Hw & Hhost); [intros ix Hin; apply Hix; by right|].
  destruct (Hix (i, s)) as [Hi Hs]; [left|]. cbn in Hi, Hs.
  destruct (dealHoleSlot_follows i s Hi Hs) as (tr & Hf & Hg & Hl & Hh & _).
  exists ((tr, hole_result i s) :: pls). split_and!.
  - constructor; [by split|done].
  - cbn. by f_equal.
  - unfold work in *. cbn [sum_list_with length fst]. lia.
  - intros [|k] i' s' pl Hk Hpl' Hne; cbn in Hk, Hpl'; [simplify_eq/=; by apply Hh|by eapply Hhost].
Qed.

Lemma length_deal_index : length deal_index = (2 * length ids * length ids)%nat.
Proof.
  assert (∀ (i : nat) m, length (s ← m; [(i, s : nat)]) = length m) as Hin.
  { intros i m. induction m as [|s m IH]; [done|]. cbn. by f_equal. }
  unfold deal_index. assert (∀ l : list nat, length (i ← l; s ← seq 0 (length ids * 2); [(i, s)])
    = (length l * (length ids * 2))%nat) as Hl.
  { induction l as [|i l IH]; [done|]. cbn [mbind list_bind]. rewrite length_app, Hin, length_seq, IH. cbn [length]. lia. }
  rewrite Hl, length_seq. lia.
Qed.

Lemma deal_net_inv :
  ∃ pls, net_inv hole_ideal is_err (mkNet ∅ all_deal_procs) pls ∧
    snd <$> pls = (λ ix, hole_result ix.1 ix.2) <$> deal_index ∧ (work pls ≤ 4 * length ids * length ids)%nat.
Proof.
  destruct deal_plans_exist as (pls & Hpl & Hsnd & Hw & Hhost).
  exists pls. split_and!; [|done|rewrite length_deal_index in Hw; lia].
  apply net_inv_start; [done|]. intros id key v m (s & Hs & Hm & Hne & -> & -> & ->).
  assert ((m, s) ∈ deal_index) as Hin by (by apply elem_of_deal_index).
  apply list_elem_of_lookup in Hin as [j Hj].
  assert (is_Some (pls !! j)) as [pl Hplj].
  { apply lookup_lt_is_Some. rewrite <- (length_fmap snd pls), Hsnd, length_fmap. by eapply lookup_lt_Some. }
  exists j, (dealHoleSlot (seat layered_deck m) (Z.of_nat s)), pl. split_and!; [|done|by eapply Hhost].
  unfold all_deal_procs. by rewrite list_lookup_fmap, Hj.
Qed.

Lemma deal_net_correct k n :
  nsteps net_step k (mkNet ∅ all_deal_procs) n →
  (k ≤ 4 * length ids * length ids)%nat ∧
  (∀ j i s r, deal_index !! j = Some (i, s) → finished n j r → r = hole_result i s) ∧
  ((∀ n', ¬ net_step n n') → ∀ j i s, deal_index !! j = Some (i, s) → finished n j (hole_result i s)) ∧
  (∀ id key v, Get (store_of (stores n) id) key = Some v → ∃ m, hole_ideal id key v m).
Proof.
  intros Hrun. destruct deal_net_inv as (pls & Hinv & Hsnd & Hw).
  assert (∀ j i s, deal_index !! j = Some (i, s) → ∃ pl, pls !! j = Some pl ∧ pl.2 = hole_result i s) as Hres.
  { intros j i s Hj. assert ((snd <$> pls) !! j = Some (hole_result i s)) as Hl
      by (by rewrite Hsnd, list_lookup_fmap, Hj).
    rewrite list_lookup_fmap in Hl. destruct (pls !! j) as [pl|]; [|done]. injection Hl as Hl. by exists pl. }
  destruct (net_correct hole_ideal is_err hole_ideal_fun _ _ _ _ Hinv Hrun) as (Hk & Hfin & Hstuck & Hst & _).
  split_and!.
  - lia.
  - intros j i s r Hj Hf. destruct (Hres j i s Hj) as (pl & Hplj & <-). by eapply Hfin.
  - intros Hs j i s Hj. destruct (Hres j i s Hj) as (pl & Hplj & <-). by apply Hstuck.
  - done.
Qed.

End deal.
(** ** Revealing community cards *)

Section community.
Context (pts : list bytes) (Hpts : Forall (residue p) pts).
(** The hole cards and the board fit in the deck. *)
Context (Hdeck : (2 * length ids + 5 ≤ length pts)%nat).
Context (Hdecksize : Z.of_nat (length pts) < 2 ^ 31).
(** The nodes, of which the reveal leaves hole cards, money and rules alone. *)
Context (own : nat → Node).

Abbreviation deck := (layered_deck pts).
Abbreviation base := (2 * length ids)%nat.

(** The board slot [t]'s plaintext. *)
Definition board_card (t : nat) : bytes := pts !!! (base + t)%nat.

(** Seat [i] when the first [t] board cards are known to it. *)
Definition board_node (i t : nat) : Node :=
  mkNode (ids !!! i) (ks !!! i) p true deck ids (Z.of_nat i) (card1 (own i)) (card2 (own i)) (money (own i))
    (sessionConfig (own i)) ((λ j, of_bytes (board_card j)) <$> seq 0 t).

Lemma board_deck t :
  (t < 5)%nat → deck !! (base + t)%nat = Some (@layers _ _ cipher ks (board_card t)) ∧
    residue p (board_card t).
Proof.
  intros Ht. assert (pts !! (base + t)%nat = Some (board_card t)) as Hl
    by (apply list_lookup_lookup_total_lt; lia).
  split; [unfold layered_deck; by rewrite list_lookup_fmap, Hl|].
  rewrite list.Forall_forall in Hpts. apply Hpts. by eapply list_elem_of_lookup_2.
Qed.

Lemma setCommunity_next i t :
  (t < 5)%nat →
  setCommunity (board_node i t) (Z.of_nat (base + t)) (of_bytes (board_card t)) = Ok (board_node i (S t)).
Proof.
  intros Ht. unfold setCommunity, communityBase. cbn [board_node set_community Order community seat].
  replace (Z.of_nat (base + t) - Z.of_nat (length ids) * 2) with (Z.of_nat t) by lia.
  set (b := (λ j, of_bytes (board_card j)) <$> seq 0 t).
  assert (length b = t) as Hb by (unfold b; by rewrite length_fmap, length_seq).
  assert (pad_board b (Z.of_nat t) = b ++ [EmptyString]) as ->.
  { unfold pad_board. rewrite Hb. replace (Z.to_nat (Z.of_nat t + 1) - t)%nat with 1%nat by lia. done. }
  assert (idx (E:=Empty_set) (b ++ [EmptyString]) (Z.of_nat t) = Ok EmptyString) as ->.
  { apply idx_Ok. rewrite Nat2Z.id, lookup_app_r, Hb, Nat.sub_diag by lia. split; [lia|done]. }
  cbn [mbind res_bind]. rewrite bool_decide_false by (intros Hne; by apply Hne).
  rewrite upd_in_range by (rewrite length_app; cbn [length]; lia). cbn [mbind res_bind].
  rewrite Nat2Z.id, insert_app_r_alt, Hb, Nat.sub_diag by lia. f_equal. unfold board_node, set_community. f_equal.
  unfold b. by rewrite seq_S, fmap_app.
Qed.

(** What seat [i] hosts for slot [t], and the ranks of the keys. *)
Definition relay_value (t i : nat) : bytes :=
  @strip _ _ cipher (take (S i) ks) (@layers _ _ cipher ks (board_card t)).

Definition relay_rank (t i : nat) : nat := (t * S (length ids) + i)%nat.

Definition community_ideal (t0 l : nat) (id key : string) (v : bytes) (m : nat) : Prop :=
  ∃ t, (t0 ≤ t < t0 + l)%nat ∧ (t0 + l ≤ 5)%nat ∧
  ((∃ i, (i < length ids)%nat ∧ id = ids !!! i ∧
      key = key_string (KCommunityRelay (Z.of_nat (base + t)) (Z.of_nat i)) ∧
      v = relay_value t i ∧ m = relay_rank t i) ∨
   (id = ids !!! last_seat ∧ key = key_string (KCommunityCard (Z.of_nat (base + t))) ∧
      v = board_card t ∧ m = relay_rank t (length ids))).

Lemma ideal_relay t0 l t i :
  (t0 ≤ t < t0 + l)%nat → (t0 + l ≤ 5)%nat → (i < length ids)%nat →
  community_ideal t0 l (ids !!! i) (CommunityRelayKey (Z.of_nat (base + t)) (Z.of_nat i))
    (relay_value t i) (relay_rank t i).
Proof. intros. exists t. split_and!; [lia..|]. left. by exists i. Qed.

Lemma ideal_card t0 l t :
  (t0 ≤ t < t0 + l)%nat → (t0 + l ≤ 5)%nat →
  community_ideal t0 l (ids !!! last_seat) (CommunityCardKey (Z.of_nat (base + t)))
    (board_card t) (relay_rank t (length ids)).
Proof. intros. exists t. split_and!; [lia..|]. by right. Qed.

Lemma community_ideal_fun t0 l id key v m v' m' :
  community_ideal t0 l id key v m → community_ideal t0 l id key v' m' → v = v'.
Proof.
  intros (t & Ht & Hl & [(i & Hi & _ & -> & -> & _)|(_ & -> & -> & _)])
    (t' & Ht' & Hl' & [(i' & Hi' & _ & Hk & -> & _)|(_ & Hk & -> & _)]);
    apply key_string_inj in Hk; cbn; try lia; try discriminate Hk.
  - injection Hk as H1 H2. by replace t' with t by lia; replace i' with i by lia.
  - injection Hk as H1. by replace t' with t by lia.
Qed.

Definition reveal_trace (i t : nat) : list event :=
  (if decide (i = 0%nat) then []
   else [EPoll (ids !!! (i - 1)%nat) (CommunityRelayKey (Z.of_nat (base + t)) (Z.of_nat (i - 1)))
           (relay_rank t (i - 1))])
  ++ [EHost (CommunityRelayKey (Z.of_nat (base + t)) (Z.of_nat i)) (relay_rank t i);
      if decide (i = last_seat) then EHost (CommunityCardKey (Z.of_nat (base + t))) (relay_rank t (length ids))
      else EPoll (ids !!! last_seat) (CommunityCardKey (Z.of_nat (base + t))) (relay_rank t (length ids))].

Lemma relay_last t : (t < 5)%nat → relay_value t last_seat = board_card t.
Proof.
  intros Ht. destruct (board_deck t Ht) as [_ Hr]. unfold relay_value.
  rewrite take_ge by (unfold last_seat; lia). rewrite <- (app_nil_r ks) at 2.
  by rewrite (@strip_layers _ _ cipher).
Qed.

Lemma publish_follows t0 l i t :
  (i < length ids)%nat → (t0 ≤ t < t0 + l)%nat → (t0 + l ≤ 5)%nat →
  follows (community_ideal t0 l) is_err (ids !!! i)
    (publish_card (board_node i t) (Z.of_nat (base + t)) (relay_value t i))
    [if decide (i = last_seat) then EHost (CommunityCardKey (Z.of_nat (base + t))) (relay_rank t (length ids))
     else EPoll (ids !!! last_seat) (CommunityCardKey (Z.of_nat (base + t))) (relay_rank t (length ids))]
    (Ok (board_node i (S t))).
Proof.
  intros Hi Ht Hl. unfold publish_card. cbn [board_node set_community Order SeatIdx seat].
  fold (board_node i t). replace (Z.of_nat (length ids) - 1) with (Z.of_nat last_seat) by (unfold last_seat; lia).
  destruct (Z.eqb_spec (Z.of_nat i) (Z.of_nat last_seat)) as [Heq|Hne].
  - assert (i = last_seat) as -> by lia. rewrite decide_True by done.
    rewrite relay_last by lia. constructor; [by apply ideal_card|].
    rewrite setCommunity_next by lia. constructor.
  - rewrite decide_False by lia. rewrite order_at_seat by (done || unfold last_seat; lia).
    apply (follows_poll_ok _ _ _ _ (board_card t)); [by apply ideal_card|apply seat_ne; unfold last_seat in *; lia|].
    rewrite setCommunity_next by lia. constructor.
Qed.

Lemma community_strip_follows t0 l i t layered :
  (i < length ids)%nat → (t0 ≤ t < t0 + l)%nat → (t0 + l ≤ 5)%nat →
  DecryptCard layered (ks !!! i) p = relay_value t i →
  follows (community_ideal t0 l) is_err (ids !!! i)
    (community_strip (board_node i t) (Z.of_nat (base + t)) layered)
    [EHost (CommunityRelayKey (Z.of_nat (base + t)) (Z.of_nat i)) (relay_rank t i);
     if decide (i = last_seat) then EHost (CommunityCardKey (Z.of_nat (base + t))) (relay_rank t (length ids))
     else EPoll (ids !!! last_seat) (CommunityCardKey (Z.of_nat (base + t))) (relay_rank t (length ids))]
    (Ok (board_node i (S t))).
Proof.
  intros Hi Ht Hl Hv. unfold community_strip. cbn [board_node set_community modKey prime SeatIdx seat].
  fold (board_node i t). rewrite Hv. constructor; [by apply ideal_relay|]. by apply publish_follows.
Qed.

Lemma RevealCommunityCard_follows t0 l i t :
  (i < length ids)%nat → (t0 ≤ t < t0 + l)%nat → (t0 + l ≤ 5)%nat →
  follows (community_ideal t0 l) is_err (ids !!! i)
    (RevealCommunityCard (board_node i t) (Z.of_nat (base + t))) (reveal_trace i t)
    (Ok (board_node i (S t))).
Proof.
  intros Hi Ht Hl. destruct (board_deck t) as [Hd Hr]; [lia|].
  unfold RevealCommunityCard, reveal_trace. cbn [board_node set_community FinalDeck SeatIdx seat].
  fold (board_node i t). rewrite (proj2 (Z.ltb_ge _ _)), (proj2 (Z.leb_gt _ _))
    by (unfold layered_deck; rewrite ?length_fmap; lia). cbn [orb].
  destruct (Z.eqb_spec (Z.of_nat i) 0) as [Hz|Hz].
  - rewrite decide_True by lia. cbn [app].
    assert (idx (E:=Empty_set) deck (Z.of_nat (base + t)) = Ok (@layers _ _ cipher ks (board_card t))) as ->
      by (apply idx_Ok; rewrite Nat2Z.id; split; [lia|done]). cbn [local].
    apply community_strip_follows; [done..|]. replace i with 0%nat by lia. unfold relay_value.
    destruct (key_at 0) as [Hk _]; [lia|]. destruct ks as [|k ks']; [done|].
    cbn [take]. by rewrite take_0.
  - rewrite decide_False by lia. cbn [app].
    replace (Z.of_nat i - 1) with (Z.of_nat (i - 1)) by lia. rewrite order_at_seat by (done || lia).
    apply (follows_poll_ok _ _ _ _ (relay_value t (i - 1))); [by apply ideal_relay; lia|apply seat_ne; lia|].
    apply community_strip_follows; [done..|]. unfold relay_value. replace (S (i - 1)) with i by lia.
    destruct (key_at i) as [Hk _]; [lia|]. rewrite (take_S_r _ _ _ Hk). unfold strip. by rewrite fold_left_app.
Qed.

(** Revealing the slots [t], [t+1], ... in turn. *)
Lemma reveal_all_follows t0 l i k t :
  (i < length ids)%nat → (t0 ≤ t)%nat → (t + k ≤ t0 + l)%nat → (t0 + l ≤ 5)%nat →
  follows (community_ideal t0 l) is_err (ids !!! i)
    (reveal_all (board_node i t) ((λ j, Z.of_nat (base + j)) <$> seq t k))
    (concat (reveal_trace i <$> seq t k)) (Ok (board_node i (t + k))).
Proof.
  revert t. induction k as [|k IH]; intros t Hi Ht Hk Hl.
  { cbn. rewrite Nat.add_0_r. constructor. }
  cbn [seq fmap list_fmap reveal_all concat].
  eapply follows_bind; [apply RevealCommunityCard_follows; [done|lia|done]| |].
  - cbn [local]. replace (t + S k)%nat with (S t + k)%nat by lia. apply IH; [done|lia..].
  - intros e [e' ->]. by eexists.
Qed.

Lemma reveal_trace_guarded i t : (i < length ids)%nat → guarded (reveal_trace i t).
Proof.
  intros Hi. unfold reveal_trace. destruct (decide (i = 0%nat)), (decide (i = last_seat)); cbn [app guarded];
    split_and?; try done; intros key m Hin; unfold relay_rank in *;
    repeat (apply elem_of_cons in Hin as [Hin|Hin]; simplify_eq; try lia);
    by apply elem_of_nil in Hin.
Qed.

Lemma reveal_trace_ranks i t e :
  (i < length ids)%nat → e ∈ reveal_trace i t →
  match e with EPoll _ _ m | EHost _ m => (relay_rank t 0 ≤ m ≤ relay_rank t (length ids))%nat end.
Proof.
  intros Hi He. unfold reveal_trace in He. apply elem_of_app in He as [He|He].
  - case_decide; [by apply elem_of_nil in He|]. apply list_elem_of_singleton in He as ->. unfold relay_rank. lia.
  - apply elem_of_cons in He as [->|He]; [unfold relay_rank; lia|].
    apply list_elem_of_singleton in He as ->. case_decide; unfold relay_rank; lia.
Qed.

Lemma reveal_traces_guarded i k t : (i < length ids)%nat → guarded (concat (reveal_trace i <$> seq t k)).
Proof.
  intros Hi. revert t. induction k as [|k IH]; intros t; [done|]. cbn [seq fmap list_fmap concat].
  apply guarded_app; [by apply reveal_trace_guarded|apply IH|].
  intros t' key m key' m' Hpo Hh. apply reveal_trace_ranks in Hpo; [|done].
  apply list_elem_of_In, in_concat in Hh as (tr & Htr & Hin).
  apply in_map_iff in Htr as (t2 & <- & Ht2%in_seq). apply list_elem_of_In in Hin.
  apply reveal_trace_ranks in Hin; [|done]. unfold relay_rank in *. nia.
Qed.

(** A stage of the game that reveals the slots from [t] to [t + l]. *)
Definition reveals (stage : Node → proc Node) (t l : nat) : Prop :=
  ∀ i, (i < length ids)%nat →
    follows (community_ideal t l) is_err (ids !!! i) (stage (board_node i t))
      (concat (reveal_trace i <$> seq t l)) (Ok (board_node i (t + l))).

Lemma RevealFlop_reveals : reveals RevealFlop 0 3.
Proof.
  intros i Hi. pose proof (reveal_all_follows 0 3 i 3 0) as Hf. unfold RevealFlop, communityBase.
  cbn [board_node set_community Order seat]. fold (board_node i 0).
  replace [Z.of_nat (length ids) * 2; Z.of_nat (length ids) * 2 + 1; Z.of_nat (length ids) * 2 + 2]
    with ((λ j, Z.of_nat (base + j)) <$> seq 0 3) by (cbn; repeat f_equal; lia).
  apply Hf; lia.
Qed.

Lemma reveal_one_reveals t stage :
  (t < 5)%nat → (∀ i, stage (board_node i t) = RevealCommunityCard (board_node i t) (Z.of_nat (base + t))) →
  reveals stage t 1.
Proof.
  intros Ht Hst i Hi. rewrite Hst. cbn [seq fmap list_fmap concat]. rewrite app_nil_r, Nat.add_1_r.
  apply RevealCommunityCard_follows; lia.
Qed.

Lemma RevealTurn_reveals : reveals RevealTurn 3 1.
Proof.
  apply reveal_one_reveals; [lia|]. intros i. unfold RevealTurn, communityBase.
  cbn [board_node set_community Order seat]. f_equal. lia.
Qed.

Lemma RevealRiver_reveals : reveals RevealRiver 4 1.
Proof.
  apply reveal_one_reveals; [lia|]. intros i. unfold RevealRiver, communityBase.
  cbn [board_node set_community Order seat]. f_equal. lia.
Qed.

Definition reveal_procs (stage : Node → proc Node) (t : nat) : list (string * proc Node) :=
  (λ i, (ids !!! i, stage (board_node i t))) <$> seq 0 (length ids).

Definition reveal_plans (t l : nat) : list (list event * res peer_err Node) :=
  (λ i, (concat (reveal_trace i <$> seq t l), Ok (board_node i (t + l)))) <$> seq 0 (length ids).

Lemma reveal_net_inv stage t l :
  reveals stage t l → (t + l ≤ 5)%nat →
  net_inv (community_ideal t l) is_err (mkNet ∅ (reveal_procs stage t)) (reveal_plans t l).
Proof.
  intros Hrev Hl. apply net_inv_start.
  - unfold reveal_procs, reveal_plans. apply Forall2_fmap, Forall_Forall2_diag, list.Forall_forall.
    intros i Hi%elem_of_seq. split; cbn [fst snd].
    + apply Hrev. lia.
    + apply reveal_traces_guarded. lia.
  - assert (∀ i t' e, (i < length ids)%nat → (t ≤ t' < t + l)%nat → e ∈ reveal_trace i t' →
      e ∈ concat (reveal_trace i <$> seq t l)) as Hin.
    { intros i t' e Hi Ht' He. apply list_elem_of_In, in_concat. exists (reveal_trace i t').
      split; [apply in_map_iff; exists t'; split; [done|apply in_seq; lia]|by apply list_elem_of_In]. }
    assert (∀ i, (i < length ids)%nat → ∃ q, reveal_procs stage t !! i = Some (ids !!! i, q) ∧
      reveal_plans t l !! i = Some (concat (reveal_trace i <$> seq t l), Ok (board_node i (t + l)))) as Hlk.
    { intros i Hi. eexists. unfold reveal_procs, reveal_plans.
      rewrite !list_lookup_fmap, !lookup_seq_lt by done. done. }
    intros id key v m (t' & Ht' & Hl' & [(i & Hi & -> & -> & -> & ->)|(-> & -> & -> & ->)]).
    + destruct (Hlk i Hi) as (q & Hq & Hpl). exists i, q, (concat (reveal_trace i <$> seq t l), Ok (board_node i (t + l))).
      split_and!; [done..|]. cbn. apply (Hin i t'); [done..|]. unfold reveal_trace. apply elem_of_app. right. left.
    + assert (last_seat < length ids)%nat as Hls by (unfold last_seat; lia).
      destruct (Hlk last_seat Hls) as (q & Hq & Hpl).
      exists last_seat, q, (concat (reveal_trace last_seat <$> seq t l), Ok (board_node last_seat (t + l))).
      split_and!; [done..|]. cbn. apply (Hin last_seat t'); [done..|]. unfold reveal_trace. apply elem_of_app. right.
      right. rewrite decide_True by done. left.
Qed.

Lemma reveal_correct stage t l k n :
  reveals stage t l → (t + l ≤ 5)%nat → nsteps net_step k (mkNet ∅ (reveal_procs stage t)) n →
  (∀ i r, (i < length ids)%nat → finished n i r → r = Ok (board_node i (t + l))) ∧
  ((∀ n', ¬ net_step n n') → ∀ i, (i < length ids)%nat → finished n i (Ok (board_node i (t + l)))).
Proof.
  intros Hrev Hl Hrun.
  destruct (net_correct (community_ideal t l) is_err (community_ideal_fun t l) _ _ _ _ (reveal_net_inv stage t l Hrev Hl) Hrun)
    as (_ & Hfin & Hstuck & _).
  assert (∀ i, (i < length ids)%nat → reveal_plans t l !! i
    = Some (concat (reveal_trace i <$> seq t l), Ok (board_node i (t + l)))) as Hlk.
  { intros i Hi. unfold reveal_plans. by rewrite list_lookup_fmap, lookup_seq_lt. }
  split; [intros i r Hi Hf; by apply (Hfin i r _ Hf (Hlk i Hi))|].
  intros Hs i Hi. by apply (Hstuck Hs i _ (Hlk i Hi)).
Qed.

End community.
End table.
