(* ===== verification/PeerProps.v ===== *)
(** * The card protocols: theorems

    Shuffling, dealing and revealing, for every table and every interleaving
    of the nodes' store accesses. *)

From Stdlib Require Import ZArith Lia Ascii ZmodInv.
From stdpp Require Import base list gmap strings numbers relations countable.
From S2P Require Import Prelude Strconv Card Ephemeral Deck DeckProofs DeckProps Net Peer PeerProofs.

#[local] Open Scope Z_scope.
#[local] Existing Instance Key_inhabited.

(** A table that one deck serves: distinct ids, one valid key per seat, two to
    twenty-three seats (46 hole cards and 5 board cards). *)
Definition table_ok (ids : list string) (ks : list Key) : Prop :=
  NoDup ids ∧ length ks = length ids ∧ (2 ≤ length ids ≤ 23)%nat ∧ Forall (key_ok PRIME) ks.

(** Random sources of the seats that never fail. *)
Definition sources_ok (R : nat → RandSource) : Prop :=
  (∀ i, @RandLaws (R i)) ∧ ∀ i j max, 0 < max → @rand_Int (R i) j max ≠ None.

Abbreviation sra := (sra_cipher PRIME PRIME_prime).

Section shuffle.
Context `{CodecLaws (list bytes)}.

(** C5: the shuffle ring agrees.  In every interleaving of the seats'
    [RunShuffle], at most three store accesses per seat happen, no seat ever
    fails or is left waiting, and all of them end with the same [FinalDeck]:
    the 52 cards, reordered, under the layers of all seats. *)
Theorem shuffle_ring_agrees ids ks sc R c k n :
  table_ok ids ks → sources_ok R →
  nsteps net_step k (mkNet ∅ (shuffle_procs ids ks PRIME sc R c)) n →
  (k ≤ 3 * length ids)%nat ∧
  (∀ i r, (i < length ids)%nat → finished n i r →
     r = Ok (seat ids ks PRIME sc (final_deck ids ks PRIME R c) i)) ∧
  ((∀ n', ¬ net_step n n') → ∀ i, (i < length ids)%nat →
     finished n i (Ok (seat ids ks PRIME sc (final_deck ids ks PRIME R c) i))) ∧
  final_deck ids ks PRIME R c ≡ₚ @layers _ _ sra ks <$> buildOrderedDeck.
Proof.
  intros (Hnd & Hlen & Hsize & Hks) (HR & Hrand) Hrun. pose proof PRIME_prime as Hp.
  assert (net_inv (shuffle_ideal ids ks PRIME R c) is_err (mkNet ∅ (shuffle_procs ids ks PRIME sc R c))
    (shuffle_plans ids ks PRIME sc R c)) as Hinv by (apply shuffle_net_inv; done || lia).
  destruct (net_correct _ _ (shuffle_ideal_fun ids ks PRIME Hnd R c) _ _ _ _ Hinv Hrun)
    as (Hk & Hfin & Hstuck & _).
  assert (∀ i, (i < length ids)%nat → shuffle_plans ids ks PRIME sc R c !! i
    = Some (shuffle_trace ids i, shuffle_result ids ks PRIME sc R c i)) as Hlk.
  { intros i Hi. unfold shuffle_plans. by rewrite list_lookup_fmap, lookup_seq_lt. }
  split_and!.
  - pose proof (shuffle_work ids ks PRIME sc Hlen ltac:(lia) R c). lia.
  - intros i r Hi Hf. by apply (Hfin i r _ Hf (Hlk i Hi)).
  - intros Hs i Hi. by apply (Hstuck Hs i _ (Hlk i Hi)).
  - unfold final_deck. rewrite (ring_deck_perm ids ks PRIME Hlen ltac:(lia) PRIME_prime Hks) by done.
    by rewrite take_ge by lia.
Qed.

(** A cancelled shuffle is safe.  When contexts end at arbitrary points, a
    seat that has finished either reports an error or has the same final deck
    as in the undisturbed run. *)
Theorem shuffle_cancel_safe ids ks sc R c n i r :
  table_ok ids ks → sources_ok R → (i < length ids)%nat →
  rtc (λ n n', net_step n n' ∨ cancel_step n n') (mkNet ∅ (shuffle_procs ids ks PRIME sc R c)) n →
  finished n i r →
  is_err r ∨ r = Ok (seat ids ks PRIME sc (final_deck ids ks PRIME R c) i).
Proof.
  intros (Hnd & Hlen & Hsize & Hks) (HR & Hrand) Hi Hrun Hf. pose proof PRIME_prime as Hp.
  assert (Forall2 (on_plan (shuffle_ideal ids ks PRIME R c) is_err) (shuffle_procs ids ks PRIME sc R c)
    (shuffle_plans ids ks PRIME sc R c)) as Hpl by (apply shuffle_on_plan; done || lia).
  destruct (net_safe _ _ (shuffle_ideal_fun ids ks PRIME Hnd R c) _ _ _
    (safe_inv_start _ _ _ _ Hpl) Hrun i r Hf) as [He|Hr]; [by left|right].
  rewrite list_lookup_fmap in Hr. unfold shuffle_plans in Hr.
  rewrite list_lookup_fmap, lookup_seq_lt in Hr by done. injection Hr as <-. done.
Qed.

End shuffle.

(** ** Cards as dealt *)

(** A plaintext of the ordered deck is the wire string of a real card. *)
Lemma ordered_deck_cards m :
  m ∈ buildOrderedDeck → ∃ cd, card_wf cd ∧ of_bytes m = DeckString cd.
Proof.
  intros (i & -> & Hi%elem_of_seq)%list_elem_of_fmap. rewrite of_bytes_to_bytes.
  destruct (FromInt (Z.of_nat i)) as [cd|e|] eqn:Hf.
  - apply FromInt_Ok in Hf as [Hwf Hint]. exists cd. split; [done|]. unfold DeckString. by rewrite Hint.
  - exfalso. unfold FromInt in Hf. rewrite (proj2 (Z.ltb_ge _ _)), (proj2 (Z.leb_gt _ _)) in Hf by lia. done.
  - exfalso. unfold FromInt in Hf. by destruct (_ || _).
Qed.

Lemma perm_deck pts :
  pts ≡ₚ buildOrderedDeck → Forall (residue PRIME) pts ∧ NoDup pts ∧ length pts = 52%nat.
Proof.
  intros Hp. destruct ordered_deck_ok as (Hr & Hn & Hl). by rewrite Hp.
Qed.

(** C4: dealing is correct.  Whatever reordering [pts] of the 52 cards lies
    under the final deck, in every interleaving of all the goroutines of all
    seats' [DealHoleCards]: they all finish without error, the owner of a slot
    gets exactly the card of that slot (a real card, different for different
    slots) and the other seats get none. *)
Theorem hole_deal_correct ids ks sc pts k n :
  table_ok ids ks → pts ≡ₚ buildOrderedDeck →
  nsteps net_step k (mkNet ∅ (all_deal_procs ids ks PRIME sc PRIME_prime pts)) n →
  (k ≤ 4 * length ids * length ids)%nat ∧
  ((∀ n', ¬ net_step n n') → ∀ j i s, deal_index ids !! j = Some (i, s) →
     finished n j (if decide (i = (s / 2)%nat) then Ok (Some (Z.of_nat s, of_bytes (pts !!! s))) else Ok None)) ∧
  (∀ s, (s < 2 * length ids)%nat → ∃ cd, card_wf cd ∧ of_bytes (pts !!! s) = DeckString cd) ∧
  (∀ s s', (s < 2 * length ids)%nat → (s' < 2 * length ids)%nat → pts !!! s = pts !!! s' → s = s').
Proof.
  intros (Hnd & Hlen & Hsize & Hks) Hpts Hrun. destruct (perm_deck pts Hpts) as (Hr & Hn & Hl).
  destruct (deal_net_correct ids ks PRIME sc Hnd Hlen ltac:(lia) ltac:(lia) PRIME_prime Hks pts Hr ltac:(lia) k n Hrun)
    as (Hk & _ & Hstuck & _).
  assert (∀ s, (s < 2 * length ids)%nat → pts !! s = Some (pts !!! s)) as Hlk
    by (intros s Hs; apply list_lookup_lookup_total_lt; lia).
  split_and!; [done| | |].
  - intros Hs j i s Hj. apply (Hstuck Hs j i s Hj).
  - intros s Hs. apply ordered_deck_cards. rewrite <- Hpts. by eapply list_elem_of_lookup_2, Hlk.
  - intros s s' Hs Hs' Heq. eapply NoDup_lookup; [done|by apply Hlk|]. rewrite Heq. by apply Hlk.
Qed.


(** The board is the same for everyone.  In every interleaving of the
    seats' flop, turn or river reveal (each seat knowing the board so far), no
    seat fails or is left waiting, and each of them ends with the board of the
    deck's cards after the hole cards, extended by the revealed ones. *)
Theorem community_agrees ids ks pts own stage t l k n :
  table_ok ids ks → pts ≡ₚ buildOrderedDeck →
  (stage, t, l) ∈ [(RevealFlop, 0%nat, 3%nat); (RevealTurn, 3%nat, 1%nat); (RevealRiver, 4%nat, 1%nat)] →
  nsteps net_step k (mkNet ∅ (reveal_procs ids ks PRIME PRIME_prime pts own stage t)) n →
  (∀ i r, (i < length ids)%nat → finished n i r →
     r = Ok (board_node ids ks PRIME PRIME_prime pts own i (t + l))) ∧
  ((∀ n', ¬ net_step n n') → ∀ i, (i < length ids)%nat →
     finished n i (Ok (board_node ids ks PRIME PRIME_prime pts own i (t + l)))) ∧
  (∀ i, CommunityCards (board_node ids ks PRIME PRIME_prime pts own i (t + l))
        = (λ j, of_bytes (pts !!! (2 * length ids + j)%nat)) <$> seq 0 (t + l)).
Proof.
  intros (Hnd & Hlen & Hsize & Hks) Hpts Hst Hrun. destruct (perm_deck pts Hpts) as (Hr & Hn & Hl).
  assert (reveals ids ks PRIME PRIME_prime pts own stage t l ∧ (t + l ≤ 5)%nat) as [Hrev Htl].
  { repeat (apply elem_of_cons in Hst as [[= -> -> ->]|Hst]); [| | |by apply elem_of_nil in Hst]; (split; [|lia]).
    - apply RevealFlop_reveals; done || lia.
    - apply RevealTurn_reveals; done || lia.
    - apply RevealRiver_reveals; done || lia. }
  destruct (reveal_correct ids ks PRIME Hlen ltac:(lia) PRIME_prime pts ltac:(lia) ltac:(lia) own stage t l k n Hrev Htl Hrun)
    as [Hfin Hstuck].
  split_and!; [done|done|]. intros i. done.
Qed.

(** ** Concrete runs *)

(** A codec for countable types, standing in for [encoding/gob]. *)
Definition countable_codec (T : Type) `{Countable T} : Codec T := {|
  gob_encode x := Some [Zpos (encode x)];
  gob_decode data := match data with [Zpos q] => decode q | _ => None end
|}.

Lemma countable_codec_laws (T : Type) `{Countable T} : @CodecLaws T (countable_codec T).
Proof.
  constructor; cbn.
  - eauto.
  - intros x data [= <-]. apply countable.decode_encode.
Qed.

#[local] Instance deck_codec : Codec (list bytes) := countable_codec (list bytes).
#[local] Instance deck_codec_laws : CodecLaws (list bytes) := countable_codec_laws (list bytes).

Definition two_ids : list string := ["alice"; "bob"].
Definition two_keys : list Key := [key_5; key_7].
Definition two_rules : SessionConfig := mkSessionConfig 30000000000 3.

Lemma two_table_ok : table_ok two_ids two_keys.
Proof.
  split_and!; [by apply (bool_decide_unpack _); vm_compute|done|cbn; lia|cbn; lia|].
  repeat constructor; vm_compute; reflexivity.
Qed.

Lemma zero_sources_ok : sources_ok (λ _, zero_rand).
Proof.
  split; [intros _; apply zero_rand_laws|]. intros i j max Hm. unfold rand_Int, zero_rand.
  by rewrite (proj2 (Z.ltb_lt _ _)).
Qed.

Definition two_shuffle : net (res peer_err Node) :=
  mkNet ∅ (shuffle_procs two_ids two_keys PRIME two_rules (λ _, zero_rand) (λ _, 0%nat)).

(** Alice hosts, Bob polls and hosts, Alice fetches. *)
Lemma shuffle_ring_agrees_witness :
  finished (net_after [0; 1; 1; 0]%nat two_shuffle) 0
    (Ok (seat two_ids two_keys PRIME two_rules (final_deck two_ids two_keys PRIME (λ _, zero_rand) (λ _, 0%nat)) 0)).
Proof.
  destruct (shuffle_ring_agrees two_ids two_keys two_rules (λ _, zero_rand) (λ _, 0%nat) 4
    (net_after [0; 1; 1; 0]%nat two_shuffle) two_table_ok zero_sources_ok
    (net_after_run [0; 1; 1; 0]%nat two_shuffle ltac:(vm_compute; reflexivity))) as (_ & _ & Hstuck & _).
  apply Hstuck; [|cbn; lia].
  apply all_returned_stuck. vm_compute. reflexivity.
Defined.

(** Bob's context ends while he waits for Alice. *)
Definition cancelled_shuffle : net (res peer_err Node) :=
  mkNet ∅ (<[1%nat := ("bob", Ret (Err (ErrPoll (ShuffleStepKey 0))))]> (procs two_shuffle)).

Lemma shuffle_cancel_safe_witness :
  is_err (A:=Node) (Err (ErrPoll (ShuffleStepKey 0))) ∨
  Err (ErrPoll (ShuffleStepKey 0))
  = Ok (seat two_ids two_keys PRIME two_rules (final_deck two_ids two_keys PRIME (λ _, zero_rand) (λ _, 0%nat)) 1).
Proof.
  apply (shuffle_cancel_safe two_ids two_keys two_rules (λ _, zero_rand) (λ _, 0%nat) cancelled_shuffle 1
    (Err (ErrPoll (ShuffleStepKey 0))) two_table_ok zero_sources_ok).
  - cbn. lia.
  - apply rtc_once. right.
    apply (step_cancel two_shuffle 1 "bob" "alice" (ShuffleStepKey 0)
      (λ v, match v with None => Ret (Err (ErrPoll (ShuffleStepKey 0))) | Some data =>
        match gob_decode data with
        | None => Ret (Err (ErrDecode (ShuffleStepKey 0)))
        | Some d => @shuffle_step _ zero_rand (seat two_ids two_keys PRIME two_rules [] 1) 0 d
        end end)).
    reflexivity.
  - exists "bob". reflexivity.
Defined.

(** The deal of the unshuffled deck, slot by slot: process [4 * seat + slot]. *)
Definition two_deal : net (res peer_err (option (Z * string))) :=
  mkNet ∅ (all_deal_procs two_ids two_keys PRIME two_rules PRIME_prime buildOrderedDeck).

Lemma hole_deal_correct_witness :
  finished (net_after [4; 5; 0; 1; 2; 3; 6; 7]%nat two_deal) 7 (Ok (Some (3, "4"%string))).
Proof.
  destruct (hole_deal_correct two_ids two_keys two_rules buildOrderedDeck 8
    (net_after [4; 5; 0; 1; 2; 3; 6; 7]%nat two_deal) two_table_ok (Permutation_refl _)
    (net_after_run [4; 5; 0; 1; 2; 3; 6; 7]%nat two_deal ltac:(vm_compute; reflexivity)))
    as (_ & Hstuck & _).
  assert (∀ n', ¬ net_step (net_after [4; 5; 0; 1; 2; 3; 6; 7]%nat two_deal) n') as Hs
    by (apply all_returned_stuck; vm_compute; reflexivity).
  exact (Hstuck Hs 7%nat 1%nat 3%nat eq_refl).
Defined.


Definition two_own (i : nat) : Node := seat two_ids two_keys PRIME two_rules buildOrderedDeck i.

Definition two_turn : net (res peer_err Node) :=
  mkNet ∅ (reveal_procs two_ids two_keys PRIME PRIME_prime buildOrderedDeck two_own RevealTurn 3).

Lemma community_agrees_witness :
  finished (net_after [0; 1; 1; 1; 0]%nat two_turn) 0
    (Ok (board_node two_ids two_keys PRIME PRIME_prime buildOrderedDeck two_own 0 4)).
Proof.
  destruct (community_agrees two_ids two_keys buildOrderedDeck two_own RevealTurn 3 1 5
    (net_after [0; 1; 1; 1; 0]%nat two_turn) two_table_ok (Permutation_refl _)) as (_ & Hstuck & _).
  - right. left.
  - apply (net_after_run [0; 1; 1; 1; 0]%nat two_turn). vm_compute. reflexivity.
  - apply Hstuck; [|cbn; lia]. apply all_returned_stuck. vm_compute. reflexivity.
Defined.
