(* ===== verification/Showdown.v ===== *)
(** * Showdown ([internal/peer/showdown.go])

    Every remaining seat publishes its hole cards with its SRA inverse
    exponent; every node checks the claims against the last hole relays and
    picks the winners.  What the node can read is its own store and [remote],
    the outcome of polling another node; [arrive] is the order in which the
    verifying goroutines append their claims. *)

From Stdlib Require Import ZArith Lia Ascii.
From stdpp Require Import base list gmap strings numbers sorting.
From S2P Require Import Prelude Runtime Strconv Card Eval Ephemeral Deck Net Peer.

#[local] Open Scope Z_scope.

Record ShowdownClaim := mkClaim {
  Seat : Z;
  Card1 : string;
  Card2 : string;
  InvExp : bytes;
}.

#[export] Instance ShowdownClaim_eq_dec : EqDecision ShowdownClaim.
Proof. solve_decision. Defined.

#[export] Instance ShowdownClaim_countable : Countable ShowdownClaim.
Proof.
  refine (inj_countable' (λ c, (Seat c, Card1 c, Card2 c, InvExp c))
            (λ p, mkClaim p.1.1.1 p.1.1.2 p.1.2 p.2) _). by intros [].
Defined.

Record VerifiedClaim := mkVerified { VSeat : Z; VHand : HandRank }.

Record ShowdownResult := mkResult { Winners : list Z; Claims : list VerifiedClaim }.

Inductive showdown_err :=
| ErrFolded
| ErrPublish
| ErrFetch (key : string)
| ErrDecodeClaim
| ErrSeatMismatch (got want : Z)
| ErrEmptyRingAt (slot : Z)
| ErrMismatch (got claimed : string)
| ErrParse (e : card_err)
| ErrHand (e : card_err).

Abbreviation oracle := (string → string → option bytes).

Section showdown.
Context `{GoRuntime} `{Codec ShowdownClaim}.

(** Reading from the local store or from a peer. *)
Definition fetchEphemeral (n : Node) (store : Store) (remote : oracle) (nodeID key : string)
    : res showdown_err bytes :=
  match (if decide (nodeID = nid n) then Get store key else remote nodeID key) with
  | Some v => Ok v
  | None => Err (ErrFetch key)
  end.

Definition verifyClaimCard (n : Node) (store : Store) (remote : oracle) (ownerSeat slot : Z)
    (claimed : string) (invExp : Z) : res showdown_err unit :=
  let ring := nonOwnerRing (Z.of_nat (length (Order n))) ownerSeat in
  if Z.of_nat (length ring) =? 0 then Err (ErrEmptyRingAt slot)
  else
    lastStripper ← idx ring (Z.of_nat (length ring) - 1);
    lastID ← idx (Order n) lastStripper;
    data ← fetchEphemeral n store remote lastID (HoleRelayKey slot lastStripper);
    let m := Exp (SetBytes data) invExp (prime n) in
    let got := of_bytes (big_Bytes m) in
    if decide (got = claimed) then Ok tt else Err (ErrMismatch got claimed).

(** The cards of the loop over the board, the unrevealed slots skipped. *)
Definition board_strings (n : Node) : list string :=
  filter (λ s, s ≠ EmptyString) (CommunityCards n).

Definition pollAndVerifyClaim (n : Node) (store : Store) (remote : oracle) (seat : Z) (nodeID : string)
    : res showdown_err VerifiedClaim :=
  data ← fetchEphemeral n store remote nodeID (ShowdownClaimKey seat);
  claim ← match gob_decode data with Some c => Ok c | None => Err ErrDecodeClaim end;
  if negb (Seat claim =? seat) then Err (ErrSeatMismatch (Seat claim) seat)
  else
    let invExp := SetBytes (InvExp claim) in
    _ ← verifyClaimCard n store remote seat (2 * seat) (Card1 claim) invExp;
    _ ← verifyClaimCard n store remote seat (2 * seat + 1) (Card2 claim) invExp;
    holes ← wrap_err ErrParse (ParseDeckStrings [Card1 claim; Card2 claim]);
    board ← wrap_err ErrParse (ParseDeckStrings (board_strings n));
    hr ← wrap_err ErrHand (Best (holes ++ board));
    Ok (mkVerified seat hr).

Definition showdown_claim (n : Node) : ShowdownClaim :=
  mkClaim (u8 (SeatIdx n)) (card1 n) (card2 n) (big_Bytes (InverseExponent (modKey n))).

Definition publishShowdownClaim (n : Node) (store : Store) : res showdown_err Store :=
  match gob_encode (showdown_claim n) with
  | None => Err ErrPublish
  | Some data => Ok (Put store (ShowdownClaimKey (SeatIdx n)) data)
  end.

(** The loop over [n.Order]: the seats that have not folded, with their ids;
    [folded[seat]] panics beyond the slice. *)
Fixpoint open_seats (order : list string) (folded : list bool) (seat : Z)
    : res showdown_err (list (Z * string)) :=
  match order with
  | [] => Ok []
  | id :: order =>
      f ← idx folded seat;
      rest ← open_seats order folded (seat + 1);
      Ok (if (f : bool) then rest else (seat, id) :: rest)
  end.

(** What the goroutines of the seats add to [claims]; an invalid claim is
    reported and dropped. *)
Fixpoint collect_claims (n : Node) (store : Store) (remote : oracle) (seats : list (Z * string))
    : res showdown_err (list VerifiedClaim) :=
  match seats with
  | [] => Ok []
  | (seat, nodeID) :: seats =>
      rest ← collect_claims n store remote seats;
      match pollAndVerifyClaim n store remote seat nodeID with
      | Ok vc => Ok (vc :: rest)
      | Err _ => Ok rest
      | Panic => Panic
      end
  end.

Definition seat_less (a b : VerifiedClaim) : bool := VSeat a <? VSeat b.

(** The loop that picks the winners, over [claims[1:]]. *)
Fixpoint pick_winners (best : VerifiedClaim) (winners : list Z) (claims : list VerifiedClaim) : list Z :=
  match claims with
  | [] => winners
  | c :: claims =>
      let cmp := Compare (VHand c) (VHand best) in
      if cmp =? 1 then pick_winners c [VSeat c] claims
      else if cmp =? 0 then pick_winners best (winners ++ [VSeat c]) claims
      else pick_winners best winners claims
  end.

(** From the collected claims to the result. *)
Definition judge (claims : list VerifiedClaim) : ShowdownResult :=
  match sort_slice seat_less claims with
  | [] => mkResult [] []
  | best :: rest => mkResult (pick_winners best [VSeat best] rest) (best :: rest)
  end.

Definition RunShowdown (arrive : list VerifiedClaim → list VerifiedClaim) (n : Node) (store : Store)
    (remote : oracle) (folded : list bool) : res showdown_err (Store * ShowdownResult) :=
  if Z.of_nat (length folded) <=? SeatIdx n then Err ErrFolded
  else
    f ← idx folded (SeatIdx n);
    store ← (if (f : bool) then Ok store else publishShowdownClaim n store);
    seats ← open_seats (Order n) folded 0;
    claims ← collect_claims n store remote seats;
    Ok (store, judge (arrive claims)).

End showdown.
