(* ===== verification/ShowdownProps.v ===== *)
(** * Showdown: theorems *)

From Stdlib Require Import ZArith Lia Ascii ZmodInv.
From stdpp Require Import base list gmap strings numbers sorting.
From S2P Require Import Prelude Runtime Strconv Card Eval EvalProofs EvalProps Ephemeral Deck DeckProofs DeckProps.
From S2P Require Import Net Peer PeerProofs PeerProps Showdown.

#[local] Open Scope Z_scope.
#[local] Existing Instance Key_inhabited.

(** ** Picking the winners *)

(** Hands as [Best] makes them: five tie-breakers. *)
Definition hand_wf (c : VerifiedClaim) : Prop := length (Tiebreakers (VHand c)) = 5%nat.

(** A claim that no claim of the list beats. *)
Definition unbeaten (claims : list VerifiedClaim) (c : VerifiedClaim) : Prop :=
  Forall (λ d, Compare (VHand d) (VHand c) ≤ 0) claims.

#[export] Instance unbeaten_dec claims c : Decision (unbeaten claims c).
Proof. unfold unbeaten. apply _. Defined.

Lemma Compare_cases a b : Compare a b = 1 ∨ Compare a b = 0 ∨ Compare a b = -1.
Proof.
  rewrite Compare_key. generalize (rank_key a) as x, (rank_key b) as y. induction x as [|u x IH]; intros [|v y]; cbn; auto.
  zcases; cbn [negb]; zcases; auto.
Qed.

Lemma Compare_sym a b : Compare b a = - Compare a b.
Proof. rewrite !Compare_key. apply compare_ties_antisym. Qed.

Lemma Compare_le_trans a b c :
  length (Tiebreakers a) = 5%nat → length (Tiebreakers b) = 5%nat → length (Tiebreakers c) = 5%nat →
  Compare a b ≤ 0 → Compare b c ≤ 0 → Compare a c ≤ 0.
Proof.
  intros Ha Hb Hc H1 H2.
  pose proof (Compare_sym a b). pose proof (Compare_sym b c). pose proof (Compare_sym a c).
  assert (0 ≤ Compare c a); [|lia]. rewrite !Compare_key in *.
  apply (compare_ties_trans _ (rank_key b)); cbn in *; lia.
Qed.

Lemma unbeaten_snoc seen c x :
  unbeaten (seen ++ [c]) x ↔ unbeaten seen x ∧ Compare (VHand c) (VHand x) ≤ 0.
Proof. unfold unbeaten. rewrite Forall_app, list.Forall_singleton. done. Qed.

Lemma unbeaten_elem claims c d : unbeaten claims c → d ∈ claims → Compare (VHand d) (VHand c) ≤ 0.
Proof. unfold unbeaten. rewrite list.Forall_forall. auto. Qed.

(** One iteration: the unbeaten claims when [c] joins claims whose best is
    [best]. *)
Section iteration.
Context (seen : list VerifiedClaim) (best c : VerifiedClaim).
Context (Hseen : Forall hand_wf seen) (Hwc : hand_wf c) (Hin : best ∈ seen) (Hub : unbeaten seen best).

Lemma seen_wf x : x ∈ seen → hand_wf x.
Proof. rewrite list.Forall_forall in Hseen. auto. Qed.

Lemma newcomer_unbeaten : 0 ≤ Compare (VHand c) (VHand best) → unbeaten (seen ++ [c]) c.
Proof.
  intros Hc. apply unbeaten_snoc. split; [|pose proof (Compare_sym (VHand c) (VHand c)); lia].
  apply list.Forall_forall. intros x Hx. pose proof (Compare_sym (VHand c) (VHand best)).
  apply (Compare_le_trans _ (VHand best)); [by apply seen_wf|by apply seen_wf|done|by eapply unbeaten_elem|lia].
Qed.

Lemma filter_better :
  Compare (VHand c) (VHand best) = 1 → filter (unbeaten (seen ++ [c])) (seen ++ [c]) = [c].
Proof.
  intros Hc. rewrite filter_app, (filter_singleton_True _ c []) by (apply newcomer_unbeaten; lia).
  rewrite filter_none; [done|]. intros x Hx [_ Hcx]%unbeaten_snoc.
  assert (Compare (VHand c) (VHand best) ≤ 0); [|lia].
  apply (Compare_le_trans _ (VHand x)); [done|by apply seen_wf|by apply seen_wf|done|by eapply unbeaten_elem].
Qed.

Lemma filter_old :
  Compare (VHand c) (VHand best) ≤ 0 → filter (unbeaten (seen ++ [c])) seen = filter (unbeaten seen) seen.
Proof.
  intros Hc. apply filter_ext_in. intros x Hx. rewrite unbeaten_snoc. split; [by intros [? _]|].
  intros Hx'. split; [done|].
  apply (Compare_le_trans _ (VHand best)); [done|by apply seen_wf|by apply seen_wf|done|by eapply unbeaten_elem].
Qed.

Lemma best_stays : Compare (VHand c) (VHand best) ≤ 0 → unbeaten (seen ++ [c]) best.
Proof. intros. by apply unbeaten_snoc. Qed.

Lemma filter_tied :
  Compare (VHand c) (VHand best) = 0 →
  filter (unbeaten (seen ++ [c])) (seen ++ [c]) = filter (unbeaten seen) seen ++ [c].
Proof.
  intros Hc. rewrite filter_app, (filter_singleton_True _ c []) by (apply newcomer_unbeaten; lia).
  by rewrite filter_old by lia.
Qed.

Lemma filter_worse :
  Compare (VHand c) (VHand best) = -1 →
  filter (unbeaten (seen ++ [c])) (seen ++ [c]) = filter (unbeaten seen) seen.
Proof.
  intros Hc. rewrite filter_app, filter_old by lia. rewrite (filter_singleton_False _ c []), app_nil_r; [done|].
  intros [Hx _]%unbeaten_snoc. pose proof (unbeaten_elem _ _ _ Hx Hin) as Hle.
  pose proof (Compare_sym (VHand c) (VHand best)). lia.
Qed.

End iteration.

(** The loop keeps the winners of the claims seen so far. *)
Lemma pick_winners_spec seen best claims :
  Forall hand_wf (seen ++ claims) → best ∈ seen → unbeaten seen best →
  pick_winners best (VSeat <$> filter (unbeaten seen) seen) claims
  = VSeat <$> filter (unbeaten (seen ++ claims)) (seen ++ claims).
Proof.
  revert seen best. induction claims as [|c claims IH]; intros seen best Hwf Hin Hub.
  { by rewrite app_nil_r. }
  assert (Forall hand_wf seen ∧ hand_wf c) as [Hs Hc].
  { apply Forall_app in Hwf as [? Hwf]. split; [done|]. by apply list.Forall_cons in Hwf as [? _]. }
  replace (seen ++ c :: claims) with ((seen ++ [c]) ++ claims) in * by (by rewrite <- app_assoc).
  cbn [pick_winners]. destruct (Compare_cases (VHand c) (VHand best)) as [Hcmp|[Hcmp|Hcmp]];
    rewrite Hcmp; cbn [Z.eqb Pos.eqb].
  - rewrite <- (IH (seen ++ [c]) c); [by rewrite (filter_better seen best c)|done|set_solver|].
    apply (newcomer_unbeaten seen best c); done || lia.
  - rewrite <- (IH (seen ++ [c]) best); [|done|set_solver|apply best_stays; done || lia].
    by rewrite (filter_tied seen best c), fmap_app by done.
  - rewrite <- (IH (seen ++ [c]) best); [|done|set_solver|apply best_stays; done || lia].
    by rewrite (filter_worse seen best c) by done.
Qed.

(** ** The judgement *)

#[export] Instance unbeaten_proper : Proper (Permutation ==> (=) ==> iff) unbeaten.
Proof. intros l1 l2 Hp c ? <-. unfold unbeaten. by rewrite Hp. Qed.

Lemma seat_less_weak : weak_order seat_less.
Proof. unfold seat_less. split; intros x y; intros; zcases; try done; lia. Qed.

Lemma seats_separate (claims : list VerifiedClaim) x y :
  NoDup (VSeat <$> claims) → x ∈ claims → y ∈ claims →
  seat_less x y = false → seat_less y x = false → x = y.
Proof.
  intros Hnd Hx Hy H1 H2. unfold seat_less in *. apply list_elem_of_lookup in Hx as [i Hi], Hy as [j Hj].
  assert (i = j) as ->; [|congruence].
  eapply (NoDup_lookup (VSeat <$> claims) i j (VSeat x)); [done|by rewrite list_lookup_fmap, Hi|].
  rewrite list_lookup_fmap, Hj. cbn. f_equal. zcases; done || lia.
Qed.

Lemma judge_spec (RT : GoRuntime) (L : @RuntimeLaws RT) claims :
  Forall hand_wf claims →
  judge claims = mkResult (VSeat <$> filter (unbeaten claims) (sort_slice seat_less claims))
                   (sort_slice seat_less claims).
Proof.
  intros Hwf. unfold judge. pose proof (sort_perm _ seat_less claims) as Hp.
  rewrite <- Hp in Hwf. destruct (sort_slice seat_less claims) as [|best rest] eqn:Hs; [done|].
  f_equal. assert (filter (unbeaten claims) (best :: rest) = filter (unbeaten (best :: rest)) (best :: rest)) as ->.
  { apply filter_ext_in. intros x _. by rewrite <- Hp. }
  pose proof (Compare_sym (VHand best) (VHand best)).
  assert (unbeaten [best] best) as Hb by (unfold unbeaten; apply list.Forall_singleton; lia).
  pose proof (pick_winners_spec [best] best rest Hwf ltac:(by left) Hb) as Hpw.
  by rewrite (filter_singleton_True _ best []) in Hpw.
Qed.

Lemma exists_unbeaten claims :
  Forall hand_wf claims → claims ≠ [] → ∃ c, c ∈ claims ∧ unbeaten claims c.
Proof.
  induction claims as [|c claims IH]; intros Hwf Hne; [done|]. apply list.Forall_cons in Hwf as [Hc Hwf].
  pose proof (Compare_sym (VHand c) (VHand c)) as Hcc.
  destruct claims as [|d claims]; [exists c; split; [left|]; apply list.Forall_singleton; lia|].
  destruct IH as (b & Hb & Hub); [done..|]. pose proof (Compare_sym (VHand c) (VHand b)) as Hcb.
  assert (∀ x, x ∈ d :: claims → hand_wf x) as Hw by (by apply list.Forall_forall).
  destruct (Z.le_gt_cases (Compare (VHand c) (VHand b)) 0).
  - exists b. split; [by right|]. unfold unbeaten. by apply list.Forall_cons.
  - exists c. split; [left|]. unfold unbeaten. apply list.Forall_cons. split; [lia|].
    apply list.Forall_forall. intros x Hx.
    apply (Compare_le_trans _ (VHand b)); [by apply Hw|by apply Hw|done|by eapply unbeaten_elem|lia].
Qed.

(** The showdown picks exactly the best hands, and all nodes pick the
    same.  From the same verified claims (one per seat), whatever the order in
    which they arrived and whatever the runtime's sort does, [judge] returns
    the same result: the claims by seat, and as winners exactly the seats that
    no claim beats, at least one when there is a claim. *)
Theorem showdown_winners (R1 R2 : GoRuntime) (L1 : @RuntimeLaws R1) (L2 : @RuntimeLaws R2) claims1 claims2 :
  claims1 ≡ₚ claims2 → NoDup (VSeat <$> claims1) → Forall hand_wf claims1 →
  @judge R1 claims1 = @judge R2 claims2 ∧
  Claims (@judge R1 claims1) ≡ₚ claims1 ∧
  Winners (@judge R1 claims1) = VSeat <$> filter (unbeaten claims1) (Claims (@judge R1 claims1)) ∧
  (claims1 ≠ [] → Winners (@judge R1 claims1) ≠ []).
Proof.
  intros Hp Hnd Hwf. assert (Forall hand_wf claims2) as Hwf2 by (by rewrite <- Hp).
  rewrite (judge_spec R1 L1), (judge_spec R2 L2) by done. cbn [Claims Winners].
  assert (@sort_slice R1 _ seat_less claims1 = @sort_slice R2 _ seat_less claims2) as Hs.
  { apply (sorted_unique seat_less).
    - intros x y. rewrite !(@sort_perm R1 L1). by apply seats_separate.
    - apply (@sort_sorted R1 L1), seat_less_weak.
    - apply (@sort_sorted R2 L2), seat_less_weak.
    - by rewrite (@sort_perm R1 L1), (@sort_perm R2 L2). }
  split_and!; [| |done|].
  - rewrite Hs. f_equal. f_equal. apply filter_ext_in. intros x _. by rewrite Hp.
  - apply (@sort_perm R1 L1).
  - intros Hne Hnil. destruct (exists_unbeaten claims1 Hwf Hne) as (c & Hc & Hu).
    assert (VSeat c ∈ VSeat <$> filter (unbeaten claims1) (@sort_slice R1 _ seat_less claims1)) as Hin.
    { apply list_elem_of_fmap_2, list_elem_of_filter. split; [done|]. by rewrite (@sort_perm R1 L1). }
    rewrite Hnil in Hin. by apply elem_of_nil in Hin.
Qed.

(** ** Claims at an honest table *)

Section table.
Context (ids : list string) (ks : list Key) (sc : SessionConfig) (pts : list bytes).
Context (Ht : table_ok ids ks) (Hpts : pts ≡ₚ buildOrderedDeck).

(** Seat [i] after the deal, and when [t] board cards are out. *)
Definition hole_node (i : nat) : Node :=
  set_cards (of_bytes (pts !!! (2 * i)%nat)) (of_bytes (pts !!! (2 * i + 1)%nat))
    (seat ids ks PRIME sc (layered_deck ks PRIME PRIME_prime pts) i).
Definition dealt_node (i t : nat) : Node := board_node ids ks PRIME PRIME_prime pts hole_node i t.

(** The indices of the seven cards seat [j] plays with. *)
Definition seven (j : nat) : list nat :=
  [2 * j; 2 * j + 1]%nat ++ ((λ t, 2 * length ids + t)%nat <$> seq 0 5).

(** Reading a hole relay from the last stripper of a slot, as the deal left
    it. *)
Definition relays_served (n : Node) (store : Store) (remote : oracle) : Prop :=
  ∀ s l, (s < 2 * length ids)%nat → (l < length ids)%nat → l ≠ (s / 2)%nat →
    fetchEphemeral n store remote (ids !!! l) (HoleRelayKey (Z.of_nat s) (Z.of_nat l))
    = Ok (hole_value ks PRIME PRIME_prime pts s l).

Lemma table_facts :
  NoDup ids ∧ length ks = length ids ∧ (2 ≤ length ids ≤ 23)%nat ∧ Forall (key_ok PRIME) ks ∧
  Forall (residue PRIME) pts ∧ NoDup pts ∧ length pts = 52%nat.
Proof using Ht Hpts. destruct Ht as (? & ? & ? & ?). destruct (perm_deck pts Hpts) as (? & ? & ?). done. Qed.

(** A check of one claimed card amounts to a power of the owner's ciphertext. *)
Lemma verifyClaimCard_relay n store remote j s claimed e :
  Order n = ids → prime n = PRIME → relays_served n store remote →
  (j < length ids)%nat → (s / 2)%nat = j → (s < 2 * length ids)%nat →
  let got := of_bytes (big_Bytes (Exp (SetBytes (encrypt_card (pts !!! s) (ks !!! j) PRIME)) e PRIME)) in
  verifyClaimCard n store remote (Z.of_nat j) (Z.of_nat s) claimed e
  = if decide (got = claimed) then Ok tt else Err (ErrMismatch got claimed).
Proof using Ht Hpts.
  intros Ho Hpr Hserved Hj Hs Hsl. cbn zeta. destruct table_facts as (Hnd & Hlen & Hsize & Hks & Hres & Hndp & Hlp).
  unfold verifyClaimCard. rewrite Ho, Hpr.
  destruct (ring_last j (length ids)) as (l & Hl & Hlj & Hidx & Hall); [done|lia|].
  assert (length (nonOwnerRing (Z.of_nat (length ids)) (Z.of_nat j)) = (length ids - 1)%nat) as Hlr.
  { rewrite nonOwnerRing_others, length_fmap. by apply length_others. }
  rewrite (proj2 (Z.eqb_neq _ _)) by lia.
  assert (idx (E:=showdown_err) (nonOwnerRing (Z.of_nat (length ids)) (Z.of_nat j))
    (Z.of_nat (length (nonOwnerRing (Z.of_nat (length ids)) (Z.of_nat j))) - 1) = Ok (Z.of_nat l)) as ->.
  { apply idx_Ok. by apply idx_Ok in Hidx. }
  cbn [mbind res_bind]. rewrite idx_ids by done. cbn [mbind res_bind].
  rewrite Hserved by (done || lia). cbn [mbind res_bind].
  assert (slot_owner s = j) as Hso by done.
  rewrite (hole_value_last ids ks PRIME Hlen ltac:(lia) PRIME_prime Hks pts Hres ltac:(lia) s l Hsl)
    by (by rewrite Hso).
  by rewrite Hso.
Qed.

(** The wire strings of dealt cards parse to distinct cards. *)
Lemma deck_card i : (i < 52)%nat → ∃ cd, card_wf cd ∧ of_bytes (pts !!! i) = DeckString cd.
Proof using Ht Hpts.
  intros Hi. destruct table_facts as (_ & _ & _ & _ & _ & _ & Hlp).
  apply ordered_deck_cards. rewrite <- Hpts. eapply list_elem_of_lookup_2, list_lookup_lookup_total_lt. lia.
Qed.

Lemma parse_cards (xs : list nat) :
  Forall (λ i, (i < 52)%nat) xs →
  ∃ cs, ParseDeckStrings ((λ i, of_bytes (pts !!! i)) <$> xs) = Ok cs ∧ Forall card_wf cs ∧
    (DeckString <$> cs) = (λ i, of_bytes (pts !!! i)) <$> xs.
Proof using Ht Hpts.
  induction 1 as [|i l Hi Hl IH]; [by exists []|]. destruct IH as (cs & Hp & Hwf & Hs).
  destruct (deck_card i Hi) as (cd & Hcd & Hstr). exists (cd :: cs). cbn. rewrite Hstr.
  rewrite ParseDeckString_DeckString by done. cbn. rewrite Hp. cbn. split_and!; [done|by constructor|]. by rewrite Hs.
Qed.

(** The wire strings of the deck are pairwise different and not empty. *)
Lemma deck_strings : NoDup (of_bytes <$> pts) ∧ EmptyString ∉ (of_bytes <$> pts).
Proof using Hpts.
  rewrite Hpts. split; apply (bool_decide_unpack _); vm_compute; reflexivity.
Qed.

Lemma deck_string_at i : (i < 52)%nat → (of_bytes <$> pts) !! i = Some (of_bytes (pts !!! i)).
Proof using Ht Hpts.
  intros Hi. destruct table_facts as (_ & _ & _ & _ & _ & _ & Hlp).
  by rewrite list_lookup_fmap, list_lookup_lookup_total_lt by lia.
Qed.

Lemma strings_NoDup (xs : list nat) :
  NoDup xs → Forall (λ i, (i < 52)%nat) xs → NoDup ((λ i, of_bytes (pts !!! i)) <$> xs).
Proof using Ht Hpts.
  intros Hn Hall. destruct deck_strings as [Hnd _]. apply NoDup_fmap_2_strong; [|done].
  rewrite list.Forall_forall in Hall. intros x y Hx Hy Heq.
  eapply (NoDup_lookup (of_bytes <$> pts)); [done|by apply deck_string_at, Hall|].
  rewrite Heq. by apply deck_string_at, Hall.
Qed.

Lemma seven_ok j : (j < length ids)%nat → NoDup (seven j) ∧ Forall (λ i, (i < 52)%nat) (seven j).
Proof using Ht.
  intros Hj. destruct Ht as (_ & _ & Hsize & _). unfold seven. cbn [seq fmap list_fmap app]. split.
  - repeat (apply NoDup_cons; split; [rewrite ?elem_of_cons, elem_of_nil; lia|]). apply NoDup_nil_2.
  - repeat (apply Forall_cons_2; [lia|]). constructor.
Qed.

Lemma board_strings_dealt i :
  board_strings (dealt_node i 5) = (λ t, of_bytes (pts !!! (2 * length ids + t)%nat)) <$> seq 0 5.
Proof using Ht Hpts.
  destruct table_facts as (_ & _ & Hsize & _). destruct deck_strings as [_ He].
  unfold board_strings. change (CommunityCards (dealt_node i 5)) with
    ((λ t, of_bytes (pts !!! (2 * length ids + t)%nat)) <$> seq 0 5).
  apply filter_all. intros x (t & -> & Ht5%elem_of_seq)%list_elem_of_fmap.
  intros Hx. apply He. rewrite <- Hx. eapply list_elem_of_lookup_2, deck_string_at. lia.
Qed.

(** The owner's inverse exponent opens the last relay. *)
Lemma open_relay j s :
  (j < length ids)%nat → (s < 52)%nat →
  big_Bytes (Exp (SetBytes (encrypt_card (pts !!! s) (ks !!! j) PRIME)) (InverseExponent (ks !!! j)) PRIME)
  = pts !!! s.
Proof using Ht Hpts.
  intros Hj Hs. destruct table_facts as (_ & Hlen & Hsize & Hks & Hres & _ & Hlp).
  assert (residue PRIME (pts !!! s)) as Hr.
  { rewrite list.Forall_forall in Hres. eapply Hres, list_elem_of_lookup_2, list_lookup_lookup_total_lt. lia. }
  apply (@cc_dec_enc _ _ (sra_cipher PRIME PRIME_prime)); [|done]. by apply (key_at ids ks PRIME Hlen ltac:(lia) Hks).
Qed.

End table.

(** An honest claim is accepted.  After the deal and the river, with the
    hole relays still served, every seat [i] that reads the claim published by
    seat [j] accepts it, and the hand it records is [Best] of [j]'s two hole
    cards and the five board cards, seven different real cards. *)
Lemma claim_accepted `{RuntimeLaws} `{Codec ShowdownClaim} ids ks sc pts i j store remote data :
  table_ok ids ks → pts ≡ₚ buildOrderedDeck → (i < length ids)%nat → (j < length ids)%nat →
  relays_served ids ks pts (dealt_node ids ks sc pts i 5) store remote →
  fetchEphemeral (dealt_node ids ks sc pts i 5) store remote (ids !!! j) (ShowdownClaimKey (Z.of_nat j)) = Ok data →
  gob_decode data = Some (showdown_claim (dealt_node ids ks sc pts j 5)) →
  ∃ cards hr,
    DeckString <$> cards = (λ s, of_bytes (pts !!! s)) <$> seven ids j ∧
    NoDup cards ∧ Forall card_wf cards ∧ Best cards = Ok hr ∧
    pollAndVerifyClaim (dealt_node ids ks sc pts i 5) store remote (Z.of_nat j) (ids !!! j)
    = Ok (mkVerified (Z.of_nat j) hr).
Proof.
  intros Ht Hpts Hi Hj Hserved Hfetch Hdec. destruct (table_facts _ _ _ Ht Hpts) as (_ & Hlen & Hsize & Hks & _).
  destruct (seven_ok ids ks Ht j Hj) as [Hnd7 Hall7].
  assert (Forall (λ s, (s < 52)%nat) [2 * j; 2 * j + 1]%nat ∧
    Forall (λ s, (s < 52)%nat) ((λ t, 2 * length ids + t)%nat <$> seq 0 5)) as [Hall2 Hall5]
    by (by apply Forall_app).
  destruct (parse_cards ids ks pts Ht Hpts _ Hall2) as (hole & Hhole & Hwf2 & Hs2).
  destruct (parse_cards ids ks pts Ht Hpts _ Hall5) as (board & Hboard & Hwf5 & Hs5).
  assert (DeckString <$> (hole ++ board) = (λ s, of_bytes (pts !!! s)) <$> seven ids j) as Hstr
    by (unfold seven; by rewrite !fmap_app, Hs2, Hs5).
  assert (NoDup (hole ++ board)) as Hnd.
  { apply (NoDup_fmap_1 DeckString). rewrite Hstr. by apply (strings_NoDup ids ks pts Ht Hpts). }
  assert (length (hole ++ board) = 7%nat) as Hlen7.
  { rewrite <- (length_fmap DeckString), Hstr. done. }
  assert (Forall card_wf (hole ++ board)) as Hwf by (by apply Forall_app).
  destruct (Best_max (hole ++ board)) as (hr & Hbest & _); [lia|done..|].
  exists (hole ++ board), hr. split_and!; [done..|].
  unfold pollAndVerifyClaim. rewrite Hfetch. cbn [mbind res_bind]. rewrite Hdec. cbn [mbind res_bind].
  destruct (key_at ids ks PRIME Hlen ltac:(lia) Hks j Hj) as [_ (_ & Hinv & _)].
  change (InvExp (showdown_claim (dealt_node ids ks sc pts j 5))) with (big_Bytes (InverseExponent (ks !!! j))).
  rewrite SetBytes_Bytes by lia. cbn [showdown_claim Seat Card1 Card2].
  change (SeatIdx (dealt_node ids ks sc pts j 5)) with (Z.of_nat j).
  unfold u8. rewrite Z.mod_small by lia. rewrite Z.eqb_refl. cbn [negb].
  replace (2 * Z.of_nat j) with (Z.of_nat (2 * j)) by lia.
  replace (Z.of_nat (2 * j) + 1) with (Z.of_nat (2 * j + 1)) by lia.
  rewrite !(verifyClaimCard_relay ids ks pts Ht Hpts) by
    (done || lia || (rewrite Nat.mul_comm; apply Nat.div_mul; lia)
     || (rewrite Nat.mul_comm, Nat.div_add_l by lia; cbn; lia)).
  rewrite !(open_relay ids ks pts Ht Hpts) by (done || lia).
  change (card1 (dealt_node ids ks sc pts j 5)) with (of_bytes (pts !!! (2 * j)%nat)).
  change (card2 (dealt_node ids ks sc pts j 5)) with (of_bytes (pts !!! (2 * j + 1)%nat)).
  rewrite !decide_True by done. cbn [mbind res_bind].
  cbn [fmap list_fmap] in Hhole. rewrite Hhole, (board_strings_dealt ids ks sc pts Ht Hpts). rewrite <- list_fmap_compose in Hboard.
  unfold compose in Hboard. rewrite Hboard. cbn [wrap_err mbind res_bind]. by rewrite Hbest.
Qed.

(** The exponent that turns "1" into "39" and leaves "52" alone. *)
Lemma forge_exponent : Exp (SetBytes [49]) 11611 PRIME = SetBytes [51; 57] ∧
  Exp (SetBytes [53; 50]) 11611 PRIME = SetBytes [53; 50].
Proof. split; vm_compute; reflexivity. Qed.

Lemma forged_power k m t :
  key_ok PRIME k → residue PRIME m → 0 ≤ t →
  Exp (SetBytes (encrypt_card m k PRIME)) (InverseExponent k * t) PRIME = Exp (SetBytes m) t PRIME.
Proof.
  intros Hk [Hm _] Ht. pose proof PRIME_prime as Hp. pose proof Hk as (He & Hd & Hm1).
  rewrite (SetBytes_encrypt _ Hp) by lia.
  rewrite (Exp_Exp _ Hp), Exp_pow by (done || lia || nia).
  apply (pow_mod_phi _ Hp); [done|nia|done|].
  replace (Exponent k * (InverseExponent k * t)) with ((Exponent k * InverseExponent k) * t) by lia.
  by rewrite Z.mul_mod, Hm1, <- Z.mul_mod, Z.mul_1_l by done.
Qed.

(** A forged claim passes.  The inverse exponent in a claim is not bound
    to the key the claimant encrypted with: at an honest table, a seat that was
    dealt the two of clubs and the ace of spades passes both card checks with
    the ace of hearts in place of the two of clubs, by claiming [11611] times
    its inverse exponent. *)
Theorem forged_claim_accepted ids ks sc pts i j store remote :
  table_ok ids ks → pts ≡ₚ buildOrderedDeck → (i < length ids)%nat → (j < length ids)%nat →
  relays_served ids ks pts (dealt_node ids ks sc pts i 5) store remote →
  pts !!! (2 * j)%nat = [49] → pts !!! (2 * j + 1)%nat = [53; 50] →
  let verify slot card := verifyClaimCard (dealt_node ids ks sc pts i 5) store remote (Z.of_nat j) slot card
                            (InverseExponent (ks !!! j) * 11611) in
  card1 (dealt_node ids ks sc pts j 5) = DeckString (mkCard Clubs Two) ∧
  verify (2 * Z.of_nat j) (DeckString (mkCard Hearts Ace)) = Ok tt ∧
  verify (2 * Z.of_nat j + 1) (DeckString (mkCard Spades Ace)) = Ok tt.
Proof.
  intros Ht Hpts Hi Hj Hserved H1 H2 verify. destruct (table_facts _ _ _ Ht Hpts) as (_ & Hlen & Hsize & Hks & _).
  destruct (key_at ids ks PRIME Hlen ltac:(lia) Hks j Hj) as [_ Hk]. split.
  { change (of_bytes (pts !!! (2 * j)%nat) = DeckString (mkCard Clubs Two)). by rewrite H1. }
  subst verify. cbn zeta. replace (2 * Z.of_nat j) with (Z.of_nat (2 * j)) by lia.
  replace (Z.of_nat (2 * j) + 1) with (Z.of_nat (2 * j + 1)) by lia.
  rewrite !(verifyClaimCard_relay ids ks pts Ht Hpts) by
    (done || lia || (rewrite Nat.mul_comm; apply Nat.div_mul; lia)
     || (rewrite Nat.mul_comm, Nat.div_add_l by lia; cbn; lia)).
  rewrite H1, H2, !forged_power by
    (done || (split_and!; vm_compute; reflexivity)).
  destruct forge_exponent as [-> ->]. done.
Qed.

(** ** Concrete showdowns *)

Definition claim_codec : Codec ShowdownClaim := countable_codec ShowdownClaim.

(** A deck whose first card is the two of clubs and whose second the ace of
    spades. *)
Definition swapped_deck : list bytes :=
  [49] :: [53; 50] :: filter (λ c, c ≠ [49] ∧ c ≠ [53; 50]) buildOrderedDeck.

Lemma swapped_deck_perm : swapped_deck ≡ₚ buildOrderedDeck.
Proof.
  apply NoDup_Permutation; [apply (bool_decide_unpack _); vm_compute; reflexivity..|].
  intros x. unfold swapped_deck. rewrite !elem_of_cons, list_elem_of_filter.
  assert ([49] ∈ buildOrderedDeck ∧ [53; 50] ∈ buildOrderedDeck) as [? ?]
    by (split; apply (bool_decide_unpack _); vm_compute; reflexivity).
  destruct (decide (x = [49])), (decide (x = [53; 50])); naive_solver.
Qed.

(** Alice hosts the relays of Bob's slots; Bob those of Alice's slots and his
    claim, which come over the network. *)
Definition relay_store (pts : list bytes) (stripper : nat) (slots : list nat) : Store :=
  foldr (λ s st, Put st (HoleRelayKey (Z.of_nat s) (Z.of_nat stripper))
                   (hole_value two_keys PRIME PRIME_prime pts s stripper)) New slots.

Definition bob_claim (pts : list bytes) : bytes :=
  default [] (@gob_encode _ claim_codec (showdown_claim (dealt_node two_ids two_keys two_rules pts 1 5))).

Definition bob_serves (pts : list bytes) : oracle := λ id key,
  if decide (id = "bob") then
    Get (Put (relay_store pts 1 [0; 1]%nat) (ShowdownClaimKey 1) (bob_claim pts)) key
  else None.

Lemma two_relays_served pts :
  relays_served two_ids two_keys pts (dealt_node two_ids two_keys two_rules pts 0 5) (relay_store pts 0 [2; 3]%nat)
    (bob_serves pts).
Proof.
  intros s l Hs Hl Hne. cbn in Hs, Hl.
  destruct s as [|[|[|[|]]]]; [..|lia]; destruct l as [|[|]]; try lia; cbn in Hne; done || reflexivity.
Qed.

Definition deuce_hand : HandRank := mkHandRank HighCard [14; 9; 7; 5; 2] [].
Definition pair_hand : HandRank := mkHandRank OnePair [14; 13; 9; 7; 0] [].

Lemma showdown_winners_witness :
  Winners (@judge insertion_runtime [mkVerified 2 pair_hand; mkVerified 1 deuce_hand; mkVerified 0 pair_hand])
  = [0; 2].
Proof.
  destruct (showdown_winners insertion_runtime insertion_runtime insertion_laws insertion_laws
    [mkVerified 2 pair_hand; mkVerified 1 deuce_hand; mkVerified 0 pair_hand]
    [mkVerified 2 pair_hand; mkVerified 1 deuce_hand; mkVerified 0 pair_hand])
    as (_ & _ & -> & _).
  - apply Permutation_refl.
  - apply (bool_decide_unpack _). vm_compute. reflexivity.
  - repeat constructor.
  - vm_compute. reflexivity.
Defined.

Lemma forged_claim_accepted_witness :
  verifyClaimCard (dealt_node two_ids two_keys two_rules swapped_deck 0 5) (relay_store swapped_deck 0 [2; 3]%nat)
    (bob_serves swapped_deck) 0 0 "39" (8171 * 11611) = Ok tt.
Proof.
  destruct (forged_claim_accepted two_ids two_keys two_rules swapped_deck 0 0 (relay_store swapped_deck 0 [2; 3]%nat)
    (bob_serves swapped_deck)) as (_ & Hv & _).
  - apply two_table_ok.
  - apply swapped_deck_perm.
  - cbn. lia.
  - cbn. lia.
  - apply two_relays_served.
  - reflexivity.
  - reflexivity.
  - exact Hv.
Defined.
