(* ===== verification/Dispatch.v ===== *)
(** * The dispatch server ([internal/dispatch/server.go], [internal/protocol/frame.go])

    The server tracks connected nodes and their sessions and broadcasts the
    start of a game.  Its state is a [Server]; a connection's [nodeConn] is
    shared between the server's map and the goroutine that serves the
    connection, which keeps it after the node has been removed, so it lives in
    a heap of connections indexed by handles.  Every handler changes the state
    inside one critical section and is a function to the new state and the
    frames it sends.  Times are nanoseconds since the Unix epoch. *)

From Stdlib Require Import ZArith Lia.
From stdpp Require Import base list gmap strings numbers sorting.
From S2P Require Import Prelude Runtime Strconv.

#[local] Open Scope Z_scope.

(** ** Frames *)

Definition KindRegisterReq : string := "register_req".
Definition KindRegisterResp : string := "register_resp".
Definition KindCreateSessionReq : string := "create_session_req".
Definition KindCreateSessionResp : string := "create_session_resp".
Definition KindJoinSessionReq : string := "join_session_req".
Definition KindJoinSessionResp : string := "join_session_resp".
Definition KindListPeersReq : string := "list_peers_req".
Definition KindListPeersResp : string := "list_peers_resp".
Definition KindListSessionsReq : string := "list_sessions_req".
Definition KindListSessionsResp : string := "list_sessions_resp".
Definition KindHeartbeatReq : string := "heartbeat_req".
Definition KindHeartbeatResp : string := "heartbeat_resp".
Definition KindGameStart : string := "game_start".

Record Frame := mkFrame {
  Kind : string;
  RequestID : string;
  FNodeID : string;
  FSessionID : string;
  FPeerAddr : string;
  MessageType : string;
  Payload : list Z;
  Success : bool;
  Error : string;
  PeerIDs : list string;
  PeerAddresses : list string;
  SessionIDs : list string;
  LeaseExpiresUnix : Z;
  PublicKey : list Z;
  TimeoutIntervalMS : Z;
  FMaxAttempts : Z;
}.

#[export] Instance Frame_eq_dec : EqDecision Frame.
Proof. solve_decision. Defined.

(** A frame with a kind, a request id and the success flag; the rest zero. *)
Definition reply (kind reqID : string) (ok : bool) : Frame :=
  mkFrame kind reqID "" "" "" "" [] ok "" [] [] [] 0 [] 0 0.

Definition reply_err (kind reqID err : string) : Frame :=
  mkFrame kind reqID "" "" "" "" [] false err [] [] [] 0 [] 0 0.

Definition reply_session (kind reqID sessionID : string) : Frame :=
  mkFrame kind reqID "" sessionID "" "" [] true "" [] [] [] 0 [] 0 0.

(** ** State *)

Record DConfig := mkDConfig {
  Address : string;
  LeaseTTL : Z;
  CfgTimeoutInterval : Z;
  CfgMaxAttempts : Z;
}.

Record session := mkSession {
  sess_id : string;
  members : gset string;
  timeoutInterval : Z;
  maxAttempts : Z;
}.

Record nodeConn := mkNodeConn {
  ncid : string;
  peerAddr : string;
  sessionID : string;
  leaseUntil : Z;
  closed : bool;
}.

Record Server := mkServer {
  cfg : DConfig;
  sessions : gmap string session;
  nodes : gmap string nat;
  conns : gmap nat nodeConn;
  nodeCounter : Z;
  sessionCounter : Z;
}.

(** What a handler does besides changing the state: sending a frame on a
    connection, closing a connection. *)
Inductive output := Send (c : nat) (f : Frame) | Close (c : nat).

#[export] Instance output_eq_dec : EqDecision output.
Proof. solve_decision. Defined.

Inductive server_err := ErrAddress | ErrLeaseTTL.

Definition NewServer (c : DConfig) : res server_err Server :=
  if decide (Address c = "") then Err ErrAddress
  else if LeaseTTL c <=? 0 then Err ErrLeaseTTL
  else Ok (mkServer c ∅ ∅ ∅ 0 0).

Definition set_sessions (ss : gmap string session) (s : Server) : Server :=
  mkServer (cfg s) ss (nodes s) (conns s) (nodeCounter s) (sessionCounter s).
Definition set_nodes (ns : gmap string nat) (s : Server) : Server :=
  mkServer (cfg s) (sessions s) ns (conns s) (nodeCounter s) (sessionCounter s).
Definition set_conn (c : nat) (nc : nodeConn) (s : Server) : Server :=
  mkServer (cfg s) (sessions s) (nodes s) (<[c := nc]> (conns s)) (nodeCounter s) (sessionCounter s).

Definition set_sessionID (sid : string) (nc : nodeConn) : nodeConn :=
  mkNodeConn (ncid nc) (peerAddr nc) sid (leaseUntil nc) (closed nc).
Definition set_lease (t : Z) (nc : nodeConn) : nodeConn :=
  mkNodeConn (ncid nc) (peerAddr nc) (sessionID nc) t (closed nc).
Definition set_closed (nc : nodeConn) : nodeConn :=
  mkNodeConn (ncid nc) (peerAddr nc) (sessionID nc) (leaseUntil nc) true.

(** [time.Time.Unix]: whole seconds. *)
Definition unix (t : Z) : Z := t / 1000000000.
(** The zero time, January 1 of year 1. *)
Definition zero_time_unix : Z := -62135596800.

Definition nextNodeID (s : Server) : string * Server :=
  let v := u64 (nodeCounter s + 1) in
  ("node-" +:+ utoa v, mkServer (cfg s) (sessions s) (nodes s) (conns s) v (sessionCounter s)).

Definition nextSessionID (s : Server) : string * Server :=
  let v := u64 (sessionCounter s + 1) in
  ("session-" +:+ utoa v, mkServer (cfg s) (sessions s) (nodes s) (conns s) (nodeCounter s) v).

(** ** Membership *)

Definition removeNodeFromSessionLocked (nodeID sid : string) (s : Server) : Server :=
  match sessions s !! sid with
  | None => s
  | Some sess =>
      let members' := members sess ∖ {[nodeID]} in
      if decide (members' = ∅) then set_sessions (delete sid (sessions s)) s
      else set_sessions (<[sid := mkSession (sess_id sess) members' (timeoutInterval sess) (maxAttempts sess)]> (sessions s)) s
  end.

(** ** Handlers

    [c] is the connection's handle and [nc] its [nodeConn]; the result is the
    new state and what is sent. *)

Definition renewLease (nodeID : string) (now : Z) (s : Server) : option Z * Server :=
  match nodes s !! nodeID with
  | None => (None, s)
  | Some c =>
      match conns s !! c with
      | None => (None, s)
      | Some nc =>
          let lease := now + LeaseTTL (cfg s) in
          (Some lease, set_conn c (set_lease lease nc) s)
      end
  end.

(** The connection's first frame; [None] means the connection is closed. *)
Definition register (c : nat) (frame : Frame) (now : Z) (s : Server)
    : option nodeConn * Server * list output :=
  if decide (Kind frame = KindRegisterReq) then
    let '(nodeID, s) := if decide (FNodeID frame = "") then nextNodeID s else (FNodeID frame, s) in
    let nc := mkNodeConn nodeID (FPeerAddr frame) "" (now + LeaseTTL (cfg s)) false in
    match nodes s !! nodeID with
    | Some _ => (None, s, [Send c (reply_err KindRegisterResp "" "node id already connected"); Close c])
    | None =>
        (Some nc, set_conn c nc (set_nodes (<[nodeID := c]> (nodes s)) s),
         [Send c (mkFrame KindRegisterResp "" nodeID "" "" "" [] true "" [] [] [] (unix (leaseUntil nc)) [] 0 0)])
    end
  else (None, s, [Send c (reply_err KindRegisterResp "" "first frame must be register_req"); Close c]).

Definition handleCreateSession (c : nat) (nc : nodeConn) (frame : Frame) (s : Server)
    : Server * list output :=
  let '(sid, s) := if decide (FSessionID frame = "") then nextSessionID s else (FSessionID frame, s) in
  match sessions s !! sid with
  | Some _ => (s, [Send c (reply_err KindCreateSessionResp (RequestID frame) "session already exists")])
  | None =>
      let s := if decide (sessionID nc = "") then s
               else removeNodeFromSessionLocked (ncid nc) (sessionID nc) s in
      let sess := mkSession sid {[ncid nc]} (CfgTimeoutInterval (cfg s)) (CfgMaxAttempts (cfg s)) in
      (set_conn c (set_sessionID sid nc) (set_sessions (<[sid := sess]> (sessions s)) s),
       [Send c (reply_session KindCreateSessionResp (RequestID frame) sid)])
  end.

(** [sess.members[nc.id] = struct{}{}] goes to the session object that was
    looked up first; when removing the node has just dropped that object from
    the map, the insertion is visible to nobody. *)
Definition add_member (nodeID sid : string) (s : Server) : Server :=
  match sessions s !! sid with
  | None => s
  | Some sess =>
      set_sessions (<[sid := mkSession (sess_id sess) ({[nodeID]} ∪ members sess) (timeoutInterval sess) (maxAttempts sess)]>
                      (sessions s)) s
  end.

Definition handleJoinSession (c : nat) (nc : nodeConn) (frame : Frame) (s : Server)
    : Server * list output :=
  if decide (FSessionID frame = "") then
    (s, [Send c (reply_err KindJoinSessionResp (RequestID frame) "session id required")])
  else
    match sessions s !! FSessionID frame with
    | None => (s, [Send c (reply_err KindJoinSessionResp (RequestID frame) "session not found")])
    | Some _ =>
        let s := if decide (sessionID nc = "") then s
                 else removeNodeFromSessionLocked (ncid nc) (sessionID nc) s in
        (set_conn c (set_sessionID (FSessionID frame) nc) (add_member (ncid nc) (FSessionID frame) s),
         [Send c (reply_session KindJoinSessionResp (RequestID frame) (FSessionID frame))])
    end.

Section handlers.
Context `{GoRuntime}.

(** The loop of [handleListPeers] over the members, in map order. *)
Definition list_members (s : Server) (ids : list string) : list (string * string) :=
  omap (λ id, c ← nodes s !! id; nc ← conns s !! c; Some (id, peerAddr nc)) ids.

(** The server's [s.sessions[nc.sessionID]] is nil when the session is gone, and reading
    its members panics. *)
Definition handleListPeers (c : nat) (nc : nodeConn) (frame : Frame) (s : Server)
    : res Empty_set (Server * list output) :=
  if decide (sessionID nc = "") then
    Ok (s, [Send c (reply_err KindListPeersResp (RequestID frame) "node is not in session")])
  else
    match sessions s !! sessionID nc with
    | None => Panic
    | Some sess =>
        let peers := list_members s (range_order (elements (members sess))) in
        Ok (s, [Send c (mkFrame KindListPeersResp (RequestID frame) "" (sessionID nc) "" "" [] true ""
                          peers.*1 peers.*2 [] 0 [] 0 0)])
    end.

Definition handleListSessions (c : nat) (frame : Frame) (s : Server) : Server * list output :=
  (s, [Send c (mkFrame KindListSessionsResp (RequestID frame) "" "" "" "" [] true "" [] []
                 (range_order (map_to_list (sessions s)).*1) 0 [] 0 0)]).

Definition handleHeartbeat (c : nat) (nc : nodeConn) (frame : Frame) (now : Z) (s : Server)
    : Server * list output :=
  let '(lease, s) := renewLease (ncid nc) now s in
  (s, [Send c (mkFrame KindHeartbeatResp (RequestID frame) "" "" "" "" [] true "" [] [] []
                 (match lease with Some t => unix t | None => zero_time_unix end) [] 0 0)]).

(** The first critical section of [handleGameStart]: the sorted members and
    the session's rules. *)
Definition game_order (nc : nodeConn) (s : Server) : option (list string * Z * Z) :=
  sess ← sessions s !! sessionID nc;
  Some (sort_slice string_less (range_order (elements (members sess))),
        u64 (Z.quot (timeoutInterval sess) 1000000), maxAttempts sess).

(** The second one sends to the members that are connected then; [s1] and
    [s2] are the states in the two sections. *)
Definition handleGameStart (c : nat) (nc : nodeConn) (s1 s2 : Server) : list output :=
  match game_order nc s1 with
  | None => [Send c (reply_err KindGameStart "" "node is not in a session")]
  | Some (memberIDs, timeoutMS, attempts) =>
      (λ c', Send c' (mkFrame KindGameStart "" "" (sessionID nc) "" "" [] true "" memberIDs [] [] 0 []
                        timeoutMS attempts))
        <$> omap (λ id, nodes s2 !! id) memberIDs
  end.

(** [handleFrame], with the handler's critical sections uninterrupted. *)
Definition handleFrame (c : nat) (frame : Frame) (now : Z) (s : Server)
    : res Empty_set (Server * list output) :=
  match conns s !! c with
  | None => Panic
  | Some nc0 =>
      let '(_, s) := renewLease (ncid nc0) now s in
      let nc := default nc0 (conns s !! c) in
      let k := Kind frame in
      if decide (k = KindCreateSessionReq) then Ok (handleCreateSession c nc frame s)
      else if decide (k = KindJoinSessionReq) then Ok (handleJoinSession c nc frame s)
      else if decide (k = KindListPeersReq) then handleListPeers c nc frame s
      else if decide (k = KindListSessionsReq) then Ok (handleListSessions c frame s)
      else if decide (k = KindHeartbeatReq) then Ok (handleHeartbeat c nc frame now s)
      else if decide (k = KindGameStart) then Ok (s, handleGameStart c nc s s)
      else Ok (s, [Send c (reply_err k (RequestID frame) "unknown frame kind")])
  end.

(** The ids that one tick of [leaseReaper] collects. *)
Definition expired_nodes (now : Z) (s : Server) : list string :=
  range_order (filter (λ id, match nodes s !! id ≫= λ c, conns s !! c with
                             | Some nc => leaseUntil nc <? now
                             | None => false
                             end = true) (map_to_list (nodes s)).*1).

End handlers.

Definition disconnect (nodeID : string) (s : Server) : Server * list output :=
  match nodes s !! nodeID with
  | None => (s, [])
  | Some c =>
      match conns s !! c with
      | None => (s, [])
      | Some nc =>
          let s := set_nodes (delete nodeID (nodes s)) s in
          let s := if decide (sessionID nc = "") then s
                   else removeNodeFromSessionLocked nodeID (sessionID nc) s in
          (set_conn c (set_closed nc) s, [Close c])
      end
  end.

(** One tick of the reaper, the expired nodes disconnected in turn. *)
Definition reap `{GoRuntime} (now : Z) (s : Server) : Server * list output :=
  fold_left (λ st id, let '(s', out) := disconnect id st.1 in (s', st.2 ++ out))
    (expired_nodes now s) (s, []).

(** [GetSessions] and [GetUsersInSession]. *)
Definition GetSessions `{GoRuntime} (s : Server) : list string :=
  (λ sess, sess_id sess.2) <$> range_order (map_to_list (sessions s)).
Definition GetUsersInSession (id : string) (s : Server) : res Empty_set (gset string) :=
  match sessions s !! id with Some sess => Ok (members sess) | None => Panic end.
