(* ===== verification/DispatchProps.v ===== *)
(** * The dispatch server: refinement of a lobby, and its limits

    The promise of the server is a lobby: which nodes are connected, and in
    which session each of them is.  [abs] reads the lobby off the node table;
    the session table is redundant and has to agree with it. *)

From Stdlib Require Import ZArith Lia.
From stdpp Require Import base list gmap strings numbers sorting fin_maps.
From S2P Require Import Prelude Runtime Strconv Dispatch.

#[local] Open Scope Z_scope.

(** ** The lobby *)

(** Connected nodes and their session, [""] for none. *)
Abbreviation lobby := (gmap string string).

Definition abs (s : Server) : lobby := omap (λ c, sessionID <$> conns s !! c) (nodes s).

(** The abstract operations. *)
Inductive lobby_op :=
| LRegister (id : string)
| LMove (id sid : string)
| LLeave (id : string)
| LNone.

Definition lobby_step (op : lobby_op) (l : lobby) : lobby :=
  match op with
  | LRegister id => <[id := ""]> l
  | LMove id sid => <[id := sid]> l
  | LLeave id => delete id l
  | LNone => l
  end.

(** The session table agrees with the lobby: it lists exactly the sessions
    someone is in, each with exactly its members. *)
Definition sess_ok (ss : gmap string session) (l : lobby) : Prop :=
  (∀ sid sess, ss !! sid = Some sess →
     sess_id sess = sid ∧ sid ≠ "" ∧ members sess ≠ ∅ ∧ ∀ id, id ∈ members sess ↔ l !! id = Some sid) ∧
  (∀ id sid, l !! id = Some sid → sid ≠ "" → is_Some (ss !! sid)).

(** Every connected node's handle leads to its own record. *)
Definition nodes_ok (s : Server) : Prop :=
  ∀ id c, nodes s !! id = Some c → ∃ nc, conns s !! c = Some nc ∧ ncid nc = id.

Definition consistent (s : Server) : Prop := nodes_ok s ∧ sess_ok (sessions s) (abs s).

(** ** Session-table lemmas *)

Definition remove_sess (id sid : string) (ss : gmap string session) : gmap string session :=
  match ss !! sid with
  | None => ss
  | Some sess =>
      if decide (members sess ∖ {[id]} = ∅) then delete sid ss
      else <[sid := mkSession (sess_id sess) (members sess ∖ {[id]}) (timeoutInterval sess) (maxAttempts sess)]> ss
  end.

Lemma remove_sessions id sid s :
  removeNodeFromSessionLocked id sid s = set_sessions (remove_sess id sid (sessions s)) s.
Proof.
  unfold removeNodeFromSessionLocked, remove_sess. destruct s as [cf ss ns cs nc sc]; cbn.
  destruct (ss !! sid); [|done]. by case_decide.
Qed.

(** Taking node [id] out of its session, when it will be in none or gone. *)
Lemma remove_sess_ok id sid ss (l l' : lobby) :
  sess_ok ss l → l !! id = Some sid → sid ≠ "" →
  (∀ id', id' ≠ id → l' !! id' = l !! id') → (∀ sid', l' !! id = Some sid' → sid' = "") →
  sess_ok (remove_sess id sid ss) l'.
Proof.
  intros [Hs Hl] Hid Hne Hother Hself. unfold remove_sess.
  destruct (Hl id sid Hid Hne) as [sess Hsess]. rewrite Hsess.
  destruct (Hs sid sess Hsess) as (Hsid & _ & _ & Hmem).
  assert (∀ id', l' !! id' = Some sid ↔ id' ∈ members sess ∧ id' ≠ id) as Hmem'.
  { intros id'. rewrite Hmem. destruct (decide (id' = id)) as [->|Hd].
    - split; [|by intros [_ ?]]. intros Hx. by apply Hself in Hx.
    - rewrite Hother by done. naive_solver. }
  assert (∀ sid' sess', sid' ≠ sid → ss !! sid' = Some sess' →
    sess_id sess' = sid' ∧ sid' ≠ "" ∧ members sess' ≠ ∅ ∧ ∀ id', id' ∈ members sess' ↔ l' !! id' = Some sid') as Hrest.
  { intros sid' sess' Hd Hss'. destruct (Hs sid' sess' Hss') as (? & Hn' & ? & Hm').
    split_and!; [done..|]. intros id'. rewrite Hm'. destruct (decide (id' = id)) as [->|Hdi]; [|by rewrite Hother].
    split; [congruence|]. intros Hx. by apply Hself in Hx. }
  case_decide as Hempty; split.
  - intros sid' sess' [Hd Hss']%lookup_delete_Some. by apply Hrest.
  - intros id' sid' Hx Hne'. assert (id' ≠ id) as Hdi by (intros ->; apply Hself in Hx; done).
    rewrite lookup_delete_ne; [|intros <-; apply Hmem' in Hx as [? ?]; set_solver].
    rewrite Hother in Hx by done. by eapply Hl.
  - intros sid' sess' [[<- <-]|[Hd Hss']]%lookup_insert_Some; [|by apply Hrest].
    cbn. split_and!; [done..|]. intros id'. rewrite Hmem'. set_solver.
  - intros id' sid' Hx Hne'. destruct (decide (sid' = sid)) as [->|Hd]; [by rewrite lookup_insert_eq|].
    rewrite lookup_insert_ne by done. assert (id' ≠ id) as Hdi by (intros ->; apply Hself in Hx; done).
    rewrite Hother in Hx by done. by eapply Hl.
Qed.

(** Moving a node that is in no session into one, existing or new. *)
Lemma insert_sess_ok id sid ss sess (l : lobby) :
  sess_ok ss l → (∀ sid', l !! id = Some sid' → sid' = "") → sid ≠ "" → sess_id sess = sid →
  members sess = {[id]} ∪ match ss !! sid with Some old => members old | None => ∅ end →
  sess_ok (<[sid := sess]> ss) (<[id := sid]> l).
Proof.
  intros [Hs Hl] Hid Hne Hsid Hmem. split.
  - intros sid' sess' [[<- <-]|[Hd Hss']]%lookup_insert_Some.
    + split_and!; [done|done|rewrite Hmem; set_solver|]. intros id'. rewrite Hmem.
      destruct (decide (id' = id)) as [->|Hdi]; [rewrite lookup_insert_eq; set_solver|].
      rewrite lookup_insert_ne by done. destruct (ss !! sid) as [old|] eqn:Hold.
      * destruct (Hs sid old Hold) as (_ & _ & _ & Hm). rewrite <- Hm. set_solver.
      * split; [set_solver|]. intros Hx. destruct (Hl _ _ Hx Hne). congruence.
    + destruct (Hs sid' sess' Hss') as (? & ? & ? & Hm). split_and!; [done..|]. intros id'. rewrite Hm.
      destruct (decide (id' = id)) as [->|Hdi]; [|by rewrite lookup_insert_ne by done].
      rewrite lookup_insert_eq. split; [intros Hx; apply Hid in Hx; congruence|congruence].
  - intros id' sid' Hx Hne'. destruct (decide (sid' = sid)) as [->|Hd]; [by rewrite lookup_insert_eq|].
    rewrite lookup_insert_ne by done. apply lookup_insert_Some in Hx as [[_ ?]|[_ Hx]]; [congruence|]. by eapply Hl.
Qed.

(** A change of the lobby that concerns no session. *)
Lemma idle_sess_ok id ss (l l' : lobby) :
  sess_ok ss l → (∀ sid, l !! id = Some sid → sid = "") → (∀ sid, l' !! id = Some sid → sid = "") →
  (∀ id', id' ≠ id → l' !! id' = l !! id') → sess_ok ss l'.
Proof.
  intros [Hs Hl] Hid Hid' Hother. split.
  - intros sid sess Hss. destruct (Hs sid sess Hss) as (? & Hne & ? & Hm). split_and!; [done..|]. intros id'. rewrite Hm.
    destruct (decide (id' = id)) as [->|Hd]; [|by rewrite Hother].
    split; intros Hx; [apply Hid in Hx|apply Hid' in Hx]; congruence.
  - intros id' sid Hx Hne. destruct (decide (id' = id)) as [->|Hd]; [by apply Hid' in Hx|].
    rewrite Hother in Hx by done. by eapply Hl.
Qed.

(** ** The lobby under the server's updates *)

Lemma abs_lookup s id : abs s !! id = nodes s !! id ≫= λ c, sessionID <$> conns s !! c.
Proof. unfold abs. by rewrite lookup_omap. Qed.

Lemma handle_inj s id id' c : nodes_ok s → nodes s !! id = Some c → nodes s !! id' = Some c → id = id'.
Proof. intros Hok H1 H2. destruct (Hok _ _ H1) as (? & ? & ?), (Hok _ _ H2) as (? & ? & ?). congruence. Qed.

Lemma abs_set_conn s id c nc :
  nodes_ok s → nodes s !! id = Some c → abs (set_conn c nc s) = <[id := sessionID nc]> (abs s).
Proof.
  intros Hok Hc. apply map_eq. intros id'. rewrite abs_lookup. cbn.
  destruct (decide (id' = id)) as [->|Hd].
  - by rewrite Hc, lookup_insert_eq; cbn; rewrite lookup_insert_eq.
  - rewrite lookup_insert_ne by done. rewrite abs_lookup. destruct (nodes s !! id') as [c'|] eqn:Hc'; [|done]. cbn.
    rewrite lookup_insert_ne; [done|]. intros <-. by destruct Hd; eapply handle_inj.
Qed.

Lemma nodes_ok_set_conn s id c nc :
  nodes_ok s → nodes s !! id = Some c → ncid nc = id → nodes_ok (set_conn c nc s).
Proof.
  intros Hok Hc Hid id' c' Hc'. cbn in *. destruct (decide (c' = c)) as [->|Hd].
  - exists nc. rewrite lookup_insert_eq. split; [done|]. rewrite Hid. by eapply handle_inj.
  - rewrite lookup_insert_ne by done. by apply Hok.
Qed.

(** A frame of a live connection; a join by the only member of the session it
    already is in is excluded (see [rejoin_panics]). *)
Definition live (c : nat) (s : Server) : Prop :=
  ∃ nc, conns s !! c = Some nc ∧ nodes s !! ncid nc = Some c.

Definition sole_rejoin (c : nat) (f : Frame) (s : Server) : Prop :=
  ∃ nc sess, conns s !! c = Some nc ∧ Kind f = KindJoinSessionReq ∧ FSessionID f = sessionID nc ∧
    sessions s !! sessionID nc = Some sess ∧ members sess = {[ncid nc]}.

Inductive server_event :=
| EvRegister (c : nat) (f : Frame) (now : Z)
| EvFrame (c : nat) (f : Frame) (now : Z)
| EvDisconnect (id : string).

Section events.
Context `{GoRuntime}.

Definition serve (e : server_event) (s : Server) : res Empty_set (Server * list output) :=
  match e with
  | EvRegister c f now => let '(_, s', out) := register c f now s in Ok (s', out)
  | EvFrame c f now => handleFrame c f now s
  | EvDisconnect id => Ok (disconnect id s)
  end.

Definition well_behaved (e : server_event) (s : Server) : Prop :=
  match e with
  | EvRegister c _ _ => conns s !! c = None
  | EvFrame c f _ => live c s ∧ ¬ sole_rejoin c f s
  | EvDisconnect _ => True
  end.

(** What the event does to the lobby. *)
Definition lobby_effect (e : server_event) (s : Server) : lobby_op :=
  match e with
  | EvRegister c f now =>
      match register c f now s with (Some nc, _, _) => LRegister (ncid nc) | _ => LNone end
  | EvFrame c f now =>
      match conns s !! c with
      | None => LNone
      | Some nc =>
          if decide (Kind f = KindCreateSessionReq) then
            let '(sid, _) := if decide (FSessionID f = "") then nextSessionID s else (FSessionID f, s) in
            match sessions s !! sid with Some _ => LNone | None => LMove (ncid nc) sid end
          else if decide (Kind f = KindJoinSessionReq) then
            match sessions s !! FSessionID f with
            | Some _ => if decide (FSessionID f = "") then LNone else LMove (ncid nc) (FSessionID f)
            | None => LNone
            end
          else LNone
      end
  | EvDisconnect id => LLeave id
  end.

(** Runs of the server from its start. *)
Inductive served : Server → Prop :=
| served_start c s : NewServer c = Ok s → served s
| served_event s e s' out : served s → well_behaved e s → serve e s = Ok (s', out) → served s'.

(** ** Every event keeps the tables consistent *)

Lemma consistent_abs s id c nc :
  consistent s → nodes s !! id = Some c → conns s !! c = Some nc → abs s !! id = Some (sessionID nc).
Proof. intros _ Hc Hnc. rewrite abs_lookup, Hc. cbn. by rewrite Hnc. Qed.

(** Counters are no part of the tables. *)
Lemma consistent_tables s s' :
  nodes s' = nodes s → sessions s' = sessions s → conns s' = conns s →
  abs s' = abs s ∧ (consistent s → consistent s').
Proof.
  intros Hn Hs Hc. assert (abs s' = abs s) as Ha by (unfold abs; by rewrite Hn, Hc). split; [done|].
  unfold consistent, nodes_ok. by rewrite Ha, Hn, Hs, Hc.
Qed.

(** The tables after a node changed its record (lease or session) and the
    sessions were updated to match. *)
Lemma move_consistent s ss' id c nc' sid :
  consistent s → nodes s !! id = Some c → ncid nc' = id → sessionID nc' = sid →
  sess_ok ss' (<[id := sid]> (abs s)) →
  consistent (set_conn c nc' (set_sessions ss' s)) ∧
  abs (set_conn c nc' (set_sessions ss' s)) = <[id := sid]> (abs s).
Proof.
  intros [Hok Hs] Hc Hid <- Hss.
  assert (abs (set_conn c nc' (set_sessions ss' s)) = <[id := sessionID nc']> (abs s)) as Ha
    by (by apply (abs_set_conn (set_sessions ss' s))).
  split; [|done]. split; [by apply (nodes_ok_set_conn (set_sessions ss' s) id)|]. by rewrite Ha.
Qed.

(** Leaving the current session, as the handlers do before a move. *)
Definition leave_sess (nc : nodeConn) (ss : gmap string session) : gmap string session :=
  if decide (sessionID nc = "") then ss else remove_sess (ncid nc) (sessionID nc) ss.

Lemma leave_sessions nc s :
  (if decide (sessionID nc = "") then s else removeNodeFromSessionLocked (ncid nc) (sessionID nc) s)
  = set_sessions (leave_sess nc (sessions s)) s.
Proof.
  unfold leave_sess. case_decide; [by destruct s|]. apply remove_sessions.
Qed.

Lemma leave_sess_ok s c nc (l' : lobby) :
  consistent s → nodes s !! ncid nc = Some c → conns s !! c = Some nc →
  (∀ id', id' ≠ ncid nc → l' !! id' = abs s !! id') → (∀ sid, l' !! ncid nc = Some sid → sid = "") →
  sess_ok (leave_sess nc (sessions s)) l'.
Proof.
  intros Hcons Hc Hnc Hother Hself. pose proof (consistent_abs _ _ _ _ Hcons Hc Hnc) as Ha.
  destruct Hcons as [_ Hs]. unfold leave_sess. case_decide as Hd.
  - eapply idle_sess_ok; [exact Hs| |exact Hself|done]. intros sid Hx. congruence.
  - eapply remove_sess_ok; [exact Hs|exact Ha|done|done|done].
Qed.

Lemma renewLease_spec s id c nc now :
  nodes s !! id = Some c → conns s !! c = Some nc →
  renewLease id now s = (Some (now + LeaseTTL (cfg s)), set_conn c (set_lease (now + LeaseTTL (cfg s)) nc) s).
Proof. intros Hc Hnc. unfold renewLease. by rewrite Hc, Hnc. Qed.

Lemma renew_consistent s c nc t :
  consistent s → nodes s !! ncid nc = Some c → conns s !! c = Some nc →
  consistent (set_conn c (set_lease t nc) s) ∧ abs (set_conn c (set_lease t nc) s) = abs s.
Proof.
  intros Hcons Hc Hnc. pose proof (consistent_abs _ _ _ _ Hcons Hc Hnc) as Ha.
  destruct (move_consistent s (sessions s) (ncid nc) c (set_lease t nc) (sessionID nc)) as [H1 H2]; [done..| |].
  - rewrite insert_id by done. apply Hcons.
  - replace (set_sessions (sessions s) s) with s in * by (by destruct s). by rewrite H2, insert_id.
Qed.

Lemma create_step s c nc f :
  consistent s → nodes s !! ncid nc = Some c → conns s !! c = Some nc →
  let '(s', out) := handleCreateSession c nc f s in
  let '(sid, _) := if decide (FSessionID f = "") then nextSessionID s else (FSessionID f, s) in
  consistent s' ∧
  abs s' = match sessions s !! sid with Some _ => abs s | None => <[ncid nc := sid]> (abs s) end.
Proof.
  intros Hcons Hc Hnc. unfold handleCreateSession.
  set (p := if decide (FSessionID f = "") then nextSessionID s else (FSessionID f, s)).
  assert (nodes p.2 = nodes s ∧ sessions p.2 = sessions s ∧ conns p.2 = conns s ∧ p.1 ≠ "") as (Hn & Hs & Hcs & Hne).
  { unfold p. by case_decide. }
  destruct p as [sid s1]. cbn [fst snd] in *.
  destruct (consistent_tables s s1 Hn Hs Hcs) as [Ha Hcons1]. specialize (Hcons1 Hcons).
  rewrite <- Hs. destruct (sessions s1 !! sid) as [old|] eqn:Hsid; [by rewrite <- Ha|].
  rewrite leave_sessions. set (ss := leave_sess nc (sessions s1)). rewrite <- Ha.
  change (sessions (set_sessions ss s1)) with ss.
  change (set_sessions ?x (set_sessions ss s1)) with (set_sessions x s1).
  apply move_consistent; [done|by rewrite Hn|done|done|].
  rewrite <- (insert_insert_eq (abs s1) (ncid nc) sid "").
  assert (ss !! sid = None) as Hss.
  { unfold ss, leave_sess, remove_sess. case_decide; [done|]. destruct (sessions s1 !! sessionID nc) eqn:Hx; [|done].
    case_decide; [by apply lookup_delete_None; right|]. rewrite lookup_insert_ne; [done|]. intros <-. congruence. }
  apply insert_sess_ok; [|intros sid'; rewrite lookup_insert_eq; by intros [= <-]|done|done|].
  - apply (leave_sess_ok s1 c); [done|by rewrite Hn|by rewrite Hcs| |].
    + intros id' Hd. by rewrite lookup_insert_ne.
    + intros sid'. rewrite lookup_insert_eq. by intros [= <-].
  - rewrite Hss. cbn. set_solver.
Qed.

Lemma sole_member (X : gset string) id : id ∈ X → X ∖ {[id]} = ∅ → X = {[id]}.
Proof.
  intros Hin Hd. apply set_eq. intros x. rewrite elem_of_singleton. split; [|by intros ->].
  intros Hx. destruct (decide (x = id)) as [|Hne]; [done|].
  assert (x ∈ X ∖ {[id]}) as Hc by (apply elem_of_difference; by rewrite elem_of_singleton).
  rewrite Hd in Hc. by apply elem_of_empty in Hc.
Qed.

Lemma join_step s c nc f :
  consistent s → nodes s !! ncid nc = Some c → conns s !! c = Some nc →
  ¬ (∃ sess, FSessionID f = sessionID nc ∧ sessions s !! sessionID nc = Some sess ∧ members sess = {[ncid nc]}) →
  let '(s', out) := handleJoinSession c nc f s in
  consistent s' ∧
  abs s' = match sessions s !! FSessionID f with
           | Some _ => if decide (FSessionID f = "") then abs s else <[ncid nc := FSessionID f]> (abs s)
           | None => abs s
           end.
Proof.
  intros Hcons Hc Hnc Hsole. unfold handleJoinSession.
  destruct (decide (FSessionID f = "")) as [Hf|Hf]; [split; [done|]; by destruct (sessions s !! FSessionID f)|].
  destruct (sessions s !! FSessionID f) as [sess|] eqn:Hsid; [|done].
  rewrite leave_sessions. set (ss := leave_sess nc (sessions s)).
  destruct (proj1 (proj2 Hcons) _ _ Hsid) as (Hsess & _ & Hnonempty & Hmem).
  assert (∃ sess', ss !! FSessionID f = Some sess' ∧ sess_id sess' = FSessionID f) as (sess' & Hss & Hid').
  { unfold ss, leave_sess, remove_sess. case_decide as Hd; [by exists sess|].
    destruct (sessions s !! sessionID nc) as [old|] eqn:Hold; [|by exists sess].
    destruct (decide (FSessionID f = sessionID nc)) as [Heq|Hneq].
    - rewrite <- Heq in Hold. assert (old = sess) as -> by congruence. case_decide as Hem.
      + exfalso. apply Hsole. exists sess. rewrite <- Heq. split_and!; [done..|].
        apply sole_member; [|done]. apply Hmem. rewrite Heq. by eapply consistent_abs.
      + rewrite <- Heq, lookup_insert_eq. by eexists.
    - case_decide; [rewrite lookup_delete_ne by done|rewrite lookup_insert_ne by done]; by exists sess. }
  unfold add_member. change (sessions (set_sessions ss s)) with ss. rewrite Hss.
  change (set_sessions ?x (set_sessions ss s)) with (set_sessions x s).
  apply move_consistent; [done..|]. rewrite <- (insert_insert_eq (abs s) (ncid nc) (FSessionID f) "").
  apply insert_sess_ok; [|intros sid'; rewrite lookup_insert_eq; by intros [= <-]|done|done|by rewrite Hss].
  apply (leave_sess_ok s c); [done..| |].
  - intros id' Hd. by rewrite lookup_insert_ne.
  - intros sid'. rewrite lookup_insert_eq. by intros [= <-].
Qed.

Lemma disconnect_step s id :
  consistent s → consistent (disconnect id s).1 ∧ abs (disconnect id s).1 = delete id (abs s).
Proof.
  intros Hcons. unfold disconnect. destruct (nodes s !! id) as [c|] eqn:Hc; cbn [fst].
  2:{ split; [done|]. rewrite delete_id; [done|]. by rewrite abs_lookup, Hc. }
  destruct (proj1 Hcons _ _ Hc) as (nc & Hnc & <-). rewrite Hnc. cbn [fst].
  rewrite leave_sessions.
  change (sessions (set_nodes (delete (ncid nc) (nodes s)) s)) with (sessions s).
  set (s' := set_conn c _ _).
  assert (abs s' = delete (ncid nc) (abs s)) as Ha.
  { apply map_eq. intros id'. rewrite abs_lookup. subst s'. cbn. destruct (decide (id' = ncid nc)) as [->|Hd].
    - by rewrite !lookup_delete_eq.
    - rewrite !lookup_delete_ne, abs_lookup by done. destruct (nodes s !! id') as [c'|] eqn:Hc'; [|done]. cbn.
      rewrite lookup_insert_ne; [done|]. intros <-. destruct Hd. eapply handle_inj; [apply Hcons|done..]. }
  split; [|done]. split.
  - intros id' c'. subst s'. cbn. intros [Hd Hc']%lookup_delete_Some.
    rewrite lookup_insert_ne; [by apply Hcons|]. intros <-. destruct Hd. symmetry. eapply handle_inj; [apply Hcons|done..].
  - rewrite Ha. subst s'. cbn. apply (leave_sess_ok s c); [done..| |].
    + intros id' Hd. by rewrite lookup_delete_ne.
    + intros sid. by rewrite lookup_delete_eq.
Qed.

Lemma register_step s c f now :
  consistent s → conns s !! c = None →
  let '(r, s', out) := register c f now s in
  consistent s' ∧ abs s' = match r with Some nc => <[ncid nc := ""]> (abs s) | None => abs s end.
Proof.
  intros Hcons Hfresh. unfold register. case_decide; [|done].
  set (p := if decide (FNodeID f = "") then nextNodeID s else (FNodeID f, s)).
  assert (nodes p.2 = nodes s ∧ sessions p.2 = sessions s ∧ conns p.2 = conns s) as (Hn & Hs & Hcs).
  { unfold p. by case_decide. }
  destruct p as [id s1]. cbn [fst snd] in *.
  destruct (consistent_tables s s1 Hn Hs Hcs) as [Ha Hcons1]. specialize (Hcons1 Hcons). rewrite <- Ha.
  destruct (nodes s1 !! id) as [c'|] eqn:Hid; [done|]. cbn [ncid].
  set (s' := set_conn c _ _). rewrite <- Hcs in Hfresh.
  assert (abs s' = <[id := ""]> (abs s1)) as Ha'.
  { apply map_eq. intros id'. rewrite abs_lookup. subst s'. cbn. destruct (decide (id' = id)) as [->|Hd].
    - rewrite !lookup_insert_eq. cbn. by rewrite lookup_insert_eq.
    - rewrite !lookup_insert_ne, abs_lookup by done. destruct (nodes s1 !! id') as [c'|] eqn:Hc'; [|done]. cbn.
      rewrite lookup_insert_ne; [done|]. intros <-. destruct (proj1 Hcons1 _ _ Hc') as (? & ? & _). congruence. }
  split; [|done]. split.
  - intros id' c'. subst s'. cbn. intros [[<- <-]|[Hd Hc']]%lookup_insert_Some; [rewrite lookup_insert_eq; by eexists|].
    rewrite lookup_insert_ne; [by apply Hcons1|]. intros <-. destruct (proj1 Hcons1 _ _ Hc') as (? & ? & _). congruence.
  - rewrite Ha'. apply (idle_sess_ok id _ (abs s1)); [apply Hcons1| | |].
    + intros sid. by rewrite abs_lookup, Hid.
    + intros sid. rewrite lookup_insert_eq. by intros [= <-].
    + intros id' Hd. by rewrite lookup_insert_ne.
Qed.

(** The frame's handler after the lease was renewed. *)
Lemma frame_step s c f now :
  consistent s → live c s → ¬ sole_rejoin c f s →
  ∃ s' out, handleFrame c f now s = Ok (s', out) ∧ consistent s' ∧
    abs s' = lobby_step (lobby_effect (EvFrame c f now) s) (abs s).
Proof.
  intros Hcons (nc & Hnc & Hc) Hsole. unfold handleFrame, lobby_effect. rewrite Hnc.
  rewrite (renewLease_spec s _ c nc now Hc Hnc). set (t := now + LeaseTTL (cfg s)).
  destruct (renew_consistent s c nc t Hcons Hc Hnc) as [Hcons1 Habs1].
  set (s1 := set_conn c (set_lease t nc) s) in *. set (nc1 := set_lease t nc).
  assert (conns s1 !! c = Some nc1) as Hnc1 by (unfold s1, nc1; cbn; apply lookup_insert_eq).
  rewrite Hnc1. cbn [default from_option id].
  assert (nodes s1 !! ncid nc1 = Some c) as Hc1 by done. rewrite <- Habs1.
  destruct (decide (Kind f = KindCreateSessionReq)) as [Hk|Hk1].
  { pose proof (create_step s1 c nc1 f Hcons1 Hc1 Hnc1) as Hcr.
    destruct (handleCreateSession c nc1 f s1) as [s' out]. exists s', out. split; [done|].
    change (sessions s1) with (sessions s) in Hcr.
    destruct (decide (FSessionID f = "")); cbn [nextSessionID] in Hcr |- *;
      destruct (sessions s !! _); exact Hcr. }
  destruct (decide (Kind f = KindJoinSessionReq)) as [Hk|Hk2].
  { assert (¬ (∃ sess, FSessionID f = sessionID nc1 ∧ sessions s1 !! sessionID nc1 = Some sess ∧
      members sess = {[ncid nc1]})) as Hs1.
    { intros (sess & ? & ? & ?). apply Hsole. by exists nc, sess. }
    pose proof (join_step s1 c nc1 f Hcons1 Hc1 Hnc1 Hs1) as Hj.
    destruct (handleJoinSession c nc1 f s1) as [s' out]. exists s', out. split; [done|].
    cbn in Hj. destruct (sessions s !! FSessionID f); [|done]. by case_decide. }
  destruct (decide (Kind f = KindListPeersReq)) as [Hk|Hk3].
  { unfold handleListPeers. case_decide as Hs; [by eexists _, _|].
    destruct (proj2 (proj2 Hcons1) (ncid nc1) (sessionID nc1)) as [sess Hsess];
      [by eapply consistent_abs|done|]. rewrite Hsess. by eexists _, _. }
  destruct (decide (Kind f = KindListSessionsReq)); [by eexists _, _|].
  destruct (decide (Kind f = KindHeartbeatReq)).
  { unfold handleHeartbeat. rewrite (renewLease_spec s1 _ c nc1 now Hc1 Hnc1). eexists _, _. split; [done|].
    by destruct (renew_consistent s1 c nc1 (now + LeaseTTL (cfg s1)) Hcons1 Hc1 Hnc1) as [? ->]. }
  destruct (decide (Kind f = KindGameStart)); by eexists _, _.
Qed.

Lemma serve_step e s :
  consistent s → well_behaved e s →
  ∃ s' out, serve e s = Ok (s', out) ∧ consistent s' ∧ abs s' = lobby_step (lobby_effect e s) (abs s).
Proof.
  intros Hcons Hw. destruct e as [c f now|c f now|id]; cbn [serve well_behaved] in *.
  - pose proof (register_step s c f now Hcons Hw) as Hr. unfold lobby_effect.
    destruct (register c f now s) as [[[nc|] s'] out]; by exists s', out.
  - destruct Hw. by apply frame_step.
  - pose proof (disconnect_step s id Hcons) as Hd. destruct (disconnect id s) as [s' out]. by exists s', out.
Qed.

Lemma served_consistent s : served s → consistent s.
Proof.
  induction 1 as [c s Hs|s e s' out Hserved IH Hw Hs].
  - unfold NewServer in Hs. case_decide; [done|]. destruct (LeaseTTL c <=? 0); [done|]. injection Hs as <-.
    split; [by intros id c'|]. split; [by intros sid sess|]. intros id sid. by rewrite abs_lookup.
  - destruct (serve_step e s IH Hw) as (s1 & out1 & Hs1 & Hc1 & _). congruence.
Qed.

(** C7: the dispatch server implements a lobby.  In every run of the server
    with well-behaved clients, the next event is served without a panic and
    changes exactly what the lobby operation says (a registration adds the
    node, a create or join moves the caller, a disconnect removes the node,
    everything else changes nothing); and the session table always lists
    exactly the sessions someone is in, with exactly their members. *)
Theorem dispatch_refines_lobby s e :
  served s → well_behaved e s →
  ∃ s' out, serve e s = Ok (s', out) ∧ served s' ∧
    abs s' = lobby_step (lobby_effect e s) (abs s) ∧
    (∀ sid, sid ≠ "" → match sessions s' !! sid with
                       | Some sess => members sess ≠ ∅ ∧ ∀ id, id ∈ members sess ↔ abs s' !! id = Some sid
                       | None => ∀ id, abs s' !! id ≠ Some sid
                       end).
Proof.
  intros Hs Hw. destruct (serve_step e s (served_consistent s Hs) Hw) as (s' & out & Hse & Hcons & Ha).
  exists s', out. split_and!; [done|by eapply served_event|done|]. intros sid Hne.
  destruct (sessions s' !! sid) as [sess|] eqn:Hsess.
  - destruct (proj1 (proj2 Hcons) _ _ Hsess) as (_ & _ & ? & ?). done.
  - intros id Hid. destruct (proj2 (proj2 Hcons) _ _ Hid Hne). congruence.
Qed.

End events.

(** ** The start of a game *)

(** The broadcast of [handleGameStart]. *)
Lemma game_start_facts (RT : GoRuntime) (L : @RuntimeLaws RT) c nc s1 s2 sess :
  sessions s1 !! sessionID nc = Some sess →
  ∃ order frame,
    handleGameStart c nc s1 s2 = (λ c', Send c' frame) <$> omap (λ id, nodes s2 !! id) order ∧
    PeerIDs frame = order ∧ FMaxAttempts frame = maxAttempts sess ∧
    TimeoutIntervalMS frame = u64 (Z.quot (timeoutInterval sess) 1000000) ∧ Kind frame = KindGameStart ∧
    NoDup order ∧ (∀ id, id ∈ order ↔ id ∈ members sess).
Proof.
  intros Hs. unfold handleGameStart, game_order. rewrite Hs. cbn [mbind option_bind].
  set (order := sort_slice string_less (range_order (elements (members sess)))).
  assert (order ≡ₚ elements (members sess)) as Hp by (unfold order; by rewrite sort_perm, range_perm).
  eexists order, _. split_and!; try done.
  - rewrite Hp. apply NoDup_elements.
  - intros id. rewrite Hp. apply elem_of_elements.
Qed.

(** The game starts with one seating.  Whatever order the runtime's map
    iteration has, the [GameStart] broadcast carries the session's members
    without repetition in byte order, every member that is connected when the
    frames go out gets that same frame, and nobody else gets one. *)
Theorem game_start_order (RT : GoRuntime) (L : @RuntimeLaws RT) c nc s1 s2 sess :
  sessions s1 !! sessionID nc = Some sess →
  ∃ order frame,
    handleGameStart c nc s1 s2 = (λ c', Send c' frame) <$> omap (λ id, nodes s2 !! id) order ∧
    PeerIDs frame = order ∧ FSessionID frame = sessionID nc ∧ FMaxAttempts frame = maxAttempts sess ∧
    NoDup order ∧ StronglySorted String.le order ∧ (∀ id, id ∈ order ↔ id ∈ members sess) ∧
    order = @sort_slice insertion_runtime _ string_less (elements (members sess)).
Proof.
  intros Hs. unfold handleGameStart, game_order. rewrite Hs. cbn [mbind option_bind].
  set (order := sort_slice string_less (range_order (elements (members sess)))).
  assert (order ≡ₚ elements (members sess)) as Hp by (unfold order; by rewrite sort_perm, range_perm).
  eexists order, _. split; [done|]. split_and!; try done.
  - rewrite Hp. apply NoDup_elements.
  - pose proof (sort_sorted _ string_less (range_order (elements (members sess))) string_less_weak) as Hss.
    fold order in Hss. eapply StronglySorted_weaken; [|exact Hss]. intros x y Hxy. cbn in Hxy.
    apply string_less_false in Hxy. unfold String.le. by rewrite Hxy.
  - intros id. rewrite Hp. apply elem_of_elements.
  - apply (sorted_unique string_less).
    + intros x y _ _. apply string_less_total.
    + by apply sort_sorted, string_less_weak.
    + by apply (@sort_sorted insertion_runtime insertion_laws), string_less_weak.
    + rewrite Hp. symmetry. apply (@sort_perm insertion_runtime insertion_laws).
Qed.

(** ** Leases *)

Lemma disconnect_nodes s id : nodes_ok s → nodes (disconnect id s).1 = delete id (nodes s).
Proof.
  intros Hok. unfold disconnect. destruct (nodes s !! id) as [c|] eqn:Hc; cbn [fst]; [|by rewrite delete_id].
  destruct (Hok _ _ Hc) as (nc & Hnc & _). rewrite Hnc. cbn [fst]. case_decide; [done|].
  rewrite remove_sessions. done.
Qed.

Lemma reap_nodes ids st :
  consistent st.1 →
  nodes (fold_left (λ st id, let '(s', out) := disconnect id st.1 in (s', st.2 ++ out)) ids st).1
  = filter (λ p, p.1 ∉ ids) (nodes st.1) ∧
  consistent (fold_left (λ st id, let '(s', out) := disconnect id st.1 in (s', st.2 ++ out)) ids st).1.
Proof.
  revert st. induction ids as [|id ids IH]; intros [s out] Hcons; cbn [fold_left fst snd].
  { split; [|done]. rewrite map_filter_id; [done|]. intros i x _. apply not_elem_of_nil. }
  pose proof (disconnect_nodes s id (proj1 Hcons)) as Hn. pose proof (disconnect_step s id Hcons) as [Hc _].
  destruct (disconnect id s) as [s' out']. cbn [fst] in Hn, Hc.
  destruct (IH (s', out ++ out') Hc) as [Hi Hci]. split; [|done]. rewrite Hi. cbn [fst]. rewrite Hn.
  apply map_eq. intros id'. apply option_eq. intros c.
  rewrite !map_lookup_filter_Some, lookup_delete_Some, not_elem_of_cons. cbn. naive_solver.
Qed.

Lemma elem_of_expired `{RuntimeLaws} now s id :
  id ∈ expired_nodes now s ↔
  ∃ c nc, nodes s !! id = Some c ∧ conns s !! c = Some nc ∧ leaseUntil nc < now.
Proof.
  unfold expired_nodes. rewrite range_perm, list_elem_of_filter. split.
  - intros [He Hin]. destruct (nodes s !! id) as [c|]; [|done]. cbn in He.
    destruct (conns s !! c) as [nc|] eqn:Hnc; [|done]. apply Z.ltb_lt in He. by exists c, nc.
  - intros (c & nc & Hc & Hnc & Hlt). rewrite Hc. cbn. rewrite Hnc. split; [by apply Z.ltb_lt|].
    apply list_elem_of_fmap. exists (id, c). split; [done|]. by apply elem_of_map_to_list.
Qed.

(** The reaper removes exactly the expired nodes.  After one tick at
    [now], with the tables consistent, a node is still connected (on the same
    connection) if and only if its lease has not run out, and the tables are
    consistent again. *)
Theorem reap_exact (RT : GoRuntime) (L : @RuntimeLaws RT) now s id c :
  consistent s →
  (nodes (reap now s).1 !! id = Some c ↔
   nodes s !! id = Some c ∧ ∀ nc, conns s !! c = Some nc → now ≤ leaseUntil nc) ∧
  consistent (reap now s).1.
Proof.
  intros Hcons. unfold reap. destruct (reap_nodes (expired_nodes now s) (s, []) Hcons) as [Hn Hc].
  split; [|done]. rewrite Hn. cbn [fst]. rewrite map_lookup_filter_Some. cbn. split.
  - intros [Hid Hx]. split; [done|]. intros nc Hnc. destruct (Z.le_gt_cases now (leaseUntil nc)); [done|].
    destruct Hx. apply elem_of_expired. exists c, nc. split_and!; [done..|lia].
  - intros [Hid Hx]. split; [done|]. intros (c' & nc & Hc' & Hnc & Hlt)%elem_of_expired.
    assert (c' = c) as -> by congruence. specialize (Hx nc Hnc). lia.
Qed.

(** A frame of a live connection renews the lease of that connection, and
    leaves the node table and the records of the other connections alone. *)
Lemma handleFrame_frame `{GoRuntime} c f now s s' out :
  live c s → handleFrame c f now s = Ok (s', out) →
  nodes s' = nodes s ∧ cfg s' = cfg s ∧ (∀ c', c' ≠ c → conns s' !! c' = conns s !! c') ∧
  (∀ x, conns s' !! c = Some x → leaseUntil x = now + LeaseTTL (cfg s)).
Proof.
  intros (nc & Hnc & Hc) Hf. unfold handleFrame in Hf. rewrite Hnc, (renewLease_spec s _ c nc now Hc Hnc) in Hf.
  set (s1 := set_conn c _ s) in *. set (nc1 := set_lease (now + LeaseTTL (cfg s)) nc) in *.
  assert (conns s1 !! c = Some nc1) as Hnc1 by apply lookup_insert_eq. rewrite Hnc1 in Hf. cbn [default from_option id] in Hf.
  assert (∀ s2 nc', nodes s2 = nodes s → cfg s2 = cfg s → conns s2 = conns s1 → leaseUntil nc' = now + LeaseTTL (cfg s) →
    nodes (set_conn c nc' s2) = nodes s ∧ cfg (set_conn c nc' s2) = cfg s ∧
    (∀ c', c' ≠ c → conns (set_conn c nc' s2) !! c' = conns s !! c') ∧
    (∀ x, conns (set_conn c nc' s2) !! c = Some x → leaseUntil x = now + LeaseTTL (cfg s))) as Hset.
  { intros s2 nc' ? ? Hcs Hl. split_and!; [done..| |]; cbn; intros c'.
    - intros Hne. rewrite lookup_insert_ne, Hcs by done. cbn. by rewrite lookup_insert_ne.
    - rewrite lookup_insert_eq. by intros [= <-]. }
  assert (nodes s1 = nodes s ∧ cfg s1 = cfg s ∧ (∀ c', c' ≠ c → conns s1 !! c' = conns s !! c') ∧
    (∀ x, conns s1 !! c = Some x → leaseUntil x = now + LeaseTTL (cfg s))) as Hsame.
  { split_and!; [done..| |]; cbn; intros c'; [intros Hne; by rewrite lookup_insert_ne|].
    rewrite lookup_insert_eq. by intros [= <-]. }
  repeat case_decide; try (injection Hf as <- <-; done).
  - injection Hf as Hf. unfold handleCreateSession in Hf. case_decide; cbn [nextSessionID] in Hf;
      match type of Hf with context [sessions ?x !! ?y] => destruct (sessions x !! y) end;
      injection Hf as <- <-; try done; rewrite leave_sessions; by apply Hset.
  - injection Hf as Hf. unfold handleJoinSession in Hf. case_decide; [by injection Hf as <- <-|].
    destruct (sessions s1 !! FSessionID f); injection Hf as <- <-; [|done]. rewrite leave_sessions.
    unfold add_member. destruct (sessions (set_sessions _ _) !! _); by apply Hset.
  - unfold handleListPeers in Hf. case_decide; [by injection Hf as <- <-|].
    destruct (sessions s1 !! sessionID nc1); [|done]. by injection Hf as <- <-.
  - injection Hf as Hf. unfold handleHeartbeat in Hf.
    rewrite (renewLease_spec s1 (ncid nc1) c nc1 now Hc Hnc1) in Hf. injection Hf as <- <-. by apply Hset.
Qed.

(** Traffic keeps a node alive.  Any frame that a live connection sends at
    time [t] (other than the join that [rejoin_panics] is about) protects its
    node from every reaper tick up to [t + LeaseTTL], unless the node's own
    record changes again. *)
Theorem lease_protects (RT : GoRuntime) (L : @RuntimeLaws RT) c f t s s' out nc now :
  consistent s → conns s !! c = Some nc → nodes s !! ncid nc = Some c →
  handleFrame c f t s = Ok (s', out) → now ≤ t + LeaseTTL (cfg s) →
  ncid nc ∉ expired_nodes now s'.
Proof.
  intros Hcons Hnc Hc Hf Hle Hin. apply elem_of_expired in Hin as (c' & nc' & Hc' & Hnc' & Hlt).
  destruct (handleFrame_frame c f t s s' out) as (Hn & _ & _ & Hx); [by exists nc|done|].
  rewrite Hn in Hc'. assert (c' = c) as -> by congruence. apply Hx in Hnc'. lia.
Qed.

(** ** What breaks the tables *)

(** A node that joins the session it is the only member of breaks the
    server.  The join is acknowledged but the session vanishes from the table
    (the node is put into an object that nobody can reach), and the node's
    next list-peers request panics the server. *)
Theorem rejoin_panics (RT : GoRuntime) c f now s f' now' :
  consistent s → live c s → sole_rejoin c f s → Kind f' = KindListPeersReq →
  ∃ s' out, handleFrame c f now s = Ok (s', out) ∧
    out = [Send c (reply_session KindJoinSessionResp (RequestID f) (FSessionID f))] ∧
    sessions s' !! FSessionID f = None ∧ handleFrame c f' now' s' = Panic.
Proof.
  intros Hcons (nc & Hnc & Hc) (nc' & sess & Hnc' & Hk & Hf & Hsess & Hmem) Hk'.
  assert (nc' = nc) as -> by congruence.
  destruct (proj1 (proj2 Hcons) _ _ Hsess) as (_ & Hne & _ & _).
  unfold handleFrame at 1. rewrite Hnc, (renewLease_spec s _ c nc now Hc Hnc).
  set (s1 := set_conn c _ s). set (nc1 := set_lease (now + LeaseTTL (cfg s)) nc).
  assert (conns s1 !! c = Some nc1) as Hnc1 by apply lookup_insert_eq. rewrite Hnc1. cbn [default from_option id].
  rewrite Hk. cbn [decide decide_rel]. rewrite decide_False by done. rewrite decide_True by done.
  unfold handleJoinSession. rewrite decide_False by (by rewrite Hf).
  assert (sessions s1 !! FSessionID f = Some sess) as Hs1 by (by rewrite Hf). rewrite Hs1.
  rewrite leave_sessions. unfold leave_sess. rewrite decide_False by done. unfold remove_sess.
  change (sessionID nc1) with (sessionID nc). change (ncid nc1) with (ncid nc).
  rewrite <- Hf, Hs1, Hmem, decide_True by set_solver.
  set (s2 := set_sessions (delete (FSessionID f) (sessions s1)) s1).
  assert (add_member (ncid nc) (FSessionID f) s2 = s2) as ->.
  { unfold add_member. by change (sessions s2) with (delete (FSessionID f) (sessions s1)); rewrite lookup_delete_eq. }
  eexists _, _. split_and!; [done|done|apply lookup_delete_eq|].
  set (s3 := set_conn c (set_sessionID (FSessionID f) nc1) s2).
  assert (conns s3 !! c = Some (set_sessionID (FSessionID f) nc1)) as Hnc3 by apply lookup_insert_eq.
  unfold handleFrame. rewrite Hnc3. change (ncid (set_sessionID (FSessionID f) nc1)) with (ncid nc).
  rewrite (renewLease_spec s3 (ncid nc) c (set_sessionID (FSessionID f) nc1) now' Hc Hnc3).
  cbn [conns set_conn]. rewrite lookup_insert_eq. cbn [default from_option id]. rewrite Hk'.
  rewrite decide_False by done. rewrite decide_False by done. rewrite decide_True by done.
  unfold handleListPeers. cbn [sessionID set_lease set_sessionID]. rewrite decide_False by (by rewrite Hf).
  change (sessions (set_conn _ _ s3)) with (delete (FSessionID f) (sessions s1)). by rewrite lookup_delete_eq.
Qed.

(** A late goodbye evicts a new connection.  When a node was reaped and
    has registered again under the same id, the deferred [disconnect] of the
    goroutine serving its old connection removes the new registration and
    closes the new connection. *)
Theorem stale_disconnect_evicts s id c nc :
  nodes s !! id = Some c → conns s !! c = Some nc →
  nodes (disconnect id s).1 !! id = None ∧ (disconnect id s).2 = [Close c].
Proof.
  intros Hc Hnc. unfold disconnect. rewrite Hc, Hnc. cbn [fst snd]. split; [|done].
  case_decide; [|rewrite remove_sessions]; cbn; apply lookup_delete_eq.
Qed.

(** ** Concrete runs *)

#[local] Existing Instance insertion_runtime.

Definition sample_cfg : DConfig := mkDConfig "127.0.0.1:9000" 10 30000000000 3.
Definition sample_server : Server := mkServer sample_cfg ∅ ∅ ∅ 0 0.

Definition frame_of (kind nodeID sid : string) : Frame :=
  mkFrame kind "r" nodeID sid "addr" "" [] false "" [] [] [] 0 [] 0 0.

Definition serve_all (es : list server_event) (s : Server) : Server :=
  fold_left (λ s e, match serve e s with Ok (s', _) => s' | _ => s end) es s.

(** Two nodes register, the first creates a table. *)
Definition lobby_run : list server_event :=
  [EvRegister 0 (frame_of KindRegisterReq "a" "") 0; EvRegister 1 (frame_of KindRegisterReq "b" "") 1;
   EvFrame 0 (frame_of KindCreateSessionReq "" "t") 2].

Definition lobby_state : Server := serve_all lobby_run sample_server.

Lemma serve_all_served es s :
  served s →
  (∀ n e, es !! n = Some e →
     well_behaved e (serve_all (take n es) s) ∧
     ∃ s' out, serve e (serve_all (take n es) s) = Ok (s', out)) →
  served (serve_all es s).
Proof.
  revert s. induction es as [|e es IH]; intros s Hs Hes; [done|]. cbn [serve_all fold_left].
  destruct (Hes 0%nat e eq_refl) as [Hw (s' & out & Hse)]. cbn in Hw, Hse. rewrite Hse.
  apply (IH s'); [by eapply served_event|]. intros n e' Hn. specialize (Hes (S n) e' Hn).
  cbn [take serve_all fold_left] in Hes. by rewrite Hse in Hes.
Qed.

Lemma lobby_state_served : served lobby_state.
Proof.
  apply serve_all_served; [by apply (served_start sample_cfg)|].
  intros n e Hn. assert (n = 0 ∨ n = 1 ∨ n = 2)%nat as Hcase
    by (apply lookup_lt_Some in Hn; cbn in Hn; lia).
  destruct Hcase as [->|[->| ->]]; injection Hn as <-.
  - split; [done|by eexists _, _].
  - split; [done|by eexists _, _].
  - split; [|by eexists _, _]. split; [|intros (? & ? & ? & Hk & _); discriminate Hk].
    eexists. split; reflexivity.
Qed.

Lemma lobby_join_ok : well_behaved (EvFrame 1 (frame_of KindJoinSessionReq "" "t") 3) lobby_state.
Proof.
  split; [eexists; split; reflexivity|].
  intros (nc & sess & Hnc & _ & Hf & _). vm_compute in Hnc. injection Hnc as <-. discriminate Hf.
Qed.

Lemma dispatch_refines_lobby_witness :
  ∃ s' out, serve (EvFrame 1 (frame_of KindJoinSessionReq "" "t") 3) lobby_state = Ok (s', out) ∧
    abs s' = <["b" := "t"]> (abs lobby_state).
Proof.
  destruct (dispatch_refines_lobby lobby_state (EvFrame 1 (frame_of KindJoinSessionReq "" "t") 3)
    lobby_state_served lobby_join_ok) as (s' & out & Hs & _ & Ha & _).
  exists s', out. split; [exact Hs|]. rewrite Ha. reflexivity.
Defined.

Definition sample_conn : nodeConn := mkNodeConn "a" "addr" "t" 12 false.

Lemma game_start_order_witness :
  ∃ order, NoDup order ∧ ∀ id, id ∈ order ↔ id ∈ members (mkSession "t" {["a"]} 30000000000 3).
Proof.
  destruct (game_start_order insertion_runtime insertion_laws 0 sample_conn lobby_state lobby_state
    (mkSession "t" {["a"]} 30000000000 3)) as (order & frame & _ & _ & _ & _ & Hnd & _ & Hin & _).
  - reflexivity.
  - exists order. split; assumption.
Defined.

Lemma reap_exact_witness :
  nodes (reap 12 lobby_state).1 !! "a" = Some 0%nat ↔
  nodes lobby_state !! "a" = Some 0%nat ∧ ∀ nc, conns lobby_state !! 0%nat = Some nc → 12 ≤ leaseUntil nc.
Proof.
  apply (reap_exact insertion_runtime insertion_laws 12 lobby_state "a" 0).
  apply served_consistent, lobby_state_served.
Defined.

Lemma lease_protects_witness :
  "b" ∉ expired_nodes 13 (serve_all [EvFrame 1 (frame_of KindHeartbeatReq "" "") 3] lobby_state).
Proof.
  apply (lease_protects insertion_runtime insertion_laws 1 (frame_of KindHeartbeatReq "" "") 3 lobby_state
    (serve_all [EvFrame 1 (frame_of KindHeartbeatReq "" "") 3] lobby_state)
    [Send 1 (mkFrame KindHeartbeatResp "r" "" "" "" "" [] true "" [] [] [] 0 [] 0 0)]
    (mkNodeConn "b" "addr" "" 11 false) 13).
  - apply served_consistent, lobby_state_served.
  - reflexivity.
  - reflexivity.
  - reflexivity.
  - vm_compute. discriminate.
Defined.

Lemma rejoin_panics_witness :
  ∃ s' out, handleFrame 0 (frame_of KindJoinSessionReq "" "t") 4 lobby_state = Ok (s', out) ∧
    handleFrame 0 (frame_of KindListPeersReq "" "") 5 s' = Panic.
Proof.
  destruct (rejoin_panics insertion_runtime 0 (frame_of KindJoinSessionReq "" "t") 4 lobby_state
    (frame_of KindListPeersReq "" "") 5) as (s' & out & Hs & _ & _ & Hp).
  - apply served_consistent, lobby_state_served.
  - eexists. split; reflexivity.
  - exists (mkNodeConn "a" "addr" "t" 12 false), (mkSession "t" {["a"]} 30000000000 3).
    split_and!; reflexivity.
  - reflexivity.
  - exists s', out. split; assumption.
Defined.

(** The node "a" is reaped and registers again on connection 2; then the
    goroutine of connection 0 says goodbye. *)
Definition reregistered : Server :=
  serve_all [EvDisconnect "a"; EvRegister 2 (frame_of KindRegisterReq "a" "") 20] lobby_state.

Lemma stale_disconnect_evicts_witness :
  nodes (disconnect "a" reregistered).1 !! "a" = None ∧ (disconnect "a" reregistered).2 = [Close 2].
Proof.
  apply (stale_disconnect_evicts reregistered "a" 2 (mkNodeConn "a" "addr" "" 30 false)); reflexivity.
Defined.
