(* ===== verification/DispatchServe.v ===== *)
(** * The dispatch server's connections ([internal/dispatch/server.go])

    [serve] accepts connections and runs a goroutine per connection
    ([handleConn]) beside the lease reaper.  A [dworld] is the server's tables
    with the place of every such goroutine; a step lets one of them, the
    listener or the reaper go on, at any time [now].  A connection's handle is
    its position in the order of acceptance. *)

From Stdlib Require Import ZArith Lia.
From stdpp Require Import base list gmap strings numbers relations.
From S2P Require Import Prelude Runtime Strconv Dispatch DispatchProps.

#[local] Open Scope Z_scope.

(** Before the first frame, in the loop over the frames of node [id], done. *)
Inductive conn_phase := ConnOpen | ConnServing (id : string) | ConnClosed.

#[export] Instance conn_phase_eq_dec : EqDecision conn_phase.
Proof. solve_decision. Defined.

(** [dw_shut] are the connections closed on either side; a handler's panic
    ends the process. *)
Record dworld := mkDWorld {
  dw_server : Server;
  dw_phases : list conn_phase;
  dw_shut : gset nat;
  dw_crashed : bool;
}.

Inductive dlabel :=
| DAccept
| DRegister (c : nat) (f : Frame) (now : Z)
| DDrop (c : nat)
| DFrame (c : nat) (f : Frame) (now : Z)
| DGone (c : nat)
| DReap (now : Z).

Definition closed_by (out : list output) : gset nat :=
  list_to_set (omap (λ o, match o with Close c => Some c | Send _ _ => None end) out).

Definition set_phase (c : nat) (p : conn_phase) (w : dworld) : list conn_phase := <[c := p]> (dw_phases w).

Section serve.
Context `{GoRuntime}.

(** The step of [handleConn] on connection [c], of [serve], of [leaseReaper]. *)
Definition conn_step (l : dlabel) (w : dworld) : option dworld :=
  if dw_crashed w then None
  else
    match l with
    | DAccept => Some (mkDWorld (dw_server w) (dw_phases w ++ [ConnOpen]) (dw_shut w) false)
    | DRegister c f now =>
        if decide (dw_phases w !! c = Some ConnOpen ∧ c ∉ dw_shut w) then
          let '(r, s, out) := register c f now (dw_server w) in
          Some (mkDWorld s (set_phase c (match r with Some nc => ConnServing (ncid nc) | None => ConnClosed end) w)
                  (closed_by out ∪ dw_shut w) false)
        else None
    | DDrop c =>
        if decide (dw_phases w !! c = Some ConnOpen)
        then Some (mkDWorld (dw_server w) (set_phase c ConnClosed w) ({[c]} ∪ dw_shut w) false) else None
    | DFrame c f now =>
        match dw_phases w !! c with
        | Some (ConnServing _) =>
            if decide (c ∈ dw_shut w) then None
            else
              match handleFrame c f now (dw_server w) with
              | Ok (s, out) => Some (mkDWorld s (dw_phases w) (closed_by out ∪ dw_shut w) false)
              | _ => Some (mkDWorld (dw_server w) (dw_phases w) (dw_shut w) true)
              end
        | _ => None
        end
    | DGone c =>
        match dw_phases w !! c with
        | Some (ConnServing id) =>
            let '(s, out) := disconnect id (dw_server w) in
            Some (mkDWorld s (set_phase c ConnClosed w) ({[c]} ∪ closed_by out ∪ dw_shut w) false)
        | _ => None
        end
    | DReap now =>
        let '(s, out) := reap now (dw_server w) in
        Some (mkDWorld s (dw_phases w) (closed_by out ∪ dw_shut w) false)
    end.

(** The clients keep to two rules: nobody registers under an id that another
    goroutine still serves, and nobody joins the session it is alone in. *)
Definition orderly (l : dlabel) (w : dworld) : Prop :=
  match l with
  | DRegister c f now =>
      ∀ nc s out c', register c f now (dw_server w) = (Some nc, s, out) → dw_phases w !! c' ≠ Some (ConnServing (ncid nc))
  | DFrame c f _ => ¬ sole_rejoin c f (dw_server w)
  | _ => True
  end.

Definition orderly_step (w w' : dworld) : Prop := ∃ l, orderly l w ∧ conn_step l w = Some w'.

End serve.

Definition start_serving (s : Server) : dworld := mkDWorld s [] ∅ false.
