(* ===== verification/DispatchServeProps.v ===== *)
(** * The dispatch server's connections: theorems *)

From Stdlib Require Import ZArith Lia.
From stdpp Require Import base list gmap strings numbers relations.
From S2P Require Import Prelude Runtime Strconv Dispatch DispatchProps DispatchServe.

#[local] Open Scope Z_scope.

(** The tables list exactly the connections that are being served and open. *)
Record tables_match (s : Server) (ph : list conn_phase) (shut : gset nat) : Prop := {
  tm_consistent : consistent s;
  tm_fresh : ∀ c, (ph !! c = None ∨ ph !! c = Some ConnOpen) → conns s !! c = None;
  tm_nodes : ∀ id c, nodes s !! id = Some c ↔ ph !! c = Some (ConnServing id) ∧ c ∉ shut;
  tm_unique : ∀ id c c', ph !! c = Some (ConnServing id) → ph !! c' = Some (ConnServing id) → c = c';
}.

Definition world_matches (w : dworld) : Prop :=
  dw_crashed w = false ∧ tables_match (dw_server w) (dw_phases w) (dw_shut w).

Lemma closed_by_app out out' : closed_by (out ++ out') = closed_by out ∪ closed_by out'.
Proof. unfold closed_by. by rewrite omap_app, list_to_set_app_L. Qed.

Lemma disconnect_cases id s :
  nodes_ok s →
  match nodes s !! id with
  | Some c => closed_by (disconnect id s).2 = {[c]} ∧ (∀ c', c' ≠ c → conns (disconnect id s).1 !! c' = conns s !! c')
  | None => disconnect id s = (s, [])
  end.
Proof.
  intros Hok. unfold disconnect. destruct (nodes s !! id) as [c|] eqn:Hc; [|done].
  destruct (Hok _ _ Hc) as (nc & Hnc & _). rewrite Hnc. cbn [fst snd]. split.
  - unfold closed_by. cbn. by rewrite right_id_L by apply _.
  - intros c' Hne. cbn. rewrite lookup_insert_ne by done. case_decide; [done|]. by rewrite remove_sessions.
Qed.

(** Disconnecting a node takes its entry and its connection away. *)
Lemma evict_matches id s ph shut :
  tables_match s ph shut → tables_match (disconnect id s).1 ph (closed_by (disconnect id s).2 ∪ shut).
Proof.
  intros [Hcons Hfresh Hnodes Hun]. pose proof (disconnect_cases id s (proj1 Hcons)) as Hd.
  destruct (nodes s !! id) as [c|] eqn:Hc.
  2: { rewrite Hd. constructor; [done|done| |done]. intros id' c'. cbn. rewrite Hnodes. set_solver. }
  destruct Hd as [Hout Hother]. constructor.
  - by apply disconnect_step.
  - intros c' Hc'. rewrite Hother; [by apply Hfresh|]. intros ->. apply Hnodes in Hc as [Hc _]. rewrite Hc in Hc'. by destruct Hc'.
  - intros id' c'. rewrite disconnect_nodes, Hout by apply Hcons. rewrite lookup_delete_Some, Hnodes.
    apply Hnodes in Hc as Hph. destruct Hph as [Hph _].
    split.
    + intros (Hne & Hp & Hs). split; [done|]. intros [->%elem_of_singleton|?]%elem_of_union; [|done]. congruence.
    + intros (Hp & Hs). apply not_elem_of_union in Hs as [Hs1 Hs2]. split_and!; [|done|done]. intros ->.
      apply Hs1, elem_of_singleton. by eapply Hun.
  - done.
Qed.

Lemma evict_all ids st ph shut :
  tables_match st.1 ph (closed_by st.2 ∪ shut) →
  let st' := fold_left (λ st id, let '(s', out) := disconnect id st.1 in (s', st.2 ++ out)) ids st in
  tables_match st'.1 ph (closed_by st'.2 ∪ shut).
Proof.
  revert st. induction ids as [|id ids IH]; intros st Hm; [done|]. cbn [fold_left]. apply IH.
  pose proof (evict_matches id _ _ _ Hm) as He. destruct (disconnect id st.1) as [s' out]. cbn [fst snd] in *.
  by rewrite closed_by_app, (comm_L (∪) (closed_by st.2)), <- assoc_L by apply _.
Qed.

Lemma phase_kept (ph : list conn_phase) c p c' :
  c' ≠ c → <[c := p]> ph !! c' = ph !! c'.
Proof. intros Hne. by apply list_lookup_insert_ne. Qed.

(** A goroutine that serves nobody may change its place. *)
Lemma close_matches s ph shut c shut' :
  tables_match s ph shut → (c < length ph)%nat → (∀ id, nodes s !! id ≠ Some c) → shut ⊆ shut' → (∀ c', c' ≠ c → c' ∈ shut' → c' ∈ shut) → tables_match s (<[c := ConnClosed]> ph) shut'.
Proof.
  intros [Hcons Hfresh Hnodes Hun] Hlt Hno Hsub Hback.
  assert (∀ c' p, <[c := ConnClosed]> ph !! c' = Some p → p ≠ ConnClosed → c' ≠ c ∧ ph !! c' = Some p) as Hinv.
  { intros c' p [(<- & <- & _)|[? ?]]%list_lookup_insert_Some; done. }
  constructor; [done| | |].
  - intros c' Hc'. destruct (decide (c' = c)) as [->|Hne]; [rewrite list_lookup_insert_eq in Hc' by done; by destruct Hc'|].
    rewrite phase_kept in Hc' by done. by apply Hfresh.
  - intros id c'. rewrite Hnodes. split.
    + intros [Hp Hs]. assert (c' ≠ c) as Hne by (intros ->; by eapply Hno, Hnodes). rewrite phase_kept by done. split; [done|].
      intros Hin. by apply Hs, Hback.
    + intros [[Hne Hp]%Hinv Hs]; [|done]. split; [done|]. set_solver.
  - intros id c1 c2 [_ H1]%Hinv [_ H2]%Hinv; [|done|done]. by eapply Hun.
Qed.

Section serve.
Context (RT : GoRuntime).

Lemma register_cases c f now s :
  match register c f now s with
  | (Some nc, s', out) => nodes s !! ncid nc = None ∧ nodes s' = <[ncid nc := c]> (nodes s) ∧ closed_by out = ∅ ∧
      ∀ c', c' ≠ c → conns s' !! c' = conns s !! c'
  | (None, s', out) => nodes s' = nodes s ∧ conns s' = conns s ∧ closed_by out = {[c]}
  end.
Proof.
  unfold register. case_decide; [|split_and!; [done..|]; unfold closed_by; cbn; by rewrite right_id_L by apply _].
  set (p := if decide (FNodeID f = "") then nextNodeID s else (FNodeID f, s)).
  assert (nodes p.2 = nodes s ∧ conns p.2 = conns s) as [Hn Hcs] by (unfold p; by case_decide).
  destruct p as [id s1]. cbn [fst snd] in *. destruct (nodes s1 !! id) as [c'|] eqn:Hid.
  - split_and!; [done..|]. unfold closed_by. cbn. by rewrite right_id_L by apply _.
  - cbn. rewrite <- Hn, <- Hcs. split_and!; [done..|]. intros c' Hne. by rewrite lookup_insert_ne.
Qed.

(** A handler closes no connection. *)
Lemma frame_closes_nothing c f now s s' out : handleFrame c f now s = Ok (s', out) → closed_by out = ∅.
Proof.
  intros Hf. enough (Forall (λ o, match o with Close _ => False | Send _ _ => True end) out) as Hall.
  { unfold closed_by. replace (omap _ out) with (@nil nat); [done|]. clear Hf.
    induction Hall as [|o out Ho _ IH]; [done|]. by destruct o. }
  unfold handleFrame in Hf. destruct (conns s !! c) as [nc0|]; [|done]. destruct (renewLease _ _ s) as [? s1].
  repeat case_decide; try (injection Hf as <- <-).
  - injection Hf as Hf. unfold handleCreateSession in Hf. destruct (if decide _ then _ else _) as [sid s2].
    destruct (sessions s2 !! sid); injection Hf as <- <-; by repeat constructor.
  - injection Hf as Hf. unfold handleJoinSession in Hf. repeat case_match; injection Hf as <- <-; by repeat constructor.
  - unfold handleListPeers in Hf. repeat case_match; simplify_eq; by repeat constructor.
  - by repeat constructor.
  - injection Hf as Hf. unfold handleHeartbeat in Hf. destruct (renewLease _ _ _). injection Hf as <- <-. by repeat constructor.
  - unfold handleGameStart. destruct (game_order _ _) as [[[ids t] a]|]; [|by repeat constructor].
    apply list.Forall_forall. intros x (c' & -> & _)%list_elem_of_fmap. done.
  - by repeat constructor.
Qed.

Lemma register_matches c f now s ph shut :
  tables_match s ph shut → ph !! c = Some ConnOpen → c ∉ shut →
  (∀ nc s' out c', register c f now s = (Some nc, s', out) → ph !! c' ≠ Some (ConnServing (ncid nc))) →
  let '(r, s', out) := register c f now s in
  tables_match s' (<[c := match r with Some nc => ConnServing (ncid nc) | None => ConnClosed end]> ph) (closed_by out ∪ shut).
Proof.
  intros Hm Hopen Hshut Hquiet. pose proof Hm as [Hcons Hfresh Hnodes Hun].
  assert (c < length ph)%nat as Hlt by (by eapply lookup_lt_Some).
  pose proof (register_step s c f now Hcons ltac:(apply Hfresh; by right)) as Hstep.
  pose proof (register_cases c f now s) as Hcase.
  destruct (register c f now s) as [[[nc|] s'] out]; destruct Hstep as [Hcons' _].
  - destruct Hcase as (Hnew & Hn & Hout & Hother). rewrite Hout, left_id_L by apply _.
    specialize (Hquiet nc s' out). constructor; [done| | |].
    + intros c' Hc'. destruct (decide (c' = c)) as [->|Hne]; [rewrite list_lookup_insert_eq in Hc' by done; by destruct Hc'|].
      rewrite phase_kept in Hc' by done. rewrite Hother by done. by apply Hfresh.
    + intros id c'. rewrite Hn, lookup_insert_Some, Hnodes. split.
      * intros [[<- <-]|(Hne & Hp & Hs)]; [by rewrite list_lookup_insert_eq|]. rewrite phase_kept; [done|].
        intros ->. congruence.
      * intros [[(<- & [= <-] & _)|[Hne Hp]]%list_lookup_insert_Some Hs]; [by left|]. right.
        split; [|done]. intros <-. by eapply Hquiet.
    + intros id c1 c2 [(<- & Hp1 & _)|[Hne1 H1]]%list_lookup_insert_Some [(<- & Hp2 & _)|[Hne2 H2]]%list_lookup_insert_Some;
        [done|injection Hp1 as <-; by apply Hquiet in H2|injection Hp2 as <-; by apply Hquiet in H1|by eapply Hun].
  - destruct Hcase as (Hn & Hcs & Hout). rewrite Hout.
    assert (tables_match s' ph shut) as Hm'.
    { constructor; [done|by rewrite Hcs|by rewrite Hn|done]. }
    apply (close_matches s' ph shut c); [done|done| |set_solver|set_solver].
    intros id Hid. apply (tm_nodes _ _ _ Hm') in Hid as [Hid _]. congruence.
Qed.

Lemma frame_matches c f now s s' out id ph shut :
  tables_match s ph shut → ph !! c = Some (ConnServing id) → c ∉ shut → ¬ sole_rejoin c f s →
  handleFrame c f now s = Ok (s', out) → tables_match s' ph shut.
Proof.
  intros Hm Hph Hshut Hsole Hf. pose proof Hm as [Hcons Hfresh Hnodes Hun].
  assert (nodes s !! id = Some c) as Hid by (by apply Hnodes).
  destruct (proj1 Hcons _ _ Hid) as (nc & Hnc & Hncid). assert (live c s) as Hlive by (exists nc; by rewrite Hncid).
  destruct (handleFrame_frame c f now s s' out Hlive Hf) as (Hn & _ & Hother & _).
  destruct (frame_step s c f now Hcons Hlive Hsole) as (s1 & out1 & Hf1 & Hcons1 & _). rewrite Hf in Hf1. injection Hf1 as <- <-.
  constructor; [done| |by rewrite Hn|done]. intros c' Hc'. rewrite Hother; [by apply Hfresh|]. intros ->. rewrite Hph in Hc'. by destruct Hc'.
Qed.

Lemma conn_step_matches w w' : world_matches w → orderly_step w w' → world_matches w'.
Proof.
  intros [Hcr Hm] (l & Ho & Hs). unfold conn_step in Hs. rewrite Hcr in Hs. pose proof Hm as [Hcons Hfresh Hnodes Hun].
  destruct l as [|c f now|c|c f now|c|now].
  - injection Hs as <-. split; [done|]. cbn. assert (∀ c id, (dw_phases w ++ [ConnOpen]) !! c = Some (ConnServing id) ↔
      dw_phases w !! c = Some (ConnServing id)) as Hph.
    { intros c id. rewrite lookup_app_Some. split; [|by left]. intros [?|[_ Hx]]; [done|].
      by destruct (c - length (dw_phases w))%nat. }
    constructor; [done| | |].
    + intros c Hc. apply Hfresh. destruct (dw_phases w !! c) as [p|] eqn:Hp; [|by left].
      rewrite (lookup_app_l_Some _ _ _ _ Hp) in Hc. destruct Hc; [done|by right].
    + intros id c. by rewrite Hph.
    + intros id c c'. rewrite !Hph. apply Hun.
  - case_decide as Hd; [|done]. destruct Hd as [Hopen Hshut].
    pose proof (register_matches c f now _ _ _ Hm Hopen Hshut Ho) as Hr.
    destruct (register c f now (dw_server w)) as [[r s'] out]. injection Hs as <-. done.
  - case_decide as Hopen; [|done]. injection Hs as <-. split; [done|].
    apply (close_matches _ _ (dw_shut w)); [done|by eapply lookup_lt_Some| |set_solver|set_solver].
    intros id Hid. apply Hnodes in Hid as [Hid _]. congruence.
  - destruct (dw_phases w !! c) as [[|id|]|] eqn:Hph; try done. case_decide as Hshut; [done|].
    assert (nodes (dw_server w) !! id = Some c) as Hid by (by apply Hnodes).
    destruct (proj1 Hcons _ _ Hid) as (nc & Hnc & Hncid).
    destruct (frame_step (dw_server w) c f now Hcons) as (s1 & out1 & Hf1 & _); [exists nc; by rewrite Hncid|done|].
    rewrite Hf1 in Hs. injection Hs as <-. split; [done|]. cbn.
    rewrite (frame_closes_nothing _ _ _ _ _ _ Hf1), left_id_L by apply _. by eapply frame_matches.
  - destruct (dw_phases w !! c) as [[|id|]|] eqn:Hph; try done.
    pose proof (evict_matches id _ _ _ Hm) as He. pose proof (disconnect_nodes (dw_server w) id (proj1 Hcons)) as Hdn.
    destruct (disconnect id (dw_server w)) as [s' out]. injection Hs as <-. split; [done|].
    apply (close_matches _ _ (closed_by out ∪ dw_shut w)); [exact He|by eapply lookup_lt_Some| |set_solver|set_solver].
    intros id' Hid'. apply (tm_nodes _ _ _ He) in Hid' as Hx. destruct Hx as [Hx _]. rewrite Hph in Hx. injection Hx as <-.
    cbn in Hdn, Hid'. by rewrite Hdn, lookup_delete_eq in Hid'.
  - pose proof (evict_all (expired_nodes now (dw_server w)) (dw_server w, []) (dw_phases w) (dw_shut w)) as He.
    unfold reap in Hs. cbn zeta in He. destruct (fold_left _ _ _) as [s' out]. injection Hs as <-. split; [done|].
    apply He. unfold closed_by. cbn. by rewrite left_id_L by apply _.
Qed.


End serve.

(** ** A node that comes back *)

#[local] Existing Instance insertion_runtime.

Definition conn_steps (ls : list dlabel) (w : dworld) : option dworld :=
  foldl (λ o l, w ← o; conn_step l w) (Some w) ls.

(** Alice connects, her lease runs out, the reaper closes her connection, and
    she connects again before the old goroutine notices. *)
Definition comeback : list dlabel :=
  [DAccept; DRegister 0 (frame_of KindRegisterReq "alice" "") 0; DReap 20; DAccept;
   DRegister 1 (frame_of KindRegisterReq "alice" "") 21].

(** The late goodbye throws her out.  In this run the node table has Alice's
    new connection; then the goroutine of the old connection ends, and the new
    one, served and never idle, is closed and no longer listed. *)
Theorem comeback_evicted :
  ∃ w w', conn_steps comeback (start_serving sample_server) = Some w ∧ conn_step (DGone 0) w = Some w' ∧
    nodes (dw_server w) !! "alice"%string = Some 1%nat ∧ dw_shut w = {[0%nat]} ∧
    nodes (dw_server w') !! "alice"%string = None ∧ dw_phases w' !! 1%nat = Some (ConnServing "alice") ∧ 1%nat ∈ dw_shut w'.
Proof.
  eexists _, _. split; [vm_compute; reflexivity|]. split; [vm_compute; reflexivity|].
  split_and!; vm_compute; reflexivity.
Qed.

(** ** Witnesses *)

Definition served_world : dworld := default (start_serving sample_server)
  (conn_steps [DAccept; DRegister 0 (frame_of KindRegisterReq "alice" "") 0] (start_serving sample_server)).

