(* ===== verification/GameState.v ===== *)
(** * Betting: actions and the replayed game state

    [internal/game/action.go] and [internal/game/state.go]: the [Action] wire
    format, the derived [State], [Replay] and [ValidateAction]; with the log
    [Entry] record of [internal/game/log.go], which [Replay] reads.

    A [uint8]/[uint64] is a [Z]; subtraction and addition wrap with [u64] where
    the source computes.  [Replay] has no error return: it either returns a
    state or panics on a seat outside the table. *)

From stdpp Require Import base list gmap strings numbers.
From Stdlib Require Import ZArith Lia.
From S2P Require Import Prelude.

#[local] Open Scope Z_scope.

(** ** action.go *)

Definition ActionFold : Z := 0.
Definition ActionCheck : Z := 1.
Definition ActionCall : Z := 2.
Definition ActionRaise : Z := 3.

Record Action := mkAction { Kind : Z; Amount : Z }.

#[export] Instance Action_eq_dec : EqDecision Action.
Proof. solve_decision. Defined.

Definition Action_Bytes (a : Action) : list Z := u8 (Kind a) :: be 8 (Amount a).

Inductive action_err := ActionBytesTooShort.

Definition UnmarshalAction (b : list Z) : res action_err Action :=
  if decide (length b < 9)%nat then Err ActionBytesTooShort
  else
    kind ← idx b 0;
    Ok (mkAction kind (unbe (take 8 (drop 1 b)))).

(** The values an [Action] of the source can hold. *)
Definition action_wf (a : Action) : Prop := 0 ≤ Kind a < 2 ^ 8 ∧ 0 ≤ Amount a < 2 ^ 64.

(** ** The log entry (log.go) *)

Record Entry := mkEntry {
  RoundID : Z;
  PlayerID : Z;
  EAction : Action;
  Signature : list Z;
  CoSigners : list Z;
  CoSignatures : list (list Z);
  Data : list Z
}.

#[export] Instance Entry_eq_dec : EqDecision Entry.
Proof. solve_decision. Defined.

(** ** state.go *)

Definition StreetPreflop : Z := 0.
Definition StreetFlop : Z := 1.
Definition StreetTurn : Z := 2.
Definition StreetRiver : Z := 3.
Definition StreetShowdown : Z := 4.

Record State := mkState {
  Stacks : list Z;
  Pot : Z;
  CurrentBet : Z;
  Contributions : list Z;
  Folded : list bool;
  NumPlayers : Z;
  Street : Z;
  HandOver : bool
}.

Definition NumNonFolded (s : State) : Z :=
  fold_left (λ n (f : bool), if f then n else n + 1) (Folded s) 0.
#[global] Arguments NumNonFolded : simpl never.

Definition set_folded (s : State) (f : list bool) : State :=
  mkState (Stacks s) (Pot s) (CurrentBet s) (Contributions s) f
    (NumPlayers s) (Street s) (HandOver s).

(** [s.Stacks[p] -= cost; s.Contributions[p] += cost; s.Pot += cost]. *)
Definition pay (s : State) (p cost : Z) : res Empty_set State :=
  st ← idx (Stacks s) p;
  stacks ← upd (Stacks s) p (u64 (st - cost));
  c ← idx (Contributions s) p;
  contribs ← upd (Contributions s) p (u64 (c + cost));
  Ok (mkState stacks (u64 (Pot s + cost)) (CurrentBet s) contribs (Folded s)
        (NumPlayers s) (Street s) (HandOver s)).

Definition set_bet (s : State) (b : Z) : State :=
  mkState (Stacks s) (Pot s) b (Contributions s) (Folded s)
    (NumPlayers s) (Street s) (HandOver s).

Definition set_over (s : State) : State :=
  mkState (Stacks s) (Pot s) (CurrentBet s) (Contributions s) (Folded s)
    (NumPlayers s) (Street s) true.

Definition set_street (s : State) (st : Z) : State :=
  mkState (Stacks s) (Pot s) (CurrentBet s) (Contributions s) (Folded s)
    (NumPlayers s) st (HandOver s).

(** [s.CurrentBet = 0; for i := range s.Contributions { s.Contributions[i] = 0 }]. *)
Definition new_street (s : State) : State :=
  mkState (Stacks s) (Pot s) 0 ((λ _, 0) <$> Contributions s) (Folded s)
    (NumPlayers s) (Street s) (HandOver s).

(** The [switch e.Action.Kind] of the replay loop; an unknown kind falls
    through with no effect. *)
Definition replay_action (e : Entry) (s : State) (unsettled : Z)
    : res Empty_set (State * Z) :=
  let p := PlayerID e in
  let k := Kind (EAction e) in
  if k =? ActionFold then
    f ← upd (Folded s) p true;
    Ok (set_folded s f, unsettled - 1)
  else if k =? ActionCheck then Ok (s, unsettled - 1)
  else if k =? ActionCall then
    c ← idx (Contributions s) p;
    st ← idx (Stacks s) p;
    let cost := Z.min (u64 (CurrentBet s - c)) st in
    s' ← pay s p cost;
    Ok (s', unsettled - 1)
  else if k =? ActionRaise then
    let raiseTo := Amount (EAction e) in
    c ← idx (Contributions s) p;
    st ← idx (Stacks s) p;
    let cost := Z.min (u64 (raiseTo - c)) st in
    s' ← pay s p cost;
    b ← idx (Contributions s') p;
    Ok (set_bet s' b, NumNonFolded s' - 1)
  else Ok (s, unsettled).

(** The end of the loop body: hand over, or the next street. *)
Definition replay_close (s : State) (unsettled : Z) : State * Z :=
  if NumNonFolded s <=? 1 then (set_over s, unsettled)
  else if unsettled =? 0 then
    let s1 := set_street s (u8 (Street s + 1)) in
    if StreetShowdown <=? Street s1 then (set_over s1, unsettled)
    else (new_street s1, NumNonFolded s1)
  else (s, unsettled).

Fixpoint replay_loop (entries : list Entry) (s : State) (unsettled : Z)
    : res Empty_set (State * Z) :=
  match entries with
  | [] => Ok (s, unsettled)
  | e :: es =>
      if HandOver s then Ok (s, unsettled)
      else
        su ← replay_action e s unsettled;
        let '(s', u') := replay_close su.1 su.2 in
        replay_loop es s' u'
  end.

Definition initial_state (numPlayers startingStack : Z) : State :=
  mkState (replicate (Z.to_nat numPlayers) startingStack) 0 0
    (replicate (Z.to_nat numPlayers) 0) (replicate (Z.to_nat numPlayers) false)
    numPlayers StreetPreflop false.

Definition Replay (entries : list Entry) (numPlayers startingStack : Z)
    : res Empty_set State :=
  su ← replay_loop entries (initial_state numPlayers startingStack) numPlayers;
  Ok su.1.

Inductive validate_err :=
| HandIsOver
| PlayerOutOfRange (p : Z)
| AlreadyFolded (p : Z)
| FoldNonzeroAmount
| CheckNonzeroAmount
| CannotCheck (owe : Z)
| CallNonzeroAmount
| NothingToCall
| RaiseTooSmall (raiseTo bet : Z)
| RaiseTooExpensive (cost stack : Z)
| UnknownActionKind (k : Z).

#[export] Instance validate_err_eq_dec : EqDecision validate_err.
Proof. solve_decision. Defined.

Definition ValidateAction (s : State) (playerID : Z) (action : Action)
    : res validate_err unit :=
  if HandOver s then Err HandIsOver
  else if Z.of_nat (length (Stacks s)) <=? playerID then Err (PlayerOutOfRange playerID)
  else
    f ← idx (Folded s) playerID;
    if (f : bool) then Err (AlreadyFolded playerID)
    else if Kind action =? ActionFold then
      if negb (Amount action =? 0) then Err FoldNonzeroAmount else Ok tt
    else if Kind action =? ActionCheck then
      if negb (Amount action =? 0) then Err CheckNonzeroAmount
      else
        c ← idx (Contributions s) playerID;
        if c <? CurrentBet s then Err (CannotCheck (u64 (CurrentBet s - c))) else Ok tt
    else if Kind action =? ActionCall then
      if negb (Amount action =? 0) then Err CallNonzeroAmount
      else
        c ← idx (Contributions s) playerID;
        if u64 (CurrentBet s - c) =? 0 then Err NothingToCall else Ok tt
    else if Kind action =? ActionRaise then
      let raiseTo := Amount action in
      if raiseTo <=? CurrentBet s then Err (RaiseTooSmall raiseTo (CurrentBet s))
      else
        c ← idx (Contributions s) playerID;
        let cost := u64 (raiseTo - c) in
        st ← idx (Stacks s) playerID;
        if st <? cost then Err (RaiseTooExpensive cost st) else Ok tt
    else Err (UnknownActionKind (Kind action)).
