(* ===== verification/GameStateProofs.v ===== *)
(** * Correctness of the replayed game state

    Two layers of invariant over [GameState].  [chips_ok] holds of every
    replay of entries whose seats are at the table, legal or not: chips move
    only between stacks and pot.  [betting_ok] adds what the legality checks
    guarantee along a hand, and gives the termination measure. *)

From stdpp Require Import base list gmap strings numbers.
From Stdlib Require Import ZArith Lia.
From S2P Require Import Prelude GameState.

#[local] Open Scope Z_scope.

(** ** Specification vocabulary *)

(** A table of [n] seats with [start] chips each: the bounds under which no
    [uint64] of the state can wrap. *)
Record table (n start : Z) : Prop := {
  tb_n : 0 ≤ n < 2 ^ 8;
  tb_start : 0 ≤ start;
  tb_total : n * start < 2 ^ 64
}.

Record chips_ok (n start : Z) (s : State) : Prop := {
  ck_players : NumPlayers s = n;
  ck_stacks_len : length (Stacks s) = Z.to_nat n;
  ck_contribs_len : length (Contributions s) = Z.to_nat n;
  ck_folded_len : length (Folded s) = Z.to_nat n;
  ck_stacks : Forall (λ x, 0 ≤ x) (Stacks s);
  ck_contribs : Forall (λ x, 0 ≤ x) (Contributions s);
  ck_total : sumZ (Stacks s) + Pot s = n * start;
  ck_pot : sumZ (Contributions s) ≤ Pot s;
  ck_bet : 0 ≤ CurrentBet s ≤ Pot s
}.

(** What the log admits in a state: a validated action, or the fold of a seat
    still in the hand (the auto-fold path). *)
Definition admissible (s : State) (e : Entry) : Prop :=
  action_wf (EAction e) ∧
  (ValidateAction s (PlayerID e) (EAction e) = Ok tt
   ∨ Kind (EAction e) = ActionFold ∧ 0 ≤ PlayerID e
     ∧ Folded s !! Z.to_nat (PlayerID e) = Some false).

(** One iteration of the replay loop on an admissible entry of a running hand. *)
Inductive hand_step : State * Z → Entry → State * Z → Prop :=
| hand_step_intro s u e s1 u1 :
    HandOver s = false → admissible s e →
    replay_action e s u = Ok (s1, u1) →
    hand_step (s, u) e (replay_close s1 u1).

Inductive hand_run (n start : Z) : list Entry → State * Z → Prop :=
| hand_run_nil : hand_run n start [] (initial_state n start, n)
| hand_run_snoc es su e su' :
    hand_run n start es su → hand_step su e su' → hand_run n start (es ++ [e]) su'.

Record betting_ok (s : State) (u : Z) : Prop := {
  bt_contribs : Forall (λ x, x ≤ CurrentBet s) (Contributions s);
  bt_street : 0 ≤ Street s ≤ StreetShowdown;
  bt_running : HandOver s = false →
    Street s < StreetShowdown ∧ 2 ≤ count_false (Folded s)
    ∧ 1 ≤ u ≤ count_false (Folded s);
  bt_over : HandOver s = true →
    count_false (Folded s) = 1 ∨ Street s = StreetShowdown ∧ 2 ≤ count_false (Folded s)
}.

(** The legal moves of a seat, in plain arithmetic: the rules of betting that
    [ValidateAction] decides. *)
Definition legal_move (s : State) (p : Z) (a : Action) : Prop :=
  ∃ st c, HandOver s = false ∧ 0 ≤ p ∧ Folded s !! Z.to_nat p = Some false
    ∧ Stacks s !! Z.to_nat p = Some st ∧ Contributions s !! Z.to_nat p = Some c
    ∧ (Kind a = ActionFold ∧ Amount a = 0
       ∨ Kind a = ActionCheck ∧ Amount a = 0 ∧ c = CurrentBet s
       ∨ Kind a = ActionCall ∧ Amount a = 0 ∧ c < CurrentBet s
       ∨ Kind a = ActionRaise ∧ CurrentBet s < Amount a ∧ Amount a - c ≤ st).

(** The termination measure of a running hand: chips behind, streets to go,
    players still to act. *)
Definition hand_measure (n : Z) (s : State) (u : Z) : Z :=
  if HandOver s then 0
  else sumZ (Stacks s) * (n + 1) + (StreetRiver - Street s) * n + u.

(** An executable form of [hand_run], for validated entries. *)
Definition step_okb (s : State) (e : Entry) : bool :=
  negb (HandOver s) && (0 <=? Kind (EAction e)) && (Kind (EAction e) <? 2 ^ 8)
  && (0 <=? Amount (EAction e)) && (Amount (EAction e) <? 2 ^ 64)
  && is_ok (ValidateAction s (PlayerID e) (EAction e)).

Fixpoint hand_exec (es : list Entry) (su : State * Z) : option (State * Z) :=
  match es with
  | [] => Some su
  | e :: es =>
      if step_okb su.1 e then
        match replay_action e su.1 su.2 with
        | Ok su1 => hand_exec es (replay_close su1.1 su1.2)
        | _ => None
        end
      else None
  end.

(** ** Lemmas *)

Lemma hand_exec_run n start pre es su su' :
  hand_run n start pre su → hand_exec es su = Some su' → hand_run n start (pre ++ es) su'.
Proof.
  revert pre su. induction es as [|e es IH]; intros pre [s u] Hr He.
  { cbn in He. simplify_eq. by rewrite app_nil_r. }
  cbn -[step_okb] in He. unfold step_okb in He.
  destruct (HandOver s) eqn:Ho; [done|]. cbn [negb andb fst] in He.
  destruct (_ && _) eqn:Hok in He; [|done].
  rewrite !andb_true_iff, !Z.leb_le, !Z.ltb_lt, is_ok_spec in Hok.
  destruct Hok as [[[[? ?] ?] ?] [[] Hv]].
  destruct (replay_action e s u) as [[s1 u1]| |] eqn:Hact; [|done..].
  rewrite cons_middle, app_assoc. apply (IH _ (replay_close s1 u1)); [|done].
  eapply hand_run_snoc; [exact Hr|]. eapply hand_step_intro; [done| |done].
  split; [by split|]. by left.
Qed.

Lemma hand_exec_sound n start es su :
  hand_exec es (initial_state n start, n) = Some su → hand_run n start es su.
Proof. apply (hand_exec_run n start []), hand_run_nil. Qed.

Lemma NumNonFolded_acc l k :
  fold_left (λ n (f : bool), if f then n else n + 1) l k = k + count_false l.
Proof.
  revert k. induction l as [|b l IH]; intros k; [symmetry; apply Z.add_0_r|].
  cbn [fold_left]. rewrite IH, count_false_cons. destruct b; lia.
Qed.

Lemma NumNonFolded_count s : NumNonFolded s = count_false (Folded s).
Proof. unfold NumNonFolded. by rewrite NumNonFolded_acc. Qed.

Lemma replay_loop_snoc es e s u :
  replay_loop (es ++ [e]) s u
  = (su ← replay_loop es s u; replay_loop [e] su.1 su.2).
Proof.
  revert s u. induction es as [|e' es IH]; intros s u; [done|].
  cbn [app replay_loop]. destruct (HandOver s) eqn:Ho; [by cbn; rewrite Ho|].
  destruct (replay_action e' s u) as [[s1 u1]| |]; [|done..].
  cbn [mbind res_bind fst snd]. destruct (replay_close s1 u1) as [s2 u2]. apply IH.
Qed.

Lemma hand_run_replay n start es s u :
  hand_run n start es (s, u) →
  replay_loop es (initial_state n start) n = Ok (s, u).
Proof.
  remember (s, u) as su eqn:E. intros Hr. revert s u E.
  induction Hr as [|es su e su' Hr IH Hs]; intros s u E; [by simplify_eq|].
  destruct Hs as [s0 u0 e s1 u1 Ho Ha Hstep].
  rewrite replay_loop_snoc, (IH _ _ eq_refl). cbn. rewrite Ho, Hstep. cbn.
  by rewrite E.
Qed.

(** With two players in the hand, some seat other than a given one is in it. *)
Lemma exists_other_unfolded (fs : list bool) (i : nat) :
  2 ≤ count_false fs → fs !! i = Some false →
  ∃ j, j ≠ i ∧ fs !! j = Some false.
Proof.
  intros Hc Hi. pose proof (count_false_insert fs i false true Hi) as Hins. cbv iota in Hins.
  destruct (count_false_witness (<[i:=true]> fs)) as [j Hj]; [lia|].
  exists j. destruct (decide (j = i)) as [->|Hne].
  - rewrite list_lookup_insert_eq in Hj by (by eapply lookup_lt_Some). done.
  - split; [done|]. by rewrite list_lookup_insert_ne in Hj.
Qed.

Section Table.
Context (n start : Z) (Ht : table n start).

Lemma initial_chips_ok : chips_ok n start (initial_state n start).
Proof.
  destruct Ht as [Hn Hs Ht']. constructor; cbn; rewrite ?length_replicate, ?sumZ_replicate;
    try apply Forall_replicate; lia.
Qed.

(** Paying [cost] chips the player has: no wrap, chips conserved. *)
Lemma pay_spec s p st c cost :
  chips_ok n start s → 0 ≤ p →
  Stacks s !! Z.to_nat p = Some st → Contributions s !! Z.to_nat p = Some c →
  0 ≤ cost ≤ st →
  let s' := mkState (<[Z.to_nat p := st - cost]> (Stacks s)) (Pot s + cost)
              (CurrentBet s) (<[Z.to_nat p := c + cost]> (Contributions s))
              (Folded s) (NumPlayers s) (Street s) (HandOver s) in
  pay s p cost = Ok s' ∧ chips_ok n start s'.
Proof.
  intros [Hn Hsl Hcl Hfl Hs Hc Htot Hpot Hbet] Hp Hst Hci Hcost s'.
  pose proof (lookup_lt_Some _ _ _ Hst) as Hlt1.
  pose proof (lookup_lt_Some _ _ _ Hci) as Hlt2.
  pose proof (sumZ_elem _ _ _ Hs Hst). pose proof (sumZ_elem _ _ _ Hc Hci).
  pose proof (sumZ_nonneg _ Hs). pose proof (sumZ_nonneg _ Hc).
  pose proof (Forall_lookup_1 _ _ _ _ Hc Hci) as Hc0. cbn in Hc0. destruct Ht as [? ? ?].
  assert (c + cost ≤ Pot s + cost ≤ n * start) by lia.
  split.
  - unfold pay. rewrite (proj2 (idx_Ok _ _ _) (conj Hp Hst)). cbn [mbind res_bind].
    rewrite upd_in_range by lia. cbn [mbind res_bind].
    rewrite (proj2 (idx_Ok _ _ _) (conj Hp Hci)). cbn [mbind res_bind].
    rewrite upd_in_range by lia. cbn [mbind res_bind].
    rewrite !u64_small by lia. done.
  - constructor; cbn; rewrite ?length_insert; try done.
    + apply Forall_insert; [done|lia].
    + apply Forall_insert; [done|lia].
    + rewrite (sumZ_insert _ _ _ _ Hst). lia.
    + rewrite (sumZ_insert _ _ _ _ Hci). lia.
    + lia.
Qed.

Lemma seat_lookups s p :
  chips_ok n start s → 0 ≤ p < n →
  ∃ st c f, Stacks s !! Z.to_nat p = Some st ∧ Contributions s !! Z.to_nat p = Some c
    ∧ Folded s !! Z.to_nat p = Some f ∧ 0 ≤ st ∧ 0 ≤ c.
Proof.
  intros [Hn Hsl Hcl Hfl Hs Hc _ _ _] Hp.
  destruct (lookup_lt_is_Some_2 (Stacks s) (Z.to_nat p)) as [st Hst]; [lia|].
  destruct (lookup_lt_is_Some_2 (Contributions s) (Z.to_nat p)) as [c Hci]; [lia|].
  destruct (lookup_lt_is_Some_2 (Folded s) (Z.to_nat p)) as [f Hf]; [lia|].
  exists st, c, f. split_and!; try done.
  - exact (Forall_lookup_1 _ _ _ _ Hs Hst).
  - exact (Forall_lookup_1 _ _ _ _ Hc Hci).
Qed.

(** The effect of one action on every branch of the switch. *)
Lemma replay_action_spec e s u :
  chips_ok n start s → 0 ≤ PlayerID e < n →
  ∃ st c f,
    Stacks s !! Z.to_nat (PlayerID e) = Some st ∧ 0 ≤ st ∧
    Contributions s !! Z.to_nat (PlayerID e) = Some c ∧ 0 ≤ c ∧
    Folded s !! Z.to_nat (PlayerID e) = Some f ∧
    let k := Kind (EAction e) in
    let paid cost :=
      mkState (<[Z.to_nat (PlayerID e) := st - cost]> (Stacks s)) (Pot s + cost)
        (CurrentBet s) (<[Z.to_nat (PlayerID e) := c + cost]> (Contributions s))
        (Folded s) (NumPlayers s) (Street s) (HandOver s) in
    let call := Z.min (u64 (CurrentBet s - c)) st in
    let raise := Z.min (u64 (Amount (EAction e) - c)) st in
    (0 ≤ call ≤ st ∧ chips_ok n start (paid call)) ∧
    (0 ≤ raise ≤ st ∧ chips_ok n start (paid raise)) ∧
    replay_action e s u =
      Ok (if k =? ActionFold then
            (set_folded s (<[Z.to_nat (PlayerID e) := true]> (Folded s)), u - 1)
          else if k =? ActionCheck then (s, u - 1)
          else if k =? ActionCall then (paid call, u - 1)
          else if k =? ActionRaise then
            (set_bet (paid raise) (c + raise), NumNonFolded s - 1)
          else (s, u)).
Proof.
  intros Hok Hp. destruct (seat_lookups _ _ Hok Hp) as (st & c & f & Hst & Hc & Hf & Hst0 & Hc0).
  exists st, c, f. do 5 (split; [done|]). cbv zeta.
  pose proof (u64_range (CurrentBet s - c)). pose proof (u64_range (Amount (EAction e) - c)).
  destruct (pay_spec s (PlayerID e) st c (Z.min (u64 (CurrentBet s - c)) st))
    as [Hcall Hcall']; [done|lia|done..|lia|].
  destruct (pay_spec s (PlayerID e) st c (Z.min (u64 (Amount (EAction e) - c)) st))
    as [Hraise Hraise']; [done|lia|done..|lia|].
  split; [split; [lia|done]|]. split; [split; [lia|done]|].
  pose proof (lookup_lt_Some _ _ _ Hf). pose proof (lookup_lt_Some _ _ _ Hc).
  assert (0 ≤ PlayerID e) as Hp0 by lia.
  unfold replay_action.
  destruct (_ =? ActionFold); [by rewrite upd_in_range by lia|].
  destruct (_ =? ActionCheck); [done|].
  destruct (_ =? ActionCall).
  { rewrite (proj2 (idx_Ok _ _ _) (conj Hp0 Hc)). cbn [mbind res_bind].
    rewrite (proj2 (idx_Ok _ _ _) (conj Hp0 Hst)). cbn [mbind res_bind].
    by rewrite Hcall. }
  destruct (_ =? ActionRaise); [|done].
  rewrite (proj2 (idx_Ok _ _ _) (conj Hp0 Hc)). cbn [mbind res_bind].
  rewrite (proj2 (idx_Ok _ _ _) (conj Hp0 Hst)). cbn [mbind res_bind].
  rewrite Hraise. cbn [mbind res_bind].
  rewrite (proj2 (idx_Ok _ _ (c + Z.min (u64 (Amount (EAction e) - c)) st))); [done|].
  split; [done|]. cbn. rewrite list_lookup_insert_eq; [done|lia].
Qed.

Lemma set_folded_chips s f :
  chips_ok n start s → length f = Z.to_nat n → chips_ok n start (set_folded s f).
Proof. intros [] ?. by constructor. Qed.

Lemma set_bet_chips s b :
  chips_ok n start s → 0 ≤ b ≤ Pot s → chips_ok n start (set_bet s b).
Proof. intros [] ?. by constructor. Qed.

Lemma replay_close_chips s u :
  chips_ok n start s → chips_ok n start (replay_close s u).1.
Proof.
  intros [Hn Hsl Hcl Hfl Hs Hc Htot Hpot Hbet]. unfold replay_close.
  destruct (_ <=? 1); [by constructor|]. destruct (_ =? 0); [|by constructor].
  destruct (_ <=? _); [by constructor|].
  pose proof (sumZ_nonneg _ Hc).
  constructor; cbn; rewrite ?length_fmap; try done.
  - apply Forall_fmap, Forall_true. intros; cbn; lia.
  - rewrite sumZ_zero. lia.
  - lia.
Qed.

Lemma replay_action_chips e s u :
  chips_ok n start s → 0 ≤ PlayerID e < n →
  ∃ s' u', replay_action e s u = Ok (s', u') ∧ chips_ok n start s'.
Proof.
  intros Hok Hp.
  destruct (replay_action_spec e s u Hok Hp)
    as (st & c & f & Hst & Hst0 & Hc & Hc0 & Hf & [? Hcall] & [Hr Hraise] & ->).
  repeat case_match; eexists _, _; (split; [done|]); try done.
  - apply set_folded_chips; [done|]. rewrite length_insert. apply Hok.
  - apply set_bet_chips; [done|]. destruct Hraise as [_ _ _ _ _ Hcs _ Hpot _].
    cbn in *. pose proof (lookup_lt_Some _ _ _ Hc).
    assert (<[Z.to_nat (PlayerID e) := c + Z.min (u64 (Amount (EAction e) - c)) st]>
              (Contributions s) !! Z.to_nat (PlayerID e)
            = Some (c + Z.min (u64 (Amount (EAction e) - c)) st)) as Hl
      by (apply list_lookup_insert_eq; lia).
    pose proof (sumZ_elem _ _ _ Hcs Hl). lia.
Qed.

Lemma replay_loop_chips es s u :
  chips_ok n start s → Forall (λ e, 0 ≤ PlayerID e < n) es →
  ∃ s' u', replay_loop es s u = Ok (s', u') ∧ chips_ok n start s'.
Proof.
  intros Hok Hes. revert s u Hok.
  induction Hes as [|e es He _ IH]; intros s u Hok; [by eauto|].
  cbn [replay_loop]. destruct (HandOver s); [by eauto|].
  destruct (replay_action_chips e s u Hok He) as (s1 & u1 & -> & Hok1).
  cbn [mbind res_bind fst snd].
  pose proof (replay_close_chips s1 u1 Hok1) as Hok2.
  destruct (replay_close s1 u1) as [s2 u2]. by apply IH.
Qed.

(** [ValidateAction] decides the legal moves. *)
Lemma ValidateAction_legal s u p a :
  chips_ok n start s → betting_ok s u → action_wf a →
  ValidateAction s p a = Ok tt ↔ legal_move s p a.
Proof.
  intros Hok Hb Ha. unfold ValidateAction, legal_move.
  destruct (HandOver s) eqn:Ho; [split; [done|naive_solver]|].
  rewrite (ck_stacks_len _ _ _ Hok).
  destruct (Z.leb_spec (Z.of_nat (Z.to_nat n)) p) as [Hge|Hlt].
  { split; [done|]. intros (st & c & _ & Hp & _ & Hst & _).
    apply lookup_lt_Some in Hst. rewrite (ck_stacks_len _ _ _ Hok) in Hst. lia. }
  destruct (decide (0 ≤ p)) as [Hp|Hp]; cycle 1.
  { split; [unfold idx; case_decide; [lia|]; intros [=]|]. intros (? & ? & _ & ? & _). lia. }
  destruct (seat_lookups s p Hok) as (st & c & f & Hst & Hc & Hf & Hst0 & Hc0); [lia|].
  rewrite !(proj2 (idx_Ok _ _ _) (conj Hp Hst)), !(proj2 (idx_Ok _ _ _) (conj Hp Hc)),
    !(proj2 (idx_Ok _ _ _) (conj Hp Hf)). cbn [mbind res_bind].
  pose proof (Forall_lookup_1 _ _ _ _ (bt_contribs _ _ Hb) Hc) as Hcb. cbn in Hcb.
  destruct Ht as [? ? ?]. pose proof (ck_bet _ _ _ Hok). pose proof (ck_total _ _ _ Hok).
  pose proof (sumZ_nonneg _ (ck_stacks _ _ _ Hok)). destruct Ha.
  assert (∀ x, 0 ≤ CurrentBet s - c → x = CurrentBet s - c → u64 x = x) as Hu1
    by (intros; apply u64_small; lia).
  transitivity (f = false ∧
    (Kind a = ActionFold ∧ Amount a = 0
     ∨ Kind a = ActionCheck ∧ Amount a = 0 ∧ c = CurrentBet s
     ∨ Kind a = ActionCall ∧ Amount a = 0 ∧ c < CurrentBet s
     ∨ Kind a = ActionRaise ∧ CurrentBet s < Amount a ∧ Amount a - c ≤ st)); cycle 1.
  { split; [naive_solver|]. intros (st' & c' & ?). naive_solver. }
  destruct f; [naive_solver|]. unfold ActionFold, ActionCheck, ActionCall, ActionRaise.
  zcases; cbn [negb]; try lia.
  all: try (split; [done|]; intros; lia).
  all: try (split; [|done]; intros _; split; [done|]; lia).
  all: rewrite ?u64_small in * by lia; split; intros; try done; lia.
Qed.

Lemma initial_betting_ok : 2 ≤ n → betting_ok (initial_state n start) n.
Proof.
  intros Hn. constructor; cbn; rewrite ?count_false_replicate; unfold StreetShowdown, StreetPreflop.
  - by apply Forall_replicate.
  - lia.
  - lia.
  - done.
Qed.

Lemma admissible_cases s u e :
  chips_ok n start s → betting_ok s u → admissible s e →
  let p := Z.to_nat (PlayerID e) in
  let k := Kind (EAction e) in
  ∃ st c, 0 ≤ PlayerID e < n ∧ Folded s !! p = Some false
    ∧ Stacks s !! p = Some st ∧ 0 ≤ st ∧ Contributions s !! p = Some c ∧ 0 ≤ c ≤ CurrentBet s
    ∧ (k = ActionFold ∨ k = ActionCheck ∨ k = ActionCall
       ∨ k = ActionRaise ∧ CurrentBet s < Amount (EAction e) ∧ Amount (EAction e) - c ≤ st).
Proof.
  intros Hok Hb [Hwf Ha] p k.
  assert (0 ≤ PlayerID e ∧ Folded s !! p = Some false) as [Hp Hf].
  { destruct Ha as [Ha|Ha]; [|naive_solver].
    apply (ValidateAction_legal s u) in Ha; [|done..]. destruct Ha as (?&?&?&?&?&?); done. }
  pose proof (lookup_lt_Some _ _ _ Hf) as Hlt. rewrite (ck_folded_len _ _ _ Hok) in Hlt.
  destruct (seat_lookups s (PlayerID e) Hok) as (st & c & f & Hst & Hc & Hf' & Hst0 & Hc0);
    [unfold p in *; lia|].
  pose proof (Forall_lookup_1 _ _ _ _ (bt_contribs _ _ Hb) Hc) as Hcb. cbn in Hcb.
  exists st, c. split_and!; try done; [unfold p in *; lia|].
  destruct Ha as [Ha|Ha]; [|naive_solver].
  apply (ValidateAction_legal s u) in Ha; [|done..].
  destruct Ha as (st' & c' & ? & ? & ? & Hst' & Hc' & Ha). unfold p in *. naive_solver.
Qed.

(** State and [unsettled] between the switch and the end of the loop body. *)
Record mid_ok (s : State) (u : Z) : Prop := {
  mid_contribs : Forall (λ x, x ≤ CurrentBet s) (Contributions s);
  mid_street : 0 ≤ Street s < StreetShowdown;
  mid_running : HandOver s = false;
  mid_unsettled : 0 ≤ u ≤ count_false (Folded s);
  mid_players : 1 ≤ count_false (Folded s)
}.

Lemma replay_close_betting s u :
  chips_ok n start s → mid_ok s u →
  betting_ok (replay_close s u).1 (replay_close s u).2
  ∧ 0 ≤ hand_measure n (replay_close s u).1 (replay_close s u).2
      ≤ sumZ (Stacks s) * (n + 1) + (StreetRiver - Street s) * n + u.
Proof.
  intros Hok [Hc Hs Ho Hu Hp]. unfold replay_close, hand_measure, StreetRiver, StreetShowdown in *.
  pose proof (sumZ_nonneg _ (ck_stacks _ _ _ Hok)). pose proof (tb_n _ _ Ht).
  pose proof (count_false_length (Folded s)) as Hcl. rewrite (ck_folded_len _ _ _ Hok) in Hcl.
  rewrite NumNonFolded_count.
  destruct (Z.leb_spec (count_false (Folded s)) 1).
  { cbn. split; [|nia]. constructor; cbn; try done; unfold StreetShowdown; lia. }
  destruct (Z.eqb_spec u 0); cycle 1.
  { cbn. rewrite Ho. split; [|nia]. constructor; cbn; try done; unfold StreetShowdown; try lia.
    congruence. }
  cbn. rewrite u8_small by lia. destruct (Z.leb_spec 4 (Street s + 1)).
  { cbn. split; [|nia]. constructor; cbn; try done; unfold StreetShowdown; lia. }
  cbn. rewrite Ho, NumNonFolded_count. cbn. split; [|nia].
  constructor; cbn; unfold StreetShowdown; try lia; try congruence.
  apply Forall_fmap, Forall_true. intros; cbn; lia.
Qed.

Lemma replay_action_betting s u e s1 u1 :
  chips_ok n start s → betting_ok s u → HandOver s = false → admissible s e →
  replay_action e s u = Ok (s1, u1) →
  chips_ok n start s1 ∧ mid_ok s1 u1 ∧ Street s1 = Street s
  ∧ sumZ (Stacks s1) * (n + 1) + u1 < sumZ (Stacks s) * (n + 1) + u.
Proof.
  intros Hok Hb Ho Ha Hact.
  destruct (admissible_cases s u e Hok Hb Ha)
    as (st & c & Hp & Hf & Hst & Hst0 & Hc & Hc0 & Hk).
  destruct (replay_action_spec e s u Hok Hp)
    as (st' & c' & f' & Hst' & _ & Hc' & _ & _ & [Hca Hcall] & [Hra Hraise] & Hspec).
  destruct (replay_action_chips e s u Hok Hp) as (s1' & u1' & Hact' & Hok1).
  rewrite Hact in Hact'; injection Hact' as <- <-.
  rewrite Hact in Hspec. clear Hact. injection Hspec as Hspec.
  destruct (bt_running _ _ Hb Ho) as (Hs4 & Hnf & Hu). pose proof (bt_street _ _ Hb).
  pose proof (bt_contribs _ _ Hb) as Hcb. destruct Ha as [[? ?] _].
  pose proof (ck_total _ _ _ Hok). pose proof (ck_bet _ _ _ Hok). destruct Ht as [? ? ?].
  pose proof (sumZ_nonneg _ (ck_stacks _ _ _ Hok)).
  pose proof (count_false_length (Folded s)) as Hcl. rewrite (ck_folded_len _ _ _ Hok) in Hcl.
  simplify_eq.
  split; [done|]. clear Hok1.
  destruct Hk as [Hk|[Hk|[Hk|(Hk & Hbet & Hafford)]]]; rewrite Hk in Hspec; cbn in Hspec;
    injection Hspec as -> ->.
  - pose proof (count_false_insert _ _ _ true Hf) as Hci. cbv iota in Hci.
    split; [|cbn; lia]. constructor; cbn; try done; lia.
  - split; [|cbn; lia]. constructor; cbn; try done; lia.
  - rewrite u64_small in * by lia. split.
    + constructor; cbn; try done; try lia. apply Forall_insert; [done|lia].
    + cbn. rewrite (sumZ_insert _ _ _ _ Hst). split; [done|]. nia.
  - rewrite (u64_small (Amount _ - c)) in * by lia. rewrite Z.min_l in * by lia.
    rewrite NumNonFolded_count. split.
    + constructor; cbn; try done; try lia.
      apply Forall_insert; [|lia]. eapply Forall_impl; [|exact Hcb]. cbn. lia.
    + cbn. rewrite (sumZ_insert _ _ _ _ Hst). split; [done|]. nia.
Qed.

Lemma hand_step_ok su e su' :
  hand_step su e su' → chips_ok n start su.1 → betting_ok su.1 su.2 →
  chips_ok n start su'.1 ∧ betting_ok su'.1 su'.2
  ∧ 0 ≤ hand_measure n su'.1 su'.2 < hand_measure n su.1 su.2.
Proof.
  intros [s u e' s1 u1 Ho Ha Hact] Hok Hb. cbn [fst snd] in *.
  destruct (replay_action_betting _ _ _ _ _ Hok Hb Ho Ha Hact) as (Hok1 & Hmid & Hst & Hlt).
  destruct (replay_close_betting s1 u1 Hok1 Hmid) as [Hb' Hm].
  split_and!; [by apply replay_close_chips|done|lia|].
  unfold hand_measure at 2. rewrite Ho, <- Hst. lia.
Qed.

Lemma hand_run_ok es su :
  2 ≤ n → hand_run n start es su →
  chips_ok n start su.1 ∧ betting_ok su.1 su.2
  ∧ 0 ≤ hand_measure n su.1 su.2
  ∧ Z.of_nat (length es) + hand_measure n su.1 su.2 ≤ n * start * (n + 1) + 4 * n.
Proof.
  intros Hn. induction 1 as [|es su e su' Hr IH Hs]; cbn [fst snd].
  - destruct Ht as [? ? ?].
    split_and!; [by apply initial_chips_ok|by apply initial_betting_ok|..];
      unfold hand_measure, StreetRiver; cbn; rewrite sumZ_replicate; unfold StreetPreflop; nia.
  - destruct IH as (Hok & Hb & Hm & Hle).
    destruct (hand_step_ok _ _ _ Hs Hok Hb) as (? & ? & ?).
    rewrite length_app; cbn [length]. split_and!; try done; lia.
Qed.

(** Every admissible entry of a running hand can be replayed: no panic. *)
Lemma hand_step_total s u e :
  chips_ok n start s → betting_ok s u → HandOver s = false → admissible s e →
  ∃ su', hand_step (s, u) e su'.
Proof.
  intros Hok Hb Ho Ha. destruct (admissible_cases s u e Hok Hb Ha) as (? & ? & Hp & _).
  destruct (replay_action_chips e s u Hok Hp) as (s1 & u1 & Hact & _).
  eexists. by eapply hand_step_intro.
Qed.
End Table.

(** ** Properties *)


(** A running hand is shorter than its measure at the start. *)
Lemma hand_bound n start es s u :
  table n start → 2 ≤ n → hand_run n start es (s, u) → HandOver s = false →
  Z.of_nat (length es) < n * start * (n + 1) + 4 * n.
Proof.
  intros Ht Hn Hr Ho. destruct (hand_run_ok n start Ht es (s, u) Hn Hr) as (Hok & Hb & _ & Hle).
  cbn [fst snd] in *. destruct (bt_running _ _ Hb Ho) as (Hst & _ & Hu).
  pose proof (sumZ_nonneg _ (ck_stacks _ _ _ Hok)). pose proof (tb_n _ _ Ht).
  unfold hand_measure in Hle. rewrite Ho in Hle. unfold StreetRiver, StreetShowdown in *. nia.
Qed.

(** A hand terminates.  At a table of [n >= 2] seats, a sequence of
    admissible entries that keeps the hand running after each of them is
    shorter than [n*start*(n+1) + 4n]: every action uses up chips, a street or
    a player still to act. *)
Theorem hand_terminates n start es s u :
  table n start → 2 ≤ n → hand_run n start es (s, u) → HandOver s = false →
  Z.of_nat (length es) < n * start * (n + 1) + 4 * n.
Proof. apply hand_bound. Qed.

(** C6: the betting invariant of a hand.  After any sequence of admissible
    entries, [Replay] returns the state the steps reach; nobody has put more on
    the street than the current bet; a running hand is on a betting street with
    at least two players, of whom between one and all still owe an action; a
    finished one has a single player left or reached the showdown. *)
Theorem hand_invariant n start es s u :
  table n start → 2 ≤ n → hand_run n start es (s, u) →
  Replay es n start = Ok s
  ∧ Forall (λ c, 0 ≤ c ≤ CurrentBet s) (Contributions s)
  ∧ (if HandOver s then
       NumNonFolded s = 1 ∨ Street s = StreetShowdown ∧ 2 ≤ NumNonFolded s
     else StreetPreflop ≤ Street s ≤ StreetRiver
          ∧ 2 ≤ NumNonFolded s ∧ 1 ≤ u ≤ NumNonFolded s).
Proof.
  intros Ht Hn Hr. destruct (hand_run_ok n start Ht es (s, u) Hn Hr) as (Hok & Hb & _ & _).
  cbn [fst snd] in *. rewrite !NumNonFolded_count. split_and!.
  - unfold Replay. by rewrite (hand_run_replay _ _ _ _ _ Hr).
  - apply Forall_lookup_2. intros i c Hc.
    pose proof (Forall_lookup_1 _ _ _ _ (ck_contribs _ _ _ Hok) Hc).
    pose proof (Forall_lookup_1 _ _ _ _ (bt_contribs _ _ Hb) Hc). cbn in *. lia.
  - pose proof (bt_street _ _ Hb).
    destruct (HandOver s) eqn:Ho; [by apply (bt_over _ _ Hb)|].
    pose proof (bt_running _ _ Hb Ho). unfold StreetPreflop, StreetRiver, StreetShowdown in *. lia.
Qed.

(** C25: [ValidateAction] decides the rules of betting.  In every state a hand
    reaches, an action is accepted exactly when it is a legal move: the hand
    runs, the seat is in it, and the action is a fold, a check with nothing
    owed, a call with something owed, or a raise above the bet that the stack
    covers; the wrapped [uint64] differences of the code are the true ones. *)
Theorem validate_action_correct n start es s u p a :
  table n start → 2 ≤ n → hand_run n start es (s, u) → action_wf a →
  ValidateAction s p a = Ok tt ↔ legal_move s p a.
Proof.
  intros Ht Hn Hr Ha. destruct (hand_run_ok n start Ht es (s, u) Hn Hr) as (Hok & Hb & _).
  by apply (ValidateAction_legal n start Ht s u).
Qed.

(** The wire format of an action round-trips: decoding the nine bytes of
    an action, with anything after them, gives the action back. *)
Theorem action_roundtrip a rest :
  action_wf a → UnmarshalAction (Action_Bytes a ++ rest) = Ok a.
Proof.
  intros [Hk Ha]. unfold UnmarshalAction, Action_Bytes. rewrite decide_False; cycle 1.
  { rewrite length_app. cbn [length]. rewrite length_be. lia. }
  change (drop 1 _) with (be 8 (Amount a) ++ rest).
  rewrite take_app_length' by (by rewrite length_be).
  rewrite unbe_be by (cbn; lia). cbn. rewrite u8_small by done. by destruct a.
Qed.

(** *** Witnesses *)

Definition bet (p k amt : Z) : Entry := mkEntry 0 p (mkAction k amt) [] [] [] [].


(** A two-seat hand: raise to 50, call, check, check. *)
Definition sample_hand : list Entry :=
  [bet 0 ActionRaise 50; bet 1 ActionCall 0; bet 0 ActionCheck 0; bet 1 ActionCheck 0].

Definition sample_state : State :=
  mkState [50; 50] 100 0 [0; 0] [false; false] 2 StreetTurn false.

Lemma sample_run : hand_run 2 100 sample_hand (sample_state, 2).
Proof. by apply hand_exec_sound. Qed.

Lemma table_2_100 : table 2 100.
Proof. split; lia. Qed.

Lemma hand_terminates_witness : Z.of_nat (length sample_hand) < 608.
Proof.
  exact (hand_terminates 2 100 sample_hand sample_state 2 table_2_100 ltac:(lia) sample_run eq_refl).
Defined.

Lemma hand_invariant_witness : Replay sample_hand 2 100 = Ok sample_state.
Proof.
  exact (proj1 (hand_invariant 2 100 sample_hand sample_state 2 table_2_100 ltac:(lia) sample_run)).
Defined.

Lemma validate_action_correct_witness :
  legal_move sample_state 1 (mkAction ActionRaise 50)
  ∧ ¬ legal_move sample_state 1 (mkAction ActionRaise 51).
Proof.
  split.
  - apply (validate_action_correct 2 100 sample_hand sample_state 2 1 (mkAction ActionRaise 50)
             table_2_100 ltac:(lia) sample_run); [by split; cbn|reflexivity].
  - intros H.
    apply (validate_action_correct 2 100 sample_hand sample_state 2 1 (mkAction ActionRaise 51)
             table_2_100 ltac:(lia) sample_run) in H; [discriminate|by split; cbn].
Defined.

Lemma action_roundtrip_witness :
  UnmarshalAction (Action_Bytes (mkAction ActionRaise 1000) ++ [7]) = Ok (mkAction ActionRaise 1000).
Proof. apply (action_roundtrip (mkAction ActionRaise 1000) [7]). by split; cbn. Defined.
