(* ===== verification/GameLog.v ===== *)
(** * The action log

    [internal/game/log.go] on top of [internal/crypto/log/log.go]: the entry
    encoding that is hashed and signed, proposals, auto-fold attestations and
    verify receipts.

    SHA-256 and Ed25519 are not part of the repository: they are the operations
    of the class [SigScheme], and [SigLaws] states what the documentation of
    [crypto/ed25519] promises of them. *)

From stdpp Require Import base list gmap strings numbers.
From Stdlib Require Import ZArith Lia Ascii.
From S2P Require Import Prelude GameState.

#[local] Open Scope Z_scope.

(** ** The signature interface (crypto/ed25519, crypto/sha256) *)

Definition PublicKeySize : Z := 32.
Definition PrivateKeySize : Z := 64.
Definition SignatureSize : Z := 64.

Class SigScheme := {
  sha256_Sum256 : list Z → list Z;
  ed25519_Public : list Z → list Z;
  ed25519_Sign : list Z → list Z → list Z;
  ed25519_Verify : list Z → list Z → list Z → bool
}.

Class SigLaws (C : SigScheme) : Prop := {
  sha256_size m : Z.of_nat (length (sha256_Sum256 m)) = 32;
  sign_verify sk m :
    Z.of_nat (length sk) = PrivateKeySize →
    ed25519_Verify (ed25519_Public sk) m (ed25519_Sign sk m) = true;
  public_size sk :
    Z.of_nat (length sk) = PrivateKeySize →
    Z.of_nat (length (ed25519_Public sk)) = PublicKeySize;
  verify_size pk m sig :
    ed25519_Verify pk m sig = true → Z.of_nat (length sig) = SignatureSize
}.

(** The bytes of a Go string. *)
Definition string_bytes (s : string) : list Z :=
  (λ c, Z.of_nat (nat_of_ascii c)) <$> String.list_ascii_of_string s.

Definition len {A} (l : list A) : Z := Z.of_nat (length l).

Section WithCrypto.
Context `{C : SigScheme}.

(** ** crypto/log: both functions panic on a key of the wrong size, as the
    [ed25519] package does. *)

Definition Sign (sk payload : list Z) : res Empty_set (list Z) :=
  if len sk =? PrivateKeySize then Ok (ed25519_Sign sk (sha256_Sum256 payload)) else Panic.

Definition Verify (pk payload sig : list Z) : res Empty_set bool :=
  if len pk =? PublicKeySize then Ok (ed25519_Verify pk (sha256_Sum256 payload) sig) else Panic.
End WithCrypto.

(** ** Entries *)

Definition autoFoldTag : list Z := string_bytes "auto_fold".

Definition IsAutoFold (e : Entry) : bool :=
  (Kind (EAction e) =? ActionFold) && (len (Signature e) =? 0).

(** The loop [for i, signer := range e.CoSigners], which reads
    [e.CoSignatures[i]]. *)
Fixpoint cosig_bytes (signers : list Z) (sigs : list (list Z)) (i : Z)
    : res Empty_set (list Z) :=
  match signers with
  | [] => Ok []
  | signer :: rest =>
      sig ← idx sigs i;
      tail ← cosig_bytes rest sigs (i + 1);
      Ok (signer :: be 2 (u16 (len sig)) ++ sig ++ tail)
  end.

Definition Entry_Bytes (e : Entry) : res Empty_set (list Z) :=
  cosigs ← (if IsAutoFold e then
              cs ← cosig_bytes (CoSigners e) (CoSignatures e) 0;
              Ok (u8 (len (CoSigners e)) :: cs)
            else Ok []);
  Ok (be 8 (RoundID e) ++ [PlayerID e] ++ Action_Bytes (EAction e)
      ++ be 2 (u16 (len (Signature e))) ++ Signature e
      ++ cosigs
      ++ be 4 (u32 (len (Data e))) ++ Data e).

(** ** The log *)

Record Log := mkLog { entries : list Entry; numPlayers : Z; startingStack : Z }.

Definition NewLog (np stack : Z) : Log := mkLog [] np stack.

Definition Log_RoundID (l : Log) : Z := u64 (len (entries l)).

Fixpoint entries_bytes (es : list Entry) : res Empty_set (list Z) :=
  match es with
  | [] => Ok []
  | e :: es =>
      b ← Entry_Bytes e;
      rest ← entries_bytes es;
      Ok (b ++ rest)
  end.

Definition Log_Bytes (l : Log) : res Empty_set (list Z) := entries_bytes (entries l).

Definition Log_Replay (l : Log) : res Empty_set State :=
  Replay (entries l) (numPlayers l) (startingStack l).

(** [for i := range n]: the first seat, from [start] on, that has not folded. *)
Fixpoint next_unfolded (folded : list bool) (start n i : Z) (fuel : nat) : res Empty_set Z :=
  match fuel with
  | O => Ok (u8 start)
  | S fuel' =>
      if i <? n then
        let cand := u8 (u64 (start + i) mod n) in
        f ← idx folded cand;
        if (f : bool) then next_unfolded folded start n (i + 1) fuel' else Ok cand
      else Ok (u8 start)
  end.

Definition ExpectedNextPlayer (l : Log) : res Empty_set Z :=
  if numPlayers l =? 0 then Ok 0
  else
    state ← Log_Replay l;
    let n := numPlayers l in
    let start := Log_RoundID l mod n in
    next_unfolded (Folded state) start n 0 (Z.to_nat n).

Definition Append (l : Log) (e : Entry) : Log :=
  mkLog (entries l ++ [e]) (numPlayers l) (startingStack l).

Definition RollbackLast (l : Log) : Log :=
  mkLog (take (length (entries l) - 1) (entries l)) (numPlayers l) (startingStack l).

Section Protocol.
Context `{C : SigScheme}.

Definition Log_Hash (l : Log) : res Empty_set (list Z) :=
  b ← Log_Bytes l; Ok (sha256_Sum256 b).

(** *** Auto-fold *)

Definition autoFoldPayload (l : Log) (roundID targetSeat : Z) : res Empty_set (list Z) :=
  logBytes ← Log_Bytes l;
  Ok (logBytes ++ autoFoldTag ++ be 8 roundID ++ [targetSeat]).

Definition BuildAutoFoldAttestation (l : Log) (roundID targetSeat : Z) (sk : list Z)
    : res Empty_set (list Z) :=
  payload ← autoFoldPayload l roundID targetSeat; Sign sk payload.

Inductive log_err :=
| AttestorNoPublicKey
| InvalidAttestation
| AutoFoldRoundMismatch (got want : Z)
| NotAnAutoFold
| AutoFoldTargetOutOfRange (p : Z)
| AutoFoldTargetFolded (p : Z)
| NoEligibleAttestors
| CoSignerCount (got want : Z)
| CoSignatureCount (got want : Z)
| CoSignerMismatch (i got want : Z)
| AttestorUnregistered (seat : Z)
| AttestorRejected (seat : Z) (e : log_err)
| RoundMismatch
| PlayerMismatch
| VerifierNoPublicKey
| InvalidProposalSignature
| IllegalAction (e : validate_err)
| ReceiptRoundMismatch (got want : Z)
| ReceiptHashMismatch
| InvalidReceiptSignature (p : Z).

Definition VerifyAutoFoldAttestation (l : Log) (roundID targetSeat : Z) (pk sig : list Z)
    : res log_err unit :=
  if negb (len pk =? PublicKeySize) then Err AttestorNoPublicKey
  else
    payload ← no_err (autoFoldPayload l roundID targetSeat);
    ok ← no_err (Verify pk payload sig);
    if (ok : bool) then Ok tt else Err InvalidAttestation.

(** [for seat := uint8(0); seat < l.numPlayers; seat++]. *)
Fixpoint attestors_from (folded : list bool) (target seat : Z) (fuel : nat)
    : res Empty_set (list Z) :=
  match fuel with
  | O => Ok []
  | S fuel' =>
      if seat =? target then attestors_from folded target (seat + 1) fuel'
      else
        f ← idx folded seat;
        rest ← attestors_from folded target (seat + 1) fuel';
        Ok (if (f : bool) then rest else seat :: rest)
  end.

Definition ExpectedAutoFoldAttestors (l : Log) (targetSeat : Z) : res Empty_set (list Z) :=
  state ← Log_Replay l;
  attestors_from (Folded state) targetSeat 0 (Z.to_nat (numPlayers l)).

(** The loop over [e.CoSigners]. *)
Fixpoint check_cosigners (l : Log) (e : Entry) (pks : gmap Z (list Z))
    (expected signers : list Z) (i : Z) : res log_err unit :=
  match signers with
  | [] => Ok tt
  | seat :: rest =>
      want ← idx expected i;
      if negb (seat =? want) then Err (CoSignerMismatch i seat want)
      else
        match pks !! seat with
        | None => Err (AttestorUnregistered seat)
        | Some pk =>
            sig ← idx (CoSignatures e) i;
            _ ← wrap_err (AttestorRejected seat)
                  (VerifyAutoFoldAttestation l (RoundID e) (PlayerID e) pk sig);
            check_cosigners l e pks expected rest (i + 1)
        end
  end.

Definition VerifyAutoFoldEntry (l : Log) (e : Entry) (pks : gmap Z (list Z))
    : res log_err unit :=
  if negb (RoundID e =? Log_RoundID l) then
    Err (AutoFoldRoundMismatch (RoundID e) (Log_RoundID l))
  else if negb (IsAutoFold e) then Err NotAnAutoFold
  else if numPlayers l <=? PlayerID e then Err (AutoFoldTargetOutOfRange (PlayerID e))
  else
    state ← no_err (Log_Replay l);
    f ← idx (Folded state) (PlayerID e);
    if (f : bool) then Err (AutoFoldTargetFolded (PlayerID e))
    else
      expected ← no_err (ExpectedAutoFoldAttestors l (PlayerID e));
      if len expected =? 0 then Err NoEligibleAttestors
      else if negb (len (CoSigners e) =? len expected) then
        Err (CoSignerCount (len (CoSigners e)) (len expected))
      else if negb (len (CoSignatures e) =? len (CoSigners e)) then
        Err (CoSignatureCount (len (CoSignatures e)) (len (CoSigners e)))
      else check_cosigners l e pks expected (CoSigners e) 0.

(** The mutated log and the returned error. *)
Definition AppendAutoFold (l : Log) (e : Entry) (pks : gmap Z (list Z))
    : Log * res log_err unit :=
  match VerifyAutoFoldEntry l e pks with
  | Ok _ => (Append l e, Ok tt)
  | Err err => (l, Err err)
  | Panic => (l, Panic)
  end.

(** *** Proposals *)

Definition BuildProposal (l : Log) (playerID : Z) (action : Action) (sk : list Z)
    : res Empty_set Entry :=
  logBytes ← Log_Bytes l;
  sig ← Sign sk (logBytes ++ Action_Bytes action);
  Ok (mkEntry (Log_RoundID l) playerID action sig [] [] []).

Definition VerifyProposal (l : Log) (p : Entry) (pk : list Z) : res log_err unit :=
  if negb (RoundID p =? Log_RoundID l) then Err RoundMismatch
  else
    want ← no_err (ExpectedNextPlayer l);
    if negb (PlayerID p =? want) then Err PlayerMismatch
    else if negb (len pk =? PublicKeySize) then Err VerifierNoPublicKey
    else
      logBytes ← no_err (Log_Bytes l);
      ok ← no_err (Verify pk (logBytes ++ Action_Bytes (EAction p)) (Signature p));
      if negb ok then Err InvalidProposalSignature
      else
        state ← no_err (Log_Replay l);
        wrap_err IllegalAction (ValidateAction state (PlayerID p) (EAction p)).

(** *** Verify receipts *)

Record VerifyReceipt := mkReceipt {
  R_RoundID : Z;
  R_PlayerID : Z;
  R_PostLogHash : list Z;
  R_Signature : list Z
}.

Definition verify_payload (hash : list Z) (roundID : Z) : list Z :=
  hash ++ string_bytes "verify" ++ be 8 roundID.

Definition BuildVerifyReceipt (l : Log) (playerID : Z) (sk : list Z)
    : res Empty_set VerifyReceipt :=
  hash ← Log_Hash l;
  let roundID := u64 (Log_RoundID l - 1) in
  sig ← Sign sk (verify_payload hash roundID);
  Ok (mkReceipt roundID playerID hash sig).

Definition VerifyVerifyReceipt (l : Log) (r : VerifyReceipt) (pk : list Z)
    : res log_err unit :=
  if negb (R_RoundID r =? u64 (Log_RoundID l - 1)) then
    Err (ReceiptRoundMismatch (R_RoundID r) (u64 (Log_RoundID l - 1)))
  else
    hash ← no_err (Log_Hash l);
    if negb (bool_decide (R_PostLogHash r = hash)) then Err ReceiptHashMismatch
    else
      ok ← no_err (Verify pk (verify_payload (R_PostLogHash r) (R_RoundID r)) (R_Signature r));
      if (ok : bool) then Ok tt else Err (InvalidReceiptSignature (R_PlayerID r)).
End Protocol.
