(* ===== verification/GameLogProofs.v ===== *)
(** * Correctness of the action log

    The entry encoding is uniquely decodable, so the bytes that are hashed and
    signed determine the history; proposals, auto-folds and receipts accept
    exactly what the protocol says; logs grown through the checks satisfy the
    invariant of the game state. *)

From stdpp Require Import base list gmap strings numbers.
From Stdlib Require Import ZArith Lia Ascii.
From S2P Require Import Prelude GameState GameStateProofs GameLog.

#[local] Open Scope Z_scope.

(** ** Specification vocabulary *)

(** An entry whose variable-length fields fit their length prefixes. *)
Record entry_wf (e : Entry) : Prop := {
  ew_round : 0 ≤ RoundID e < 2 ^ 64;
  ew_action : action_wf (EAction e);
  ew_sig : len (Signature e) < 2 ^ 16;
  ew_data : len (Data e) < 2 ^ 32;
  ew_cosigners : IsAutoFold e = true → len (CoSigners e) < 2 ^ 8;
  ew_cosigs : IsAutoFold e = true →
    length (CoSignatures e) = length (CoSigners e)
    ∧ Forall (λ s, len s < 2 ^ 16) (CoSignatures e)
}.

(** What the encoding of an entry carries: the co-signature section of a
    signed entry is not encoded. *)
Definition encoded_part (e : Entry) : Entry :=
  if IsAutoFold e then e
  else mkEntry (RoundID e) (PlayerID e) (EAction e) (Signature e) [] [] (Data e).

(** A decoder of the encoding, the inverse of [Entry_Bytes]. *)
Definition split_at (n : nat) (l : list Z) : option (list Z * list Z) :=
  if decide (n ≤ length l)%nat then Some (take n l, drop n l) else None.

Fixpoint parse_cosigs (n : nat) (b : list Z) : option (list Z * list (list Z) * list Z) :=
  match n with
  | O => Some ([], [], b)
  | S n' =>
      '(signer, b) ← split_at 1 b;
      '(sl, b) ← split_at 2 b;
      '(sig, b) ← split_at (Z.to_nat (unbe sl)) b;
      '(signers, sigs, b) ← parse_cosigs n' b;
      Some (signer ++ signers, sig :: sigs, b)
  end.

Definition parse_entry (b : list Z) : option (Entry * list Z) :=
  '(round, b) ← split_at 8 b;
  '(player, b) ← split_at 1 b;
  '(kind, b) ← split_at 1 b;
  '(amount, b) ← split_at 8 b;
  '(sl, b) ← split_at 2 b;
  '(sig, b) ← split_at (Z.to_nat (unbe sl)) b;
  '(signers, sigs, b) ←
    (if (unbe kind =? ActionFold) && (len sig =? 0) then
       '(cnt, b) ← split_at 1 b; parse_cosigs (Z.to_nat (unbe cnt)) b
     else Some ([], [], b));
  '(dl, b) ← split_at 4 b;
  '(data, b) ← split_at (Z.to_nat (unbe dl)) b;
  Some (mkEntry (unbe round) (unbe player) (mkAction (unbe kind) (unbe amount))
          sig signers sigs data, b).

(** ** Decoding inverts encoding *)

Lemma split_at_app n l1 l2 : length l1 = n → split_at n (l1 ++ l2) = Some (l1, l2).
Proof.
  intros <-. unfold split_at. rewrite decide_True by (rewrite length_app; lia).
  by rewrite take_app_length, drop_app_length.
Qed.

Lemma split_at_1 x l : split_at 1 (x :: l) = Some ([x], l).
Proof. apply (split_at_app 1 [x]). done. Qed.

Lemma unbe_single x : unbe [x] = x.
Proof. unfold unbe. cbn. lia. Qed.

#[local] Opaque be unbe split_at.

Lemma Z_len {A} (l : list A) : 0 ≤ len l.
Proof. unfold len. lia. Qed.

Lemma len_be2 {A} (l : list A) : len l < 2 ^ 16 → Z.to_nat (unbe (be 2 (u16 (len l)))) = length l.
Proof.
  intros. pose proof (Z_len l). rewrite u16_small, unbe_be by (cbn; lia). unfold len. lia.
Qed.

Lemma len_be4 {A} (l : list A) : len l < 2 ^ 32 → Z.to_nat (unbe (be 4 (u32 (len l)))) = length l.
Proof.
  intros. pose proof (Z_len l). rewrite u32_small, unbe_be by (cbn; lia). unfold len. lia.
Qed.

Lemma cosig_bytes_parse signers sigs pre rest b :
  length sigs = length signers → Forall (λ s, len s < 2 ^ 16) sigs →
  cosig_bytes signers (pre ++ sigs) (len pre) = Ok b →
  parse_cosigs (length signers) (b ++ rest) = Some (signers, sigs, rest).
Proof.
  revert sigs pre b. induction signers as [|s signers IH]; intros [|g sigs] pre b Hl Hw Hb;
    simplify_eq/=; [done|].
  inv_res. inversion Hw; subst.
  match goal with H : _ !! _ = Some _ |- _ => unfold len in H; rewrite Nat2Z.id, list_lookup_middle in H by done end.
  simplify_eq.
  match goal with H : cosig_bytes _ (_ ++ ?y :: _) _ = Ok ?t |- _ =>
    rename H into Ht; rename t into tl; rename y into g end.
  rewrite split_at_1. cbn [mbind option_bind]. rewrite <- !(assoc_L (++)).
  rewrite split_at_app by apply length_be. cbn [mbind option_bind]. rewrite len_be2 by done.
  rewrite split_at_app by done. cbn [mbind option_bind].
  rewrite (IH sigs (pre ++ [g]) tl); [done|lia|done|].
  rewrite <- (assoc_L (++)). rewrite <- Ht. f_equal. unfold len. rewrite length_app. cbn. lia.
Qed.

Lemma parse_Entry_Bytes e b rest :
  entry_wf e → Entry_Bytes e = Ok b → parse_entry (b ++ rest) = Some (encoded_part e, rest).
Proof.
  intros [Hr [Hk Ha] Hs Hd Hc Hg] Hb. unfold Entry_Bytes in Hb.
  apply res_bind_Ok in Hb as (cs & Hcs & [= <-]).
  unfold parse_entry, Action_Bytes. rewrite <- !(assoc_L (++)).
  rewrite split_at_app by apply length_be. cbn [mbind option_bind].
  cbn [app]. rewrite split_at_1. cbn [mbind option_bind].
  rewrite split_at_1. cbn [mbind option_bind].
  rewrite <- !(assoc_L (++)), split_at_app by apply length_be. cbn [mbind option_bind].
  rewrite split_at_app by apply length_be. cbn [mbind option_bind].
  rewrite len_be2 by done. rewrite split_at_app by done. cbn [mbind option_bind].
  rewrite !unbe_single, u8_small by done.
  unfold encoded_part, IsAutoFold in *.
  destruct ((_ =? ActionFold) && _) eqn:Haf; cycle 1.
  - injection Hcs as <-. cbn [mbind option_bind app].
    rewrite split_at_app by apply length_be. cbn [mbind option_bind].
    rewrite len_be4 by done. rewrite split_at_app by done. cbn [mbind option_bind].
    rewrite !unbe_be by (cbn; lia). by destruct e as [? ? [] ? ? ? ?].
  - apply res_bind_Ok in Hcs as (cs' & Hcs & [= <-]).
    destruct (Hg eq_refl) as [Hgl Hgw]. specialize (Hc eq_refl). pose proof (Z_len (CoSigners e)).
    cbn [app]. rewrite split_at_1. cbn [mbind option_bind]. rewrite unbe_single, u8_small by done.
    unfold len at 1. rewrite Nat2Z.id.
    rewrite (cosig_bytes_parse (CoSigners e) (CoSignatures e) [] _ cs') by done.
    cbn [mbind option_bind]. rewrite split_at_app by apply length_be. cbn [mbind option_bind].
    rewrite len_be4 by done. rewrite split_at_app by done. cbn [mbind option_bind].
    rewrite !unbe_be by (cbn; lia). by destruct e as [? ? [] ? ? ? ?].
Qed.

Lemma Entry_Bytes_length e b : Entry_Bytes e = Ok b → (24 + length (Signature e) ≤ length b)%nat.
Proof.
  unfold Entry_Bytes. intros Hb. apply res_bind_Ok in Hb as (cs & _ & [= <-]).
  unfold Action_Bytes. rewrite !length_app. cbn [length app].
  rewrite !length_app, !length_be. lia.
Qed.

(** The encoding is uniquely decodable, also with up to 23 bytes after it: the
    suffixes the protocol appends (9 and 18 bytes) are shorter than any entry. *)
Lemma entries_bytes_cons e es b :
  entries_bytes (e :: es) = Ok b ↔
  ∃ c r, Entry_Bytes e = Ok c ∧ entries_bytes es = Ok r ∧ b = c ++ r.
Proof.
  cbn [entries_bytes]. rewrite res_bind_Ok. setoid_rewrite res_bind_Ok.
  split; [intros (c & Hc & r & Hr & [= <-])|intros (c & r & Hc & Hr & ->)]; eauto 6.
Qed.

Lemma entries_bytes_inj es1 es2 b1 b2 t1 t2 :
  Forall entry_wf es1 → Forall entry_wf es2 →
  entries_bytes es1 = Ok b1 → entries_bytes es2 = Ok b2 →
  (length t1 < 24)%nat → (length t2 < 24)%nat →
  b1 ++ t1 = b2 ++ t2 →
  encoded_part <$> es1 = encoded_part <$> es2 ∧ t1 = t2.
Proof.
  intros Hw1 Hw2 Hb1 Hb2 Ht1 Ht2. revert es2 b1 b2 Hw2 Hb1 Hb2.
  induction Hw1 as [|e1 es1 He1 Hw1 IH]; intros es2 b1 b2 Hw2 Hb1 Hb2 Heq;
    destruct Hw2 as [|e2 es2 He2 Hw2];
    rewrite ?entries_bytes_cons in *; try destruct Hb1 as (c1 & r1 & Hc1 & Hr1 & ->);
    try destruct Hb2 as (c2 & r2 & Hc2 & Hr2 & ->).
  - cbn in *. by simplify_eq.
  - cbn in Hb1. simplify_eq/=. apply Entry_Bytes_length in Hc2.
    rewrite !length_app in Ht1. lia.
  - cbn in Hb2. injection Hb2 as <-. apply Entry_Bytes_length in Hc1.
    cbn in Heq. rewrite <- Heq, !length_app in Ht2. lia.
  - rewrite <- !(assoc_L (++)) in Heq.
    pose proof (parse_Entry_Bytes _ _ (r1 ++ t1) He1 Hc1) as Hp1.
    pose proof (parse_Entry_Bytes _ _ (r2 ++ t2) He2 Hc2) as Hp2.
    rewrite Heq, Hp2 in Hp1. injection Hp1 as Hee Hrr.
    destruct (IH es2 r1 r2 Hw2 Hr1 Hr2 (eq_sym Hrr)) as [Hes ->].
    split; [|done]. cbn. by rewrite Hee, Hes.
Qed.

(** Every entry of an accepted log is at least 88 bytes long. *)
Lemma entries_bytes_length es b :
  Forall (λ e, ∀ c, Entry_Bytes e = Ok c → (88 ≤ length c)%nat) es →
  entries_bytes es = Ok b → b = [] ∨ (88 ≤ length b)%nat.
Proof.
  destruct 1 as [|e es He _]; [by intros [= <-]; left|].
  rewrite entries_bytes_cons. intros (c & r & Hc & _ & ->). right.
  rewrite length_app. specialize (He c Hc). lia.
Qed.

(** ** What [Replay] reads of an entry *)

Definition replayed (e : Entry) : Z * Action := (PlayerID e, EAction e).

Lemma replay_action_ext e1 e2 s u :
  replayed e1 = replayed e2 → replay_action e1 s u = replay_action e2 s u.
Proof. unfold replayed, replay_action. by intros [= -> ->]. Qed.

Lemma replay_loop_ext es1 es2 s u :
  replayed <$> es1 = replayed <$> es2 → replay_loop es1 s u = replay_loop es2 s u.
Proof.
  revert es2 s u. induction es1 as [|e1 es1 IH]; intros [|e2 es2] s u Heq; simplify_eq/=; [done|].
  rewrite (replay_action_ext e1 e2) by (unfold replayed; congruence).
  destruct (HandOver s); [done|]. destruct (replay_action e2 s u) as [[s1 u1]| |]; [|done..].
  cbn. destruct (replay_close s1 u1). by apply IH.
Qed.

Lemma encoded_part_replayed e : replayed (encoded_part e) = replayed e.
Proof. unfold encoded_part. by destruct (IsAutoFold e). Qed.

(** Two logs the protocol cannot tell apart: same table, same encoded entries. *)
Definition same_history (l1 l2 : Log) : Prop :=
  numPlayers l1 = numPlayers l2 ∧ startingStack l1 = startingStack l2
  ∧ encoded_part <$> entries l1 = encoded_part <$> entries l2.

#[export] Instance same_history_equiv : Equivalence same_history.
Proof. unfold same_history. split; red; [done|naive_solver|]. intros ? ? ?. naive_solver congruence. Qed.

#[export] Instance Log_Replay_proper : Proper (same_history ==> eq) Log_Replay.
Proof.
  intros l1 l2 (Hn & Hs & He). unfold Log_Replay, Replay. rewrite Hn, Hs.
  rewrite (replay_loop_ext (entries l1) (entries l2)); [done|].
  apply (f_equal (fmap replayed)) in He. rewrite <- !list_fmap_compose in He.
  etransitivity; [|etransitivity; [exact He|]];
    apply list_fmap_ext; intros; cbn; by rewrite encoded_part_replayed.
Qed.

#[export] Instance Log_RoundID_proper : Proper (same_history ==> eq) Log_RoundID.
Proof.
  intros l1 l2 (_ & _ & He). unfold Log_RoundID, len.
  apply (f_equal length) in He. rewrite !length_fmap in He. by rewrite He.
Qed.

#[export] Instance ExpectedNextPlayer_proper : Proper (same_history ==> eq) ExpectedNextPlayer.
Proof.
  intros l1 l2 Hl. unfold ExpectedNextPlayer.
  rewrite (Log_Replay_proper _ _ Hl), (Log_RoundID_proper _ _ Hl).
  destruct Hl as (-> & _ & _). done.
Qed.

(** ** Turn order *)

(** [q] is the first seat in the hand at or after the seat of this round. *)
Definition first_unfolded (folded : list bool) (start n q : Z) : Prop :=
  ∃ d, 0 ≤ d < n ∧ q = (start + d) mod n ∧ folded !! Z.to_nat q = Some false
    ∧ ∀ d', 0 ≤ d' < d → folded !! Z.to_nat ((start + d') mod n) = Some true.

Lemma next_unfolded_spec folded start n i fuel :
  0 ≤ start < n → 0 < n < 2 ^ 8 → length folded = Z.to_nat n →
  0 ≤ i ≤ n → (Z.to_nat (n - i) ≤ fuel)%nat →
  (∀ d', 0 ≤ d' < i → folded !! Z.to_nat ((start + d') mod n) = Some true) →
  ∃ q, next_unfolded folded start n i fuel = Ok q
    ∧ (first_unfolded folded start n q
       ∨ q = start ∧ ∀ d, 0 ≤ d < n → folded !! Z.to_nat ((start + d) mod n) = Some true).
Proof.
  intros Hs Hn Hl. revert i. induction fuel as [|fuel IH]; intros i Hi Hf Hd; cbn [next_unfolded].
  - exists start. rewrite u8_small by lia. split; [done|]. right. split; [done|].
    intros d Hd'. apply Hd. lia.
  - destruct (Z.ltb_spec i n); cycle 1.
    { exists start. rewrite u8_small by lia. split; [done|]. right. split; [done|].
      intros d Hd'. apply Hd. lia. }
    rewrite u64_small by lia. pose proof (Z.mod_pos_bound (start + i) n). rewrite u8_small by lia.
    destruct (idx_in_range (E:=Empty_set) folded ((start + i) mod n)) as (f & Hf' & ->); [lia|].
    cbn. destruct f.
    + apply IH; [lia..|]. intros d' Hd'. destruct (decide (d' = i)) as [->|]; [done|]. apply Hd. lia.
    + exists ((start + i) mod n). split; [done|]. left. exists i. split_and!; [lia|lia|done..].
Qed.

Lemma all_seats_reached (P : Z → Prop) start n :
  0 < n → 0 ≤ start < n → (∀ d, 0 ≤ d < n → P ((start + d) mod n)) → ∀ q, 0 ≤ q < n → P q.
Proof.
  intros Hn Hs HP q Hq. specialize (HP ((q - start) mod n)).
  rewrite Z.add_mod_idemp_r in HP by lia.
  replace (start + (q - start)) with q in HP by lia. rewrite (Z.mod_small q n) in HP by lia.
  apply HP. apply Z.mod_pos_bound. lia.
Qed.

Lemma ExpectedNextPlayer_spec l s :
  0 < numPlayers l < 2 ^ 8 → Log_Replay l = Ok s → length (Folded s) = Z.to_nat (numPlayers l) →
  0 < count_false (Folded s) →
  ∃ q, ExpectedNextPlayer l = Ok q
    ∧ first_unfolded (Folded s) (Log_RoundID l mod numPlayers l) (numPlayers l) q.
Proof.
  intros Hn Hr Hl Hc. unfold ExpectedNextPlayer. rewrite (proj2 (Z.eqb_neq _ _)) by lia.
  rewrite Hr. cbn [mbind res_bind].
  pose proof (Z.mod_pos_bound (Log_RoundID l) (numPlayers l)).
  destruct (next_unfolded_spec (Folded s) (Log_RoundID l mod numPlayers l) (numPlayers l) 0
              (Z.to_nat (numPlayers l))) as (q & -> & Hq); [lia..|].
  exists q. split; [done|]. destruct Hq as [Hq|[_ Hall]]; [done|]. exfalso.
  pose proof (all_seats_reached (λ q, Folded s !! Z.to_nat q = Some true) _ _
                (proj1 Hn) (Z.mod_pos_bound _ _ (proj1 Hn)) Hall) as Hall'.
  cut (count_false (Folded s) = 0); [lia|].
  assert (Forall (eq true) (Folded s)) as Ht.
  { apply Forall_lookup_2. intros i f Hf. pose proof (lookup_lt_Some _ _ _ Hf).
    specialize (Hall' (Z.of_nat i)). cbn beta in Hall'. rewrite Nat2Z.id in Hall'.
    rewrite Hall' in Hf by lia. congruence. }
  clear -Ht. induction Ht as [|f fs <- _ IH]; [done|]. by rewrite count_false_cons, IH.
Qed.

(** ** Proposals *)

Section Proofs.
Context `{C : SigScheme}.

Lemma Verify_true pk payload sig :
  Verify pk payload sig = Ok true ↔
  len pk = PublicKeySize ∧ ed25519_Verify pk (sha256_Sum256 payload) sig = true.
Proof.
  unfold Verify. destruct (Z.eqb_spec (len pk) PublicKeySize).
  - split; [by intros [= ->]|by intros [_ ->]].
  - split; [done|by intros [? _]].
Qed.

Lemma VerifyProposal_Ok l p pk :
  VerifyProposal l p pk = Ok tt ↔
  ∃ b s, RoundID p = Log_RoundID l ∧ ExpectedNextPlayer l = Ok (PlayerID p)
    ∧ Log_Bytes l = Ok b
    ∧ Verify pk (b ++ Action_Bytes (EAction p)) (Signature p) = Ok true
    ∧ Log_Replay l = Ok s ∧ ValidateAction s (PlayerID p) (EAction p) = Ok tt.
Proof.
  setoid_rewrite Verify_true. unfold VerifyProposal. split.
  - destruct (Z.eqb_spec (RoundID p) (Log_RoundID l)) as [Hr|]; [|done]. cbn [negb]. intros H.
    apply res_bind_Ok in H as (want & Hw & H). apply no_err_Ok in Hw.
    destruct (Z.eqb_spec (PlayerID p) want) as [<-|]; [|done]. cbn [negb] in H.
    destruct (Z.eqb_spec (len pk) PublicKeySize) as [Hk|]; [|done]. cbn [negb] in H.
    apply res_bind_Ok in H as (b & Hb & H). apply no_err_Ok in Hb.
    apply res_bind_Ok in H as (ok & Hok & H). apply no_err_Ok in Hok.
    destruct ok; [|done]. cbn [negb] in H. apply Verify_true in Hok as [_ Hok].
    apply res_bind_Ok in H as (s & Hs & H). apply no_err_Ok in Hs. apply wrap_err_Ok in H.
    by exists b, s.
  - intros (b & s & Hr & Hw & Hb & [Hk Hok] & Hs & Hv).
    rewrite Hr, Z.eqb_refl, Hw. cbn. rewrite Z.eqb_refl, Hk. cbn. rewrite Hb. cbn.
    rewrite (proj2 (Verify_true _ _ _) (conj Hk Hok)). cbn. rewrite Hs. cbn. by rewrite Hv.
Qed.

(** A signature that verifies over two different payloads under one key: a
    forgery against the signature scheme or a collision of the hash. *)
Definition double_verifies (pk sig : list Z) : Prop :=
  ∃ x y, x ≠ y ∧ Verify pk x sig = Ok true ∧ Verify pk y sig = Ok true.

Lemma Action_Bytes_inj a1 a2 :
  action_wf a1 → action_wf a2 → Action_Bytes a1 = Action_Bytes a2 → a1 = a2.
Proof.
  intros [Hk1 Ha1] [Hk2 Ha2] H. unfold Action_Bytes in H.
  apply (app_inj_1 [_] [_]) in H as [[= Hk] Ha]; [|done].
  rewrite !u8_small in Hk by done. apply (f_equal unbe) in Ha.
  rewrite !unbe_be in Ha by (cbn; lia). destruct a1, a2. cbn in *. congruence.
Qed.

Lemma Action_Bytes_length a : length (Action_Bytes a) = 9%nat.
Proof. unfold Action_Bytes. cbn [length]. by rewrite length_be. Qed.

Lemma proposal_same_payload l1 l2 p1 p2 b1 b2 :
  Forall entry_wf (entries l1) → Forall entry_wf (entries l2) →
  action_wf (EAction p1) → action_wf (EAction p2) →
  numPlayers l1 = numPlayers l2 → startingStack l1 = startingStack l2 →
  Log_Bytes l1 = Ok b1 → Log_Bytes l2 = Ok b2 →
  b1 ++ Action_Bytes (EAction p1) = b2 ++ Action_Bytes (EAction p2) →
  same_history l1 l2 ∧ EAction p1 = EAction p2.
Proof.
  intros Hw1 Hw2 Ha1 Ha2 Hn Hs Hb1 Hb2 Heq.
  destruct (entries_bytes_inj (entries l1) (entries l2) b1 b2
              (Action_Bytes (EAction p1)) (Action_Bytes (EAction p2)) Hw1 Hw2 Hb1 Hb2)
    as [He Ha]; [rewrite Action_Bytes_length; lia..|done|].
  split; [by split_and!|]. by apply Action_Bytes_inj.
Qed.

(** *** Auto-fold *)

Lemma attestors_from_spec folded target seat fuel :
  0 ≤ seat → (Z.to_nat seat + fuel = length folded)%nat →
  attestors_from folded target seat fuel
  = Ok (filter (λ q, q ≠ target ∧ folded !! Z.to_nat q = Some false) (seqZ seat (Z.of_nat fuel))).
Proof.
  revert seat. induction fuel as [|fuel IH]; intros seat Hs Hl; [done|].
  cbn [attestors_from]. rewrite seqZ_cons by lia. rewrite filter_cons.
  replace (Z.pred (Z.of_nat (S fuel))) with (Z.of_nat fuel) by lia.
  replace (Z.succ seat) with (seat + 1) by lia.
  destruct (Z.eqb_spec seat target) as [->|Hne].
  { rewrite decide_False by naive_solver. apply IH; lia. }
  destruct (idx_in_range (E:=Empty_set) folded seat) as (f & Hf & ->); [lia|].
  cbn [mbind res_bind]. rewrite IH by lia. cbn [mbind res_bind].
  destruct f; [rewrite decide_False by naive_solver|rewrite decide_True by done]; done.
Qed.

Lemma ExpectedAutoFoldAttestors_spec l s target :
  0 ≤ numPlayers l → Log_Replay l = Ok s → length (Folded s) = Z.to_nat (numPlayers l) →
  ExpectedAutoFoldAttestors l target
  = Ok (filter (λ q, q ≠ target ∧ Folded s !! Z.to_nat q = Some false) (seqZ 0 (numPlayers l))).
Proof.
  intros Hn Hr Hl. unfold ExpectedAutoFoldAttestors. rewrite Hr. cbn [mbind res_bind].
  rewrite attestors_from_spec by lia. by rewrite Z2Nat.id by lia.
Qed.

Lemma VerifyAutoFoldAttestation_Ok l round target pk sig :
  VerifyAutoFoldAttestation l round target pk sig = Ok tt ↔
  ∃ payload, autoFoldPayload l round target = Ok payload ∧ Verify pk payload sig = Ok true.
Proof.
  setoid_rewrite Verify_true. unfold VerifyAutoFoldAttestation. split.
  - destruct (Z.eqb_spec (len pk) PublicKeySize) as [Hk|]; [|done]. cbn [negb]. intros H.
    apply res_bind_Ok in H as (payload & Hp & H). apply no_err_Ok in Hp.
    apply res_bind_Ok in H as (ok & Hok & H). apply no_err_Ok in Hok.
    destruct ok; [|done]. apply Verify_true in Hok. eauto.
  - intros (payload & Hp & Hk & Hok). rewrite Hk, Z.eqb_refl, Hp. cbn.
    by rewrite (proj2 (Verify_true _ _ _) (conj Hk Hok)).
Qed.

(** What the loop over the co-signers checks. *)
Definition cosigner_ok (l : Log) (e : Entry) (pks : gmap Z (list Z)) (expected : list Z)
    (i : nat) (seat : Z) : Prop :=
  expected !! i = Some seat ∧ ∃ pk sig, pks !! seat = Some pk ∧ CoSignatures e !! i = Some sig
    ∧ VerifyAutoFoldAttestation l (RoundID e) (PlayerID e) pk sig = Ok tt.

Lemma check_cosigners_Ok l e pks expected signers i :
  check_cosigners l e pks expected signers (Z.of_nat i) = Ok tt ↔
  ∀ j seat, signers !! j = Some seat → cosigner_ok l e pks expected (i + j) seat.
Proof.
  revert i. induction signers as [|q signers IH]; intros i; [by split|].
  cbn [check_cosigners]. rewrite res_bind_Ok. split.
  - intros (want & Hw & H). apply idx_Ok in Hw as [_ Hw]. rewrite Nat2Z.id in Hw.
    destruct (Z.eqb_spec q want) as [<-|]; [|done]. cbn [negb] in H.
    destruct (pks !! q) as [pk|] eqn:Hpk; [|done].
    apply res_bind_Ok in H as (sig & Hsig & H). apply idx_Ok in Hsig as [_ Hsig].
    rewrite Nat2Z.id in Hsig. apply res_bind_Ok in H as ([] & Hv & H). apply wrap_err_Ok in Hv.
    replace (Z.of_nat i + 1) with (Z.of_nat (S i)) in H by lia.
    intros [|j] seat Hj; cbn in Hj.
    + injection Hj as <-. rewrite Nat.add_0_r. split; [done|]. by exists pk, sig.
    + rewrite Nat.add_succ_r. by apply (proj1 (IH (S i)) H).
  - intros H. destruct (H 0%nat q eq_refl) as (Hw & pk & sig & Hpk & Hsig & Hv).
    rewrite Nat.add_0_r in *. exists q. split; [by apply idx_Ok; rewrite Nat2Z.id; split; [lia|]|].
    rewrite Z.eqb_refl, Hpk. cbn [negb].
    rewrite (proj2 (idx_Ok _ _ sig)) by (rewrite Nat2Z.id; split; [lia|done]).
    cbn [mbind res_bind]. rewrite Hv. cbn [mbind res_bind wrap_err].
    replace (Z.of_nat i + 1) with (Z.of_nat (S i)) by lia. apply IH.
    intros j seat Hj. specialize (H (S j) seat Hj). by rewrite Nat.add_succ_r in H.
Qed.

Lemma VerifyAutoFoldEntry_Ok l e pks :
  VerifyAutoFoldEntry l e pks = Ok tt ↔
  ∃ s expected, RoundID e = Log_RoundID l ∧ IsAutoFold e = true ∧ 0 ≤ PlayerID e < numPlayers l
    ∧ Log_Replay l = Ok s ∧ Folded s !! Z.to_nat (PlayerID e) = Some false
    ∧ ExpectedAutoFoldAttestors l (PlayerID e) = Ok expected ∧ expected ≠ []
    ∧ length (CoSigners e) = length expected ∧ length (CoSignatures e) = length (CoSigners e)
    ∧ ∀ j seat, CoSigners e !! j = Some seat → cosigner_ok l e pks expected j seat.
Proof.
  unfold VerifyAutoFoldEntry. split.
  - destruct (Z.eqb_spec (RoundID e) (Log_RoundID l)) as [Hr|]; [|done]. cbn [negb].
    destruct (IsAutoFold e); [|done]. cbn [negb].
    destruct (Z.leb_spec (numPlayers l) (PlayerID e)); [done|]. intros Hv.
    apply res_bind_Ok in Hv as (s & Hs & Hv). apply no_err_Ok in Hs.
    apply res_bind_Ok in Hv as (f & Hf & Hv). apply idx_Ok in Hf as [Hp Hf].
    destruct f; [done|]. apply res_bind_Ok in Hv as (ex & Hex & Hv). apply no_err_Ok in Hex.
    destruct (Z.eqb_spec (len ex) 0); [done|].
    destruct (Z.eqb_spec (len (CoSigners e)) (len ex)); [|done]. cbn [negb] in Hv.
    destruct (Z.eqb_spec (len (CoSignatures e)) (len (CoSigners e))); [|done]. cbn [negb] in Hv.
    exists s, ex. unfold len in *. split_and!; try done; try lia.
    + by intros ->.
    + by apply (check_cosigners_Ok l e pks ex (CoSigners e) 0).
  - intros (s & ex & Hr & Haf & Hp & Hs & Hf & Hex & Hne & Hl1 & Hl2 & Hc).
    rewrite Hr, Z.eqb_refl, Haf. cbn [negb].
    rewrite (proj2 (Z.leb_gt _ _)) by lia. rewrite Hs. cbn [no_err wrap_err mbind res_bind].
    rewrite (proj2 (idx_Ok _ _ false)) by (split; [lia|done]). cbn [mbind res_bind].
    rewrite Hex. cbn [no_err wrap_err mbind res_bind]. unfold len.
    rewrite (proj2 (Z.eqb_neq _ 0)) by (destruct ex; cbn; [done|lia]).
    rewrite Hl1, Z.eqb_refl, Hl2, Hl1, Z.eqb_refl. cbn [negb].
    by apply (check_cosigners_Ok l e pks ex (CoSigners e) 0).
Qed.
End Proofs.
