(* ===== verification/GameLogProps.v ===== *)
(** * Properties of the action log

    Logs grown through the protocol's checks ([log_reach]) and the theorems
    about them: the invariant of the replayed state, what a signature binds,
    domain separation of the three signed payloads, auto-fold, receipts, and
    turn order. *)

From stdpp Require Import base list gmap strings numbers.
From Stdlib Require Import ZArith Lia Ascii.
From S2P Require Import Prelude GameState GameStateProofs GameLog GameLogProofs.

#[local] Open Scope Z_scope.

(** ** Reachable logs *)

(** The ranges of an entry's fields as Go values. *)
Record entry_typed (e : Entry) : Prop := {
  et_round : 0 ≤ RoundID e < 2 ^ 64;
  et_player : 0 ≤ PlayerID e < 2 ^ 8;
  et_action : action_wf (EAction e);
  et_data : len (Data e) < 2 ^ 32
}.

(** The logs a replica can hold: appended after [VerifyProposal], extended by
    [AppendAutoFold], or rolled back. *)
Inductive log_reach `{C : SigScheme} (np stack : Z) : Log → Prop :=
| reach_new : log_reach np stack (NewLog np stack)
| reach_propose l p pk :
    log_reach np stack l → entry_typed p → VerifyProposal l p pk = Ok tt →
    log_reach np stack (Append l p)
| reach_auto_fold l e pks l' :
    log_reach np stack l → entry_typed e → AppendAutoFold l e pks = (l', Ok tt) →
    log_reach np stack l'
| reach_rollback l : log_reach np stack l → log_reach np stack (RollbackLast l).

Definition prefix_ok (np stack : Z) (es : list Entry) : Prop :=
  ∃ s u, replay_loop es (initial_state np stack) np = Ok (s, u)
    ∧ chips_ok np stack s ∧ betting_ok s u.

Lemma prefix_ok_snoc np stack es e s :
  table np stack → prefix_ok np stack es → Replay es np stack = Ok s →
  HandOver s = true ∨ admissible s e → prefix_ok np stack (es ++ [e]).
Proof.
  intros Ht (s' & u & Hr & Hc & Hb) Hs Ha. unfold Replay in Hs. rewrite Hr in Hs.
  injection Hs as ->. unfold prefix_ok. rewrite replay_loop_snoc, Hr. cbn.
  destruct (HandOver s) eqn:Ho; [by exists s, u|]. destruct Ha as [|Ha]; [done|].
  destruct (hand_step_total np stack Ht s u e Hc Hb Ho Ha) as [su' Hst].
  pose proof (hand_step_ok np stack Ht _ _ _ Hst Hc Hb) as (Hc' & Hb' & _).
  inversion Hst as [? ? ? s1 u1 _ _ Hact]; subst. rewrite Hact. cbn.
  destruct (replay_close s1 u1) as [s2 u2]. by exists s2, u2.
Qed.

Lemma AppendAutoFold_Ok `{C : SigScheme} l e pks l' :
  AppendAutoFold l e pks = (l', Ok tt) ↔ l' = Append l e ∧ VerifyAutoFoldEntry l e pks = Ok tt.
Proof.
  unfold AppendAutoFold. destruct (VerifyAutoFoldEntry l e pks) as [[]| |]; naive_solver.
Qed.

Lemma IsAutoFold_spec e :
  IsAutoFold e = true ↔ Kind (EAction e) = ActionFold ∧ Signature e = [].
Proof.
  unfold IsAutoFold, len. rewrite andb_true_iff, !Z.eqb_eq.
  destruct (Signature e); cbn; naive_solver lia.
Qed.

(** What is known of each entry of a reachable log, by its position. *)
Record entry_placed (i : nat) (e : Entry) : Prop := {
  ep_typed : entry_typed e;
  ep_round : RoundID e = u64 (Z.of_nat i);
  ep_wf : entry_wf e;
  ep_size : ∀ b, Entry_Bytes e = Ok b → (88 ≤ length b)%nat;
  ep_bytes : is_ok (Entry_Bytes e) = true
}.

Section Reach.
Context `{C : SigScheme} `{L : !SigLaws C}.

Lemma cosig_bytes_total signers sigs i :
  (i + length signers ≤ length sigs)%nat →
  ∃ b, cosig_bytes signers sigs (Z.of_nat i) = Ok b.
Proof.
  revert i. induction signers as [|q signers IH]; intros i Hi; [by eexists|].
  cbn [cosig_bytes length] in *.
  destruct (idx_in_range (E:=Empty_set) sigs (Z.of_nat i)) as (g & _ & ->); [lia|].
  destruct (IH (S i)) as [b Hb]; [lia|].
  replace (Z.of_nat i + 1) with (Z.of_nat (S i)) by lia. cbn. rewrite Hb. by eexists.
Qed.

Lemma Entry_Bytes_total e :
  (IsAutoFold e = true → length (CoSignatures e) = length (CoSigners e)) →
  is_ok (Entry_Bytes e) = true.
Proof.
  intros Hl. unfold Entry_Bytes. destruct (IsAutoFold e); [|done].
  destruct (cosig_bytes_total (CoSigners e) (CoSignatures e) 0) as [b Hb].
  { rewrite Hl by done. lia. }
  change (Z.of_nat 0) with 0 in Hb. rewrite Hb. done.
Qed.

Lemma signed_entry_placed l p pk :
  entry_typed p → VerifyProposal l p pk = Ok tt → entry_placed (length (entries l)) p.
Proof.
  intros Hty Hv. apply VerifyProposal_Ok in Hv as (b & s & Hr & _ & _ & Hok & _).
  apply Verify_true in Hok as [_ Hok]. apply verify_size in Hok.
  change (Z.of_nat (length (Signature p)) = 64) in Hok.
  assert (IsAutoFold p = false) as Haf.
  { apply not_true_iff_false. rewrite IsAutoFold_spec. intros [_ Hs]. by rewrite Hs in Hok. }
  destruct Hty. constructor; [done|done|..].
  - constructor; try done; [unfold len; lia|congruence..].
  - intros c Hc. apply Entry_Bytes_length in Hc. lia.
  - apply Entry_Bytes_total. congruence.
Qed.

Lemma auto_fold_bytes_length e b pre :
  IsAutoFold e = true → CoSignatures e !! 0%nat = Some pre → CoSigners e ≠ [] →
  Entry_Bytes e = Ok b → (28 + length pre ≤ length b)%nat.
Proof.
  intros Haf Hs Hne. unfold Entry_Bytes. rewrite Haf. intros Hb.
  apply res_bind_Ok in Hb as (cs & Hcs & [= <-]).
  apply res_bind_Ok in Hcs as (cb & Hcb & [= <-]).
  destruct (CoSigners e) as [|q signers]; [done|]. cbn [cosig_bytes] in Hcb.
  apply res_bind_Ok in Hcb as (sig & Hsig & Hcb). apply idx_Ok in Hsig as [_ Hsig].
  change (Z.to_nat 0) with 0%nat in Hsig. rewrite Hs in Hsig. injection Hsig as <-.
  apply res_bind_Ok in Hcb as (tl & _ & [= <-]).
  unfold Action_Bytes. repeat (rewrite ?length_app, ?length_be; cbn [length app]). lia.
Qed.

Lemma attestors_range l s target expected :
  table (numPlayers l) (startingStack l) → Log_Replay l = Ok s →
  length (Folded s) = Z.to_nat (numPlayers l) →
  ExpectedAutoFoldAttestors l target = Ok expected → (length expected < 2 ^ 8)%nat.
Proof.
  intros [Hn _ _] Hs Hl He. rewrite (ExpectedAutoFoldAttestors_spec l s) in He by (done || lia).
  injection He as <-.
  pose proof (length_filter (λ q, q ≠ target ∧ Folded s !! Z.to_nat q = Some false)
                (seqZ 0 (numPlayers l))) as Hf.
  rewrite length_seqZ in Hf. change (2 ^ 8)%nat with 256%nat. lia.
Qed.

Lemma auto_fold_entry_placed l e pks :
  table (numPlayers l) (startingStack l) →
  (∀ s, Log_Replay l = Ok s → length (Folded s) = Z.to_nat (numPlayers l)) →
  entry_typed e → VerifyAutoFoldEntry l e pks = Ok tt → entry_placed (length (entries l)) e.
Proof.
  intros Ht Hlen Hty Hv.
  apply VerifyAutoFoldEntry_Ok in Hv as (s & ex & Hr & Haf & Hp & Hs & Hf & Hex & Hne & Hl1 & Hl2 & Hc).
  pose proof (attestors_range l s _ ex Ht Hs (Hlen s Hs) Hex) as Hrange.
  change (2 ^ 8)%nat with 256%nat in Hrange.
  assert (Forall (λ g, length g = 64%nat) (CoSignatures e)) as Hsz.
  { apply Forall_lookup_2. intros j g Hg.
    destruct (lookup_lt_is_Some_2 (CoSigners e) j) as [q Hq].
    { rewrite <- Hl2. by eapply lookup_lt_Some. }
    destruct (Hc j q Hq) as (_ & pk & g' & _ & Hg' & Hv). simplify_eq.
    apply VerifyAutoFoldAttestation_Ok in Hv as (pl & _ & Hv).
    apply Verify_true in Hv as [_ Hv]. apply verify_size in Hv.
    change (Z.of_nat (length g) = 64) in Hv. lia. }
  pose proof (proj1 (IsAutoFold_spec e) Haf) as [_ Hsig].
  destruct Hty. constructor; [done|done|..].
  - constructor; try done.
    + unfold len. rewrite Hsig. cbn. lia.
    + intros _. unfold len. lia.
    + intros _. split; [done|]. eapply Forall_impl; [|exact Hsz]. unfold len. cbn. lia.
  - intros b Hb. destruct (CoSignatures e) as [|g gs] eqn:Hg.
    { destruct (CoSigners e); [by destruct ex|done]. }
    inversion Hsz; subst.
    assert (28 + length g ≤ length b)%nat; [|lia].
    apply (auto_fold_bytes_length e b g Haf); [by rewrite Hg|by destruct (CoSigners e)|done].
  - apply Entry_Bytes_total. done.
Qed.

Definition log_ok (np stack : Z) (l : Log) : Prop :=
  numPlayers l = np ∧ startingStack l = stack
  ∧ (∀ k, prefix_ok np stack (take k (entries l)))
  ∧ (∀ i e, entries l !! i = Some e → entry_placed i e).

Lemma log_ok_replay np stack l :
  log_ok np stack l → ∃ s u, Log_Replay l = Ok s ∧ chips_ok np stack s ∧ betting_ok s u.
Proof.
  intros (Hn & Hs & Hp & _). destruct (Hp (length (entries l))) as (s & u & Hr & Hc & Hb).
  rewrite take_ge in Hr by done. exists s, u. split; [|done].
  unfold Log_Replay, Replay. by rewrite Hn, Hs, Hr.
Qed.

Lemma log_ok_append np stack l e s :
  table np stack → log_ok np stack l → Log_Replay l = Ok s →
  HandOver s = true ∨ admissible s e → entry_placed (length (entries l)) e →
  log_ok np stack (Append l e).
Proof.
  intros Ht (Hn & Hs & Hp & He) Hr Ha Hpl. unfold log_ok, Append; cbn. split_and!; [done|done|..].
  - intros k. destruct (decide (k ≤ length (entries l))%nat).
    + by rewrite take_app_le.
    + rewrite take_ge by (rewrite length_app; cbn; lia).
      apply prefix_ok_snoc with s; [done| | |done].
      * specialize (Hp (length (entries l))). by rewrite take_ge in Hp.
      * unfold Log_Replay in Hr. by rewrite Hn, Hs in Hr.
  - intros i e' Hi. apply lookup_app_Some in Hi as [Hi|[Hi Hi']]; [by apply He|].
    apply list_lookup_singleton_Some in Hi' as [Hi' ->].
    by replace i with (length (entries l)) by lia.
Qed.

Lemma log_reach_ok np stack l :
  table np stack → 2 ≤ np → log_reach np stack l → log_ok np stack l.
Proof.
  intros Ht Hn. induction 1 as [|l p pk Hl IH Hty Hv|l e pks l' Hl IH Hty Hv|l Hl IH].
  - split_and!; try done. intros k. cbn [entries NewLog]. rewrite take_nil. eexists _, _. split; [done|].
    split; [by apply initial_chips_ok|by apply (initial_betting_ok np stack)].
  - pose proof (proj1 (VerifyProposal_Ok l p pk) Hv) as (b & s & _ & _ & _ & _ & Hs & Hva).
    apply (log_ok_append np stack l p s Ht IH Hs); [|by eapply signed_entry_placed].
    right. split; [apply Hty|]. by left.
  - apply AppendAutoFold_Ok in Hv as [-> Hv].
    destruct (log_ok_replay np stack l IH) as (s & u & Hs & Hc & Hb).
    pose proof IH as (Hnp & Hst & _).
    pose proof (proj1 (VerifyAutoFoldEntry_Ok l e pks) Hv)
      as (s' & ex & _ & Haf & Hp & Hs' & Hf & _). rewrite Hs in Hs'. injection Hs' as <-.
    apply (log_ok_append np stack l e s Ht IH Hs).
    + destruct (HandOver s); [by left|]. right. split; [apply Hty|]. right.
      split; [by apply IsAutoFold_spec in Haf as [-> _]|]. split; [lia|done].
    + eapply auto_fold_entry_placed; [by rewrite Hnp, Hst| |done|done].
      intros s0 Hs0. rewrite Hs in Hs0. injection Hs0 as <-. rewrite Hnp. apply Hc.
  - destruct IH as (Hnp & Hst & Hp & He). split_and!; [done|done|..]; cbn.
    + intros k. rewrite take_take. apply Hp.
    + intros i e Hi. apply He. by apply lookup_take_Some in Hi as [? ?].
Qed.

(** A running hand of a reachable log was played in admissible steps. *)
Lemma log_reach_run np stack l :
  table np stack → 2 ≤ np → log_reach np stack l → ∀ k s u,
  replay_loop (take k (entries l)) (initial_state np stack) np = Ok (s, u) → HandOver s = false →
  hand_run np stack (take k (entries l)) (s, u).
Proof.
  intros Ht Hn Hl.
  assert (∀ l e, log_ok np stack l →
    (∀ s, Log_Replay l = Ok s → HandOver s = true ∨ admissible s e) →
    (∀ k s u, replay_loop (take k (entries l)) (initial_state np stack) np = Ok (s, u) →
       HandOver s = false → hand_run np stack (take k (entries l)) (s, u)) →
    ∀ k s u, replay_loop (take k (entries l ++ [e])) (initial_state np stack) np = Ok (s, u) →
       HandOver s = false → hand_run np stack (take k (entries l ++ [e])) (s, u)) as Hsnoc.
  { clear l Hl. intros l e (Hnp & Hst & Hp & _) Ha IH k s u Hr Ho.
    destruct (decide (k ≤ length (entries l))%nat); [rewrite take_app_le in * by done; by apply IH|].
    rewrite take_ge in * by (rewrite length_app; cbn; lia).
    specialize (IH (length (entries l))). rewrite take_ge in IH by done.
    specialize (Hp (length (entries l))). rewrite take_ge in Hp by done. destruct Hp as (s0 & u0 & Hr0 & _).
    rewrite replay_loop_snoc, Hr0 in Hr. cbn in Hr.
    destruct (HandOver s0) eqn:Ho0; [injection Hr as -> ->; congruence|].
    apply res_bind_Ok in Hr as ([s1 u1] & Hact & Hr). cbn in Hr.
    destruct (replay_close s1 u1) as [s2 u2] eqn:Hcl. injection Hr as -> ->.
    eapply hand_run_snoc; [by apply IH|]. rewrite <- Hcl. apply hand_step_intro; [done| |done].
    destruct (Ha s0) as [?|?]; [|congruence|done]. unfold Log_Replay, Replay. by rewrite Hnp, Hst, Hr0. }
  induction Hl as [|l p pk Hl IH Hty Hv|l e pks l' Hl IH Hty Hv|l Hl IH].
  - intros k s u. cbn [entries NewLog]. rewrite take_nil. intros [= <- <-] _. apply hand_run_nil.
  - apply Hsnoc; [by apply log_reach_ok| |done]. intros s Hs. right.
    apply VerifyProposal_Ok in Hv as (b & s' & _ & _ & _ & _ & Hs' & Hva).
    rewrite Hs in Hs'. injection Hs' as <-. split; [apply Hty|]. by left.
  - apply AppendAutoFold_Ok in Hv as [-> Hv]. apply Hsnoc; [by apply log_reach_ok| |done].
    intros s Hs. right. apply VerifyAutoFoldEntry_Ok in Hv as (s' & ex & _ & Haf & Hp & Hs' & Hf & _).
    rewrite Hs in Hs'. injection Hs' as <-. split; [apply Hty|]. right.
    split; [by apply IsAutoFold_spec in Haf as [-> _]|]. split; [lia|done].
  - intros k s u. cbn. rewrite take_take. apply IH.
Qed.

Lemma running_bound np stack l s :
  table np stack → 2 ≤ np → log_reach np stack l → Log_Replay l = Ok s → HandOver s = false →
  Z.of_nat (length (entries l)) < np * stack * (np + 1) + 4 * np.
Proof.
  intros Ht Hn Hl Hs Ho. pose proof (log_reach_ok np stack l Ht Hn Hl) as (Hnp & Hst & Hp & _).
  destruct (Hp (length (entries l))) as (s0 & u0 & Hr0 & _).
  pose proof (log_reach_run np stack l Ht Hn Hl _ _ _ Hr0) as Hrun. rewrite take_ge in * by done.
  unfold Log_Replay, Replay in Hs. rewrite Hnp, Hst, Hr0 in Hs. injection Hs as ->.
  by apply (hand_bound np stack (entries l) s u0); auto.
Qed.

(** The replayed state of a log extended by the fold of a seat in the hand. *)
Lemma auto_fold_folds np stack l e s :
  log_ok np stack l → Log_Replay l = Ok s → HandOver s = false →
  IsAutoFold e = true → 0 ≤ PlayerID e → Folded s !! Z.to_nat (PlayerID e) = Some false →
  ∃ s', Log_Replay (Append l e) = Ok s' ∧ Folded s' !! Z.to_nat (PlayerID e) = Some true.
Proof.
  intros (Hnp & Hst & Hpre & _) Hs Ho Haf Hp Hf.
  specialize (Hpre (length (entries l))). rewrite take_ge in Hpre by done.
  destruct Hpre as (s0 & u0 & Hr0 & _ & _).
  unfold Log_Replay, Replay in Hs. rewrite Hnp, Hst, Hr0 in Hs.
  injection Hs as ->. unfold Log_Replay, Replay, Append. cbn.
  rewrite Hnp, Hst, replay_loop_snoc, Hr0. cbn. rewrite Ho.
  apply IsAutoFold_spec in Haf as [Hk _]. unfold replay_action. rewrite Hk. cbn.
  pose proof (lookup_lt_Some _ _ _ Hf). rewrite upd_in_range by lia. cbn.
  set (sf := set_folded s (<[Z.to_nat (PlayerID e):=true]> (Folded s))).
  assert (Folded (replay_close sf (u0 - 1)).1 = Folded sf) as Hfold
    by (unfold replay_close; repeat case_match; done).
  destruct (replay_close sf (u0 - 1)) as [s2 u2]. exists s2. split; [done|].
  cbn in Hfold. rewrite Hfold. apply list_lookup_insert_eq. lia.
Qed.

(** Each expected attestor's signature is among the checked ones. *)
Lemma attestor_signed l e pks s ex q :
  0 ≤ numPlayers l → Log_Replay l = Ok s → length (Folded s) = Z.to_nat (numPlayers l) →
  ExpectedAutoFoldAttestors l (PlayerID e) = Ok ex →
  length (CoSigners e) = length ex →
  (∀ j seat, CoSigners e !! j = Some seat → cosigner_ok l e pks ex j seat) →
  0 ≤ q < numPlayers l → q ≠ PlayerID e → Folded s !! Z.to_nat q = Some false →
  ∃ pk sig, pks !! q = Some pk ∧ sig ∈ CoSignatures e
    ∧ VerifyAutoFoldAttestation l (RoundID e) (PlayerID e) pk sig = Ok tt.
Proof.
  intros Hn Hs Hlen Hex Hl Hcos Hq Hne Hqf.
  rewrite (ExpectedAutoFoldAttestors_spec l s) in Hex by done. injection Hex as <-.
  assert (q ∈ filter (λ q, q ≠ PlayerID e ∧ Folded s !! Z.to_nat q = Some false)
                (seqZ 0 (numPlayers l))) as Hin.
  { apply list_elem_of_filter. split; [done|]. apply elem_of_seqZ. lia. }
  apply list_elem_of_lookup in Hin as [j Hj].
  destruct (lookup_lt_is_Some_2 (CoSigners e) j) as [q' Hq'].
  { rewrite Hl. by eapply lookup_lt_Some. }
  destruct (Hcos j q' Hq') as (Hj' & pk & sig & Hpk & Hsig & Hver). rewrite Hj in Hj'.
  injection Hj' as <-. exists pk, sig. split_and!; try done. by eapply list_elem_of_lookup_2.
Qed.

Lemma log_ok_bytes np stack l : log_ok np stack l → ∃ b, Log_Bytes l = Ok b.
Proof.
  intros (_ & _ & _ & He). unfold Log_Bytes.
  assert (Forall (λ e, is_ok (Entry_Bytes e) = true) (entries l)) as Hall.
  { apply Forall_lookup_2. intros i e Hi. apply (He i e Hi). }
  clear He. induction Hall as [|e es He _ [b Hb]]; [by eexists|].
  apply is_ok_spec in He as [c Hc]. cbn. rewrite Hc. cbn. rewrite Hb. by eexists.
Qed.

Lemma log_ok_wf np stack l : log_ok np stack l → Forall entry_wf (entries l).
Proof. intros (_ & _ & _ & He). apply Forall_lookup_2. intros i e Hi. apply (He i e Hi). Qed.

Lemma log_ok_size np stack l b :
  log_ok np stack l → Log_Bytes l = Ok b → b = [] ∨ (88 ≤ length b)%nat.
Proof.
  intros (_ & _ & _ & He). apply entries_bytes_length.
  apply Forall_lookup_2. intros i e Hi. apply (He i e Hi).
Qed.
End Reach.

Lemma Entry_Bytes_encoded e : Entry_Bytes (encoded_part e) = Entry_Bytes e.
Proof.
  unfold encoded_part. destruct (IsAutoFold e) eqn:Haf; [done|].
  unfold Entry_Bytes. rewrite Haf. by replace (IsAutoFold _) with false by (symmetry; exact Haf).
Qed.

#[export] Instance Log_Bytes_proper : Proper (same_history ==> eq) Log_Bytes.
Proof.
  intros l1 l2 (_ & _ & He). unfold Log_Bytes. revert He. generalize (entries l2).
  induction (entries l1) as [|e1 es1 IH]; intros [|e2 es2] He; simplify_eq/=; [done|].
  rewrite <- (Entry_Bytes_encoded e1), <- (Entry_Bytes_encoded e2), (IH es2) by done. congruence.
Qed.

(** ** Properties *)

Section Properties.
Context `{C : SigScheme} `{L : !SigLaws C}.

(** C10: the invariant of a replica's log.  However a log was grown by accepted
    proposals, accepted auto-folds and rollbacks, its bytes can be computed
    and replaying it gives a state (neither panics), chips are conserved, no
    seat has put in more than the current bet, and entry [i] carries round
    id [i]. *)
Theorem log_reach_invariant np stack l :
  table np stack → 2 ≤ np → log_reach np stack l →
  (∃ b, Log_Bytes l = Ok b)
  ∧ (∃ s, Log_Replay l = Ok s ∧ sumZ (Stacks s) + Pot s = np * stack
       ∧ Forall (λ c, 0 ≤ c ≤ CurrentBet s) (Contributions s))
  ∧ ∀ i e, entries l !! i = Some e → RoundID e = u64 (Z.of_nat i).
Proof.
  intros Ht Hn Hl. pose proof (log_reach_ok np stack l Ht Hn Hl) as Hok.
  split_and!; [by eapply log_ok_bytes| |].
  - destruct (log_ok_replay np stack l Hok) as (s & u & Hs & Hc & Hb).
    exists s. split_and!; [done|apply Hc|]. apply Forall_lookup_2. intros i c Hi.
    pose proof (Forall_lookup_1 _ _ _ _ (ck_contribs _ _ _ Hc) Hi).
    pose proof (Forall_lookup_1 _ _ _ _ (bt_contribs _ _ Hb) Hi). cbn in *. lia.
  - destruct Hok as (_ & _ & _ & He). intros i e Hi. apply (He i e Hi).
Qed.

(** C27: one signature, one history.  If two replicas accept, on their own
    logs, proposals that carry the same signature under the same public key,
    then the two logs encode the same history and the proposals are the same
    move of the same seat in the same round; otherwise that signature
    verifies over two different payloads, a forgery or a hash collision. *)
Theorem proposal_binds_history np stack l1 l2 p1 p2 pk :
  table np stack → 2 ≤ np → log_reach np stack l1 → log_reach np stack l2 →
  entry_typed p1 → entry_typed p2 → Signature p1 = Signature p2 →
  VerifyProposal l1 p1 pk = Ok tt → VerifyProposal l2 p2 pk = Ok tt →
  (same_history l1 l2 ∧ RoundID p1 = RoundID p2 ∧ PlayerID p1 = PlayerID p2
   ∧ EAction p1 = EAction p2)
  ∨ double_verifies pk (Signature p1).
Proof.
  intros Ht Hn Hl1 Hl2 Ht1 Ht2 Hsig Hv1 Hv2.
  pose proof (log_reach_ok np stack l1 Ht Hn Hl1) as Hok1.
  pose proof (log_reach_ok np stack l2 Ht Hn Hl2) as Hok2.
  apply VerifyProposal_Ok in Hv1 as (b1 & s1 & Hr1 & Hw1 & Hb1 & Ho1 & _).
  apply VerifyProposal_Ok in Hv2 as (b2 & s2 & Hr2 & Hw2 & Hb2 & Ho2 & _).
  destruct (decide (b1 ++ Action_Bytes (EAction p1) = b2 ++ Action_Bytes (EAction p2)))
    as [Heq|Hne]; cycle 1.
  { right. exists (b1 ++ Action_Bytes (EAction p1)), (b2 ++ Action_Bytes (EAction p2)).
    split_and!; [done|done|by rewrite Hsig]. }
  left. pose proof Hok1 as (Hn1 & Hs1 & _). pose proof Hok2 as (Hn2 & Hs2 & _).
  destruct (proposal_same_payload l1 l2 p1 p2 b1 b2) as [Hsame Ha]; try done;
    [by eapply log_ok_wf|by eapply log_ok_wf|apply Ht1|apply Ht2|congruence|congruence|].
  split_and!; [done| | |done].
  - by rewrite Hr1, Hr2, (Log_RoundID_proper _ _ Hsame).
  - rewrite (ExpectedNextPlayer_proper _ _ Hsame), Hw2 in Hw1. congruence.
Qed.

(** Domain separation.  On reachable logs, the payload of a proposal, of
    an auto-fold attestation and of a verify receipt never coincide, so a
    signature given for one purpose is never a signature for another. *)
Theorem signed_payloads_disjoint np stack l1 l2 l3 b1 b2 hash action round target round' :
  table np stack → 2 ≤ np →
  log_reach np stack l1 → log_reach np stack l2 → log_reach np stack l3 →
  Log_Bytes l1 = Ok b1 → autoFoldPayload l2 round target = Ok b2 → Log_Hash l3 = Ok hash →
  let proposal := b1 ++ Action_Bytes action in
  let receipt := verify_payload hash round' in
  proposal ≠ b2 ∧ proposal ≠ receipt ∧ b2 ≠ receipt.
Proof.
  intros Ht Hn Hl1 Hl2 Hl3 Hb1 Hb2 Hh proposal receipt.
  pose proof (log_reach_ok np stack l1 Ht Hn Hl1) as Hok1.
  pose proof (log_reach_ok np stack l2 Ht Hn Hl2) as Hok2.
  unfold autoFoldPayload in Hb2. apply res_bind_Ok in Hb2 as (c2 & Hc2 & [= <-]).
  unfold Log_Hash in Hh. apply res_bind_Ok in Hh as (c3 & _ & [= <-]).
  pose proof (sha256_size c3) as Hsz.
  pose proof (log_ok_size np stack l1 b1 Hok1 Hb1) as Hs1.
  pose proof (log_ok_size np stack l2 c2 Hok2 Hc2) as Hs2.
  assert (length proposal = length b1 + 9)%nat as Hp
    by (unfold proposal; by rewrite length_app, Action_Bytes_length).
  assert (length receipt = 46)%nat as Hr.
  { unfold receipt, verify_payload. rewrite !length_app, length_be. cbn [length string_bytes]. cbn. lia. }
  set (suffix := autoFoldTag ++ be 8 round ++ [target]).
  assert (length suffix = 18)%nat as Hsuf by (unfold suffix; rewrite !length_app, length_be; done).
  split_and!.
  - intros Heq. unfold proposal in Heq.
    pose proof (Action_Bytes_length action).
    destruct (entries_bytes_inj (entries l1) (entries l2) b1 c2 (Action_Bytes action) suffix)
      as [_ Hbad]; [by eapply log_ok_wf|by eapply log_ok_wf|done|done|lia|lia|done|].
    rewrite Hbad in *. lia.
  - intros Heq. apply (f_equal length) in Heq. destruct Hs1 as [->|]; cbn in *; lia.
  - intros Heq. apply (f_equal length) in Heq. fold suffix in Heq.
    rewrite length_app in Heq. destruct Hs2 as [->|]; cbn in *; lia.
Qed.

(** An honest proposal is accepted exactly when it is in turn and legal:
    every replica with the proposer's log and key accepts the entry
    [BuildProposal] signs if and only if the seat is the expected one and
    [ValidateAction] allows the action in the replayed state. *)
Theorem honest_proposal_accepted l playerID action sk e :
  BuildProposal l playerID action sk = Ok e →
  VerifyProposal l e (ed25519_Public sk) = Ok tt ↔
  ExpectedNextPlayer l = Ok playerID
  ∧ ∃ s, Log_Replay l = Ok s ∧ ValidateAction s playerID action = Ok tt.
Proof.
  unfold BuildProposal, Sign. intros Hb.
  apply res_bind_Ok in Hb as (b & Hb & He). apply res_bind_Ok in He as (sig & Hsig & [= <-]).
  destruct (Z.eqb_spec (len sk) PrivateKeySize) as [Hk|]; [|done]. injection Hsig as <-.
  rewrite VerifyProposal_Ok. cbn. split; [naive_solver|].
  intros (Hw & s & Hs & Hv). exists b, s. split_and!; try done.
  apply Verify_true. split; [by apply public_size|by apply sign_verify].
Qed.

(** Whose turn it is.  In a running hand of a reachable log the expected
    proposer is the first seat, at or cyclically after seat
    [round mod players], that has not folded: it exists and is in the hand. *)
Theorem expected_player_in_hand np stack l s :
  table np stack → 2 ≤ np → log_reach np stack l →
  Log_Replay l = Ok s → HandOver s = false →
  ∃ q, ExpectedNextPlayer l = Ok q ∧ 0 ≤ q < np
    ∧ first_unfolded (Folded s) (Log_RoundID l mod np) np q.
Proof.
  intros Ht Hn Hl Hs Ho. pose proof (log_reach_ok np stack l Ht Hn Hl) as Hok.
  destruct (log_ok_replay np stack l Hok) as (s' & u & Hs' & Hc & Hb).
  rewrite Hs in Hs'. injection Hs' as <-. destruct Hok as (Hnp & _).
  destruct (bt_running _ _ Hb Ho) as (_ & Hnf & _). pose proof (tb_n _ _ Ht).
  destruct (ExpectedNextPlayer_spec l s) as (q & Hq & Hfirst);
    [lia|done|rewrite Hnp; apply Hc|lia|].
  rewrite Hnp in Hfirst. exists q. split_and!; try done.
  - destruct Hfirst as (d & _ & -> & _). apply Z.mod_pos_bound. lia.
  - destruct Hfirst as (d & _ & -> & _). apply Z.mod_pos_bound. lia.
Qed.

(** Nobody is auto-folded without everyone else.  When [AppendAutoFold]
    succeeds, the log is extended by exactly that entry, and every seat still
    in the hand other than the target has a registered key under which a
    signature of the entry verifies over this log, round and target; in a
    running hand the target is folded in the new state. When it fails the log
    is unchanged. *)
Theorem auto_fold_unanimous np stack l e pks l' r s :
  table np stack → 2 ≤ np → log_reach np stack l → entry_typed e →
  Log_Replay l = Ok s → AppendAutoFold l e pks = (l', r) →
  match r with
  | Ok _ =>
      l' = Append l e ∧ 0 ≤ PlayerID e < np
      ∧ Folded s !! Z.to_nat (PlayerID e) = Some false
      ∧ (∀ q, 0 ≤ q < np → q ≠ PlayerID e → Folded s !! Z.to_nat q = Some false →
           ∃ pk sig payload, pks !! q = Some pk ∧ sig ∈ CoSignatures e
             ∧ autoFoldPayload l (RoundID e) (PlayerID e) = Ok payload
             ∧ Verify pk payload sig = Ok true)
      ∧ (HandOver s = false →
           ∃ s', Log_Replay l' = Ok s' ∧ Folded s' !! Z.to_nat (PlayerID e) = Some true)
  | _ => l' = l
  end.
Proof.
  intros Ht Hn Hl Hty Hs Happ. pose proof (log_reach_ok np stack l Ht Hn Hl) as Hok.
  destruct (log_ok_replay np stack l Hok) as (s' & u & Hs' & Hc & Hb).
  rewrite Hs in Hs'. injection Hs' as <-. pose proof Hok as (Hnp & _).
  destruct r as [[]| |]; [|unfold AppendAutoFold in Happ; destruct (VerifyAutoFoldEntry l e pks); congruence..].
  apply AppendAutoFold_Ok in Happ as [-> Hv].
  apply VerifyAutoFoldEntry_Ok in Hv
    as (s' & ex & _ & Haf & Hp & Hs' & Hf & Hex & _ & Hl1 & Hl2 & Hcos).
  rewrite Hs in Hs'. injection Hs' as <-.
  split_and!; [done|lia|lia|done| |].
  - intros q Hq Hne Hqf. destruct (attestor_signed l e pks s ex q) as (pk & sig & ? & ? & Hver);
      [lia|done|rewrite Hnp; apply Hc|done|done|done|lia|done|done|].
    apply VerifyAutoFoldAttestation_Ok in Hver as (payload & ? & ?).
    by exists pk, sig, payload.
  - intros Ho. eapply auto_fold_folds; [exact Hok|done..|lia|done].
Qed.

(** Auto-fold completes when the attestors cooperate.  If a seat of a
    reachable log's running hand is the target, and every other seat still in
    the hand signed the attestation with the key registered for it, then the
    entry assembled from those signatures is accepted. *)
Theorem auto_fold_complete np stack l target (sks : Z → list Z) sigs pks s expected :
  table np stack → 2 ≤ np → log_reach np stack l →
  Log_Replay l = Ok s → HandOver s = false → 0 ≤ target →
  Folded s !! Z.to_nat target = Some false →
  ExpectedAutoFoldAttestors l target = Ok expected →
  Forall2 (λ q sig, pks !! q = Some (ed25519_Public (sks q))
                    ∧ BuildAutoFoldAttestation l (Log_RoundID l) target (sks q) = Ok sig)
    expected sigs →
  let e := mkEntry (Log_RoundID l) target (mkAction ActionFold 0) [] expected sigs [] in
  AppendAutoFold l e pks = (Append l e, Ok tt).
Proof.
  intros Ht Hn Hl Hs Ho Hp Hf Hex Hsigs e. apply AppendAutoFold_Ok. split; [done|].
  pose proof (log_reach_ok np stack l Ht Hn Hl) as Hok.
  destruct (log_ok_replay np stack l Hok) as (s' & u & Hs' & Hc & Hb).
  rewrite Hs in Hs'. injection Hs' as <-. pose proof Hok as (Hnp & _). pose proof (tb_n _ _ Ht).
  pose proof (lookup_lt_Some _ _ _ Hf) as Hlt. rewrite (ck_folded_len _ _ _ Hc) in Hlt.
  apply VerifyAutoFoldEntry_Ok. exists s, expected. cbn.
  split_and!; try done; try lia; [|by rewrite (Forall2_length Hsigs)|].
  - rewrite (ExpectedAutoFoldAttestors_spec l s) in Hex; [|lia|done|rewrite Hnp; apply Hc].
    injection Hex as <-. destruct (bt_running _ _ Hb Ho) as (_ & Hnf & _).
    destruct (exists_other_unfolded (Folded s) (Z.to_nat target)) as (q & Hq & Hqf); [done|done|].
    pose proof (lookup_lt_Some _ _ _ Hqf) as Hqlt. rewrite (ck_folded_len _ _ _ Hc) in Hqlt.
    intros Hnil. eapply (filter_nil_not_elem_of _ _ (Z.of_nat q)); [exact Hnil| |].
    + cbn. rewrite Nat2Z.id. split; [lia|done].
    + apply elem_of_seqZ. lia.
  - intros j q Hj. split; [done|].
    destruct (Forall2_lookup_l _ _ _ _ _ Hsigs Hj) as (sig & Hsig & Hpk & Hb').
    exists (ed25519_Public (sks q)), sig. split_and!; try done.
    unfold BuildAutoFoldAttestation in Hb'. apply res_bind_Ok in Hb' as (payload & Hpl & Hsg).
    apply VerifyAutoFoldAttestation_Ok. exists payload. split; [done|].
    unfold Sign in Hsg. destruct (Z.eqb_spec (len (sks q)) PrivateKeySize); [|done].
    injection Hsg as <-. apply Verify_true.
    split; [by apply public_size|by apply sign_verify].
Qed.

(** Verify receipts compare histories.  A receipt built by one replica
    is accepted by every replica with the same history; and a replica that
    accepts it has the same history, unless two different logs have the same
    SHA-256 digest. *)
Theorem receipt_compares_history np stack l1 l2 p sk r :
  table np stack → 2 ≤ np → log_reach np stack l1 → log_reach np stack l2 →
  BuildVerifyReceipt l1 p sk = Ok r →
  (same_history l1 l2 → VerifyVerifyReceipt l2 r (ed25519_Public sk) = Ok tt)
  ∧ (VerifyVerifyReceipt l2 r (ed25519_Public sk) = Ok tt →
     same_history l1 l2 ∨ ∃ x y, x ≠ y ∧ sha256_Sum256 x = sha256_Sum256 y).
Proof.
  intros Ht Hn Hl1 Hl2 Hb. unfold BuildVerifyReceipt, Sign, Log_Hash in Hb.
  apply res_bind_Ok in Hb as (hash & Hh & Hb).
  apply res_bind_Ok in Hh as (b1 & Hb1 & [= <-]).
  apply res_bind_Ok in Hb as (sig & Hsig & [= <-]).
  destruct (Z.eqb_spec (len sk) PrivateKeySize) as [Hk|]; [|done]. injection Hsig as <-.
  unfold VerifyVerifyReceipt, Log_Hash. cbn. split.
  - intros Hsame. rewrite <- (Log_RoundID_proper _ _ Hsame), Z.eqb_refl.
    rewrite <- (Log_Bytes_proper _ _ Hsame), Hb1. cbn. rewrite bool_decide_true by done. cbn.
    by rewrite (proj2 (Verify_true _ _ _) (conj (public_size sk Hk) (sign_verify sk _ Hk))).
  - destruct (u64 (Log_RoundID l1 - 1) =? _); [|done]. cbn [negb]. intros Hv.
    apply res_bind_Ok in Hv as (h2 & Hh2 & Hv). apply no_err_Ok in Hh2.
    apply res_bind_Ok in Hh2 as (b2 & Hb2 & [= <-]).
    case_bool_decide as Heq; [|done]. destruct (decide (b1 = b2)) as [->|Hne]; [|right; eauto].
    left. pose proof (log_reach_ok np stack l1 Ht Hn Hl1) as Hok1.
    pose proof (log_reach_ok np stack l2 Ht Hn Hl2) as Hok2.
    pose proof Hok1 as (? & ? & _). pose proof Hok2 as (? & ? & _).
    split_and!; [congruence..|].
    apply (entries_bytes_inj (entries l1) (entries l2) b2 b2 [] []); try done; try (cbn; lia);
      by eapply log_ok_wf.
Qed.

(** What a proposal's signature does not cover.  Replacing the [Data] and
    the co-signer fields of a proposal does not change whether it is accepted,
    and two replicas that accept copies with different [Data] end with
    different histories. *)
Theorem proposal_data_unsigned l p pk data cosigners cosigs :
  let p' := mkEntry (RoundID p) (PlayerID p) (EAction p) (Signature p) cosigners cosigs data in
  VerifyProposal l p' pk = VerifyProposal l p pk
  ∧ (data ≠ Data p → ¬ same_history (Append l p) (Append l p')).
Proof.
  intros p'. split; [done|]. intros Hne (_ & _ & He). cbn in He.
  rewrite !fmap_app in He. apply app_inj_1 in He as [_ He]; [|done]. cbn in He.
  injection He as He. apply (f_equal Data) in He. apply Hne.
  unfold encoded_part in He. by destruct (IsAutoFold p), (IsAutoFold p').
Qed.
End Properties.

(** ** Turn order and unanswered raises *)

(** Three seats with 2000 chips.  Seat 1 folds before the flop; on the river
    seat 2 raises to 500 in round 7 and, seat 1 being skipped, is the expected
    player of round 8 as well. *)
Definition river_hand : list Entry :=
  [bet 0 ActionRaise 100; bet 1 ActionFold 0; bet 2 ActionCall 0;
   bet 0 ActionCheck 0; bet 2 ActionCheck 0;
   bet 2 ActionCheck 0; bet 0 ActionCheck 0;
   bet 2 ActionRaise 500; bet 2 ActionCheck 0].

(** A raise can go unanswered.  There is a hand in which every entry is
    made by the expected player and is legal, and which reaches the showdown
    with seat 0 in the hand, chips behind, and nothing put in against a raise
    to 500 that it was never asked to answer. *)
Theorem river_raise_unanswered :
  (∀ i e, river_hand !! i = Some e →
     ExpectedNextPlayer (mkLog (take i river_hand) 3 2000) = Ok (PlayerID e))
  ∧ ∃ s u, hand_run 3 2000 river_hand (s, u) ∧ Replay river_hand 3 2000 = Ok s
      ∧ HandOver s = true ∧ Street s = StreetShowdown
      ∧ Folded s !! 0%nat = Some false ∧ Stacks s !! 0%nat = Some 1900
      ∧ Contributions s !! 0%nat = Some 0 ∧ CurrentBet s = 500.
Proof.
  split.
  - intros i e Hi. do 9 (destruct i as [|i]; [injection Hi as <-; reflexivity|]). done.
  - exists (mkState [1900; 2000; 1400] 700 500 [0; 0; 500] [false; true; false] 3
              StreetShowdown true), 0.
    split; [apply hand_exec_sound; by vm_compute|]. by split_and!; vm_compute.
Qed.

(** ** Witnesses

    A toy signature scheme that satisfies the laws, and a two-seat table on
    which the hypotheses of the theorems hold. *)

#[local] Instance toy_scheme : SigScheme := {|
  sha256_Sum256 m := be 32 (unbe m);
  ed25519_Public sk := take 32 sk;
  ed25519_Sign sk m := take 64 (take 32 sk ++ m ++ replicate 64 0);
  ed25519_Verify pk m sig := bool_decide (sig = take 64 (pk ++ m ++ replicate 64 0))
|}.

#[local] Instance toy_laws : SigLaws toy_scheme.
Proof.
  split; cbn -[be take replicate].
  - intros m. by rewrite length_be.
  - intros sk m _. by apply bool_decide_eq_true.
  - intros sk Hk. rewrite length_take. change PrivateKeySize with 64 in Hk.
    change PublicKeySize with 32. lia.
  - intros pk m sig Hs. apply bool_decide_eq_true in Hs as ->.
    rewrite length_take, !length_app, length_replicate. change SignatureSize with 64. lia.
Qed.

Definition toy_sk (q : Z) : list Z := replicate 64 (q + 1).
Definition toy_pks : gmap Z (list Z) := {[0 := ed25519_Public (toy_sk 0); 1 := ed25519_Public (toy_sk 1)]}.
Definition ok_or {E A} (d : A) (m : res E A) : A := match m with Ok a => a | _ => d end.
Definition no_entry : Entry := bet 0 0 0.

Definition toy_log0 : Log := NewLog 2 100.
Definition toy_p0 : Entry :=
  ok_or no_entry (BuildProposal toy_log0 0 (mkAction ActionRaise 50) (toy_sk 0)).
Definition toy_log1 : Log := Append toy_log0 toy_p0.
Definition toy_p1 : Entry :=
  ok_or no_entry (BuildProposal toy_log1 1 (mkAction ActionCall 0) (toy_sk 1)).
Definition toy_state1 : State := mkState [50; 100] 50 50 [50; 0] [false; false] 2 0 false.
Definition toy_fold : Entry :=
  mkEntry 1 1 (mkAction ActionFold 0) [] [0]
    [ok_or [] (BuildAutoFoldAttestation toy_log1 1 1 (toy_sk 0))] [].

Lemma toy_typed (e : Entry) :
  (0 <=? RoundID e) && (RoundID e <? 2 ^ 64) && (0 <=? PlayerID e) && (PlayerID e <? 2 ^ 8)
  && (0 <=? Kind (EAction e)) && (Kind (EAction e) <? 2 ^ 8)
  && (0 <=? Amount (EAction e)) && (Amount (EAction e) <? 2 ^ 64)
  && (len (Data e) <? 2 ^ 32) = true → entry_typed e.
Proof. rewrite !andb_true_iff, !Z.leb_le, !Z.ltb_lt. intros H. repeat split; lia. Qed.

Lemma toy_log1_reach : log_reach 2 100 toy_log1.
Proof.
  eapply reach_propose with (pk := ed25519_Public (toy_sk 0));
    [apply reach_new|apply toy_typed; by vm_compute|by vm_compute].
Qed.

Lemma log_reach_invariant_witness : ∃ s, Log_Replay toy_log1 = Ok s ∧ sumZ (Stacks s) + Pot s = 200.
Proof.
  destruct (log_reach_invariant 2 100 toy_log1 table_2_100 ltac:(lia) toy_log1_reach)
    as (_ & (s & Hs & Hc & _) & _). by exists s.
Defined.

Lemma proposal_binds_history_witness :
  same_history toy_log1 toy_log1 ∨ double_verifies (ed25519_Public (toy_sk 1)) (Signature toy_p1).
Proof.
  destruct (proposal_binds_history 2 100 toy_log1 toy_log1 toy_p1 toy_p1 (ed25519_Public (toy_sk 1))
              table_2_100 ltac:(lia) toy_log1_reach toy_log1_reach) as [[H _]|H];
    [apply toy_typed; by vm_compute|apply toy_typed; by vm_compute|done|by vm_compute|by vm_compute
    |by left|by right].
Defined.

Lemma signed_payloads_disjoint_witness :
  ok_or [] (Log_Bytes toy_log1) ++ Action_Bytes (mkAction ActionCall 0)
  ≠ ok_or [] (autoFoldPayload toy_log1 1 1).
Proof.
  refine (proj1 (signed_payloads_disjoint 2 100 toy_log1 toy_log1 toy_log1
    (ok_or [] (Log_Bytes toy_log1)) (ok_or [] (autoFoldPayload toy_log1 1 1))
    (ok_or [] (Log_Hash toy_log1)) (mkAction ActionCall 0) 1 1 0 table_2_100 _
    toy_log1_reach toy_log1_reach toy_log1_reach _ _ _)); [lia|by vm_compute..].
Defined.

Lemma honest_proposal_accepted_witness :
  VerifyProposal toy_log1 toy_p1 (ed25519_Public (toy_sk 1)) = Ok tt.
Proof.
  apply (honest_proposal_accepted toy_log1 1 (mkAction ActionCall 0) (toy_sk 1) toy_p1);
    [by vm_compute|]. split; [by vm_compute|]. exists toy_state1. by split; vm_compute.
Defined.

Lemma expected_player_in_hand_witness :
  ∃ q, ExpectedNextPlayer toy_log1 = Ok q ∧ 0 ≤ q < 2.
Proof.
  destruct (expected_player_in_hand 2 100 toy_log1 toy_state1 table_2_100 ltac:(lia) toy_log1_reach)
    as (q & Hq & Hr & _); [by vm_compute|done|by exists q].
Defined.

Lemma auto_fold_unanimous_witness :
  ∃ s', Log_Replay (Append toy_log1 toy_fold) = Ok s' ∧ Folded s' !! 1%nat = Some true.
Proof.
  pose proof (auto_fold_unanimous 2 100 toy_log1 toy_fold toy_pks (Append toy_log1 toy_fold) (Ok tt)
                toy_state1 table_2_100 ltac:(lia) toy_log1_reach) as H.
  destruct H as (_ & _ & _ & _ & H); [apply toy_typed; by vm_compute|by vm_compute|by vm_compute|].
  exact (H eq_refl).
Defined.

Lemma auto_fold_complete_witness :
  AppendAutoFold toy_log1 toy_fold toy_pks = (Append toy_log1 toy_fold, Ok tt).
Proof.
  apply (auto_fold_complete 2 100 toy_log1 1 toy_sk (CoSignatures toy_fold) toy_pks toy_state1 [0]
           table_2_100 ltac:(lia) toy_log1_reach); try by vm_compute.
  repeat constructor; by vm_compute.
Defined.

Lemma receipt_compares_history_witness :
  VerifyVerifyReceipt toy_log1 (ok_or (mkReceipt 0 0 [] []) (BuildVerifyReceipt toy_log1 0 (toy_sk 0)))
    (ed25519_Public (toy_sk 0)) = Ok tt.
Proof.
  refine (proj1 (receipt_compares_history 2 100 toy_log1 toy_log1 0 (toy_sk 0) _ table_2_100 _
            toy_log1_reach toy_log1_reach _) _); [lia|by vm_compute|done].
Defined.

Lemma proposal_data_unsigned_witness : ¬ same_history
  (Append toy_log1 toy_p1)
  (Append toy_log1 (mkEntry (RoundID toy_p1) (PlayerID toy_p1) (EAction toy_p1)
                      (Signature toy_p1) [] [] [7])).
Proof.
  apply (proposal_data_unsigned toy_log1 toy_p1 (ed25519_Public (toy_sk 1)) [7] [] []). by vm_compute.
Defined.
