(* ===== verification/Runner.v ===== *)
(** * The round runner ([internal/round/runner.go])

    One node's propose/verify/commit loop on top of its log ([GameLog]), its
    store and the stores of its peers ([Net]).  A routine of the runner is an
    [act]: it hosts and removes keys of its own store and polls its peers'.

    What the runner does not decide is in the environment [Env]: the actions
    that arrive on [actionCh] before an attempt's deadline, and whether the
    surrounding context has ended when it is tested.  Polls fail when their
    deadline passes first.  The goroutines that poll in parallel only read, so
    they are run one after the other in the order in which they complete
    ([Schedule]). *)

From Stdlib Require Import ZArith Lia Ascii.
From stdpp Require Import base list gmap strings numbers.
From S2P Require Import Prelude Runtime Strconv Ephemeral Deck Net Peer Showdown GameState GameLog.

#[local] Open Scope Z_scope.

(** The order in which parallel goroutines complete. *)
Class Schedule := completion : ∀ {A : Type}, list A → list A.
Class ScheduleLaws `{Schedule} : Prop := completion_perm : ∀ A (l : list A), completion l ≡ₚ l.

Inductive Role := RoleProposer | RoleVerifier.

#[export] Instance Role_eq_dec : EqDecision Role.
Proof. solve_decision. Defined.

Record Config := mkConfig { cfgTimeoutInterval : Z; cfgMaxAttempts : Z }.

Inductive attemptOutcome := attemptCommitted | attemptTimeout.

(** Why an attempt did not commit; the text the source formats is left out. *)
Inductive reason :=
| NoReason
| NoLegalAction
| EncodeProposal
| EncodeReceipt
| PollVerify (nodeID : string)
| PollProposal (nodeID : string)
| DecodeProposal
| Refused (e : log_err)
| AutoFoldFailed.

Record AttemptEvent := mkEvent {
  EvRoundID : Z;
  EvAttempt : Z;
  EvOutcome : string;
  EvReason : reason;
}.

(** [published] is what [emit] hands to the node's event stream: the event and
    the extra fields of a commit.  [peerPKs] is the node's table of keys. *)
Record Runner := mkRunner {
  rnode : Node;
  rlog : Log;
  rsk : list Z;
  rpk : list Z;
  rcfg : Config;
  peerPKs : gmap string (list Z);
  actionCh : option Action;
  events : list AttemptEvent;
  published : list (AttemptEvent * list (string * string));
}.

Definition set_log (l : Log) (r : Runner) : Runner :=
  mkRunner (rnode r) l (rsk r) (rpk r) (rcfg r) (peerPKs r) (actionCh r) (events r) (published r).
Definition set_node (n : Node) (r : Runner) : Runner :=
  mkRunner n (rlog r) (rsk r) (rpk r) (rcfg r) (peerPKs r) (actionCh r) (events r) (published r).
Definition set_channel (c : option Action) (r : Runner) : Runner :=
  mkRunner (rnode r) (rlog r) (rsk r) (rpk r) (rcfg r) (peerPKs r) c (events r) (published r).

Definition PeerPK (r : Runner) (id : string) : option (list Z) := peerPKs r !! id.

(** [New]; a duration is in nanoseconds. *)
Definition NewRunner (node : Node) (sk pk : list Z) (cfg : Config) (pks : gmap string (list Z)) : Runner :=
  let timeout := if cfgTimeoutInterval cfg <=? 0 then 30000000000 else cfgTimeoutInterval cfg in
  let attempts := if cfgMaxAttempts cfg =? 0 then 3 else cfgMaxAttempts cfg in
  mkRunner node (NewLog (u8 (len (Order node))) (u64 (money node))) sk pk (mkConfig timeout attempts) pks
    None [] [].

Definition actionKindName (k : Z) : string :=
  if k =? ActionFold then "fold"
  else if k =? ActionCheck then "check"
  else if k =? ActionCall then "call"
  else if k =? ActionRaise then "raise"
  else "unknown".

(** The fields that [emit] adds on a commit, from the tail of the log. *)
Definition commit_fields (l : Log) (outcome : string) : list (string * string) :=
  if decide (outcome = "committed"%string) then
    match list.last (GameLog.entries l) with
    | None => []
    | Some e => [("seat", utoa (PlayerID e)); ("action_kind", actionKindName (Kind (EAction e)));
                 ("action_amount", utoa (Amount (EAction e)))]
    end
  else [].

(** The channel has room for 16 events; further ones are dropped. *)
Definition emit (ev : AttemptEvent) (r : Runner) : Runner :=
  mkRunner (rnode r) (rlog r) (rsk r) (rpk r) (rcfg r) (peerPKs r) (actionCh r)
    (if decide (length (events r) < 16)%nat then events r ++ [ev] else events r)
    (published r ++ [(ev, commit_fields (rlog r) (EvOutcome ev))]).

Definition currentRole (r : Runner) : res Empty_set Role :=
  p ← ExpectedNextPlayer (rlog r);
  Ok (if p =? SeatIdx (rnode r) then RoleProposer else RoleVerifier).

Definition currentProposer (r : Runner) : res Empty_set string :=
  p ← ExpectedNextPlayer (rlog r);
  idx (Order (rnode r)) p.

(** ** Submitting an action *)

Inductive submit_err := ErrNotYourTurn | ErrActionAlreadyPending | ErrIllegalAction (e : validate_err).

Definition SubmitAction (action : Action) (r : Runner) : res submit_err Runner :=
  role ← no_err (currentRole r);
  if negb (bool_decide (role = RoleProposer)) then Err ErrNotYourTurn
  else
    state ← no_err (Log_Replay (rlog r));
    _ ← wrap_err ErrIllegalAction (ValidateAction state (u8 (SeatIdx (rnode r))) action);
    match actionCh r with
    | None => Ok (set_channel (Some action) r)
    | Some _ => Err ErrActionAlreadyPending
    end.

(** ** The runner's computations *)

Abbreviation rproc A := (act (res Empty_set A)).

Definition rbind {A B} (p : rproc A) (f : A → rproc B) : rproc B :=
  act_bind p (λ r, match r with Ok a => f a | Err e => match e with end | Panic => Ret Panic end).

Definition lift {A} (m : res Empty_set A) : rproc A := Ret m.

#[local] Notation "'let*' x := p 'in' q" := (rbind p (λ x, q))
  (at level 10, x pattern, p at level 100, q at level 200).

Section runner.
Context `{SigScheme} `{Codec Entry} `{Codec VerifyReceipt} `{Schedule}.

(** [true] when the receipt could be encoded and is hosted. *)
Definition hostVerifyReceipt (r : Runner) (roundID attempt : Z) : rproc bool :=
  let* receipt := lift (BuildVerifyReceipt (rlog r) (u8 (SeatIdx (rnode r))) (rsk r)) in
  match gob_encode receipt with
  | None => Ret (Ok false)
  | Some data => Host (VerifyKey roundID attempt (nid (rnode r))) data (Ret (Ok true))
  end.

(** The nodes that [collectVerifyReceipts] polls: [n.Order] without ourselves
    and without the folded seats. *)
Fixpoint receipt_targets (myID : string) (folded : list bool) (order : list string) (seatIdx : Z)
    : res Empty_set (list string) :=
  match order with
  | [] => Ok []
  | id :: order =>
      if decide (id = myID) then receipt_targets myID folded order (seatIdx + 1)
      else
        f ← idx folded seatIdx;
        rest ← receipt_targets myID folded order (seatIdx + 1);
        Ok (if (f : bool) then rest else id :: rest)
  end.

(** The polling goroutines, in the order in which they complete; the first
    failure is kept. *)
Fixpoint poll_receipts (roundID attempt : Z) (targets : list string) (firstErr : option string)
    : rproc (option string) :=
  match targets with
  | [] => Ret (Ok firstErr)
  | id :: targets =>
      PollRemote id (VerifyKey roundID attempt id) (λ v,
        poll_receipts roundID attempt targets
          (match v, firstErr with None, None => Some id | _, _ => firstErr end))
  end.

(** [Some id] when the poll of [id] was the first to fail. *)
Definition collectVerifyReceipts (r : Runner) (roundID attempt : Z) : rproc (option string) :=
  let* state := lift (Log_Replay (rlog r)) in
  let* targets := lift (receipt_targets (nid (rnode r)) (Folded state) (Order (rnode r)) 0) in
  poll_receipts roundID attempt (completion targets) None.

(** The common end of the two attempts: append, host our receipt, collect the
    others', and roll back on a failure. *)
Definition commit_attempt (r : Runner) (entry : Entry) (roundID attempt : Z)
    : rproc (Runner * attemptOutcome * reason) :=
  let r := set_log (Append (rlog r) entry) r in
  let rollback := set_log (RollbackLast (rlog r)) r in
  let* hosted := hostVerifyReceipt r roundID attempt in
  if negb hosted then Ret (Ok (rollback, attemptTimeout, EncodeReceipt))
  else
    let* failed := collectVerifyReceipts r roundID attempt in
    match failed with
    | Some id => Ret (Ok (rollback, attemptTimeout, PollVerify id))
    | None => Ret (Ok (r, attemptCommitted, NoReason))
    end.

(** [acts] are the actions received before the deadline. *)
Fixpoint runProposerAttempt (r : Runner) (roundID attempt : Z) (acts : list Action)
    : rproc (Runner * attemptOutcome * reason) :=
  match acts with
  | [] => Ret (Ok (r, attemptTimeout, NoLegalAction))
  | action :: acts =>
      let* entry := lift (BuildProposal (rlog r) (u8 (SeatIdx (rnode r))) action (rsk r)) in
      match VerifyProposal (rlog r) entry (rpk r) with
      | Panic => Ret Panic
      | Err e =>
          runProposerAttempt (emit (mkEvent roundID attempt "rejected" (Refused e)) r) roundID attempt acts
      | Ok _ =>
          match gob_encode entry with
          | None => Ret (Ok (r, attemptTimeout, EncodeProposal))
          | Some data => Host (ProposalKey roundID attempt) data (commit_attempt r entry roundID attempt)
          end
      end
  end.

Definition runVerifierAttempt (r : Runner) (roundID attempt : Z) : rproc (Runner * attemptOutcome * reason) :=
  let* proposerID := lift (currentProposer r) in
  PollRemote proposerID (ProposalKey roundID attempt) (λ v,
  match v with
  | None => Ret (Ok (r, attemptTimeout, PollProposal proposerID))
  | Some data =>
      match gob_decode data with
      | None => Ret (Ok (r, attemptTimeout, DecodeProposal))
      | Some entry =>
          match VerifyProposal (rlog r) entry (default [] (PeerPK r proposerID)) with
          | Panic => Ret Panic
          | Err e => Ret (Ok (r, attemptTimeout, Refused e))
          | Ok _ => commit_attempt r entry roundID attempt
          end
      end
  end).

Definition runAttempt (r : Runner) (roundID attempt : Z) (acts : list Action)
    : rproc (Runner * attemptOutcome * reason) :=
  let* role := lift (currentRole r) in
  match role with
  | RoleProposer => runProposerAttempt r roundID attempt acts
  | RoleVerifier => runVerifierAttempt r roundID attempt
  end.

(** ** Auto-fold *)

Inductive autofold_err :=
| NoEligible
| PollAutoFold (nodeID : string)
| AutoFoldRefused (e : log_err).

(** The goroutines that fill [cosigs], in the order in which they complete:
    index and seat of the attestor. *)
Fixpoint poll_attestations (r : Runner) (roundID : Z) (mySig : list Z) (todo : list (Z * Z))
    (cosigs : list (list Z)) (firstErr : option string) : rproc (list (list Z) * option string) :=
  match todo with
  | [] => Ret (Ok (cosigs, firstErr))
  | (i, seat) :: todo =>
      if seat =? u8 (SeatIdx (rnode r)) then
        let* cosigs := lift (upd cosigs i mySig) in
        poll_attestations r roundID mySig todo cosigs firstErr
      else
        let* attestorID := lift (idx (Order (rnode r)) seat) in
        PollRemote attestorID (AutoFoldKey roundID attestorID) (λ v,
        match v with
        | None => poll_attestations r roundID mySig todo cosigs (Some (default attestorID firstErr))
        | Some data =>
            let* cosigs := lift (upd cosigs i data) in
            poll_attestations r roundID mySig todo cosigs firstErr
        end)
  end.

(** The map of the attestors' keys. *)
Definition attestor_pks (r : Runner) (expected : list Z) : res Empty_set (gmap Z (list Z)) :=
  foldM (λ pks seat,
    id ← idx (Order (rnode r)) seat;
    Ok (match PeerPK r id with Some pk => <[seat := pk]> pks | None => pks end)) expected ∅.

(** After hosting our attestation. *)
Definition collect_auto_fold (r : Runner) (roundID targetSeat : Z) (mySig : list Z)
    : rproc (Runner * option autofold_err) :=
  let* expected := lift (ExpectedAutoFoldAttestors (rlog r) targetSeat) in
  if len expected =? 0 then Ret (Ok (r, Some NoEligible))
  else
    let* (cosigs, firstErr) :=
      poll_attestations r roundID mySig (completion (imap (λ i seat, (Z.of_nat i, seat)) expected))
        (replicate (length expected) []) None in
    match firstErr with
    | Some id => Ret (Ok (r, Some (PollAutoFold id)))
    | None =>
        let* pks := lift (attestor_pks r expected) in
        let entry := mkEntry roundID targetSeat (mkAction ActionFold 0) [] expected cosigs [] in
        match AppendAutoFold (rlog r) entry pks with
        | (l, Ok _) => Ret (Ok (set_log l r, None))
        | (l, Err e) => Ret (Ok (set_log l r, Some (AutoFoldRefused e)))
        | (_, Panic) => Ret Panic
        end
    end.

Definition driveAutoFold (r : Runner) (roundID targetSeat : Z) : rproc (Runner * option autofold_err) :=
  if negb (u8 (SeatIdx (rnode r)) =? targetSeat) then
    let* mySig := lift (BuildAutoFoldAttestation (rlog r) roundID targetSeat (rsk r)) in
    Host (AutoFoldKey roundID (nid (rnode r))) mySig (collect_auto_fold r roundID targetSeat mySig)
  else collect_auto_fold r roundID targetSeat [].

(** ** Rounds *)

Record Env := mkEnv {
  received : Z → Z → list Action;
  ctx_ended : Z → Z → bool;
  ctx_stopped : Z → bool;
}.

Inductive round_err := ErrContext | ErrAutoFold (e : autofold_err).

(** [cleanupAttempt], then [k]. *)
Definition cleanupAttempt {A} (r : Runner) (roundID attempt : Z) (k : rproc A) : rproc A :=
  Remove (ProposalKey roundID attempt)
    (foldr (λ id k, if decide (id = nid (rnode r)) then k else Remove (VerifyKey roundID attempt id) k)
       k (Order (rnode r))).

(** The loop over the attempts: [n] are left, [attempt] is the next.  [inl]
    ends the round, [inr] goes on to the auto-fold. *)
Fixpoint attempts_loop (env : Env) (r : Runner) (roundID attempt : Z) (n : nat)
    : rproc (Runner * option round_err + Runner) :=
  match n with
  | O => Ret (Ok (inr r))
  | S n =>
      let* (r, outcome, why) := runAttempt r roundID attempt (received env roundID attempt) in
      cleanupAttempt r roundID attempt
        (if ctx_ended env roundID attempt then Ret (Ok (inl (r, Some ErrContext)))
         else
           match outcome with
           | attemptCommitted =>
               let r := emit (mkEvent roundID attempt "committed" NoReason) r in
               if 0 <? roundID then
                 RemovePrefix (RoundPrefix (roundID - 1))
                   (RemovePrefix (AutoFoldPrefix (roundID - 1)) (Ret (Ok (inl (r, None)))))
               else Ret (Ok (inl (r, None)))
           | attemptTimeout =>
               attempts_loop env (emit (mkEvent roundID attempt "timeout" why) r) roundID (attempt + 1) n
           end)
  end.

Definition runRound (env : Env) (r : Runner) : rproc (Runner * option round_err) :=
  let roundID := Log_RoundID (rlog r) in
  let* proposerSeat := lift (ExpectedNextPlayer (rlog r)) in
  let* ended := attempts_loop env r roundID 0 (Z.to_nat (cfgMaxAttempts (rcfg r))) in
  match ended with
  | inl result => Ret (Ok result)
  | inr r =>
      let* (r, err) := driveAutoFold r roundID proposerSeat in
      match err with
      | Some e => Ret (Ok (emit (mkEvent roundID 0 "auto_fold" AutoFoldFailed) r, Some (ErrAutoFold e)))
      | None => Ret (Ok (emit (mkEvent roundID 0 "auto_fold" NoReason) r, None))
      end
  end.

(** ** The hand *)

Definition revealStreet (n : Node) (street : Z) : proc Node :=
  if street =? StreetFlop then RevealFlop n
  else if street =? StreetTurn then RevealTurn n
  else if street =? StreetRiver then RevealRiver n
  else Ret (Ok n).

Inductive run_err :=
| RunContext
| RunShuffleFailed (e : peer_err)
| RunDealFailed (e : peer_err)
| RunRoundFailed (roundID : Z) (e : round_err)
| RunRevealFailed (street : Z) (e : peer_err).

(** How the loop of [Run] ends: at the end of the hand or with an error;
    [OutOfFuel] when the model's bound on the rounds is reached. *)
Inductive run_end := HandDone (s : State) | RunFailed (e : run_err) | OutOfFuel.

Fixpoint run_rounds (env : Env) (fuel : nat) (r : Runner) : rproc (Runner * run_end) :=
  match fuel with
  | O => Ret (Ok (r, OutOfFuel))
  | S fuel =>
      if ctx_stopped env (Log_RoundID (rlog r)) then Ret (Ok (r, RunFailed RunContext))
      else
        let* preState := lift (Log_Replay (rlog r)) in
        if HandOver preState then Ret (Ok (r, HandDone preState))
        else
          let* (r, err) := runRound env r in
          match err with
          | Some e => Ret (Ok (r, RunFailed (RunRoundFailed (Log_RoundID (rlog r)) e)))
          | None =>
              let* postState := lift (Log_Replay (rlog r)) in
              if negb (Street postState =? Street preState) then
                act_bind (revealStreet (rnode r) (Street postState)) (λ res,
                match res with
                | Ok n => run_rounds env fuel (set_node n r)
                | Err e => Ret (Ok (r, RunFailed (RunRevealFailed (Street postState) e)))
                | Panic => Ret Panic
                end)
              else run_rounds env fuel r
          end
  end.

(** The goroutines of [DealHoleCards], one after the other as they complete. *)
Fixpoint gather {A} (ps : list (act A)) : act (list A) :=
  match ps with
  | [] => Ret []
  | p :: ps => act_bind p (λ a, act_bind (gather ps) (λ rest, Ret (a :: rest)))
  end.

Definition DealHoleCards (n : Node) : rproc (Node * option peer_err) :=
  act_bind (gather (completion (deal_procs n))) (λ done, Ret (deal_join n done)).

(** [Run] up to the end of the hand; [c] is the position in the node's random
    stream.  A node whose game has not started waits until its context ends. *)
Definition Run `{Codec (list bytes)} `{RandSource} (env : Env) (fuel : nat) (c : nat) (r : Runner)
    : rproc (Runner * run_end) :=
  if negb (Started (rnode r)) then Ret (Ok (r, RunFailed RunContext))
  else
    act_bind (RunShuffle (rnode r) c) (λ shuffled,
    match shuffled with
    | Panic => Ret Panic
    | Err e => Ret (Ok (r, RunFailed (RunShuffleFailed e)))
    | Ok n =>
        let* (n, err) := DealHoleCards n in
        match err with
        | Some e => Ret (Ok (set_node n r, RunFailed (RunDealFailed e)))
        | None => run_rounds env fuel (set_node n r)
        end
    end).

(** The first seat that has not folded. *)
Fixpoint uncontested_seat (folded : list bool) (i : Z) : Z :=
  match folded with
  | [] => -1
  | f :: folded => if f then uncontested_seat folded (i + 1) else i
  end.

Inductive hand_result := Uncontested (winner : Z) | Contested (r : ShowdownResult).

Definition finishHand `{GoRuntime} `{Codec ShowdownClaim} (n : Node) (store : Store) (remote : oracle)
    (state : State) : res showdown_err (Store * hand_result) :=
  if NumNonFolded state <=? 1 then Ok (store, Uncontested (uncontested_seat (Folded state) 0))
  else
    '(store, r) ← RunShowdown (λ l, completion l) n store remote (Folded state);
    Ok (store, Contested r).

End runner.
