(* ===== verification/RunnerProofs.v ===== *)
(** * The round runner: one node, whatever its peers answer

    [total] results: a routine of the runner returns, without a panic, a value
    with the given property, for every outcome of its polls. *)

From Stdlib Require Import ZArith Lia Ascii.
From stdpp Require Import base list gmap strings numbers.
From S2P Require Import Prelude Runtime Strconv Ephemeral Deck DeckProps Net Peer Showdown.
From S2P Require Import GameState GameStateProofs GameLog GameLogProofs GameLogProps Runner.

#[local] Open Scope Z_scope.

Definition total {A} (m : res Empty_set A) (Q : A → Prop) : Prop := ∃ a, m = Ok a ∧ Q a.

Lemma total_Ok {A} (a : A) (Q : A → Prop) : Q a → total (Ok a) Q.
Proof. by exists a. Qed.

Lemma total_mono {A} (m : res Empty_set A) (P Q : A → Prop) :
  total m P → (∀ a, P a → Q a) → total m Q.
Proof. intros (a & -> & Ha) HPQ. exists a. auto. Qed.

Lemma total_bind {A B} (m : res Empty_set A) (f : A → res Empty_set B) (P : A → Prop) (Q : B → Prop) :
  total m P → (∀ a, P a → total (f a) Q) → total (m ≫= f) Q.
Proof. intros (a & -> & Ha) Hf. cbn. auto. Qed.

Lemma total_rbind {A B} remote (p : rproc A) (f : A → rproc B) (P : A → Prop) (Q : B → Prop) :
  total (result remote p) P → (∀ a, P a → total (result remote (f a)) Q) →
  total (result remote (rbind p f)) Q.
Proof. intros (a & Hp & Ha) Hf. unfold rbind. rewrite result_bind, Hp. auto. Qed.

(** An error type without values. *)
Lemma no_err_cases {E A} (m : res Empty_set A) (Q : A → Prop) :
  total m Q → ∃ a, no_err (E:=E) m = Ok a ∧ Q a.
Proof. intros (a & -> & Ha). by exists a. Qed.

Lemma res_cases {E} (m : res E unit) : m ≠ Panic → m = Ok tt ∨ ∃ e, m = Err e.
Proof. destruct m as [[]| |]; eauto. done. Qed.

(** A routine that may fail but does not panic: one rule per construct. *)
Lemma bind_no_panic {E A B} (m : res E A) (f : A → res E B) :
  m ≠ Panic → (∀ a, m = Ok a → f a ≠ Panic) → m ≫= f ≠ Panic.
Proof. destruct m; cbn; auto. Qed.

Lemma wrap_no_panic {E E' A} (g : E → E') (m : res E A) : m ≠ Panic → wrap_err g m ≠ Panic.
Proof. by destruct m. Qed.

Lemma idx_no_panic {E A} (l : list A) i : 0 ≤ i < Z.of_nat (length l) → idx (E:=E) l i ≠ Panic.
Proof. intros Hi. destruct (idx_in_range (E:=E) l i Hi) as (a & _ & ->). done. Qed.

Lemma total_no_panic {E A} (m : res Empty_set A) (Q : A → Prop) : total m Q → no_err (E:=E) m ≠ Panic.
Proof. by intros (a & -> & _). Qed.

(** ** The log of a runner *)

Section log.
Context `{C : SigScheme} `{L : !SigLaws C} (np stack : Z) (Ht : table np stack) (Hnp : 2 ≤ np).

Lemma replay_total l : log_reach np stack l →
  total (Log_Replay l) (λ s, length (Folded s) = Z.to_nat np ∧ length (Stacks s) = Z.to_nat np ∧
    length (Contributions s) = Z.to_nat np ∧ 1 ≤ count_false (Folded s)).
Proof using L Ht Hnp.
  intros Hl. destruct (log_ok_replay np stack l (log_reach_ok np stack l Ht Hnp Hl)) as (s & u & Hs & Hc & Hb).
  exists s. split; [done|]. destruct Hc, Hb. split_and!; [done..|].
  destruct (HandOver s); [destruct bt_over as [?|[_ ?]]; [done|lia..]|].
  destruct bt_running as (_ & ? & _); [done|lia].
Qed.

Lemma reach_players l : log_reach np stack l → numPlayers l = np ∧ startingStack l = stack.
Proof using L Ht Hnp. intros Hl. destruct (log_reach_ok np stack l Ht Hnp Hl) as (? & ? & _). done. Qed.

Lemma expected_total l : log_reach np stack l → total (ExpectedNextPlayer l) (λ q, 0 ≤ q < np).
Proof using L Ht Hnp.
  intros Hl. destruct (replay_total l Hl) as (s & Hs & Hf & _ & _ & Hc).
  destruct (reach_players l Hl) as [Hn _]. pose proof (tb_n _ _ Ht).
  destruct (ExpectedNextPlayer_spec l s) as (q & Hq & d & Hd & -> & _); [lia|done|by rewrite Hn|lia|].
  exists ((Log_RoundID l mod numPlayers l + d) mod numPlayers l). split; [done|].
  rewrite Hn. apply Z.mod_pos_bound. lia.
Qed.

Lemma bytes_total l : log_reach np stack l → total (Log_Bytes l) (λ _, True).
Proof using L Ht Hnp.
  intros Hl. destruct (log_ok_bytes np stack l (log_reach_ok np stack l Ht Hnp Hl)) as [b Hb].
  by exists b.
Qed.

Lemma sign_total sk payload : len sk = PrivateKeySize → total (Sign sk payload) (λ _, True).
Proof. intros Hk. unfold Sign. rewrite Hk, Z.eqb_refl. by eexists. Qed.

Lemma verify_no_panic {E} pk payload sig : len pk = PublicKeySize → no_err (E:=E) (Verify pk payload sig) ≠ Panic.
Proof. intros Hk. unfold Verify. by rewrite Hk, Z.eqb_refl. Qed.

Lemma ValidateAction_no_panic s p a :
  length (Folded s) = length (Stacks s) → length (Contributions s) = length (Stacks s) → 0 ≤ p →
  ValidateAction s p a ≠ Panic.
Proof.
  intros Hf Hc Hp. unfold ValidateAction. destruct (HandOver s); [done|].
  destruct (Z.leb_spec (Z.of_nat (length (Stacks s))) p); [done|].
  apply bind_no_panic; [apply idx_no_panic; lia|]. intros f _. destruct f; [done|].
  repeat (match goal with |- (if ?b then _ else _) ≠ Panic => destruct b end; [try done|]);
    try done; try (apply bind_no_panic; [apply idx_no_panic; lia|intros c _]);
    repeat (match goal with |- (if ?b then _ else _) ≠ Panic => destruct b end); try done.
  apply bind_no_panic; [apply idx_no_panic; lia|]. intros st _. by destruct (_ <? _).
Qed.

Lemma VerifyProposal_no_panic l p pk : log_reach np stack l → VerifyProposal l p pk ≠ Panic.
Proof using L Ht Hnp.
  intros Hl. destruct (replay_total l Hl) as (s & Hs & Hf & Hst & Hc & _).
  destruct (expected_total l Hl) as (q & Hq & Hq').
  unfold VerifyProposal. destruct (negb (RoundID p =? Log_RoundID l)); [done|].
  rewrite Hq. cbn [no_err wrap_err mbind res_bind].
  destruct (Z.eqb_spec (PlayerID p) q) as [->|]; [|done]. cbn [negb].
  destruct (Z.eqb_spec (len pk) PublicKeySize); [|done]. cbn [negb].
  destruct (bytes_total l Hl) as (b & -> & _). cbn [no_err wrap_err mbind res_bind].
  apply bind_no_panic; [by apply verify_no_panic|]. intros ok _. destruct ok; [|done]. cbn [negb].
  rewrite Hs. cbn [no_err wrap_err mbind res_bind].
  apply wrap_no_panic, ValidateAction_no_panic; [congruence..|lia].
Qed.

Lemma BuildProposal_total l p a sk :
  log_reach np stack l → action_wf a → 0 ≤ p < 2 ^ 8 → len sk = PrivateKeySize →
  total (BuildProposal l p a sk) (λ e, entry_typed e ∧ EAction e = a ∧ PlayerID e = p).
Proof using L Ht Hnp.
  intros Hl Ha Hp Hk. unfold BuildProposal.
  eapply total_bind; [by apply bytes_total|]. intros b _.
  eapply total_bind; [by apply sign_total|]. intros sig _. apply total_Ok.
  split; [|done]. constructor; cbn; [apply Z.mod_pos_bound; lia|done|done|unfold len; cbn; lia].
Qed.

(** What the seat whose turn it is signs for a legal action is accepted. *)
Lemma built_entry l s q a sk e :
  log_reach np stack l → ExpectedNextPlayer l = Ok q → action_wf a → Log_Replay l = Ok s →
  ValidateAction s q a = Ok tt → len sk = PrivateKeySize → BuildProposal l q a sk = Ok e →
  0 ≤ q < np ∧ entry_typed e ∧ EAction e = a ∧ PlayerID e = q ∧ VerifyProposal l e (ed25519_Public sk) = Ok tt.
Proof using L Ht Hnp.
  intros Hl Hturn Ha Hs Hv Hk Hb. pose proof (tb_n _ _ Ht).
  destruct (expected_total l Hl) as (q' & Hq' & Hr). rewrite Hturn in Hq'. injection Hq' as <-. split; [done|].
  destruct (BuildProposal_total l q a sk Hl Ha ltac:(lia) Hk) as (e' & He' & Hty & Hea & Hep).
  rewrite Hb in He'. injection He' as <-. split_and!; [done..|].
  apply VerifyProposal_Ok. unfold BuildProposal, Sign in Hb.
  apply res_bind_Ok in Hb as (b & Hb & He). rewrite Hk, Z.eqb_refl in He.
  apply res_bind_Ok in He as (sig & [= <-] & [= <-]). exists b, s. cbn. split_and!; try done.
  apply Verify_true. split; [by apply public_size|by apply sign_verify].
Qed.

Lemma attestation_total l rid target sk :
  log_reach np stack l → len sk = PrivateKeySize →
  total (BuildAutoFoldAttestation l rid target sk) (λ _, True).
Proof using L Ht Hnp.
  intros Hl Hk. eapply total_bind; [|intros; by apply sign_total].
  eapply total_bind; [by apply bytes_total|]. intros b _. by apply (total_Ok _ (λ _, True)).
Qed.

Lemma receipt_total l p sk :
  log_reach np stack l → len sk = PrivateKeySize → total (BuildVerifyReceipt l p sk) (λ _, True).
Proof using L Ht Hnp.
  intros Hl Hk. eapply total_bind.
  - eapply total_bind; [by apply bytes_total|]. intros b _. by apply (total_Ok _ (λ _, True)).
  - intros h _. eapply total_bind; [by apply sign_total|]. intros sig _. by apply total_Ok.
Qed.

Lemma attestors_total l target : log_reach np stack l →
  total (ExpectedAutoFoldAttestors l target) (Forall (λ q, 0 ≤ q < np)).
Proof using L Ht Hnp.
  intros Hl. destruct (replay_total l Hl) as (s & Hs & Hf & _). destruct (reach_players l Hl) as [Hn _].
  pose proof (tb_n _ _ Ht).
  exists (filter (λ q, q ≠ target ∧ Folded s !! Z.to_nat q = Some false) (seqZ 0 (numPlayers l))).
  split; [apply ExpectedAutoFoldAttestors_spec; [lia|done|by rewrite Hn]|].
  apply list.Forall_forall. intros q [_ Hq]%list_elem_of_filter. apply elem_of_seqZ in Hq. lia.
Qed.

Lemma attest_no_panic l rid target pk sig :
  log_reach np stack l → VerifyAutoFoldAttestation l rid target pk sig ≠ Panic.
Proof using L Ht Hnp.
  intros Hl. unfold VerifyAutoFoldAttestation.
  destruct (Z.eqb_spec (len pk) PublicKeySize); [|done]. cbn [negb].
  apply bind_no_panic.
  - eapply total_no_panic, (total_bind _ _ (λ _, True) (λ _, True)); [by apply bytes_total|].
    intros b _. by apply total_Ok.
  - intros payload _. apply bind_no_panic; [by apply verify_no_panic|]. intros ok _. by destruct ok.
Qed.

Lemma cosigners_no_panic l e pks expected signers i :
  log_reach np stack l → 0 ≤ i → i + Z.of_nat (length signers) ≤ Z.of_nat (length expected) →
  length (CoSignatures e) = length expected → check_cosigners l e pks expected signers i ≠ Panic.
Proof using L Ht Hnp.
  intros Hl. revert i. induction signers as [|q signers IH]; intros i Hi Hlen Hsig; [done|].
  cbn [check_cosigners length] in *. apply bind_no_panic; [apply idx_no_panic; lia|]. intros want _.
  destruct (negb _); [done|]. destruct (pks !! q) as [pk|]; [|done].
  apply bind_no_panic; [apply idx_no_panic; lia|]. intros sig _.
  apply bind_no_panic; [by apply wrap_no_panic, attest_no_panic|]. intros _ _. apply IH; lia.
Qed.

Lemma auto_fold_no_panic l e pks :
  log_reach np stack l → 0 ≤ PlayerID e → VerifyAutoFoldEntry l e pks ≠ Panic.
Proof using L Ht Hnp.
  intros Hl Hp. destruct (replay_total l Hl) as (s & Hs & Hf & _). destruct (reach_players l Hl) as [Hn _].
  unfold VerifyAutoFoldEntry. repeat (destruct (negb _); [done|]).
  destruct (Z.leb_spec (numPlayers l) (PlayerID e)); [done|].
  rewrite Hs. cbn [no_err wrap_err mbind res_bind].
  apply bind_no_panic; [apply idx_no_panic; lia|]. intros f _. destruct f; [done|].
  destruct (attestors_total l (PlayerID e) Hl) as (ex & -> & _). cbn [no_err wrap_err mbind res_bind].
  destruct (len ex =? 0); [done|].
  destruct (Z.eqb_spec (len (CoSigners e)) (len ex)) as [H1|]; [|done]. cbn [negb].
  destruct (Z.eqb_spec (len (CoSignatures e)) (len (CoSigners e))) as [H2|]; [|done]. cbn [negb].
  unfold len in *. apply cosigners_no_panic; [done|lia..].
Qed.

End log.

(** ** Attempts *)

(** What is used of [encoding/gob] on entries: a decoded entry is a Go value of
    the struct type, and encoding an entry and decoding it gives it back. *)
Class EntryCodecLaws `{Codec Entry} : Prop := {
  entry_encodes : ∀ e, entry_typed e → ∃ data, gob_encode e = Some data;
  entry_roundtrip : ∀ e data, entry_typed e → gob_encode e = Some data → gob_decode data = Some e;
  decode_typed : ∀ data e, gob_decode data = Some e → entry_typed e;
}.

(** The parts of a runner that no round changes. *)
Record same_setup (r r' : Runner) : Prop := {
  ss_node : rnode r' = rnode r;
  ss_sk : rsk r' = rsk r;
  ss_pk : rpk r' = rpk r;
  ss_cfg : rcfg r' = rcfg r;
  ss_pks : peerPKs r' = peerPKs r;
}.

#[export] Instance same_setup_preorder : PreOrder same_setup.
Proof.
  split; [by intros r|]. intros r1 r2 r3 [] []. constructor; congruence.
Qed.

Lemma set_log_setup l r : same_setup r (set_log l r).
Proof. done. Qed.

Lemma emit_setup ev r : same_setup r (emit ev r).
Proof. done. Qed.

Create HintDb runner.
#[export] Hint Resolve set_log_setup emit_setup : runner.

Section attempts.
Context `{C : SigScheme} `{L : !SigLaws C} `{CE : Codec Entry} `{EL : !EntryCodecLaws}.
Context `{CR : Codec VerifyReceipt} `{SC : Schedule} `{SL : !ScheduleLaws}.
Context (np stack : Z) (Ht : table np stack) (Hnp : 2 ≤ np) (remote : oracle).

Record runner_ok (r : Runner) : Prop := {
  ro_log : log_reach np stack (rlog r);
  ro_order : length (Order (rnode r)) = Z.to_nat np;
  ro_seat : 0 ≤ SeatIdx (rnode r) < np;
  ro_sk : len (rsk r) = PrivateKeySize;
}.

Lemma runner_ok_setup r r' : runner_ok r → same_setup r r' → log_reach np stack (rlog r') → runner_ok r'.
Proof. intros [] [] ?. constructor; [done|congruence..]. Qed.

(** Every node that is polled for its receipt served one. *)
Definition receipts_served (r : Runner) (roundID attempt : Z) : Prop :=
  ∃ s targets, Log_Replay (rlog r) = Ok s ∧
    receipt_targets (nid (rnode r)) (Folded s) (Order (rnode r)) 0 = Ok targets ∧
    Forall (λ id, remote id (VerifyKey roundID attempt id) ≠ None) targets.

Lemma targets_total myID folded order i :
  0 ≤ i → i + Z.of_nat (length order) ≤ Z.of_nat (length folded) →
  total (receipt_targets myID folded order i) (λ _, True).
Proof.
  revert i. induction order as [|id order IH]; intros i Hi Hlen; [by apply total_Ok|].
  cbn [receipt_targets length] in *. destruct (decide (id = myID)); [apply IH; lia|].
  destruct (idx_in_range (E:=Empty_set) folded i) as (f & _ & ->); [lia|]. cbn [mbind res_bind].
  eapply total_bind; [apply IH; lia|]. intros rest _. by apply total_Ok.
Qed.

Lemma poll_receipts_result rid at_ targets firstErr :
  total (result remote (poll_receipts rid at_ targets firstErr)) (λ failed,
    failed = None ↔ firstErr = None ∧ Forall (λ id, remote id (VerifyKey rid at_ id) ≠ None) targets).
Proof.
  revert firstErr. induction targets as [|id targets IH]; intros firstErr; cbn [poll_receipts result].
  - apply total_Ok. rewrite list.Forall_nil. naive_solver.
  - eapply total_mono; [apply IH|]. cbn. intros failed ->. rewrite list.Forall_cons.
    destruct (remote id _) as [v|], firstErr; naive_solver.
Qed.

Lemma collect_total r rid at_ :
  runner_ok r → total (result remote (collectVerifyReceipts r rid at_)) (λ failed,
    failed = None → receipts_served r rid at_).
Proof using L Ht Hnp SL.
  intros [Hl Ho _ _]. unfold collectVerifyReceipts. pose proof (tb_n _ _ Ht).
  destruct (replay_total np stack Ht Hnp (rlog r) Hl) as (s & Hs & Hf & _).
  eapply (total_rbind _ _ _ (λ s', s' = s)); [unfold lift; cbn; rewrite Hs; by apply total_Ok|]. intros ? ->.
  destruct (targets_total (nid (rnode r)) (Folded s) (Order (rnode r)) 0) as (ts & Hts & _); [lia..|].
  eapply (total_rbind _ _ _ (λ ts', ts' = ts)); [unfold lift; cbn; rewrite Hts; by apply total_Ok|]. intros ? ->.
  eapply total_mono; [apply poll_receipts_result|]. cbn. intros failed -> [_ Hall].
  exists s, ts. split_and!; [done..|]. by rewrite completion_perm in Hall.
Qed.

Lemma host_receipt_total r rid at_ :
  runner_ok r → total (result remote (hostVerifyReceipt r rid at_)) (λ _, True).
Proof using L Ht Hnp.
  intros [Hl _ _ Hk]. eapply total_rbind; [by apply (receipt_total np stack Ht Hnp)|]. intros receipt _.
  destruct (gob_encode receipt); by apply total_Ok.
Qed.

Lemma rollback_append l e : RollbackLast (Append l e) = l.
Proof.
  unfold RollbackLast, Append. cbn. rewrite length_app. cbn.
  replace (length (entries l) + 1 - 1)%nat with (length (entries l)) by lia.
  rewrite take_app_length. by destruct l.
Qed.

Lemma set_log_id r l : set_log (rlog r) (set_log l r) = r.
Proof. by destruct r. Qed.

Lemma commit_attempt_total r e pk rid at_ :
  runner_ok r → entry_typed e → VerifyProposal (rlog r) e pk = Ok tt →
  total (result remote (commit_attempt r e rid at_)) (λ '(r', o, why),
    match o with
    | attemptCommitted => r' = set_log (Append (rlog r) e) r ∧ receipts_served r' rid at_
    | attemptTimeout => r' = r
    end).
Proof using L Ht Hnp SL.
  intros Hr He Hv. set (r1 := set_log (Append (rlog r) e) r).
  assert (runner_ok r1) as Hr1.
  { apply (runner_ok_setup r); [done..|]. eapply reach_propose; [apply Hr|done|exact Hv]. }
  assert (set_log (RollbackLast (rlog r1)) r1 = r) as Hrb.
  { unfold r1. change (rlog (set_log (Append (rlog r) e) r)) with (Append (rlog r) e).
    by rewrite rollback_append, set_log_id. }
  unfold commit_attempt. fold r1. rewrite Hrb.
  eapply total_rbind; [by apply host_receipt_total|]. intros hosted _.
  destruct hosted; cbn [negb]; [|by apply total_Ok].
  eapply total_rbind; [by apply collect_total|]. intros failed Hf.
  destruct failed; apply total_Ok; [done|]. split; [done|]. by apply Hf.
Qed.

(** What an attempt of round [rid] leaves behind. *)
Definition attempt_post (r : Runner) (rid at_ : Z) (x : Runner * attemptOutcome * reason) : Prop :=
  let '(r', o, why) := x in
  same_setup r r' ∧ log_reach np stack (rlog r') ∧
  match o with
  | attemptTimeout => rlog r' = rlog r
  | attemptCommitted => ∃ e pk, entry_typed e ∧ VerifyProposal (rlog r) e pk = Ok tt ∧
      rlog r' = Append (rlog r) e ∧ receipts_served r' rid at_
  end.

Lemma commit_attempt_post r e pk rid at_ :
  runner_ok r → entry_typed e → VerifyProposal (rlog r) e pk = Ok tt →
  total (result remote (commit_attempt r e rid at_)) (attempt_post r rid at_).
Proof using L Ht Hnp SL.
  intros Hr He Hv. eapply total_mono; [by eapply commit_attempt_total|]. intros [[r' o] why] Ho.
  destruct o; [destruct Ho as [-> Hs]|subst r'].
  - split_and!; [done| |by exists e, pk]. eapply reach_propose; [apply Hr|done|exact Hv].
  - split_and!; [done|apply Hr|done].
Qed.

Lemma proposer_total r rid at_ acts :
  runner_ok r → Forall action_wf acts →
  total (result remote (runProposerAttempt r rid at_ acts)) (attempt_post r rid at_).
Proof using L Ht Hnp SL EL.
  intros Hr Hacts. revert r Hr. induction Hacts as [|a acts Ha Hacts IH]; intros r Hr; cbn [runProposerAttempt].
  { apply total_Ok. split_and!; [done|apply Hr|done]. }
  pose proof (tb_n _ _ Ht). pose proof Hr as [Hl Ho Hs Hk].
  eapply total_rbind.
  { apply (BuildProposal_total np stack Ht Hnp); [done|done|unfold u8; apply Z.mod_pos_bound; lia|done]. }
  intros e (He & _ & _).
  destruct (res_cases _ (VerifyProposal_no_panic np stack Ht Hnp (rlog r) e (rpk r) Hl)) as [Hv|[err Hv]]; rewrite Hv.
  - destruct (gob_encode e); cbn [result]; [by eapply commit_attempt_post|].
    apply total_Ok. by split_and!.
  - eapply total_mono; [apply IH; by constructor|]. intros [[r' o] why] (Hss & Hl' & Hpost).
    split_and!; [by etrans; [apply emit_setup|]|done|exact Hpost].
Qed.

Lemma verifier_total r rid at_ :
  runner_ok r → total (result remote (runVerifierAttempt r rid at_)) (attempt_post r rid at_).
Proof using L Ht Hnp SL EL.
  intros Hr. pose proof Hr as [Hl Ho Hs Hk]. unfold runVerifierAttempt.
  eapply (total_rbind _ _ _ (λ _, True)).
  { eapply total_bind; [by apply (expected_total np stack Ht Hnp)|]. cbn. intros q Hq.
    destruct (idx_in_range (E:=Empty_set) (Order (rnode r)) q) as (id & _ & Hid); [lia|]. by exists id. }
  intros proposerID _. cbn [result].
  assert (∀ why, total (Ok (r, attemptTimeout, why)) (attempt_post r rid at_)) as Htimeout.
  { intros why. apply total_Ok. by split_and!. }
  destruct (remote proposerID _) as [data|]; [|apply Htimeout].
  destruct (gob_decode data) as [e|] eqn:Hdec; [|apply Htimeout]. apply decode_typed in Hdec.
  destruct (res_cases _ (VerifyProposal_no_panic np stack Ht Hnp (rlog r) e (default [] (PeerPK r proposerID)) Hl))
    as [Hv|[err Hv]]; rewrite Hv; [|apply Htimeout]. by eapply commit_attempt_post.
Qed.

Lemma attempt_total r rid at_ acts :
  runner_ok r → Forall action_wf acts →
  total (result remote (runAttempt r rid at_ acts)) (attempt_post r rid at_).
Proof using L Ht Hnp SL EL.
  intros Hr Hacts. unfold runAttempt. eapply (total_rbind _ _ _ (λ _, True)).
  { eapply total_bind; [apply (expected_total np stack Ht Hnp), Hr|]. intros q _. by apply total_Ok. }
  intros role _. destruct role; [by apply proposer_total|by apply verifier_total].
Qed.

End attempts.

(** ** Auto-fold and rounds *)

(** The street reveals keep the seat and the order, and do not panic. *)
Definition keeps_seat (n : Node) (r : res peer_err Node) : Prop :=
  r ≠ Panic ∧ ∀ n', r = Ok n' → Order n' = Order n ∧ SeatIdx n' = SeatIdx n ∧ nid n' = nid n.

Section reveal.
Context (remote : oracle).

Lemma keeps_seat_err n e : keeps_seat n (Err e).
Proof. split; [done|]. intros n' [=]. Qed.

Lemma order_at_result {A} (n : Node) (i : Z) (k : string → proc A) (Q : res peer_err A → Prop) :
  0 ≤ i < Z.of_nat (length (Order n)) → (∀ id, Q (result remote (k id))) → Q (result remote (order_at n i k)).
Proof.
  intros Hi Hk. unfold order_at, local.
  destruct (idx_in_range (E:=Empty_set) (Order n) i Hi) as (id & _ & ->). apply Hk.
Qed.

Lemma record_keeps n c card :
  communityBase n ≤ c → keeps_seat n (wrap_err (λ e : Empty_set, match e with end) (setCommunity n c card)).
Proof.
  intros Hc. unfold setCommunity. set (b := c - communityBase n).
  assert (0 ≤ b < Z.of_nat (length (pad_board (community n) b))) as Hb.
  { unfold pad_board. rewrite length_app, length_replicate. lia. }
  destruct (idx_in_range (E:=Empty_set) _ b Hb) as (old & _ & ->). cbn [mbind res_bind].
  destruct (bool_decide _); [|rewrite upd_in_range by done]; (split; [done|]); intros n' [= <-]; done.
Qed.

Lemma publish_keeps n c v :
  0 ≤ SeatIdx n < Z.of_nat (length (Order n)) → communityBase n ≤ c →
  keeps_seat n (result remote (publish_card n c v)).
Proof.
  intros Hs Hc.
  assert (∀ data, keeps_seat n (result remote (local (λ e : Empty_set, match e with end)
            (setCommunity n c (of_bytes data)) (λ n', Ret (Ok n'))))) as Hrec.
  { intros data. pose proof (record_keeps n c (of_bytes data) Hc) as Hk. unfold local.
    destruct (setCommunity n c (of_bytes data)) as [n'|[]|]; exact Hk. }
  unfold publish_card. destruct (_ =? _); [apply Hrec|].
  apply order_at_result; [lia|]. intros id. unfold poll. cbn [result].
  destruct (remote id _); [apply Hrec|apply keeps_seat_err].
Qed.

Lemma RevealCommunityCard_keeps n c :
  0 ≤ SeatIdx n < Z.of_nat (length (Order n)) → communityBase n ≤ c →
  keeps_seat n (result remote (RevealCommunityCard n c)).
Proof.
  intros Hs Hc. unfold RevealCommunityCard. destruct (_ || _) eqn:Hb; [apply keeps_seat_err|].
  apply orb_false_iff in Hb as [Hb1 Hb2]. apply Z.ltb_ge in Hb1. apply Z.leb_gt in Hb2.
  destruct (Z.eqb_spec (SeatIdx n) 0).
  - unfold local. destruct (idx_in_range (E:=Empty_set) (FinalDeck n) c) as (d & _ & ->); [lia|].
    by apply publish_keeps.
  - apply order_at_result; [lia|]. intros id. unfold poll. cbn [result].
    destruct (remote id _); [by apply publish_keeps|apply keeps_seat_err].
Qed.

Lemma reveal_all_keeps n cs :
  0 ≤ SeatIdx n < Z.of_nat (length (Order n)) → Forall (λ c, communityBase n ≤ c) cs →
  keeps_seat n (result remote (reveal_all n cs)).
Proof.
  intros Hs Hcs. revert n Hs Hcs. induction cs as [|c cs IH]; intros n Hs Hcs; cbn [reveal_all].
  { split; [done|]. by intros n' [= <-]. }
  apply list.Forall_cons in Hcs as [Hc Hcs]. rewrite result_bind.
  destruct (RevealCommunityCard_keeps n c Hs Hc) as [Hp Hk].
  destruct (result remote (RevealCommunityCard n c)) as [n1|e|]; cbn [local result];
    [|apply keeps_seat_err|done].
  destruct (Hk n1 eq_refl) as (Ho & Hsi & Hid). destruct (IH n1) as [Hp1 Hk1].
  - by rewrite Ho, Hsi.
  - unfold communityBase in *. by rewrite Ho.
  - split; [done|]. intros n' Hn'. destruct (Hk1 n' Hn') as (? & ? & ?). split_and!; congruence.
Qed.

Lemma revealStreet_keeps n street :
  0 ≤ SeatIdx n < Z.of_nat (length (Order n)) → keeps_seat n (result remote (revealStreet n street)).
Proof.
  intros Hs. unfold revealStreet. destruct (street =? StreetFlop).
  { apply reveal_all_keeps; [done|]. repeat (apply Forall_cons_2; [lia|]). constructor. }
  destruct (street =? StreetTurn); [apply RevealCommunityCard_keeps; [done|lia]|].
  destruct (street =? StreetRiver); [apply RevealCommunityCard_keeps; [done|lia]|].
  split; [done|]. by intros n' [= <-].
Qed.

(** *** Shuffling and dealing *)

Lemma poll_keeps n t key (k : bytes → proc Node) :
  (∀ data, keeps_seat n (result remote (k data))) → keeps_seat n (result remote (poll t key k)).
Proof. intros Hk. unfold poll. cbn [result]. destruct (remote t key); [apply Hk|apply keeps_seat_err]. Qed.

Lemma fetch_final_keeps `{Codec (list bytes)} n d :
  0 ≤ SeatIdx n < Z.of_nat (length (Order n)) → keeps_seat n (result remote (fetch_final n d)).
Proof.
  intros Hs. unfold fetch_final. destruct (_ =? _); [split; [done|]; by intros n' [= <-]|].
  apply order_at_result; [lia|]. intros id. apply poll_keeps. intros data.
  destruct (gob_decode data); [split; [done|]; by intros n' [= <-]|apply keeps_seat_err].
Qed.

Lemma shuffle_step_keeps `{Codec (list bytes)} `{RandLaws} n c d :
  0 ≤ SeatIdx n < Z.of_nat (length (Order n)) → keeps_seat n (result remote (shuffle_step n c d)).
Proof.
  intros Hs. unfold shuffle_step. pose proof (shuffle_permutes_lemma c d) as Hsh.
  destruct (Shuffle c d) as [d'|e|]; cbn [local]; [|apply keeps_seat_err|done].
  destruct (gob_encode _); [by apply fetch_final_keeps|apply keeps_seat_err].
Qed.

Lemma RunShuffle_keeps `{Codec (list bytes)} `{RandLaws} n c :
  0 ≤ SeatIdx n < Z.of_nat (length (Order n)) → keeps_seat n (result remote (RunShuffle n c)).
Proof.
  intros Hs. unfold RunShuffle. destruct (_ <? 2); [apply keeps_seat_err|].
  destruct (Z.eqb_spec (SeatIdx n) 0); [by apply shuffle_step_keeps|].
  apply order_at_result; [lia|]. intros id. apply poll_keeps. intros data.
  destruct (gob_decode data); [by apply shuffle_step_keeps|apply keeps_seat_err].
Qed.

Lemma ring_in_order n o i x :
  idx (E:=Empty_set) (nonOwnerRing (Z.of_nat (length (Order n))) o) i = Ok x → 0 ≤ x < Z.of_nat (length (Order n)).
Proof.
  intros Hx. apply idx_Ok in Hx as [_ Hx]. apply list_elem_of_lookup_2, list_elem_of_filter in Hx as [_ Hx].
  apply list_elem_of_fmap in Hx as (j & -> & Hj). apply elem_of_seq in Hj. lia.
Qed.

Lemma ring_position_bound ring seat i :
  0 ≤ i → let p := ring_position_from i ring seat in p = -1 ∨ i ≤ p < i + Z.of_nat (length ring).
Proof.
  revert i. induction ring as [|x ring IH]; intros i Hi; cbn [ring_position_from length]; [by left|].
  destruct (x =? seat); [right; lia|]. destruct (IH (i + 1)) as [?|?]; [lia|by left|right; lia].
Qed.

Lemma poll_no_panic {A} t key (k : bytes → proc A) :
  (∀ data, result remote (k data) ≠ Panic) → result remote (poll t key k) ≠ Panic.
Proof. intros Hk. unfold poll. cbn [result]. destruct (remote t key); [apply Hk|done]. Qed.

(** Taking an element of the ring and asking its node. *)
Lemma ring_step_no_panic {A} n o i (key : Z → string → proc A) :
  0 ≤ i < Z.of_nat (length (nonOwnerRing (Z.of_nat (length (Order n))) o)) →
  (∀ x id, result remote (key x id) ≠ Panic) →
  result remote (local (λ e : Empty_set, match e with end) (idx (nonOwnerRing (Z.of_nat (length (Order n))) o) i)
    (λ x, order_at n x (key x))) ≠ Panic.
Proof.
  intros Hi Hk. destruct (idx_in_range (E:=Empty_set) _ i Hi) as (x & _ & Hx). rewrite Hx. cbn [local].
  apply ring_in_order in Hx. by apply (order_at_result n x (key x) (λ r, r ≠ Panic)).
Qed.

Lemma dealHoleSlot_no_panic n (slot : nat) : result remote (dealHoleSlot n (Z.of_nat slot)) ≠ Panic.
Proof.
  unfold dealHoleSlot. destruct (_ || _) eqn:Hb; [done|]. apply orb_false_iff in Hb as [_ Hb]. apply Z.leb_gt in Hb.
  destruct (Z.leb_spec (Z.of_nat (length (Order n))) (Z.quot (Z.of_nat slot) 2)); [done|].
  set (ring := nonOwnerRing _ _). destruct (Z.eqb_spec (Z.of_nat (length ring)) 0) as [|Hring]; [done|].
  destruct (_ =? _).
  - apply ring_step_no_panic; [fold ring; lia|]. intros x id. by apply poll_no_panic.
  - unfold ringPosition. destruct (ring_position_bound ring (SeatIdx n) 0) as [->|Hpos]; [done|done|].
    destruct (Z.ltb_spec (ring_position_from 0 ring (SeatIdx n)) 0); [done|].
    destruct (Z.eqb_spec (ring_position_from 0 ring (SeatIdx n)) 0) as [|Hnz].
    + destruct (idx_in_range (E:=Empty_set) (FinalDeck n) (Z.of_nat slot)) as (d & _ & ->); [lia|]. done.
    + apply ring_step_no_panic; [fold ring; lia|]. intros x id. by apply poll_no_panic.
Qed.

Lemma gather_result {A} (ps : list (act A)) : result remote (gather ps) = result remote <$> ps.
Proof.
  induction ps as [|p ps IH]; [done|]. cbn [gather fmap list_fmap]. rewrite !result_bind, IH. done.
Qed.

Lemma DealHoleCards_total `{SL : ScheduleLaws} n :
  total (result remote (DealHoleCards n)) (λ x, Order x.1 = Order n ∧ SeatIdx x.1 = SeatIdx n).
Proof.
  unfold DealHoleCards. rewrite result_bind, gather_result. cbn [result]. unfold deal_join.
  apply (foldM_inv (λ st, Order st.1 = Order n ∧ SeatIdx st.1 = SeatIdx n)); [|done].
  intros [n1 err] r [Ho Hs] Hin. apply list_elem_of_fmap in Hin as (p & -> & Hp).
  rewrite completion_perm in Hp. apply list_elem_of_fmap in Hp as (slot & -> & _).
  pose proof (dealHoleSlot_no_panic n slot) as Hnp.
  destruct (result remote (dealHoleSlot n (Z.of_nat slot))) as [[[sl card]|]|e|]; [| | |done]; (eexists; split; [done|]); [|done..].
  cbn [fst]. unfold setHole. destruct (_ =? 0); done.
Qed.

End reveal.

Section rounds.
Context `{C : SigScheme} `{L : !SigLaws C} `{CE : Codec Entry} `{EL : !EntryCodecLaws}.
Context `{CR : Codec VerifyReceipt} `{SC : Schedule} `{SL : !ScheduleLaws}.
Context (np stack : Z) (Ht : table np stack) (Hnp : 2 ≤ np) (remote : oracle).

Abbreviation ok := (runner_ok np stack).

Lemma poll_attestations_total r rid mySig todo cosigs firstErr :
  Forall (λ x : Z * Z, 0 ≤ x.1 < Z.of_nat (length cosigs) ∧ 0 ≤ x.2 < Z.of_nat (length (Order (rnode r)))) todo →
  total (result remote (poll_attestations r rid mySig todo cosigs firstErr)) (λ x, length x.1 = length cosigs).
Proof.
  intros Hall. revert cosigs firstErr Hall.
  induction todo as [|[i seat] todo IH]; intros cosigs firstErr Hall; cbn [poll_attestations].
  { by apply total_Ok. }
  apply list.Forall_cons in Hall as [[Hi Hs] Hall]. cbn in Hi, Hs.
  assert (∀ v, total (result remote (rbind (lift (upd cosigs i v)) (λ cosigs,
            poll_attestations r rid mySig todo cosigs firstErr))) (λ x, length x.1 = length cosigs)) as Hput.
  { intros v. unfold rbind. rewrite result_bind. cbn [lift result]. rewrite upd_in_range by done.
    eapply total_mono; [apply IH|]; cbn; rewrite ?length_insert; done. }
  destruct (_ =? _); [apply Hput|].
  destruct (idx_in_range (E:=Empty_set) (Order (rnode r)) seat Hs) as (id & _ & Hid).
  unfold rbind at 1. rewrite result_bind. cbn [lift result]. rewrite Hid. cbn [result].
  destruct (remote id _); [apply Hput|by apply IH].
Qed.

Lemma attestor_pks_total r expected :
  length (Order (rnode r)) = Z.to_nat np → Forall (λ q, 0 ≤ q < np) expected →
  total (attestor_pks r expected) (λ _, True).
Proof.
  intros Ho Hex. apply foldM_inv; [|done]. intros pks seat _ Hin. rewrite list.Forall_forall in Hex.
  specialize (Hex seat Hin). destruct (idx_in_range (E:=Empty_set) (Order (rnode r)) seat) as (id & _ & ->); [lia|].
  by eexists.
Qed.

Definition autofold_post (r : Runner) (x : Runner * option autofold_err) : Prop :=
  (same_setup r x.1 ∧ x.1 = set_log (rlog x.1) r) ∧ log_reach np stack (rlog x.1) ∧
  match x.2 with
  | None => ∃ e, rlog x.1 = Append (rlog r) e
  | Some _ => rlog x.1 = rlog r
  end.

Lemma collect_auto_fold_total r target mySig :
  ok r → 0 ≤ target < np →
  total (result remote (collect_auto_fold r (Log_RoundID (rlog r)) target mySig)) (autofold_post r).
Proof using L Ht Hnp SL.
  intros [Hl Ho Hs Hk] Htg. pose proof (tb_n _ _ Ht). unfold collect_auto_fold.
  assert (∀ e, total (Ok (r, Some e)) (autofold_post r)) as Herr
    by (intros e; apply total_Ok; split_and!; [done|by destruct r|done|done]).
  eapply total_rbind; [by apply (attestors_total np stack Ht Hnp)|]. intros expected Hex.
  destruct (len expected =? 0); [apply Herr|].
  eapply total_rbind.
  { apply poll_attestations_total. rewrite completion_perm, length_replicate.
    apply list.Forall_forall. intros [i q] Hin. apply list_elem_of_lookup in Hin as [j Hj].
    rewrite list_lookup_imap in Hj. destruct (expected !! j) as [q'|] eqn:Hq; [|done].
    cbn in Hj. injection Hj as <- <-. cbn. pose proof (lookup_lt_Some _ _ _ Hq).
    pose proof (Forall_lookup_1 _ _ _ _ Hex Hq) as Hq''. cbn in Hq''. lia. }
  intros [cosigs [id|]] _; [apply Herr|].
  eapply total_rbind; [by apply attestor_pks_total|]. intros pks _.
  set (e := mkEntry _ _ _ _ _ _ _).
  assert (entry_typed e) as Hty.
  { constructor; cbn; [apply Z.mod_pos_bound; done|lia|done|done]. }
  pose proof (auto_fold_no_panic np stack Ht Hnp (rlog r) e pks Hl ltac:(cbn; lia)) as Hnopanic.
  destruct (AppendAutoFold (rlog r) e pks) as [l m] eqn:Happ. pose proof Happ as Hcase.
  unfold AppendAutoFold in Hcase. destruct (VerifyAutoFoldEntry (rlog r) e pks) as [[]|err|]; [| |done];
    injection Hcase as <- <-; apply total_Ok.
  - split_and!; [done|done| |by exists e]. by eapply reach_auto_fold.
  - split_and!; [done|by destruct r|done|done].
Qed.

Lemma driveAutoFold_total r target :
  ok r → 0 ≤ target < np →
  total (result remote (driveAutoFold r (Log_RoundID (rlog r)) target)) (autofold_post r).
Proof using L Ht Hnp SL.
  intros Hr Htg. unfold driveAutoFold. destruct (negb _); [|by apply collect_auto_fold_total].
  eapply total_rbind; [by apply (attestation_total np stack Ht Hnp); apply Hr|]. intros mySig _.
  cbn [result]. by apply collect_auto_fold_total.
Qed.

(** The log after a round: one more entry, unless the round ended with an
    error before a commit. *)
Definition round_post (r : Runner) (x : Runner * option round_err) : Prop :=
  same_setup r x.1 ∧ log_reach np stack (rlog x.1) ∧
  ((∃ e, rlog x.1 = Append (rlog r) e) ∨ x.2 ≠ None ∧ rlog x.1 = rlog r).

Lemma cleanup_result {A} r rid at_ (k : rproc A) : result remote (cleanupAttempt r rid at_ k) = result remote k.
Proof.
  unfold cleanupAttempt. cbn [result]. induction (Order (rnode r)) as [|id ids IH]; [done|].
  cbn [foldr]. by destruct (decide _).
Qed.

Definition env_typed (env : Env) : Prop := ∀ rid at_, Forall action_wf (received env rid at_).

Lemma attempts_loop_total env r rid at_ n :
  ok r → env_typed env →
  total (result remote (attempts_loop env r rid at_ n)) (λ x, match x with
    | inl y => round_post r y
    | inr r' => same_setup r r' ∧ rlog r' = rlog r
    end).
Proof using L Ht Hnp SL EL.
  intros Hr Henv. revert r at_ Hr. induction n as [|n IH]; intros r at_ Hr; cbn [attempts_loop].
  { by apply total_Ok. }
  eapply total_rbind; [apply (attempt_total np stack Ht Hnp); [done|apply Henv]|].
  intros [[r1 o] why] (Hss & Hl1 & Hpost). rewrite cleanup_result.
  destruct (ctx_ended env rid at_).
  { apply total_Ok. split_and!; [done..|]. destruct o; [left|right; done].
    destruct Hpost as (e & pk & _ & _ & Hap & _). by exists e. }
  destruct o.
  - destruct Hpost as (e & pk & _ & _ & Hap & _).
    assert (round_post r (emit (mkEvent rid at_ "committed" NoReason) r1, None)) as Hp.
    { split_and!; [by etrans; [|apply emit_setup]|done|left; by exists e]. }
    destruct (0 <? rid); by apply total_Ok.
  - set (r2 := emit _ r1). assert (same_setup r r2) as Hss2 by (by etrans; [|apply emit_setup]).
    assert (ok r2) as Hr2 by (by eapply runner_ok_setup).
    eapply total_mono; [by apply IH|]. change (rlog r2) with (rlog r1). unfold round_post.
    change (rlog r2) with (rlog r1). rewrite Hpost.
    intros [y|r'] Hx.
    + destruct Hx as (Hy & ? & ?). split_and!; [by etrans|done|done].
    + destruct Hx as [Hy ?]. split; [by etrans|done].
Qed.

Lemma runRound_total env r :
  ok r → env_typed env → total (result remote (runRound env r)) (round_post r).
Proof using L Ht Hnp SL EL.
  intros Hr Henv. unfold runRound.
  eapply total_rbind; [apply (expected_total np stack Ht Hnp), Hr|]. intros target Htg.
  eapply total_rbind; [by apply attempts_loop_total|]. intros [y|r1]; [intros Hy; by apply total_Ok|].
  intros [Hss Hlog]. assert (ok r1) as Hr1 by (eapply runner_ok_setup; [done|done|]; rewrite Hlog; apply Hr).
  rewrite <- Hlog. eapply total_rbind; [by apply driveAutoFold_total|].
  intros [r2 err] ([Hss2 _] & Hl2 & Hpost). cbn in Hss2, Hl2, Hpost.
  assert (same_setup r r2) as Hss' by (by etrans). rewrite Hlog in Hpost.
  destruct err; apply total_Ok; (split_and!; [by etrans; [|apply emit_setup]|done|]).
  - by right.
  - by left.
Qed.

(** ** The hand *)

Definition max_rounds : Z := np * stack * (np + 1) + 4 * np.

Definition run_post (r : Runner) (x : Runner * run_end) : Prop :=
  ok x.1 ∧ (∃ es, entries (rlog x.1) = entries (rlog r) ++ es) ∧
  match x.2 with
  | HandDone s => Log_Replay (rlog x.1) = Ok s ∧ HandOver s = true
  | RunFailed _ => True
  | OutOfFuel => False
  end.

Lemma run_rounds_total env fuel r :
  ok r → env_typed env → Z.of_nat (length (entries (rlog r))) ≤ max_rounds →
  max_rounds < Z.of_nat (length (entries (rlog r)) + fuel) →
  total (result remote (run_rounds env fuel r)) (run_post r).
Proof using L Ht Hnp SL EL.
  intros Hr Henv. revert r Hr. induction fuel as [|fuel IH]; intros r Hr Hle Hfuel; [lia|].
  cbn [run_rounds]. assert (∃ es, entries (rlog r) = entries (rlog r) ++ es) as Hself by (exists []; by rewrite app_nil_r).
  destruct (ctx_stopped env _); [by apply total_Ok|].
  destruct (replay_total np stack Ht Hnp (rlog r) (ro_log _ _ _ Hr)) as (pre & Hpre & _).
  eapply (total_rbind _ _ _ (λ s, s = pre)); [unfold lift; cbn; rewrite Hpre; by apply total_Ok|]. intros ? ->.
  destruct (HandOver pre) eqn:Hover; [by apply total_Ok|].
  pose proof (running_bound np stack (rlog r) pre Ht Hnp (ro_log _ _ _ Hr) Hpre Hover) as Hrun.
  fold max_rounds in Hrun.
  eapply total_rbind; [by apply runRound_total|]. intros [r1 err] (Hss & Hl1 & Hgrow). cbn in Hss, Hl1, Hgrow.
  assert (ok r1) as Hr1 by (by eapply runner_ok_setup).
  assert (∃ es, entries (rlog r1) = entries (rlog r) ++ es) as Hext.
  { destruct Hgrow as [[e ->]|[_ ->]]; [by exists [e]|done]. }
  destruct err as [e|]; [by apply total_Ok|]. destruct Hgrow as [[e He]|[? _]]; [|done].
  assert (∀ r2, ok r2 → rlog r2 = rlog r1 → total (result remote (run_rounds env fuel r2)) (run_post r)) as Hnext.
  { intros r2 Hr2 Hlog. assert (length (entries (rlog r2)) = S (length (entries (rlog r)))) as Hlen.
    { rewrite Hlog, He. cbn. rewrite length_app. cbn. lia. }
    eapply total_mono; [apply IH; [done|lia|lia]|]. intros [r3 fin] (? & [es Hes] & ?).
    split_and!; [done| |done]. exists ([e] ++ es). cbn in *. rewrite Hes, Hlog, He. cbn. by rewrite <- app_assoc. }
  destruct (replay_total np stack Ht Hnp (rlog r1) Hl1) as (post & Hpost & _).
  eapply (total_rbind _ _ _ (λ s, s = post)); [unfold lift; cbn; rewrite Hpost; by apply total_Ok|]. intros ? ->.
  destruct (negb _); [|by apply Hnext]. rewrite result_bind. pose proof Hr1 as [_ Ho1 Hs1 _]. pose proof (tb_n _ _ Ht).
  destruct (revealStreet_keeps remote (rnode r1) (Street post)) as [Hp Hk]; [lia|].
  destruct (result remote (revealStreet (rnode r1) (Street post))) as [n|e'|]; [|by apply total_Ok|done].
  destruct (Hk n eq_refl) as (Hno & Hns & _). apply Hnext; [|done].
  destruct Hr1. constructor; cbn; [done|by rewrite Hno|by rewrite Hns|done].
Qed.

Lemma Run_total `{Codec (list bytes)} `{RandLaws} env fuel c r :
  ok r → env_typed env → entries (rlog r) = [] → max_rounds < Z.of_nat fuel →
  total (result remote (Run env fuel c r)) (run_post r).
Proof using L Ht Hnp SL EL.
  intros Hr Henv Hnil Hfuel. pose proof Hr as [Hl Ho Hs Hk]. pose proof (tb_n _ _ Ht). pose proof (tb_start _ _ Ht).
  assert (∃ es, entries (rlog r) = entries (rlog r) ++ es) as Hself by (exists []; by rewrite app_nil_r).
  assert (∀ n, Order n = Order (rnode r) → SeatIdx n = SeatIdx (rnode r) → ok (set_node n r)) as Hset.
  { intros n Hno Hns. constructor; cbn; [done|by rewrite Hno|by rewrite Hns|done]. }
  unfold Run. destruct (Started (rnode r)); cbn [negb]; [|by apply total_Ok].
  rewrite result_bind. destruct (RunShuffle_keeps remote (rnode r) c) as [Hp Hkeep]; [lia|].
  destruct (result remote (RunShuffle (rnode r) c)) as [n|e|]; [|by apply total_Ok|done].
  destruct (Hkeep n eq_refl) as (Hno & Hns & _).
  eapply total_rbind; [apply (DealHoleCards_total remote n)|]. intros [n1 err] Hd. destruct Hd as [Ho1 Hs1]. cbn in Ho1, Hs1.
  assert (ok (set_node n1 r)) as Hok by (apply Hset; congruence).
  destruct err; [by apply total_Ok|].
  eapply total_mono; [apply run_rounds_total; [done|done|..]|].
  - cbn. rewrite Hnil. unfold max_rounds. cbn. nia.
  - cbn. rewrite Hnil. cbn. lia.
  - intros [r' fin] (? & ? & ?). by split_and!.
Qed.

End rounds.
