(* ===== verification/RoundNet.v ===== *)
(** * One attempt at a table of seats

    All seats run [runAttempt] of the same round on the same log, over the
    network of [Net]: the proposer has a legal action, the others verify.  The
    computations follow the plan "host the proposal, host the receipts, read
    the receipts", from which [RunnerProps] concludes. *)

From Stdlib Require Import ZArith Lia Ascii.
From stdpp Require Import base list gmap strings numbers relations.
From S2P Require Import Prelude Runtime Strconv Ephemeral Deck Net Peer Showdown.
From S2P Require Import GameState GameStateProofs GameLog GameLogProofs GameLogProps Runner RunnerProofs.

#[local] Open Scope Z_scope.

Abbreviation attempt_result := (res Empty_set (Runner * attemptOutcome * reason)).

(** The runner of seat [i] at a table with order [ids], log [l] and keys [sks]:
    everybody knows everybody's public key. *)
Record seated `{SigScheme} (ids : list string) (l : Log) (sks : nat → list Z) (i : nat) (r : Runner) : Prop := {
  st_id : nid (rnode r) = ids !!! i;
  st_order : Order (rnode r) = ids;
  st_seat : SeatIdx (rnode r) = Z.of_nat i;
  st_log : rlog r = l;
  st_sk : rsk r = sks i;
  st_pk : rpk r = ed25519_Public (sks i);
  st_pks : ∀ j, (j < length ids)%nat → PeerPK r (ids !!! j) = Some (ed25519_Public (sks j));
}.

Lemma receipt_targets_elem me folded order i ts :
  receipt_targets me folded order i = Ok ts → (length ts ≤ length order)%nat ∧
    ∀ t, t ∈ ts → t ∈ order ∧ t ≠ me.
Proof.
  revert i ts. induction order as [|id order IH]; intros i ts; cbn [receipt_targets].
  { intros [= <-]. split; [done|]. by intros t ?%elem_of_nil. }
  destruct (decide (id = me)).
  - intros Hts. destruct (IH _ _ Hts) as [Hl Ht]. split; [cbn; lia|]. intros t Hin. destruct (Ht t Hin). split; [by right|done].
  - intros Hts. apply res_bind_Ok in Hts as (f & _ & Hts). apply res_bind_Ok in Hts as (rest & Hr & Hts).
    destruct (IH _ _ Hr) as [Hl Ht]. injection Hts as <-. destruct f; (split; [cbn; lia|]); intros t Hin.
    + destruct (Ht t Hin). split; [by right|done].
    + apply elem_of_cons in Hin as [->|Hin]; [split; [left|done]|]. destruct (Ht t Hin). split; [by right|done].
Qed.

Lemma receipt_targets_complete me folded order i ts x id :
  receipt_targets me folded order i = Ok ts → 0 ≤ i → order !! x = Some id → id ≠ me →
  folded !! Z.to_nat (i + Z.of_nat x) = Some false → id ∈ ts.
Proof.
  revert i ts x. induction order as [|id' order IH]; intros i ts x; cbn [receipt_targets]; [done|].
  intros Hts Hi Hx Hne Hf. destruct x as [|x].
  - injection Hx as ->. rewrite decide_False in Hts by done. apply res_bind_Ok in Hts as (f & Hidx & Hts).
    apply res_bind_Ok in Hts as (rest & _ & Hts). apply idx_Ok in Hidx as [_ Hidx]. rewrite Z.add_0_r, Hidx in Hf.
    injection Hf as ->. injection Hts as <-. left.
  - assert (∀ rest, receipt_targets me folded order (i + 1) = Ok rest → id ∈ rest) as Hrest.
    { intros rest Hr. apply (IH (i + 1) rest x Hr); [lia|done|done|].
      replace (i + 1 + Z.of_nat x) with (i + Z.of_nat (S x)) by lia. done. }
    destruct (decide (id' = me)); [by apply Hrest|]. apply res_bind_Ok in Hts as (f & _ & Hts).
    apply res_bind_Ok in Hts as (rest & Hr & Hts). specialize (Hrest rest Hr). injection Hts as <-.
    destruct f; [done|]. by right.
Qed.

Section table.
Context `{C : SigScheme} `{L : !SigLaws C} `{CE : Codec Entry} `{EL : !EntryCodecLaws} `{CR : Codec VerifyReceipt}.
Context (SC : nat → Schedule) (SL : ∀ i, @ScheduleLaws (SC i)).
Context (np stack : Z) (Ht : table np stack) (Hnp : 2 ≤ np).
Context (ids : list string) (Hnd : NoDup ids) (Hlen : length ids = Z.to_nat np).
Context (l : Log) (Hl : log_reach np stack l) (sks : nat → list Z) (att : Z) (Hatt : 0 ≤ att < 2 ^ 32).
Context (Hsks : ∀ i, (i < length ids)%nat → len (sks i) = PrivateKeySize).
Context (rs : nat → Runner) (Hrs : ∀ i, (i < length ids)%nat → seated ids l sks i (rs i)).
Context (Hrenc : ∀ x : VerifyReceipt, ∃ d, gob_encode x = Some d).
(** The proposer's seat, its action, and the entry it signs. *)
Context (q : nat) (Hq : (q < length ids)%nat) (Hturn : ExpectedNextPlayer l = Ok (Z.of_nat q)).
Context (a : Action) (e : Entry) (Hbuild : BuildProposal l (Z.of_nat q) a (sks q) = Ok e).
Context (Htyped : entry_typed e) (Hvalid : VerifyProposal l e (ed25519_Public (sks q)) = Ok tt).
Context (acts : nat → list Action) (Hacts : head (acts q) = Some a).

Abbreviation rid := (Log_RoundID l).

(** What seat [i] ends with. *)
Definition committed (i : nat) : attempt_result :=
  Ok (set_log (Append l e) (rs i), attemptCommitted, NoReason).

(** An attempt that failed has left the log as it was. *)
Definition rolled_back (x : attempt_result) : Prop :=
  ∃ r why, x = Ok (r, attemptTimeout, why) ∧ rlog r = l.

Definition proposal_data : list Z := default [] (gob_encode e).
Definition receipt_data (i : nat) : list Z :=
  match BuildVerifyReceipt (Append l e) (Z.of_nat i) (sks i) with
  | Ok x => default [] (gob_encode x)
  | _ => []
  end.

(** Who hosts what; the proposal comes first. *)
Definition round_ideal (id key : string) (v : list Z) (m : nat) : Prop :=
  (id = ids !!! q ∧ key = ProposalKey rid att ∧ v = proposal_data ∧ m = 0%nat) ∨
  (∃ i, (i < length ids)%nat ∧ id = ids !!! i ∧ key = VerifyKey rid att (ids !!! i) ∧ v = receipt_data i ∧ m = 1%nat).

Lemma rid_range : 0 ≤ rid < 2 ^ 64.
Proof. apply Z.mod_pos_bound. done. Qed.

Lemma proposal_not_receipt id : ProposalKey rid att ≠ VerifyKey rid att id.
Proof using Hatt.
  intros Heq. pose proof rid_range.
  discriminate (key_string_inj (KProposal rid att) (KVerify rid att id) ltac:(done) ltac:(done) Heq).
Qed.

Lemma ids_inj i j : (i < length ids)%nat → (j < length ids)%nat → ids !!! i = ids !!! j → i = j.
Proof using Hnd.
  intros Hi Hj Heq. eapply NoDup_lookup; [done|by apply list_lookup_lookup_total_lt|].
  rewrite Heq. by apply list_lookup_lookup_total_lt.
Qed.

Lemma round_ideal_fun id key v m v' m' : round_ideal id key v m → round_ideal id key v' m' → v = v'.
Proof using Hnd Hatt.
  intros [(-> & -> & -> & ->)|(i & Hi & -> & -> & -> & ->)]
    [(Hid & Hkey & -> & _)|(j & Hj & Hid & Hkey & -> & _)].
  - done.
  - by apply proposal_not_receipt in Hkey.
  - symmetry in Hkey. by apply proposal_not_receipt in Hkey.
  - apply ids_inj in Hid; [|done..]. by subst.
Qed.

Lemma reach_after : log_reach np stack (Append l e).
Proof using Hl Htyped Hvalid. by eapply reach_propose. Qed.

Lemma receipt_spec i :
  (i < length ids)%nat → ∃ x, BuildVerifyReceipt (Append l e) (Z.of_nat i) (sks i) = Ok x ∧
    gob_encode x = Some (receipt_data i).
Proof using L Ht Hnp Hl Htyped Hvalid Hsks Hrenc.
  intros Hi. destruct (receipt_total np stack Ht Hnp (Append l e) (Z.of_nat i) (sks i) reach_after (Hsks i Hi))
    as (x & Hx & _).
  destruct (Hrenc x) as [d Hd]. exists x. split; [done|]. unfold receipt_data. by rewrite Hx, Hd.
Qed.

Lemma proposal_spec : gob_encode e = Some proposal_data ∧ gob_decode proposal_data = Some e.
Proof using EL Htyped.
  destruct (entry_encodes e Htyped) as [d Hd]. unfold proposal_data. rewrite Hd. cbn.
  split; [done|]. by apply entry_roundtrip.
Qed.

Lemma doomed_receipts {A} rid' at_ targets x (f : res Empty_set (option string) → act A) (failed : A → Prop) :
  (∀ y, doomed failed (f (Ok (Some y)))) → doomed failed (act_bind (poll_receipts rid' at_ targets (Some x)) f).
Proof.
  intros Hf. revert x. induction targets as [|t targets IH]; intros x; cbn [poll_receipts act_bind doomed]; [apply Hf|].
  intros v. destruct v; apply IH.
Qed.

Lemma poll_receipts_follows id targets (f : res Empty_set (option string) → act attempt_result) r :
  (∀ t, t ∈ targets → t ∈ ids ∧ t ≠ id) → f (Ok None) = Ret r → (∀ y, doomed rolled_back (f (Ok (Some y)))) →
  follows round_ideal rolled_back id (act_bind (poll_receipts rid att targets None) f)
    ((λ t, EPoll t (VerifyKey rid att t) 1) <$> targets) r.
Proof.
  intros Hin Hf Hd. induction targets as [|t targets IH]; cbn [poll_receipts act_bind fmap list_fmap].
  { rewrite Hf. constructor. }
  destruct (Hin t ltac:(left)) as [[i Hi]%list_elem_of_lookup_1 Hne].
  pose proof (lookup_lt_Some _ _ _ Hi). apply list_lookup_total_correct in Hi.
  eapply follows_poll.
  - right. exists i. rewrite Hi. split_and!; done.
  - done.
  - apply IH. intros t' ?. apply Hin. by right.
  - cbn. by apply doomed_receipts.
Qed.

(** The seats polled by seat [i] after the append. *)
Definition polled (i : nat) : list string :=
  match Log_Replay (Append l e) with
  | Ok s => match receipt_targets (ids !!! i) (Folded s) ids 0 with Ok ts => @completion (SC i) _ ts | _ => [] end
  | _ => []
  end.

Definition commit_trace (i : nat) : list event :=
  EHost (VerifyKey rid att (ids !!! i)) 1 :: ((λ t, EPoll t (VerifyKey rid att t) 1) <$> polled i).

Lemma commit_follows i :
  (i < length ids)%nat →
  follows round_ideal rolled_back (ids !!! i) (@commit_attempt _ _ (SC i) (rs i) e rid att)
    (commit_trace i) (committed i) ∧ (length (polled i) ≤ length ids)%nat.
Proof using L SL Ht Hnp Hlen Hl Hsks Hrs Hrenc Hq Htyped Hvalid.
  intros Hi. destruct (Hrs i Hi) as [Hid Ho Hs Hlog Hsk Hpk Hpks]. pose proof (tb_n _ _ Ht) as Hn.
  destruct (receipt_spec i Hi) as (x & Hx & Henc).
  destruct (replay_total np stack Ht Hnp (Append l e) reach_after) as (s & Hrep & Hf & _).
  destruct (targets_total (ids !!! i) (Folded s) ids 0) as (ts & Hts & _); [lia..|].
  destruct (receipt_targets_elem _ _ _ _ _ Hts) as [Hlts Hin].
  assert (polled i = @completion (SC i) _ ts) as Hpolled by (unfold polled; by rewrite Hrep, Hts).
  split; [|rewrite Hpolled; by rewrite (@completion_perm (SC i) (SL i) _ ts)].
  unfold commit_trace. rewrite Hpolled. unfold commit_attempt, hostVerifyReceipt, collectVerifyReceipts.
  cbn [rlog rnode rsk set_log]. rewrite Hid, Ho, Hs, Hsk, Hlog. rewrite (u8_small (Z.of_nat i)) by lia.
  unfold rbind, lift. rewrite Hx. cbn [act_bind]. rewrite Henc. cbn [act_bind negb].
  constructor; [right; by exists i|]. rewrite Hrep. cbn [act_bind]. rewrite Hts. cbn [act_bind].
  apply poll_receipts_follows.
  - intros t. rewrite (@completion_perm (SC i) (SL i) _ ts). apply Hin.
  - done.
  - intros y. cbn [doomed]. eexists _, _. split; [done|]. cbn [rlog set_log]. apply rollback_append.
Qed.

Definition attempt_trace (i : nat) : list event :=
  (if decide (i = q) then EHost (ProposalKey rid att) 0 else EPoll (ids !!! q) (ProposalKey rid att) 0)
  :: commit_trace i.

Lemma attempt_follows i :
  (i < length ids)%nat →
  follows round_ideal rolled_back (ids !!! i) (@runAttempt _ _ _ (SC i) (rs i) rid att (acts i))
    (attempt_trace i) (committed i).
Proof using L EL SL Ht Hnp Hnd Hlen Hl Hsks Hrs Hrenc Hq Hturn Hbuild Htyped Hvalid Hacts.
  intros Hi. destruct (commit_follows i Hi) as [Hc _]. pose proof (tb_n _ _ Ht) as Hn.
  destruct (Hrs i Hi) as [Hid Ho Hs Hlog Hsk Hpk Hpks]. destruct proposal_spec as [Henc Hdec].
  unfold runAttempt, currentRole, attempt_trace. rewrite Hlog, Hturn, Hs. unfold rbind, lift. cbn [mbind res_bind act_bind].
  destruct (decide (i = q)) as [->|Hne].
  - rewrite Z.eqb_refl. destruct (acts q) as [|a' rest]; [done|]. injection Hacts as ->.
    cbn [runProposerAttempt]. rewrite Hlog, Hs, Hsk, Hpk. rewrite (u8_small (Z.of_nat q)) by lia.
    unfold rbind, lift. rewrite Hbuild. cbn [act_bind]. rewrite Hvalid, Henc.
    constructor; [by left|exact Hc].
  - rewrite (proj2 (Z.eqb_neq _ _)) by lia. unfold runVerifierAttempt, currentProposer, rbind, lift.
    rewrite Hlog, Hturn, Ho. cbn [mbind res_bind].
    assert (idx (E:=Empty_set) ids (Z.of_nat q) = Ok (ids !!! q)) as ->.
    { apply idx_Ok. rewrite Nat2Z.id. split; [lia|]. by apply list_lookup_lookup_total_lt. }
    cbn [act_bind]. eapply follows_poll; [by left| | |].
    + intros Heq. by apply Hne, eq_sym, ids_inj.
    + cbn. rewrite Hdec, Hpks by done. cbn [default from_option id]. by rewrite Hvalid.
    + cbn. eexists _, _. split; [done|]. done.
Qed.

Lemma attempt_trace_guarded i : guarded (attempt_trace i).
Proof.
  assert (guarded (commit_trace i)) as Hc.
  { unfold commit_trace. cbn [guarded]. induction (polled i) as [|t ts IH]; cbn; [done|]. split; [|done].
    intros key m Hin. apply list_elem_of_fmap in Hin as (y & Hy & _). discriminate Hy. }
  unfold attempt_trace. destruct (decide (i = q)); [done|]. cbn [guarded]. split; [|done].
  intros key m [Hin|Hin]%elem_of_cons; [injection Hin as -> ->; lia|].
  apply list_elem_of_fmap in Hin as (y & Hy & _). discriminate Hy.
Qed.

Definition attempt_procs : list (string * act attempt_result) :=
  (λ i, (ids !!! i, @runAttempt _ _ _ (SC i) (rs i) rid att (acts i))) <$> seq 0 (length ids).

Definition attempt_plans : list (list event * attempt_result) :=
  (λ i, (attempt_trace i, committed i)) <$> seq 0 (length ids).

Lemma attempt_on_plan : Forall2 (on_plan round_ideal rolled_back) attempt_procs attempt_plans.
Proof using L EL SL Ht Hnp Hnd Hlen Hl Hsks Hrs Hrenc Hq Hturn Hbuild Htyped Hvalid Hacts.
  unfold attempt_procs, attempt_plans. apply Forall2_fmap, Forall_Forall2_diag, list.Forall_forall.
  intros i Hi%elem_of_seq. split; cbn [fst snd]; [apply attempt_follows; lia|apply attempt_trace_guarded].
Qed.

Lemma attempt_net_inv : net_inv round_ideal rolled_back (mkNet ∅ attempt_procs) attempt_plans.
Proof using L EL SL Ht Hnp Hnd Hlen Hl Hsks Hrs Hrenc Hq Hturn Hbuild Htyped Hvalid Hacts.
  apply net_inv_start; [apply attempt_on_plan|].
  assert (∀ i, (i < length ids)%nat → attempt_plans !! i = Some (attempt_trace i, committed i) ∧
    ∃ p, attempt_procs !! i = Some (ids !!! i, p)) as Hlk.
  { intros i Hi. unfold attempt_plans, attempt_procs. rewrite !list_lookup_fmap, !lookup_seq_lt by done. eauto. }
  intros id key v m [(-> & -> & -> & ->)|(i & Hi & -> & -> & -> & ->)].
  - destruct (Hlk q Hq) as (Hpl & p & Hp). exists q, p, (attempt_trace q, committed q). split_and!; [done..|].
    cbn [fst]. unfold attempt_trace. rewrite decide_True by done. left.
  - destruct (Hlk i Hi) as (Hpl & p & Hp). exists i, p, (attempt_trace i, committed i). split_and!; [done..|].
    cbn [fst]. unfold attempt_trace, commit_trace. right. left.
Qed.

Lemma attempt_work : (work attempt_plans ≤ length ids * (length ids + 2))%nat.
Proof using CE L SL Ht Hnp Hlen Hl Hsks Hrs Hrenc Hq Htyped Hvalid.
  unfold work, attempt_plans.
  assert (∀ is_, Forall (λ i, i < length ids)%nat is_ →
    (sum_list_with (λ pl : list event * attempt_result, length pl.1) ((λ i, (attempt_trace i, committed i)) <$> is_)
     ≤ length is_ * (length ids + 2))%nat) as Hsum.
  { induction 1 as [|i is_ Hi _ IH]; [done|]. cbn [fmap list_fmap sum_list_with length].
    assert (length (attempt_trace i) ≤ length ids + 2)%nat as Hi'; [|cbn [fst]; lia].
    destruct (commit_follows i Hi) as [_ Hp]. unfold attempt_trace, commit_trace.
    cbn [length]. rewrite length_fmap. lia. }
  specialize (Hsum (seq 0 (length ids))). rewrite length_seq in Hsum. apply Hsum.
  apply list.Forall_forall. intros i Hi%elem_of_seq. lia.
Qed.

End table.
