(* ===== verification/RunnerProps.v ===== *)
(** * The round runner: theorems *)

From Stdlib Require Import ZArith Lia Ascii.
From stdpp Require Import base list gmap strings numbers relations countable.
From S2P Require Import Prelude Runtime Strconv Ephemeral Deck DeckProps Net Peer PeerProps Showdown.
From S2P Require Import GameState GameStateProofs GameLog GameLogProofs GameLogProps Runner RunnerProofs RoundNet.

#[local] Open Scope Z_scope.

Section theorems.
Context `{C : SigScheme} `{L : !SigLaws C} `{CE : Codec Entry} `{EL : !EntryCodecLaws} `{CR : Codec VerifyReceipt}.



(** A table of seats that start an attempt of the same round with the same
    log: the seats know each other's keys, the seat whose turn it is has
    received a legal action, and it signs [e] for it. *)
Record ready (np stack : Z) (SC : nat → Schedule) (ids : list string) (l : Log) (sks : nat → list Z)
    (rs : nat → Runner) (att : Z) (q : nat) (a : Action) (e : Entry) (acts : nat → list Action) : Prop := {
  rd_table : table np stack ∧ 2 ≤ np;
  rd_sched : ∀ i, @ScheduleLaws (SC i);
  rd_ids : NoDup ids ∧ length ids = Z.to_nat np;
  rd_log : log_reach np stack l;
  rd_att : 0 ≤ att < 2 ^ 32;
  rd_keys : ∀ i, (i < length ids)%nat → len (sks i) = PrivateKeySize;
  rd_seated : ∀ i, (i < length ids)%nat → seated ids l sks i (rs i);
  rd_encode : ∀ x : VerifyReceipt, ∃ d, gob_encode x = Some d;
  rd_turn : ExpectedNextPlayer l = Ok (Z.of_nat q);
  rd_legal : action_wf a ∧ ∃ s, Log_Replay l = Ok s ∧ ValidateAction s (Z.of_nat q) a = Ok tt;
  rd_build : BuildProposal l (Z.of_nat q) a (sks q) = Ok e;
  rd_acts : head (acts q) = Some a;
}.

(** The entry of a ready table is accepted by every seat. *)
Lemma ready_entry np stack SC ids l sks rs att q a e acts :
  ready np stack SC ids l sks rs att q a e acts →
  (q < length ids)%nat ∧ entry_typed e ∧ VerifyProposal l e (ed25519_Public (sks q)) = Ok tt.
Proof using L.
  intros [[Ht Hnp] _ [_ Hlen] Hl _ Hkeys _ _ Hturn (Ha & s & Hs & Hv) Hb _].
  assert (q < length ids)%nat as Hq.
  { destruct (expected_total np stack Ht Hnp l Hl) as (q' & Hq' & Hr). rewrite Hturn in Hq'. injection Hq' as <-. lia. }
  by destruct (built_entry np stack Ht Hnp l s _ a (sks q) e Hl Hturn Ha Hs Hv (Hkeys q Hq) Hb) as (_ & ? & _ & _ & ?).
Qed.

(** C2: an honest round commits everywhere.  In every interleaving of the
    seats' attempts (no deadline passing), at most [n * (n + 2)] store accesses
    happen, no seat is left waiting, and all seats commit the same entry: the
    one the proposer signed for its action. *)
Theorem round_agrees np stack SC ids l sks rs att q a e acts k n :
  ready np stack SC ids l sks rs att q a e acts →
  nsteps net_step k (mkNet ∅ (attempt_procs SC ids l att rs acts)) n →
  (k ≤ length ids * (length ids + 2))%nat ∧
  (∀ i x, (i < length ids)%nat → finished n i x →
     x = Ok (set_log (Append l e) (rs i), attemptCommitted, NoReason)) ∧
  ((∀ n', ¬ net_step n n') → ∀ i, (i < length ids)%nat →
     finished n i (Ok (set_log (Append l e) (rs i), attemptCommitted, NoReason))).
Proof using L EL.
  intros Hready Hrun. destruct (ready_entry _ _ _ _ _ _ _ _ _ _ _ _ Hready) as (Hq & Hty & Hv).
  destruct Hready as [[Ht Hnp] Hsched [Hnd Hlen] Hl Hatt Hkeys Hseated Henc Hturn _ Hb Hacts].
  assert (∀ i, (i < length ids)%nat → attempt_plans SC ids l att rs q e !! i
    = Some (attempt_trace SC ids l att q e i, committed l rs e i)) as Hlk.
  { intros i Hi. unfold attempt_plans. by rewrite list_lookup_fmap, lookup_seq_lt. }
  assert (net_inv (round_ideal ids l sks att q e) (rolled_back l) (mkNet ∅ (attempt_procs SC ids l att rs acts))
    (attempt_plans SC ids l att rs q e)) as Hinv by (by apply (attempt_net_inv SC Hsched np stack Ht Hnp) with (a := a)).
  destruct (net_correct _ _ (round_ideal_fun ids Hnd l sks att Hatt q e) _ _ _ _ Hinv Hrun) as (Hk & Hfin & Hstuck & _).
  split_and!.
  - pose proof (attempt_work SC Hsched np stack Ht Hnp ids Hlen l Hl sks att Hkeys rs Hseated Henc q Hq e Hty Hv). lia.
  - intros i x Hi Hf. by apply (Hfin i x _ Hf (Hlk i Hi)).
  - intros Hs i Hi. by apply (Hstuck Hs i _ (Hlk i Hi)).
Qed.

(** Timeouts do not corrupt a log.  When deadlines pass at arbitrary
    points of such a round, a seat that has finished its attempt has either
    committed the proposer's entry or is back at the log it started with. *)
Theorem round_timeout_safe np stack SC ids l sks rs att q a e acts n i x :
  ready np stack SC ids l sks rs att q a e acts → (i < length ids)%nat →
  rtc (λ n n', net_step n n' ∨ cancel_step n n') (mkNet ∅ (attempt_procs SC ids l att rs acts)) n →
  finished n i x →
  (∃ r why, x = Ok (r, attemptTimeout, why) ∧ rlog r = l) ∨
  x = Ok (set_log (Append l e) (rs i), attemptCommitted, NoReason).
Proof using L EL.
  intros Hready Hi Hrun Hf. destruct (ready_entry _ _ _ _ _ _ _ _ _ _ _ _ Hready) as (Hq & Hty & Hv).
  destruct Hready as [[Ht Hnp] Hsched [Hnd Hlen] Hl Hatt Hkeys Hseated Henc Hturn _ Hb Hacts].
  assert (Forall2 (on_plan (round_ideal ids l sks att q e) (rolled_back l)) (attempt_procs SC ids l att rs acts)
    (attempt_plans SC ids l att rs q e)) as Hpl by (by apply (attempt_on_plan SC Hsched np stack Ht Hnp) with (a := a)).
  destruct (net_safe _ _ (round_ideal_fun ids Hnd l sks att Hatt q e) _ _ _ (safe_inv_start _ _ _ _ Hpl) Hrun i x Hf)
    as [He|Hx]; [by left|right].
  rewrite list_lookup_fmap in Hx. unfold attempt_plans in Hx.
  rewrite list_lookup_fmap, lookup_seq_lt in Hx by done. by injection Hx.
Qed.

(** ** What the exchange of receipts does not give *)

(** A verifier is served [e] by the proposer, and something, no matter what,
    under every receipt key. *)
Definition served (remote : oracle) (p : string) (rid att : Z) (e : Entry) : Prop :=
  (∃ data, remote p (ProposalKey rid att) = Some data ∧ gob_decode data = Some e) ∧
  ∀ id, ∃ junk, remote id (VerifyKey rid att id) = Some junk.

Lemma verifier_commits `{SC : Schedule} `{SL : !ScheduleLaws} np stack remote r rid att acts p e pk :
  table np stack → 2 ≤ np → runner_ok np stack r → (∀ x : VerifyReceipt, ∃ d, gob_encode x = Some d) →
  currentRole r = Ok RoleVerifier → currentProposer r = Ok p → PeerPK r p = Some pk →
  VerifyProposal (rlog r) e pk = Ok tt → served remote p rid att e →
  result remote (runAttempt r rid att acts) = Ok (set_log (Append (rlog r) e) r, attemptCommitted, NoReason).
Proof using L EL.
  intros Ht Hnp Hr Henc Hrole Hp Hpk Hv [(data & Hdata & Hdec) Hjunk].
  unfold runAttempt, runVerifierAttempt, rbind, lift. rewrite Hrole. cbn [act_bind]. rewrite Hp. cbn [act_bind result].
  rewrite Hdata, Hdec, Hpk. cbn [default from_option id]. rewrite Hv.
  set (r1 := set_log (Append (rlog r) e) r).
  assert (runner_ok np stack r1) as Hr1.
  { apply (runner_ok_setup np stack r); [done..|].
    eapply reach_propose; [apply Hr|by eapply decode_typed|exact Hv]. }
  unfold commit_attempt, hostVerifyReceipt, rbind, lift. fold r1. cbn [act_bind].
  destruct (receipt_total np stack Ht Hnp (rlog r1) (u8 (SeatIdx (rnode r1))) (rsk r1)) as (x & -> & _); [apply Hr1..|].
  destruct (Henc x) as [d ->]. cbn [act_bind negb result].
  destruct (collect_total np stack Ht Hnp remote r1 rid att Hr1) as (failed & Hres & _).
  rewrite result_bind, Hres. destruct failed as [y|]; [|done]. exfalso.
  revert Hres. unfold collectVerifyReceipts, rbind, lift.
  destruct (Log_Replay (rlog r1)) as [st| |]; [|done..]. cbn [act_bind].
  destruct (receipt_targets _ _ _ _) as [ts| |]; [|done..]. cbn [act_bind].
  destruct (poll_receipts_result remote rid att (completion ts) None) as (failed & Hpoll & Hiff).
  intros Hres. rewrite Hres in Hpoll. injection Hpoll as <-.
  assert (Some y = None); [|done]. apply Hiff. split; [done|]. apply list.Forall_forall. intros id _.
  destruct (Hjunk id) as [junk ->]. done.
Qed.

(** C39: an equivocating proposer splits the table.  The runner never looks
    into the receipts it collects: two seats with the same log that the
    proposer serves different signed entries both commit what they were
    served, whatever bytes stand in for the receipts, and end with logs of
    different histories. *)
Theorem equivocation_splits `{SC : Schedule} `{SL : !ScheduleLaws} np stack r1 r2 rid att acts p e1 e2 pk
    remote1 remote2 s1 s2 :
  table np stack → 2 ≤ np → runner_ok np stack r1 → runner_ok np stack r2 → rlog r1 = rlog r2 →
  (∀ x : VerifyReceipt, ∃ d, gob_encode x = Some d) →
  (currentRole r1 = Ok RoleVerifier ∧ currentProposer r1 = Ok p ∧ PeerPK r1 p = Some pk) →
  (currentRole r2 = Ok RoleVerifier ∧ currentProposer r2 = Ok p ∧ PeerPK r2 p = Some pk) →
  VerifyProposal (rlog r1) e1 pk = Ok tt → VerifyProposal (rlog r1) e2 pk = Ok tt → EAction e1 ≠ EAction e2 →
  served remote1 p rid att e1 → served remote2 p rid att e2 →
  (exec remote1 s1 (runAttempt r1 rid att acts)).2 = Ok (set_log (Append (rlog r1) e1) r1, attemptCommitted, NoReason) ∧
  (exec remote2 s2 (runAttempt r2 rid att acts)).2 = Ok (set_log (Append (rlog r1) e2) r2, attemptCommitted, NoReason) ∧
  ¬ same_history (Append (rlog r1) e1) (Append (rlog r1) e2).
Proof using L EL.
  intros Ht Hnp Hr1 Hr2 Hlog Henc (Hrole1 & Hp1 & Hpk1) (Hrole2 & Hp2 & Hpk2) Hv1 Hv2 Hne Hs1 Hs2.
  rewrite !exec_result. split_and!.
  - by apply (verifier_commits np stack) with (p := p) (pk := pk).
  - rewrite Hlog. apply (verifier_commits np stack) with (p := p) (pk := pk); rewrite <- ?Hlog; done.
  - intros (_ & _ & Heq). cbn in Heq. rewrite !fmap_app in Heq. cbn in Heq.
    apply app_inj_2 in Heq as [_ Heq]; [|done]. injection Heq as Heq.
    apply Hne. assert (replayed (encoded_part e1) = replayed (encoded_part e2)) as Hrep by congruence.
    rewrite !encoded_part_replayed in Hrep. by injection Hrep.
Qed.

End theorems.

(** ** A concrete table *)

#[export] Instance Action_countable : Countable Action.
Proof.
  refine (inj_countable' (λ a, (Kind a, Amount a)) (λ p, mkAction p.1 p.2) _). by intros [].
Defined.

#[export] Instance Entry_countable : Countable Entry.
Proof.
  refine (inj_countable' (λ e, (RoundID e, PlayerID e, EAction e, Signature e, CoSigners e, CoSignatures e, Data e))
    (λ p, let '(r, q, a, sg, cs, sgs, d) := p in mkEntry r q a sg cs sgs d) _). by intros [].
Defined.

#[export] Instance VerifyReceipt_eq_dec : EqDecision VerifyReceipt.
Proof. solve_decision. Defined.

#[export] Instance VerifyReceipt_countable : Countable VerifyReceipt.
Proof.
  refine (inj_countable' (λ x, (R_RoundID x, R_PlayerID x, R_PostLogHash x, R_Signature x))
    (λ p, let '(r, q, h, sg) := p in mkReceipt r q h sg) _). by intros [].
Defined.

Definition typedb (e : Entry) : bool :=
  (0 <=? RoundID e) && (RoundID e <? 2 ^ 64) && (0 <=? PlayerID e) && (PlayerID e <? 2 ^ 8)
  && (0 <=? Kind (EAction e)) && (Kind (EAction e) <? 2 ^ 8)
  && (0 <=? Amount (EAction e)) && (Amount (EAction e) <? 2 ^ 64)
  && (len (Data e) <? 2 ^ 32).

Lemma typedb_spec e : typedb e = true ↔ entry_typed e.
Proof.
  split; [apply toy_typed|]. intros [? ? [? ?] ?]. unfold typedb.
  rewrite !andb_true_iff, !Z.leb_le, !Z.ltb_lt. lia.
Qed.

(** A codec of entries that rejects what no Go value of the type holds. *)
Definition entry_codec : Codec Entry := {|
  gob_encode e := if typedb e then Some [Zpos (encode e)] else None;
  gob_decode data :=
    match data with
    | [Zpos p] => match decode p with Some e => if typedb e then Some e else None | None => None end
    | _ => None
    end
|}.

Lemma entry_codec_laws : @EntryCodecLaws entry_codec.
Proof.
  constructor; cbn.
  - intros e He%typedb_spec. rewrite He. eauto.
  - intros e data He%typedb_spec. rewrite He. intros [= <-]. by rewrite countable.decode_encode, He.
  - intros data e Hd. apply typedb_spec. destruct data as [|[|p|] [|]]; try done.
    destruct (decode p) as [e'|]; [|done]. destruct (typedb e') eqn:He; [|done]. by injection Hd as <-.
Qed.

Definition receipt_codec : Codec VerifyReceipt := countable_codec VerifyReceipt.
Definition in_order : Schedule := λ A l, l.
Lemma in_order_laws : @ScheduleLaws in_order.
Proof. intros A l. done. Qed.

#[local] Existing Instances toy_scheme toy_laws entry_codec entry_codec_laws receipt_codec.

Definition three_ids : list string := ["alice"; "bob"; "carol"].
Definition three_sks (i : nat) : list Z := toy_sk (Z.of_nat i).
Definition three_log : Log := NewLog 3 100.

Definition three_runner (i : nat) : Runner :=
  mkRunner (mkNode (three_ids !!! i) (mkKey 5 8171) 13619 true [] three_ids (Z.of_nat i) "" "" 100
              (mkSessionConfig 0 0) [])
    three_log (three_sks i) (ed25519_Public (three_sks i)) (mkConfig 30 3)
    (list_to_map (imap (λ j id, (id, ed25519_Public (three_sks j))) three_ids)) None [] [].

Definition three_entry (a : Action) : Entry := ok_or no_entry (BuildProposal three_log 0 a (three_sks 0)).
Definition raise_50 : Action := mkAction ActionRaise 50.
Definition three_acts (i : nat) : list Action := if decide (i = 0%nat) then [raise_50] else [].

Lemma table_3_100 : table 3 100.
Proof. split; lia. Qed.

Lemma three_seated i : (i < 3)%nat → seated three_ids three_log three_sks i (three_runner i).
Proof.
  intros Hi. constructor; try done. intros j Hj. cbn in Hj.
  destruct j as [|[|[|]]]; [vm_compute; reflexivity..|lia].
Qed.

Lemma three_ok i : (i < 3)%nat → runner_ok 3 100 (three_runner i).
Proof. intros Hi. constructor; cbn; [apply reach_new|done|lia|done]. Qed.

Lemma three_ready :
  ready 3 100 (λ _, in_order) three_ids three_log three_sks three_runner 0 0 raise_50 (three_entry raise_50) three_acts.
Proof.
  constructor.
  - split; [apply table_3_100|lia].
  - intros _. apply in_order_laws.
  - split; [apply (bool_decide_unpack _); vm_compute; reflexivity|done].
  - apply reach_new.
  - lia.
  - intros i _. done.
  - apply three_seated.
  - intros x. by eexists.
  - vm_compute. reflexivity.
  - split; [by apply (et_action (three_entry raise_50)), typedb_spec|]. exists (initial_state 3 100). split; vm_compute; reflexivity.
  - vm_compute. reflexivity.
  - done.
Qed.

Definition three_net : net attempt_result :=
  mkNet ∅ (attempt_procs (λ _, in_order) three_ids three_log 0 three_runner three_acts).

(** Alice hosts, the others read and host, everybody reads the receipts. *)
Definition three_schedule : list nat := [0; 0; 1; 2; 2; 1; 0; 0; 1; 1; 2; 2]%nat.

Lemma round_agrees_witness :
  finished (net_after three_schedule three_net) 2
    (Ok (set_log (Append three_log (three_entry raise_50)) (three_runner 2), attemptCommitted, NoReason)).
Proof.
  destruct (round_agrees 3 100 (λ _, in_order) three_ids three_log three_sks three_runner 0 0 raise_50
    (three_entry raise_50) three_acts 12 (net_after three_schedule three_net) three_ready
    (net_after_run three_schedule three_net ltac:(vm_compute; reflexivity))) as (_ & _ & Hstuck).
  apply Hstuck; [|cbn; lia]. apply all_returned_stuck. vm_compute. reflexivity.
Defined.


Definition quiet_env : Env := mkEnv (λ _ _, []) (λ _ _, false) (λ _, false).


(** ** A commit that not everybody makes *)

Definition net_cancel {A} (i : nat) (n : net A) : net A :=
  match procs n !! i with
  | Some (id, PollRemote _ _ k) => mkNet (stores n) (<[i := (id, k None)]> (procs n))
  | _ => n
  end.

Lemma net_cancel_step {A} i (n : net A) :
  match procs n !! i with Some (_, PollRemote _ _ _) => true | _ => false end = true → cancel_step n (net_cancel i n).
Proof.
  unfold net_cancel. destruct (procs n !! i) as [[id [| | | |]]|] eqn:Hi; try done. intros _. by eapply step_cancel.
Qed.

(** Carol has read the proposal and hosted her receipt when her deadline
    passes; Alice and Bob still find all receipts. *)
Definition carol_waits : net attempt_result := net_after [0; 0; 1; 2; 2; 1]%nat three_net.
Definition carol_late : net attempt_result := net_cancel 2 carol_waits.
Definition split_round : net attempt_result := net_after [0; 0; 1; 1; 2]%nat carol_late.

Lemma split_reachable : rtc (λ n n', net_step n n' ∨ cancel_step n n') three_net split_round.
Proof.
  assert (∀ js (n : net attempt_result), match net_sched js n with Some _ => true | None => false end = true →
    rtc (λ n n', net_step n n' ∨ cancel_step n n') n (net_after js n)) as Hrun.
  { intros js n Hs. apply net_after_run in Hs. eapply rtc_nsteps_2 in Hs.
    eapply (rtc_subrel net_step); [by left|exact Hs]. }
  etrans; [apply (Hrun [0; 0; 1; 2; 2; 1]%nat); vm_compute; reflexivity|].
  eapply rtc_l; [right; apply (net_cancel_step 2); vm_compute; reflexivity|].
  apply (Hrun [0; 0; 1; 1; 2]%nat). vm_compute. reflexivity.
Qed.

Lemma round_timeout_safe_witness :
  (∃ r why, Ok (E:=Empty_set) (three_runner 2, attemptTimeout, PollVerify "alice") = Ok (r, attemptTimeout, why) ∧ rlog r = three_log) ∨
  Ok (three_runner 2, attemptTimeout, PollVerify "alice")
  = Ok (E:=Empty_set) (set_log (Append three_log (three_entry raise_50)) (three_runner 2), attemptCommitted, NoReason).
Proof.
  apply (round_timeout_safe 3 100 (λ _, in_order) three_ids three_log three_sks three_runner 0 0 raise_50
    (three_entry raise_50) three_acts split_round 2 (Ok (three_runner 2, attemptTimeout, PollVerify "alice"))).
  - apply three_ready.
  - cbn. lia.
  - apply split_reachable.
  - exists "carol". vm_compute. reflexivity.
Defined.

(** A round is not all-or-nothing.  There is a table and a run of one
    attempt, with one deadline passing, in which two seats commit the entry
    and the third, whose receipt they read, is back at the old log. *)
Theorem commit_not_atomic :
  ∃ n, rtc (λ n n', net_step n n' ∨ cancel_step n n')
         (mkNet ∅ (attempt_procs (λ _, in_order) three_ids three_log 0 three_runner three_acts)) n ∧
    finished n 0 (Ok (set_log (Append three_log (three_entry raise_50)) (three_runner 0), attemptCommitted, NoReason)) ∧
    finished n 1 (Ok (set_log (Append three_log (three_entry raise_50)) (three_runner 1), attemptCommitted, NoReason)) ∧
    finished n 2 (Ok (three_runner 2, attemptTimeout, PollVerify "alice")).
Proof.
  exists split_round. split_and!; [apply split_reachable|..].
  - exists "alice". vm_compute. reflexivity.
  - exists "bob". vm_compute. reflexivity.
  - exists "carol". vm_compute. reflexivity.
Qed.

(** Alice serves a raise to Bob and a fold to Carol. *)
Definition serving (e : Entry) : oracle := λ id key,
  if decide (key = ProposalKey 0 0) then gob_encode e else Some [].

Lemma serving_served e :
  entry_typed e → served (serving e) "alice" 0 0 e.
Proof.
  intros He. split.
  - destruct (entry_encodes e He) as [d Hd]. exists d. split; [by unfold serving; rewrite decide_True|].
    by apply entry_roundtrip.
  - intros id. unfold serving. rewrite decide_False; [by eexists|]. intros Heq.
    discriminate (key_string_inj (KVerify 0 0 id) (KProposal 0 0) ltac:(cbn; lia) ltac:(cbn; lia) Heq).
Qed.

Lemma equivocation_splits_witness :
  ¬ same_history (Append three_log (three_entry raise_50)) (Append three_log (three_entry (mkAction ActionFold 0))).
Proof.
  refine (proj2 (proj2 (@equivocation_splits _ _ _ entry_codec_laws _ in_order in_order_laws 3 100
    (three_runner 1) (three_runner 2) 0 0 [] "alice" (three_entry raise_50) (three_entry (mkAction ActionFold 0))
    (ed25519_Public (three_sks 0)) (serving (three_entry raise_50)) (serving (three_entry (mkAction ActionFold 0)))
    ∅ ∅ table_3_100 ltac:(lia) (three_ok 1 ltac:(lia)) (three_ok 2 ltac:(lia)) eq_refl _ _ _ _ _ _ _ _))).
  - intros x. by eexists.
  - split_and!; vm_compute; reflexivity.
  - split_and!; vm_compute; reflexivity.
  - vm_compute. reflexivity.
  - vm_compute. reflexivity.
  - vm_compute. discriminate.
  - apply serving_served, typedb_spec. vm_compute. reflexivity.
  - apply serving_served, typedb_spec. vm_compute. reflexivity.
Defined.
