(* ===== verification/FinishProps.v ===== *)
(** * The end of a hand: theorems ([finishHand] of [internal/round/runner.go])

    At an honest table all seats name the same winners: the last player in the
    hand, or after a showdown the seats with the best hands. *)

From Stdlib Require Import ZArith Lia Ascii ZmodInv.
From stdpp Require Import base list gmap strings numbers sorting.
From S2P Require Import Prelude Runtime Strconv Card Eval EvalProofs EvalProps Ephemeral Deck DeckProofs DeckProps.
From S2P Require Import Net Peer PeerProofs PeerProps Showdown ShowdownProps.
From S2P Require Import GameState GameStateProofs GameLog GameLogProps Runner RunnerProofs RoundNet RunnerProps.

#[local] Open Scope Z_scope.
#[local] Existing Instance Key_inhabited.

(** ** The players in the hand *)

(** The seats that have not folded, counted from [k] on. *)
Fixpoint players (folded : list bool) (k : nat) : list nat :=
  match folded with
  | [] => []
  | f :: folded => if (f : bool) then players folded (S k) else k :: players folded (S k)
  end.

Lemma elem_of_players folded k j : j ∈ players folded k ↔ (k ≤ j)%nat ∧ folded !! (j - k)%nat = Some false.
Proof.
  revert k. induction folded as [|f folded IH]; intros k; cbn [players].
  { rewrite elem_of_nil. split; [done|]. intros [_ Hj]. by rewrite lookup_nil in Hj. }
  assert (∀ j, (k < j)%nat → (f :: folded) !! (j - k)%nat = folded !! (j - S k)%nat) as Hs.
  { intros j' Hj'. by replace (j' - k)%nat with (S (j' - S k)) by lia. }
  destruct f; rewrite ?elem_of_cons, IH; split.
  - intros [Hj Hl]. split; [lia|]. by rewrite Hs by lia.
  - intros [Hj Hl]. destruct (decide (j = k)) as [->|]; [by rewrite Nat.sub_diag in Hl|]. rewrite Hs in Hl by lia. split; [lia|done].
  - intros [->|[Hj Hl]]; [by rewrite Nat.sub_diag|]. split; [lia|]. by rewrite Hs by lia.
  - intros [Hj Hl]. destruct (decide (j = k)) as [->|]; [by left|right]. rewrite Hs in Hl by lia. split; [lia|done].
Qed.

Lemma players_sorted folded k : StronglySorted lt (players folded k).
Proof.
  revert k. induction folded as [|f folded IH]; intros k; cbn [players]; [constructor|]. destruct f; [done|].
  constructor; [done|]. apply list.Forall_forall. intros j [Hj _]%elem_of_players. lia.
Qed.

Lemma players_count folded k : Z.of_nat (length (players folded k)) = count_false folded.
Proof.
  revert k. induction folded as [|f folded IH]; intros k; [done|]. cbn [players]. rewrite count_false_cons.
  destruct f; cbn [length]; rewrite <- (IH (S k)); lia.
Qed.

Lemma uncontested_players folded k :
  uncontested_seat folded (Z.of_nat k) = match players folded k with j :: _ => Z.of_nat j | [] => -1 end.
Proof.
  revert k. induction folded as [|f folded IH]; intros k; [done|]. cbn [players uncontested_seat]. destruct f; [|done].
  by replace (Z.of_nat k + 1) with (Z.of_nat (S k)) by lia.
Qed.

Lemma open_players (ids : list string) folded pre order k :
  length pre = k → order = drop k ids → length ids = (k + length folded)%nat →
  open_seats order (pre ++ folded) (Z.of_nat k) = Ok ((λ j, (Z.of_nat j, ids !!! j)) <$> players folded k).
Proof.
  revert pre order k. induction folded as [|f folded IH]; intros pre order k Hpre -> Hlen; cbn [length] in Hlen.
  { by rewrite drop_ge by lia. }
  destruct (lookup_lt_is_Some_2 ids k) as [id Hid]; [lia|]. rewrite (drop_S _ _ _ Hid). cbn [open_seats].
  assert (idx (E:=showdown_err) (pre ++ f :: folded) (Z.of_nat k) = Ok f) as ->.
  { apply idx_Ok. rewrite Nat2Z.id. split; [lia|]. rewrite lookup_app_r by lia. by rewrite Hpre, Nat.sub_diag. }
  cbn [mbind res_bind]. replace (Z.of_nat k + 1) with (Z.of_nat (S k)) by lia.
  replace (pre ++ f :: folded) with ((pre ++ [f]) ++ folded) by (by rewrite <- app_assoc).
  rewrite IH by (rewrite ?length_app; cbn; done || lia). cbn [mbind res_bind players].
  destruct f; [done|]. cbn [fmap list_fmap]. by rewrite (list_lookup_total_correct _ _ _ Hid).
Qed.

(** ** The winners, from the cards *)

Section table.
Context (ids : list string) (ks : list Key) (sc : SessionConfig) (pts : list bytes).
Context (Ht : table_ok ids ks) (Hpts : pts ≡ₚ buildOrderedDeck).

Definition no_hand : HandRank := mkHandRank HighCard [] [].

(** The hand of seat [j]: the best five of its hole cards and the board. *)
Definition seat_hand `{GoRuntime} (j : nat) : HandRank :=
  ok_or no_hand (cards ← ParseDeckStrings ((λ s, of_bytes (pts !!! s)) <$> seven ids j); Best cards).

(** The players that no player beats. *)
Definition best_seats `{GoRuntime} (folded : list bool) : list Z :=
  Z.of_nat <$> filter (λ j, Forall (λ k, Compare (seat_hand k) (seat_hand j) ≤ 0) (players folded 0)) (players folded 0).

Definition winners_of (r : hand_result) : list Z :=
  match r with Uncontested winner => [winner] | Contested r => Winners r end.

Lemma parse_back (cards : list Card) : Forall card_wf cards → ParseDeckStrings (DeckString <$> cards) = Ok cards.
Proof.
  induction 1 as [|c cards Hc _ IH]; [done|]. cbn. rewrite ParseDeckString_DeckString by done. cbn.
  by rewrite IH.
Qed.

(** Two runtimes give a seat hands that compare alike. *)
Lemma same_hand (R0 R1 : GoRuntime) (L0 : @RuntimeLaws R0) (L1 : @RuntimeLaws R1) cards hr j :
  DeckString <$> cards = (λ s, of_bytes (pts !!! s)) <$> seven ids j → NoDup cards → Forall card_wf cards →
  @Best R1 cards = Ok hr → rank_key hr = rank_key (@seat_hand R0 j).
Proof.
  intros Hs Hnd Hwf Hb. assert (length cards = 7%nat) as Hl by (by rewrite <- (length_fmap DeckString), Hs).
  destruct (best_deterministic R1 R0 L1 L0 cards cards) as (hr1 & hr0 & H1 & H0 & Hc & Ht'); [done|lia|done..|].
  rewrite Hb in H1. injection H1 as <-. unfold seat_hand. rewrite <- Hs, parse_back by done. cbn. rewrite H0. cbn.
  unfold rank_key. by rewrite Hc, Ht'.
Qed.

Lemma best_hand_wf `{RuntimeLaws} cards hr :
  length cards = 7%nat → NoDup cards → Forall card_wf cards → Best cards = Ok hr → length (Tiebreakers hr) = 5%nat.
Proof.
  intros Hl Hnd Hwf Hb. destruct (Best_max cards) as (hr' & Hb' & (sub & _ & Hr) & _); [lia|done..|].
  rewrite Hb in Hb'. injection Hb' as <-. by eapply ranked_ties_length.
Qed.

(** ** The showdown at one seat *)

(** [R0] is the runtime of the reference, [R1] the seat's. *)
Context (R0 : GoRuntime) (L0 : @RuntimeLaws R0).
Context `{R1 : GoRuntime} `{L1 : !@RuntimeLaws R1} `{CS : Codec ShowdownClaim} `{SL : !CodecLaws ShowdownClaim} `{SC : Schedule} `{SCL : !ScheduleLaws}.
Context (folded : list bool) (Hfold : length folded = length ids).
Context (i : nat) (Hi : (i < length ids)%nat) (store : Store) (remote : oracle).

Abbreviation me := (dealt_node ids ks sc pts i 5).

(** What the others serve: the relays of the deal, and the players' claims. *)
Definition claims_served : Prop :=
  ∀ j, j ∈ players folded 0 → j ≠ i →
    ∃ data, remote (ids !!! j) (ShowdownClaimKey (Z.of_nat j)) = Some data ∧
      gob_decode data = Some (showdown_claim (dealt_node ids ks sc pts j 5)).

Context (Hrelays : relays_served ids ks pts me store remote) (Hclaims : claims_served).

(** The store after our own claim is published. *)
Definition own_claim : bytes := default [] (gob_encode (showdown_claim me)).
Definition published_store : Store :=
  if decide (i ∈ players folded 0) then Put store (ShowdownClaimKey (Z.of_nat i)) own_claim else store.

Lemma player_lt j : j ∈ players folded 0 → (j < length ids)%nat.
Proof using Hfold Hi. intros [_ Hj]%elem_of_players. rewrite Nat.sub_0_r in Hj. apply lookup_lt_Some in Hj. lia. Qed.

Lemma published_get key : key ≠ ShowdownClaimKey (Z.of_nat i) → Get published_store key = Get store key.
Proof. intros Hne. unfold published_store, Get, Put. case_decide; [by rewrite lookup_insert_ne|done]. Qed.

Lemma published_relays : relays_served ids ks pts me published_store remote.
Proof using Ht Hfold Hrelays Hi.
  intros s l Hs Hl Hne. rewrite <- (Hrelays s l Hs Hl Hne). unfold fetchEphemeral. rewrite published_get; [done|].
  intros Heq. destruct Ht as (_ & _ & Hn & _).
  discriminate (key_string_inj (KHoleRelay (Z.of_nat s) (Z.of_nat l)) (KShowdownClaim (Z.of_nat i)));
    [cbn; lia|cbn; lia|exact Heq].
Qed.

Lemma own_claim_spec : gob_encode (showdown_claim me) = Some own_claim ∧ gob_decode own_claim = Some (showdown_claim me).
Proof using SL.
  unfold own_claim. destruct (encode_total (showdown_claim me)) as [d Hd]. rewrite Hd. split; [done|]. by apply decode_encode.
Qed.

Lemma claim_fetched j : j ∈ players folded 0 →
  ∃ data, fetchEphemeral me published_store remote (ids !!! j) (ShowdownClaimKey (Z.of_nat j)) = Ok data ∧
    gob_decode data = Some (showdown_claim (dealt_node ids ks sc pts j 5)).
Proof using Ht Hfold Hi Hclaims SL.
  intros Hj. pose proof (player_lt j Hj) as Hjn. unfold fetchEphemeral. change (nid me) with (ids !!! i).
  destruct (decide (j = i)) as [->|Hne].
  - exists own_claim. rewrite decide_True by done. unfold published_store, Get, Put. rewrite decide_True, lookup_insert_eq by done.
    split; [done|]. apply own_claim_spec.
  - destruct (Hclaims j Hj Hne) as (data & Hd & Hdec). exists data. rewrite decide_False, Hd; [done|].
    intros Heq. apply Hne. by apply (seat_inj ids (proj1 Ht)).
Qed.

(** Every claim is accepted with a hand that compares like the player's. *)
Lemma claim_verified j : j ∈ players folded 0 →
  ∃ hr, pollAndVerifyClaim me published_store remote (Z.of_nat j) (ids !!! j) = Ok (mkVerified (Z.of_nat j) hr) ∧
    rank_key hr = rank_key (@seat_hand R0 j) ∧ length (Tiebreakers hr) = 5%nat.
Proof using Ht Hpts Hfold Hi Hrelays Hclaims L1 L0 SL.
  intros Hj. destruct (claim_fetched j Hj) as (data & Hf & Hd).
  destruct (claim_accepted ids ks sc pts i j published_store remote data Ht Hpts Hi (player_lt j Hj) published_relays Hf Hd)
    as (cards & hr & Hs & Hnd & Hwf & Hb & Hv).
  exists hr. split_and!; [done|apply (same_hand R0 R1 L0 L1 cards hr j Hs Hnd Hwf Hb)|].
  eapply best_hand_wf; [|done..]. by rewrite <- (length_fmap DeckString), Hs.
Qed.

Lemma claims_collected js : (∀ j, j ∈ js → j ∈ players folded 0) →
  ∃ claims, collect_claims me published_store remote ((λ j, (Z.of_nat j, ids !!! j)) <$> js) = Ok claims ∧
    Forall2 (λ j c, VSeat c = Z.of_nat j ∧ rank_key (VHand c) = rank_key (@seat_hand R0 j) ∧ hand_wf c) js claims.
Proof using Ht Hpts Hfold Hi Hrelays Hclaims L1 L0 SL.
  induction js as [|j js IH]; intros Hjs; [by exists []|]. destruct IH as (claims & Hc & Hall); [intros j' Hj'; apply Hjs; by right|].
  destruct (claim_verified j (Hjs j ltac:(left))) as (hr & Hv & Hr & Hl). exists (mkVerified (Z.of_nat j) hr :: claims).
  cbn [fmap list_fmap collect_claims]. rewrite Hc. cbn [mbind res_bind]. rewrite Hv. split; [done|]. by constructor.
Qed.

(** Sorting the claims by seat gives the order of the table. *)
Lemma claims_sorted js (claims arrived : list VerifiedClaim) :
  StronglySorted lt js → Forall2 (λ j c, VSeat c = Z.of_nat j) js claims → arrived ≡ₚ claims →
  sort_slice seat_less arrived = claims.
Proof using L1 Hfold Hi.
  intros Hjs Hall Hp. assert (StronglySorted (λ x y, seat_less y x = false) claims ∧ NoDup (VSeat <$> claims)) as [Hs Hnd].
  { clear Hp. induction Hall as [|j c js claims Hc Hall IH]; [split; constructor|].
    apply StronglySorted_inv in Hjs as [Hjs Hlt]. destruct (IH Hjs) as [Hs Hnd]. rewrite list.Forall_forall in Hlt.
    assert (∀ x, x ∈ claims → VSeat c < VSeat x) as Hx.
    { intros x [k Hk]%list_elem_of_lookup_1. destruct (Forall2_lookup_r _ _ _ _ _ Hall Hk) as (j' & Hj' & ->).
      rewrite Hc. apply list_elem_of_lookup_2, Hlt in Hj'. lia. }
    split.
    - constructor; [done|]. apply list.Forall_forall. intros x Hin. unfold seat_less. apply Z.ltb_ge. specialize (Hx x Hin). lia.
    - constructor; [|done]. intros (x & Heq & Hin)%list_elem_of_fmap. specialize (Hx x Hin). lia. }
  symmetry. apply (sorted_unique seat_less).
  - intros x y. by apply seats_separate.
  - done.
  - apply sort_sorted, seat_less_weak.
  - by rewrite sort_perm.
Qed.

Lemma Compare_rank a b a' b' : rank_key a = rank_key a' → rank_key b = rank_key b' → Compare a b = Compare a' b'.
Proof. intros H1 H2. by rewrite !Compare_key, H1, H2. Qed.

(** The claims of the best seats are the unbeaten ones. *)
Lemma unbeaten_best js claims sub subc :
  Forall2 (λ j c, VSeat c = Z.of_nat j ∧ rank_key (VHand c) = rank_key (@seat_hand R0 j) ∧ hand_wf c) js claims →
  Forall2 (λ j c, VSeat c = Z.of_nat j ∧ rank_key (VHand c) = rank_key (@seat_hand R0 j) ∧ hand_wf c) sub subc →
  VSeat <$> filter (unbeaten claims) subc
  = Z.of_nat <$> filter (λ j, Forall (λ k, Compare (@seat_hand R0 k) (@seat_hand R0 j) ≤ 0) js) sub.
Proof.
  intros Hall Hsub. induction Hsub as [|j c sub subc (Hc & Hr & _) _ IH]; [done|]. rewrite !filter_cons.
  assert (unbeaten claims c ↔ Forall (λ k, Compare (@seat_hand R0 k) (@seat_hand R0 j) ≤ 0) js) as Hiff.
  { unfold unbeaten. clear IH. induction Hall as [|k d js claims (_ & Hd & _) _ IH]; [done|].
    rewrite !list.Forall_cons, IH. by rewrite (Compare_rank _ _ _ _ Hd Hr). }
  destruct (decide (unbeaten claims c)), (decide (Forall _ js)); try tauto. cbn [fmap list_fmap]. by rewrite Hc, IH.
Qed.

Lemma showdown_result :
  ∃ r, @RunShowdown R1 _ (λ l, completion l) me store remote folded = Ok (published_store, r) ∧ Winners r = @best_seats R0 folded.
Proof using Ht Hpts Hfold Hi Hrelays Hclaims L1 L0 SL SCL.
  destruct (claims_collected (players folded 0) (λ j Hj, Hj)) as (claims & Hc & Hall).
  exists (judge (completion claims)). unfold RunShowdown. change (SeatIdx me) with (Z.of_nat i).
  rewrite (proj2 (Z.leb_gt _ _)) by lia. destruct (lookup_lt_is_Some_2 folded i) as [f Hf]; [lia|].
  assert (idx (E:=showdown_err) folded (Z.of_nat i) = Ok f) as -> by (apply idx_Ok; rewrite Nat2Z.id; split; [lia|done]).
  cbn [mbind res_bind].
  assert ((if f then Ok store else publishShowdownClaim me store) = Ok published_store) as ->.
  { unfold published_store, publishShowdownClaim. destruct own_claim_spec as [-> _]. change (SeatIdx me) with (Z.of_nat i).
    destruct f; [rewrite decide_False|rewrite decide_True]; try done; rewrite elem_of_players, Nat.sub_0_r, Hf; [by intros [_ [=]]|].
    split; [lia|done]. }
  cbn [mbind res_bind]. change (Order me) with ids.
  pose proof (open_players ids folded [] ids 0 eq_refl ltac:(by rewrite drop_0) ltac:(lia)) as Ho. cbn [app] in Ho. change (Z.of_nat 0) with 0 in Ho. rewrite Ho.
  cbn [mbind res_bind]. rewrite Hc. split; [done|].
  assert (Forall2 (λ j c, VSeat c = Z.of_nat j) (players folded 0) claims) as Hseats
    by (eapply Forall2_impl; [exact Hall|by intros j c (? & _)]).
  assert (Forall hand_wf (completion claims)) as Hwf.
  { rewrite (completion_perm _ claims). clear -Hall. induction Hall as [|j c js claims (_ & _ & ?) _ IH]; by constructor. }
  rewrite (judge_spec R1 L1) by done. cbn [Winners].
  rewrite (claims_sorted (players folded 0) claims) by (done || apply players_sorted || apply completion_perm).
  unfold best_seats. rewrite <- (unbeaten_best (players folded 0) claims (players folded 0) claims Hall Hall).
  f_equal. apply filter_ext_in. intros x _. by rewrite (completion_perm _ claims).
Qed.

Lemma last_player j : players folded 0 = [j] → @best_seats R0 folded = [Z.of_nat j].
Proof.
  intros Hp. unfold best_seats. rewrite Hp, (filter_singleton_True _ j []); [done|].
  apply list.Forall_singleton. pose proof (Compare_sym (@seat_hand R0 j) (@seat_hand R0 j)) as Hc. clear -Hc. lia.
Qed.

End table.

(** The end of a hand at one seat. *)
Lemma finish_result (R0 R1 : GoRuntime) (L0 : @RuntimeLaws R0) (L1 : @RuntimeLaws R1) `{SL : CodecLaws ShowdownClaim}
    (SC : Schedule) (SCL : @ScheduleLaws SC) ids ks sc pts i t store remote s :
  table_ok ids ks → pts ≡ₚ buildOrderedDeck → (i < length ids)%nat → length (Folded s) = length ids → 1 ≤ NumNonFolded s →
  (2 ≤ NumNonFolded s → t = 5%nat ∧ relays_served ids ks pts (dealt_node ids ks sc pts i 5) store remote ∧
     claims_served ids ks sc pts (Folded s) i remote) →
  ∃ store' r, @finishHand SC R1 _ (dealt_node ids ks sc pts i t) store remote s = Ok (store', r) ∧
    winners_of r = @best_seats ids pts R0 (Folded s).
Proof.
  intros Ht Hpts Hi Hf H1 H2. unfold finishHand. pose proof (players_count (Folded s) 0) as Hc. rewrite <- NumNonFolded_count in Hc.
  destruct (Z.leb_spec (NumNonFolded s) 1) as [Hle|Hgt].
  - destruct (players (Folded s) 0) as [|j [|]] eqn:Hp; cbn [length] in Hc; [lia| |lia].
    eexists _, _. split; [done|]. cbn [winners_of].
    pose proof (uncontested_players (Folded s) 0) as Hu. change (Z.of_nat 0) with 0 in Hu. rewrite Hu, Hp. symmetry. by apply last_player.
  - destruct H2 as (-> & Hr & Hcl); [lia|].
    destruct (showdown_result ids ks sc pts Ht Hpts R0 L0 (Folded s) Hf i Hi store remote Hr Hcl) as (r & Hrun & Hw).
    rewrite Hrun. eexists _, _. by split.
Qed.

(** ** Claims in the stores *)

(** The stores when the players [js] have published their claims. *)
Definition with_claims `{Codec ShowdownClaim} (ids : list string) (nodes : nat → Node) (ss : gmap string Store) (js : list nat)
    : gmap string Store :=
  foldr (λ j ss, match publishShowdownClaim (nodes j) (store_of ss (ids !!! j)) with
                 | Ok st => <[ids !!! j := st]> ss
                 | _ => ss
                 end) ss js.

Section claims.
Context `{SL : CodecLaws ShowdownClaim} (ids : list string) (nodes : nat → Node) (ss : gmap string Store).
Context (Hseat : ∀ j, SeatIdx (nodes j) = Z.of_nat j).

Lemma with_claims_cons j js id key :
  Get (store_of (with_claims ids nodes ss (j :: js)) id) key
  = if decide (id = ids !!! j ∧ key = ShowdownClaimKey (Z.of_nat j)) then gob_encode (showdown_claim (nodes j))
    else Get (store_of (with_claims ids nodes ss js) id) key.
Proof using SL Hseat.
  cbn [with_claims foldr]. fold (with_claims ids nodes ss js). unfold publishShowdownClaim. rewrite Hseat.
  destruct (encode_total (showdown_claim (nodes j))) as [d ->]. unfold store_of at 1. destruct (decide (id = ids !!! j)) as [->|Hne].
  - rewrite lookup_insert_eq. unfold Get, Put. cbn. case_decide as Hk; [destruct Hk as [_ ->]; by rewrite lookup_insert_eq|].
    rewrite lookup_insert_ne; [done|]. intros <-. by apply Hk.
  - rewrite lookup_insert_ne by done. rewrite decide_False by tauto. done.
Qed.

Lemma with_claims_other js id key :
  (∀ j, j ∈ js → key ≠ ShowdownClaimKey (Z.of_nat j)) → Get (store_of (with_claims ids nodes ss js) id) key = Get (store_of ss id) key.
Proof using SL Hseat.
  induction js as [|j js IH]; intros Hk; [done|]. rewrite with_claims_cons, decide_False.
  - apply IH. intros j' Hj'. apply Hk. by right.
  - intros [_ ->]. by apply (Hk j); [left|].
Qed.

Lemma with_claims_own js j :
  j ∈ js → Forall (λ j, (Z.of_nat j < 2 ^ 63)) js →
  Get (store_of (with_claims ids nodes ss js) (ids !!! j)) (ShowdownClaimKey (Z.of_nat j)) = gob_encode (showdown_claim (nodes j)).
Proof using SL Hseat.
  intros Hj Hall. pose proof Hall as Hb. rewrite list.Forall_forall in Hb. assert (Z.of_nat j < 2 ^ 63) as Hjb by (by apply Hb). clear Hb.
  induction Hall as [|k js Hk _ IH]; [by apply elem_of_nil in Hj|]. rewrite with_claims_cons. case_decide as Hd.
  - destruct Hd as [_ Heq]. assert (KShowdownClaim (Z.of_nat j) = KShowdownClaim (Z.of_nat k)) as [= Heq']
      by (apply key_string_inj; [cbn; lia..|exact Heq]). by replace k with j by lia.
  - apply elem_of_cons in Hj as [->|Hj]; [by destruct Hd|]. by apply IH.
Qed.

End claims.
