(* ===== verification/Events.v ===== *)
(** * The node's event bus ([internal/peer/events.go])

    Subscribers have buffered channels of 128 events; an emitter never blocks,
    a full channel loses the event.  A channel is a number of the map [subs]
    with its buffered events; the bus's mutex makes every operation atomic. *)

From Stdlib Require Import ZArith Lia Ascii.
From stdpp Require Import base list gmap strings numbers.
From S2P Require Import Prelude.

#[local] Open Scope Z_scope.

(** [Timestamp] in nanoseconds, [None] for the zero time. *)
Record Event := mkBusEvent {
  Timestamp : option Z;
  NodeID : string;
  SessionID : string;
  EKind : string;
  Component : string;
  Message : string;
  Fields : gmap string string;
  Cards : gmap string string;
}.

#[export] Instance Event_eq_dec : EqDecision Event.
Proof. solve_decision. Defined.

Definition bus_capacity : nat := 128.

Record Bus := mkBus { subs : gmap nat (list Event); next_chan : nat }.

Definition empty_bus : Bus := mkBus ∅ 0.

(** The new channel, and the bus that knows it. *)
Definition Subscribe (b : Bus) : nat * Bus :=
  (next_chan b, mkBus (<[next_chan b := []]> (subs b)) (S (next_chan b))).

(** The [cancel] function of a subscription. *)
Definition cancel (ch : nat) (b : Bus) : Bus :=
  match subs b !! ch with
  | Some _ => mkBus (delete ch (subs b)) (next_chan b)
  | None => b
  end.

(** The fields [Emit] fills in; [now], [id] and [session] are the node's. *)
Definition fill (now : Z) (id session : string) (ev : Event) : Event :=
  mkBusEvent
    (match Timestamp ev with None => Some now | t => t end)
    (if decide (NodeID ev = EmptyString) then id else NodeID ev)
    (if decide (SessionID ev = EmptyString) then session else SessionID ev)
    (if decide (EKind ev = EmptyString) then "log"%string else EKind ev)
    (Component ev) (Message ev) (Fields ev) (Cards ev).

(** A non-blocking send. *)
Definition try_send (ev : Event) (buf : list Event) : list Event :=
  if decide (length buf < bus_capacity)%nat then buf ++ [ev] else buf.

Definition Emit (now : Z) (id session : string) (ev : Event) (b : Bus) : Bus :=
  mkBus (try_send (fill now id session ev) <$> subs b) (next_chan b).

Definition EmitFields (now : Z) (id session kind component message : string) (fields : gmap string string)
    (b : Bus) : Bus :=
  Emit now id session (mkBusEvent None EmptyString EmptyString kind component message fields ∅) b.

Definition EmitCards (now : Z) (id session kind component message : string) (cards : gmap string string)
    (b : Bus) : Bus :=
  Emit now id session (mkBusEvent None EmptyString EmptyString kind component message ∅ cards) b.

Definition EmitKind (now : Z) (id session kind component message : string) (b : Bus) : Bus :=
  EmitFields now id session kind component message ∅ b.

Definition Logf (now : Z) (id session component message : string) (b : Bus) : Bus :=
  EmitKind now id session "log" component message b.

(** The subscriber's receive. *)
Definition receive (ch : nat) (b : Bus) : option (Event * Bus) :=
  match subs b !! ch with
  | Some (ev :: buf) => Some (ev, mkBus (<[ch := buf]> (subs b)) (next_chan b))
  | _ => None
  end.

(** ** What a subscriber sees *)

(** The steps of a bus, as subscriber [ch] sees them: emissions, its own
    receives, and subscriptions and cancellations of others. *)
Inductive bus_step (ch : nat) : Bus → option Event → option Event → Bus → Prop :=
| bs_emit now id session ev b :
    bus_step ch b (Some (fill now id session ev)) None (Emit now id session ev b)
| bs_receive b ev b' : receive ch b = Some (ev, b') → bus_step ch b None (Some ev) b'
| bs_subscribe b : bus_step ch b None None (Subscribe b).2
| bs_cancel b ch' : ch' ≠ ch → bus_step ch b None None (cancel ch' b)
| bs_other b ch' ev b' : ch' ≠ ch → receive ch' b = Some (ev, b') → bus_step ch b None None b'.

(** [emitted] and [got] since the subscription; [full] tells whether the
    channel was ever full when an event was emitted. *)
Inductive bus_run (ch : nat) (b0 : Bus) : list Event → list Event → bool → Bus → Prop :=
| br_start : bus_run ch b0 [] [] false b0
| br_step emitted got full b e g b' :
    bus_run ch b0 emitted got full b → bus_step ch b e g b' →
    bus_run ch b0 (emitted ++ option_list e) (got ++ option_list g)
      (full || match e, subs b !! ch with
               | Some _, Some buf => bool_decide (bus_capacity ≤ length buf)%nat
               | _, _ => false
               end) b'.

Lemma sublist_snoc_l {A} (l1 l2 : list A) x : sublist l1 l2 → sublist l1 (l2 ++ [x]).
Proof. intros Hs. etrans; [exact Hs|]. by apply sublist_inserts_r. Qed.

Lemma next_fresh ch b0 emitted got full b :
  bus_run ch b0 emitted got full b → (ch < next_chan b0)%nat → (ch < next_chan b)%nat.
Proof.
  intros Hrun Hch. induction Hrun as [|emitted got full b e g b' _ IH Hstep]; [done|].
  destruct Hstep as [| b ev b' Hr | | b ch' Hne | b ch' ev b' Hne Hr]; cbn; try lia.
  - unfold receive in Hr. destruct (subs b !! ch) as [[|]|]; simplify_eq/=. lia.
  - unfold cancel. destruct (subs b !! ch'); cbn; lia.
  - unfold receive in Hr. destruct (subs b !! ch') as [[|]|]; simplify_eq/=. lia.
Qed.

(** Events arrive in order.  From its subscription on, what a subscriber
    has received, followed by what is buffered for it, is a subsequence of
    what was emitted, in the order of emission; and it is everything that was
    emitted, unless its channel was full at an emission. *)
Theorem bus_in_order b0 ch b emitted got full b' :
  Subscribe b0 = (ch, b) → bus_run ch b emitted got full b' →
  ∃ buf, subs b' !! ch = Some buf ∧ sublist (got ++ buf) emitted ∧ (full = false → got ++ buf = emitted).
Proof.
  intros Hsub Hrun. injection Hsub as <- <-.
  induction Hrun as [|emitted got full b e g b' Hrun IH Hstep].
  { exists []. cbn. by rewrite lookup_insert_eq. }
  destruct IH as (buf & Hbuf & Hs & Heq). apply next_fresh in Hrun as Hfresh; [|cbn; lia].
  destruct Hstep as [now id session ev b | b ev b' Hr | b | b ch' Hne | b ch' ev b' Hne Hr];
    cbn [option_list]; rewrite ?app_nil_r, ?orb_false_r.
  - rewrite Hbuf. exists (try_send (fill now id session ev) buf). cbn [Emit subs]. rewrite lookup_fmap, Hbuf.
    split; [done|]. unfold try_send. destruct (decide (length buf < bus_capacity)%nat) as [Hlt|Hge].
    + rewrite bool_decide_false, orb_false_r by lia. rewrite app_assoc. split; [by apply sublist_app|].
      intros Hf. by rewrite (Heq Hf).
    + rewrite bool_decide_true, orb_true_r by lia. split; [by apply sublist_snoc_l|done].
  - unfold receive in Hr. rewrite Hbuf in Hr. destruct buf as [|x buf]; [done|]. injection Hr as <- <-.
    exists buf. cbn. rewrite lookup_insert_eq. rewrite <- app_assoc. done.
  - exists buf. cbn. rewrite lookup_insert_ne by (cbn in Hfresh; lia). done.
  - exists buf. unfold cancel. destruct (subs b !! ch'); [|done]. cbn. by rewrite lookup_delete_ne.
  - unfold receive in Hr. destruct (subs b !! ch') as [[|x buf']|]; simplify_eq/=.
    exists buf. by rewrite lookup_insert_ne.
Qed.

Definition hello : Event := mkBusEvent None EmptyString EmptyString "log" "test" "hello" ∅ ∅.

Lemma bus_in_order_witness :
  ∃ buf, subs (Emit 5 "n" "s" hello (Subscribe empty_bus).2) !! 0%nat = Some buf ∧
    sublist ([] ++ buf) ([] ++ [fill 5 "n" "s" hello]) ∧ (false = false → [] ++ buf = [] ++ [fill 5 "n" "s" hello]).
Proof.
  apply (bus_in_order empty_bus 0 (Subscribe empty_bus).2 [fill 5 "n" "s" hello] [] false
    (Emit 5 "n" "s" hello (Subscribe empty_bus).2) eq_refl).
  apply (br_step 0 (Subscribe empty_bus).2 [] [] false (Subscribe empty_bus).2 (Some (fill 5 "n" "s" hello)) None).
  - apply br_start.
  - apply bs_emit.
Defined.
