(* ===== verification/Rpc.v ===== *)
(** * The client RPC server ([internal/clientrpc/server.go])

    The handlers that compute something (submitting an action, describing and
    evaluating cards) and the translation of bus events into the typed events
    a frontend receives.  The handlers that forward to the node are in [Api],
    the event stream is in [Stream]; the gRPC transport is not modelled. *)

From Stdlib Require Import ZArith Lia Ascii.
From stdpp Require Import base list gmap strings numbers.
From S2P Require Import Prelude Runtime Strconv Card Eval Deck Net Peer GameState GameLog Runner Events.

#[local] Open Scope Z_scope.

Definition ACTION_KIND_FOLD : Z := 0.
Definition ACTION_KIND_CHECK : Z := 1.
Definition ACTION_KIND_CALL : Z := 2.
Definition ACTION_KIND_RAISE : Z := 3.

Inductive status := FailedPrecondition | InvalidArgument | Internal.

(** [NewServer] and [SetRunner]: the server holds the active runner. *)
Record RpcServer := mkRpc { srv_node : Node; srv_runner : option Runner }.

Definition NewRpcServer (n : Node) : RpcServer := mkRpc n None.
Definition SetRunner (r : option Runner) (s : RpcServer) : RpcServer := mkRpc (srv_node s) r.

Definition request_kind (kind : Z) : option Z :=
  if kind =? ACTION_KIND_FOLD then Some ActionFold
  else if kind =? ACTION_KIND_CHECK then Some ActionCheck
  else if kind =? ACTION_KIND_CALL then Some ActionCall
  else if kind =? ACTION_KIND_RAISE then Some ActionRaise
  else None.

Definition RpcSubmitAction (kind amount : Z) (s : RpcServer) : res status RpcServer :=
  match srv_runner s with
  | None => Err FailedPrecondition
  | Some r =>
      match request_kind kind with
      | None => Err InvalidArgument
      | Some k =>
          match SubmitAction (mkAction k amount) r with
          | Ok r' => Ok (SetRunner (Some r') s)
          | Err (ErrIllegalAction _) => Err InvalidArgument
          | Err _ => Err FailedPrecondition
          | Panic => Panic
          end
      end
  end.

(** The hand and what the response calls the flop. *)
Definition GetCards (n : Node) : list string * list string :=
  let '(c1, c2) := HoleCards n in
  (filter (λ c, c ≠ EmptyString) [c1; c2], CommunityCards n).

Definition i32 (x : Z) : Z := (x + 2 ^ 31) mod 2 ^ 32 - 2 ^ 31.

Record CardInfo := mkCardInfo {
  ci_Index : Z; ci_Suit : Z; ci_Rank : Z;
  ci_Short : string; ci_Pretty : string; ci_SuitName : string; ci_RankName : string;
}.

Definition cardInfo (c : Card) : CardInfo :=
  mkCardInfo (i32 (Int c)) (i32 (CSuit c)) (i32 (CRank c)) (Card_Short c) (Pretty c)
    (Suit_Name (CSuit c)) (Rank_Name (CRank c)).

Definition DescribeCards (req : list string) : res status (list CardInfo) :=
  cards ← wrap_err (λ _, InvalidArgument) (ParseDeckStrings req);
  Ok (cardInfo <$> (cards : list Card)).

Record HandInfo := mkHandInfo {
  hi_Category : Z; hi_CategoryName : string; hi_Description : string;
  hi_Tiebreakers : list Z; hi_Best : list CardInfo;
}.

Definition EvaluateHand `{GoRuntime} (req : list string) : res status HandInfo :=
  cards ← wrap_err (λ _, InvalidArgument) (ParseDeckStrings req);
  hr ← wrap_err (λ _, InvalidArgument) (Best cards);
  desc ← no_err (Describe hr);
  Ok (mkHandInfo (i32 (HCategory hr)) (Category_String (HCategory hr)) desc (i32 <$> Tiebreakers hr)
        (cardInfo <$> HBest hr)).

(** ** Events for the frontend *)

Inductive RpcEvent :=
| GameStartEvent (nodeID sessionID : string) (order : list string) (mySeat : Z)
| HoleCardsEvent (nodeID c1 c2 : string)
| CommunityCardsEvent (nodeID : string) (cards : list string)
| RoundStartedEvent (nodeID : string) (roundID proposerSeat mySeat : Z)
| ActionEvent (nodeID : string) (roundID attempt seat kind amount : Z) (outcome why : string)
| AutoFoldEvent (nodeID : string) (roundID targetSeat : Z)
| LogEvent (ts : Z) (nodeID sessionID kind component message : string) (fields cards : gmap string string)
| PeerMessageEvent (from messageType : string) (payload : list Z).

Definition firstNonEmpty (a b : string) : string := if decide (a = EmptyString) then b else a.

(** [strings.Split(s, ",")] *)
Fixpoint split_comma (s cur : string) : list string :=
  match s with
  | EmptyString => [cur]
  | String.String c s =>
      if decide (c = ","%char) then cur :: split_comma s EmptyString
      else split_comma s (cur +:+ String.String c EmptyString)
  end.

Definition splitCSV (s : string) : list string :=
  match s with EmptyString => [] | _ => split_comma s EmptyString end.

Definition atou64 (s : string) : Z := (ParseUint s 64).1.
Definition atou32 (s : string) : Z := u32 (ParseUint s 32).1.
Definition atoi32 (s : string) : Z := i32 (ParseInt s 32).1.

(** The loop of [orderedCardList] from [i] on; [fuel] bounds the iterations. *)
Fixpoint ordered_cards (fuel : nat) (i : Z) (cards : gmap string string) : list string :=
  match fuel with
  | O => []
  | S fuel =>
      match cards !! ("card" +:+ Itoa i) with
      | None => []
      | Some v => v :: ordered_cards fuel (i + 1) cards
      end
  end.

(** One iteration per key and the one that finds the gap. *)
Definition orderedCardList (cards : gmap string string) : list string :=
  ordered_cards (S (size cards)) 1 cards.

Definition actionKindFromName (name : string) : Z :=
  if decide (name = "fold"%string) then ACTION_KIND_FOLD
  else if decide (name = "check"%string) then ACTION_KIND_CHECK
  else if decide (name = "call"%string) then ACTION_KIND_CALL
  else if decide (name = "raise"%string) then ACTION_KIND_RAISE
  else ACTION_KIND_FOLD.

(** Reading a missing key of a Go map gives "". *)
Definition get (m : gmap string string) (k : string) : string := default EmptyString (m !! k).

Definition log_event (ev : Event) : RpcEvent :=
  LogEvent (default 0 (Timestamp ev)) (NodeID ev) (SessionID ev) (EKind ev) (Component ev) (Message ev)
    (Fields ev) (Cards ev).

Definition translateBusEvent (ev : Event) : RpcEvent :=
  let f := get (Fields ev) in
  let c := get (Cards ev) in
  if decide (EKind ev = "game_start"%string) then
    GameStartEvent (NodeID ev) (firstNonEmpty (SessionID ev) (f "session_id"%string)) (splitCSV (f "order"%string))
      (atoi32 (f "my_seat"%string))
  else if decide (EKind ev = "deal"%string) then
    if bool_decide (Cards ev ≠ ∅) && (bool_decide (c "hole1"%string ≠ EmptyString) || bool_decide (c "hole2"%string ≠ EmptyString))
    then HoleCardsEvent (NodeID ev) (c "hole1"%string) (c "hole2"%string)
    else log_event ev
  else if decide (EKind ev = "community"%string) then
    if bool_decide (Cards ev ≠ ∅) then CommunityCardsEvent (NodeID ev) (orderedCardList (Cards ev))
    else log_event ev
  else if decide (EKind ev = "round"%string) then
    RoundStartedEvent (NodeID ev) (atou64 (f "round_id"%string)) (atou32 (f "proposer_seat"%string))
      (atoi32 (f "my_seat"%string))
  else if decide (EKind ev = "attempt"%string) then
    ActionEvent (NodeID ev) (atou64 (f "round_id"%string)) (atou32 (f "attempt"%string)) (atoi32 (f "seat"%string))
      (actionKindFromName (f "action_kind"%string)) (atou64 (f "action_amount"%string)) (f "outcome"%string)
      (f "reason"%string)
  else if decide (EKind ev = "auto_fold"%string) then
    if bool_decide (f "target_seat"%string ≠ EmptyString) then
      AutoFoldEvent (NodeID ev) (atou64 (f "round_id"%string)) (atou32 (f "target_seat"%string))
    else log_event ev
  else log_event ev.

(** ** The events of the other components *)

(** The field map of [Runner.emit] for an event it published; [text] renders
    the reason. *)
Definition attempt_fields (text : reason → string) (p : AttemptEvent * list (string * string)) : gmap string string :=
  list_to_map (p.2 ++ [("round_id", utoa (EvRoundID p.1)); ("attempt", utoa (EvAttempt p.1));
                       ("outcome", EvOutcome p.1); ("reason", text (EvReason p.1))]).

(** What a frontend sees of an event that the runner of node [id] published. *)
Definition attempt_seen (text : reason → string) (now : Z) (id session message : string)
    (p : AttemptEvent * list (string * string)) : RpcEvent :=
  translateBusEvent (fill now id session
    (mkBusEvent None EmptyString EmptyString "attempt" "runner" message (attempt_fields text p) ∅)).

(** What a frontend sees of the board snapshot that [setCommunity] emits. *)
Definition board_seen (now : Z) (id session message : string) (board : list string) : RpcEvent :=
  translateBusEvent (fill now id session
    (mkBusEvent None EmptyString EmptyString "community" "community" message ∅ (list_to_map (filled_prefix 0 board)))).

(** [strings.Join(order, ",")], and the event of [GameStart]. *)
Fixpoint join_comma (order : list string) : string :=
  match order with
  | [] => EmptyString
  | [s] => s
  | s :: order => s +:+ "," +:+ join_comma order
  end.

Definition game_start_fields (sessionID : string) (order : list string) (seatIdx : Z) : gmap string string :=
  list_to_map [("session_id", sessionID); ("order", join_comma order); ("my_seat", Itoa seatIdx)]%string.

Definition game_start_seen (now : Z) (id session message sessionID : string) (order : list string) (seatIdx : Z)
    : RpcEvent :=
  translateBusEvent (fill now id session
    (mkBusEvent None EmptyString EmptyString "game_start" "game" message (game_start_fields sessionID order seatIdx) ∅)).

(** The event with which [Run] announces the end of a hand: kind "round" and no
    fields. *)
Definition hand_over_seen (now : Z) (id session message : string) : RpcEvent :=
  translateBusEvent (fill now id session
    (mkBusEvent None EmptyString EmptyString "round" "runner" message ∅ ∅)).
