(* ===== verification/RpcProps.v ===== *)
(** * The client RPC server: theorems *)

From Stdlib Require Import ZArith Lia Ascii.
From stdpp Require Import base list gmap strings numbers.
From S2P Require Import Prelude Runtime Strconv Ephemeral Card Eval Deck Net Peer GameState GameStateProofs GameLog GameLogProofs GameLogProps.
From S2P Require Import Runner RunnerProofs RunnerProps Events Rpc.

#[local] Open Scope Z_scope.

(** ** Numbers in fields *)

Lemma atou64_utoa n : 0 ≤ n < 2 ^ 64 → atou64 (utoa n) = n.
Proof. intros Hn. unfold atou64. by rewrite ParseUint_utoa. Qed.

Lemma atou32_utoa n : 0 ≤ n < 2 ^ 32 → atou32 (utoa n) = n.
Proof. intros Hn. unfold atou32. rewrite ParseUint_utoa by done. by apply Z.mod_small. Qed.

Lemma i32_small n : - 2 ^ 31 ≤ n < 2 ^ 31 → i32 n = n.
Proof. intros Hn. unfold i32. rewrite Z.mod_small; lia. Qed.

Lemma ParseInt_32_utoa n : 0 ≤ n < 2 ^ 31 → ParseInt (utoa n) 32 = (n, None).
Proof.
  intros Hn. unfold ParseInt. pose proof (utoa_nonempty n) as Hne.
  destruct (utoa n) as [|c s] eqn:Hs; [done|]. rewrite <- Hs.
  rewrite strip_sign_digits by (apply utoa_digits; lia). rewrite ParseUint_utoa by lia.
  rewrite bool_decide_false by done. cbn [negb andb]. rewrite (proj2 (Z.leb_gt _ _)) by (change (32 - 1) with 31; lia).
  done.
Qed.

Lemma atoi32_utoa n : 0 ≤ n < 2 ^ 31 → atoi32 (utoa n) = n.
Proof. intros Hn. unfold atoi32. rewrite ParseInt_32_utoa by done. apply i32_small. cbn. lia. Qed.

Lemma atoi32_Itoa n : -1 ≤ n < 2 ^ 31 → atoi32 (Itoa n) = n.
Proof.
  intros Hn. destruct (decide (n = -1)) as [->|]; [by vm_compute|].
  rewrite Itoa_nonneg by lia. apply atoi32_utoa. lia.
Qed.

(** Reading fields. *)
Lemma get_insert_eq m k v : get (<[k := v]> m) k = v.
Proof. unfold get. by rewrite lookup_insert_eq. Qed.
Lemma get_insert_ne m k k' v : k ≠ k' → get (<[k := v]> m) k' = get m k'.
Proof. intros. unfold get. by rewrite lookup_insert_ne. Qed.
Lemma get_empty k : get ∅ k = EmptyString.
Proof. unfold get. by rewrite lookup_empty. Qed.

Ltac read_fields :=
  cbn [app list_to_map foldr fmap list_fmap uncurry fst snd];
  repeat first [rewrite get_insert_eq | rewrite get_insert_ne by done | rewrite get_empty].

(** The names of the action kinds translate back. *)
Lemma kind_name_roundtrip k : 0 ≤ k ≤ 3 → actionKindFromName (actionKindName k) = k.
Proof. intros Hk. assert (k = 0 ∨ k = 1 ∨ k = 2 ∨ k = 3) as [-> | [-> | [-> | ->]]] by lia; done. Qed.

(** The frontend sees the committed action.  When the runner reports a
    commit, the event it publishes reaches a frontend as an action event with
    the round, the attempt, and the seat, kind and amount of the entry at the
    end of the log. *)
Theorem commit_event_faithful text now id session message r rid att e :
  list.last (GameLog.entries (rlog r)) = Some e → entry_typed e → 0 ≤ Kind (EAction e) ≤ 3 →
  0 ≤ rid < 2 ^ 64 → 0 ≤ att < 2 ^ 32 →
  ∃ p, published (emit (mkEvent rid att "committed" NoReason) r) = published r ++ [p] ∧
    attempt_seen text now id session message p
    = ActionEvent id rid att (PlayerID e) (Kind (EAction e)) (Amount (EAction e)) "committed" (text NoReason).
Proof.
  intros Hlast [_ Hp [_ Hamt] _] Hk Hrid Hatt. eexists. split; [reflexivity|].
  unfold attempt_seen, attempt_fields, commit_fields. cbn [fst snd EvRoundID EvAttempt EvOutcome EvReason].
  rewrite decide_True by done. rewrite Hlast. unfold translateBusEvent.
  cbn [fill EKind Fields Cards NodeID]. rewrite !decide_False by done. rewrite !decide_True by done.
  read_fields.
  by rewrite atou64_utoa, atou32_utoa, atoi32_utoa, atou64_utoa, kind_name_roundtrip by (done || lia).
Qed.

(** A frontend sees an action nobody took.  An attempt that was rejected
    or timed out reaches a frontend as the same kind of event, with a fold of
    seat 0 in it, whoever the proposer was and whatever it tried. *)
Theorem uncommitted_seen_as_fold text now id session message r ev :
  EvOutcome ev ≠ "committed"%string → 0 ≤ EvRoundID ev < 2 ^ 64 → 0 ≤ EvAttempt ev < 2 ^ 32 →
  ∃ p, published (emit ev r) = published r ++ [p] ∧
    attempt_seen text now id session message p
    = ActionEvent id (EvRoundID ev) (EvAttempt ev) 0 ACTION_KIND_FOLD 0 (EvOutcome ev) (text (EvReason ev)).
Proof.
  intros Hout Hrid Hatt. eexists. split; [reflexivity|].
  unfold attempt_seen, attempt_fields, commit_fields. cbn [fst snd]. rewrite decide_False by done.
  unfold translateBusEvent. cbn [fill EKind Fields Cards NodeID].
  rewrite !decide_False by done. rewrite !decide_True by done.
  read_fields. by rewrite atou64_utoa, atou32_utoa by done.
Qed.

(** The end of a hand is announced as a new round.  The event with which
    the runner reports that the hand is over reaches a frontend as "round 0
    started, seat 0 to act". *)
Theorem hand_over_seen_as_round now id session message :
  hand_over_seen now id session message = RoundStartedEvent id 0 0 0.
Proof. reflexivity. Qed.

(** ** The board *)

Fixpoint revealed_prefix (board : list string) : list string :=
  match board with
  | [] => []
  | c :: board => if decide (c = EmptyString) then [] else c :: revealed_prefix board
  end.

Lemma card_key_inj i j : 0 ≤ i < 2 ^ 63 → 0 ≤ j < 2 ^ 63 → ("card" +:+ Itoa i) = ("card" +:+ Itoa j) → i = j.
Proof.
  intros Hi Hj Heq. apply Itoa_inj; [lia..|].
  injection Heq. done.
Qed.

Lemma filled_lookup board i j :
  0 ≤ i → i + Z.of_nat (length board) < 2 ^ 62 → 0 ≤ j < 2 ^ 62 →
  (list_to_map (filled_prefix i board) : gmap string string) !! ("card" +:+ Itoa (j + 1))
  = if decide (i ≤ j) then revealed_prefix board !! Z.to_nat (j - i) else None.
Proof.
  revert i. induction board as [|c board IH]; intros i Hi Hlen Hj; cbn [filled_prefix revealed_prefix length] in *.
  { cbn. rewrite lookup_empty. by case_decide. }
  destruct (decide (c = EmptyString)).
  { cbn. rewrite lookup_empty. by case_decide. }
  cbn [list_to_map foldr fmap list_fmap uncurry]. destruct (decide (j = i)) as [->|Hne].
  - change (foldr _ _ ?l) with (foldr (λ p, <[p.1:=p.2]>) (∅ : gmap string string) l).
    rewrite decide_True by lia. rewrite Z.sub_diag. cbn. by rewrite lookup_insert_eq.
  - rewrite lookup_insert_ne by (intros Heq; apply card_key_inj in Heq; lia).
    rewrite (IH (i + 1)) by lia. destruct (decide (i + 1 ≤ j)), (decide (i ≤ j)); try lia; [|done].
    replace (Z.to_nat (j - i)) with (S (Z.to_nat (j - (i + 1)))) by lia. done.
Qed.

Lemma ordered_cards_spec fuel i cards (l : list string) :
  1 ≤ i → (length l < fuel)%nat →
  (∀ k, (k ≤ length l)%nat → cards !! ("card" +:+ Itoa (i + Z.of_nat k)) = l !! k) →
  ordered_cards fuel i cards = l.
Proof.
  revert fuel i. induction l as [|x l IH]; intros fuel i Hi Hf Hlk; (destruct fuel as [|fuel]; [cbn in Hf; lia|]); cbn [ordered_cards].
  - specialize (Hlk 0%nat ltac:(done)). rewrite Z.add_0_r in Hlk. by rewrite Hlk.
  - pose proof (Hlk 0%nat ltac:(cbn; lia)) as H0. rewrite Z.add_0_r in H0. rewrite H0. cbn. f_equal.
    apply IH; [lia|cbn in Hf; lia|]. intros k Hk. specialize (Hlk (S k) ltac:(cbn; lia)).
    change ((x :: l) !! S k) with (l !! k) in Hlk. rewrite <- Hlk. do 3 f_equal. lia.
Qed.

Lemma filled_size i board :
  0 ≤ i → i + Z.of_nat (length board) < 2 ^ 62 →
  size (list_to_map (filled_prefix i board) : gmap string string) = length (revealed_prefix board).
Proof.
  intros Hi Hlen. assert (NoDup (filled_prefix i board).*1 ∧ length (filled_prefix i board) = length (revealed_prefix board)) as [Hnd Hl].
  { revert i Hi Hlen. induction board as [|c board IH]; intros i Hi Hlen; cbn [filled_prefix revealed_prefix length] in *;
      [split; [constructor|done]|].
    destruct (decide (c = EmptyString)); [split; [constructor|done]|].
    destruct (IH (i + 1)) as [Hnd Hl]; [lia..|]. cbn [fmap list_fmap length fst]. split; [|by f_equal].
    apply list.NoDup_cons. split; [|done]. intros Hin.
    assert (∃ v, (list_to_map (filled_prefix (i + 1) board) : gmap string string) !! ("card" +:+ Itoa (i + 1)) = Some v) as [v Hv].
    { apply list_elem_of_fmap in Hin as ([k v] & Hk & Hin). exists v. cbn in Hk. subst k.
      by apply elem_of_list_to_map_1. }
    rewrite filled_lookup in Hv by lia. rewrite decide_False in Hv by lia. done. }
  rewrite <- Hl, <- (length_map_to_list (list_to_map (filled_prefix i board) : gmap string string)).
  apply Permutation_length. by apply map_to_list_to_map.
Qed.

(** The frontend sees the board.  When a community card is recorded, the
    frontend receives the revealed cards in order, up to the first slot that
    is still empty. *)
Theorem board_event_faithful now id session message board :
  board ≠ [] → head board ≠ Some EmptyString → Z.of_nat (length board) < 2 ^ 62 →
  board_seen now id session message board = CommunityCardsEvent id (revealed_prefix board).
Proof.
  intros Hne Hhead Hlen. unfold board_seen, translateBusEvent. cbn [fill EKind Fields Cards NodeID].
  rewrite !decide_False by done. rewrite decide_True by done.
  assert (size (list_to_map (filled_prefix 0 board) : gmap string string) = length (revealed_prefix board)) as Hs
    by (apply filled_size; lia).
  rewrite bool_decide_true.
  - f_equal. unfold orderedCardList. apply ordered_cards_spec; [done|lia|]. intros k Hk.
    assert (length (revealed_prefix board) ≤ length board)%nat as Hrl.
    { clear. induction board as [|c board IH]; [done|]. cbn. case_decide; cbn; lia. }
    replace (1 + Z.of_nat k) with (Z.of_nat k + 1) by lia. rewrite filled_lookup by lia.
    rewrite decide_True by lia. by rewrite Z.sub_0_r, Nat2Z.id.
  - intros Hempty. rewrite Hempty, map_size_empty in Hs. destruct board as [|c board]; [done|]. cbn in Hs, Hhead.
    destruct (decide (c = EmptyString)); [congruence|done].
Qed.

(** ** The seating *)

Fixpoint no_comma (s : string) : Prop :=
  match s with
  | EmptyString => True
  | String.String c s => c ≠ ","%char ∧ no_comma s
  end.

Lemma string_app_nil s : s +:+ EmptyString = s.
Proof. induction s as [|a s IH]; [done|]. exact (f_equal (String.String a) IH). Qed.

Lemma split_comma_app s cur rest :
  no_comma s → split_comma (s +:+ String.String ","%char rest) cur = (cur +:+ s) :: split_comma rest EmptyString.
Proof.
  revert cur. induction s as [|c s IH]; intros cur Hs.
  - change (EmptyString +:+ String.String "," rest) with (String.String "," rest). cbn [split_comma].
    rewrite decide_True by done. by rewrite string_app_nil.
  - destruct Hs as [Hc Hs]. change (String.String c s +:+ String.String "," rest)
      with (String.String c (s +:+ String.String "," rest)). cbn [split_comma].
    rewrite decide_False by done. rewrite IH by done. by rewrite string_app_assoc.
Qed.

Lemma split_comma_last s cur : no_comma s → split_comma s cur = [cur +:+ s].
Proof.
  revert cur. induction s as [|c s IH]; intros cur Hs; cbn [split_comma]; [by rewrite string_app_nil|].
  destruct Hs as [Hc Hs]. rewrite decide_False by done. rewrite IH by done. by rewrite string_app_assoc.
Qed.

Lemma split_join order :
  order ≠ [] → Forall no_comma order → split_comma (join_comma order) EmptyString = order.
Proof.
  intros Hne Hall. induction Hall as [|s order Hs Hall IH]; [done|]. destruct order as [|t order].
  - cbn [join_comma]. rewrite split_comma_last by done. done.
  - change (join_comma (s :: t :: order)) with (s +:+ String.String "," (join_comma (t :: order))).
    rewrite split_comma_app by done. by rewrite IH.
Qed.

(** The frontend sees the seating.  The event of the game start reaches a
    frontend with the seating order and the node's seat (-1 when it has none),
    provided the ids are not empty and have no comma in them. *)
Theorem game_start_event_faithful now id session message sessionID order seatIdx :
  order ≠ [] → Forall (λ s, s ≠ EmptyString ∧ no_comma s) order → -1 ≤ seatIdx < 2 ^ 31 →
  game_start_seen now id session message sessionID order seatIdx
  = GameStartEvent id (firstNonEmpty session sessionID) order seatIdx.
Proof.
  intros Hne Hall Hseat. unfold game_start_seen, translateBusEvent. cbn [fill EKind Fields Cards NodeID SessionID].
  rewrite !decide_True by done. unfold game_start_fields. read_fields.
  rewrite atoi32_Itoa by done. f_equal. unfold splitCSV.
  destruct (join_comma order) as [|c s] eqn:Hj.
  - exfalso. destruct order as [|x [|y order]]; [done| |].
    + apply list.Forall_cons in Hall as [[Hx _] _]. done.
    + change (join_comma (x :: y :: order)) with (x +:+ String.String "," (join_comma (y :: order))) in Hj. by destruct x.
  - rewrite <- Hj. apply split_join; [done|]. eapply list.Forall_impl; [exact Hall|]. by intros ? [_ ?].
Qed.

(** ** Submitting an action *)

(** What a client may submit.  With a well-formed runner registered, a
    request succeeds exactly when it is the node's turn, the kind is known, the
    move is legal in the replayed state and no action is pending; then the
    action is pending and nothing else has changed.  An unknown kind or an
    illegal move is an invalid argument; the rest is a failed precondition. *)
Theorem submit_action_correct `{C : SigScheme} `{L : !SigLaws C} np stack n r kind amount s :
  table np stack → 2 ≤ np → runner_ok np stack r → Log_Replay (rlog r) = Ok s →
  RpcSubmitAction kind amount (mkRpc n (Some r))
  = if decide (0 ≤ kind ≤ 3) then
      match ExpectedNextPlayer (rlog r), ValidateAction s (SeatIdx (rnode r)) (mkAction kind amount), actionCh r with
      | Ok q, Ok _, None =>
          if decide (q = SeatIdx (rnode r))
          then Ok (mkRpc n (Some (set_channel (Some (mkAction kind amount)) r))) else Err FailedPrecondition
      | Ok q, Err _, _ => if decide (q = SeatIdx (rnode r)) then Err InvalidArgument else Err FailedPrecondition
      | _, _, _ => Err FailedPrecondition
      end
    else Err InvalidArgument.
Proof.
  intros Ht Hnp Hr Hs. pose proof (tb_n _ _ Ht). destruct Hr as [Hl Ho Hseat Hk].
  destruct (expected_total np stack Ht Hnp (rlog r) Hl) as (q & Hq & Hqr).
  destruct (replay_total np stack Ht Hnp (rlog r) Hl) as (s' & Hs' & Hf & Hst & Hc & _).
  rewrite Hs in Hs'. injection Hs' as <-.
  assert (request_kind kind = if decide (0 ≤ kind ≤ 3) then Some kind else None) as Hkind.
  { unfold request_kind, ACTION_KIND_FOLD, ACTION_KIND_CHECK, ACTION_KIND_CALL, ACTION_KIND_RAISE.
    destruct (decide (0 ≤ kind ≤ 3)).
    - assert (kind = 0 ∨ kind = 1 ∨ kind = 2 ∨ kind = 3) as [-> | [-> | [-> | ->]]] by lia; done.
    - by rewrite !(proj2 (Z.eqb_neq _ _)) by lia. }
  unfold RpcSubmitAction. cbn [srv_runner]. rewrite Hkind. destruct (decide (0 ≤ kind ≤ 3)); [|done].
  unfold SubmitAction, currentRole. rewrite Hq, Hs. cbn [mbind res_bind no_err wrap_err]. rewrite u8_small by lia.
  pose proof (ValidateAction_no_panic s (SeatIdx (rnode r)) (mkAction kind amount) ltac:(congruence) ltac:(congruence) ltac:(lia)) as Hv.
  destruct (Z.eqb_spec q (SeatIdx (rnode r))) as [->|Hne].
  - rewrite !decide_True by done. cbn [bool_decide decide_rel negb].
    rewrite bool_decide_true by done. cbn [negb].
    destruct (ValidateAction s _ _) as [[]|e|]; [|done|done]. cbn [wrap_err mbind res_bind].
    by destruct (actionCh r).
  - rewrite bool_decide_false by done. cbn [negb].
    destruct (ValidateAction s _ _) as [[]|e|]; [|by rewrite decide_False|done].
    destruct (actionCh r); [done|]. by rewrite decide_False.
Qed.

(** ** Concrete events *)

Definition plain_text (why : reason) : string := EmptyString.
Definition alice_raised : Runner := set_log (Append three_log (three_entry raise_50)) (three_runner 0).

Lemma commit_event_faithful_witness :
  ∃ p, published (emit (mkEvent 0 1 "committed" NoReason) alice_raised) = published alice_raised ++ [p] ∧
    attempt_seen plain_text 7 "alice" "s" "m" p = ActionEvent "alice" 0 1 0 ActionRaise 50 "committed" EmptyString.
Proof.
  apply (commit_event_faithful plain_text 7 "alice" "s" "m" alice_raised 0 1 (three_entry raise_50)).
  - vm_compute. reflexivity.
  - apply typedb_spec. vm_compute. reflexivity.
  - split; vm_compute; discriminate.
  - lia.
  - lia.
Defined.

Lemma uncommitted_seen_as_fold_witness :
  ∃ p, published (emit (mkEvent 4 2 "timeout" NoLegalAction) alice_raised) = published alice_raised ++ [p] ∧
    attempt_seen plain_text 7 "alice" "s" "m" p = ActionEvent "alice" 4 2 0 ACTION_KIND_FOLD 0 "timeout" EmptyString.
Proof.
  apply (uncommitted_seen_as_fold plain_text 7 "alice" "s" "m" alice_raised (mkEvent 4 2 "timeout" NoLegalAction)).
  - discriminate.
  - cbn. lia.
  - cbn. lia.
Defined.

Lemma board_event_faithful_witness :
  board_seen 7 "alice" "s" "m" ["12"; "3"; ""; "40"] = CommunityCardsEvent "alice" ["12"; "3"].
Proof.
  apply (board_event_faithful 7 "alice" "s" "m" ["12"; "3"; ""; "40"]).
  - discriminate.
  - discriminate.
  - cbn. lia.
Defined.

Lemma game_start_event_faithful_witness :
  game_start_seen 7 "alice" "s" "m" "t" three_ids 2 = GameStartEvent "alice" "s" three_ids 2.
Proof.
  apply (game_start_event_faithful 7 "alice" "s" "m" "t" three_ids 2).
  - discriminate.
  - repeat constructor; discriminate.
  - lia.
Defined.

Lemma submit_action_correct_witness :
  RpcSubmitAction ACTION_KIND_RAISE 50 (mkRpc (rnode (three_runner 0)) (Some (three_runner 0)))
  = Ok (mkRpc (rnode (three_runner 0)) (Some (set_channel (Some raise_50) (three_runner 0)))).
Proof.
  rewrite (@submit_action_correct toy_scheme toy_laws 3 100 (rnode (three_runner 0)) (three_runner 0)
    ACTION_KIND_RAISE 50 (initial_state 3 100) table_3_100 ltac:(lia) (three_ok 0 ltac:(lia)) eq_refl).
  reflexivity.
Defined.
