(* ===== verification/Announce.v ===== *)
(** * What a node announces of its cards ([peer/deal.go], [peer/community.go])

    The events with which a node tells its subscribers about its hole cards and
    the board, and what they become on their way to a frontend. *)

From Stdlib Require Import ZArith Lia Ascii.
From stdpp Require Import base list gmap strings numbers.
From S2P Require Import Prelude Strconv Peer Events Rpc RpcProps.

#[local] Open Scope Z_scope.

Definition newline : string := String.String (ascii_of_nat 10) EmptyString.
Definition rule : string := "--------------------------".

Section announce.
(** The time of the event and the node's session. *)
Context (now : Z) (session : string).

Definition PrintCards (n : Node) (b : Bus) : Bus :=
  if NoCardsYet n then
    EmitKind now (nid n) session "deal" "deal" ("[" +:+ nid n +:+ "] Hole Cards: [Waiting for deal...]") b
  else
    let msg := rule +:+ newline +:+ "[" +:+ nid n +:+ "] YOUR HAND" +:+ newline +:+ "Card 1: " +:+ card1 n +:+ newline
               +:+ "Card 2: " +:+ card2 n +:+ newline +:+ rule in
    EmitCards now (nid n) session "deal" "deal" msg (list_to_map [("hole1", card1 n); ("hole2", card2 n)]%string) b.

(** The lines of the board up to the first empty slot. *)
Fixpoint card_lines (i : Z) (snapshot : list string) : string :=
  match snapshot with
  | [] => EmptyString
  | c :: snapshot =>
      if decide (c = EmptyString) then EmptyString
      else "  Card " +:+ Itoa (i + 1) +:+ ": " +:+ c +:+ newline +:+ card_lines (i + 1) snapshot
  end.

Definition PrintCommunity (n : Node) (b : Bus) : Bus :=
  match community n with
  | [] => EmitKind now (nid n) session "community" "community" ("[" +:+ nid n +:+ "] Community: [none yet]") b
  | snapshot =>
      let msg := rule +:+ newline +:+ "[" +:+ nid n +:+ "] COMMUNITY CARDS" +:+ newline +:+ card_lines 0 snapshot +:+ rule in
      EmitCards now (nid n) session "community" "community" msg (list_to_map (filled_prefix 0 snapshot)) b
  end.

(** [setCommunity] with its event: nothing is announced when the slot is
    already filled. *)
Definition set_community_emit (n : Node) (cardIdx : Z) (card : string) (b : Bus) : res Empty_set (Node * Bus) :=
  let boardIdx := cardIdx - communityBase n in
  old ← idx (pad_board (community n) boardIdx) boardIdx;
  n' ← setCommunity n cardIdx card;
  if bool_decide (old ≠ EmptyString) then Ok (n', b)
  else
    let cards := filled_prefix 0 (community n') in
    let msg := "[" +:+ nid n +:+ "] community card revealed: " +:+ card +:+ " (slot " +:+ Itoa (boardIdx + 1)
               +:+ ", total " +:+ Itoa (Z.of_nat (length cards)) +:+ ")" in
    Ok (n', EmitCards now (nid n) session "community" "community" msg (list_to_map cards) b).

(** ** What arrives *)

(** An emission reaches a subscriber that has room. *)
Lemma emit_arrives ev b ch buf id :
  subs b !! ch = Some buf → (length buf < bus_capacity)%nat →
  subs (Emit now id session ev b) !! ch = Some (buf ++ [fill now id session ev]).
Proof. intros Hb Hl. cbn. rewrite lookup_fmap, Hb. cbn. unfold try_send. by rewrite decide_True. Qed.

(** The frontend is told the cards.  A subscriber with room is sent one event
    by [PrintCards] and one by [PrintCommunity]; once both hole cards are
    dealt the first is the pair of hole cards, and once the first board slot is
    filled the second is the revealed board, in order up to the first empty
    slot. *)
Theorem cards_announced n b ch buf :
  subs b !! ch = Some buf → (length buf < bus_capacity)%nat → Z.of_nat (length (community n)) < 2 ^ 62 →
  (∃ ev, subs (PrintCards n b) !! ch = Some (buf ++ [ev]) ∧
    (NoCardsYet n = false → translateBusEvent ev = HoleCardsEvent (nid n) (card1 n) (card2 n))) ∧
  (∃ ev, subs (PrintCommunity n b) !! ch = Some (buf ++ [ev]) ∧
    (head (community n) ≠ None → head (community n) ≠ Some EmptyString →
     translateBusEvent ev = CommunityCardsEvent (nid n) (revealed_prefix (community n)))).
Proof.
  intros Hb Hl Hlen. split.
  - unfold PrintCards. destruct (NoCardsYet n) eqn:Hno; (eexists; split; [by apply emit_arrives|]); [done|].
    intros _. unfold NoCardsYet in Hno. apply orb_false_elim in Hno as [H1 _]. apply bool_decide_eq_false in H1.
    unfold translateBusEvent. cbn [fill EKind Fields Cards NodeID]. rewrite decide_False, decide_True by done.
    rewrite bool_decide_true by (cbn; apply insert_non_empty).
    read_fields. by rewrite bool_decide_true.
  - unfold PrintCommunity. destruct (community n) as [|c board] eqn:Hc;
      (eexists; split; [by apply emit_arrives|]); [done|].
    intros Hn Hh. exact (board_event_faithful now (nid n) session _ (c :: board) ltac:(done) Hh Hlen).
Qed.

(** The board grows as far as the slot, with empty strings. *)
Lemma pad_length board k : length (pad_board board k) = Nat.max (length board) (Z.to_nat (k + 1)).
Proof. unfold pad_board. rewrite length_app, length_replicate. lia. Qed.

Lemma pad_done board k : k < Z.of_nat (length board) → pad_board board k = board.
Proof. intros Hk. unfold pad_board. replace (_ - _)%nat with 0%nat by lia. apply app_nil_r. Qed.

Lemma pad_lookup board k :
  0 ≤ k → board !! Z.to_nat k = None ∨ board !! Z.to_nat k = Some EmptyString →
  pad_board board k !! Z.to_nat k = Some EmptyString.
Proof.
  intros Hk [Hn|Hs]; unfold pad_board; [|by apply lookup_app_l_Some].
  rewrite lookup_app, Hn. apply lookup_replicate. split; [done|]. apply lookup_ge_None in Hn. lia.
Qed.

(** A revealed card is announced once.  Recording a card in an empty slot
    sends a subscriber with room one event, which shows the board with the card
    in it; recording it again changes nothing and sends nothing. *)
Theorem card_announced_once n cardIdx card b ch buf :
  card ≠ EmptyString → communityBase n ≤ cardIdx → cardIdx - communityBase n < 2 ^ 61 → Z.of_nat (length (community n)) < 2 ^ 61 →
  community n !! Z.to_nat (cardIdx - communityBase n) = None ∨ community n !! Z.to_nat (cardIdx - communityBase n) = Some EmptyString →
  head (community n) ≠ Some EmptyString → (community n = [] → cardIdx = communityBase n) →
  subs b !! ch = Some buf → (length buf < bus_capacity)%nat →
  ∃ n' b' ev, set_community_emit n cardIdx card b = Ok (n', b') ∧
    community n' !! Z.to_nat (cardIdx - communityBase n) = Some card ∧ subs b' !! ch = Some (buf ++ [ev]) ∧
    translateBusEvent ev = CommunityCardsEvent (nid n) (revealed_prefix (community n')) ∧
    set_community_emit n' cardIdx card b' = Ok (n', b').
Proof.
  intros Hcard Hlo Hhi Hlen Hslot Hhead Hfirst Hb Hl. unfold set_community_emit, setCommunity.
  set (k := cardIdx - communityBase n) in *. set (board := pad_board (community n) k).
  assert (length board = Nat.max (length (community n)) (Z.to_nat k + 1)) as Hlb by (unfold board; rewrite pad_length; lia).
  assert (board !! Z.to_nat k = Some EmptyString) as Hold by (apply pad_lookup; [lia|done]).
  rewrite (proj2 (idx_Ok board k _)) by (split; [lia|done]). cbn [mbind res_bind]. rewrite !bool_decide_false by naive_solver.
  unfold upd at 1. rewrite decide_True by lia. cbn [mbind res_bind]. set (board' := <[Z.to_nat k := card]> board).
  assert (board' !! Z.to_nat k = Some card) as Hnew by (apply list_lookup_insert_eq; lia).
  assert (length board' = length board) as Hlb' by apply length_insert.
  exists (set_community board' n). eexists _, _. split; [done|]. split; [done|]. split; [by apply emit_arrives|]. split.
  - apply (board_event_faithful now (nid n) session _ board'); [intros E; rewrite E in Hnew; done| |lia].
    rewrite head_lookup. destruct (decide (Z.to_nat k = 0%nat)) as [E|Hne]; [rewrite E in Hnew; rewrite Hnew; congruence|].
    unfold board'. rewrite list_lookup_insert_ne by done. unfold board, pad_board.
    destruct (community n) as [|c cs] eqn:Hc; [|done]. specialize (Hfirst eq_refl). lia.
  - change (communityBase (set_community board' n)) with (communityBase n). fold k. cbn [set_community community].
    rewrite pad_done by lia. rewrite (proj2 (idx_Ok board' k card)) by (split; [lia|done]). cbn [mbind res_bind].
    by rewrite !bool_decide_true.
Qed.

End announce.

(** ** Witnesses *)

Definition told_node : Node :=
  mkNode "alice" (Deck.mkKey 5 8171) 13619 true [] ["alice"; "bob"]%string 0 "7" "21" 2000 (mkSessionConfig 0 0) ["12"; "3"]%string.

Definition told_bus : Bus := (Subscribe empty_bus).2.

Lemma cards_announced_witness :
  ∃ ev, subs (PrintCards 5 "t" told_node told_bus) !! 0%nat = Some [ev] ∧
    translateBusEvent ev = HoleCardsEvent "alice" "7" "21".
Proof.
  destruct (cards_announced 5 "t" told_node told_bus 0 []) as [(ev & Hev & Ht) _]; [reflexivity|vm_compute; lia|cbn; lia|].
  exists ev. split; [exact Hev|exact (Ht eq_refl)].
Defined.

Lemma card_announced_once_witness :
  ∃ n' b' ev, set_community_emit 5 "t" told_node 6 "40" told_bus = Ok (n', b') ∧
    subs b' !! 0%nat = Some [ev] ∧ translateBusEvent ev = CommunityCardsEvent "alice" (revealed_prefix (community n')).
Proof.
  destruct (card_announced_once 5 "t" told_node 6 "40" told_bus 0 []) as (n' & b' & ev & H1 & _ & H2 & H3 & _);
    [discriminate|vm_compute; discriminate|vm_compute; reflexivity|vm_compute; reflexivity|left; reflexivity|discriminate|discriminate|reflexivity|vm_compute; lia|].
  exists n', b', ev. split; [exact H1|]. split; [exact H2|exact H3].
Defined.
