(* ===== verification/Clean.v ===== *)
(** * Networks that clean up

    [Net] treats one protocol phase, in which hosted values stay.  Over a whole
    hand the nodes also remove what they hosted, and a removal must not
    overtake a reader.  Here every computation has a full trace of accesses
    with logical times: a key is hosted before it is polled, and a node that
    removes a key has before read something from each of its readers that the
    reader hosts only after reading the key.  [clean_correct]: then every
    interleaving ends, with every result the expected one. *)

From Stdlib Require Import ZArith Lia.
From stdpp Require Import base list gmap strings numbers relations sorting.
From S2P Require Import Prelude Ephemeral Net.

(** ** Traces *)

Inductive removal := DropKey (key : string) | DropPrefix (prefix : string).

Definition drops (d : removal) (key : string) : bool :=
  match d with
  | DropKey key' => bool_decide (key' = key)
  | DropPrefix prefix => HasPrefix key prefix
  end.

Inductive access := AHost (key : string) | APoll (targetID key : string) | ADrop (d : removal).

Section tracks.
(** [I id key v]: node [id] hosts [v] at [key]. *)
Context {A : Type} (I : string → string → list Z → Prop).

(** With every poll answered from [I], [p] makes the accesses [tr] and returns [r]. *)
Inductive tracks (id : string) : act A → list access → A → Prop :=
| tracks_ret r : tracks id (Ret r) [] r
| tracks_host key v k tr r : I id key v → tracks id k tr r → tracks id (Host key v k) (AHost key :: tr) r
| tracks_poll t key v k tr r :
    I t key v → tracks id (k (Some v)) tr r → tracks id (PollRemote t key k) (APoll t key :: tr) r
| tracks_remove key k tr r : tracks id k tr r → tracks id (Remove key k) (ADrop (DropKey key) :: tr) r
| tracks_prefix prefix k tr r :
    tracks id k tr r → tracks id (RemovePrefix prefix k) (ADrop (DropPrefix prefix) :: tr) r.

End tracks.

Definition to_access (e : event) : access :=
  match e with EPoll t key _ => APoll t key | EHost key _ => AHost key end.

(** A computation that follows a plan of [Net], and what it goes on with. *)
Lemma tracks_bind {A B} (I : string → string → list Z → Prop) id (p : act A) tr a (f : A → act B) tr' r :
  tracks I id p tr a → tracks I id (f a) tr' r → tracks I id (act_bind p f) (tr ++ tr') r.
Proof. intros Hp Hf. induction Hp; cbn; [done|econstructor; eauto..]. Qed.

Lemma follows_tracks {A} (J : string → string → list Z → nat → Prop) failed (I : string → string → list Z → Prop)
    id (p : act A) tr r :
  (∀ id key v m, J id key v m → I id key v) → follows J failed id p tr r → tracks I id p (to_access <$> tr) r.
Proof. intros HJ Hp. induction Hp; cbn; econstructor; eauto. Qed.

(** ** Timed traces of a network *)

Abbreviation timed := (list (nat * access)).

(** The accesses happen one after the other, from [lo] on and before [hi]. *)
Definition within (lo hi : nat) (tr : timed) : Prop :=
  StronglySorted lt (fst <$> tr) ∧ ∀ e, e ∈ tr → (lo ≤ e.1 < hi)%nat.

Lemma within_nil lo hi : within lo hi [].
Proof. split; [constructor|]. by intros e ?%elem_of_nil. Qed.

Lemma within_app lo mid hi tr tr' :
  within lo mid tr → within mid hi tr' → (lo ≤ mid ≤ hi)%nat → within lo hi (tr ++ tr').
Proof.
  intros [Hs Hb] [Hs' Hb'] Hle. split.
  - rewrite fmap_app. apply StronglySorted_app. split_and!; [|done|done].
    intros x y (e & -> & He)%list_elem_of_fmap (e' & -> & He')%list_elem_of_fmap.
    specialize (Hb e He). specialize (Hb' e' He'). lia.
  - intros e [He|He]%elem_of_app; [specialize (Hb e He)|specialize (Hb' e He)]; lia.
Qed.

Lemma within_one lo s hi a : (lo ≤ s < hi)%nat → within lo hi [(s, a)].
Proof. intros Hs. split; [repeat constructor|]. intros e He%list_elem_of_singleton. subst. cbn. lia. Qed.

Lemma within_weaken lo hi lo' hi' tr : within lo hi tr → (lo' ≤ lo)%nat → (hi ≤ hi')%nat → within lo' hi' tr.
Proof. intros [Hs Hb] Hl Hh. split; [done|]. intros e He. specialize (Hb e He). lia. Qed.

Lemma within_imap {B} (f : B → access) (l : list B) lo hi :
  (lo + length l ≤ hi)%nat → within lo hi (imap (λ x y, ((lo + x)%nat, f y)) l).
Proof.
  revert lo. induction l as [|y l IH]; intros lo Hl; [apply within_nil|]. rewrite imap_cons. cbn in Hl.
  rewrite Nat.add_0_r. apply (within_app lo (S lo) hi [_]); [by apply within_one; lia| |lia].
  eapply within_weaken; [|reflexivity|reflexivity].
  erewrite imap_ext; [apply (IH (S lo)); lia|]. intros x z _. cbn. f_equal. lia.
Qed.

Lemma within_length lo hi tr : within lo hi tr → (length tr ≤ hi - lo)%nat.
Proof.
  revert lo. induction tr as [|[s a] tr IH]; intros lo [Hs Hb]; [cbn; lia|]. cbn in Hs.
  apply StronglySorted_inv in Hs as [Hs Hlt]. rewrite list.Forall_forall in Hlt.
  destruct (Hb (s, a)) as [Hlo Hhi]; [left|]. cbn in Hlo, Hhi.
  assert (length tr ≤ hi - S s)%nat as Hl; [|cbn; lia]. apply IH. split; [done|]. intros e He.
  specialize (Hlt e.1 (list_elem_of_fmap_2 fst _ _ He)). destruct (Hb e) as [_ ?]; [by right|]. lia.
Qed.

Lemma imap_accesses {B} (f : B → access) (l : list B) lo :
  snd <$> imap (λ x y, ((lo + x)%nat, f y)) l = f <$> l.
Proof. rewrite fmap_imap. cbn. apply imap_const. Qed.

Lemma elem_of_timed_imap {B} (f : B → access) (l : list B) lo s a :
  (s, a) ∈ imap (λ x y, ((lo + x)%nat, f y)) l ↔ ∃ x y, l !! x = Some y ∧ s = (lo + x)%nat ∧ a = f y.
Proof. rewrite elem_of_lookup_imap. naive_solver. Qed.

Section clean.
Context {A : Type} (I : string → string → list Z → Prop).
Context (I_fun : ∀ id key v v', I id key v → I id key v' → v = v').
(** Computation [i] runs on node [ids !! i], makes the accesses [trs !! i] and
    returns [rs !! i]; it starts when all [j] with [gate j i] have returned. *)
Context (ids : list string) (trs : list timed) (rs : list A) (gate : nat → nat → Prop).

(** Computation [j]'s removal at [z] of a key that [i] polls at [s]: before it,
    [j] reads a key that [i] hosts only after [s]. *)
Definition awaited (tri trj : timed) (idi : string) (s z : nat) : Prop :=
  ∃ key z' x, (z', APoll idi key) ∈ trj ∧ (z' < z)%nat ∧ (x, AHost key) ∈ tri ∧ (s < x)%nat.

(** On a node a key belongs to one computation, which hosts it once and is the
    only one to remove it. *)
Record clean : Prop := {
  cl_sorted : ∀ tr, tr ∈ trs → StronglySorted lt (fst <$> tr);
  cl_once : ∀ i j tri trj id key s s', trs !! i = Some tri → trs !! j = Some trj → ids !! i = Some id → ids !! j = Some id →
    (s, AHost key) ∈ tri → (s', AHost key) ∈ trj → i = j ∧ s = s';
  cl_own : ∀ i j tri trj id key h z d, trs !! i = Some tri → trs !! j = Some trj → ids !! i = Some id → ids !! j = Some id →
    (h, AHost key) ∈ tri → (z, ADrop d) ∈ trj → drops d key = true → i = j;
  cl_gate : ∀ i j tri trj e e', gate j i → trs !! i = Some tri → trs !! j = Some trj → e ∈ tri → e' ∈ trj → (e'.1 < e.1)%nat;
  cl_poll : ∀ i tri idi s t key, trs !! i = Some tri → ids !! i = Some idi → (s, APoll t key) ∈ tri →
    ∃ j trj h, ids !! j = Some t ∧ trs !! j = Some trj ∧ (h, AHost key) ∈ trj ∧ (h < s)%nat ∧
      ∀ z d, (z, ADrop d) ∈ trj → drops d key = true → (h < z)%nat → awaited tri trj idi s z;
}.

(** How far the computations are: what each has done and what is left. *)
Definition split_at (tr : timed) (pr : timed * timed) : Prop := pr.1 ++ pr.2 = tr.

(** A key that was hosted on node [id] and not removed since. *)
Definition live (prs : list (timed * timed)) (id key : string) : Prop :=
  ∃ i pr h, ids !! i = Some id ∧ prs !! i = Some pr ∧ (h, AHost key) ∈ pr.1 ∧
    ∀ z d, (z, ADrop d) ∈ pr.1 → drops d key = true → (z < h)%nat.

Record clean_inv (n : net A) (prs : list (timed * timed)) : Prop := {
  ci_len : length (procs n) = length ids;
  ci_split : Forall2 split_at trs prs;
  ci_procs : ∀ i id p pr r, procs n !! i = Some (id, p) → prs !! i = Some pr → rs !! i = Some r →
    ids !! i = Some id ∧ tracks I id p (snd <$> pr.2) r;
  ci_stores : ∀ id key v, id ∈ ids →
    Get (store_of (stores n) id) key = Some v ↔ I id key v ∧ live prs id key;
  ci_polled : ∀ j prj s t key, prs !! j = Some prj → (s, APoll t key) ∈ prj.1 →
    ∃ i pri h, ids !! i = Some t ∧ prs !! i = Some pri ∧ (h, AHost key) ∈ pri.1;
}.

Context (Hclean : clean) (Hlen : length trs = length ids) (Hres : length rs = length ids).

Lemma split_before i prs pr e e' :
  Forall2 split_at trs prs → prs !! i = Some pr → e ∈ pr.1 → e' ∈ pr.2 → (e.1 < e'.1)%nat.
Proof using Hclean.
  intros Hs Hi He He'. destruct (Forall2_lookup_r _ _ _ _ _ Hs Hi) as (tr & Htr & <-).
  pose proof (cl_sorted Hclean _ (list_elem_of_lookup_2 _ _ _ Htr)) as Hsort. rewrite fmap_app in Hsort.
  eapply StronglySorted_app_1_elem_of; [exact Hsort|by apply list_elem_of_fmap_2..].
Qed.

(** The done part is part of the trace. *)
Lemma done_in_trace prs i pr e :
  Forall2 split_at trs prs → prs !! i = Some pr → e ∈ pr.1 → ∃ tr, trs !! i = Some tr ∧ e ∈ tr.
Proof.
  intros Hs Hi He. destruct (Forall2_lookup_r _ _ _ _ _ Hs Hi) as (tr & Htr & <-). exists (pr.1 ++ pr.2).
  split; [done|]. apply elem_of_app. by left.
Qed.

(** What an access does to the node's own store. *)
Definition drop_store (d : removal) (s : Store) : Store :=
  match d with DropKey key => Delete s key | DropPrefix prefix => DeletePrefix s prefix end.

Lemma Get_drop d s key : Get (drop_store d s) key = if drops d key then None else Get s key.
Proof.
  unfold Get. destruct d as [key'|prefix]; cbn [drop_store drops].
  - unfold Delete. case_bool_decide; [subst; apply lookup_delete_eq|by apply lookup_delete_ne].
  - unfold DeletePrefix. destruct (HasPrefix key prefix) eqn:E.
    + apply map_lookup_filter_None. right. cbn. congruence.
    + destruct (s !! key) eqn:Es; [by apply map_lookup_filter_Some|]. apply map_lookup_filter_None. by left.
Qed.

(** The steps, with the access they make. *)
Inductive does (n : net A) (i : nat) (id : string) : act A → access → gmap string Store → act A → Prop :=
| does_host key v k : does n i id (Host key v k) (AHost key) (<[id := Put (store_of (stores n) id) key v]> (stores n)) k
| does_poll t key k v :
    Get (store_of (stores n) t) key = Some v → does n i id (PollRemote t key k) (APoll t key) (stores n) (k (Some v))
| does_remove key k :
    does n i id (Remove key k) (ADrop (DropKey key))
      (<[id := drop_store (DropKey key) (store_of (stores n) id)]> (stores n)) k
| does_prefix prefix k :
    does n i id (RemovePrefix prefix k) (ADrop (DropPrefix prefix))
      (<[id := drop_store (DropPrefix prefix) (store_of (stores n) id)]> (stores n)) k.

Lemma net_step_does n n' :
  net_step n n' → ∃ i id p a ss k, procs n !! i = Some (id, p) ∧ does n i id p a ss k ∧
    n' = mkNet ss (<[i := (id, k)]> (procs n)).
Proof.
  intros [m i id key v k Hp|m i id t key k v Hp Hv|m i id key k Hp|m i id prefix k Hp]; exists i, id;
    eexists _, _, _, _; (split; [exact Hp|]); (split; [by constructor|done]).
Qed.

(** Computation [i] takes the next access. *)
Definition step_at (i : nat) (n n' : net A) : Prop :=
  ∃ id p a ss k, procs n !! i = Some (id, p) ∧ does n i id p a ss k ∧ n' = mkNet ss (<[i := (id, k)]> (procs n)).

Lemma does_step n i id p a ss k :
  procs n !! i = Some (id, p) → does n i id p a ss k → net_step n (mkNet ss (<[i := (id, k)]> (procs n))).
Proof.
  intros Hp Hd. destruct Hd; [by eapply step_host|by eapply step_poll|by eapply step_remove|by eapply step_remove_prefix].
Qed.

Lemma net_step_at n n' : net_step n n' ↔ ∃ i, step_at i n n'.
Proof.
  split.
  - intros (i & id & p & a & ss & k & H)%net_step_does. exists i, id, p, a, ss, k. exact H.
  - intros (i & id & p & a & ss & k & Hp & Hd & ->). by eapply does_step.
Qed.

Definition left_over (prs : list (timed * timed)) : nat := sum_list ((λ pr, length pr.2) <$> prs).

Lemma inv_lookup n prs i id p :
  clean_inv n prs → procs n !! i = Some (id, p) →
  ∃ pr r, prs !! i = Some pr ∧ rs !! i = Some r ∧ ids !! i = Some id ∧ tracks I id p (snd <$> pr.2) r.
Proof using Hlen Hres.
  intros Hinv Hp. pose proof (lookup_lt_Some _ _ _ Hp) as Hlt. rewrite (ci_len _ _ Hinv) in Hlt.
  destruct (lookup_lt_is_Some_2 prs i) as [pr Hpr].
  { rewrite <- (Forall2_length _ _ _ (ci_split _ _ Hinv)). lia. }
  destruct (lookup_lt_is_Some_2 rs i) as [r Hr]; [lia|].
  exists pr, r. split_and!; [done..| |]; by apply (ci_procs _ _ Hinv _ _ _ _ _ Hp Hpr Hr).
Qed.

(** A step of computation [i] on node [id], as far as live keys go. *)
Lemma live_grow prs i id pre s a rem rem' id' key :
  ids !! i = Some id → prs !! i = Some (pre, rem) →
  (∀ e, e ∈ pre → (e.1 < s)%nat) → (id' = id → a ≠ AHost key) →
  (∀ d, id' = id → a = ADrop d → drops d key = false) →
  live (<[i := (pre ++ [(s, a)], rem')]> prs) id' key ↔ live prs id' key.
Proof.
  intros Hid Hpr Hlt Hhost Hdrop. pose proof (lookup_lt_Some _ _ _ Hpr) as Hl. split.
  - intros (j & pr & h & Hj & Hprj & Hh & Hall). destruct (decide (j = i)) as [->|Hne].
    + rewrite list_lookup_insert_eq in Hprj by done. simplify_eq. cbn in Hh, Hall.
      apply elem_of_app in Hh as [Hh|[= _ Ha]%list_elem_of_singleton]; [|by destruct (Hhost eq_refl)].
      exists i, (pre, rem), h. split_and!; [done..|]. intros z d Hz. apply Hall, elem_of_app. by left.
    + rewrite list_lookup_insert_ne in Hprj by done. by exists j, pr, h.
  - intros (j & pr & h & Hj & Hprj & Hh & Hall). destruct (decide (j = i)) as [->|Hne].
    + simplify_eq. exists i, (pre ++ [(s, a)], rem'), h. rewrite list_lookup_insert_eq by done. cbn.
      split_and!; [done|done|apply elem_of_app; by left|].
      intros z d [Hz|[= -> Ha]%list_elem_of_singleton]%elem_of_app Hd; [by eapply Hall|].
      rewrite (Hdrop d) in Hd by done. done.
    + exists j, pr, h. by rewrite list_lookup_insert_ne.
Qed.

Lemma does_other n i id p a ss k id' :
  does n i id p a ss k → id' ≠ id → store_of ss id' = store_of (stores n) id'.
Proof. intros Hd Hne. destruct Hd; unfold store_of; by rewrite ?lookup_insert_ne. Qed.

(** The stores after an access. *)
Lemma does_stores n i id p a ss k prs pre s rem rem' :
  clean_inv n prs → does n i id p a ss k → ids !! i = Some id → prs !! i = Some (pre, (s, a) :: rem) →
  (∀ key v, AHost key = a → Get (store_of ss id) key = Some v ↔ I id key v) →
  ∀ id' key v, id' ∈ ids →
    Get (store_of ss id') key = Some v ↔ I id' key v ∧ live (<[i := (pre ++ [(s, a)], rem')]> prs) id' key.
Proof using I_fun Hclean Hlen Hres.
  intros Hinv Hd Hid Hpr Hhost id' key v Hin. pose proof (lookup_lt_Some _ _ _ Hpr) as Hl.
  assert (∀ e, e ∈ pre → (e.1 < s)%nat) as Hlt.
  { intros e He. apply (split_before i prs (pre, (s, a) :: rem) e (s, a) (ci_split _ _ Hinv) Hpr); [done|left]. }
  destruct (decide (id' = id)) as [->|Hne].
  2: { rewrite (does_other _ _ _ _ _ _ _ id' Hd Hne), (ci_stores _ _ Hinv id' key v Hin).
       by rewrite (live_grow prs i id pre s a _ rem' id' key Hid Hpr). }
  destruct a as [key'|t key'|d].
  - destruct (decide (key = key')) as [->|Hk].
    + rewrite Hhost by done. split; [|by intros [? _]]. intros HI. split; [done|].
      exists i, (pre ++ [(s, AHost key')], rem'), s. rewrite list_lookup_insert_eq by done. cbn.
      split_and!; [done|done|apply elem_of_app; right; left|].
      intros z d [Hz|[=]%list_elem_of_singleton]%elem_of_app _. exact (Hlt _ Hz).
    + assert (Get (store_of ss id) key = Get (store_of (stores n) id) key) as ->.
      { inversion Hd; subst. unfold store_of at 1. rewrite lookup_insert_eq. unfold Get, Put. cbn. by rewrite lookup_insert_ne. }
      rewrite (ci_stores _ _ Hinv id key v Hin). rewrite (live_grow prs i id pre s _ _ rem' id key Hid Hpr Hlt); [done|congruence|done].
  - assert (ss = stores n) as -> by (by inversion Hd). rewrite (ci_stores _ _ Hinv id key v Hin).
    by rewrite (live_grow prs i id pre s _ _ rem' id key Hid Hpr Hlt).
  - assert (Get (store_of ss id) key = Get (drop_store d (store_of (stores n) id)) key) as ->.
    { inversion Hd; subst; unfold store_of at 1; by rewrite lookup_insert_eq. }
    rewrite Get_drop. destruct (drops d key) eqn:Hdr.
    + split; [done|]. intros (_ & j & pr & h & Hj & Hprj & Hh & Hall). exfalso.
      destruct (Forall2_lookup_r _ _ _ _ _ (ci_split _ _ Hinv) Hpr) as (tri & Htri & Hspi).
      assert (j = i) as ->.
      { assert (∃ tr, trs !! j = Some tr ∧ (h, AHost key) ∈ tr) as (trj & Htrj & Hhj).
        { destruct (decide (j = i)) as [->|Hne].
          - rewrite list_lookup_insert_eq in Hprj by done. simplify_eq. cbn in Hh.
            apply elem_of_app in Hh as [Hh|[=]%list_elem_of_singleton].
            by apply (done_in_trace prs i _ _ (ci_split _ _ Hinv) Hpr).
          - rewrite list_lookup_insert_ne in Hprj by done. by apply (done_in_trace prs j _ _ (ci_split _ _ Hinv) Hprj). }
        eapply (cl_own Hclean j i trj tri id key h s d); try done. rewrite <- Hspi. apply elem_of_app. right. left. }
      rewrite list_lookup_insert_eq in Hprj by done. simplify_eq. cbn in Hh, Hall.
      assert (s < h)%nat by (eapply Hall; [apply elem_of_app; right; left|done]).
      apply elem_of_app in Hh as [Hh|[=]%list_elem_of_singleton]. specialize (Hlt _ Hh). cbn in Hlt. lia.
    + rewrite (ci_stores _ _ Hinv id key v Hin). rewrite (live_grow prs i id pre s _ _ rem' id key Hid Hpr Hlt); [done|done|].
      by intros d' _ [= <-].
Qed.

(** The node of a polled key. *)
Lemma polled_node prs i id pre s t key rem :
  Forall2 split_at trs prs → ids !! i = Some id → prs !! i = Some (pre, (s, APoll t key) :: rem) → t ∈ ids.
Proof using Hclean.
  intros Hs Hid Hpr. destruct (Forall2_lookup_r _ _ _ _ _ Hs Hpr) as (tr & Htri & <-).
  destruct (cl_poll Hclean i _ id s t key Htri Hid) as (j & trj & h & Hj & _); [apply elem_of_app; right; left|].
  by eapply list_elem_of_lookup_2.
Qed.

(** The next access is the one of the trace. *)
Lemma does_tracks n i id p a ss k prs pre rem r :
  clean_inv n prs → ids !! i = Some id → prs !! i = Some (pre, rem) → does n i id p a ss k → tracks I id p (snd <$> rem) r →
  ∃ s rem', rem = (s, a) :: rem' ∧ tracks I id k (snd <$> rem') r ∧
    (∀ key v, AHost key = a → Get (store_of ss id) key = Some v ↔ I id key v) ∧
    ∀ t key, APoll t key = a → ∃ v, Get (store_of (stores n) t) key = Some v.
Proof using I_fun Hclean.
  intros Hinv Hid Hpr Hd Htr.
  destruct rem as [|[s a'] rem']; cbn in Htr; [by inversion Htr; subst; inversion Hd|]. exists s, rem'.
  destruct Hd as [key v k|t key k v Hg|key k|prefix k]; inversion Htr; subst; split_and!; try done.
  - intros key' v' [= ->]. unfold store_of at 1. rewrite lookup_insert_eq. unfold Get, Put. cbn. rewrite lookup_insert_eq.
    split; [by intros [= <-]|]. intros. f_equal. by eapply I_fun.
  - assert (v0 = v) as ->; [|done]. eapply I_fun; [done|].
    pose proof (polled_node prs i id pre s t key rem' (ci_split _ _ Hinv) Hid Hpr) as Ht.
    exact (proj1 (proj1 (ci_stores _ _ Hinv t key v Ht) Hg)).
  - intros t' key' [= -> ->]. eauto.
Qed.

Lemma clean_step n prs n' :
  clean_inv n prs → net_step n n' → ∃ prs', clean_inv n' prs' ∧ left_over prs = S (left_over prs').
Proof using I_fun Hclean Hlen Hres.
  intros Hinv (i & id & p & a & ss & k & Hp & Hd & ->)%net_step_does.
  destruct (inv_lookup n prs i id p Hinv Hp) as ([pre rem] & r & Hpr & Hr & Hid & Htr). cbn in Htr.
  destruct (does_tracks n i id p a ss k prs pre rem r Hinv Hid Hpr Hd Htr) as (s & rem' & -> & Htr' & Hhost & Hpoll).
  pose proof (lookup_lt_Some _ _ _ Hpr) as Hlt. pose proof (lookup_lt_Some _ _ _ Hp) as Hlp.
  exists (<[i := (pre ++ [(s, a)], rem')]> prs). split.
  - constructor; cbn [stores procs].
    + rewrite length_insert. apply Hinv.
    + destruct (Forall2_lookup_r _ _ _ _ _ (ci_split _ _ Hinv) Hpr) as (tr & Htri & Hsp).
      rewrite <- (list_insert_id trs i tr) by done. apply Forall2_insert; [apply Hinv|].
      unfold split_at in *. cbn in *. by rewrite <- app_assoc.
    + intros i' id' p' pr' r' Hp' Hpr' Hr'. destruct (decide (i' = i)) as [->|Hne].
      * rewrite list_lookup_insert_eq in Hp' by done. rewrite list_lookup_insert_eq in Hpr' by done. simplify_eq. done.
      * rewrite list_lookup_insert_ne in Hp' by done. rewrite list_lookup_insert_ne in Hpr' by done. by apply (ci_procs _ _ Hinv i' id' p' pr' r').
    + by eapply does_stores.
    + assert (∀ j key h prj, prs !! j = Some prj → (h, AHost key) ∈ prj.1 →
        ∃ prj', <[i := (pre ++ [(s, a)], rem')]> prs !! j = Some prj' ∧ (h, AHost key) ∈ prj'.1) as Hgrow.
      { intros j key h prj Hj Hh. destruct (decide (j = i)) as [->|Hne].
        - simplify_eq. rewrite list_lookup_insert_eq by done. eexists. split; [done|]. apply elem_of_app. by left.
        - rewrite list_lookup_insert_ne by done. by exists prj. }
      intros j prj z t key Hprj Hpo.
      assert (∃ j' pri h, ids !! j' = Some t ∧ prs !! j' = Some pri ∧ (h, AHost key) ∈ pri.1) as (j' & pri & h & Hj' & Hpri & Hh).
      { destruct (decide (j = i)) as [->|Hne].
        - rewrite list_lookup_insert_eq in Hprj by done. simplify_eq. cbn in Hpo.
          apply elem_of_app in Hpo as [Hpo|[= -> Ha]%list_elem_of_singleton]; [by eapply (ci_polled _ _ Hinv i)|].
          destruct (Hpoll t key Ha) as [v Hv]. subst a.
          apply (ci_stores _ _ Hinv) in Hv as (_ & j & pr & h & Hj & Hprj & Hh & _); [by exists j, pr, h|].
          by eapply (polled_node prs i id pre s t key rem' (ci_split _ _ Hinv)).
        - rewrite list_lookup_insert_ne in Hprj by done. by eapply (ci_polled _ _ Hinv j). }
      destruct (Hgrow j' key h pri Hpri Hh) as (pri' & ? & ?). by exists j', pri', h.
  - unfold left_over. pose proof (sum_list_insert (λ pr : timed * timed, length pr.2) prs i _ (pre ++ [(s, a)], rem') Hpr) as Hsum.
    cbn [snd length] in Hsum. lia.
Qed.

Lemma time_inj tr s a b : tr ∈ trs → (s, a) ∈ tr → (s, b) ∈ tr → a = b.
Proof using Hclean.
  intros Htr [x Hx]%list_elem_of_lookup_1 [y Hy]%list_elem_of_lookup_1.
  assert (NoDup (fst <$> tr)) as Hn.
  { pose proof (cl_sorted Hclean _ Htr) as Hs. induction Hs as [|z l Hs IH Hz]; constructor; [|done].
    intros Hin. rewrite list.Forall_forall in Hz. by destruct (Nat.lt_irrefl z (Hz z Hin)). }
  assert (x = y) as ->; [|congruence].
  apply (NoDup_lookup _ x y s Hn); by rewrite list_lookup_fmap, ?Hx, ?Hy.
Qed.

(** A key that its host has hosted is still there when a reader is about to
    poll it. *)
Lemma still_hosted n prs i id pri s rem j t prj h key v :
  clean_inv n prs → ids !! i = Some id → prs !! i = Some (pri, (s, APoll t key) :: rem) →
  ids !! j = Some t → prs !! j = Some prj → (h, AHost key) ∈ prj.1 → I t key v →
  (∀ z d, (z, ADrop d) ∈ prj.1 ++ prj.2 → drops d key = true → (h < z)%nat →
     awaited (pri ++ (s, APoll t key) :: rem) (prj.1 ++ prj.2) id s z) →
  Get (store_of (stores n) t) key = Some v.
Proof using Hclean Hlen Hres.
  intros Hinv Hid Hpri Ht Hprj Hh HI Haw.
  apply (ci_stores _ _ Hinv t key v); [by eapply list_elem_of_lookup_2|]. split; [done|]. exists j, prj, h.
  split_and!; [done..|]. intros z d Hz Hd.
  destruct (Forall2_lookup_r _ _ _ _ _ (ci_split _ _ Hinv) Hprj) as (trj & Htj & Hsj). unfold split_at in Hsj.
  destruct (Forall2_lookup_r _ _ _ _ _ (ci_split _ _ Hinv) Hpri) as (tri & Hti & Hsi). cbn in Hsi.
  destruct (decide (z < h)%nat) as [|Hge]; [done|exfalso]. destruct (decide (z = h)) as [->|Hne].
  { discriminate (time_inj trj h (AHost key) (ADrop d)); [by eapply list_elem_of_lookup_2|rewrite <- Hsj; apply elem_of_app; by left..]. }
  destruct (Haw z d) as (key' & z' & x & Hpo & Hlt & Hx & Hsx); [apply elem_of_app; by left|done|lia|].
  assert ((z', APoll id key') ∈ prj.1) as Hpo'.
  { apply elem_of_app in Hpo as [Hpo|Hpo]; [done|].
    pose proof (split_before j prs prj _ _ (ci_split _ _ Hinv) Hprj Hz Hpo) as Hlt'. cbn in Hlt'. lia. }
  destruct (ci_polled _ _ Hinv j prj z' id key' Hprj Hpo') as (i' & pri' & h' & Hi' & Hpri' & Hh').
  destruct (done_in_trace prs i' pri' _ (ci_split _ _ Hinv) Hpri' Hh') as (tri' & Hti' & Hin').
  rewrite Hsi in Hx. destruct (cl_once Hclean i i' tri tri' id key' x h' Hti Hti' Hid Hi' Hx Hin') as [<- <-]. simplify_eq.
  pose proof (split_before i prs _ (x, AHost key') (s, APoll t key) (ci_split _ _ Hinv) Hpri Hh') as Hlt'.
  cbn in Hlt'. assert (x < s)%nat; [apply Hlt'; left|lia].
Qed.

(** A computation without accesses left has returned. *)
Lemma clean_finished n prs i pre : clean_inv n prs → prs !! i = Some (pre, []) → ∃ r, rs !! i = Some r ∧ finished n i r.
Proof using Hlen Hres.
  intros Hinv Hpr. assert (i < length ids)%nat as Hi.
  { rewrite <- Hlen, (Forall2_length _ _ _ (ci_split _ _ Hinv)). by eapply lookup_lt_Some. }
  destruct (lookup_lt_is_Some_2 (procs n) i) as [[id p] Hp]; [by rewrite (ci_len _ _ Hinv)|].
  destruct (inv_lookup n prs i id p Hinv Hp) as (pr' & r & Hpr' & Hr & _ & Htr). simplify_eq. cbn in Htr.
  exists r. split; [done|]. inversion Htr; subst. by exists id.
Qed.

Definition next_before (s : nat) (pr : timed * timed) : bool :=
  match pr.2 with (s', _) :: _ => (s' <? s)%nat | [] => false end.

(** As long as accesses are left, some computation that may run can go on. *)
Lemma clean_next n prs : clean_inv n prs → ∀ s i pre a rem,
  prs !! i = Some (pre, (s, a) :: rem) → ∃ j n', step_at j n n' ∧ ∀ j', gate j' j → (j' < length ids)%nat → ∃ r, finished n j' r.
Proof using Hclean Hlen Hres.
  intros Hinv s. induction (lt_wf s) as [s _ IH]. intros i pre a rem Hpr.
  destruct (Forall2_lookup_r _ _ _ _ _ (ci_split _ _ Hinv) Hpr) as (tri & Htri & Hspi).
  assert (i < length ids)%nat as Hi by (rewrite <- Hlen; by eapply lookup_lt_Some).
  destruct (decide (Exists (λ pr, next_before s pr = true) prs)) as [Hex|Hno].
  { apply list.Exists_exists in Hex as ([pre' [|[s' a'] rem']] & [j Hj]%list_elem_of_lookup_1 & Hlt); [done|].
    apply Nat.ltb_lt in Hlt. by apply (IH s' Hlt j pre' a' rem'). }
  assert (∀ j pre' s' a' rem', prs !! j = Some (pre', (s', a') :: rem') → (s ≤ s')%nat) as Hmin.
  { intros j pre' s' a' rem' Hj. destruct (decide (s' < s)%nat) as [Hlt|]; [|lia]. destruct Hno.
    apply list.Exists_exists. eexists. split; [by eapply list_elem_of_lookup_2|]. by apply Nat.ltb_lt. }
  assert (∀ j', gate j' i → (j' < length ids)%nat → ∃ r, finished n j' r) as Hgates.
  { intros j' Hg Hj'. destruct (lookup_lt_is_Some_2 prs j') as [[pre' [|[s' a'] rem']] Hpr'].
    { by rewrite <- (Forall2_length _ _ _ (ci_split _ _ Hinv)), Hlen. }
    - destruct (clean_finished n prs j' pre' Hinv Hpr') as (r & _ & ?). by exists r.
    - destruct (Forall2_lookup_r _ _ _ _ _ (ci_split _ _ Hinv) Hpr') as (trj & Htrj & Hspj).
      pose proof (cl_gate Hclean i j' tri trj (s, a) (s', a') Hg Htri Htrj) as Hlt. cbn in Hlt, Hspi, Hspj.
      pose proof (Hmin j' pre' s' a' rem' Hpr'). rewrite <- Hspi, <- Hspj in Hlt.
      assert (s' < s)%nat; [|lia]. apply Hlt; apply elem_of_app; right; left. }
  destruct (lookup_lt_is_Some_2 (procs n) i) as [[id p] Hp]; [by rewrite (ci_len _ _ Hinv)|].
  destruct (inv_lookup n prs i id p Hinv Hp) as (pr' & r & Hpr' & _ & Hid & Htr). rewrite Hpr in Hpr'.
  injection Hpr' as <-. cbn in Htr. exists i. cut (∃ n', step_at i n n'); [intros [n' Hn']; by exists n'|].
  inversion Htr as [|key v k tr r' HI Htr' Heq|t key v k tr r' HI Htr' Heq|key k tr r' Htr' Heq|prefix k tr r' Htr' Heq]; subst;
    try (eexists _, id, _, _, _, _; (split; [exact Hp|]); (split; [by constructor|done])).
  destruct (cl_poll Hclean i _ id s t key Htri Hid) as (j & trj & h & Ht & Htj & Hh & Hhs & Haw).
  { rewrite <- Hspi. apply elem_of_app. right. left. }
  destruct (Forall2_lookup_l _ _ _ _ _ (ci_split _ _ Hinv) Htj) as (prj & Hprj & Hsp). rewrite <- Hsp in Hh, Haw.
  apply elem_of_app in Hh as [Hh|Hh].
  - eexists _, id, _, _, _, _. split; [exact Hp|]. split; [|done]. constructor. rewrite <- Hspi in Haw.
    by apply (still_hosted n prs i id pre s rem j t prj h key v).
  - exfalso. destruct prj as [prej [|[s' a'] remj]]; [by apply elem_of_nil in Hh|].
    pose proof (Hmin j prej s' a' remj Hprj) as Hle.
    apply elem_of_cons in Hh as [[= <- _]|Hh]; [lia|].
    assert (StronglySorted lt (fst <$> trj)) as Hs by (apply (cl_sorted Hclean); by eapply list_elem_of_lookup_2).
    rewrite <- Hsp, fmap_app in Hs. apply StronglySorted_app_1_r in Hs. cbn in Hs.
    apply StronglySorted_inv in Hs as [_ Hs]. rewrite list.Forall_forall in Hs.
    enough (s' < h)%nat by lia. apply Hs. by apply (list_elem_of_fmap_2 fst remj (h, AHost key)).
Qed.

Lemma clean_start ps :
  length ps = length ids →
  (∀ i id p tr r, ps !! i = Some (id, p) → trs !! i = Some tr → rs !! i = Some r →
     ids !! i = Some id ∧ tracks I id p (snd <$> tr) r) →
  clean_inv (mkNet ∅ ps) ((λ tr, ([], tr)) <$> trs).
Proof.
  intros Hps Htr. constructor; cbn [stores procs].
  - done.
  - apply Forall2_fmap_r, Forall_Forall2_diag, list.Forall_forall. done.
  - intros i id p pr r Hp Hpr Hr. rewrite list_lookup_fmap in Hpr. destruct (trs !! i) as [tr|] eqn:Hi; [|done].
    injection Hpr as <-. by eapply Htr.
  - intros id key v _. unfold store_of, Get. rewrite lookup_empty. cbn. rewrite lookup_empty. split; [done|].
    intros (_ & i & pr & h & _ & Hpr & Hh & _).
    rewrite list_lookup_fmap in Hpr. destruct (trs !! i) as [tr|]; [|done]. injection Hpr as <-. by apply elem_of_nil in Hh.
  - intros j prj s t key Hprj Hpo. rewrite list_lookup_fmap in Hprj.
    destruct (trs !! j) as [tr|]; [|done]. injection Hprj as <-. by apply elem_of_nil in Hpo.
Qed.

Lemma left_over_start : left_over ((λ tr, ([], tr)) <$> trs) = sum_list (length <$> trs).
Proof. unfold left_over. by rewrite <- list_fmap_compose. Qed.

Lemma clean_result n prs i r r' : clean_inv n prs → finished n i r → rs !! i = Some r' → r = r'.
Proof using Hlen Hres.
  intros Hinv [id Hfin] Hr'. destruct (inv_lookup n prs i id _ Hinv Hfin) as (pr & r0 & _ & Hr0 & _ & Ht).
  simplify_eq. by inversion Ht.
Qed.

(** Every interleaving is bounded, and one that cannot go on has produced
    every expected result. *)
Lemma clean_correct ps k n :
  length ps = length ids →
  (∀ i id p tr r, ps !! i = Some (id, p) → trs !! i = Some tr → rs !! i = Some r →
     ids !! i = Some id ∧ tracks I id p (snd <$> tr) r) →
  nsteps net_step k (mkNet ∅ ps) n →
  (k ≤ sum_list (length <$> trs))%nat ∧
  (∀ i r r', finished n i r → rs !! i = Some r' → r = r') ∧
  ((∀ n', ¬ net_step n n') → ∀ i r, rs !! i = Some r → finished n i r).
Proof using I_fun Hclean Hlen Hres.
  intros Hps Htr Hrun. pose proof (clean_start ps Hps Htr) as H0.
  assert (∃ prs, clean_inv n prs ∧ (k + left_over prs = left_over ((λ tr, ([], tr)) <$> trs))%nat) as (prs & Hinv & Hk).
  { revert H0. generalize ((λ tr : timed, ([] : timed, tr)) <$> trs) as prs0.
    induction Hrun as [n0|k n0 n1 n2 Hs _ IH]; intros prs0 H0; [by exists prs0|].
    destruct (clean_step n0 prs0 n1 H0 Hs) as (prs1 & H1 & Hl). destruct (IH prs1 H1) as (prs & ? & ?).
    exists prs. split; [done|lia]. }
  rewrite left_over_start in Hk. split_and!; [lia|by intros i r r'; apply (clean_result n prs)|].
  intros Hstuck i r Hr. destruct (lookup_lt_is_Some_2 prs i) as [[pre [|[s a] rem]] Hpr].
  { rewrite <- (Forall2_length _ _ _ (ci_split _ _ Hinv)), Hlen, <- Hres. by eapply lookup_lt_Some. }
  - destruct (clean_finished n prs i pre Hinv Hpr) as (r' & Hr' & Hf). by simplify_eq.
  - destruct (clean_next n prs Hinv s i pre a rem Hpr) as (j & n' & Hn' & _). destruct (Hstuck n'). apply net_step_at. by exists j.
Qed.

End clean.
