(* ===== verification/Hand.v ===== *)
(** * A whole hand at a table

    All seats run the loop of [Run] over the rounds of a hand: attempts,
    clean-up after each commit, and the community reveals between the streets.
    Unlike [RoundNet] the stores are cleaned up while slower seats still read,
    so the traces carry times and the argument is that of [Clean]. *)

From Stdlib Require Import ZArith Lia Ascii.
From stdpp Require Import base list gmap strings numbers relations sorting.
From S2P Require Import Prelude Runtime Strconv Ephemeral Deck DeckProofs Net Peer PeerProofs PeerProps Showdown.
From S2P Require Import GameState GameStateProofs GameLog GameLogProofs GameLogProps Runner RunnerProofs RoundNet.
From S2P Require Import Clean.

#[local] Open Scope Z_scope.

(** A round: the log before it, the seat whose turn it is, the entry it signs. *)
Record round := mkRound { hr_log : Log; hr_seat : nat; hr_entry : Entry }.

Definition street_of (l : Log) : Z := match Log_Replay l with Ok s => Street s | _ => StreetPreflop end.

(** The board cards that are out on a street. *)
Definition board_size (street : Z) : nat :=
  if street =? StreetPreflop then 0%nat
  else if street =? StreetFlop then 3%nat
  else if street =? StreetTurn then 4%nat
  else 5%nat.

Definition shown (l : Log) : nat := board_size (street_of l).

Section hand.
Context `{C : SigScheme} `{L : !SigLaws C} `{CE : Codec Entry} `{EL : !EntryCodecLaws} `{CR : Codec VerifyReceipt}.
Context (SC : nat → Schedule) (ids : list string) (ks : list Key) (pts : list bytes) (own : nat → Node).
Context (sks : nat → list Z) (envs : nat → Env).

Abbreviation n := (length ids).
Abbreviation board := (board_node ids ks PRIME PRIME_prime pts own).

(** ** The hand that is played

    Every round the seat whose turn it is submits a legal action before the
    first attempt's deadline; a fold ends the hand. *)
Inductive hand_from : Log → list round → Log → Prop :=
| hand_ends l s : Log_Replay l = Ok s → HandOver s = true → hand_from l [] l
| hand_goes_on l s q a e rds l' :
    Log_Replay l = Ok s → HandOver s = false → ExpectedNextPlayer l = Ok (Z.of_nat q) →
    action_wf a → ValidateAction s (Z.of_nat q) a = Ok tt → BuildProposal l (Z.of_nat q) a (sks q) = Ok e →
    head (received (envs q) (Log_RoundID l) 0) = Some a →
    (Kind a = ActionFold → rds = []) →
    hand_from (Append l e) rds l' → hand_from l (mkRound l q e :: rds) l'.

(** ** The accesses of seat [i], with their times *)

Definition attempt_timed (T i : nat) (rd : round) : timed :=
  let rid := Log_RoundID (hr_log rd) in
  [if decide (i = hr_seat rd) then (T, AHost (ProposalKey rid 0))
   else ((T + 1)%nat, APoll (ids !!! hr_seat rd) (ProposalKey rid 0))]
  ++ [((T + 2)%nat, AHost (VerifyKey rid 0 (ids !!! i)))]
  ++ imap (λ x t, ((T + 3 + x)%nat, APoll t (VerifyKey rid 0 t))) (polled SC ids (hr_log rd) (hr_entry rd) i).

Definition cleanup_timed (T i : nat) (rd : round) : timed :=
  let rid := Log_RoundID (hr_log rd) in
  [(T, ADrop (DropKey (ProposalKey rid 0)))]
  ++ imap (λ x id, ((T + 1 + x)%nat, ADrop (DropKey (VerifyKey rid 0 id)))) (filter (λ id, id ≠ ids !!! i) ids)
  ++ if 0 <? rid then [((T + 1 + n)%nat, ADrop (DropPrefix (RoundPrefix (rid - 1))));
                       ((T + 2 + n)%nat, ADrop (DropPrefix (AutoFoldPrefix (rid - 1))))] else [].

Abbreviation base := (2 * n)%nat.
Abbreviation relay_key t i := (CommunityRelayKey (Z.of_nat (base + t)) (Z.of_nat i)).
Abbreviation card_key t := (CommunityCardKey (Z.of_nat (base + t))).

Definition reveal_timed (T i t : nat) : timed :=
  (if decide (i = 0%nat) then [] else [((T + 2 * i)%nat, APoll (ids !!! (i - 1)%nat) (relay_key t (i - 1)%nat))])
  ++ [((T + 2 * i + 1)%nat, AHost (relay_key t i))]
  ++ [if decide (i = (n - 1)%nat) then ((T + 2 * n)%nat, AHost (card_key t))
      else ((T + 2 * n + 1)%nat, APoll (ids !!! (n - 1)%nat) (card_key t))].

Fixpoint reveals_timed (T i t k : nat) : timed :=
  match k with
  | O => []
  | S k => reveal_timed T i t ++ reveals_timed (T + (2 * n + 2)) i (S t) k
  end.

Definition new_cards (rd : round) : nat := (shown (Append (hr_log rd) (hr_entry rd)) - shown (hr_log rd))%nat.

Definition round_timed (T i : nat) (rd : round) : timed :=
  attempt_timed T i rd ++ cleanup_timed (T + 3 + n) i rd
  ++ reveals_timed (T + 6 + 2 * n) i (shown (hr_log rd)) (new_cards rd).

(** The time a round takes at most: three cards are revealed at the flop. *)
Definition span : nat := (6 + 2 * n + 3 * (2 * n + 2))%nat.

Fixpoint hand_timed (T i : nat) (rds : list round) : timed :=
  match rds with
  | [] => []
  | rd :: rds => round_timed T i rd ++ hand_timed (T + span) i rds
  end.

(** ** Who hosts what *)

Definition hand_ideal (rds : list round) (id key : string) (v : list Z) : Prop :=
  (∃ rd m, rd ∈ rds ∧ round_ideal ids (hr_log rd) sks 0 (hr_seat rd) (hr_entry rd) id key v m) ∨
  (∃ m, community_ideal ids ks PRIME PRIME_prime pts 0 5 id key v m).

(** ** What the seats end with *)

Definition commit_event (rd : round) : AttemptEvent := mkEvent (Log_RoundID (hr_log rd)) 0 "committed" NoReason.

Definition after_round (i : nat) (rd : round) (r : Runner) : Runner :=
  let l := Append (hr_log rd) (hr_entry rd) in
  set_node (board i (shown l)) (emit (commit_event rd) (set_log l r)).

Definition after_hand (i : nat) (rds : list round) (r : Runner) : Runner := foldl (λ r rd, after_round i rd r) r rds.


Context (SL : ∀ i, @ScheduleLaws (SC i)) (np stack : Z) (Ht : table np stack) (Hids : table_ok ids ks).
Context (Hlen : n = Z.to_nat np) (Hpts : pts ≡ₚ buildOrderedDeck).
Context (Hsks : ∀ i, (i < n)%nat → len (sks i) = PrivateKeySize).
Context (Hrenc : ∀ x : VerifyReceipt, ∃ d, gob_encode x = Some d).
Context (Henv : ∀ i rid att, (i < n)%nat → ctx_ended (envs i) rid att = false ∧ ctx_stopped (envs i) rid = false).

Lemma np_seats : 2 ≤ np ∧ np = Z.of_nat n.
Proof using Hids Hlen Ht. destruct Hids as (_ & _ & Hn & _). pose proof (tb_n _ _ Ht). lia. Qed.

(** ** One round of the log *)

(** What an entry of a running hand does to the replayed state. *)
Lemma round_state l s q a e :
  log_reach np stack l → Log_Replay l = Ok s → HandOver s = false → ExpectedNextPlayer l = Ok (Z.of_nat q) →
  action_wf a → ValidateAction s (Z.of_nat q) a = Ok tt → BuildProposal l (Z.of_nat q) a (sks q) = Ok e →
  (q < n)%nat ∧ entry_typed e ∧ VerifyProposal l e (ed25519_Public (sks q)) = Ok tt ∧
  ∃ s', Log_Replay (Append l e) = Ok s' ∧ (Street s' = Street s ∨ Street s' = Street s + 1) ∧
    StreetPreflop ≤ Street s < StreetShowdown ∧
    Folded s' = if Kind a =? ActionFold then <[q := true]> (Folded s) else Folded s.
Proof using L Ht Hids Hlen Hsks.
  intros Hl Hs Ho Hturn Ha Hv Hb. destruct np_seats as [Hnp Hn].
  assert (q < n)%nat as Hq.
  { destruct (expected_total np stack Ht Hnp l Hl) as (q' & Hq' & Hr). rewrite Hturn in Hq'. injection Hq' as <-. lia. }
  destruct (built_entry np stack Ht Hnp l s _ a (sks q) e Hl Hturn Ha Hs Hv (Hsks q Hq) Hb) as (_ & Hty & Hea & Hep & Hver).
  split_and!; [done..|].
  destruct (log_reach_ok np stack l Ht Hnp Hl) as (Hpl & Hst & Hpre & _).
  destruct (Hpre (length (entries l))) as (s0 & u & Hr & Hc & Hbet). rewrite take_ge in Hr by done.
  assert (s0 = s) as ->.
  { unfold Log_Replay, Replay in Hs. rewrite Hpl, Hst, Hr in Hs. by injection Hs. }
  destruct (bt_running _ _ Hbet Ho) as [Hstreet _]. pose proof (bt_street _ _ Hbet) as Hstreet0.
  destruct (replay_action_spec np stack Ht e s u Hc) as (st & c & f & _ & _ & _ & _ & _ & _ & _ & Hact); [lia|].
  cbv zeta in Hact. rewrite Hea, Hep, Nat2Z.id in Hact.
  assert (∀ s1 u1, Street (replay_close s1 u1).1 = Street s1 ∨ Street (replay_close s1 u1).1 = u8 (Street s1 + 1)) as Hclose.
  { intros s1 u1. unfold replay_close. repeat case_match; auto. }
  assert (∀ s1 u1, Folded (replay_close s1 u1).1 = Folded s1) as Hfold.
  { intros s1 u1. unfold replay_close. repeat case_match; auto. }
  match type of Hact with _ = Ok ?x => set (su := x) in Hact end.
  assert (Street su.1 = Street s ∧ Folded su.1 = if Kind a =? ActionFold then <[q:=true]> (Folded s) else Folded s) as [H1 H2].
  { unfold su. by repeat case_match. }
  exists (replay_close su.1 su.2).1. split_and!.
  - unfold Log_Replay, Replay, Append. cbn [entries numPlayers startingStack]. rewrite Hpl, Hst, replay_loop_snoc, Hr. cbn.
    rewrite Ho, Hact. cbn. by destruct (replay_close su.1 su.2).
  - rewrite <- H1. destruct (Hclose su.1 su.2) as [->| ->]; [by left|right].
    unfold u8. rewrite Z.mod_small by (rewrite H1; unfold StreetShowdown in *; lia). done.
  - unfold StreetPreflop. lia.
  - done.
  - by rewrite Hfold, H2.
Qed.

(** ** The computations and their traces *)

Lemma attempt_accesses T i rd :
  snd <$> attempt_timed T i rd = to_access <$> attempt_trace SC ids (hr_log rd) 0 (hr_seat rd) (hr_entry rd) i.
Proof.
  unfold attempt_timed, attempt_trace, commit_trace. rewrite !fmap_app, imap_accesses. cbn.
  rewrite <- list_fmap_compose. by case_decide.
Qed.

Lemma reveal_accesses T i t : snd <$> reveal_timed T i t = to_access <$> reveal_trace ids i t.
Proof. unfold reveal_timed, reveal_trace, last_seat. by repeat case_decide. Qed.

Lemma reveals_accesses T i t k : snd <$> reveals_timed T i t k = to_access <$> concat (reveal_trace ids i <$> seq t k).
Proof.
  revert T t. induction k as [|k IH]; intros T t; [done|]. cbn [reveals_timed seq fmap list_fmap concat].
  by rewrite !fmap_app, reveal_accesses, IH.
Qed.

Lemma cleanup_tracks {A} (I : string → string → list Z → Prop) id (r : Runner) rid att (k : rproc A) tr res :
  tracks I id k tr res →
  tracks I id (cleanupAttempt r rid att k)
    (ADrop (DropKey (ProposalKey rid att))
       :: ((λ id, ADrop (DropKey (VerifyKey rid att id))) <$> filter (λ id, id ≠ nid (rnode r)) (Order (rnode r))) ++ tr) res.
Proof.
  intros Hk. unfold cleanupAttempt. constructor. induction (Order (rnode r)) as [|id' order IH]; [done|]. cbn [foldr].
  destruct (decide (id' = nid (rnode r))) as [->|Hne].
  - rewrite filter_cons_False by (intros Hne; by apply Hne). done.
  - rewrite filter_cons_True by done. cbn. by constructor.
Qed.

Lemma runRound_tracks (rds : list round) (rs : nat → Runner) l s q a e i T T' :
  log_reach np stack l → Log_Replay l = Ok s → HandOver s = false → ExpectedNextPlayer l = Ok (Z.of_nat q) →
  action_wf a → ValidateAction s (Z.of_nat q) a = Ok tt → BuildProposal l (Z.of_nat q) a (sks q) = Ok e →
  head (received (envs q) (Log_RoundID l) 0) = Some a →
  (∀ j, (j < n)%nat → seated ids l sks j (rs j) ∧ 1 ≤ cfgMaxAttempts (rcfg (rs j))) → (i < n)%nat →
  mkRound l q e ∈ rds →
  tracks (hand_ideal rds) (ids !!! i) (@runRound _ _ _ (SC i) (envs i) (rs i))
    (snd <$> attempt_timed T i (mkRound l q e) ++ cleanup_timed T' i (mkRound l q e))
    (Ok (emit (commit_event (mkRound l q e)) (set_log (Append l e) (rs i)), None)).
Proof using L EL SL Ht Hids Hlen Hsks Hrenc Henv.
  intros Hl Hs Ho Hturn Ha Hv Hb Hacts Hrs Hi Hin. destruct np_seats as [Hnp Hn].
  destruct (round_state l s q a e Hl Hs Ho Hturn Ha Hv Hb) as (Hq & Hty & Hver & _).
  destruct Hids as (Hnd & _ & _ & _). destruct (Hrs i Hi) as [Hseat Hmax].
  pose proof (attempt_follows SC SL np stack Ht Hnp ids Hnd Hlen l Hl sks 0 Hsks rs (λ j Hj, proj1 (Hrs j Hj)) Hrenc
    q Hq Hturn a e Hb Hty Hver (λ j, received (envs j) (Log_RoundID l) 0) Hacts i Hi) as Hatt.
  apply (follows_tracks _ _ (hand_ideal rds)) in Hatt.
  2: { intros id key v m Hm. left. exists (mkRound l q e), m. by split. }
  rewrite fmap_app, attempt_accesses. cbn [hr_log hr_seat hr_entry].
  unfold runRound. rewrite (st_log _ _ _ _ _ Hseat), Hturn. unfold rbind at 1, lift at 1. cbn [act_bind].
  destruct (Z.to_nat (cfgMaxAttempts (rcfg (rs i)))) as [|m] eqn:Hm; [lia|]. cbn [attempts_loop].
  set (r1 := emit (commit_event (mkRound l q e)) (set_log (Append l e) (rs i))).
  rewrite <- (app_nil_r (_ ++ _)). eapply (tracks_bind _ _ _ _ (Ok (inl (r1, None)))); [|constructor].
  eapply tracks_bind; [exact Hatt|]. cbn [committed].
  destruct (Henv i (Log_RoundID l) 0 Hi) as [-> _].
  unfold cleanup_timed. cbn [hr_log]. rewrite !fmap_app, imap_accesses. cbn [fmap list_fmap app snd].
  assert (nid (rnode (rs i)) = ids !!! i) as Hid by apply Hseat. assert (Order (rnode (rs i)) = ids) as Hord by apply Hseat.
  match goal with |- tracks ?I ?id (cleanupAttempt ?r ?rid ?att ?k) _ ?res =>
    pose proof (cleanup_tracks I id r rid att k) as Hc end.
  cbn [rnode set_log] in Hc. rewrite Hid, Hord in Hc. apply Hc.
  fold r1. destruct (0 <? Log_RoundID l); cbn; repeat constructor.
Qed.

Lemma stage_tracks rds stage t k T i :
  reveals ids ks PRIME PRIME_prime pts own stage t k → (i < n)%nat →
  tracks (hand_ideal rds) (ids !!! i) (stage (board i t)) (snd <$> reveals_timed T i t k) (Ok (board i (t + k)%nat)).
Proof.
  intros Hst Hi. rewrite reveals_accesses. eapply follows_tracks; [|by apply Hst].
  intros id key v m (t' & Ht' & Hk & Hor). right. exists m, t'. split_and!; [lia..|done].
Qed.

Lemma revealStreet_tracks rds l s s' e q T i :
  Log_Replay l = Ok s → Log_Replay (Append l e) = Ok s' → Street s' = Street s + 1 →
  StreetPreflop ≤ Street s < StreetShowdown → (i < n)%nat →
  tracks (hand_ideal rds) (ids !!! i) (revealStreet (board i (shown l)) (Street s'))
    (snd <$> reveals_timed T i (shown l) (new_cards (mkRound l q e))) (Ok (board i (shown (Append l e)))).
Proof using Hids Hpts Hlen.
  intros Hs Hs' Hst Hr Hi. unfold new_cards, shown, street_of. cbn [hr_log hr_entry]. rewrite Hs, Hs', Hst.
  destruct Hids as (Hnd & Hk & Hsize & Hks). destruct (perm_deck pts Hpts) as (Hres & _ & Hl).
  unfold StreetPreflop, StreetShowdown in Hr.
  assert (Street s = 0 ∨ Street s = 1 ∨ Street s = 2 ∨ Street s = 3) as Hcase by lia.
  destruct Hcase as [E|[E|[E|E]]]; rewrite E; cbn [board_size Z.eqb Z.add].
  - apply (stage_tracks rds RevealFlop 0 3); [|done]. apply RevealFlop_reveals; done || lia.
  - apply (stage_tracks rds RevealTurn 3 1); [|done]. apply RevealTurn_reveals; done || lia.
  - apply (stage_tracks rds RevealRiver 4 1); [|done]. apply RevealRiver_reveals; done || lia.
  - constructor.
Qed.

Lemma set_node_id (r : Runner) b : rnode r = b → set_node b r = r.
Proof. intros <-. by destruct r. Qed.

Lemma run_tracks rds l l' s' (Hfin : Log_Replay l' = Ok s') :
  hand_from l rds l' → ∀ all rs T fuel i,
  (∀ rd, rd ∈ rds → rd ∈ all) → log_reach np stack l → (length rds < fuel)%nat → (i < n)%nat →
  (∀ j, (j < n)%nat → seated ids l sks j (rs j) ∧ 1 ≤ cfgMaxAttempts (rcfg (rs j)) ∧ rnode (rs j) = board j (shown l)) →
  tracks (hand_ideal all) (ids !!! i) (@run_rounds _ _ _ (SC i) (envs i) fuel (rs i)) (snd <$> hand_timed T i rds)
    (Ok (after_hand i rds (rs i), HandDone s')).
Proof using L EL SL Ht Hids Hlen Hsks Hrenc Henv Hpts.
  induction 1 as [l s Hs Ho|l s q a e rds l' Hs Ho Hturn Ha Hv Hb Hacts Hlast Hrest IH];
    intros all rs T fuel i Hall Hl Hfuel Hi Hrs; (destruct fuel as [|fuel]; [cbn in Hfuel; lia|]);
    destruct (Hrs i Hi) as (Hseat & Hmax & Hnode); cbn [run_rounds]; rewrite (st_log _ _ _ _ _ Hseat), Hs;
    destruct (Henv i (Log_RoundID l) 0 Hi) as [_ ->]; unfold rbind at 1, lift at 1; cbn [act_bind]; rewrite Ho.
  { rewrite Hfin in Hs. injection Hs as ->. constructor. }
  destruct (round_state l s q a e Hl Hs Ho Hturn Ha Hv Hb) as (Hq & Hty & Hver & s1 & Hs1 & Hst & Hrange & Hf).
  set (rd := mkRound l q e) in *. cbn [hand_timed]. unfold round_timed. rewrite app_assoc, <- app_assoc, fmap_app.
  eapply tracks_bind.
  { apply (runRound_tracks all rs l s q a e i); try done. intros j Hj. destruct (Hrs j Hj) as (? & ? & _). done.
    apply Hall. left. }
  set (r1 := emit (commit_event rd) (set_log (Append l e) (rs i))). fold rd. fold r1. cbn [lift act_bind].
  assert (after_hand i (rd :: rds) (rs i) = after_hand i rds (after_round i rd (rs i))) as -> by done.
  assert (∀ j, (j < n)%nat → seated ids (Append l e) sks j (after_round j rd (rs j)) ∧
    1 ≤ cfgMaxAttempts (rcfg (after_round j rd (rs j))) ∧ rnode (after_round j rd (rs j)) = board j (shown (Append l e))) as Hrs'.
  { intros j Hj. destruct (Hrs j Hj) as ([Hid Hord Hsx Hlog Hsk Hpk Hpks] & Hm & Hnd). split_and!; [|done|done].
    constructor; done. }
  specialize (IH Hfin all (λ j, after_round j rd (rs j)) (T + span)%nat fuel i).
  assert (tracks (hand_ideal all) (ids !!! i) (@run_rounds _ _ _ (SC i) (envs i) fuel (after_round i rd (rs i)))
    (snd <$> hand_timed (T + span) i rds) (Ok (after_hand i rds (after_round i rd (rs i)), HandDone s'))) as Hnext.
  { apply IH; [intros rd' ?; apply Hall; by right|by eapply reach_propose|cbn in Hfuel; lia|done|done]. }
  clear IH. unfold rbind, lift. change (rlog r1) with (Append l e). rewrite Hs1. cbn [act_bind].
  rewrite fmap_app. destruct Hst as [Hst|Hst].
  - rewrite Hst, Z.eqb_refl. cbn [negb].
    assert (shown (Append l e) = shown l) as Hsame by (unfold shown, street_of; by rewrite Hs1, Hs, Hst).
    unfold new_cards. cbn [hr_log hr_entry rd]. rewrite Hsame, Nat.sub_diag. cbn [reveals_timed fmap list_fmap app].
    assert (after_round i rd (rs i) = r1) as Heq.
    { unfold after_round. cbn [hr_log hr_entry rd]. rewrite Hsame. by apply set_node_id. }
    by rewrite Heq in Hnext |- *.
  - rewrite (proj2 (Z.eqb_neq _ _)) by lia. cbn [negb]. change (rnode r1) with (rnode (rs i)). rewrite Hnode.
    eapply tracks_bind; [by apply (revealStreet_tracks all l s s1 e q)|]. exact Hnext.
Qed.

End hand.
