(* ===== verification/HandProofs.v ===== *)
(** * The traces of a hand are clean

    What the rounds of a hand have in common, what the timed traces of [Hand]
    contain, and that they satisfy the conditions of [Clean]: no seat removes a
    key that another one still has to read. *)

From Stdlib Require Import ZArith Lia Ascii.
From stdpp Require Import base list gmap strings numbers relations sorting.
From S2P Require Import Prelude Runtime Strconv Ephemeral Deck DeckProofs Net Peer PeerProofs PeerProps Showdown.
From S2P Require Import GameState GameStateProofs GameLog GameLogProofs GameLogProps Runner RunnerProofs RoundNet.
From S2P Require Import Clean Hand.

#[local] Open Scope Z_scope.

Section hand.
Context `{C : SigScheme} `{L : !SigLaws C} `{CE : Codec Entry} `{CR : Codec VerifyReceipt}.
Context (SC : nat → Schedule) (SL : ∀ i, @ScheduleLaws (SC i)).
Context (ids : list string) (ks : list Key) (pts : list bytes) (sks : nat → list Z) (envs : nat → Env).
Context (np stack : Z) (Ht : table np stack) (Hids : table_ok ids ks) (Hlen : length ids = Z.to_nat np).
Context (Hsks : ∀ i, (i < length ids)%nat → len (sks i) = PrivateKeySize).

Abbreviation n := (length ids).

(** ** The rounds of a hand *)

Lemma board_size_mono s s' : (s' = s ∨ s' = s + 1) → StreetPreflop ≤ s < StreetShowdown →
  (board_size s ≤ board_size s' ≤ board_size s + 3)%nat ∧ (board_size s' ≤ 5)%nat.
Proof.
  intros [->| ->] Hs; unfold board_size, StreetPreflop, StreetFlop, StreetTurn, StreetShowdown in *;
    repeat case_match; lia.
Qed.

Record round_ok (x : nat) (rd : round) (l0 : Log) (last : bool) : Prop := {
  ro_reach : log_reach np stack (Append (hr_log rd) (hr_entry rd));
  ro_rid : length (entries (hr_log rd)) = (length (entries l0) + x)%nat;
  ro_seat : (hr_seat rd < n)%nat;
  ro_shown : (shown l0 ≤ shown (hr_log rd))%nat;
  ro_cards : (shown (hr_log rd) + new_cards rd = shown (Append (hr_log rd) (hr_entry rd)) ∧
    shown (hr_log rd) + new_cards rd ≤ 5 ∧ new_cards rd ≤ 3)%nat;
  ro_folded : ∃ s, Log_Replay (Append (hr_log rd) (hr_entry rd)) = Ok s ∧
    ∀ i, (i < n)%nat → Folded s !! i = Some false ∨ (i = hr_seat rd ∧ last = true);
}.

(** Nobody has folded yet. *)
Definition all_in (l : Log) : Prop :=
  ∃ s, Log_Replay l = Ok s ∧ ∀ i, (i < n)%nat → Folded s !! i = Some false.

Lemma hand_rounds l rds l' :
  hand_from sks envs l rds l' → log_reach np stack l → all_in l →
  ∀ x rd, rds !! x = Some rd →
    round_ok x rd l (bool_decide (S x = length rds)) ∧
    hand_from sks envs (Append (hr_log rd) (hr_entry rd)) (drop (S x) rds) l' ∧
    (S x < length rds → all_in (Append (hr_log rd) (hr_entry rd)))%nat.
Proof using L Ht Hids Hlen Hsks.
  intros Hh. induction Hh as [l s Hs Ho|l s q a e rds l' Hs Ho Hturn Ha Hv Hb Hacts Hlast Hrest IH];
    intros Hl (s' & Hs' & Hin) x rd Hx; [done|]. rewrite Hs in Hs'. injection Hs' as <-.
  destruct (round_state ids ks sks np stack Ht Hids Hlen Hsks l s q a e Hl Hs Ho Hturn Ha Hv Hb)
    as (Hq & Hty & Hver & s1 & Hs1 & Hst & Hrange & Hf).
  assert (log_reach np stack (Append l e)) as Hl1 by (by eapply reach_propose).
  assert (shown l = board_size (Street s)) as Hsh by (unfold shown, street_of; by rewrite Hs).
  assert (shown (Append l e) = board_size (Street s1)) as Hsh1 by (unfold shown, street_of; by rewrite Hs1).
  destruct (board_size_mono _ _ Hst Hrange) as [Hmono H5].
  assert (Kind a ≠ ActionFold → all_in (Append l e)) as Hall.
  { intros Hk. exists s1. split; [done|]. rewrite Hf, (proj2 (Z.eqb_neq _ _)) by done. done. }
  assert (length (Folded s) = n) as Hfl.
  { destruct (np_seats ids ks np stack Ht Hids Hlen) as [Hnp Hn].
    destruct (replay_total np stack Ht Hnp l Hl) as (s2 & Hs2 & Hfl & _). rewrite Hs in Hs2. injection Hs2 as <-. lia. }
  destruct x as [|x].
  - injection Hx as <-. cbn [hr_log hr_seat hr_entry drop length]. split_and!.
    + constructor; cbn [hr_log hr_seat hr_entry]; try done.
      * unfold new_cards. cbn [hr_log hr_entry]. rewrite Hsh, Hsh1. lia.
      * exists s1. split; [done|]. intros i Hi. rewrite Hf. destruct (Z.eqb_spec (Kind a) ActionFold) as [Hk|Hk].
        -- destruct (decide (i = q)) as [->|Hne]; [right|left; rewrite list_lookup_insert_ne by done; by apply Hin].
           split; [done|]. rewrite (Hlast Hk). done.
        -- left. by apply Hin.
    + done.
    + intros Hlt. apply Hall. intros Hk. rewrite (Hlast Hk) in Hlt. cbn in Hlt. lia.
  - cbn in Hx. assert (Kind a ≠ ActionFold) as Hk by (intros Hk; by rewrite (Hlast Hk) in Hx).
    destruct (IH Hl1 (Hall Hk) x rd Hx) as ([Hr Hrid Hseat Hshown Hcards Hfo] & Hh' & Hal). split_and!.
    + constructor; try done.
      * rewrite Hrid. unfold Append. cbn. rewrite length_app. cbn. lia.
      * rewrite Hsh in *. rewrite Hsh1 in Hshown. lia.
      * destruct Hfo as (s2 & Hs2 & Hfo). exists s2. split; [done|]. intros i Hi.
        destruct (Hfo i Hi) as [?|[? Hd]]; [by left|right]. split; [done|].
        apply bool_decide_eq_true in Hd. apply bool_decide_eq_true. cbn. lia.
    + done.
    + intros Hlt. apply Hal. cbn in Hlt. lia.
Qed.

(** Board cards are shown once. *)
Lemma rounds_shown l rds l' x y rd rd' :
  hand_from sks envs l rds l' → log_reach np stack l → all_in l → rds !! x = Some rd → rds !! y = Some rd' → (x < y)%nat →
  (shown (hr_log rd) + new_cards rd ≤ shown (hr_log rd'))%nat.
Proof using L Ht Hids Hlen Hsks.
  intros Hh Hl Hin Hx Hy Hlt. pose proof (lookup_lt_Some _ _ _ Hy).
  destruct (hand_rounds l rds l' Hh Hl Hin x rd Hx) as (Hro & Hh' & Hal).
  destruct (hand_rounds _ _ _ Hh' (ro_reach _ _ _ _ Hro) (Hal ltac:(lia)) (y - S x)%nat rd') as [Hro' _].
  { rewrite lookup_drop. by replace (S x + (y - S x))%nat with y by lia. }
  pose proof (ro_shown _ _ _ _ Hro'). destruct (ro_cards _ _ _ _ Hro). lia.
Qed.

(** ** What the traces contain *)

Abbreviation rid rd := (Log_RoundID (hr_log rd)).
Abbreviation slot rd y := (Z.of_nat (2 * n + (shown (hr_log rd) + y))).
(** When the round that starts at [T] reveals its card [y]. *)
Abbreviation card_time T y := (T + 6 + 2 * n + y * (2 * n + 2))%nat.

Inductive host_at (T i : nat) (rd : round) : nat → EKey → Prop :=
| host_proposal : i = hr_seat rd → host_at T i rd T (KProposal (rid rd) 0)
| host_receipt : host_at T i rd (T + 2) (KVerify (rid rd) 0 (ids !!! i))
| host_relay y : (y < new_cards rd)%nat → host_at T i rd (card_time T y + 2 * i + 1) (KCommunityRelay (slot rd y) (Z.of_nat i))
| host_card y : (y < new_cards rd)%nat → i = (n - 1)%nat → host_at T i rd (card_time T y + 2 * n) (KCommunityCard (slot rd y)).

Inductive poll_at (T i : nat) (rd : round) : nat → nat → EKey → Prop :=
| poll_proposal : i ≠ hr_seat rd → poll_at T i rd (T + 1) (hr_seat rd) (KProposal (rid rd) 0)
| poll_receipt x j : (j < n)%nat → j ≠ i → (x < n)%nat → poll_at T i rd (T + 3 + x) j (KVerify (rid rd) 0 (ids !!! j))
| poll_relay y : (y < new_cards rd)%nat → (0 < i)%nat →
    poll_at T i rd (card_time T y + 2 * i) (i - 1) (KCommunityRelay (slot rd y) (Z.of_nat (i - 1)))
| poll_card y : (y < new_cards rd)%nat → i ≠ (n - 1)%nat →
    poll_at T i rd (card_time T y + 2 * n + 1) (n - 1) (KCommunityCard (slot rd y)).

Inductive drop_at (T i : nat) (rd : round) : nat → removal → Prop :=
| drop_proposal : drop_at T i rd (T + 3 + n) (DropKey (ProposalKey (rid rd) 0))
| drop_receipt z id : id ≠ ids !!! i → drop_at T i rd z (DropKey (VerifyKey (rid rd) 0 id))
| drop_round : 0 < rid rd → drop_at T i rd (T + 4 + 2 * n) (DropPrefix (RoundPrefix (rid rd - 1)))
| drop_attestations z : 0 < rid rd → drop_at T i rd z (DropPrefix (AutoFoldPrefix (rid rd - 1))).

Lemma elem_of_reveals T i t k s a :
  (s, a) ∈ reveals_timed ids T i t k ↔
  ∃ y, (y < k)%nat ∧ (s, a) ∈ reveal_timed ids (T + y * (2 * n + 2)) i (t + y).
Proof.
  revert T t. induction k as [|k IH]; intros T t; cbn [reveals_timed].
  { split; [by intros ?%elem_of_nil|]. intros (y & ? & _). lia. }
  rewrite elem_of_app, IH. split.
  - intros [Hin|(y & Hy & Hin)].
    + exists 0%nat. split; [lia|]. by rewrite Nat.mul_0_l, !Nat.add_0_r.
    + exists (S y). split; [lia|]. replace (T + S y * (2 * n + 2))%nat with (T + (2 * n + 2) + y * (2 * n + 2))%nat by lia.
      by replace (t + S y)%nat with (S t + y)%nat by lia.
  - intros ([|y] & Hy & Hin).
    + left. by rewrite Nat.mul_0_l, !Nat.add_0_r in Hin.
    + right. exists y. split; [lia|]. replace (T + (2 * n + 2) + y * (2 * n + 2))%nat with (T + S y * (2 * n + 2))%nat by lia.
      by replace (S t + y)%nat with (t + S y)%nat by lia.
Qed.

Lemma elem_of_reveal T i t s a :
  (s, a) ∈ reveal_timed ids T i t ↔
  (i ≠ 0%nat ∧ s = (T + 2 * i)%nat ∧ a = APoll (ids !!! (i - 1)%nat) (CommunityRelayKey (Z.of_nat (2 * n + t)) (Z.of_nat (i - 1)))) ∨
  (s = (T + 2 * i + 1)%nat ∧ a = AHost (CommunityRelayKey (Z.of_nat (2 * n + t)) (Z.of_nat i))) ∨
  (i = (n - 1)%nat ∧ s = (T + 2 * n)%nat ∧ a = AHost (CommunityCardKey (Z.of_nat (2 * n + t)))) ∨
  (i ≠ (n - 1)%nat ∧ s = (T + 2 * n + 1)%nat ∧ a = APoll (ids !!! (n - 1)%nat) (CommunityCardKey (Z.of_nat (2 * n + t)))).
Proof.
  unfold reveal_timed. rewrite !elem_of_app, !list_elem_of_singleton.
  destruct (decide (i = 0%nat)) as [Hz|Hz], (decide (i = (n - 1)%nat)) as [Hl|Hl]; rewrite ?list_elem_of_singleton, ?elem_of_nil; naive_solver.
Qed.

(** The polled nodes of a round, as seats. *)
Lemma polled_seats x rd l0 last i t :
  round_ok x rd l0 last → (i < n)%nat → t ∈ polled SC ids (hr_log rd) (hr_entry rd) i →
  ∃ j, (j < n)%nat ∧ j ≠ i ∧ t = ids !!! j.
Proof using SL Hids Hlen.
  intros Hro Hi Hin. unfold polled in Hin. destruct (ro_folded _ _ _ _ Hro) as (s & Hs & _). rewrite Hs in Hin.
  destruct (receipt_targets _ _ _ _) as [ts| |] eqn:Hts; [|by apply elem_of_nil in Hin..].
  rewrite (@completion_perm _ (SL i)) in Hin. destruct (receipt_targets_elem _ _ _ _ _ Hts) as [_ Hall].
  destruct (Hall t Hin) as [[j Hj]%list_elem_of_lookup_1 Hne]. exists j. pose proof (lookup_lt_Some _ _ _ Hj).
  apply list_lookup_total_correct in Hj as <-. split_and!; [done| |done]. by intros ->.
Qed.

Lemma polled_length rd i : (length (polled SC ids (hr_log rd) (hr_entry rd) i) ≤ n)%nat.
Proof using SL Hlen.
  unfold polled. destruct (Log_Replay _) as [s| |]; [|cbn; lia..].
  destruct (receipt_targets _ _ _ _) as [ts| |] eqn:Hts; [|cbn; lia..].
  rewrite (@completion_perm _ (SL i)). by apply receipt_targets_elem in Hts as [? _].
Qed.

(** Everybody still in the hand is polled by the others. *)
Lemma polled_active x rd l0 last i j :
  round_ok x rd l0 last → (i < n)%nat → (j < n)%nat → i ≠ j → ¬ (j = hr_seat rd ∧ last = true) →
  ids !!! j ∈ polled SC ids (hr_log rd) (hr_entry rd) i.
Proof using L SL Ht Hids Hlen.
  intros Hro Hi Hj Hne Hnf. destruct (ro_folded _ _ _ _ Hro) as (s & Hs & Hf). unfold polled. rewrite Hs.
  destruct (np_seats ids ks np stack Ht Hids Hlen) as [Hnp Hn].
  destruct (replay_total np stack Ht Hnp _ (ro_reach _ _ _ _ Hro)) as (s' & Hs' & Hfl & _).
  rewrite Hs in Hs'. injection Hs' as <-.
  destruct (targets_total (ids !!! i) (Folded s) ids 0) as (ts & Hts & _); [lia..|]. rewrite Hts.
  rewrite (@completion_perm _ (SL i)). eapply (receipt_targets_complete _ _ _ _ _ j); [done|lia| | |].
  - by apply list_lookup_lookup_total_lt.
  - intros Heq. apply Hne, eq_sym. destruct Hids as (Hnd & _). by eapply ids_inj.
  - rewrite Z.add_0_l, Nat2Z.id. destruct (Hf j Hj) as [?|?]; [done|by destruct Hnf].
Qed.

Lemma round_hosts T i rd s key :
  (s, AHost key) ∈ round_timed SC ids T i rd ↔ ∃ k, key = key_string k ∧ host_at T i rd s k.
Proof.
  unfold round_timed, attempt_timed, cleanup_timed. rewrite !elem_of_app, !elem_of_timed_imap. split.
  - intros [[Hin|[Hin|(x & y & _ & _ & [=])]]|[[Hin|[(x & y & _ & _ & [=])|Hin]]|Hin]].
    + apply list_elem_of_singleton in Hin. destruct (decide (i = hr_seat rd)); [|done]. injection Hin as -> ->.
      eexists. split; [|by constructor]. done.
    + apply list_elem_of_singleton in Hin as [= -> ->]. eexists. split; [|constructor]. done.
    + by apply list_elem_of_singleton in Hin.
    + destruct (0 <? rid rd); [|by apply elem_of_nil in Hin].
      by apply elem_of_cons in Hin as [[=]|[=]%list_elem_of_singleton].
    + apply elem_of_reveals in Hin as (y & Hy & Hin). apply elem_of_reveal in Hin.
      destruct Hin as [(_ & _ & [=])|[(-> & [= ->])|[(Hl & -> & [= ->])|(_ & _ & [=])]]].
      * eexists. split; [|by apply host_relay]. done.
      * eexists. split; [|by apply host_card]. done.
  - intros (k & -> & Hk). destruct Hk as [Hs| |y Hy|y Hy Hl].
    + left. left. rewrite decide_True by done. left.
    + left. right. left. left.
    + right. right. apply elem_of_reveals. exists y. split; [done|]. apply elem_of_reveal. right. left. done.
    + right. right. apply elem_of_reveals. exists y. split; [done|]. apply elem_of_reveal. right. right. left. done.
Qed.

Lemma round_polls x l0 last T i rd s t key :
  round_ok x rd l0 last → (i < n)%nat → (s, APoll t key) ∈ round_timed SC ids T i rd →
  ∃ j k, (j < n)%nat ∧ t = ids !!! j ∧ key = key_string k ∧ poll_at T i rd s j k.
Proof using SL Hids Hlen envs.
  intros Hro Hi. unfold round_timed, attempt_timed, cleanup_timed. rewrite !elem_of_app, !elem_of_timed_imap.
  intros [[Hin|[Hin|(y & t' & Hy & -> & [= -> ->])]]|[[Hin|[(y & t' & _ & _ & [=])|Hin]]|Hin]].
  - apply list_elem_of_singleton in Hin.
    destruct (decide (i = hr_seat rd)) as [|Hne]; [done|]. injection Hin as -> -> ->.
    eexists _, _. split_and!; [apply Hro|done| |by apply poll_proposal]. done.
  - by apply list_elem_of_singleton in Hin.
  - pose proof (lookup_lt_Some _ _ _ Hy) as Hlt. pose proof (polled_length rd i).
    destruct (polled_seats x rd l0 last i t' Hro Hi) as (j & Hj & Hne & ->); [by eapply list_elem_of_lookup_2|].
    eexists j, _. split_and!; [done|done| |apply poll_receipt; done || lia]. done.
  - by apply list_elem_of_singleton in Hin.
  - destruct (0 <? rid rd); [|by apply elem_of_nil in Hin].
      by apply elem_of_cons in Hin as [[=]|[=]%list_elem_of_singleton].
  - apply elem_of_reveals in Hin as (y & Hy & Hin). apply elem_of_reveal in Hin.
    destruct Hin as [(Hz & -> & [= -> ->])|[(_ & [=])|[(_ & _ & [=])|(Hl & -> & [= -> ->])]]].
    + eexists (i - 1)%nat, _. split_and!; [lia|done| |apply poll_relay; [done|lia]]. done.
    + eexists (n - 1)%nat, _. split_and!; [lia|done| |by apply poll_card]. done.
Qed.

Lemma round_drops T i rd z d : (z, ADrop d) ∈ round_timed SC ids T i rd → drop_at T i rd z d.
Proof.
  unfold round_timed, attempt_timed, cleanup_timed. rewrite !elem_of_app, !elem_of_timed_imap.
  intros [[Hin|[Hin|(y & t' & _ & _ & [=])]]|[[Hin|[(y & t' & Hy & -> & [= ->])|Hin]]|Hin]].
  - apply list_elem_of_singleton in Hin. by destruct (decide (i = hr_seat rd)).
  - by apply list_elem_of_singleton in Hin.
  - apply list_elem_of_singleton in Hin as [= -> ->]. constructor.
  - constructor. apply list_elem_of_lookup_2 in Hy. by apply list_elem_of_filter in Hy as [? _].
  - destruct (Z.ltb_spec 0 (rid rd)); [|by apply elem_of_nil in Hin].
    apply elem_of_cons in Hin as [[= -> ->]|[= -> ->]%list_elem_of_singleton]; [|by constructor].
    replace (T + 3 + n + 1 + n)%nat with (T + 4 + 2 * n)%nat by lia. by constructor.
  - apply elem_of_reveals in Hin as (y & _ & Hin). apply elem_of_reveal in Hin. naive_solver.
Qed.

(** ** Times *)

Lemma reveal_within T i t : (i < n)%nat → within T (T + (2 * n + 2)) (reveal_timed ids T i t).
Proof.
  intros Hi. unfold reveal_timed. apply (within_app T (T + 2 * i + 1)); [|apply (within_app _ (T + 2 * i + 2))|lia].
  - destruct (decide (i = 0%nat)); [apply within_nil|]. apply within_one; lia.
  - apply within_one. lia.
  - destruct (decide (i = (n - 1)%nat)); (apply within_one; lia).
  - lia.
Qed.

Lemma reveals_within T i t k : (i < n)%nat → within T (T + k * (2 * n + 2)) (reveals_timed ids T i t k).
Proof.
  intros Hi. revert T t. induction k as [|k IH]; intros T t; cbn [reveals_timed]; [apply within_nil|].
  apply (within_app T (T + (2 * n + 2))); [by apply reveal_within| |lia].
  eapply within_weaken; [apply IH|lia..].
Qed.

Lemma round_within T i rd : (i < n)%nat → (new_cards rd ≤ 3)%nat → within T (T + span ids) (round_timed SC ids T i rd).
Proof using SL Hlen.
  intros Hi Hc. unfold round_timed, span. apply (within_app T (T + 3 + n)); [|apply (within_app _ (T + 6 + 2 * n))|].
  - unfold attempt_timed. apply (within_app T (T + 2)); [|apply (within_app _ (T + 3))|lia].
    + destruct (decide (i = hr_seat rd)); apply within_one; lia.
    + apply within_one; lia.
    + apply within_imap. pose proof (polled_length rd i). lia.
    + lia.
  - unfold cleanup_timed. apply (within_app _ (T + 3 + n + 1)); [apply within_one; lia| |lia].
    apply (within_app _ (T + 3 + n + 1 + n)); [| |lia].
    + apply within_imap. pose proof (length_filter (λ id, id ≠ ids !!! i) ids). lia.
    + destruct (0 <? rid rd); [|apply within_nil].
      apply (within_app _ (T + 3 + n + 2 + n) _ [_]); (apply within_one; lia) || lia.
  - eapply within_weaken; [by apply reveals_within|reflexivity|nia].
  - lia.
  - lia.
Qed.

Lemma elem_of_hand T i rds s a :
  (s, a) ∈ hand_timed SC ids T i rds ↔ ∃ x rd, rds !! x = Some rd ∧ (s, a) ∈ round_timed SC ids (T + x * span ids) i rd.
Proof.
  revert T. induction rds as [|rd rds IH]; intros T; cbn [hand_timed].
  { split; [by intros ?%elem_of_nil|]. by intros (x & rd & ? & _). }
  rewrite elem_of_app, IH. split.
  - intros [Hin|(x & rd' & Hx & Hin)].
    + exists 0%nat, rd. split; [done|]. by rewrite Nat.mul_0_l, Nat.add_0_r.
    + exists (S x), rd'. split; [done|]. by replace (T + S x * span ids)%nat with (T + span ids + x * span ids)%nat by lia.
  - intros ([|x] & rd' & Hx & Hin).
    + left. injection Hx as ->. by rewrite Nat.mul_0_l, Nat.add_0_r in Hin.
    + right. exists x, rd'. split; [done|]. by replace (T + span ids + x * span ids)%nat with (T + S x * span ids)%nat by lia.
Qed.

Lemma hand_within T i rds :
  (i < n)%nat → Forall (λ rd, new_cards rd ≤ 3)%nat rds → within T (T + length rds * span ids) (hand_timed SC ids T i rds).
Proof using SL Hlen.
  intros Hi Hall. revert T. induction Hall as [|rd rds Hrd _ IH]; intros T; cbn [hand_timed length]; [apply within_nil|].
  apply (within_app T (T + span ids)); [by apply round_within| |lia]. eapply within_weaken; [apply IH|lia..].
Qed.

(** ** The hand is clean *)

Context (l l' : Log) (rds : list round) (Hh : hand_from sks envs l rds l') (Hl : log_reach np stack l) (Hin : all_in l).
Context (Hbound : Z.of_nat (length (entries l) + length rds) < 2 ^ 64).

Abbreviation start x := (x * span ids)%nat.

Lemma hand_round x rd : rds !! x = Some rd → round_ok x rd l (bool_decide (S x = length rds)).
Proof using L Ht Hids Hlen Hsks Hh Hl Hin. intros Hx. by apply (hand_rounds l rds l' Hh Hl Hin x rd Hx). Qed.

Lemma round_id x rd : rds !! x = Some rd → rid rd = Z.of_nat (length (entries l) + x).
Proof using L Ht Hids Hlen Hsks Hh Hl Hin Hbound.
  intros Hx. pose proof (lookup_lt_Some _ _ _ Hx). unfold Log_RoundID, len.
  rewrite (ro_rid _ _ _ _ (hand_round x rd Hx)). apply u64_small. lia.
Qed.

Lemma host_wf x rd i s k : rds !! x = Some rd → (i < n)%nat → host_at (start x) i rd s k → key_wf k.
Proof using L Ht Hids Hlen Hsks Hh Hl Hin Hbound.
  intros Hx Hi Hk. pose proof (round_id x rd Hx). pose proof (lookup_lt_Some _ _ _ Hx).
  destruct Hids as (_ & _ & Hn & _). destruct (ro_cards _ _ _ _ (hand_round x rd Hx)) as (_ & H5 & _).
  destruct Hk; cbn [key_wf]; lia.
Qed.

Lemma poll_wf x rd i j s k : rds !! x = Some rd → (i < n)%nat → poll_at (start x) i rd s j k → key_wf k.
Proof using L Ht Hids Hlen Hsks Hh Hl Hin Hbound.
  intros Hx Hi Hk. pose proof (round_id x rd Hx). pose proof (lookup_lt_Some _ _ _ Hx).
  destruct Hids as (_ & _ & Hn & _). destruct (ro_cards _ _ _ _ (hand_round x rd Hx)) as (_ & H5 & _).
  destruct Hk; cbn [key_wf]; lia.
Qed.

(** Cards are shown in one round only. *)
Lemma slot_inj x x' rd rd' y y' :
  rds !! x = Some rd → rds !! x' = Some rd' → (y < new_cards rd)%nat → (y' < new_cards rd')%nat →
  slot rd y = slot rd' y' → x = x' ∧ y = y'.
Proof using L Ht Hids Hlen Hsks Hh Hl Hin Hbound.
  intros Hx Hx' Hy Hy' Heq. destruct (lt_eq_lt_dec x x') as [[Hlt| ->]|Hlt].
  - pose proof (rounds_shown l rds l' x x' rd rd' Hh Hl Hin Hx Hx' Hlt). lia.
  - simplify_eq. split; [done|lia].
  - pose proof (rounds_shown l rds l' x' x rd' rd Hh Hl Hin Hx' Hx Hlt). lia.
Qed.

Lemma hosts_once x x' rd rd' i s s' k :
  rds !! x = Some rd → rds !! x' = Some rd' → host_at (start x) i rd s k → host_at (start x') i rd' s' k → s = s'.
Proof using L Ht Hids Hlen Hsks Hh Hl Hin Hbound.
  intros Hx Hx' Hk Hk'. pose proof (round_id x rd Hx) as Hr. pose proof (round_id x' rd' Hx') as Hr'.
  destruct Hk as [Hs| |y Hy|y Hy Hls]; inversion Hk' as [Hs' E1 E2|E1 E2|y' Hy' E1 E2|y' Hy' Hls' E1 E2]; subst.
  - assert (x = x') as -> by lia. done.
  - assert (x = x') as -> by lia. done.
  - destruct (slot_inj x x' rd rd' y y') as [-> ->]; [done..|lia|done].
  - destruct (slot_inj x x' rd rd' y y') as [-> ->]; [done..|lia|done].
Qed.

(** Which removals hit a key. *)
Lemma drop_hits x' rd' j z d k :
  rds !! x' = Some rd' → drop_at (start x') j rd' z d → key_wf k → drops d (key_string k) = true →
  (k = KProposal (rid rd') 0 ∧ z = (start x' + 3 + n)%nat) ∨
  (∃ id, k = KVerify (rid rd') 0 id ∧ id ≠ ids !!! j) ∨
  (∃ a id, k = KVerify (rid rd' - 1) a id ∧ z = (start x' + 4 + 2 * n)%nat ∧ 0 < rid rd') ∨
  (∃ id, k = KAutoFold (rid rd' - 1) id).
Proof using L Ht Hids Hlen Hsks Hh Hl Hin Hbound.
  intros Hx' Hd Hk Hdr. pose proof (round_id x' rd' Hx') as Hr. pose proof (lookup_lt_Some _ _ _ Hx').
  destruct Hd as [|z id Hid|Hpos|z Hpos]; cbn [drops] in Hdr.
  - left. apply bool_decide_eq_true in Hdr. split; [|done].
    apply key_string_inj; [done|cbn; lia|]. by rewrite <- Hdr.
  - right. left. exists id. split; [|done]. apply bool_decide_eq_true in Hdr.
    apply key_string_inj; [done|cbn; lia|]. by rewrite <- Hdr.
  - right. right. left. apply (round_prefix_iff (rid rd' - 1)) in Hdr as (a & id & ->); [|lia|done]. by exists a, id.
  - right. right. right. apply (auto_fold_prefix_iff (rid rd' - 1)) in Hdr as (id & ->); [|lia|done]. by exists id.
Qed.

Abbreviation trace i := (hand_timed SC ids 0 i rds).

Lemma trace_host x rd i s k : rds !! x = Some rd → host_at (start x) i rd s k → (s, AHost (key_string k)) ∈ trace i.
Proof. intros Hx Hk. apply elem_of_hand. exists x, rd. split; [done|]. apply round_hosts. by exists k. Qed.

(** A receipt that is read, and hosted, in round [x]. *)
Lemma trace_receipt x rd i j :
  rds !! x = Some rd → (i < n)%nat → (j < n)%nat → i ≠ j → ¬ (j = hr_seat rd ∧ S x = length rds) →
  ∃ s, (s < start x + 3 + n)%nat ∧ (s, APoll (ids !!! j) (VerifyKey (rid rd) 0 (ids !!! j))) ∈ trace i.
Proof using L SL Ht Hids Hlen Hsks Hh Hl Hin Hbound.
  intros Hx Hi Hj Hne Hnf.
  assert (ids !!! j ∈ polled SC ids (hr_log rd) (hr_entry rd) i) as [y Hy]%list_elem_of_lookup_1.
  { eapply polled_active; [by apply hand_round|done..|]. intros [? Hd]. apply bool_decide_eq_true in Hd. by apply Hnf. }
  exists (start x + 3 + y)%nat. pose proof (lookup_lt_Some _ _ _ Hy). pose proof (polled_length rd i). split; [lia|].
  apply elem_of_hand. exists x, rd. split; [done|]. unfold round_timed, attempt_timed. rewrite !elem_of_app, elem_of_timed_imap.
  left. right. right. by exists y, (ids !!! j).
Qed.

Lemma trace_proposal x rd i :
  rds !! x = Some rd → i ≠ hr_seat rd → ((start x + 1)%nat, APoll (ids !!! hr_seat rd) (ProposalKey (rid rd) 0)) ∈ trace i.
Proof.
  intros Hx Hne. apply elem_of_hand. exists x, rd. split; [done|]. unfold round_timed, attempt_timed.
  rewrite decide_False by done. rewrite !elem_of_app. left. left. left.
Qed.

(** The proposer of a round removes its proposal after it has read the
    receipts of those who read the proposal. *)
Lemma proposal_awaited x rd i :
  rds !! x = Some rd → (i < n)%nat → i ≠ hr_seat rd →
  awaited (trace i) (trace (hr_seat rd)) (ids !!! i) (start x + 1) (start x + 3 + n).
Proof using L SL Ht Hids Hlen Hsks Hh Hl Hin Hbound.
  intros Hx Hi Hne. destruct (trace_receipt x rd (hr_seat rd) i Hx) as (z & Hz & Hpo);
    [apply (hand_round x rd Hx)|done|done|by intros [? _]|].
  exists (VerifyKey (rid rd) 0 (ids !!! i)), z, (start x + 2)%nat. split_and!; [done|lia| |lia].
  by apply (trace_host x rd i _ (KVerify (rid rd) 0 (ids !!! i))); [|constructor].
Qed.

(** A seat removes its receipt of a round once it has committed the next one:
    it has read something of that next round from every reader. *)
Lemma receipt_awaited x rd x' rd' i j s :
  rds !! x = Some rd → rds !! x' = Some rd' → x' = S x → (i < n)%nat → (j < n)%nat → i ≠ j →
  (s < start x + 3 + n)%nat → awaited (trace i) (trace j) (ids !!! i) s (start x' + 4 + 2 * n).
Proof using L SL Ht Hids Hlen Hsks Hh Hl Hin Hbound.
  intros Hx Hx' -> Hi Hj Hne Hs. assert (start (S x) = start x + span ids)%nat as Hst by lia.
  assert (3 + n < span ids)%nat as Hspan by (unfold span; lia).
  destruct (decide (i = hr_seat rd')) as [->|Hseat].
  - exists (ProposalKey (rid rd') 0), (start (S x) + 1)%nat, (start (S x)). split_and!; [by apply trace_proposal|lia| |lia].
    by apply (trace_host (S x) rd' (hr_seat rd') _ (KProposal (rid rd') 0)); [|constructor].
  - destruct (trace_receipt (S x) rd' j i Hx') as (z & Hz & Hpo); [done..|by intros [? _]|].
    exists (VerifyKey (rid rd') 0 (ids !!! i)), z, (start (S x) + 2)%nat. split_and!; [done|lia| |lia].
    by apply (trace_host (S x) rd' i _ (KVerify (rid rd') 0 (ids !!! i))); [|constructor].
Qed.

Lemma poll_clean x rd i j s k :
  rds !! x = Some rd → (i < n)%nat → (j < n)%nat → poll_at (start x) i rd s j k →
  (∃ h, host_at (start x) j rd h k ∧ (h < s)%nat) ∧
  ∀ z d, (z, ADrop d) ∈ trace j → drops d (key_string k) = true → awaited (trace i) (trace j) (ids !!! i) s z.
Proof using L SL Ht Hids Hlen Hsks Hh Hl Hin Hbound.
  intros Hx Hi Hj Hk. split.
  - destruct Hk as [Hne|y j Hj' Hne Hy|y Hy Hpos|y Hy Hne].
    + exists (start x). split; [by constructor|lia].
    + exists (start x + 2)%nat. split; [constructor|lia].
    + exists (card_time (start x) y + 2 * (i - 1) + 1)%nat. split; [by constructor|lia].
    + exists (card_time (start x) y + 2 * n)%nat. split; [by constructor|lia].
  - intros z d (x' & rd' & Hx' & Hd%round_drops)%elem_of_hand Hdr.
    pose proof (drop_hits x' rd' j z d k Hx' Hd (poll_wf x rd i j s k Hx Hi Hk) Hdr) as Hhit.
    pose proof (round_id x rd Hx) as Hr. pose proof (round_id x' rd' Hx') as Hr'.
    destruct Hk as [Hne|y j Hj' Hne Hy|y Hy Hpos|y Hy Hne].
    + destruct Hhit as [([= Heq] & ->)|[(id & [=] & _)|[(a & id & [=] & _)|(id & [=])]]].
      assert (x' = x) as -> by lia. simplify_eq. by apply proposal_awaited.
    + destruct Hhit as [([=] & _)|[(id & [= Heq Hid] & Hn)|[(a & id & [= Heq _ _] & -> & _)|(id & [=])]]].
      * by destruct Hn.
      * apply (receipt_awaited x rd x' rd'); done || lia.
    + by destruct Hhit as [([=] & _)|[(id & [=] & _)|[(a & id & [=] & _)|(id & [=])]]].
    + by destruct Hhit as [([=] & _)|[(id & [=] & _)|[(a & id & [=] & _)|(id & [=])]]].
Qed.

Definition traces : list timed := (λ i, trace i) <$> seq 0 n.

Lemma traces_lookup i tr : traces !! i = Some tr ↔ (i < n)%nat ∧ tr = trace i.
Proof.
  unfold traces. rewrite list_lookup_fmap. destruct (decide (i < n)%nat) as [Hi|Hi].
  - rewrite lookup_seq_lt by done. cbn. split; [by intros [= <-]|by intros [_ ->]].
  - rewrite lookup_seq_ge by (by apply Nat.nlt_ge). split; [done|]. by intros [? _].
Qed.

Lemma trace_within i : (i < n)%nat → within 0 (length rds * span ids) (trace i).
Proof using L SL Ht Hids Hlen Hsks Hh Hl Hin Hbound.
  intros Hi. apply (hand_within 0); [done|]. apply list.Forall_forall. intros rd [x Hx]%list_elem_of_lookup_1.
  apply (hand_round x rd Hx).
Qed.

(** No seat waits for another to return. *)
Definition no_gate (j i : nat) : Prop := False.

Lemma hand_once i s s' key : (i < n)%nat → (s, AHost key) ∈ trace i → (s', AHost key) ∈ trace i → s = s'.
Proof using L Ht Hids Hlen Hsks Hh Hl Hin Hbound.
  intros Hi (x & rd & Hx & (k & -> & Hk)%round_hosts)%elem_of_hand (x' & rd' & Hx' & (k' & Heq & Hk')%round_hosts)%elem_of_hand.
  assert (k' = k) as -> by (apply key_string_inj; [by eapply (host_wf x')|by eapply (host_wf x)|done]).
  by apply (hosts_once x x' rd rd' i s s' k).
Qed.

Lemma hand_clean : clean ids traces no_gate.
Proof using L SL Ht Hids Hlen Hsks Hh Hl Hin Hbound.
  destruct Hids as (Hnd & _). constructor.
  - intros tr [i [Hi ->]%traces_lookup]%list_elem_of_lookup_1. by apply trace_within.
  - intros i j tri trj id key s s' [Hi ->]%traces_lookup [Hj ->]%traces_lookup Hid Hjd Hs Hs'.
    assert (i = j) as <- by (by eapply NoDup_lookup). split; [done|]. by apply (hand_once i s s' key).
  - intros i j tri trj id key h z d _ _ Hid Hjd _ _ _. by eapply NoDup_lookup.
  - by intros i j tri trj e e' ?.
  - intros i tri idi s t key [Hi ->]%traces_lookup Hid (x & rd & Hx & Hpo)%elem_of_hand.
    destruct (round_polls x l _ _ i rd s t key (hand_round x rd Hx) Hi Hpo) as (j & k & Hj & -> & -> & Hk).
    destruct (poll_clean x rd i j s k Hx Hi Hj Hk) as [(h & Hh' & Hlt) Hdr].
    apply list_lookup_total_correct in Hid as <-.
    exists j, (trace j), h. split_and!; [by apply list_lookup_lookup_total_lt|by apply traces_lookup| |done|].
    + by eapply trace_host.
    + intros z d Hz Hd _. by eapply Hdr.
Qed.

Context (Hpts : pts ≡ₚ buildOrderedDeck).

(** A key has one value in the whole hand. *)
Lemma hand_ideal_fun id key v v' : hand_ideal ids ks pts sks rds id key v → hand_ideal ids ks pts sks rds id key v' → v = v'.
Proof using L Ht Hids Hlen Hsks Hh Hl Hin Hbound Hpts.
  destruct Hids as (Hnd & Hk0 & Hn & _). destruct (perm_deck pts Hpts) as (_ & _ & Hlp).
  assert (∀ rd id key v m, rd ∈ rds → round_ideal ids (hr_log rd) sks 0 (hr_seat rd) (hr_entry rd) id key v m →
    ∃ x, rds !! x = Some rd ∧ (key = key_string (KProposal (rid rd) 0) ∨ key = key_string (KVerify (rid rd) 0 id)) ∧
      0 ≤ rid rd < 2 ^ 64) as Hkey.
  { intros rd id' key' v0 m [x Hx]%list_elem_of_lookup_1 Hr. exists x. pose proof (round_id x rd Hx).
    pose proof (lookup_lt_Some _ _ _ Hx). split_and!; [done| |lia..].
    destruct Hr as [(-> & -> & _)|(i & _ & -> & -> & _)]; [by left|by right]. }
  assert (∀ id key v m, community_ideal ids ks PRIME PRIME_prime pts 0 5 id key v m → ∃ k, key = key_string k ∧ key_wf k ∧
    match k with KCommunityRelay _ _ | KCommunityCard _ => True | _ => False end) as Hcard.
  { intros id' key' v0 m (t & H1 & H2 & [(i & Hi & _ & -> & _)|(_ & -> & _)]); (eexists; split; [reflexivity|]; cbn; lia). }
  intros [(rd & m & Hrd & Hr)|(m & Hc)] [(rd' & m' & Hrd' & Hr')|(m' & Hc')].
  - destruct (Hkey _ _ _ _ _ Hrd Hr) as (x & Hx & Hk & Hw). destruct (Hkey _ _ _ _ _ Hrd' Hr') as (x' & Hx' & Hk' & Hw').
    pose proof (round_id x rd Hx). pose proof (round_id x' rd' Hx').
    assert (rid rd = rid rd') as Heq.
    { destruct Hk as [->| ->], Hk' as [Hk'|Hk']; apply key_string_inj in Hk'; cbn; try lia;
        discriminate Hk' || by injection Hk'. }
    assert (x = x') as <- by lia. simplify_eq.
    by eapply (round_ideal_fun ids Hnd _ sks 0 ltac:(lia)).
  - destruct (Hkey _ _ _ _ _ Hrd Hr) as (x & Hx & Hk & Hw). destruct (Hcard _ _ _ _ Hc') as (k & -> & Hkw & Hkk).
    destruct Hk as [Hk|Hk]; apply key_string_inj in Hk; cbn; try done; by subst.
  - destruct (Hkey _ _ _ _ _ Hrd' Hr') as (x & Hx & Hk & Hw). destruct (Hcard _ _ _ _ Hc) as (k & -> & Hkw & Hkk).
    destruct Hk as [Hk|Hk]; apply key_string_inj in Hk; cbn; try done; by subst.
  - by apply (community_ideal_fun ids ks PRIME Hk0 ltac:(lia) PRIME_prime pts ltac:(lia) ltac:(lia) 0 5 id key v m v' m').
Qed.

End hand.
