(* ===== verification/HandProps.v ===== *)
(** * A whole hand: theorems *)

From Stdlib Require Import ZArith Lia Ascii.
From stdpp Require Import base list gmap strings numbers relations sorting countable.
From S2P Require Import Prelude Runtime Strconv Ephemeral Deck DeckProofs DeckProps Net Peer PeerProofs PeerProps Showdown.
From S2P Require Import GameState GameStateProofs GameLog GameLogProofs GameLogProps Runner RunnerProofs RoundNet RunnerProps.
From S2P Require Import Clean Hand HandProofs.

#[local] Open Scope Z_scope.

Section theorems.
Context `{C : SigScheme} `{L : !SigLaws C} `{CE : Codec Entry} `{EL : !EntryCodecLaws} `{CR : Codec VerifyReceipt}.

(** A table that plays the hand [rds] from log [l] to log [l']: the deck is
    shuffled, the seats know each other's keys and the board so far, nobody has
    folded, and the actions of [rds] are submitted in time. *)
Record hand_ready (np stack : Z) (SC : nat → Schedule) (ids : list string) (ks : list Key) (pts : list bytes)
    (own : nat → Node) (sks : nat → list Z) (envs : nat → Env) (l : Log) (rds : list round) (l' : Log)
    (rs : nat → Runner) : Prop := {
  hd_table : table np stack;
  hd_ids : table_ok ids ks ∧ length ids = Z.to_nat np;
  hd_deck : pts ≡ₚ buildOrderedDeck;
  hd_sched : ∀ i, @ScheduleLaws (SC i);
  hd_keys : ∀ i, (i < length ids)%nat → len (sks i) = PrivateKeySize;
  hd_encode : ∀ x : VerifyReceipt, ∃ d, gob_encode x = Some d;
  hd_env : ∀ i rid att, (i < length ids)%nat → ctx_ended (envs i) rid att = false ∧ ctx_stopped (envs i) rid = false;
  hd_log : log_reach np stack l ∧ all_in ids l;
  hd_hand : hand_from sks envs l rds l';
  hd_bound : Z.of_nat (length (entries l) + length rds) < 2 ^ 64;
  hd_seats : ∀ i, (i < length ids)%nat → seated ids l sks i (rs i) ∧ 1 ≤ cfgMaxAttempts (rcfg (rs i)) ∧
    rnode (rs i) = board_node ids ks PRIME PRIME_prime pts own i (shown l);
}.

(** All seats run the loop of [Run] over the rounds. *)
Definition hand_procs (SC : nat → Schedule) (ids : list string) (envs : nat → Env) (fuel : nat) (rs : nat → Runner)
    : list (string * rproc (Runner * run_end)) :=
  (λ i, (ids !!! i, @run_rounds _ _ _ (SC i) (envs i) fuel (rs i))) <$> seq 0 (length ids).

Lemma hand_ends_over sks envs l rds l' : hand_from sks envs l rds l' → ∃ s, Log_Replay l' = Ok s ∧ HandOver s = true.
Proof. induction 1 as [l s Hs Ho|]; [by exists s|done]. Qed.

(** What a seat has at the end of the hand. *)
Lemma after_hand_spec ids ks pts own sks envs l rds l' i r :
  hand_from sks envs l rds l' → rlog r = l → rnode r = board_node ids ks PRIME PRIME_prime pts own i (shown l) →
  let r' := after_hand ids ks pts own i rds r in
  rlog r' = l' ∧ rnode r' = board_node ids ks PRIME PRIME_prime pts own i (shown l') ∧
  published r' = published r ++
    ((λ rd, (commit_event rd, commit_fields (Append (hr_log rd) (hr_entry rd)) "committed")) <$> rds).
Proof.
  intros Hh. revert r. induction Hh as [l s Hs Ho|l s q a e rds l' Hs Ho Hturn Ha Hv Hb Hacts Hlast Hrest IH];
    intros r Hr Hn; cbn zeta.
  { split_and!; [done..|]. cbn. by rewrite app_nil_r. }
  specialize (IH (after_round ids ks pts own i (mkRound l q e) r) eq_refl eq_refl). cbn zeta in IH.
  destruct IH as (H1 & H2 & H3). split_and!; [exact H1|exact H2|].
  etrans; [exact H3|]. unfold after_round. cbn [published set_node emit set_log rlog fmap list_fmap hr_log hr_entry].
  by rewrite <- app_assoc.
Qed.

(** C13: A hand is played the same everywhere.  All seats run the loop of [Run]
    over the rounds of a hand in which a fold ends the hand (at a table of two
    that is every hand), with the clean-up after each commit and the reveals
    between the streets.  In every interleaving without deadlines a bounded
    number of store accesses happens, no seat reads a value that was removed or
    waits for one, and every seat ends with the hand over, the same log, the
    same board, and one commit event per round. *)
Theorem hand_agrees np stack SC ids ks pts own sks envs l rds l' rs fuel k n :
  hand_ready np stack SC ids ks pts own sks envs l rds l' rs → (length rds < fuel)%nat →
  nsteps net_step k (mkNet ∅ (hand_procs SC ids envs fuel rs)) n →
  (k ≤ length ids * (length rds * span ids))%nat ∧
  ∃ s rs', Log_Replay l' = Ok s ∧ HandOver s = true ∧
    (∀ i x, (i < length ids)%nat → finished n i x → x = Ok (rs' i, HandDone s)) ∧
    ((∀ n', ¬ net_step n n') → ∀ i, (i < length ids)%nat → finished n i (Ok (rs' i, HandDone s))) ∧
    ∀ i, (i < length ids)%nat → rlog (rs' i) = l' ∧
      CommunityCards (rnode (rs' i)) = (λ j, of_bytes (pts !!! (2 * length ids + j)%nat)) <$> seq 0 (shown l') ∧
      published (rs' i) = published (rs i) ++
        ((λ rd, (commit_event rd, commit_fields (Append (hr_log rd) (hr_entry rd)) "committed")) <$> rds).
Proof using L EL.
  intros [Ht [Hids Hlen] Hpts SL Hsks Hrenc Henv [Hl Hin] Hh Hbound Hrs] Hfuel Hrun.
  destruct (hand_ends_over sks envs l rds l' Hh) as (s & Hs & Ho).
  pose proof (hand_clean SC SL ids ks sks envs np stack Ht Hids Hlen Hsks l l' rds Hh Hl Hin Hbound) as Hclean.
  pose proof (hand_ideal_fun ids ks pts sks envs np stack Ht Hids Hlen Hsks l l' rds Hh Hl Hin Hbound Hpts) as Hfun.
  set (rs' := λ i, after_hand ids ks pts own i rds (rs i)).
  set (res := (λ i, Ok (E:=Empty_set) (rs' i, HandDone s)) <$> seq 0 (length ids)).
  assert (∀ i, (i < length ids)%nat → res !! i = Some (Ok (rs' i, HandDone s))) as Hres
    by (intros i Hi; unfold res; by rewrite list_lookup_fmap, lookup_seq_lt).
  destruct (clean_correct (hand_ideal ids ks pts sks rds) Hfun ids (traces SC ids rds) res no_gate Hclean
    ltac:(unfold traces; by rewrite length_fmap, length_seq) ltac:(unfold res; by rewrite length_fmap, length_seq)
    (hand_procs SC ids envs fuel rs) k n) as (Hk & Hfin & Hstuck); [|..|done|].
  - unfold hand_procs. by rewrite length_fmap, length_seq.
  - intros i id p tr r Hp [Hi ->]%traces_lookup Hr. rewrite Hres in Hr by done. injection Hr as <-.
    unfold hand_procs in Hp. rewrite list_lookup_fmap, lookup_seq_lt in Hp by done. injection Hp as <- <-.
    split; [by apply list_lookup_lookup_total_lt|]. by eapply (run_tracks SC).
  - split.
    + etrans; [exact Hk|]. unfold traces. rewrite <- list_fmap_compose.
      assert (∀ is_, Forall (λ i, i < length ids)%nat is_ →
        (sum_list (length ∘ (λ i, hand_timed SC ids 0 i rds) <$> is_) ≤ length is_ * (length rds * span ids))%nat) as Hsum.
      { induction 1 as [|i is_ Hi _ IH]; [done|]. cbn.
        pose proof (within_length _ _ _ (trace_within SC SL ids ks sks envs np stack Ht Hids Hlen Hsks l l' rds Hh Hl Hin
          Hbound i Hi)). unfold sum_list in *. cbn in *. lia. }
      specialize (Hsum (seq 0 (length ids))). rewrite length_seq in Hsum. apply Hsum.
      apply list.Forall_forall. intros i Hi%elem_of_seq. lia.
    + exists s, rs'. split_and!; [done|done| | |].
      * intros i x Hi Hf. by apply (Hfin i x _ Hf), Hres.
      * intros Hst i Hi. by apply (Hstuck Hst i), Hres.
      * intros i Hi. destruct (Hrs i Hi) as (Hseat & _ & Hnode).
        destruct (after_hand_spec ids ks pts own sks envs l rds l' i (rs i) Hh (st_log _ _ _ _ _ Hseat) Hnode) as (H1 & H2 & H3).
        split_and!; [exact H1| |exact H3]. unfold rs'. rewrite H2. done.
Qed.

End theorems.

(** ** Concrete hands *)

(** A schedule: the first computation in the order [is_] that can move does. *)
Fixpoint greedy {A} (is_ : list nat) (fuel : nat) (n : net A) : list nat :=
  match fuel with
  | O => []
  | S fuel =>
      match list_find (λ i, is_Some (net_next i n)) is_ with
      | Some (_, i) => i :: greedy is_ fuel (default n (net_next i n))
      | None => []
      end
  end.

#[local] Existing Instances toy_scheme toy_laws entry_codec entry_codec_laws receipt_codec.

Section script.
Variables (sks : nat → list Z) (envs : nat → Env).

(** The entry, the rounds and the last log that the actions [acts] of the
    seats whose turn it is make. *)
Definition script_entry (l : Log) (q : Z) (a : Action) : Entry := ok_or no_entry (BuildProposal l q a (sks (Z.to_nat q))).
Definition script_turn (l : Log) : Z := ok_or 0 (ExpectedNextPlayer l).

Fixpoint script_log (l : Log) (acts : list Action) : Log :=
  match acts with [] => l | a :: acts => script_log (Append l (script_entry l (script_turn l) a)) acts end.

Fixpoint script_rounds (l : Log) (acts : list Action) : list round :=
  match acts with
  | [] => []
  | a :: acts =>
      let e := script_entry l (script_turn l) a in
      mkRound l (Z.to_nat (script_turn l)) e :: script_rounds (Append l e) acts
  end.

Definition is_ok {E A} (m : res E A) : bool := match m with Ok _ => true | _ => false end.

(** The actions make a hand: each is legal, in turn and submitted, only the
    last is a fold, and the hand is over after them. *)
Fixpoint script_legal (l : Log) (acts : list Action) : bool :=
  match Log_Replay l, acts with
  | Ok s, [] => HandOver s
  | Ok s, a :: acts =>
      let q := script_turn l in
      let e := script_entry l q a in
      negb (HandOver s) && is_ok (ExpectedNextPlayer l) && (0 <=? q)
      && ((0 <=? Kind a) && (Kind a <? 2 ^ 8) && (0 <=? Amount a) && (Amount a <? 2 ^ 64))
      && is_ok (ValidateAction s q a) && is_ok (BuildProposal l q a (sks (Z.to_nat q)))
      && bool_decide (head (received (envs (Z.to_nat q)) (Log_RoundID l) 0) = Some a)
      && (negb (Kind a =? ActionFold) || bool_decide (acts = []))
      && script_legal (Append l e) acts
  | _, _ => false
  end.

Lemma script_hand l acts :
  script_legal l acts = true → hand_from sks envs l (script_rounds l acts) (script_log l acts).
Proof.
  revert l. induction acts as [|a acts IH]; intros l Hl; cbn [script_legal] in Hl;
    destruct (Log_Replay l) as [s| |] eqn:Hs; try done; [by eapply hand_ends|].
  rewrite !andb_true_iff in Hl. destruct Hl as ((((((((Ho & Hturn) & Hq) & (((Hk1 & Hk2) & Ha1) & Ha2)) & Hv) & Hb) & Hh) & Hlast) & Hrest).
  unfold script_turn in *. destruct (ExpectedNextPlayer l) as [q| |] eqn:Ht; try done. cbn [ok_or] in *.
  apply Z.leb_le in Hq. cbn [script_rounds script_log]. unfold script_turn. rewrite Ht. cbn [ok_or].
  assert (Z.of_nat (Z.to_nat q) = q) as Hqq by lia.
  apply (hand_goes_on _ _ l s (Z.to_nat q) a); rewrite ?Hqq; try done.
  - by apply negb_true_iff.
  - split; lia.
  - by destruct (ValidateAction s q a) as [[]| |].
  - unfold script_entry. by destruct (BuildProposal l q a (sks (Z.to_nat q))).
  - by apply bool_decide_eq_true in Hh.
  - intros Hf. rewrite Hf in Hlast. apply bool_decide_eq_true in Hlast as ->. done.
  - by apply IH.
Qed.

End script.

Definition scripted (acts : list Action) : Env :=
  mkEnv (λ rid att, option_list (acts !! Z.to_nat rid)) (λ _ _, false) (λ _, false).

Definition seat_runner (ids : list string) (node : Node) (l : Log) (i : nat) : Runner :=
  mkRunner node l (three_sks i) (ed25519_Public (three_sks i)) (mkConfig 30 3)
    (list_to_map (imap (λ j id, (id, ed25519_Public (three_sks j))) ids)) None [] [].

(** Alice and Bob check, see the flop, and Alice folds. *)
Definition short_acts : list Action := [mkAction ActionCheck 0; mkAction ActionCheck 0; mkAction ActionFold 0].
Definition short_log : Log := NewLog 2 100.
Definition short_rounds : list round := script_rounds three_sks short_log short_acts.
Definition short_end : Log := script_log three_sks short_log short_acts.
Definition short_node (i : nat) : Node := board_node two_ids two_keys PRIME PRIME_prime buildOrderedDeck two_own i 0.
Definition short_runner (i : nat) : Runner := seat_runner two_ids (short_node i) short_log i.
Definition short_net : net (res Empty_set (Runner * run_end)) :=
  mkNet ∅ (hand_procs (λ _, in_order) two_ids (λ _, scripted short_acts) 4 short_runner).

Lemma short_seated i : (i < 2)%nat → seated two_ids short_log three_sks i (short_runner i).
Proof.
  intros Hi. constructor; [reflexivity..|]. intros j Hj. cbn [length two_ids] in Hj.
  destruct j as [|[|j]]; [vm_compute; reflexivity..|lia].
Qed.

Lemma short_hand : hand_from three_sks (λ _, scripted short_acts) short_log short_rounds short_end.
Proof. apply script_hand. vm_compute. reflexivity. Qed.

Lemma short_ready :
  hand_ready 2 100 (λ _, in_order) two_ids two_keys buildOrderedDeck two_own three_sks (λ _, scripted short_acts)
    short_log short_rounds short_end short_runner.
Proof.
  constructor.
  - split; lia.
  - split; [apply two_table_ok|reflexivity].
  - apply Permutation_refl.
  - intros _. apply in_order_laws.
  - intros i _. reflexivity.
  - intros x. eexists. reflexivity.
  - intros i rid att _. split; reflexivity.
  - split; [apply reach_new|]. exists (initial_state 2 100). split; [vm_compute; reflexivity|].
    intros i Hi. cbn [length two_ids] in Hi. destruct i as [|[|i]]; [vm_compute; reflexivity..|lia].
  - apply short_hand.
  - vm_compute. reflexivity.
  - intros i Hi. split_and!; [apply short_seated, Hi|vm_compute; discriminate|reflexivity].
Qed.

Definition short_schedule : list nat := Eval vm_compute in greedy [0; 1]%nat 200 short_net.

Lemma hand_agrees_witness :
  (length short_schedule ≤ 2 * (3 * span two_ids))%nat ∧
  ∃ r s, finished (net_after short_schedule short_net) 1 (Ok (r, HandDone s)) ∧ rlog r = short_end ∧
    CommunityCards (rnode r) = (λ j, of_bytes (buildOrderedDeck !!! j)) <$> [4; 5; 6]%nat.
Proof.
  destruct (hand_agrees 2 100 (λ _, in_order) two_ids two_keys buildOrderedDeck two_own three_sks
    (λ _, scripted short_acts) short_log short_rounds short_end short_runner 4 (length short_schedule)
    (net_after short_schedule short_net) short_ready ltac:(vm_compute; lia)
    (net_after_run short_schedule short_net ltac:(vm_compute; reflexivity)))
    as (Hk & s & rs' & _ & _ & _ & Hstuck & Hrs).
  split; [exact Hk|]. exists (rs' 1%nat), s. destruct (Hrs 1%nat) as (Hl & Hc & _); [cbn; lia|].
  split_and!; [|exact Hl|exact Hc]. apply Hstuck; [|cbn; lia].
  apply all_returned_stuck. vm_compute. reflexivity.
Defined.

(** ** A seat that has folded *)

(** At a table of three Alice folds, then Bob folds and Carol wins. *)
Definition folds : list Action := [mkAction ActionFold 0; mkAction ActionFold 0].
Definition folds_net : net (res Empty_set (Runner * run_end)) :=
  mkNet ∅ (hand_procs (λ _, in_order) three_ids (λ _, scripted folds) 3 three_runner).
Definition folds_schedule : list nat := Eval vm_compute in greedy [1; 2; 0]%nat 200 folds_net.
Definition folds_log : Log := script_log three_sks three_log folds.

(** No step is left: every seat has returned or waits for a key nobody has. *)
Definition no_step {A} (n : net A) : bool :=
  forallb (λ i, match net_next i n with Some _ => false | None => true end) (seq 0 (length (procs n))).

Lemma no_step_stuck {A} (n : net A) : no_step n = true → ∀ n', ¬ net_step n n'.
Proof.
  unfold no_step. rewrite forallb_forall. intros Hall n' Hs.
  assert (∃ i, (i < length (procs n))%nat ∧ net_next i n = Some n') as (i & Hi & Hn).
  { destruct Hs as [n i id key v k Hi|n i id t key k v Hi Hv|n i id key k Hi|n i id prefix k Hi];
      exists i; (split; [by apply lookup_lt_Some in Hi|]); unfold net_next; rewrite Hi; [done| |done..].
    by rewrite Hv. }
  specialize (Hall i ltac:(apply in_seq; lia)). by rewrite Hn in Hall.
Qed.

(** The log with which seat [i] has ended its hand, and what it waits for. *)
Definition ended_log (n : net (res Empty_set (Runner * run_end))) (i : nat) : option Log :=
  match procs n !! i with Some (_, Ret (Ok (r, HandDone _))) => Some (rlog r) | _ => None end.

Definition waits_for {A} (n : net A) (i : nat) : option (string * string * string) :=
  match procs n !! i with Some (id, PollRemote t key _) => Some (id, t, key) | _ => None end.

Lemma ended_log_finished n i l :
  ended_log n i = Some l → ∃ r s, finished n i (Ok (r, HandDone s)) ∧ rlog r = l.
Proof.
  unfold ended_log, finished. destruct (procs n !! i) as [[id [[[r []]| |]| | | |]]|]; try done.
  intros [= <-]. eauto.
Qed.

Lemma waits_for_poll {A} (n : net A) i id t key :
  waits_for n i = Some (id, t, key) → ∃ k, procs n !! i = Some (id, PollRemote t key k).
Proof. unfold waits_for. destruct (procs n !! i) as [[? []]|]; try done. intros [= <- <- <-]. eauto. Qed.

(** C40: A folded seat is left behind.  Receipts of folded seats are not awaited, so
    after Alice's fold Bob and Carol commit the next round, and with it drop the
    receipts of the round before, while Alice still needs them.  In this run of
    three honest seats Bob and Carol end the hand with both folds in their logs;
    Alice waits for ever for Bob's receipt of her own fold. *)
Theorem folded_seat_starves :
  let n := net_after folds_schedule folds_net in
  nsteps net_step (length folds_schedule) folds_net n ∧ (∀ n', ¬ net_step n n') ∧
  (∃ r s, finished n 1 (Ok (r, HandDone s)) ∧ rlog r = folds_log) ∧
  (∃ r s, finished n 2 (Ok (r, HandDone s)) ∧ rlog r = folds_log) ∧
  (∃ k, procs n !! 0%nat = Some ("alice", PollRemote "bob" (VerifyKey 0 0 "bob") k)).
Proof.
  cbn zeta. split_and!.
  - apply net_after_run. vm_compute. reflexivity.
  - apply no_step_stuck. vm_compute. reflexivity.
  - apply ended_log_finished. vm_compute. reflexivity.
  - apply ended_log_finished. vm_compute. reflexivity.
  - apply waits_for_poll. vm_compute. reflexivity.
Qed.
