(* ===== verification/Game.v ===== *)
(** * A whole game at a table ([Run] of [internal/round/runner.go])

    The network of [Net] runs one goroutine per computation; here every seat
    runs all of [Run]: the shuffle, then the dealing goroutines of
    [DealHoleCards] in parallel, then, when all of them have returned, the
    betting rounds.  A seat can be ahead of another by a phase or more. *)

From Stdlib Require Import ZArith Lia.
From stdpp Require Import base list gmap strings numbers relations.
From S2P Require Import Prelude Runtime Strconv Ephemeral Deck Net Peer GameState GameLog Runner.

#[local] Open Scope Z_scope.

Abbreviation dealt := (res peer_err (option (Z * string))).

(** Where [Run] is at a seat: in [RunShuffle]; in [DealHoleCards] with the
    goroutines that have not returned and the results in the order of their
    completion; after it. *)
Inductive seat_state :=
| Shuffling (p : proc Node)
| Dealing (node : Node) (ps : list (option (proc (option (Z * string))))) (done : list dealt)
| Betting (p : rproc (Runner * run_end)).

Record game := mkGame { gm_stores : gmap string Store; gm_seats : list seat_state }.

(** One store access of a computation of node [id]. *)
Definition access_step {A} (id : string) (ss : gmap string Store) (p : act A) (ss' : gmap string Store) (p' : act A) : Prop :=
  net_step (mkNet ss [(id, p)]) (mkNet ss' [(id, p')]).

Section game.
Context `{C : SigScheme} `{CE : Codec Entry} `{CR : Codec VerifyReceipt} `{CD : Codec (list bytes)}.
Context (ids : list string) (R : nat → RandSource) (c : nat → nat) (SC : nat → Schedule) (envs : nat → Env) (fuel : nat).
(** The runners the seats start with. *)
Context (rs : nat → Runner).

Definition seat_start (i : nat) : seat_state :=
  if negb (Started (rnode (rs i))) then Betting (Ret (Ok (rs i, RunFailed RunContext)))
  else Shuffling (@RunShuffle _ (R i) (rnode (rs i)) (c i)).

Definition after_shuffle (i : nat) (x : res peer_err Node) : seat_state :=
  match x with
  | Panic => Betting (Ret Panic)
  | Err e => Betting (Ret (Ok (rs i, RunFailed (RunShuffleFailed e))))
  | Ok n => Dealing n (Some <$> deal_procs n) []
  end.

Definition after_deal (i : nat) (n : Node) (done : list dealt) : rproc (Runner * run_end) :=
  match deal_join n done with
  | Panic => Ret Panic
  | Err e => match e with end
  | Ok (n, Some e) => Ret (Ok (set_node n (rs i), RunFailed (RunDealFailed e)))
  | Ok (n, None) => @run_rounds _ _ _ (SC i) (envs i) fuel (set_node n (rs i))
  end.

(** When the goroutines of the deal run one after the other, a seat's states
    are the computation [Run]. *)
Definition seat_run (i : nat) (s : seat_state) : rproc (Runner * run_end) :=
  let betting s := match s with Betting p => p | _ => Ret Panic end in
  let dealing s :=
    match s with
    | Dealing n ps done =>
        act_bind (gather (@completion (SC i) _ (omap id ps))) (λ more, after_deal i n (done ++ more))
    | s => betting s
    end in
  match s with
  | Shuffling p => act_bind p (λ x, dealing (after_shuffle i x))
  | s => dealing s
  end.

Inductive game_step : game → game → Prop :=
| gs_shuffle g i id p ss p' :
    gm_seats g !! i = Some (Shuffling p) → ids !! i = Some id → access_step id (gm_stores g) p ss p' →
    game_step g (mkGame ss (<[i := Shuffling p']> (gm_seats g)))
| gs_shuffled g i x :
    gm_seats g !! i = Some (Shuffling (Ret x)) →
    game_step g (mkGame (gm_stores g) (<[i := after_shuffle i x]> (gm_seats g)))
| gs_deal g i id n ps done t p ss p' :
    gm_seats g !! i = Some (Dealing n ps done) → ids !! i = Some id → ps !! t = Some (Some p) →
    access_step id (gm_stores g) p ss p' →
    game_step g (mkGame ss (<[i := Dealing n (<[t := Some p']> ps) done]> (gm_seats g)))
| gs_dealt g i n ps done t r :
    gm_seats g !! i = Some (Dealing n ps done) → ps !! t = Some (Some (Ret r)) →
    game_step g (mkGame (gm_stores g) (<[i := Dealing n (<[t := None]> ps) (done ++ [r])]> (gm_seats g)))
| gs_join g i n ps done :
    gm_seats g !! i = Some (Dealing n ps done) → Forall (λ o, o = None) ps →
    game_step g (mkGame (gm_stores g) (<[i := Betting (after_deal i n done)]> (gm_seats g)))
| gs_bet g i id p ss p' :
    gm_seats g !! i = Some (Betting p) → ids !! i = Some id → access_step id (gm_stores g) p ss p' →
    game_step g (mkGame ss (<[i := Betting p']> (gm_seats g))).

Definition new_game : game := mkGame ∅ (seat_start <$> seq 0 (length ids)).

Lemma exec_bind {A B} remote s (p : act A) (f : A → act B) :
  exec remote s (act_bind p f) = exec remote (exec remote s p).1 (f (exec remote s p).2).
Proof. revert s. induction p; intros s; cbn; auto. Qed.

(** [Run] is that computation, whatever the other nodes answer. *)
Lemma seat_run_Run i remote s :
  exec remote s (seat_run i (seat_start i)) = exec remote s (@Run _ _ _ (SC i) _ (R i) (envs i) fuel (c i) (rs i)).
Proof.
  unfold seat_start, Run. destruct (negb (Started (rnode (rs i)))); [done|]. unfold seat_run. rewrite !exec_bind.
  destruct (exec remote s (RunShuffle _ _)) as [s1 [n|e|]]; [|done|done]. cbn [after_shuffle fst snd].
  unfold rbind, DealHoleCards. rewrite !exec_bind.
  assert (omap id (Some <$> deal_procs n) = deal_procs n) as -> by (induction (deal_procs n); cbn; congruence).
  destruct (exec remote s1 (gather _)) as [s2 done]. cbn [app fst snd]. unfold after_deal. cbn [exec].
  by destruct (deal_join n done) as [[n' [e|]]|[]|].
Qed.

End game.
