(* ===== verification/Threads.v ===== *)
(** * The threads of a game

    A seat's shuffle, its dealing goroutines and its betting are [thread]s; all
    threads of all seats are numbered, and lists with one entry per seat and
    thread are built and changed here.  [act_map] gives the threads one type of
    results. *)

From Stdlib Require Import ZArith Lia.
From stdpp Require Import base list gmap strings numbers relations sorting.
From S2P Require Import Prelude Runtime Ephemeral Net Clean Game.

(** ** Threads in a list *)

Inductive thread := TShuffle | TDeal (slot : nat) | THand.

#[export] Instance thread_eq_dec : EqDecision thread.
Proof. solve_decision. Defined.

(** What a thread waits for. *)
Definition before (th th' : thread) : bool :=
  match th, th' with
  | TShuffle, TDeal _ | TShuffle, THand | TDeal _, THand => true
  | _, _ => false
  end.

Section flat.
Context (n : nat).

Definition th_ok (th : thread) : Prop := match th with TDeal s => (s < 2 * n)%nat | _ => True end.
Definition th_index (th : thread) : nat := match th with TShuffle => 0%nat | TDeal s => S s | THand => (2 * n + 1)%nat end.
Definition index (i : nat) (th : thread) : nat := (i * (2 * n + 2) + th_index th)%nat.

Lemma th_index_lt th : th_ok th → (th_index th < 2 * n + 2)%nat.
Proof. destruct th; cbn; lia. Qed.

Lemma index_inj i th i' th' : th_ok th → th_ok th' → index i th = index i' th' → i = i' ∧ th = th'.
Proof.
  intros Ht Ht' Heq. unfold index in Heq. pose proof (th_index_lt th Ht). pose proof (th_index_lt th' Ht').
  assert (i = i') as <- by nia. split; [done|]. assert (th_index th = th_index th') as E by lia.
  destruct th, th'; cbn in *; try lia; try done. f_equal. lia.
Qed.

(** One entry per seat and thread. *)
Definition block {B} (f : thread → B) : list B := f TShuffle :: ((λ s, f (TDeal s)) <$> seq 0 (2 * n)) ++ [f THand].
Definition flat {B} (f : nat → thread → B) : list B := concat ((λ i, block (f i)) <$> seq 0 n).

Lemma block_length {B} (f : thread → B) : length (block f) = (2 * n + 2)%nat.
Proof. unfold block. cbn. rewrite length_app, length_fmap, length_seq. cbn. lia. Qed.

Lemma block_lookup {B} (f : thread → B) t x : block f !! t = Some x ↔ ∃ th, th_ok th ∧ t = th_index th ∧ x = f th.
Proof.
  unfold block. split.
  - destruct t as [|t]; cbn; [intros [= <-]; by exists TShuffle|].
    intros [(s & -> & [-> Hs]%lookup_seq)%list_lookup_fmap_Some|[Hge Ht]]%lookup_app_Some.
    + exists (TDeal t). cbn. split_and!; [lia|done|done].
    + rewrite length_fmap, length_seq in Hge, Ht. apply list_lookup_singleton_Some in Ht as [Ht <-].
      exists THand. cbn. split_and!; [done|lia|done].
  - intros ([|s|] & Hok & -> & ->); cbn in *; [done| |].
    + apply lookup_app_l_Some. rewrite list_lookup_fmap, lookup_seq_lt by lia. done.
    + rewrite Nat.add_1_r, lookup_cons, lookup_app_r; rewrite length_fmap, length_seq; [|lia]. by rewrite Nat.sub_diag.
Qed.

Lemma concat_lookup {B} (bs : list (list B)) m i t :
  Forall (λ b, length b = m) bs → (t < m)%nat → concat bs !! (i * m + t)%nat = bs !! i ≫= λ b, b !! t.
Proof.
  intros Hall Ht. revert i. induction Hall as [|b bs Hb _ IH]; intros i; [by destruct i|]. cbn [concat].
  destruct i as [|i].
  - rewrite lookup_app_l by (rewrite Hb; lia). done.
  - rewrite lookup_app_r by (rewrite Hb; nia). rewrite Hb. replace (S i * m + t - m)%nat with (i * m + t)%nat by nia. apply IH.
Qed.

Lemma concat_length {B} (bs : list (list B)) m : Forall (λ b, length b = m) bs → length (concat bs) = (length bs * m)%nat.
Proof. induction 1 as [|b bs Hb _ IH]; [done|]. cbn [concat length]. rewrite length_app, IH, Hb. lia. Qed.

Lemma flat_blocks {B} (f : nat → thread → B) : Forall (λ b, length b = 2 * n + 2)%nat ((λ i, block (f i)) <$> seq 0 n).
Proof. apply list.Forall_forall. intros b (i & -> & _)%list_elem_of_fmap. apply block_length. Qed.

Lemma flat_length {B} (f : nat → thread → B) : length (flat f) = (n * (2 * n + 2))%nat.
Proof. unfold flat. rewrite (concat_length _ _ (flat_blocks f)), length_fmap, length_seq. done. Qed.

Lemma flat_lookup {B} (f : nat → thread → B) k x :
  flat f !! k = Some x ↔ ∃ i th, (i < n)%nat ∧ th_ok th ∧ k = index i th ∧ x = f i th.
Proof.
  split.
  - intros Hk. pose proof (lookup_lt_Some _ _ _ Hk) as Hlt. rewrite flat_length in Hlt.
    set (m := (2 * n + 2)%nat) in *. assert (k = k / m * m + k mod m)%nat as Hdm by (pose proof (Nat.div_mod_eq k m); lia).
    assert (k mod m < m)%nat as Hm by (apply Nat.mod_upper_bound; lia). rewrite Hdm in Hk.
    unfold flat in Hk. rewrite (concat_lookup _ m _ _ (flat_blocks f) Hm) in Hk.
    apply bind_Some in Hk as (b & (i & -> & [-> Hi]%lookup_seq)%list_lookup_fmap_Some & (th & Hok & Hth & ->)%block_lookup).
    exists (0 + k / m)%nat, th. split_and!; [lia|done| |done]. unfold index. fold m. rewrite <- Hth. lia.
  - intros (i & th & Hi & Hok & -> & ->). unfold flat, index.
    rewrite (concat_lookup _ _ _ _ (flat_blocks f)) by (by apply th_index_lt).
    rewrite list_lookup_fmap, lookup_seq_lt by done. apply block_lookup. by exists th.
Qed.

Lemma flat_at {B} (f : nat → thread → B) i th : (i < n)%nat → th_ok th → flat f !! index i th = Some (f i th).
Proof. intros Hi Hok. apply flat_lookup. by exists i, th. Qed.

Lemma flat_ext {B} (f g : nat → thread → B) : (∀ i th, (i < n)%nat → th_ok th → f i th = g i th) → flat f = flat g.
Proof.
  intros Hfg. apply list_eq_same_length with (n := (n * (2 * n + 2))%nat); [apply flat_length..|].
  intros k x y _ (i & th & Hi & Hok & -> & ->)%flat_lookup Hy. rewrite flat_at in Hy by done. injection Hy as <-. by apply Hfg.
Qed.

Lemma flat_insert {B} (f g : nat → thread → B) i th x :
  (i < n)%nat → th_ok th → g i th = x →
  (∀ j th', (j < n)%nat → th_ok th' → (j, th') ≠ (i, th) → g j th' = f j th') →
  <[index i th := x]> (flat f) = flat g.
Proof.
  intros Hi Hok Hx Hrest. apply list_eq_same_length with (n := (n * (2 * n + 2))%nat);
    [rewrite ?length_insert; apply flat_length..|].
  intros k a b _ Ha (j & th' & Hj & Hok' & -> & ->)%flat_lookup.
  destruct (decide ((j, th') = (i, th))) as [[= -> ->]|Hne].
  - rewrite list_lookup_insert_eq in Ha by (eapply lookup_lt_Some, (flat_at f); done).
    by simplify_eq.
  - rewrite list_lookup_insert_ne, flat_at in Ha by
      (done || intros Heq; apply Hne; by destruct (index_inj i th j th' Hok Hok' Heq) as [-> ->]).
    injection Ha as <-. symmetry. by apply Hrest.
Qed.

Lemma flat_fmap {B D} (h : B → D) (f : nat → thread → B) : h <$> flat f = flat (λ i th, h (f i th)).
Proof.
  apply list_eq_same_length with (n := (n * (2 * n + 2))%nat); [rewrite ?length_fmap; apply flat_length..|].
  intros k x y _ (z & -> & (i & th & Hi & Hok & -> & ->)%flat_lookup)%list_lookup_fmap_Some Hy.
  rewrite flat_at in Hy by done. by injection Hy.
Qed.

Lemma flat_sum (f : nat → thread → nat) b :
  (∀ i, (i < n)%nat → f i TShuffle + sum_list ((λ s, f i (TDeal s)) <$> seq 0 (2 * n)) + f i THand ≤ b)%nat →
  (sum_list (flat f) ≤ n * b)%nat.
Proof.
  intros Hb. unfold flat. assert (∀ is_, Forall (λ i, i < n)%nat is_ →
    (sum_list (concat ((λ i, block (f i)) <$> is_)) ≤ length is_ * b)%nat) as Hsum.
  { induction 1 as [|i is_ Hi _ IH]; [done|]. rewrite fmap_cons, length_cons. cbn [concat].
    rewrite sum_list_with_app. unfold block at 1. specialize (Hb i Hi).
    assert (∀ x l, sum_list (x :: l) = x + sum_list l)%nat as Hcons by done.
    rewrite Hcons, sum_list_with_app, Hcons. change (sum_list []) with 0%nat. lia. }
  specialize (Hsum (seq 0 n)). rewrite length_seq in Hsum. apply Hsum. apply list.Forall_forall. intros i Hi%elem_of_seq. lia.
Qed.

End flat.

(** ** One type of results *)

Definition act_map {A B} (f : A → B) (p : act A) : act B := act_bind p (λ a, Ret (f a)).

Lemma act_map_Ret {A B} (f : A → B) (p : act A) b : act_map f p = Ret b → ∃ a, p = Ret a ∧ b = f a.
Proof. destruct p; cbn; try done. intros [= <-]. by eexists. Qed.

Lemma tracks_map {A B} (I : string → string → list Z → Prop) id (f : A → B) p tr r :
  tracks I id p tr r → tracks I id (act_map f p) tr (f r).
Proof. intros Hp. rewrite <- (app_nil_r tr). eapply tracks_bind; [exact Hp|constructor]. Qed.

Lemma tracks_mono {A} (I J : string → string → list Z → Prop) id (p : act A) tr r :
  (∀ id key v, I id key v → J id key v) → tracks I id p tr r → tracks J id p tr r.
Proof. intros HIJ Hp. induction Hp; econstructor; eauto. Qed.

(** An access of a computation is an access of the network it is part of. *)
Lemma does_map {A B} (f : A → B) n k id p a ss' p' (m : net B) j :
  does n k id p a ss' p' → stores m = stores n → does m j id (act_map f p) a ss' (act_map f p').
Proof.
  unfold act_map. intros [key v q|t key q v Hg|key q|prefix q] Heq; cbn [act_bind]; rewrite <- ?Heq.
  - apply does_host.
  - apply (does_poll m j id t key (λ v, act_bind (q v) _)). by rewrite Heq.
  - apply does_remove.
  - apply does_prefix.
Qed.

Lemma does_unmap {A B} (f : A → B) n k id p a ss' q (m : net A) j :
  does n k id (act_map f p) a ss' q → stores m = stores n → ∃ p', does m j id p a ss' p'.
Proof.
  intros Hd Heq. inversion Hd as [key v k' Hp|t key k' v Hg Hp|key k' Hp|prefix k' Hp]; subst; destruct p; try discriminate Hp;
    injection Hp as; subst; rewrite <- ?Heq; eexists.
  - apply does_host.
  - apply does_poll. by rewrite Heq.
  - apply does_remove.
  - apply does_prefix.
Qed.

Lemma access_net_step {A B} (f : A → B) id ss p ss' p' qs j :
  access_step id ss p ss' p' → qs !! j = Some (id, act_map f p) →
  net_step (mkNet ss qs) (mkNet ss' (<[j := (id, act_map f p')]> qs)).
Proof.
  intros Hs Hj. apply net_step_at in Hs as (k & id' & q & a & ss1 & q' & Hk & Hd & [= <- Hq]). cbn in Hk.
  apply list_lookup_singleton_Some in Hk as [-> [= <- <-]]. cbn in Hq. injection Hq as <-.
  eapply (does_step (mkNet ss qs)); [exact Hj|by eapply does_map].
Qed.

Lemma net_access_step {A B} (f : A → B) id ss p qs j n' :
  step_at j (mkNet ss qs) n' → qs !! j = Some (id, act_map f p) → ∃ ss' p', access_step id ss p ss' p'.
Proof.
  intros (id' & q & a & ss1 & q' & Hk & Hd & ->) Hj. cbn in Hk. rewrite Hj in Hk. injection Hk as <- <-.
  destruct (does_unmap f _ _ id p a ss1 q' (mkNet ss [(id, p)]) 0 Hd eq_refl) as [p' Hp'].
  exists ss1, p'. exact (does_step (mkNet ss [(id, p)]) 0 id p a ss1 p' eq_refl Hp').
Qed.

(** ** Finite choice *)

Lemma finite_choice {A} `{Inhabited A} (P : nat → A → Prop) n :
  (∀ i, (i < n)%nat → ∃ a, P i a) → ∃ f, ∀ i, (i < n)%nat → P i (f i).
Proof.
  induction n as [|n IH]; intros Hex; [exists (λ _, inhabitant); lia|].
  destruct IH as [f Hf]; [intros i Hi; apply Hex; lia|]. destruct (Hex n) as [a Ha]; [lia|].
  exists (λ i, if decide (i = n) then a else f i). intros i Hi. case_decide as Hin; [by subst|]. apply Hf. lia.
Qed.

(** ** Times *)

Definition shift (k : nat) (tr : timed) : timed := prod_map (Nat.add k) id <$> tr.

Lemma elem_of_shift k tr s a : (s, a) ∈ shift k tr ↔ ∃ s', s = (k + s')%nat ∧ (s', a) ∈ tr.
Proof.
  unfold shift. rewrite list_elem_of_fmap. split.
  - intros ([s' a'] & [= -> ->] & Hin). by exists s'.
  - intros (s' & -> & Hin). by exists (s', a).
Qed.

Lemma shift_within k lo hi tr : within lo hi tr → within (k + lo) (k + hi) (shift k tr).
Proof.
  intros [Hs Hb]. split.
  - unfold shift. rewrite <- list_fmap_compose. clear Hb. induction tr as [|[s a] tr IH]; [constructor|]. cbn in *.
    apply StronglySorted_inv in Hs as [Hs Hlt]. constructor; [by apply IH|].
    rewrite list.Forall_forall in Hlt |- *. intros t ([s' a'] & -> & Hin)%list_elem_of_fmap. cbn.
    specialize (Hlt s' (list_elem_of_fmap_2 fst _ _ Hin)). lia.
  - intros [s a] (s' & -> & Hin)%elem_of_shift. specialize (Hb _ Hin). cbn in *. lia.
Qed.

Lemma shift_accesses k tr : snd <$> shift k tr = snd <$> tr.
Proof. unfold shift. rewrite <- list_fmap_compose. apply list_fmap_ext. by intros _ [s a] _. Qed.

Lemma shift_awaited k tri trj id s z :
  awaited tri trj id s z → awaited (shift k tri) (shift k trj) id (k + s) (k + z).
Proof.
  intros (key & z' & x & Hpo & Hz & Hh & Hs). exists key, (k + z')%nat, (k + x)%nat.
  rewrite !elem_of_shift. split_and!; [by exists z'|lia|by exists x|lia].
Qed.

(** A plan of [Net], with its times. *)
Definition plan_timed (tr : list event) : timed := (λ e, (event_time e, to_access e)) <$> tr.

Lemma plan_accesses tr : snd <$> plan_timed tr = to_access <$> tr.
Proof. unfold plan_timed. by rewrite <- list_fmap_compose. Qed.

Lemma elem_of_plan tr s a : (s, a) ∈ plan_timed tr ↔ ∃ e, e ∈ tr ∧ s = event_time e ∧ a = to_access e.
Proof. unfold plan_timed. rewrite list_elem_of_fmap. naive_solver. Qed.

Lemma plan_within tr n :
  StronglySorted lt (event_time <$> tr) → Forall (λ e, match e with EHost _ m | EPoll _ _ m => m < n end)%nat tr →
  within 0 (2 * n + 1) (plan_timed tr).
Proof.
  intros Hs Hall. split; [by unfold plan_timed; rewrite <- list_fmap_compose|].
  intros [s a] (e & He & -> & _)%elem_of_plan. rewrite list.Forall_forall in Hall. specialize (Hall e He).
  destruct e; cbn in *; lia.
Qed.
