(* ===== verification/GameSim.v ===== *)
(** * A game is a network of threads

    [game_step] lets a seat start a thread only when those before it have
    returned.  Given the traces of the threads with the conditions of [Clean],
    the game refines the network of all threads: [game_sim] says that every
    game ends with the results the threads return. *)

From Stdlib Require Import ZArith Lia.
From stdpp Require Import base list gmap strings numbers relations sorting.
From S2P Require Import Prelude Runtime Ephemeral Deck Net Peer GameState GameLog Runner Clean Game Threads.

#[local] Open Scope Z_scope.

(** What a thread returns. *)
Inductive outcome :=
| OShuffled (x : res peer_err Node)
| ODealt (x : dealt)
| OPlayed (x : res Empty_set (Runner * run_end)).

Section sim.
Context `{C : SigScheme} `{CE : Codec Entry} `{CR : Codec VerifyReceipt} `{CD : Codec (list bytes)}.
Context (ids : list string) (R : nat → RandSource) (c : nat → nat) (SC : nat → Schedule) (envs : nat → Env) (fuel : nat).
Context (rs : nat → Runner).
(** What the shuffle, the slots of the deal and the betting return. *)
Context (node : nat → Node) (hole : nat → nat → dealt) (ready : nat → Runner) (played : nat → res Empty_set (Runner * run_end)).

Abbreviation n := (length ids).
Abbreviation step := (game_step ids SC envs fuel rs).

Definition thread_code (i : nat) (th : thread) : act outcome :=
  match th with
  | TShuffle => act_map OShuffled (@RunShuffle _ (R i) (rnode (rs i)) (c i))
  | TDeal s => act_map ODealt (dealHoleSlot (node i) (Z.of_nat s))
  | THand => act_map OPlayed (@run_rounds _ _ _ (SC i) (envs i) fuel (ready i))
  end.

Definition thread_result (i : nat) (th : thread) : outcome :=
  match th with
  | TShuffle => OShuffled (Ok (node i))
  | TDeal s => ODealt (hole i s)
  | THand => OPlayed (played i)
  end.

Definition game_ids : list string := flat n (λ i _, ids !!! i).
Definition game_results : list outcome := flat n thread_result.

(** A thread of a seat starts when those before it have returned. *)
Definition game_gate (j k : nat) : Prop :=
  ∃ i th th', (i < n)%nat ∧ th_ok n th ∧ th_ok n th' ∧ j = index n i th ∧ k = index n i th' ∧ before th th' = true.

(** ** The threads of a seat in a state *)

Definition seat_code (i : nat) (st : seat_state) (th : thread) : act outcome :=
  match st, th with
  | Shuffling p, TShuffle => act_map OShuffled p
  | Dealing _ ps _, TDeal s => match ps !! s with Some (Some p) => act_map ODealt p | _ => Ret (thread_result i th) end
  | Betting p, THand => act_map OPlayed p
  | Shuffling _, _ | Dealing _ _ _, THand => thread_code i th
  | _, _ => Ret (thread_result i th)
  end.

Definition seat_procs (seats : list seat_state) : list (string * act outcome) :=
  flat n (λ i th, (ids !!! i, match seats !! i with Some st => seat_code i st th | None => thread_code i th end)).

(** The results that a dealing seat has collected. *)
Definition returned (ps : list (option (proc (option (Z * string))))) (s : nat) : bool :=
  match ps !! s with Some None => true | _ => false end.
Definition collected (i : nat) (ps : list (option (proc (option (Z * string))))) : list dealt :=
  hole i <$> filter (λ s, returned ps s = true) (seq 0 (2 * n)).

Definition seat_ok (i : nat) (st : seat_state) : Prop :=
  match st with
  | Dealing nd ps done => nd = node i ∧ length ps = (2 * n)%nat ∧ done ≡ₚ collected i ps
  | _ => True
  end.

Definition running (o : option (proc (option (Z * string)))) : nat := if o then 1%nat else 0%nat.

(** Steps of a seat that access no store. *)
Definition pending (st : seat_state) : nat :=
  match st with Shuffling _ => (2 * n + 2)%nat | Dealing _ ps _ => S (sum_list (running <$> ps)) | Betting _ => 0%nat end.

Lemma collected_more i ps t p :
  length ps = (2 * n)%nat → ps !! t = Some (Some p) → collected i (<[t := None]> ps) ≡ₚ collected i ps ++ [hole i t].
Proof.
  intros Hl Ht. pose proof (lookup_lt_Some _ _ _ Ht) as Hlt. unfold collected, returned.
  change [hole i t] with (hole i <$> [t]). rewrite <- fmap_app.
  apply fmap_Permutation, NoDup_Permutation.
  - apply NoDup_filter, NoDup_seq.
  - apply NoDup_app. split_and!; [apply NoDup_filter, NoDup_seq| |apply NoDup_singleton].
    intros s [Hs _]%list_elem_of_filter ->%list_elem_of_singleton. by rewrite Ht in Hs.
  - intros s. rewrite elem_of_app, list_elem_of_singleton, !list_elem_of_filter, elem_of_seq.
    destruct (decide (s = t)) as [->|Hne].
    + rewrite list_lookup_insert_eq by done. split; [by right|]. intros _. split; [done|lia].
    + rewrite list_lookup_insert_ne by done. naive_solver.
Qed.

Lemma collected_all i ps :
  length ps = (2 * n)%nat → Forall (λ o, o = None) ps → collected i ps ≡ₚ hole i <$> seq 0 (2 * n).
Proof.
  intros Hl Hall. unfold collected. apply fmap_Permutation, NoDup_Permutation;
    [apply NoDup_filter, NoDup_seq|apply NoDup_seq|].
  intros s. rewrite list_elem_of_filter, elem_of_seq. split; [tauto|]. intros Hs. split; [|done].
  destruct (lookup_lt_is_Some_2 ps s) as [o Ho]; [lia|]. unfold returned. rewrite Ho.
  rewrite list.Forall_forall in Hall. by rewrite (Hall o) by (by eapply list_elem_of_lookup_2).
Qed.

Lemma collected_none i qs : collected i (Some <$> qs) = [].
Proof.
  unfold collected. destruct (filter _ (seq 0 (2 * n))) as [|s l] eqn:Hf; [done|exfalso].
  assert (s ∈ filter (λ s, returned (Some <$> qs) s = true) (seq 0 (2 * n))) as [Hs _]%list_elem_of_filter
    by (rewrite Hf; left).
  unfold returned in Hs. rewrite list_lookup_fmap in Hs. by destruct (qs !! s).
Qed.

(** ** What a step of a seat does to the threads *)

Lemma procs_at seats i st th :
  (i < n)%nat → th_ok n th → seats !! i = Some st → seat_procs seats !! index n i th = Some (ids !!! i, seat_code i st th).
Proof. intros Hi Hth Hst. unfold seat_procs. rewrite flat_at by done. by rewrite Hst. Qed.

Lemma procs_same seats i st st' :
  (i < n)%nat → seats !! i = Some st → (∀ th, th_ok n th → seat_code i st' th = seat_code i st th) →
  seat_procs (<[i := st']> seats) = seat_procs seats.
Proof.
  intros Hi Hst Hsame. apply flat_ext. intros j th Hj Hth. destruct (decide (j = i)) as [->|Hne].
  - rewrite list_lookup_insert_eq by (by eapply lookup_lt_Some). by rewrite Hst, Hsame.
  - by rewrite list_lookup_insert_ne.
Qed.

Lemma procs_moved seats i st st' th :
  (i < n)%nat → th_ok n th → seats !! i = Some st → (∀ th', th_ok n th' → th' ≠ th → seat_code i st' th' = seat_code i st th') →
  seat_procs (<[i := st']> seats) = <[index n i th := (ids !!! i, seat_code i st' th)]> (seat_procs seats).
Proof.
  intros Hi Hth Hst Hrest. symmetry. apply flat_insert; [done|done| |].
  - by rewrite list_lookup_insert_eq by (by eapply lookup_lt_Some).
  - intros j th' Hj Hth' Hne. destruct (decide (j = i)) as [->|Hji].
    + rewrite list_lookup_insert_eq by (by eapply lookup_lt_Some). rewrite Hst, Hrest; [done|done|]. intros ->. by apply Hne.
    + by rewrite list_lookup_insert_ne.
Qed.

(** ** The refinement *)

Context (Hstarted : ∀ i, (i < n)%nat → Started (rnode (rs i)) = true).
Context (Horder : ∀ i, (i < n)%nat → length (Order (node i)) = n).
Context (Hjoin : ∀ i done, (i < n)%nat → done ≡ₚ hole i <$> seq 0 (2 * n) →
  after_deal SC envs fuel rs i (node i) done = @run_rounds _ _ _ (SC i) (envs i) fuel (ready i)).
Context (I : string → string → list Z → Prop) (I_fun : ∀ id key v v', I id key v → I id key v' → v = v').
Context (trs : list timed) (Hclean : clean game_ids trs game_gate) (Htrs : length trs = length game_ids).
Context (Htracks : ∀ i th tr, (i < n)%nat → th_ok n th → trs !! index n i th = Some tr →
  tracks I (ids !!! i) (thread_code i th) (snd <$> tr) (thread_result i th)).

Abbreviation net_of g := (mkNet (gm_stores g) (seat_procs (gm_seats g))).

Record game_inv (g : game) (prs : list (timed * timed)) : Prop := {
  gi_net : clean_inv I game_ids trs game_results (net_of g) prs;
  gi_seats : length (gm_seats g) = n;
  gi_ok : ∀ i st, gm_seats g !! i = Some st → seat_ok i st;
}.

Lemma results_length : length game_results = length game_ids.
Proof. unfold game_results, game_ids. by rewrite !flat_length. Qed.

(** A thread that has returned has its result. *)
Lemma thread_returned g prs i st th x :
  game_inv g prs → gm_seats g !! i = Some st → th_ok n th → seat_code i st th = Ret x → x = thread_result i th.
Proof using Htrs.
  intros [Hnet Hlen _] Hst Hth Hx. assert (i < n)%nat as Hi by (rewrite <- Hlen; by eapply lookup_lt_Some).
  eapply (clean_result I game_ids trs game_results Htrs results_length _ prs (index n i th)); [done| |by apply (flat_at n thread_result)].
  exists (ids !!! i). cbn. rewrite <- Hx. by apply procs_at.
Qed.

Definition internal (g : game) : nat := sum_list (pending <$> gm_seats g).

Lemma internal_insert g i st st' ss :
  gm_seats g !! i = Some st → (internal (mkGame ss (<[i := st']> (gm_seats g))) + pending st = internal g + pending st')%nat.
Proof. intros Hst. by apply (sum_list_insert pending). Qed.

Lemma ok_insert g i st' :
  (∀ j st, gm_seats g !! j = Some st → seat_ok j st) → seat_ok i st' →
  ∀ j st, <[i := st']> (gm_seats g) !! j = Some st → seat_ok j st.
Proof.
  intros Hok Hst' j st. destruct (decide (j = i)) as [->|Hne].
  - intros Hj. destruct (decide (i < length (gm_seats g))%nat) as [Hlt|Hge].
    + rewrite list_lookup_insert_eq in Hj by done. by injection Hj as <-.
    + rewrite list_insert_ge in Hj by lia. by apply Hok.
  - rewrite list_lookup_insert_ne by done. apply Hok.
Qed.

(** A step that only moves a seat on. *)
Lemma sim_internal g prs i st st' :
  game_inv g prs → gm_seats g !! i = Some st → (∀ th, th_ok n th → seat_code i st' th = seat_code i st th) → seat_ok i st' →
  pending st = S (pending st') → let g' := mkGame (gm_stores g) (<[i := st']> (gm_seats g)) in
  game_inv g' prs ∧ (left_over prs + internal g = S (left_over prs + internal g'))%nat.
Proof.
  intros [Hnet Hlen Hok] Hst Hsame Hst' Hpend g'. assert (i < n)%nat as Hi by (rewrite <- Hlen; by eapply lookup_lt_Some). split.
  - constructor; cbn [gm_stores gm_seats g'].
    + by rewrite (procs_same _ i st st' Hi Hst Hsame).
    + by rewrite length_insert.
    + by apply ok_insert.
  - pose proof (internal_insert g i st st' (gm_stores g) Hst). fold g' in H. lia.
Qed.

(** A store access of a thread of a seat. *)
Lemma sim_access {A} (f : A → outcome) g prs i id st st' th p ss p' :
  game_inv g prs → gm_seats g !! i = Some st → ids !! i = Some id → th_ok n th → access_step id (gm_stores g) p ss p' →
  seat_code i st th = act_map f p → seat_code i st' th = act_map f p' →
  (∀ th', th_ok n th' → th' ≠ th → seat_code i st' th' = seat_code i st th') → seat_ok i st' → pending st' = pending st →
  let g' := mkGame ss (<[i := st']> (gm_seats g)) in
  ∃ prs', game_inv g' prs' ∧ (left_over prs + internal g = S (left_over prs' + internal g'))%nat.
Proof using I_fun Hclean Htrs.
  intros [Hnet Hlen Hok] Hst Hid Hth Hs Hp Hp' Hrest Hst' Hpend g'.
  assert (i < n)%nat as Hi by (rewrite <- Hlen; by eapply lookup_lt_Some).
  apply list_lookup_total_correct in Hid as Hid'. subst id.
  pose proof (procs_at (gm_seats g) i st th Hi Hth Hst) as Hat. rewrite Hp in Hat.
  destruct (clean_step I I_fun game_ids trs game_results game_gate Hclean Htrs results_length _ prs _ Hnet
    (access_net_step f (ids !!! i) _ p ss p' _ _ Hs Hat)) as (prs' & Hnet' & Hleft).
  exists prs'. split.
  - constructor; cbn [gm_stores gm_seats g'].
    + by rewrite (procs_moved _ i st st' th Hi Hth Hst Hrest), Hp'.
    + by rewrite length_insert.
    + by apply ok_insert.
  - pose proof (internal_insert g i st st' ss Hst). fold g' in H. lia.
Qed.

(** The threads of a seat that starts to deal are those that were to start. *)
Lemma deal_starts i p : (i < n)%nat → ∀ th, th_ok n th →
  seat_code i (Dealing (node i) (Some <$> deal_procs (node i)) []) th =
  match th with TShuffle => Ret (thread_result i th) | _ => seat_code i (Shuffling p) th end.
Proof using Horder.
  intros Hi [|s|] Hth; [done| |done]. cbn [seat_code]. unfold deal_procs. rewrite (Horder i Hi).
  rewrite !list_lookup_fmap, lookup_seq_lt by (cbn in Hth; clear -Hth; lia). done.
Qed.

Lemma sim_step g prs g' :
  game_inv g prs → step g g' → ∃ prs', game_inv g' prs' ∧ (left_over prs + internal g = S (left_over prs' + internal g'))%nat.
Proof using I_fun Hclean Htrs Hjoin Horder.
  intros Hinv Hs. pose proof (gi_ok g prs Hinv) as Hok.
  assert (∀ i st, gm_seats g !! i = Some st → (i < n)%nat) as Hlt
    by (intros i st Hi; rewrite <- (gi_seats g prs Hinv); by eapply lookup_lt_Some).
  destruct Hs as [g i id p ss p' Hi Hid Ha|g i x Hi|g i id nd ps done t p ss p' Hi Hid Ht Ha|g i nd ps done t r Hi Ht|
    g i nd ps done Hi Hall|g i id p ss p' Hi Hid Ha].
  - eapply (sim_access OShuffled _ _ _ _ _ _ TShuffle); try done. by intros [] _ ?.
  - assert (OShuffled x = thread_result i TShuffle) as [= ->] by (by eapply thread_returned).
    exists prs. apply (sim_internal _ _ i (Shuffling (Ret (Ok (node i))))); [done|done| | |].
    + intros th Hth. cbn [after_shuffle]. rewrite (deal_starts i (Ret (Ok (node i)))) by (by eauto). by destruct th.
    + cbn [after_shuffle seat_ok]. split_and!; [done| |by rewrite collected_none].
      unfold deal_procs. rewrite !length_fmap, length_seq, Horder by (by eauto). lia.
    + cbn [after_shuffle pending]. unfold deal_procs. rewrite <- !list_fmap_compose.
      rewrite Horder by (by eauto). replace (2 * n + 2)%nat with (S (S (length (seq 0 (n * 2))))) by (rewrite length_seq; lia).
      do 2 f_equal. induction (seq 0 (n * 2)) as [|s l IH]; [done|]. cbn. by f_equal.
  - destruct (Hok _ _ Hi) as (-> & Hl & Hd). assert (t < 2 * n)%nat as Htn by (rewrite <- Hl; by eapply lookup_lt_Some).
    eapply (sim_access ODealt _ _ _ _ _ _ (TDeal t)); try done.
    + cbn. by rewrite Ht.
    + cbn. by rewrite list_lookup_insert_eq by lia.
    + intros [|s|] _ Hne; [done| |done]. cbn. rewrite list_lookup_insert_ne by congruence. done.
    + cbn [seat_ok]. rewrite length_insert. split_and!; [done..|]. rewrite Hd. unfold collected.
      rewrite (filter_ext_in _ (λ s, returned (<[t := Some p']> ps) s = true)); [done|]. intros s _. unfold returned.
      destruct (decide (s = t)) as [->|Hne]; [by rewrite list_lookup_insert_eq, Ht by lia|by rewrite list_lookup_insert_ne].
    + cbn [pending]. pose proof (sum_list_insert running ps t _ (Some p') Ht). cbn [running] in H. lia.
  - destruct (Hok _ _ Hi) as (-> & Hl & Hd). assert (t < 2 * n)%nat as Htn by (rewrite <- Hl; by eapply lookup_lt_Some).
    assert (ODealt r = thread_result i (TDeal t)) as [= ->].
    { eapply thread_returned; [done|done|done|]. cbn. by rewrite Ht. }
    exists prs. eapply sim_internal; [done|done| | |].
    + intros [|s|] Hth; [done| |done]. cbn. destruct (decide (s = t)) as [->|Hne].
      * by rewrite list_lookup_insert_eq, Ht by lia.
      * by rewrite list_lookup_insert_ne.
    + cbn [seat_ok]. rewrite length_insert. split_and!; [done..|]. rewrite Hd. symmetry. by eapply collected_more.
    + cbn [pending]. pose proof (sum_list_insert running ps t _ None Ht). cbn [running] in H. lia.
  - destruct (Hok _ _ Hi) as (-> & Hl & Hd). rewrite Hjoin by (eauto || by rewrite Hd, collected_all).
    exists prs. eapply sim_internal; [done|done| |done|].
    + intros [|s|] Hth; [done| |done]. cbn. destruct (ps !! s) as [[p|]|] eqn:Hp; [|done|done].
      rewrite list.Forall_forall in Hall. discriminate (Hall (Some p)). by eapply list_elem_of_lookup_2.
    + cbn [pending]. f_equal. clear -Hall. induction Hall as [|o ps -> _ IH]; [done|]. cbn. done.
  - eapply (sim_access OPlayed _ _ _ _ _ _ THand); try done. by intros [] _ ?.
Qed.

(** A seat whose threads up to the next one have returned can go on. *)
Lemma seat_moves g i st :
  gm_seats g !! i = Some st → (i < n)%nat → seat_ok i st →
  match st with
  | Shuffling p => ∃ x, seat_code i st TShuffle = Ret x
  | Dealing _ _ _ => ∀ s, (s < 2 * n)%nat → ∃ x, seat_code i st (TDeal s) = Ret x
  | Betting _ => False
  end → ∃ g', step g g'.
Proof.
  intros Hst Hi Hok. destruct st as [p|nd ps dn|p]; [| |done].
  - intros (x & (y & -> & _)%act_map_Ret). eexists. by eapply gs_shuffled.
  - intros Hall. destruct Hok as (_ & Hl & _).
    destruct (decide (Exists (λ o, running o = 1%nat) ps)) as [Hex|Hno].
    + apply list.Exists_exists in Hex as ([p|] & [t Ht]%list_elem_of_lookup_1 & Hr); [|discriminate Hr].
      destruct (Hall t) as [x Hx]; [rewrite <- Hl; by eapply lookup_lt_Some|]. cbn in Hx. rewrite Ht in Hx.
      apply act_map_Ret in Hx as (y & -> & _). eexists. by eapply gs_dealt.
    + eexists. eapply gs_join; [exact Hst|]. apply list.Forall_forall. intros [p|] Hin; [|done].
      destruct Hno. apply list.Exists_exists. by exists (Some p).
Qed.

Lemma finished_code g i st th x :
  gm_seats g !! i = Some st → (i < n)%nat → th_ok n th → finished (net_of g) (index n i th) x → seat_code i st th = Ret x.
Proof. intros Hst Hi Hth [id Hf]. cbn in Hf. rewrite (procs_at _ i st th Hi Hth Hst) in Hf. by injection Hf. Qed.

(** A thread that can go on is one of a seat that can. *)
Lemma thread_moves g prs i st th n' :
  game_inv g prs → gm_seats g !! i = Some st → (i < n)%nat → th_ok n th → step_at (index n i th) (net_of g) n' →
  (∀ th', th_ok n th' → before th' th = true → ∃ x, seat_code i st th' = Ret x) → ∃ g', step g g'.
Proof.
  intros Hinv Hst Hi Hth Hs Hgate. pose proof (gi_ok g prs Hinv i st Hst) as Hok.
  pose proof (procs_at _ i st th Hi Hth Hst) as Hat.
  assert (ids !! i = Some (ids !!! i)) as Hid by (by apply list_lookup_lookup_total_lt).
  assert (∀ x, seat_code i st th ≠ Ret x) as Hret.
  { intros x Hx. rewrite Hx in Hat. destruct Hs as (id & q & a & ss & k & Hk & Hd & _). cbn in Hk. rewrite Hat in Hk.
    injection Hk as <- <-. by inversion Hd. }
  destruct st as [p|nd ps dn|p], th as [|s|]; cbn [seat_code] in Hat, Hret; try (by destruct (Hret _ eq_refl)).
  - destruct (net_access_step OShuffled _ _ p _ _ _ Hs Hat) as (ss & p' & Ha). eexists. by eapply gs_shuffle.
  - eapply seat_moves; [done..|]. by apply Hgate.
  - eapply seat_moves; [done..|]. by apply Hgate.
  - destruct (ps !! s) as [[p|]|] eqn:Hp; [|by destruct (Hret _ eq_refl)..].
    destruct (net_access_step ODealt _ _ p _ _ _ Hs Hat) as (ss & p' & Ha). eexists. by eapply gs_deal.
  - eapply seat_moves; [done..|]. intros s Hs'. by apply Hgate.
  - destruct (net_access_step OPlayed _ _ p _ _ _ Hs Hat) as (ss & p' & Ha). eexists. by eapply gs_bet.
Qed.

(** A game that is not over can go on. *)
Lemma sim_progress g prs : game_inv g prs →
  (∀ i, (i < n)%nat → gm_seats g !! i = Some (Betting (Ret (played i)))) ∨ ∃ g', step g g'.
Proof using Hclean Htrs.
  intros Hinv.
  assert (∀ i, (i < n)%nat → ∃ st, gm_seats g !! i = Some st) as Hseat
    by (intros j Hj; apply lookup_lt_is_Some_2; by rewrite (gi_seats g prs Hinv)).
  destruct (decide (Exists (λ pr : timed * timed, (0 < length pr.2)%nat) prs)) as [Hex|Hno].
  - right. apply list.Exists_exists in Hex as ([pre [|[s a] rem]] & [k Hk]%list_elem_of_lookup_1 & Hr); [cbn in Hr; lia|].
    destruct (clean_next I game_ids trs game_results game_gate Hclean Htrs results_length _ prs (gi_net g prs Hinv) s k pre a rem Hk)
      as (j & n' & Hs & Hgate).
    assert (∃ x, seat_procs (gm_seats g) !! j = Some x) as (x & (i' & th & Hi' & Hth & -> & _)%flat_lookup)
      by (destruct Hs as (id & p & _ & _ & _ & Hp & _); by exists (id, p)).
    destruct (Hseat i' Hi') as [st Hst]. apply (thread_moves g prs i' st th n' Hinv Hst Hi' Hth Hs).
    intros th' Hth' Hb. destruct (Hgate (index n i' th')) as [y Hy].
    { by exists i', th', th. }
    { eapply lookup_lt_Some, (flat_at n (λ i _, ids !!! i) i' th'); done. }
    exists y. by eapply finished_code.
  - assert (∀ i' st th, (i' < n)%nat → gm_seats g !! i' = Some st → th_ok n th → ∃ x, seat_code i' st th = Ret x) as Hall.
    { intros i' st th Hi' Hst Hth. destruct (lookup_lt_is_Some_2 prs (index n i' th)) as [[pre rem] Hpr].
      { rewrite <- (Forall2_length _ _ _ (ci_split _ _ _ _ _ _ (gi_net g prs Hinv))), Htrs. unfold game_ids.
        eapply lookup_lt_Some, (flat_at n (λ i _, ids !!! i) i' th); done. }
      destruct rem as [|e rem].
      - destruct (clean_finished I game_ids trs game_results Htrs results_length _ prs _ _ (gi_net g prs Hinv) Hpr) as (y & _ & Hy).
        exists y. by eapply finished_code.
      - destruct Hno. apply list.Exists_exists. eexists. split; [by eapply list_elem_of_lookup_2|]. cbn. lia. }
    (* either some seat is not in its betting and can go on, or all have returned *)
    assert (∀ m, (m ≤ n)%nat → (∀ i, (i < m)%nat → gm_seats g !! i = Some (Betting (Ret (played i)))) ∨ ∃ g', step g g') as Hm;
      [|by apply Hm].
    induction m as [|m IH]; intros Hm; [left; lia|]. destruct IH as [IH|Hs]; [lia| |by right].
    destruct (Hseat m Hm) as [st Hst]. pose proof (gi_ok g prs Hinv m st Hst) as Hok.
    destruct st as [p|nd ps dn|p].
    + right. apply (seat_moves g m _ Hst Hm Hok). by apply Hall.
    + right. apply (seat_moves g m _ Hst Hm Hok). intros s Hs. by apply Hall.
    + left. destruct (Hall m _ THand Hm Hst Logic.I) as [x Hx]. pose proof (thread_returned g prs m _ THand x Hinv Hst Logic.I Hx) as ->.
      apply act_map_Ret in Hx as (y & -> & [= <-]). intros i Hi. destruct (decide (i = m)) as [->|Hne]; [done|]. apply IH. lia.
Qed.

Lemma sim_start : game_inv (new_game ids R c rs) ((λ tr, ([], tr)) <$> trs).
Proof using Hstarted Htracks Htrs.
  assert (∀ i, (i < n)%nat → seat_start R c rs i = Shuffling (@RunShuffle _ (R i) (rnode (rs i)) (c i))) as Hst.
  { intros i Hi. unfold seat_start. by rewrite Hstarted. }
  assert (∀ i, (i < n)%nat → (seat_start R c rs <$> seq 0 n) !! i = Some (Shuffling (@RunShuffle _ (R i) (rnode (rs i)) (c i)))) as Hlk.
  { intros i Hi. by rewrite list_lookup_fmap, lookup_seq_lt, <- Hst. }
  constructor; cbn [gm_stores gm_seats new_game].
  - apply clean_start.
    + unfold seat_procs, game_ids. by rewrite !flat_length.
    + intros k id p tr r (i & th & Hi & Hth & -> & Hp)%flat_lookup Htr (i' & th' & Hi' & Hth' & Hk & ->)%flat_lookup.
      destruct (index_inj n i th i' th' Hth Hth' Hk) as [<- <-]. rewrite Hlk in Hp by done. injection Hp as -> ->.
      split; [by apply (flat_at n (λ i _, ids !!! i))|]. specialize (Htracks i th tr Hi Hth Htr).
      by destruct th.
  - by rewrite length_fmap, length_seq.
  - intros i st Hi. pose proof (lookup_lt_Some _ _ _ Hi) as Hl. rewrite length_fmap, length_seq in Hl.
    rewrite Hlk in Hi by done. by injection Hi as <-.
Qed.

(** What a thread of a betting seat has hosted and not removed is still there. *)
Lemma sim_kept g prs i p th tr h key v :
  game_inv g prs → gm_seats g !! i = Some (Betting p) → th_ok n th → before th THand = true → trs !! index n i th = Some tr →
  (h, AHost key) ∈ tr → (∀ z d, (z, ADrop d) ∈ tr → drops d key = true → (z < h)%nat) → I (ids !!! i) key v →
  Get (store_of (gm_stores g) (ids !!! i)) key = Some v.
Proof using Htrs.
  intros Hinv Hst Hth Hb Htr Hh Hdr HI. pose proof (gi_net g prs Hinv) as Hnet.
  assert (i < n)%nat as Hi by (rewrite <- (gi_seats g prs Hinv); by eapply lookup_lt_Some).
  assert (game_ids !! index n i th = Some (ids !!! i)) as Hid by (by apply (flat_at n (λ i _, ids !!! i))).
  destruct (Forall2_lookup_l _ _ _ _ _ (ci_split _ _ _ _ _ _ Hnet) Htr) as ([pre rem] & Hpr & Hsp). unfold split_at in Hsp. cbn in Hsp.
  assert (rem = []) as ->.
  { pose proof (procs_at _ i _ th Hi Hth Hst) as Hat.
    destruct (ci_procs _ _ _ _ _ _ Hnet _ _ _ _ _ Hat Hpr (flat_at n thread_result i th Hi Hth)) as [_ Htk].
    assert (∃ x, seat_code i (Betting p) th = Ret x) as [x Hx] by (destruct th; [by eexists|by eexists|done]).
    rewrite Hx in Htk. destruct rem; [done|]. inversion Htk. }
  rewrite app_nil_r in Hsp. subst pre.
  apply (ci_stores _ _ _ _ _ _ Hnet (ids !!! i) key v); [by eapply list_elem_of_lookup_2|]. split; [done|].
  by exists (index n i th), (tr, []), h.
Qed.

Lemma game_sim k g :
  nsteps step k (new_game ids R c rs) g →
  (k ≤ sum_list (length <$> trs) + n * (2 * n + 2))%nat ∧
  (∀ i x, gm_seats g !! i = Some (Betting (Ret x)) → x = played i) ∧
  ((∀ i, (i < n)%nat → gm_seats g !! i = Some (Betting (Ret (played i)))) ∨ ∃ g', step g g') ∧
  (∀ i p th tr h key v, gm_seats g !! i = Some (Betting p) → th_ok n th → before th THand = true → trs !! index n i th = Some tr →
     (h, AHost key) ∈ tr → (∀ z d, (z, ADrop d) ∈ tr → drops d key = true → (z < h)%nat) → I (ids !!! i) key v →
     Get (store_of (gm_stores g) (ids !!! i)) key = Some v).
Proof using I_fun Hclean Htrs Hjoin Horder Hstarted Htracks.
  intros Hrun. assert (∃ prs, game_inv g prs ∧
    (left_over ((λ tr, ([], tr)) <$> trs) + internal (new_game ids R c rs) = k + (left_over prs + internal g))%nat) as (prs & Hinv & Hk).
  { pose proof sim_start as Hinv0. revert Hrun Hinv0. generalize (new_game ids R c rs) as g0, ((λ tr : timed, ([] : timed, tr)) <$> trs) as prs0.
    intros g0 prs0 Hrun. revert prs0. induction Hrun as [g|k g0 g1 g Hs Hrun IH]; intros prs0 Hinv0; [by exists prs0|].
    destruct (sim_step g0 prs0 g1 Hinv0 Hs) as (prs1 & Hinv1 & Hm). destruct (IH prs1 Hinv1) as (prs & Hinv & Hm').
    exists prs. split; [done|lia]. }
  split_and!.
  - rewrite left_over_start in Hk. assert (internal (new_game ids R c rs) ≤ n * (2 * n + 2))%nat; [|lia].
    unfold internal, new_game. cbn [gm_seats]. rewrite <- list_fmap_compose.
    assert (∀ is_, Forall (λ i, i < n)%nat is_ → sum_list (pending ∘ seat_start R c rs <$> is_) ≤ length is_ * (2 * n + 2))%nat as Hsum.
    { induction 1 as [|i is_ Hi _ IH]; [done|]. cbn [fmap list_fmap length]. unfold seat_start at 1, compose at 1.
      rewrite Hstarted by done. cbn [negb pending]. unfold sum_list in *. cbn in *. lia. }
    specialize (Hsum (seq 0 n)). rewrite length_seq in Hsum. apply Hsum. apply list.Forall_forall. intros i Hi%elem_of_seq. lia.
  - intros i x Hx. assert (OPlayed x = thread_result i THand) as [= ->] by (by eapply thread_returned). done.
  - by eapply sim_progress.
  - intros i p th tr h key v. by apply (sim_kept g prs).
Qed.

End sim.
