(* ===== verification/GameProofs.v ===== *)
(** * The threads of a game clean up

    What the threads of a seat access when ([thread_timed]), that these traces
    satisfy the conditions of [Clean] ([game_clean]), and that the threads make
    these accesses ([thread_tracks]). *)

From Stdlib Require Import ZArith Lia Ascii.
From stdpp Require Import base list gmap strings numbers relations sorting.
From S2P Require Import Prelude Runtime Strconv Ephemeral Deck DeckProofs Net Peer PeerProofs PeerProps Showdown ShowdownProps.
From S2P Require Import GameState GameStateProofs GameLog GameLogProofs GameLogProps Runner RunnerProofs RoundNet.
From S2P Require Import Clean Hand HandProofs Game Threads GameSim.

#[local] Open Scope Z_scope.
#[local] Existing Instance Key_inhabited.

(** The thread that hosts a key. *)
Definition thread_of (k : EKey) : thread :=
  match k with KShuffleStep _ => TShuffle | KHoleRelay s _ => TDeal (Z.to_nat s) | _ => THand end.

(** Whatever the order in which the goroutines complete, the holes are set. *)
Lemma join_holes (x y : Z) (a b : string) nd (dn : list dealt) :
  Z.rem x 2 = 0 → Z.rem y 2 ≠ 0 → (∀ r, r ∈ dn → r = Ok None ∨ r = Ok (Some (x, a)) ∨ r = Ok (Some (y, b))) →
  ∃ c1 c2, deal_join nd dn = Ok (set_cards c1 c2 nd, None) ∧
    (c1 = a ∨ (c1 = card1 nd ∧ Ok (Some (x, a)) ∉ dn)) ∧ (c2 = b ∨ (c2 = card2 nd ∧ Ok (Some (y, b)) ∉ dn)).
Proof.
  intros Hx Hy. unfold deal_join. revert nd. induction dn as [|r dn IH]; intros nd Hall; cbn [foldM].
  { exists (card1 nd), (card2 nd). split_and!; [by destruct nd|right; split; [done|apply not_elem_of_nil]..]. }
  assert (∀ r, r ∈ dn → r = Ok None ∨ r = Ok (Some (x, a)) ∨ r = Ok (Some (y, b))) as Hrest by (intros r' Hr; apply Hall; by right).
  destruct (Hall r) as [->|[->| ->]]; [left|..]; cbn [mbind res_bind fst snd].
  - destruct (IH nd Hrest) as (c1 & c2 & -> & H1 & H2). exists c1, c2. split_and!; [done|..].
    + destruct H1 as [?|[? Hn]]; [by left|right]. split; [done|]. by intros [[=]|?]%elem_of_cons.
    + destruct H2 as [?|[? Hn]]; [by left|right]. split; [done|]. by intros [[=]|?]%elem_of_cons.
  - unfold setHole at 2. rewrite Hx. cbn [Z.eqb]. destruct (IH (set_cards a (card2 nd) nd) Hrest) as (c1 & c2 & -> & H1 & H2).
    exists c1, c2. cbn [card1 card2 set_cards] in *. split_and!; [done|left; by destruct H1 as [?|[? _]]|].
    destruct H2 as [?|[? Hn]]; [by left|right]. split; [done|]. intros [[= Heq _]|?]%elem_of_cons; [|done]. by subst.
  - unfold setHole at 2. rewrite (proj2 (Z.eqb_neq _ _) Hy). destruct (IH (set_cards (card1 nd) b nd) Hrest) as (c1 & c2 & -> & H1 & H2).
    exists c1, c2. cbn [card1 card2 set_cards] in *. split_and!; [done| |left; by destruct H2 as [?|[? _]]].
    destruct H1 as [?|[? Hn]]; [by left|right]. split; [done|]. intros [[= Heq _]|?]%elem_of_cons; [|done]. by subst.
Qed.

Section game.
Context `{C : SigScheme} `{L : !SigLaws C} `{CE : Codec Entry} `{EL : !EntryCodecLaws} `{CR : Codec VerifyReceipt}.
Context `{CD : Codec (list bytes)} `{DL : !CodecLaws (list bytes)}.
Context (ids : list string) (ks : list Key) (sc : SessionConfig) (R : nat → RandSource) (c : nat → nat).
Context (SC : nat → Schedule) (SL : ∀ i, @ScheduleLaws (SC i)) (HR : sources_ok R).
Context (sks : nat → list Z) (envs : nat → Env).
Context (np stack : Z) (Ht : table np stack) (Hids : table_ok ids ks) (Hlen : length ids = Z.to_nat np).
Context (Hsks : ∀ i, (i < length ids)%nat → len (sks i) = PrivateKeySize).
Context (l l' : Log) (rds : list round) (Hh : hand_from sks envs l rds l') (Hl : log_reach np stack l) (Hin : all_in ids l).
Context (Hbound : Z.of_nat (length (entries l) + length rds) < 2 ^ 64).
Context (pts : list bytes) (Hpts : pts ≡ₚ buildOrderedDeck).
(** The accesses of the dealing goroutines. *)
Context (dt : nat → nat → list event).

Abbreviation n := (length ids).
Abbreviation final := (layered_deck ks PRIME PRIME_prime pts).
Abbreviation node := (seat ids ks PRIME sc final).

Record deal_plan (i s : nat) : Prop := {
  dp_follows : follows (hole_ideal ids ks PRIME PRIME_prime pts) is_err (ids !!! i)
    (dealHoleSlot (node i) (Z.of_nat s)) (dt i s) (hole_result pts i s);
  dp_length : (length (dt i s) ≤ 2)%nat;
  dp_hosts : i ≠ slot_owner s → EHost (HoleRelayKey (Z.of_nat s) (Z.of_nat i)) i ∈ dt i s;
  dp_events : Forall (slot_event ids i s) (dt i s);
  dp_sorted : StronglySorted lt (event_time <$> dt i s);
}.

Context (Hdt : ∀ i s, (i < n)%nat → (s < 2 * n)%nat → deal_plan i s).

(** ** The traces *)

Definition offset (th : thread) : nat :=
  match th with TShuffle => 0 | TDeal _ => 2 * n + 1 | THand => 4 * n + 2 end%nat.

Definition thread_trace (i : nat) (th : thread) : timed :=
  match th with
  | TShuffle => plan_timed (shuffle_trace ids i)
  | TDeal s => plan_timed (dt i s)
  | THand => hand_timed SC ids 0 i rds
  end.

Definition thread_timed (i : nat) (th : thread) : timed := shift (offset th) (thread_trace i th).

Lemma shuffle_events i e :
  (i < n)%nat → e ∈ shuffle_trace ids i →
  match e with
  | EHost key m => key = ShuffleStepKey (Z.of_nat i) ∧ m = i
  | EPoll t key m => t = ids !!! m ∧ key = ShuffleStepKey (Z.of_nat m) ∧ (m < n)%nat
  end.
Proof.
  intros Hi. unfold shuffle_trace, last_seat. rewrite elem_of_app, elem_of_cons.
  intros [He|[->|He]]; [|done|]; case_decide; try (by apply elem_of_nil in He);
    apply list_elem_of_singleton in He as ->; split_and!; done || lia.
Qed.

Lemma shuffle_sorted i : (i < n)%nat → StronglySorted lt (event_time <$> shuffle_trace ids i).
Proof.
  intros Hi. unfold shuffle_trace, last_seat. do 2 case_decide; cbn; repeat constructor; lia.
Qed.

Lemma shuffle_hosts i : EHost (ShuffleStepKey (Z.of_nat i)) i ∈ shuffle_trace ids i.
Proof. unfold shuffle_trace. apply elem_of_app. right. left. Qed.

Definition ending (th : thread) : nat :=
  match th with TShuffle => 2 * n + 1 | TDeal _ => 4 * n + 2 | THand => 4 * n + 2 + length rds * span ids end%nat.

Lemma thread_within i th : (i < n)%nat → th_ok n th → within (offset th) (ending th) (thread_timed i th).
Proof using L SL Ht Hids Hlen Hsks Hh Hl Hin Hbound Hdt.
  intros Hi Hth. unfold thread_timed, offset, ending, thread_trace.
  assert (∀ k hi tr, within 0 hi tr → within k (k + hi) (shift k tr)) as Hsh.
  { intros k hi tr Hw. apply (shift_within k) in Hw. by rewrite Nat.add_0_r in Hw. }
  destruct th as [|s|].
  - apply (Hsh 0%nat). apply plan_within; [by apply shuffle_sorted|]. apply list.Forall_forall. intros e He.
    apply shuffle_events in He; [|done]. destruct e; [destruct He as (_ & _ & ?)|destruct He as [_ ->]]; done.
  - replace (4 * n + 2)%nat with (2 * n + 1 + (2 * n + 1))%nat by lia. apply Hsh. destruct (Hdt i s Hi Hth) as [_ _ _ He Hs].
    apply plan_within; [done|]. eapply Forall_impl; [exact He|]. intros [] Hev; cbn in Hev; [|lia].
    by destruct Hev as (_ & _ & ? & _).
  - apply Hsh. by apply (trace_within SC SL ids ks sks envs np stack Ht Hids Hlen Hsks l l' rds Hh Hl Hin Hbound i).
Qed.

(** ** Keys *)

Lemma small : Z.of_nat (2 * n + 5) < 2 ^ 63 ∧ (2 ≤ n)%nat.
Proof using Hids. destruct Hids as (_ & _ & Hn & _). clear -Hn. lia. Qed.

Lemma thread_hosts i th s key :
  (i < n)%nat → th_ok n th → (s, AHost key) ∈ thread_timed i th → ∃ k, key = key_string k ∧ key_wf k ∧ thread_of k = th.
Proof using L Ht Hids Hlen Hsks Hh Hl Hin Hbound Hdt.
  intros Hi Hth (s' & -> & He)%elem_of_shift. destruct small. destruct th as [|sl|]; cbn [thread_trace] in He.
  - apply elem_of_plan in He as (e & He & _ & Ha). apply shuffle_events in He; [|done].
    destruct e as [|key' m]; [done|]. injection Ha as ->. destruct He as [-> _].
    exists (KShuffleStep (Z.of_nat i)). cbn. split_and!; done || lia.
  - apply elem_of_plan in He as (e & He & _ & Ha). destruct (Hdt i sl Hi Hth) as [_ _ _ Hev _].
    rewrite list.Forall_forall in Hev. specialize (Hev e He).
    destruct e as [|key' m]; [done|]. injection Ha as ->. destruct Hev as [-> _]. cbn in Hth.
    exists (KHoleRelay (Z.of_nat sl) (Z.of_nat i)). cbn. rewrite Nat2Z.id. split_and!; done || lia.
  - apply (elem_of_hand SC ids np Hlen) in He as (x & rd & Hx & (k & -> & Hk)%(round_hosts SC ids envs np Hlen)).
    exists k. split_and!; [done| |by destruct Hk].
    by apply (host_wf ids ks sks envs np stack Ht Hids Hlen Hsks l l' rds Hh Hl Hin Hbound x rd i s' k).
Qed.

Lemma thread_once i th s s' key :
  (i < n)%nat → th_ok n th → (s, AHost key) ∈ thread_timed i th → (s', AHost key) ∈ thread_timed i th → s = s'.
Proof using L Ht Hids Hlen Hsks Hh Hl Hin Hbound Hdt.
  intros Hi Hth (t & -> & He)%elem_of_shift (t' & -> & He')%elem_of_shift. f_equal.
  destruct th as [|sl|]; cbn [thread_trace] in He, He'.
  - apply elem_of_plan in He as (e & He & -> & Ha). apply elem_of_plan in He' as (e' & He' & -> & Ha').
    apply shuffle_events in He, He'; [|done..]. destruct e, e'; try done. by destruct He as [_ ->], He' as [_ ->].
  - apply elem_of_plan in He as (e & He & -> & Ha). apply elem_of_plan in He' as (e' & He' & -> & Ha').
    destruct (Hdt i sl Hi Hth) as [_ _ _ Hev _]. rewrite list.Forall_forall in Hev. apply Hev in He, He'.
    destruct e, e'; try done. by destruct He as (_ & -> & _), He' as (_ & -> & _).
  - by eapply (hand_once SC ids ks sks envs np stack Ht Hids Hlen Hsks l l' rds Hh Hl Hin Hbound i).
Qed.

(** Only the betting removes keys, and only its own. *)
Lemma thread_drops j th z d k :
  (j < n)%nat → th_ok n th → (z, ADrop d) ∈ thread_timed j th → key_wf k → drops d (key_string k) = true →
  th = THand ∧ thread_of k = THand.
Proof using L Ht Hids Hlen Hsks Hh Hl Hin Hbound Hdt.
  intros Hj Hth (z' & -> & He)%elem_of_shift Hk Hd. destruct th as [|sl|]; cbn [thread_trace] in He.
  - apply elem_of_plan in He as ([] & _ & _ & [=]).
  - apply elem_of_plan in He as ([] & _ & _ & [=]).
  - split; [done|]. apply (elem_of_hand SC ids np Hlen) in He as (x & rd & Hx & Hdr%(round_drops SC ids envs np Hlen)).
    destruct (drop_hits ids ks sks envs np stack Ht Hids Hlen Hsks l l' rds Hh Hl Hin Hbound x rd j z' d k Hx Hdr Hk Hd)
      as [[-> _]|[(id & -> & _)|[(a & id & -> & _)|(id & ->)]]]; done.
Qed.

(** ** The conditions of [Clean] *)

Definition game_traces : list timed := flat n thread_timed.

(** What a thread polls is hosted by the same thread of another seat, before,
    and stays until it is read. *)
Lemma thread_polls i th s t key :
  (i < n)%nat → th_ok n th → (s, APoll t key) ∈ thread_timed i th →
  ∃ j h, (j < n)%nat ∧ t = ids !!! j ∧ (h, AHost key) ∈ thread_timed j th ∧ (h < s)%nat ∧
    ∀ z d, (z, ADrop d) ∈ thread_timed j th → drops d key = true → (h < z)%nat →
      awaited (thread_timed i th) (thread_timed j th) (ids !!! i) s z.
Proof using L SL Ht Hids Hlen Hsks Hh Hl Hin Hbound Hdt.
  intros Hi Hth Hpo. pose proof Hpo as (s' & -> & He)%elem_of_shift. unfold thread_timed at 1.
  setoid_rewrite elem_of_shift. destruct th as [|sl|]; cbn [thread_trace] in He |- *.
  - apply elem_of_plan in He as (e & He & -> & Ha). apply shuffle_events in He; [|done].
    destruct e as [t' key' m|]; [|done]. injection Ha as -> ->. destruct He as (-> & -> & Hm).
    exists m, (offset TShuffle + (2 * m + 1))%nat. split_and!; [done|done| |cbn; lia|].
    + eexists. split; [done|]. apply elem_of_plan. eexists. split; [apply shuffle_hosts|done].
    + intros z d (z' & -> & Hz). apply elem_of_plan in Hz as ([] & _ & _ & [=]).
  - apply elem_of_plan in He as (e & He & -> & Ha). destruct (Hdt i sl Hi Hth) as [_ _ _ Hev _].
    rewrite list.Forall_forall in Hev. specialize (Hev e He).
    destruct e as [t' key' m|]; [|done]. injection Ha as -> ->. destruct Hev as (-> & -> & Hm & Hne).
    destruct (Hdt m sl Hm Hth) as [_ _ Hhost _ _].
    exists m, (offset (TDeal sl) + (2 * m + 1))%nat. split_and!; [done|done| |cbn; lia|].
    + eexists. split; [done|]. apply elem_of_plan. eexists. split; [by apply Hhost|done].
    + intros z d (z' & -> & Hz). apply elem_of_plan in Hz as ([] & _ & _ & [=]).
  - destruct (cl_poll _ _ _ (hand_clean SC SL ids ks sks envs np stack Ht Hids Hlen Hsks l l' rds Hh Hl Hin Hbound)
      i (hand_timed SC ids 0 i rds) (ids !!! i) s' t key) as (j & trj & h & Hj & Htr & Hhost & Hlt & Haw).
    { by apply traces_lookup. }
    { by apply list_lookup_lookup_total_lt. }
    { done. }
    apply traces_lookup in Htr as [Hjn ->]. exists j, (offset THand + h)%nat. split_and!; [done| | |lia|].
    + by apply list_lookup_total_correct in Hj as ->.
    + by exists h.
    + intros z d (z' & -> & Hz) Hd Hhz. apply shift_awaited. eapply Haw; [done..|lia].
Qed.

Lemma game_clean : clean (game_ids ids) game_traces (game_gate ids).
Proof using L SL Ht Hids Hlen Hsks Hh Hl Hin Hbound Hdt.
  destruct Hids as (Hnd & _). constructor.
  - intros tr [k (i & th & Hi & Hth & -> & ->)%flat_lookup]%list_elem_of_lookup_1. by apply thread_within.
  - intros k k' tr tr' id key s s' (i & th & Hi & Hth & -> & ->)%flat_lookup (j & th' & Hj & Hth' & -> & ->)%flat_lookup Hid Hjd Hs Hs'.
    unfold game_ids in Hid, Hjd. rewrite flat_at in Hid, Hjd by done. assert (i = j) as <- by (eapply (seat_inj ids Hnd); [done..|congruence]).
    destruct (thread_hosts i th s key Hi Hth Hs) as (kk & -> & Hk & <-).
    destruct (thread_hosts i th' s' _ Hi Hth' Hs') as (kk' & Heq & Hk' & <-).
    apply key_string_inj in Heq; [|done..]. subst kk'. split; [done|]. by eapply thread_once.
  - intros k k' tr tr' id key h z d (i & th & Hi & Hth & -> & ->)%flat_lookup (j & th' & Hj & Hth' & -> & ->)%flat_lookup Hid Hjd Hs Hz Hd.
    unfold game_ids in Hid, Hjd. rewrite flat_at in Hid, Hjd by done. assert (i = j) as <- by (eapply (seat_inj ids Hnd); [done..|congruence]).
    destruct (thread_hosts i th h key Hi Hth Hs) as (kk & -> & Hk & <-).
    by destruct (thread_drops i th' z d kk Hi Hth' Hz Hk Hd) as [-> ->].
  - intros k k' tr tr' e e' (i & th & th' & Hi & Hth & Hth' & -> & -> & Hb) Htr Htr' He He'.
    unfold game_traces in Htr, Htr'. rewrite flat_at in Htr, Htr' by done. simplify_eq.
    pose proof (proj2 (thread_within i th' Hi Hth') _ He) as H1. pose proof (proj2 (thread_within i th Hi Hth) _ He') as H2.
    destruct th, th'; try done; cbn in H1, H2; lia.
  - intros k tr id s t key (i & th & Hi & Hth & -> & ->)%flat_lookup Hid Hpo.
    unfold game_ids in Hid. rewrite flat_at in Hid by done. injection Hid as <-.
    destruct (thread_polls i th s t key Hi Hth Hpo) as (j & h & Hj & -> & Hrest).
    exists (index n j th), (thread_timed j th), h. unfold game_ids, game_traces. rewrite !flat_at by done.
    split_and!; [done|done|apply Hrest..].
Qed.

(** ** Who hosts what *)

Inductive game_ideal (id key : string) (v : list Z) : Prop :=
| ideal_shuffle m : shuffle_ideal ids ks PRIME R c id key v m → game_ideal id key v
| ideal_hole m : hole_ideal ids ks PRIME PRIME_prime pts id key v m → game_ideal id key v
| ideal_hand : hand_ideal ids ks pts sks rds id key v → game_ideal id key v.

Lemma shuffle_ideal_key id key v m :
  shuffle_ideal ids ks PRIME R c id key v m → ∃ k, key = key_string k ∧ key_wf k ∧ thread_of k = TShuffle.
Proof using Hids Hlen Hbound.
  intros (Hm & _ & -> & _). destruct small. exists (KShuffleStep (Z.of_nat m)). cbn. split_and!; done || lia.
Qed.

Lemma hole_ideal_key id key v m :
  hole_ideal ids ks PRIME PRIME_prime pts id key v m → ∃ k s, key = key_string k ∧ key_wf k ∧ thread_of k = TDeal s.
Proof using Hids Hlen Hbound.
  intros (s & Hs & Hm & _ & _ & -> & _). destruct small. exists (KHoleRelay (Z.of_nat s) (Z.of_nat m)), s. cbn.
  rewrite Nat2Z.id. split_and!; done || lia.
Qed.

Lemma hand_ideal_key id key v :
  hand_ideal ids ks pts sks rds id key v → ∃ k, key = key_string k ∧ key_wf k ∧ thread_of k = THand.
Proof using L Ht Hids Hlen Hsks Hh Hl Hin Hbound.
  destruct small. intros [(rd & m & [x Hx]%list_elem_of_lookup_1 & Hr)|(m & t & H1 & H2 & [(i & Hi & _ & -> & _)|(_ & -> & _)])].
  - pose proof (round_id ids ks sks envs np stack Ht Hids Hlen Hsks l l' rds Hh Hl Hin Hbound x rd Hx).
    pose proof (lookup_lt_Some _ _ _ Hx).
    destruct Hr as [(-> & -> & _)|(i & _ & -> & -> & _)];
      [exists (KProposal (Log_RoundID (hr_log rd)) 0)|exists (KVerify (Log_RoundID (hr_log rd)) 0 (ids !!! i))];
      cbn [key_wf thread_of]; split_and!; done || lia.
  - eexists. split; [reflexivity|]. cbn. split_and!; done || lia.
  - eexists. split; [reflexivity|]. cbn. split_and!; done || lia.
Qed.

Lemma game_ideal_fun id key v v' : game_ideal id key v → game_ideal id key v' → v = v'.
Proof using L Ht Hids Hlen Hsks Hh Hl Hin Hbound Hpts.
  assert (∀ k k', key_wf k → key_wf k' → key = key_string k → key = key_string k' → thread_of k = thread_of k') as Hkeys.
  { intros k k' Hk Hk' -> Heq. by rewrite (key_string_inj k k' Hk Hk' Heq). }
  intros [m H|m H|H] [m' H'|m' H'|H'].
  1: by eapply (shuffle_ideal_fun ids ks PRIME (proj1 Hids) R c).
  4: { destruct Hids as (Hnd & Hk & Hn & Hok). destruct (perm_deck pts Hpts) as (Hr & _ & Hlp).
       by apply (hole_ideal_fun ids ks PRIME Hnd Hk ltac:(lia) ltac:(lia) PRIME_prime pts ltac:(lia) id key v m v' m'). }
  7: by eapply (hand_ideal_fun ids ks pts sks envs np stack Ht Hids Hlen Hsks l l' rds Hh Hl Hin Hbound Hpts).
  all: repeat match goal with
       | H : shuffle_ideal _ _ _ _ _ _ _ _ _ |- _ => apply shuffle_ideal_key in H as (? & ? & ? & ?)
       | H : hole_ideal _ _ _ _ _ _ _ _ _ |- _ => apply hole_ideal_key in H as (? & ? & ? & ? & ?)
       | H : hand_ideal _ _ _ _ _ _ _ _ |- _ => apply hand_ideal_key in H as (? & ? & ? & ?)
       end;
       match goal with H : key_wf ?k, H' : key_wf ?k' |- _ => specialize (Hkeys k k') end; exfalso; naive_solver congruence.
Qed.

(** ** The threads *)

Context (rs : nat → Runner) (fuel : nat) (s' : State).
Context (Hrenc : ∀ x : VerifyReceipt, ∃ d, gob_encode x = Some d).
Context (Henv : ∀ i rid att, (i < n)%nat → ctx_ended (envs i) rid att = false ∧ ctx_stopped (envs i) rid = false).
Context (Hfinal : final_deck ids ks PRIME R c = final) (Hshown : shown l = 0%nat).
Context (Hfuel : (length rds < fuel)%nat) (Hend : Log_Replay l' = Ok s').
Context (Hrs : ∀ i, (i < n)%nat → rnode (rs i) = seat ids ks PRIME sc [] i ∧ seated ids l sks i (rs i) ∧
  1 ≤ cfgMaxAttempts (rcfg (rs i))).

(** The runner of seat [i] with its hole cards. *)
Definition dealt_runner (i : nat) : Runner := set_node (hole_node ids ks sc pts i) (rs i).

Definition played (i : nat) : res Empty_set (Runner * run_end) :=
  Ok (after_hand ids ks pts (hole_node ids ks sc pts) i rds (dealt_runner i), HandDone s').

Abbreviation code := (thread_code R c SC envs fuel rs node dealt_runner).
Abbreviation result := (thread_result node (hole_result pts) played).

Lemma thread_tracks i th :
  (i < n)%nat → th_ok n th → tracks game_ideal (ids !!! i) (code i th) (snd <$> thread_timed i th) (result i th).
Proof using L EL DL SL HR Ht Hids Hlen Hsks Hh Hl Hbound Hpts Hdt Hrenc Henv Hfinal Hshown Hfuel Hend Hrs.
  intros Hi Hth. unfold thread_timed. rewrite shift_accesses. destruct th as [|s|]; cbn [thread_trace thread_code thread_result].
  - apply tracks_map. rewrite plan_accesses. destruct (Hrs i Hi) as (-> & _). destruct HR as [HR1 HR2], Hids as (Hnd & Hk & Hn & Hok).
    rewrite <- Hfinal. eapply follows_tracks; [intros; by eapply ideal_shuffle|].
    apply (RunShuffle_follows ids ks PRIME sc); done || lia.
  - apply tracks_map. rewrite plan_accesses. eapply follows_tracks; [intros; by eapply ideal_hole|]. by apply Hdt.
  - apply tracks_map. eapply tracks_mono; [intros; by apply ideal_hand|].
    eapply (run_tracks SC); try done. intros j Hj. destruct (Hrs j Hj) as (Hnode & [] & Hm).
    split_and!; [constructor; try done|done|by rewrite Hshown].
Qed.

Lemma thread_trace_length i :
  (i < n)%nat → (length (thread_timed i TShuffle) + sum_list ((λ s, length (thread_timed i (TDeal s))) <$> seq 0 (2 * n))
    + length (thread_timed i THand) ≤ 3 + 4 * n + length rds * span ids)%nat.
Proof using L SL Ht Hids Hlen Hsks Hh Hl Hin Hbound Hdt Hshown Hfuel.
  intros Hi. assert (length (thread_timed i TShuffle) ≤ 3)%nat as H1.
  { unfold thread_timed, shift, thread_trace, plan_timed. rewrite !length_fmap. unfold shuffle_trace.
    do 2 case_decide; cbn; lia. }
  assert (length (thread_timed i THand) ≤ length rds * span ids)%nat as H2.
  { pose proof (within_length _ _ _ (thread_within i THand Hi I)) as Hw. cbn [offset ending] in Hw. lia. }
  assert (∀ m, (m ≤ 2 * n)%nat → sum_list ((λ s, length (thread_timed i (TDeal s))) <$> seq 0 m) ≤ 2 * m)%nat as H3.
  { induction m as [|m IH]; intros Hm; [done|]. rewrite seq_S, fmap_app.
    rewrite sum_list_with_app. specialize (IH ltac:(lia)). destruct (Hdt i m Hi ltac:(lia)) as [_ Hd _ _ _].
    assert (length (thread_timed i (TDeal (0 + m))) ≤ 2)%nat as Hle
      by (unfold thread_timed, shift, thread_trace, plan_timed; by rewrite !length_fmap).
    cbn [fmap list_fmap sum_list]. change (sum_list [?x]) with (x + 0)%nat. cbn in *. lia. }
  specialize (H3 (2 * n)%nat ltac:(lia)). lia.
Qed.

(** The deal gives every seat its two cards. *)
Lemma deal_joined i dn :
  (i < n)%nat → dn ≡ₚ hole_result pts i <$> seq 0 (2 * n) →
  after_deal SC envs fuel rs i (node i) dn = @run_rounds _ _ _ (SC i) (envs i) fuel (dealt_runner i).
Proof.
  intros Hi Hdn. assert (∀ s, (s < 2 * n)%nat → hole_result pts i s ∈ dn) as Hel.
  { intros s Hs. rewrite Hdn. apply list_elem_of_fmap_2, elem_of_seq. clear -Hs. lia. }
  destruct (join_holes (Z.of_nat (2 * i)) (Z.of_nat (2 * i + 1)) (of_bytes (pts !!! (2 * i)%nat)) (of_bytes (pts !!! (2 * i + 1)%nat))
    (node i) dn) as (c1 & c2 & Hj & H1 & H2).
  - rewrite Nat2Z.inj_mul, Z.mul_comm. by apply Z.rem_mul.
  - rewrite Z.rem_mod_nonneg by lia. clear. pose proof (Z.mod_add 1 (Z.of_nat i) 2). 
    replace (Z.of_nat (2 * i + 1)) with (1 + Z.of_nat i * 2) by lia. rewrite H; [done|lia].
  - intros r. rewrite Hdn. intros (s & -> & _)%list_elem_of_fmap. unfold hole_result, slot_owner.
    destruct (decide (i = (s / 2)%nat)) as [->|]; [right|by left].
    pose proof (Nat.div_mod_eq s 2). pose proof (Nat.mod_upper_bound s 2 ltac:(lia)).
    assert (s = 2 * (s / 2) ∨ s = 2 * (s / 2) + 1)%nat as [E|E] by (clear -H H0; lia); [left|right]; by rewrite <- E.
  - assert (hole_result pts i (2 * i) = Ok (Some (Z.of_nat (2 * i), of_bytes (pts !!! (2 * i)%nat)))) as E1.
    { unfold hole_result, slot_owner. rewrite decide_True; [done|]. rewrite Nat.mul_comm. by rewrite Nat.div_mul. }
    assert (hole_result pts i (2 * i + 1) = Ok (Some (Z.of_nat (2 * i + 1), of_bytes (pts !!! (2 * i + 1)%nat)))) as E2.
    { unfold hole_result, slot_owner. rewrite decide_True; [done|]. clear. rewrite Nat.mul_comm, Nat.div_add_l by lia. cbn. lia. }
    pose proof (Hel (2 * i)%nat ltac:(clear -Hi; lia)) as Hin1. pose proof (Hel (2 * i + 1)%nat ltac:(clear -Hi; lia)) as Hin2.
    rewrite E1 in Hin1. rewrite E2 in Hin2.
    assert (c1 = of_bytes (pts !!! (2 * i)%nat)) as -> by (by destruct H1 as [?|[_ ?]]).
    assert (c2 = of_bytes (pts !!! (2 * i + 1)%nat)) as -> by (by destruct H2 as [?|[_ ?]]).
    unfold after_deal. by rewrite Hj.
Qed.

(** Every game ends with every seat's betting done. *)
Lemma game_ends k g :
  nsteps (game_step ids SC envs fuel rs) k (new_game ids R c rs) g →
  (k ≤ n * (3 + 4 * n + length rds * span ids + (2 * n + 2)))%nat ∧
  (∀ i x, gm_seats g !! i = Some (Betting (Ret x)) → x = played i) ∧
  ((∀ i, (i < n)%nat → gm_seats g !! i = Some (Betting (Ret (played i)))) ∨ ∃ g', game_step ids SC envs fuel rs g g') ∧
  (∀ i s p, (i < n)%nat → (s < 2 * n)%nat → i ≠ slot_owner s → gm_seats g !! i = Some (Betting p) →
     Get (store_of (gm_stores g) (ids !!! i)) (HoleRelayKey (Z.of_nat s) (Z.of_nat i)) = Some (hole_value ks PRIME PRIME_prime pts s i)).
Proof using L EL DL SL HR Ht Hids Hlen Hsks Hh Hl Hin Hbound Hpts Hdt Hrenc Henv Hfinal Hshown Hfuel Hend Hrs.
  intros Hrun. destruct (game_sim ids R c SC envs fuel rs node (hole_result pts) dealt_runner played) with
    (I := game_ideal) (trs := game_traces) (k := k) (g := g) as (Hk & Hres & Hpro & Hkept); [..|split_and!; [|exact Hres|exact Hpro|]].
  - intros i Hi. by destruct (Hrs i Hi) as (-> & _).
  - done.
  - exact deal_joined.
  - exact game_ideal_fun.
  - exact game_clean.
  - unfold game_traces, game_ids. by rewrite !flat_length.
  - intros i th tr Hi Hth Htr. unfold game_traces in Htr. rewrite flat_at in Htr by done. injection Htr as <-. by apply thread_tracks.
  - done.
  - etrans; [exact Hk|]. assert (sum_list (length <$> game_traces) ≤ n * (3 + 4 * n + length rds * span ids))%nat; [|lia].
    unfold game_traces. rewrite flat_fmap.
    apply flat_sum. intros i Hi. by apply thread_trace_length.
  - intros i sl p Hi Hs Hne Hst. destruct (Hdt i sl Hi Hs) as [_ _ Hhost _ _].
    eapply (Hkept i p (TDeal sl) (thread_timed i (TDeal sl))); [done|done|done|by apply (flat_at n thread_timed)| | |].
    + apply elem_of_shift. eexists. split; [done|]. apply elem_of_plan. eexists. split; [by apply Hhost|done].
    + intros z d (z' & -> & Hz)%elem_of_shift. by apply elem_of_plan in Hz as ([] & _ & _ & [=]).
    + eapply ideal_hole. by exists sl.
Qed.

End game.
