(* ===== verification/GameProps.v ===== *)
(** * A whole game: theorems *)

From Stdlib Require Import ZArith Lia Ascii.
From stdpp Require Import base list gmap strings numbers relations sorting countable.
From S2P Require Import Prelude Runtime Strconv Ephemeral Deck DeckProofs DeckProps Net Peer PeerProofs PeerProps Showdown ShowdownProps.
From S2P Require Import GameState GameStateProofs GameLog GameLogProofs GameLogProps Runner RunnerProofs RoundNet RunnerProps FinishProps.
From S2P Require Import Clean Hand HandProofs HandProps Game Threads GameSim GameProofs.

#[local] Open Scope Z_scope.
#[local] Existing Instance Key_inhabited.

Section theorems.
Context `{C : SigScheme} `{L : !SigLaws C} `{CE : Codec Entry} `{EL : !EntryCodecLaws} `{CR : Codec VerifyReceipt}.
Context `{CD : Codec (list bytes)} `{DL : !CodecLaws (list bytes)}.

(** A table about to play the hand [rds] that ends with log [l']: every seat
    has a key, a random source that works, an empty log and the others' public
    keys, and the actions of [rds] are submitted in time. *)
Record game_ready (np stack : Z) (SC : nat → Schedule) (R : nat → RandSource) (ids : list string) (ks : list Key)
    (sc : SessionConfig) (sks : nat → list Z) (envs : nat → Env) (rds : list round) (l' : Log) (rs : nat → Runner) : Prop := {
  gr_table : table np stack;
  gr_ids : table_ok ids ks ∧ length ids = Z.to_nat np;
  gr_random : sources_ok R;
  gr_sched : ∀ i, @ScheduleLaws (SC i);
  gr_keys : ∀ i, (i < length ids)%nat → len (sks i) = PrivateKeySize;
  gr_encode : ∀ x : VerifyReceipt, ∃ d, gob_encode x = Some d;
  gr_env : ∀ i rid att, (i < length ids)%nat → ctx_ended (envs i) rid att = false ∧ ctx_stopped (envs i) rid = false;
  gr_hand : hand_from sks envs (NewLog np stack) rds l';
  gr_bound : Z.of_nat (length rds) < 2 ^ 64;
  gr_seats : ∀ i, (i < length ids)%nat → rnode (rs i) = seat ids ks PRIME sc [] i ∧
    seated ids (NewLog np stack) sks i (rs i) ∧ 1 ≤ cfgMaxAttempts (rcfg (rs i));
}.

(** The final deck is a reordering of the cards under the layers. *)
Lemma final_layered ids ks R c :
  table_ok ids ks → sources_ok R →
  ∃ pts, pts ≡ₚ buildOrderedDeck ∧ final_deck ids ks PRIME R c = layered_deck ks PRIME PRIME_prime pts.
Proof using DL.
  intros (Hnd & Hlen & Hsize & Hks) (HR & Hrand).
  pose proof (ring_deck_perm ids ks PRIME Hlen ltac:(lia) PRIME_prime Hks R c HR Hrand (length ids) ltac:(lia)) as Hp.
  rewrite take_ge in Hp by lia. destruct (Permutation_map_inv (@layers _ _ (sra_cipher PRIME PRIME_prime) ks) buildOrderedDeck Hp) as (pts & Heq & Hpts).
  exists pts. by split.
Qed.

Lemma deal_plans ids ks sc pts :
  table_ok ids ks → pts ≡ₚ buildOrderedDeck →
  ∃ dt, ∀ i s, (i < length ids)%nat → (s < 2 * length ids)%nat → deal_plan ids ks sc pts dt i s.
Proof.
  intros (Hnd & Hlen & Hsize & Hks) Hpts. destruct (perm_deck pts Hpts) as (Hr & _ & Hl).
  destruct (finite_choice (λ i (f : nat → list event), ∀ s, (s < 2 * length ids)%nat → deal_plan ids ks sc pts (λ _, f) i s)
    (length ids)) as [dt Hdt].
  - intros i Hi. destruct (finite_choice (λ s tr, deal_plan ids ks sc pts (λ _ _, tr) i s) (2 * length ids)) as [f Hf];
      [|exists f; intros s Hs; destruct (Hf s Hs); by constructor].
    intros s Hs. destruct (dealHoleSlot_follows ids ks PRIME sc Hnd Hlen ltac:(lia) PRIME_prime Hks pts Hr ltac:(lia) i s Hi Hs)
      as (tr & Hf & _ & Hlt & Hh & He & Hs'). by exists tr.
  - exists dt. intros i s Hi Hs. destruct (Hdt i Hi s Hs). by constructor.
Qed.

Lemma new_log_fresh np stack ids :
  length ids = Z.to_nat np → all_in ids (NewLog np stack) ∧ shown (NewLog np stack) = 0%nat.
Proof.
  intros Hlen. split; [|done]. exists (initial_state np stack). split; [done|]. intros i Hi. cbn [Folded initial_state].
  apply lookup_replicate_2. lia.
Qed.

(** The runner of seat [i] at the end of the hand. *)
Definition final_runner (ids : list string) (ks : list Key) (sc : SessionConfig) (pts : list bytes) (rs : nat → Runner)
    (rds : list round) (i : nat) : Runner :=
  after_hand ids ks pts (hole_node ids ks sc pts) i rds (dealt_runner ids ks sc pts rs i).

Lemma final_seat ids ks sc pts rs rds i : SeatIdx (rnode (final_runner ids ks sc pts rs rds i)) = Z.of_nat i.
Proof.
  unfold final_runner, after_hand. assert (SeatIdx (rnode (dealt_runner ids ks sc pts rs i)) = Z.of_nat i) as Hr by done.
  revert Hr. generalize (dealt_runner ids ks sc pts rs i) as r. induction rds as [|rd rds IH]; intros r Hr; [done|]. by apply IH.
Qed.

Definition game_bound (ids : list string) (rds : list round) : nat :=
  (length ids * (3 + 4 * length ids + length rds * span ids + (2 * length ids + 2)))%nat.

(** Everything that is known of a game's runs. *)
Lemma game_outcome np stack SC R c ids ks sc sks envs rds l' rs fuel :
  game_ready np stack SC R ids ks sc sks envs rds l' rs → (length rds < fuel)%nat →
  ∃ pts s, pts ≡ₚ buildOrderedDeck ∧ Log_Replay l' = Ok s ∧ HandOver s = true ∧
    (∀ i, (i < length ids)%nat → let r := final_runner ids ks sc pts rs rds i in
       rlog r = l' ∧ rnode r = dealt_node ids ks sc pts i (shown l') ∧
       published r = published (rs i) ++
         ((λ rd, (commit_event rd, commit_fields (Append (hr_log rd) (hr_entry rd)) "committed")) <$> rds)) ∧
    ∀ k g, nsteps (game_step ids SC envs fuel rs) k (new_game ids R c rs) g →
      (k ≤ game_bound ids rds)%nat ∧
      (∀ i x, gm_seats g !! i = Some (Betting (Ret x)) → x = Ok (final_runner ids ks sc pts rs rds i, HandDone s)) ∧
      ((∀ i, (i < length ids)%nat → gm_seats g !! i = Some (Betting (Ret (Ok (final_runner ids ks sc pts rs rds i, HandDone s))))) ∨
       ∃ g', game_step ids SC envs fuel rs g g') ∧
      (∀ i sl p, (i < length ids)%nat → (sl < 2 * length ids)%nat → i ≠ slot_owner sl → gm_seats g !! i = Some (Betting p) →
         Get (store_of (gm_stores g) (ids !!! i)) (HoleRelayKey (Z.of_nat sl) (Z.of_nat i))
         = Some (hole_value ks PRIME PRIME_prime pts sl i)).
Proof using L EL DL.
  intros [Ht [Hids Hlen] HR SL Hsks Hrenc Henv Hh Hbound Hrs] Hfuel.
  destruct (hand_ends_over sks envs (NewLog np stack) rds l' Hh) as (s & Hs & Ho).
  destruct (final_layered ids ks R c Hids HR) as (pts & Hpts & Hfinal).
  destruct (deal_plans ids ks sc pts Hids Hpts) as [dt Hdt].
  destruct (new_log_fresh np stack ids Hlen) as [Hin Hshown].
  exists pts, s. split_and!; [done..| |].
  - intros i Hi. destruct (Hrs i Hi) as (_ & Hseat & _).
    destruct (after_hand_spec ids ks pts (hole_node ids ks sc pts) sks envs (NewLog np stack) rds l' i (dealt_runner ids ks sc pts rs i) Hh)
      as (H1 & H2 & H3); [apply Hseat|by rewrite Hshown|]. by split_and!.
  - intros k g Hrun. by apply (game_ends ids ks sc R c SC SL HR sks envs np stack Ht Hids Hlen Hsks (NewLog np stack) l' rds Hh
      (reach_new _ _) Hin Hbound pts Hpts dt Hdt rs fuel s Hrenc Henv Hfinal Hshown Hfuel Hs Hrs k g).
Qed.


(** ** The winners of a game *)

Lemma hand_reach np stack ids ks sks envs l rds l' :
  table np stack → table_ok ids ks → length ids = Z.to_nat np → (∀ i, (i < length ids)%nat → len (sks i) = PrivateKeySize) →
  hand_from sks envs l rds l' → log_reach np stack l → log_reach np stack l'.
Proof using L.
  intros Ht Hids Hlen Hsks. induction 1 as [l s Hs Ho|l s q a e rds l' Hs Ho Hturn Ha Hv Hb Hacts Hlast Hrest IH]; intros Hl; [done|].
  destruct (round_state ids ks sks np stack Ht Hids Hlen Hsks l s q a e Hl Hs Ho Hturn Ha Hv Hb) as (Hq & Hty & Hver & _).
  apply IH. by eapply reach_propose.
Qed.

(** A hand that is over with two players left has the whole board out. *)
Lemma over_shown np stack l s :
  table np stack → 2 ≤ np → log_reach np stack l → Log_Replay l = Ok s → HandOver s = true →
  length (Folded s) = Z.to_nat np ∧ 1 ≤ NumNonFolded s ∧ (2 ≤ NumNonFolded s → shown l = 5%nat).
Proof using L.
  intros Ht Hnp Hl Hs Ho. destruct (log_ok_replay np stack l (log_reach_ok np stack l Ht Hnp Hl)) as (s' & u & Hs' & Hc & Hb).
  rewrite Hs in Hs'. injection Hs' as <-. rewrite NumNonFolded_count. destruct (bt_over _ _ Hb Ho) as [H1|[H1 H2]].
  - split_and!; [apply Hc|lia|lia].
  - split_and!; [apply Hc|lia|]. intros _. unfold shown, street_of. by rewrite Hs, H1.
Qed.


End theorems.

(** ** A concrete game *)

#[local] Existing Instances toy_scheme toy_laws entry_codec entry_codec_laws receipt_codec deck_codec deck_codec_laws.

(** A run that is bounded and can always go on ends. *)
Lemma bounded_ends {A} (R : relation A) (P : A → Prop) (g0 : A) b :
  (∀ k g, nsteps R k g0 g → (k ≤ b)%nat ∧ (P g ∨ ∃ g', R g g')) → ∃ k g, nsteps R k g0 g ∧ P g.
Proof.
  intros Hall. assert (∀ d k g, nsteps R k g0 g → (b < k + d)%nat → ∃ k g, nsteps R k g0 g ∧ P g) as Hd;
    [|apply (Hd (S b) 0%nat g0); [constructor|lia]].
  induction d as [|d IH]; intros k g Hrun Hlt; destruct (Hall k g Hrun) as [Hk [Hp|[g' Hg']]]; [lia..|by exists k, g|].
  apply (IH (S k) g'); [by eapply nsteps_r|lia].
Qed.

(** Alice and Bob play the hand of [short_acts] with the shuffle and the deal. *)
Definition fresh_runner (i : nat) : Runner := seat_runner two_ids (seat two_ids two_keys PRIME two_rules [] i) short_log i.

Lemma fresh_ready acts :
  script_legal three_sks (λ _, scripted acts) short_log acts = true → Z.of_nat (length acts) < 2 ^ 64 →
  game_ready 2 100 (λ _, in_order) (λ _, zero_rand) two_ids two_keys two_rules three_sks (λ _, scripted acts)
    (script_rounds three_sks short_log acts) (script_log three_sks short_log acts) fresh_runner.
Proof.
  intros Hl Hb. constructor.
  - split; lia.
  - split; [apply two_table_ok|reflexivity].
  - apply zero_sources_ok.
  - intros _. apply in_order_laws.
  - intros i _. reflexivity.
  - intros x. eexists. reflexivity.
  - intros i rid att _. split; reflexivity.
  - by apply script_hand.
  - assert (∀ l, length (script_rounds three_sks l acts) = length acts) as ->; [|done].
    clear. induction acts as [|a acts IH]; intros l; [done|]. cbn [script_rounds length]. by rewrite IH.
  - intros i Hi. split_and!; [reflexivity| |vm_compute; discriminate].
    constructor; [reflexivity..|]. intros j Hj. cbn [length two_ids] in Hj.
    destruct j as [|[|j]]; [vm_compute; reflexivity..|lia].
Qed.


(** Both check on every street: there is a showdown. *)
Definition checks : list Action := replicate 8 (mkAction ActionCheck 0).
Definition checks_end : Log := script_log three_sks short_log checks.

#[local] Existing Instance claim_codec.
#[local] Instance claim_codec_laws : CodecLaws ShowdownClaim := countable_codec_laws ShowdownClaim.

