(* ===== verification/Transport.v ===== *)
(** * Connections ([internal/transport/gob_conn.go])

    A [GobConn] sends frames through a gob encoder and receives them through a
    gob decoder.  Several goroutines send on it at once; each [Encode] writes
    its message in one or more pieces, and [writeMu] keeps the pieces of
    different frames apart.  The other end is read by one goroutine, to which
    the bytes arrive in portions of any size.  A [wire_world] is the sending
    side, the bytes under way and the receiving side; closing the connection is
    possible at any time.

    The gob stream is a class: an encoder and a decoder with a state each (an
    encoder describes a type only the first time), and self-delimiting
    messages. *)

From Stdlib Require Import ZArith Lia.
From stdpp Require Import base list gmap strings numbers relations.
From S2P Require Import Prelude Dispatch.

#[local] Open Scope Z_scope.

(** What a decoder finds at the front of the bytes it has. *)
Inductive decoded (D : Type) := NeedMore | Decoded (f : Frame) (rest : list Z) (d : D) | Corrupt.
Arguments NeedMore {D}.
Arguments Decoded {D} f rest d.
Arguments Corrupt {D}.

(** [gob_write] gives the pieces that [Encode] writes. *)
Class GobStream := {
  enc_state : Type;
  dec_state : Type;
  NewEncoder : enc_state;
  NewDecoder : dec_state;
  gob_write : enc_state → Frame → list (list Z) * enc_state;
  gob_read : dec_state → list Z → decoded dec_state;
}.

(** A decoder that has read what an encoder has written is in step with it:
    it then needs the whole of the next message and nothing more. *)
Class GobLaws {G : GobStream} := {
  in_step : enc_state → dec_state → Prop;
  step_new : in_step NewEncoder NewDecoder;
  write_some : ∀ e f, concat (gob_write e f).1 ≠ [];
  read_whole : ∀ e d f, in_step e d →
    ∃ d', in_step (gob_write e f).2 d' ∧ ∀ rest, gob_read d (concat (gob_write e f).1 ++ rest) = Decoded f rest d';
  read_part : ∀ e d f p, in_step e d → p `prefix_of` concat (gob_write e f).1 → p ≠ concat (gob_write e f).1 →
    gob_read d p = NeedMore;
}.

(** ** A connection and its users *)

Section conn.
Context `{G : GobStream}.

(** Both directions have this form; a node holds the encoder of one and the
    decoder of the other.  [gc_lock] is the holder of [writeMu]; [gc_wire] are
    the bytes under way, [gc_in] those that have arrived and are not decoded. *)
Record GobConn := mkGobConn {
  gc_lock : option nat;
  gc_enc : enc_state;
  gc_wire : list Z;
  gc_in : list Z;
  gc_dec : dec_state;
  gc_closed : bool;
}.

Definition NewGobConn : GobConn := mkGobConn None NewEncoder [] [] NewDecoder false.

(** Where a goroutine that sends is: between calls of [Send], in [Encode] with
    the pieces it has still to write, or returned from [Send] with an error. *)
Inductive send_phase := SendIdle | SendWriting (f : Frame) (pieces : list (list Z)) | SendFailed.

(** What the receiving goroutine has got, and whether [Receive] has failed. *)
Record wire_world := mkWire {
  ww_conn : GobConn;
  ww_senders : list send_phase;
  ww_got : list Frame;
  ww_ended : bool;
}.

(** What a step is to the users: a frame is out, a frame is received, or
    neither. *)
Inductive wire_label := LSent (i : nat) (f : Frame) | LGot (f : Frame) | LInside.

(** [Send] up to the first write. *)
Definition send_start (i : nat) (f : Frame) (c : GobConn) : GobConn * send_phase :=
  let '(pieces, e) := gob_write (gc_enc c) f in
  (mkGobConn (Some i) e (gc_wire c) (gc_in c) (gc_dec c) (gc_closed c), SendWriting f pieces).

Definition set_wire (w : list Z) (c : GobConn) : GobConn :=
  mkGobConn (gc_lock c) (gc_enc c) w (gc_in c) (gc_dec c) (gc_closed c).
Definition unlock (c : GobConn) : GobConn :=
  mkGobConn None (gc_enc c) (gc_wire c) (gc_in c) (gc_dec c) (gc_closed c).

(** [Receive], with the bytes that have arrived. *)
Definition Receive (c : GobConn) : option (GobConn * option Frame) :=
  match gob_read (gc_dec c) (gc_in c) with
  | NeedMore => None
  | Decoded f rest d => Some (mkGobConn (gc_lock c) (gc_enc c) (gc_wire c) rest d (gc_closed c), Some f)
  | Corrupt => Some (c, None)
  end.

Definition CloseConn (c : GobConn) : GobConn :=
  mkGobConn (gc_lock c) (gc_enc c) (gc_wire c) (gc_in c) (gc_dec c) true.

Definition set_sender (i : nat) (p : send_phase) (w : wire_world) : list send_phase := <[i := p]> (ww_senders w).

Inductive wire_step : wire_label → wire_world → wire_world → Prop :=
| wi_lock w i p f :
    ww_senders w !! i = Some p → p = SendIdle ∨ p = SendFailed → gc_lock (ww_conn w) = None →
    wire_step LInside w
      (mkWire (send_start i f (ww_conn w)).1 (set_sender i (send_start i f (ww_conn w)).2 w) (ww_got w) (ww_ended w))
| wi_write w i f piece pieces :
    ww_senders w !! i = Some (SendWriting f (piece :: pieces)) → gc_closed (ww_conn w) = false →
    wire_step (if decide (concat pieces = [] ∧ piece ≠ []) then LSent i f else LInside) w
      (mkWire (set_wire (gc_wire (ww_conn w) ++ piece) (ww_conn w)) (set_sender i (SendWriting f pieces) w)
         (ww_got w) (ww_ended w))
| wi_return w i f :
    ww_senders w !! i = Some (SendWriting f []) →
    wire_step LInside w (mkWire (unlock (ww_conn w)) (set_sender i SendIdle w) (ww_got w) (ww_ended w))
| wi_fail w i f pieces :
    ww_senders w !! i = Some (SendWriting f pieces) → gc_closed (ww_conn w) = true →
    wire_step LInside w (mkWire (unlock (ww_conn w)) (set_sender i SendFailed w) (ww_got w) (ww_ended w))
| wi_arrive w p rest :
    gc_wire (ww_conn w) = p ++ rest →
    wire_step LInside w
      (mkWire (mkGobConn (gc_lock (ww_conn w)) (gc_enc (ww_conn w)) rest (gc_in (ww_conn w) ++ p) (gc_dec (ww_conn w))
                 (gc_closed (ww_conn w))) (ww_senders w) (ww_got w) (ww_ended w))
| wi_receive w c r :
    ww_ended w = false → Receive (ww_conn w) = Some (c, r) →
    wire_step (match r with Some f => LGot f | None => LInside end) w
      (mkWire c (ww_senders w) (match r with Some f => ww_got w ++ [f] | None => ww_got w end)
         (match r with Some _ => false | None => true end))
| wi_end w :
    ww_ended w = false → gc_closed (ww_conn w) = true →
    wire_step LInside w (mkWire (ww_conn w) (ww_senders w) (ww_got w) true)
| wi_close w : wire_step LInside w (mkWire (CloseConn (ww_conn w)) (ww_senders w) (ww_got w) (ww_ended w)).

(** A new connection with [n] goroutines that send on it. *)
Definition new_wire (n : nat) : wire_world := mkWire NewGobConn (replicate n SendIdle) [] false.

End conn.

(** ** What the users rely on: a queue of frames *)

Inductive fifo_step : wire_label → list Frame → list Frame → Prop :=
| fifo_put i f q : fifo_step (LSent i f) q (q ++ [f])
| fifo_get f q : fifo_step (LGot f) (f :: q) q
| fifo_idle q : fifo_step LInside q q.
