(* ===== verification/TransportProps.v ===== *)
(** * Connections: theorems *)

From Stdlib Require Import ZArith Lia.
From stdpp Require Import base list gmap strings numbers relations.
From S2P Require Import Prelude Dispatch Transport.

#[local] Open Scope Z_scope.

Section transport.
Context `{G : GobStream} `{GL : !GobLaws}.

Abbreviation msg e f := (concat (gob_write e f).1).

(** The bytes of a sequence of frames, and the encoder after them. *)
Fixpoint frames_bytes (e : enc_state) (q : list Frame) : list Z * enc_state :=
  match q with
  | [] => ([], e)
  | f :: q => let '(bs, e') := frames_bytes (gob_write e f).2 q in (msg e f ++ bs, e')
  end.

Lemma stream_snoc e q f :
  frames_bytes e (q ++ [f]) = ((frames_bytes e q).1 ++ msg (frames_bytes e q).2 f, (gob_write (frames_bytes e q).2 f).2).
Proof.
  revert e. induction q as [|g q IH]; intros e; cbn; [by rewrite app_nil_r|]. rewrite IH.
  destruct (frames_bytes (gob_write e g).2 q) as [bs e']. cbn. by rewrite app_assoc.
Qed.

(** A part of a message. *)
Definition part (t bs : list Z) : Prop := ∃ r, r ≠ [] ∧ bs = t ++ r.

Lemma part_prefix t bs : part t bs → t `prefix_of` bs ∧ t ≠ bs.
Proof.
  intros (r & Hr & ->). split; [by exists r|]. intros H. apply Hr. apply (app_inv_head t). by rewrite app_nil_r.
Qed.

Lemma part_app t t' bs : part (t ++ t') bs → part t bs.
Proof. intros (r & Hr & ->). exists (t' ++ r). split; [|by rewrite app_assoc]. by intros [_ ?]%app_nil. Qed.

(** Whoever is in [Encode] holds the lock. *)
Definition exclusive (w : wire_world) : Prop :=
  ∀ i f ps, ww_senders w !! i = Some (SendWriting f ps) → gc_lock (ww_conn w) = Some i.

(** While the connection is open, the encoder is after the frames that are
    out, or a sender has written [t] of the next one. *)
Definition writing (w : wire_world) (e : enc_state) (t : list Z) (f : Frame) : Prop :=
  gc_closed (ww_conn w) = true ∨
  (t = [] ∧ gc_enc (ww_conn w) = e ∧ ∀ i g ps, ww_senders w !! i = Some (SendWriting g ps) → concat ps = []) ∨
  (∃ i ps, ww_senders w !! i = Some (SendWriting f ps) ∧ concat ps ≠ [] ∧ gc_enc (ww_conn w) = (gob_write e f).2 ∧
     msg e f = t ++ concat ps).

(** The bytes that are not decoded are the frames [q] and part of a next one. *)
Record carries (w : wire_world) (q : list Frame) : Prop := {
  ca_bytes : ∃ e t f, in_step e (gc_dec (ww_conn w)) ∧
    gc_in (ww_conn w) ++ gc_wire (ww_conn w) = (frames_bytes e q).1 ++ t ∧ part t (msg (frames_bytes e q).2 f) ∧
    writing w (frames_bytes e q).2 t f;
  ca_lock : exclusive w;
  ca_ended : ww_ended w = true → gc_closed (ww_conn w) = true;
}.

Lemma sender_cases (w : wire_world) i p0 p j x :
  ww_senders w !! i = Some p0 → set_sender i p w !! j = Some x → (j = i ∧ x = p) ∨ (j ≠ i ∧ ww_senders w !! j = Some x).
Proof.
  intros Hi. unfold set_sender. destruct (decide (j = i)) as [->|Hne].
  - rewrite list_lookup_insert_eq by (by eapply lookup_lt_Some). intros [= <-]. by left.
  - rewrite list_lookup_insert_ne by done. by right.
Qed.

Lemma set_sender_eq (w : wire_world) i p0 p : ww_senders w !! i = Some p0 → set_sender i p w !! i = Some p.
Proof. intros Hi. apply list_lookup_insert_eq. by eapply lookup_lt_Some. Qed.

(** ** Sending *)

Lemma carries_lock w i p f q :
  ww_senders w !! i = Some p → p = SendIdle ∨ p = SendFailed → gc_lock (ww_conn w) = None → carries w q →
  carries (mkWire (send_start i f (ww_conn w)).1 (set_sender i (send_start i f (ww_conn w)).2 w) (ww_got w) (ww_ended w)) q.
Proof.
  intros Hi Hp Hfree [(e & t & g & Hst & Hb & Hpart & Hw) Hex Hend]. unfold send_start.
  destruct (gob_write (gc_enc (ww_conn w)) f) as [ps e'] eqn:Hg. constructor; cbn [ww_conn ww_senders ww_ended fst snd gc_lock gc_closed]; [| |done].
  - destruct Hw as [Hc|[(-> & He & _)|(j & ps' & Hj & _)]].
    + exists e, t, g. split_and!; [done..|]. by left.
    + exists e, [], f. split_and!; [done|done| |].
      * eexists. split; [apply write_some|done].
      * right. right. exists i, ps. split; [by eapply set_sender_eq|]. rewrite <- He, Hg. split; [|done].
        pose proof (write_some (gc_enc (ww_conn w)) f) as Hne. by rewrite Hg in Hne.
    + apply Hex in Hj. congruence.
  - intros j h hs Hj. destruct (sender_cases w i p _ j _ Hi Hj) as [[-> _]|[_ Hj']]; [done|].
    apply Hex in Hj'. congruence.
Qed.

Lemma carries_write w i f piece ps q :
  ww_senders w !! i = Some (SendWriting f (piece :: ps)) → gc_closed (ww_conn w) = false → carries w q →
  ∃ q', fifo_step (if decide (concat ps = [] ∧ piece ≠ []) then LSent i f else LInside) q q' ∧
    carries (mkWire (set_wire (gc_wire (ww_conn w) ++ piece) (ww_conn w)) (set_sender i (SendWriting f ps) w)
               (ww_got w) (ww_ended w)) q'.
Proof.
  intros Hi Hopen [(e & t & g & Hst & Hb & Hpart & Hw) Hex Hend].
  assert (∀ w', ww_senders w' = set_sender i (SendWriting f ps) w → gc_lock (ww_conn w') = gc_lock (ww_conn w) → exclusive w') as Hex'.
  { intros w' Hs Hl j h hs Hj. rewrite Hs in Hj. rewrite Hl.
    destruct (sender_cases w i _ _ j _ Hi Hj) as [[-> _]|[_ Hj']]; by eapply Hex. }
  destruct Hw as [Hc|[(-> & He & Hall)|(j & ps' & Hj & Hne & He & Hm)]]; [congruence| |].
  - pose proof (Hall _ _ _ Hi) as Hnil. cbn in Hnil. apply app_nil in Hnil as [-> Hps].
    rewrite decide_False by naive_solver. exists q. split; [constructor|]. constructor; [|by apply Hex'|done].
    exists e, [], g. cbn. rewrite app_nil_r. split_and!; [done..|]. right. left. split_and!; [done..|].
    intros j h hs Hj. destruct (sender_cases w i _ _ j _ Hi Hj) as [[-> [= -> ->]]|[_ Hj']]; [done|by eapply Hall].
  - assert (j = i) as -> by (apply Hex in Hi, Hj; congruence). rewrite Hi in Hj. injection Hj as <- <-.
    cbn in Hm. destruct (decide (concat ps = [] ∧ piece ≠ [])) as [[Hps Hpiece]|Hno].
    + exists (q ++ [f]). split; [constructor|]. constructor; [|by apply Hex'|done].
      exists e, [], f. rewrite stream_snoc. cbn. split_and!; [done| | |].
      * rewrite app_assoc, Hb, Hm, Hps, !app_nil_r, app_assoc. done.
      * eexists. split; [apply write_some|done].
      * right. left. split_and!; [done..|]. intros j h hs Hj.
        destruct (sender_cases w i _ _ j _ Hi Hj) as [[-> [= -> ->]]|[Hji Hj']]; [done|].
        apply Hex in Hi, Hj'. congruence.
    + assert (concat ps ≠ []) as Hps.
      { intros Hps. apply Hno. split; [done|]. intros ->. apply Hne. cbn. done. }
      exists q. split; [constructor|]. constructor; [|by apply Hex'|done].
      exists e, (t ++ piece), f. cbn. split_and!; [done|by rewrite app_assoc, Hb, app_assoc| |].
      * exists (concat ps). split; [done|]. by rewrite Hm, app_assoc.
      * right. right. exists i, ps. split_and!; [by eapply set_sender_eq|done|done|by rewrite Hm, app_assoc].
Qed.

(** The end of [Send]. *)
Lemma carries_unlock w i f ps p q :
  ww_senders w !! i = Some (SendWriting f ps) → ps = [] ∨ gc_closed (ww_conn w) = true → p = SendIdle ∨ p = SendFailed →
  carries w q → carries (mkWire (unlock (ww_conn w)) (set_sender i p w) (ww_got w) (ww_ended w)) q.
Proof.
  intros Hi Hps Hp [(e & t & g & Hst & Hb & Hpart & Hw) Hex Hend].
  assert (∀ j h hs, set_sender i p w !! j = Some (SendWriting h hs) → False) as Hnone.
  { intros j h hs Hj. destruct (sender_cases w i _ _ j _ Hi Hj) as [[-> Heq]|[Hji Hj']]; [by destruct Hp as [-> | ->]|].
    apply Hex in Hi, Hj'. congruence. }
  constructor; [|by intros j h hs Hj; destruct (Hnone j h hs Hj)|done].
  exists e, t, g. split_and!; [done..|]. destruct Hps as [->|Hc]; [|by left].
  destruct Hw as [Hc|[(-> & He & _)|(j & ps' & Hj & Hne & _)]]; [by left|right; left|].
  - split_and!; [done..|]. intros j h hs Hj. by destruct (Hnone j h hs Hj).
  - assert (j = i) as -> by (apply Hex in Hi, Hj; congruence). by simplify_eq.
Qed.

(** ** Receiving *)

Lemma read_next e d q t f b rest :
  in_step e d → part t (msg (frames_bytes e q).2 f) → b ++ rest = (frames_bytes e q).1 ++ t →
  gob_read d b = NeedMore ∨
  ∃ g q' d' b', q = g :: q' ∧ gob_read d b = Decoded g b' d' ∧ in_step (gob_write e g).2 d' ∧
    b' ++ rest = (frames_bytes (gob_write e g).2 q').1 ++ t ∧ (frames_bytes e q).2 = (frames_bytes (gob_write e g).2 q').2.
Proof using GL.
  intros Hst Hpart Hb. destruct q as [|g q]; cbn in *.
  - left. subst t. apply part_app in Hpart. apply part_prefix in Hpart as [Hp Hne]. by eapply read_part.
  - destruct (frames_bytes (gob_write e g).2 q) as [bs e'] eqn:Hs. cbn in *. rewrite <- app_assoc in Hb.
    destruct (app_eq_inv _ _ _ _ Hb) as [(k & Hk & Hk')|(k & Hk & Hk')].
    + destruct (read_whole e d g Hst) as (d' & Hst' & Hread). right. exists g, q, d', k. rewrite Hs. cbn.
      split_and!; [done| |done|done|done]. rewrite Hk. apply Hread.
    + destruct k as [|x k].
      * rewrite app_nil_r in Hk. destruct (read_whole e d g Hst) as (d' & Hst' & Hread). right.
        exists g, q, d', []. rewrite Hs. cbn in *. split_and!; [done| |done|done|done].
        specialize (Hread []). by rewrite app_nil_r, Hk in Hread.
      * left. eapply (read_part e d g b Hst); rewrite Hk; [by exists (x :: k)|].
        intros Heq. apply (f_equal length) in Heq. rewrite length_app in Heq. cbn in Heq. lia.
Qed.

Lemma carries_receive w c r q :
  Receive (ww_conn w) = Some (c, r) → carries w q → ww_ended w = false →
  ∃ f q', r = Some f ∧ q = f :: q' ∧ carries (mkWire c (ww_senders w) (ww_got w ++ [f]) false) q'.
Proof using GL.
  intros Hr [(e & t & g & Hst & Hb & Hpart & Hw) Hex Hend] Hrun. unfold Receive in Hr.
  destruct (read_next _ _ _ _ _ _ _ Hst Hpart Hb) as [Hn|(f & q' & d' & b' & -> & Hd & Hst' & Hb' & He)].
  { by rewrite Hn in Hr. }
  rewrite Hd in Hr. injection Hr as <- <-. exists f, q'. split_and!; [done..|]. constructor; [|done|done].
  exists (gob_write e f).2, t, g. cbn [ww_conn gc_dec gc_in gc_wire]. rewrite <- He. by split_and!.
Qed.

(** ** The queue *)

(** Every step of the connection is a step of the queue. *)
Lemma wire_step_fifo l w w' q :
  wire_step l w w' → carries w q → ∃ q', fifo_step l q q' ∧ carries w' q'.
Proof using GL.
  intros Hs Hq. destruct Hs as [w i p f Hi Hp Hl|w i f piece ps Hi Ho|w i f Hi|w i f ps Hi Hc|w p rest Hwire|w c r He Hr|w He Hc|w].
  - exists q. split; [constructor|]. by eapply carries_lock.
  - by eapply carries_write.
  - exists q. split; [constructor|]. eapply carries_unlock; eauto.
  - exists q. split; [constructor|]. eapply carries_unlock; eauto.
  - exists q. split; [constructor|]. destruct Hq as [(e & t & g & Hst & Hb & Hpart & Hw) Hex Hend].
    constructor; [|done|done]. exists e, t, g. cbn. split_and!; [done| |done|done].
    by rewrite <- app_assoc, <- Hwire.
  - destruct (carries_receive w c r q Hr Hq He) as (f & q' & -> & -> & Hc'). exists q'. split; [constructor|done].
  - exists q. split; [constructor|]. destruct Hq as [Hb Hex Hend]. by constructor.
  - exists q. split; [constructor|]. destruct Hq as [(e & t & g & Hst & Hb & Hpart & Hw) Hex Hend].
    constructor; [|done|done]. exists e, t, g. split_and!; [done..|]. by left.
Qed.

(** Runs with their labels. *)
Inductive labelled {S} (step : wire_label → S → S → Prop) : list wire_label → S → S → Prop :=
| lab_nil s : labelled step [] s s
| lab_snoc ls l s1 s2 s3 : labelled step ls s1 s2 → step l s2 s3 → labelled step (ls ++ [l]) s1 s3.

Definition frames_sent (ls : list wire_label) : list Frame :=
  omap (λ l, match l with LSent _ f => Some f | _ => None end) ls.
Definition frames_got (ls : list wire_label) : list Frame :=
  omap (λ l, match l with LGot f => Some f | _ => None end) ls.

Lemma fifo_account ls q : labelled fifo_step ls [] q → frames_sent ls = frames_got ls ++ q.
Proof.
  intros Hrun. remember [] as q0 eqn:H0. induction Hrun as [|ls l q1 q2 q3 _ IH Hs]; [done|].
  specialize (IH H0). unfold frames_sent, frames_got in *. rewrite !omap_app, IH.
  destruct Hs; cbn; rewrite ?app_nil_r, <- ?app_assoc; done.
Qed.

Lemma run_carries n ls w :
  labelled wire_step ls (new_wire n) w → ∃ q, labelled fifo_step ls [] q ∧ carries w q ∧ ww_got w = frames_got ls.
Proof using GL.
  intros Hrun. remember (new_wire n) as w0 eqn:H0. induction Hrun as [|ls l w1 w2 w3 _ IH Hs].
  - subst. exists []. split; [constructor|]. split; [|done]. constructor; [|by intros i f ps [? _]%lookup_replicate|done].
    exists NewEncoder, [], (reply "" "" true). split_and!; [apply step_new|done| |].
    + eexists. split; [apply write_some|done].
    + right. left. split_and!; [done..|]. by intros i f ps [? _]%lookup_replicate.
  - destruct (IH H0) as (q & Hq & Hc & Hg). destruct (wire_step_fifo _ _ _ _ Hs Hc) as (q' & Hf & Hc').
    exists q'. split; [by econstructor|]. split; [done|].
    unfold frames_got in *. rewrite omap_app, <- Hg.
    destruct Hs as [| | | | |w c r He Hr| |]; cbn; rewrite ?app_nil_r; try done.
    + by case_decide; cbn; rewrite app_nil_r.
    + destruct (carries_receive w c r q Hr Hc He) as (f & q1 & -> & _). done.
Qed.

Lemma lab_cons {S} (step : wire_label → S → S → Prop) ls l s1 s2 s3 :
  step l s1 s2 → labelled step ls s2 s3 → labelled step (l :: ls) s1 s3.
Proof.
  intros Hs Hrun. induction Hrun as [|ls l' s2 s3 s4 _ IH Hl]; [by apply (lab_snoc step [] l s1 s1); [constructor|]|].
  eapply (lab_snoc step (l :: ls)); [by apply IH|done].
Qed.

(** The frames that are out can all be received. *)
Lemma drain_queue w q :
  carries w q → gc_wire (ww_conn w) = [] → ww_ended w = false →
  ∃ w', labelled wire_step (LGot <$> q) w w' ∧ ww_got w' = ww_got w ++ q.
Proof using GL.
  revert w. induction q as [|f q IH]; intros w Hq Hwire Hrun.
  { exists w. split; [constructor|by rewrite app_nil_r]. }
  assert (∃ c, Receive (ww_conn w) = Some (c, Some f) ∧ gc_wire c = []) as (c & Hc & Hw).
  { destruct Hq as [(e & t & g & Hst & Hb & Hpart & _) _ _]. rewrite Hwire, app_nil_r in Hb. cbn in Hb.
    destruct (frames_bytes (gob_write e f).2 q) as [bs e'] eqn:Hs. cbn in Hb. rewrite <- app_assoc in Hb.
    destruct (read_whole e _ f Hst) as (d' & _ & Hread). specialize (Hread (bs ++ t)). rewrite <- Hb in Hread.
    unfold Receive. rewrite Hread. by eexists. }
  destruct (carries_receive w c _ _ Hc Hq Hrun) as (f' & q' & [= <-] & [= <-] & Hq').
  destruct (IH _ Hq' Hw eq_refl) as (w' & Hw' & Hgot). exists w'. split.
  - cbn [fmap list_fmap]. eapply lab_cons; [|exact Hw']. exact (wi_receive w c (Some f) Hrun Hc).
  - rewrite Hgot. cbn. by rewrite <- app_assoc.
Qed.

(** C17: A connection is a queue of frames.  Whatever goroutines send on it, in
    whatever pieces the encoder writes and in whatever portions the bytes
    arrive: what [Send] puts out and [Receive] returns are the steps of a
    first-in first-out queue.  [Receive] fails only when the connection was
    closed, and until then every frame that is out can still be received. *)
Theorem conn_refines_fifo n ls w :
  labelled wire_step ls (new_wire n) w →
  ∃ q, labelled fifo_step ls [] q ∧ frames_sent ls = ww_got w ++ q ∧
    (ww_ended w = true → gc_closed (ww_conn w) = true) ∧
    (ww_ended w = false → ∃ w', rtc (λ a b, ∃ l, wire_step l a b) w w' ∧ ww_got w' = frames_sent ls).
Proof using GL.
  intros Hrun. destruct (run_carries n ls w Hrun) as (q & Hf & Hq & Hg). exists q.
  pose proof (fifo_account ls q Hf) as Hacc. rewrite <- Hg in Hacc. split_and!; [done|done|exact (ca_ended _ _ Hq)|].
  intros Hrn. pose (w1 := mkWire (mkGobConn (gc_lock (ww_conn w)) (gc_enc (ww_conn w)) [] (gc_in (ww_conn w) ++ gc_wire (ww_conn w))
    (gc_dec (ww_conn w)) (gc_closed (ww_conn w))) (ww_senders w) (ww_got w) (ww_ended w)).
  assert (wire_step LInside w w1) as H1 by (apply (wi_arrive w (gc_wire (ww_conn w)) []); by rewrite app_nil_r).
  destruct (wire_step_fifo _ _ _ _ H1 Hq) as (q1 & Hq1 & Hc1). inversion Hq1; subst q1.
  destruct (drain_queue w1 q Hc1 eq_refl Hrn) as (w' & Hw' & Hgot). exists w'. split; [|by rewrite Hgot, Hacc].
  eapply rtc_l; [by exists LInside|]. clear -Hw'. induction Hw' as [|ls l a b c _ IH Hs]; [done|].
  eapply rtc_r; [exact IH|by exists l].
Qed.

End transport.

(** ** A concrete stream

    A frame is a number; the first message is preceded by a description. *)

#[local] Instance Frame_countable : Countable Frame.
Proof.
  refine (inj_countable'
    (λ f, (Kind f, RequestID f, FNodeID f, FSessionID f, FPeerAddr f, MessageType f, Payload f, Success f, Error f,
           PeerIDs f, PeerAddresses f, SessionIDs f, LeaseExpiresUnix f, PublicKey f, TimeoutIntervalMS f, FMaxAttempts f))
    (λ '(a, b, c, d, e, g, h, i, j, k, l, m, n, o, p, q), mkFrame a b c d e g h i j k l m n o p q) _).
  by intros [].
Defined.

Definition number_of (f : Frame) : Z := Zpos (encode f).
#[local] Opaque number_of.

Lemma number_back f : decode (Z.to_pos (number_of f)) = Some f.
Proof. apply decode_encode. Qed.

Definition read_number (ds : list Z) : decoded bool :=
  match ds with
  | 0 :: x :: rest => match decode (Z.to_pos x) with Some f => Decoded f rest true | None => Corrupt end
  | _ => NeedMore
  end.

#[local] Instance number_stream : GobStream := {|
  enc_state := bool;
  dec_state := bool;
  NewEncoder := false;
  NewDecoder := false;
  gob_write described f := ((if described then [] else [[7]]) ++ [[0]; [number_of f]], true);
  gob_read described bs :=
    if described then read_number bs else match bs with 7 :: bs => read_number bs | _ => NeedMore end;
|}.

#[local] Instance number_laws : @GobLaws number_stream.
Proof.
  refine {| in_step := (eq : bool → bool → Prop) |}; cbn.
  - done.
  - by intros [] f.
  - intros e d f <-. exists true. split; [done|]. intros rest. destruct e; cbn -[decode]; by rewrite number_back.
  - intros e d f p <- [r Hr] Hne. generalize dependent (number_of f). intros x Hr Hne.
    destruct e; cbn -[decode] in *; repeat (destruct p as [|? p]; [simplify_eq/=; done|simplify_eq/=]);
      by destruct p; simplify_eq/=.
Defined.

(** Two goroutines send a frame each, one after the other got the lock. *)
Definition frame_a : Frame := reply "a" "1" true.
Definition frame_b : Frame := reply "b" "2" true.

Lemma conn_refines_fifo_witness :
  ∃ ls w q, labelled wire_step ls (new_wire 2) w ∧ frames_sent ls = [frame_b; frame_a] ∧ ww_got w ++ q = [frame_b; frame_a].
Proof.
  assert (∃ ls w, labelled wire_step ls (new_wire 2) w ∧ frames_sent ls = [frame_b; frame_a]) as (ls & w & Hrun & Hsent).
  { eexists _, _. split.
    - eapply lab_cons; [apply (wi_lock _ 1 SendIdle frame_b); [reflexivity|by left|reflexivity]|].
      eapply lab_cons; [apply (wi_write _ 1 frame_b [7] [[0]; [number_of frame_b]]); reflexivity|].
      eapply lab_cons; [apply (wi_write _ 1 frame_b [0] [[number_of frame_b]]); reflexivity|].
      eapply lab_cons; [apply (wi_write _ 1 frame_b [number_of frame_b] []); reflexivity|].
      eapply lab_cons; [apply (wi_return _ 1 frame_b); reflexivity|].
      eapply lab_cons; [apply (wi_lock _ 0 SendIdle frame_a); [reflexivity|by left|reflexivity]|].
      eapply lab_cons; [apply (wi_write _ 0 frame_a [0] [[number_of frame_a]]); reflexivity|].
      eapply lab_cons; [apply (wi_write _ 0 frame_a [number_of frame_a] []); reflexivity|]. apply lab_nil.
    - reflexivity. }
  destruct (conn_refines_fifo 2 ls w Hrun) as (q & _ & Hacc & _). exists ls, w, q.
  split; [exact Hrun|]. split; [exact Hsent|]. rewrite <- Hacc. exact Hsent.
Defined.
