(* ===== verification/Remote.v ===== *)
(** * Reading another node's store ([internal/peer/ephemeral.go])

    [PollRemote] as the code runs it: requests and responses are frames
    between nodes ([Send] and [Broadcast] of [message.go], [peerReadLoop] of
    [mesh.go]), matched by request ids, and repeated with a growing delay.
    [RemoteProps] shows when a poll may be read as the single step it is in
    [Net].

    A [mesh] is the nodes' communication state, the frames in flight and the
    computations that run on the nodes, each with the point it has reached
    inside [PollRemote].  Frames in flight are delivered in any order, which
    includes the order of each connection. *)

From Stdlib Require Import ZArith Lia.
From stdpp Require Import base list gmap strings numbers relations.
From S2P Require Import Prelude Strconv Runtime Ephemeral Net Peer Dispatch.

#[local] Open Scope Z_scope.

(** ** Messages *)

Definition KindPeerHandshake : string := "peer_handshake".
Definition KindPeerMessage : string := "peer_message".
Definition MsgEphemeralReadReq : string := "ephemeral_read_req".
Definition MsgEphemeralReadResp : string := "ephemeral_read_resp".

Record EphemeralReadRequest := mkReadReq { ReqID : string; ReqKey : string }.

Record EphemeralReadResponse := mkReadResp {
  RespID : string;
  RespKey : string;
  Value : list Z;
  Found : bool;
}.

Record Message := mkMessage { From : string; Type_ : string; MPayload : list Z }.

(** A frame on its way to a node. *)
Definition packet : Type := string * Frame.

(** ** A node's communication state

    [peers] are the keys of the connection table; [handling] says that
    [InitEphemeralHandlers] has run; a channel of [peerPending] has room for
    one response. *)
Record RNode := mkRNode {
  rn_id : string;
  rn_store : Store;
  peers : gset string;
  handling : bool;
  requestCounter : Z;
  peerPending : gmap string (option EphemeralReadResponse);
}.

Definition set_store (s : Store) (n : RNode) : RNode :=
  mkRNode (rn_id n) s (peers n) (handling n) (requestCounter n) (peerPending n).
Definition set_pending (p : gmap string (option EphemeralReadResponse)) (n : RNode) : RNode :=
  mkRNode (rn_id n) (rn_store n) (peers n) (handling n) (requestCounter n) p.
Definition set_peers (ps : gset string) (n : RNode) : RNode :=
  mkRNode (rn_id n) (rn_store n) ps (handling n) (requestCounter n) (peerPending n).
Definition InitEphemeralHandlers (n : RNode) : RNode :=
  mkRNode (rn_id n) (rn_store n) (peers n) true (requestCounter n) (peerPending n).

Definition request_id (id : string) (v : Z) : string := id +:+ "-" +:+ utoa v.

Definition nextRequestID (n : RNode) : string * RNode :=
  let v := u64 (requestCounter n + 1) in
  (request_id (rn_id n) v,
   mkRNode (rn_id n) (rn_store n) (peers n) (handling n) v (peerPending n)).

Section remote.
Context `{Codec EphemeralReadRequest} `{Codec EphemeralReadResponse}.

(** The frame that carries a payload of type [messageType]. *)
Definition message_frame (n : RNode) (messageType : string) (buf : list Z) : Frame :=
  mkFrame KindPeerMessage "" (rn_id n) "" "" messageType buf false "" [] [] [] 0 [] 0 0.

(** [None] is an error: the payload does not encode or there is no connection
    to the target.  [pc.Send] failing on a connection that broke is a lost
    frame below. *)
Definition Send {T} `{Codec T} (n : RNode) (targetID messageType : string) (payload : T) : option packet :=
  buf ← gob_encode payload;
  if decide (targetID ∈ peers n) then Some (targetID, message_frame n messageType buf) else None.

(** The frames [Broadcast] sends, in the order of the map. *)
Definition Broadcast {T} `{Codec T} `{GoRuntime} (n : RNode) (messageType : string) (payload : T)
    : option (list packet) :=
  buf ← gob_encode payload;
  Some ((λ id, (id, message_frame n messageType buf)) <$> range_order (elements (peers n))).

(** The two handlers that [InitEphemeralHandlers] registers. *)
Definition handle_read_req (n : RNode) (msg : Message) : list packet :=
  match gob_decode (MPayload msg) with
  | None => []
  | Some req =>
      let value := Get (rn_store n) (ReqKey req) in
      option_list (Send n (From msg) MsgEphemeralReadResp
        (mkReadResp (ReqID req) (ReqKey req) (default [] value) (bool_decide (is_Some value))))
  end.

Definition handle_read_resp (n : RNode) (msg : Message) : RNode :=
  match gob_decode (MPayload msg) with
  | None => n
  | Some resp =>
      match peerPending n !! RespID resp with
      | Some None => set_pending (<[RespID resp := Some resp]> (peerPending n)) n
      | _ => n
      end
  end.

(** One turn of [peerReadLoop]: a frame that is no peer message, or has no
    handler, is skipped. *)
Definition peer_frame (n : RNode) (frame : Frame) : RNode * list packet :=
  if negb (bool_decide (Kind frame = KindPeerMessage)) then (n, [])
  else if negb (handling n) then (n, [])
  else
    let msg := mkMessage (FNodeID frame) (MessageType frame) (Dispatch.Payload frame) in
    if decide (Type_ msg = MsgEphemeralReadReq) then (n, handle_read_req n msg)
    else if decide (Type_ msg = MsgEphemeralReadResp) then (handle_read_resp n msg, [])
    else (n, []).

(** ** ReadRemote

    Up to the [select]: the request id with the frame sent, or [None] when
    [Send] fails and the deferred function has removed the channel. *)
Definition ReadRemote (n : RNode) (targetID key : string) : RNode * option (string * packet) :=
  let '(requestID, n) := nextRequestID n in
  let n1 := set_pending (<[requestID := None]> (peerPending n)) n in
  match Send n1 targetID MsgEphemeralReadReq (mkReadReq requestID key) with
  | Some p => (n1, Some (requestID, p))
  | None => (set_pending (delete requestID (peerPending n1)) n1, None)
  end.

(** The deferred function. *)
Definition ReadRemote_done (requestID : string) (n : RNode) : RNode :=
  set_pending (delete requestID (peerPending n)) n.

(** The [select] takes a response from the channel. *)
Definition ReadRemote_recv (requestID : string) (n : RNode) : option (EphemeralReadResponse * RNode) :=
  match peerPending n !! requestID with
  | Some (Some resp) => Some (resp, ReadRemote_done requestID n)
  | _ => None
  end.

(** ** PollRemote

    Where the loop is: about to call [ReadRemote], inside its [select], or in
    the [select] with the timer; with the current delay in milliseconds. *)
Inductive phase :=
| Reading (backoff : Z)
| Waiting (backoff : Z) (requestID : string)
| Sleeping (backoff : Z).

Definition minBackoff : Z := 50.
Definition maxBackoff : Z := 500.

Definition next_backoff (backoff : Z) : Z :=
  let backoff := backoff * 2 in if maxBackoff <? backoff then maxBackoff else backoff.

(** ** The mesh *)

Record mesh (A : Type) := mkMesh {
  mnodes : gmap string RNode;
  flight : list packet;
  mprocs : list (string * act A * phase);
}.
#[global] Arguments mkMesh {A} _ _ _.
#[global] Arguments mnodes {A} _.
#[global] Arguments flight {A} _.
#[global] Arguments mprocs {A} _.

(** A computation's access to its own store. *)
Definition own_access {A} (p : act A) (s : Store) : option (act A * Store) :=
  match p with
  | Host key v k => Some (k, Put s key v)
  | Remove key k => Some (k, Delete s key)
  | RemovePrefix prefix k => Some (k, DeletePrefix s prefix)
  | Ret _ | PollRemote _ _ _ => None
  end.

(** What can go wrong outside the nodes: contexts end, connections break. *)
Record faults := mkFaults { ctx_ends : bool; conn_breaks : bool }.

(** Continue computation [i] of node [id] with [p] at [ph], the node being [n]. *)
Definition resume {A} (m : mesh A) (i : nat) (id : string) (p : act A) (ph : phase) (n : RNode) : mesh A :=
  mkMesh (<[id := n]> (mnodes m)) (flight m) (<[i := (id, p, ph)]> (mprocs m)).

Definition push {A} (ps : list packet) (m : mesh A) : mesh A :=
  mkMesh (mnodes m) (flight m ++ ps) (mprocs m).

Definition set_rnode {A} (id : string) (n : RNode) (m : mesh A) : mesh A :=
  mkMesh (<[id := n]> (mnodes m)) (flight m) (mprocs m).

Definition take_packet {A} (j : nat) (m : mesh A) : mesh A :=
  mkMesh (mnodes m) (delete j (flight m)) (mprocs m).

Inductive mesh_step {A} (f : faults) : mesh A → mesh A → Prop :=
| mstep_own m i id p ph n p' s :
    mprocs m !! i = Some (id, p, ph) → mnodes m !! id = Some n →
    own_access p (rn_store n) = Some (p', s) →
    mesh_step f m (resume m i id p' (Reading minBackoff) (set_store s n))
| mstep_send m i id t key k b n n' requestID pkt :
    mprocs m !! i = Some (id, PollRemote t key k, Reading b) → mnodes m !! id = Some n →
    ReadRemote n t key = (n', Some (requestID, pkt)) →
    mesh_step f m (push [pkt] (resume m i id (PollRemote t key k) (Waiting b requestID) n'))
| mstep_send_fails m i id t key k b n n' :
    mprocs m !! i = Some (id, PollRemote t key k, Reading b) → mnodes m !! id = Some n →
    ReadRemote n t key = (n', None) →
    mesh_step f m (resume m i id (PollRemote t key k) (Sleeping b) n')
| mstep_deliver m j to frame n n' out :
    flight m !! j = Some (to, frame) → mnodes m !! to = Some n → peer_frame n frame = (n', out) →
    mesh_step f m (push out (set_rnode to n' (take_packet j m)))
| mstep_found m i id t key k b requestID n resp n' :
    mprocs m !! i = Some (id, PollRemote t key k, Waiting b requestID) → mnodes m !! id = Some n →
    ReadRemote_recv requestID n = Some (resp, n') → Found resp = true →
    mesh_step f m (resume m i id (k (Some (Value resp))) (Reading minBackoff) n')
| mstep_not_found m i id t key k b requestID n resp n' :
    mprocs m !! i = Some (id, PollRemote t key k, Waiting b requestID) → mnodes m !! id = Some n →
    ReadRemote_recv requestID n = Some (resp, n') → Found resp = false →
    mesh_step f m (resume m i id (PollRemote t key k) (Sleeping b) n')
| mstep_wake m i id p b n :
    mprocs m !! i = Some (id, p, Sleeping b) → mnodes m !! id = Some n →
    mesh_step f m (resume m i id p (Reading (next_backoff b)) n)
| mstep_cancel_read m i id t key k b requestID n :
    ctx_ends f = true →
    mprocs m !! i = Some (id, PollRemote t key k, Waiting b requestID) → mnodes m !! id = Some n →
    mesh_step f m (resume m i id (k None) (Reading minBackoff) (ReadRemote_done requestID n))
| mstep_cancel_sleep m i id t key k b n :
    ctx_ends f = true →
    mprocs m !! i = Some (id, PollRemote t key k, Sleeping b) → mnodes m !! id = Some n →
    mesh_step f m (resume m i id (k None) (Reading minBackoff) n)
| mstep_init m id n :
    mnodes m !! id = Some n → mesh_step f m (set_rnode id (InitEphemeralHandlers n) m)
| mstep_connect m id n t :
    mnodes m !! id = Some n → is_Some (mnodes m !! t) → t ≠ id →
    mesh_step f m (set_rnode id (set_peers (peers n ∪ {[t]}) n) m)
| mstep_request m id n :
    mnodes m !! id = Some n → mesh_step f m (set_rnode id (nextRequestID n).2 m)
| mstep_lose m j p :
    conn_breaks f = true → flight m !! j = Some p → mesh_step f m (take_packet j m)
| mstep_disconnect m id n t :
    conn_breaks f = true → mnodes m !! id = Some n →
    mesh_step f m (set_rnode id (set_peers (peers n ∖ {[t]}) n) m).

(** The same network with atomic polls. *)
Definition project {A} (m : mesh A) : net A := mkNet (rn_store <$> mnodes m) (fst <$> mprocs m).

(** ** Running a mesh

    An executable scheduler for the steps the program takes itself. *)

Inductive label := LOwn (i : nat) | LSend (i : nat) | LDeliver (j : nat) | LTake (i : nat) | LWake (i : nat).

Definition mesh_next {A} (l : label) (m : mesh A) : option (mesh A) :=
  match l with
  | LOwn i =>
      '(id, p, _) ← mprocs m !! i; n ← mnodes m !! id; '(p', s) ← own_access p (rn_store n);
      Some (resume m i id p' (Reading minBackoff) (set_store s n))
  | LSend i =>
      '(id, p, ph) ← mprocs m !! i; n ← mnodes m !! id;
      match p, ph with
      | PollRemote t key k, Reading b =>
          match ReadRemote n t key with
          | (n', Some (r, pkt)) => Some (push [pkt] (resume m i id (PollRemote t key k) (Waiting b r) n'))
          | (n', None) => Some (resume m i id (PollRemote t key k) (Sleeping b) n')
          end
      | _, _ => None
      end
  | LDeliver j =>
      '(to, frame) ← flight m !! j; n ← mnodes m !! to;
      let '(n', out) := peer_frame n frame in Some (push out (set_rnode to n' (take_packet j m)))
  | LTake i =>
      '(id, p, ph) ← mprocs m !! i; n ← mnodes m !! id;
      match p, ph with
      | PollRemote t key k, Waiting b r =>
          '(resp, n') ← ReadRemote_recv r n;
          Some (if Found resp then resume m i id (k (Some (Value resp))) (Reading minBackoff) n'
                else resume m i id (PollRemote t key k) (Sleeping b) n')
      | _, _ => None
      end
  | LWake i =>
      '(id, p, ph) ← mprocs m !! i; n ← mnodes m !! id;
      match ph with Sleeping b => Some (resume m i id p (Reading (next_backoff b)) n) | _ => None end
  end.

#[local] Arguments ReadRemote : simpl never.
#[local] Arguments ReadRemote_recv : simpl never.
#[local] Arguments peer_frame : simpl never.

Lemma mesh_next_step {A} f l (m m' : mesh A) : mesh_next l m = Some m' → mesh_step f m m'.
Proof.
  destruct l as [i|i|j|i|i]; cbn.
  - destruct (mprocs m !! i) as [[[id p] ph]|] eqn:Hi; [|done]. cbn.
    destruct (mnodes m !! id) as [n|] eqn:Hn; [|done]. cbn.
    destruct (own_access p _) as [[p' s]|] eqn:Ha; [|done]. intros [= <-]. by eapply mstep_own.
  - destruct (mprocs m !! i) as [[[id p] ph]|] eqn:Hi; [|done]. cbn.
    destruct (mnodes m !! id) as [n|] eqn:Hn; [|done]. cbn.
    destruct p as [|t key k| | |], ph as [b| |]; try done.
    destruct (ReadRemote n t key) as [n' [[r pkt]|]] eqn:Hr; intros [= <-].
    + by eapply mstep_send.
    + by eapply mstep_send_fails.
  - destruct (flight m !! j) as [[to frame]|] eqn:Hj; [|done]. cbn.
    destruct (mnodes m !! to) as [n|] eqn:Hn; [|done]. cbn.
    destruct (peer_frame n frame) as [n' out] eqn:Hp. intros [= <-]. by eapply mstep_deliver.
  - destruct (mprocs m !! i) as [[[id p] ph]|] eqn:Hi; [|done]. cbn.
    destruct (mnodes m !! id) as [n|] eqn:Hn; [|done]. cbn.
    destruct p as [|t key k| | |], ph as [|b r|]; try done.
    destruct (ReadRemote_recv r n) as [[resp n']|] eqn:Hr; [|done]. cbn. intros [= <-].
    destruct (Found resp) eqn:Hf; [by eapply mstep_found|by eapply mstep_not_found].
  - destruct (mprocs m !! i) as [[[id p] ph]|] eqn:Hi; [|done]. cbn.
    destruct (mnodes m !! id) as [n|] eqn:Hn; [|done]. cbn.
    destruct ph as [| |b]; try done. intros [= <-]. by eapply mstep_wake.
Qed.

Definition mesh_after {A} (ls : list label) (m : mesh A) : option (mesh A) :=
  foldl (λ o l, m ← o; mesh_next l m) (Some m) ls.

Lemma mesh_after_run {A} f ls (m m' : mesh A) :
  mesh_after ls m = Some m' → nsteps (mesh_step f) (length ls) m m'.
Proof.
  unfold mesh_after. revert m. induction ls as [|l ls IH]; intros m; cbn; [intros Hm; injection Hm as ->; constructor|].
  destruct (mesh_next l m) as [m1|] eqn:Hl.
  - intros Hrun. eapply nsteps_l; [by eapply mesh_next_step|]. by apply IH.
  - intros Hrun. exfalso. clear -Hrun. induction ls as [|l ls IH]; [done|by apply IH].
Qed.

(** The mesh after a schedule that runs. *)
Definition mesh_end {A} (ls : list label) (m : mesh A) : mesh A := default m (mesh_after ls m).

Lemma mesh_end_run {A} f ls (m : mesh A) :
  bool_decide (is_Some (mesh_after ls m)) = true → nsteps (mesh_step f) (length ls) m (mesh_end ls m).
Proof.
  intros [m' Hm]%bool_decide_eq_true_1. apply mesh_after_run. unfold mesh_end. by rewrite Hm.
Qed.

End remote.
