(* ===== verification/RemoteProofs.v ===== *)
(** * Reading another node's store: the invariant of the mesh

    Request ids are fresh, so a response that reaches a waiting poll answers
    that poll's own request.  The invariant is indexed by a predicate [P] on
    the values a poll may be answered with; [RemoteProps] instantiates it with
    "hosted now" (for write-once stores) and "hosted since the poll began". *)

From Stdlib Require Import ZArith Lia.
From stdpp Require Import base list gmap strings numbers relations.
From S2P Require Import Prelude Strconv Runtime Ephemeral Net Peer Dispatch Remote.

#[local] Open Scope Z_scope.

Lemma request_id_inj id v v' :
  0 ≤ v < 2 ^ 64 → 0 ≤ v' < 2 ^ 64 → request_id id v = request_id id v' → v = v'.
Proof.
  intros Hv Hv' Heq. unfold request_id in Heq.
  apply (inj (String.app id)), (inj (String.app "-")) in Heq. by apply utoa_inj in Heq.
Qed.

(** The id was handed out by [nextRequestID]. *)
Definition issued (n : RNode) (requestID : string) : Prop :=
  ∃ v, 0 ≤ v ≤ requestCounter n ∧ requestID = request_id (rn_id n) v.

(** [n'] has issued at least what [n] has and waits for nothing new. *)
Record node_later (n n' : RNode) : Prop := {
  later_id : rn_id n' = rn_id n;
  later_counter : requestCounter n ≤ requestCounter n';
  later_pending : peerPending n' ⊆ peerPending n;
}.

Lemma node_later_refl n : node_later n n.
Proof. by constructor. Qed.

Lemma node_later_issued n n' requestID : node_later n n' → issued n requestID → issued n' requestID.
Proof. intros [Hid Hc _] (v & Hv & ->). exists v. rewrite Hid. split; [lia|done]. Qed.

Section remote.
Context `{CodecLaws EphemeralReadRequest} `{CodecLaws EphemeralReadResponse}.

(** ** What a frame is to its receiver *)

Definition frame_as {T} `{Codec T} (messageType : string) (f : Frame) : option T :=
  if decide (Kind f = KindPeerMessage ∧ MessageType f = messageType) then gob_decode (Dispatch.Payload f)
  else None.

Abbreviation frame_req := (frame_as (T:=EphemeralReadRequest) MsgEphemeralReadReq).
Abbreviation frame_resp := (frame_as (T:=EphemeralReadResponse) MsgEphemeralReadResp).

(** The answer of the request handler. *)
Definition answer (n : RNode) (req : EphemeralReadRequest) : EphemeralReadResponse :=
  let value := Get (rn_store n) (ReqKey req) in
  mkReadResp (ReqID req) (ReqKey req) (default [] value) (bool_decide (is_Some value)).

Lemma answer_found n req :
  Found (answer n req) = true → Get (rn_store n) (ReqKey req) = Some (Value (answer n req)).
Proof.
  cbn. destruct (Get _ _); [done|]. intros Hf%bool_decide_eq_true_1. by apply is_Some_None in Hf.
Qed.

Lemma Send_Some {T} `{CodecLaws T} n t mt (x : T) p :
  Send n t mt x = Some p → ∃ f, p = (t, f) ∧ t ∈ peers n ∧ FNodeID f = rn_id n ∧ MessageType f = mt ∧
    frame_as mt f = Some x.
Proof.
  unfold Send. destruct (gob_encode x) as [buf|] eqn:He; [|done]. cbn. case_decide; [|done].
  intros [= <-]. eexists. split_and!; [done..|].
  unfold frame_as. rewrite decide_True by done. by apply decode_encode.
Qed.

Lemma Send_connected {T} `{CodecLaws T} n t mt (x : T) : t ∈ peers n → ∃ f, Send n t mt x = Some (t, f).
Proof.
  intros Ht. unfold Send. destruct (encode_total x) as [buf ->]. cbn. rewrite decide_True by done. eauto.
Qed.

Lemma frame_as_type {T} `{Codec T} mt f (x : T) : frame_as mt f = Some x → MessageType f = mt.
Proof. unfold frame_as. case_decide as Hd; [|done]. intros _. apply Hd. Qed.

(** A delivered frame changes nothing, answers a request, or fills a channel. *)
Lemma peer_frame_cases n f n' out :
  peer_frame n f = (n', out) →
  (n' = n ∧ out = []) ∨
  (∃ req f', frame_req f = Some req ∧ n' = n ∧ out = [(FNodeID f, f')] ∧ MessageType f' = MsgEphemeralReadResp ∧
     frame_resp f' = Some (answer n req)) ∨
  (∃ resp, frame_resp f = Some resp ∧ peerPending n !! RespID resp = Some None ∧
     n' = set_pending (<[RespID resp := Some resp]> (peerPending n)) n ∧ out = []).
Proof.
  unfold peer_frame. case_bool_decide as Hk; cbn [negb]; [|intros [= <- <-]; by left].
  destruct (handling n); [|intros [= <- <-]; by left]. cbn [negb Type_]. case_decide as Hreq.
  - intros [= <- <-]. unfold handle_read_req. cbn [MPayload From].
    destruct (gob_decode (Dispatch.Payload f)) as [req|] eqn:Hd; [|by left].
    fold (answer n req). destruct (Send _ _ _ _) as [p|] eqn:Hs; [|by left]. right. left.
    apply Send_Some in Hs as (f' & -> & _ & _ & Hty & Hf). exists req, f'. split_and!; [|done..].
    unfold frame_as. by rewrite decide_True.
  - case_decide as Hresp; [|intros [= <- <-]; by left].
    intros [= <- <-]. unfold handle_read_resp. cbn [MPayload].
    destruct (gob_decode (Dispatch.Payload f)) as [resp|] eqn:Hd; [|by left].
    destruct (peerPending n !! RespID resp) as [[|]|] eqn:Hp; [by left| |by left]. right. right.
    exists resp. split_and!; [|done..]. unfold frame_as. by rewrite decide_True.
Qed.

(** A serving node answers the requests of its peers ... *)
Lemma peer_frame_answers n f req :
  handling n = true → frame_req f = Some req → FNodeID f ∈ peers n →
  ∃ f', peer_frame n f = (n, [(FNodeID f, f')]) ∧ frame_resp f' = Some (answer n req).
Proof.
  unfold frame_as at 1, peer_frame. intros Hh Hf Hp. case_decide as Hk; [|done]. destruct Hk as [Hk Hm].
  rewrite bool_decide_true, Hh by done. cbn [negb Type_]. rewrite decide_True by done.
  unfold handle_read_req. cbn [MPayload From]. rewrite Hf. fold (answer n req).
  destruct (Send_connected n (FNodeID f) MsgEphemeralReadResp (answer n req) Hp) as [f' Hs].
  rewrite Hs. exists f'. split; [done|]. apply Send_Some in Hs as (g & [= <-] & _ & _ & _ & Hg). done.
Qed.

(** ... and takes the responses it waits for. *)
Lemma peer_frame_takes n f resp :
  handling n = true → frame_resp f = Some resp → peerPending n !! RespID resp = Some None →
  peer_frame n f = (set_pending (<[RespID resp := Some resp]> (peerPending n)) n, []).
Proof.
  unfold frame_as, peer_frame. intros Hh Hf Hp. case_decide as Hk; [|done]. destruct Hk as [Hk Hm].
  rewrite bool_decide_true, Hh by done. cbn [negb Type_]. rewrite Hm, decide_False, decide_True by done.
  unfold handle_read_resp. cbn [MPayload]. by rewrite Hf, Hp.
Qed.

Lemma peer_frame_pending n f n' out r :
  peer_frame n f = (n', out) → peerPending n' !! r = peerPending n !! r ∨
    (peerPending n !! r = Some None ∧ ∃ resp, peerPending n' !! r = Some (Some resp)).
Proof.
  intros [[-> _]|[(req & f' & _ & -> & _)|(resp & _ & Hp & -> & _)]]%peer_frame_cases; [by left..|].
  cbn. destruct (decide (r = RespID resp)) as [->|Hne].
  - right. split; [done|]. exists resp. apply lookup_insert_eq.
  - left. by apply lookup_insert_ne.
Qed.

Lemma peer_frame_conn n f n' out :
  peer_frame n f = (n', out) → handling n' = handling n ∧ peers n' = peers n ∧ rn_store n' = rn_store n.
Proof. by intros [[-> _]|[(req & f' & _ & -> & _)|(resp & _ & Hp & -> & _)]]%peer_frame_cases. Qed.

(** What [ReadRemote] does before its [select]. *)
Lemma ReadRemote_sent n t key n' requestID p :
  ReadRemote n t key = (n', Some (requestID, p)) →
  requestID = request_id (rn_id n) (u64 (requestCounter n + 1)) ∧
  n' = mkRNode (rn_id n) (rn_store n) (peers n) (handling n) (u64 (requestCounter n + 1))
         (<[requestID := None]> (peerPending n)) ∧
  ∃ f, p = (t, f) ∧ t ∈ peers n ∧ FNodeID f = rn_id n ∧ MessageType f = MsgEphemeralReadReq ∧
    frame_req f = Some (mkReadReq requestID key).
Proof.
  unfold ReadRemote, nextRequestID. destruct (Send _ _ _ _) as [q|] eqn:Hs; [|done].
  intros [= <- <- <-]. split_and!; [done..|]. by apply Send_Some in Hs.
Qed.

Lemma ReadRemote_failed n t key n' :
  0 ≤ requestCounter n < 2 ^ 64 - 1 → ReadRemote n t key = (n', None) →
  node_later n n' ∧ requestCounter n' = requestCounter n + 1 ∧ rn_store n' = rn_store n ∧ (t ∉ peers n) ∧
  peers n' = peers n ∧ handling n' = handling n.
Proof.
  intros Hc. unfold ReadRemote, nextRequestID. destruct (Send _ _ _ _) as [q|] eqn:Hs; [done|].
  intros [= <-]. split_and!; [|cbn; rewrite u64_small; lia|done| |done|done].
  - constructor; cbn; [done|rewrite u64_small; lia|]. rewrite delete_insert_eq. apply delete_subseteq.
  - intros Ht. edestruct (Send_connected (T:=EphemeralReadRequest)) as [f Hf]; [|by rewrite Hf in Hs]. done.
Qed.

Lemma ReadRemote_recv_Some requestID n resp n' :
  ReadRemote_recv requestID n = Some (resp, n') →
  peerPending n !! requestID = Some (Some resp) ∧ n' = ReadRemote_done requestID n.
Proof. unfold ReadRemote_recv. destruct (_ !! _) as [[|]|]; naive_solver. Qed.

Lemma done_later requestID n : node_later n (ReadRemote_done requestID n).
Proof. constructor; cbn; [done..|]. apply delete_subseteq. Qed.

(** ** The invariant *)

Definition waits {A} (m : mesh A) (i : nat) (id requestID : string) : Prop :=
  ∃ p b, mprocs m !! i = Some (id, p, Waiting b requestID).

(** What waiting poll [i] can be answered with. *)
Record poll_inv {A} (P : string → string → list Z → Prop) (m : mesh A) (id t key requestID : string) : Prop := {
  pi_req : ∀ to f req, (to, f) ∈ flight m → frame_req f = Some req → FNodeID f = id → ReqID req = requestID →
    to = t ∧ ReqKey req = key;
  pi_resp : ∀ f resp, (id, f) ∈ flight m → frame_resp f = Some resp → RespID resp = requestID →
    Found resp = true → P t key (Value resp);
  pi_buffer : ∀ n resp, mnodes m !! id = Some n → peerPending n !! requestID = Some (Some resp) →
    Found resp = true → P t key (Value resp);
}.

Record mesh_inv {A} (P : nat → string → string → list Z → Prop) (B : Z) (m : mesh A) : Prop := {
  mi_node : ∀ id n, mnodes m !! id = Some n → rn_id n = id ∧ 0 ≤ requestCounter n ≤ B;
  mi_req : ∀ to f req n, (to, f) ∈ flight m → frame_req f = Some req → mnodes m !! FNodeID f = Some n →
    issued n (ReqID req);
  mi_resp : ∀ to f resp n, (to, f) ∈ flight m → frame_resp f = Some resp → mnodes m !! to = Some n →
    issued n (RespID resp);
  mi_pending : ∀ id n requestID, mnodes m !! id = Some n → is_Some (peerPending n !! requestID) →
    issued n requestID;
  mi_waits : ∀ i id requestID, waits m i id requestID → ∃ n, mnodes m !! id = Some n ∧ issued n requestID;
  mi_uniq : ∀ i j id requestID, waits m i id requestID → waits m j id requestID → i = j;
  mi_poll : ∀ i id t key k b requestID,
    mprocs m !! i = Some (id, PollRemote t key k, Waiting b requestID) → poll_inv (P i) m id t key requestID;
}.

Section steps.
Context {A : Type}.
Implicit Types (m : mesh A) (P : nat → string → string → list Z → Prop).

Lemma inv_weaken P P' B B' m :
  (∀ i t key v, P i t key v → P' i t key v) → B ≤ B' → mesh_inv P B m → mesh_inv P' B' m.
Proof.
  intros HP HB [Hn ? ? ? ? ? Hpoll]. constructor; [|done..|].
  - intros id n Hid. destruct (Hn _ _ Hid). split; [done|lia].
  - intros. edestruct Hpoll as [? ? ?]; [done|]. constructor; eauto.
Qed.

(** Node [id] moves on without new channels. *)
Lemma inv_node P B m id n n' :
  mesh_inv P B m → mnodes m !! id = Some n → node_later n n' → requestCounter n' ≤ B →
  mesh_inv P B (set_rnode id n' m).
Proof.
  intros [Hn Hreq Hresp Hpend Hw Hu Hpoll] Hid Hl HB.
  assert (∀ id1 n1, <[id := n']> (mnodes m) !! id1 = Some n1 →
    ∃ n0, mnodes m !! id1 = Some n0 ∧ node_later n0 n1) as Hback.
  { intros id1 n1 [[<- <-]|[Hne Hn1]]%lookup_insert_Some; [by eauto|]. eauto using node_later_refl. }
  constructor; cbn [set_rnode mnodes flight mprocs] in *; try done.
  - intros id1 n1 [[<- <-]|[Hne Hn1]]%lookup_insert_Some; [|by apply Hn].
    destruct (Hn _ _ Hid) as [<- ?]. destruct Hl. split; [done|lia].
  - intros to f req n1 Hin Hf (n0 & Hn0 & Hl0)%Hback. eapply node_later_issued; [done|]. by eapply Hreq.
  - intros to f resp n1 Hin Hf (n0 & Hn0 & Hl0)%Hback. eapply node_later_issued; [done|]. by eapply Hresp.
  - intros id1 n1 r (n0 & Hn0 & Hl0)%Hback [o Hr]. eapply node_later_issued; [done|].
    eapply Hpend; [done|]. exists o. eapply lookup_weaken; [exact Hr|apply Hl0].
  - intros i id1 r Hwi. destruct (Hw i id1 r Hwi) as (n0 & Hn0 & Hiss).
    destruct (decide (id1 = id)) as [->|Hne].
    + exists n'. rewrite lookup_insert_eq. split; [done|]. simplify_eq. by eapply node_later_issued.
    + exists n0. by rewrite lookup_insert_ne.
  - intros i id1 t key k b r Hp. destruct (Hpoll i id1 t key k b r Hp) as [Ha Hb Hc]. constructor; [done..|].
    cbn. intros n1 resp (n0 & Hn0 & Hl0)%Hback Hr. eapply Hc; [done|]. eapply lookup_weaken; [exact Hr|apply Hl0].
Qed.

Definition set_proc (i : nat) (id : string) (p : act A) (ph : phase) (m : mesh A) : mesh A :=
  mkMesh (mnodes m) (flight m) (<[i := (id, p, ph)]> (mprocs m)).

Lemma waits_set_proc m i id p ph j id' r :
  (∀ b r, ph ≠ Waiting b r) → waits (set_proc i id p ph m) j id' r → waits m j id' r.
Proof.
  intros Hph (q & b & Hq). cbn in Hq. apply list_lookup_insert_Some in Hq as [(_ & [= _ _ Hb] & _)|[_ Hq]].
  - by destruct (Hph b r).
  - by exists q, b.
Qed.

(** Computation [i] moves on and waits for nothing. *)
Lemma inv_proc P B m i id p ph :
  mesh_inv P B m → (∀ b r, ph ≠ Waiting b r) → mesh_inv P B (set_proc i id p ph m).
Proof.
  intros [Hn Hreq Hresp Hpend Hw Hu Hpoll] Hph. constructor; cbn [set_proc mnodes flight] in *; try done.
  - intros j id' r Hj%waits_set_proc; [by eapply Hw|done].
  - intros j j' id' r Hj%waits_set_proc Hj'%waits_set_proc; [by eapply Hu|done..].
  - intros j id' t key k b r Hj. cbn in Hj.
    apply list_lookup_insert_Some in Hj as [(_ & [= _ _ Hb] & _)|[_ Hj]]; [by destruct (Hph b r)|].
    by destruct (Hpoll j id' t key k b r Hj) as [? ? ?].
Qed.

Lemma inv_flight P B m fl :
  mesh_inv P B m → fl ⊆ flight m → mesh_inv P B (mkMesh (mnodes m) fl (mprocs m)).
Proof.
  intros [Hn Hreq Hresp Hpend Hw Hu Hpoll] Hfl. constructor; cbn [mnodes flight mprocs] in *; try done.
  - intros. eapply Hreq; eauto.
  - intros. eapply Hresp; eauto.
  - intros j id' t key k b r Hj. destruct (Hpoll j id' t key k b r Hj) as [? ? ?].
    constructor; cbn [flight mnodes]; eauto.
Qed.

Lemma inv_resume P B m i id p ph n n' :
  mesh_inv P B m → mnodes m !! id = Some n → node_later n n' → requestCounter n' ≤ B →
  (∀ b r, ph ≠ Waiting b r) → mesh_inv P B (resume m i id p ph n').
Proof. intros. by apply (inv_proc P B (set_rnode id n' m) i id p ph); [eapply inv_node|]. Qed.

(** [ReadRemote] sends: its request id is new. *)
Lemma issued_next n r :
  0 ≤ requestCounter n < 2 ^ 64 - 1 → r = request_id (rn_id n) (u64 (requestCounter n + 1)) → ¬ issued n r.
Proof.
  intros Hc -> (v & Hv & Heq). rewrite u64_small in Heq by lia. apply request_id_inj in Heq; lia.
Qed.

Section send.
Context (P : nat → string → string → list Z → Prop) (B : Z) (m : mesh A).
Context (i : nat) (id t key : string) (k : option (list Z) → act A) (b : Z) (n : RNode) (r : string) (f : Frame).
Context (Hinv : mesh_inv P B m) (HB : B < 2 ^ 64 - 1) (Hid : mnodes m !! id = Some n).
Context (Hr : r = request_id (rn_id n) (u64 (requestCounter n + 1))).
Context (Hfrom : FNodeID f = rn_id n) (Hty : MessageType f = MsgEphemeralReadReq).
Context (Hf : frame_req f = Some (mkReadReq r key)).

Let n' : RNode :=
  mkRNode (rn_id n) (rn_store n) (peers n) (handling n) (u64 (requestCounter n + 1)) (<[r := None]> (peerPending n)).
Let m' : mesh A := push [(t, f)] (resume m i id (PollRemote t key k) (Waiting b r) n').

Lemma send_fresh : ¬ issued n r.
Proof. destruct (mi_node _ _ _ Hinv _ _ Hid). apply issued_next; [lia|done]. Qed.

Lemma send_counter : requestCounter n' = requestCounter n + 1.
Proof. destruct (mi_node _ _ _ Hinv _ _ Hid). cbn. rewrite u64_small; lia. Qed.

Lemma send_issued r' : issued n r' → issued n' r'.
Proof. intros (v & Hv & ->). exists v. rewrite send_counter. split; [lia|done]. Qed.

Lemma send_issued_new : issued n' r.
Proof.
  destruct (mi_node _ _ _ Hinv _ _ Hid). exists (requestCounter n + 1). rewrite send_counter.
  rewrite Hr, u64_small by lia. split; [lia|done].
Qed.

Lemma send_node id1 n1 :
  mnodes m' !! id1 = Some n1 → (id1 = id ∧ n1 = n') ∨ (id1 ≠ id ∧ mnodes m !! id1 = Some n1).
Proof. cbn. intros [[<- <-]|[? ?]]%lookup_insert_Some; auto. Qed.

Lemma send_flight to g : (to, g) ∈ flight m' → (to, g) ∈ flight m ∨ (to = t ∧ g = f).
Proof. cbn. intros [?|[= -> ->]%list_elem_of_singleton]%elem_of_app; auto. Qed.

Lemma send_waits j id' r' : waits m' j id' r' → (j = i ∧ id' = id ∧ r' = r) ∨ (j ≠ i ∧ waits m j id' r').
Proof.
  intros (q & b' & Hq). cbn in Hq.
  apply list_lookup_insert_Some in Hq as [(-> & Hq & _)|[? Hq]]; [left; injection Hq as ? _ _ ?; split_and!; congruence|right].
  split; [done|by exists q, b'].
Qed.

Lemma send_not_resp (resp : EphemeralReadResponse) : frame_resp f ≠ Some resp.
Proof. intros Hg%frame_as_type. by rewrite Hty in Hg. Qed.

(** No older poll waits for the new id. *)
Lemma send_not_waited j : ¬ waits m j id r.
Proof.
  intros Hj. destruct (mi_waits _ _ _ Hinv _ _ _ Hj) as (n1 & Hn1 & Hiss).
  apply send_fresh. congruence.
Qed.

Lemma send_poll_new : poll_inv (P i) m' id t key r.
Proof.
  pose proof send_fresh as Hfresh. constructor.
  - intros to g req [Hin|[-> ->]]%send_flight Hg Hfg Hrg; [|rewrite Hf in Hg; injection Hg as <-; done].
    destruct Hfresh. rewrite <- Hrg. eapply (mi_req _ _ _ Hinv); [done..|]. by rewrite Hfg.
  - intros g resp [Hin|[-> ->]]%send_flight Hg Hrg; [|by destruct (send_not_resp resp)].
    destruct Hfresh. rewrite <- Hrg. by eapply (mi_resp _ _ _ Hinv).
  - intros n1 resp [[_ ->]|[? _]]%send_node; [|done]. cbn. by rewrite lookup_insert_eq.
Qed.

Lemma send_poll_old j id' t' key' k' b' r' :
  mprocs m !! j = Some (id', PollRemote t' key' k', Waiting b' r') → poll_inv (P j) m' id' t' key' r'.
Proof.
  intros Hj. destruct (mi_poll _ _ _ Hinv j id' t' key' k' b' r' Hj) as [Ha Hb Hc].
  assert (id' = id → r' ≠ r) as Hrr. { intros -> ->. apply (send_not_waited j). by eexists _, _. }
  destruct (mi_node _ _ _ Hinv _ _ Hid) as [Hnid _]. constructor.
  - intros to g req [Hin|[-> ->]]%send_flight Hg Hfg Hrg; [by eapply Ha|]. rewrite Hf in Hg. injection Hg as <-.
    cbn in Hrg. destruct Hrr; congruence.
  - intros g resp [Hin|[-> ->]]%send_flight Hg Hrg; [by eapply Hb|by destruct (send_not_resp resp)].
  - intros n1 resp [[-> ->]|[_ Hn1]]%send_node; [|by apply Hc]. cbn.
    rewrite lookup_insert_ne by (intros ->; by destruct Hrr). by apply Hc.
Qed.

Lemma inv_sent : mesh_inv P (B + 1) m'.
Proof.
  destruct Hinv as [Hn Hreq Hresp Hpend Hw Hu Hpoll]. destruct (Hn _ _ Hid) as [Hnid Hc].
  pose proof send_counter as Hcnt. constructor.
  - intros id1 n1 [[-> ->]|[_ Hn1]]%send_node; [rewrite Hcnt; cbn; split; [done|lia]|].
    destruct (Hn _ _ Hn1). split; [done|lia].
  - intros to g req n1 [Hin|[-> ->]]%send_flight Hg [[Hg1 ->]|[Hne Hn1]]%send_node; 
    [| |rewrite Hf in Hg; injection Hg as <-; apply send_issued_new|congruence].
    + apply send_issued. eapply Hreq; [done..|]. by rewrite Hg1.
    + by eapply Hreq.
  - intros to g resp n1 [Hin|[-> ->]]%send_flight Hg Hn1; [|by destruct (send_not_resp resp)].
    destruct (send_node _ _ Hn1) as [[-> ->]|[_ Hn1']]; [|by eapply Hresp].
    apply send_issued. by eapply Hresp.
  - intros id1 n1 r1 [[-> ->]|[_ Hn1]]%send_node Hr1; [|by eapply Hpend]. cbn in Hr1.
    destruct (decide (r1 = r)) as [->|Hne]; [apply send_issued_new|].
    rewrite lookup_insert_ne in Hr1 by done. apply send_issued. by eapply Hpend.
  - intros j id' r' [(-> & -> & ->)|[_ Hj]]%send_waits.
    + exists n'. cbn. rewrite lookup_insert_eq. split; [done|apply send_issued_new].
    + destruct (Hw _ _ _ Hj) as (n1 & Hn1 & Hiss). cbn. destruct (decide (id' = id)) as [->|Hne].
      * exists n'. rewrite lookup_insert_eq. split; [done|]. apply send_issued. congruence.
      * exists n1. by rewrite lookup_insert_ne.
  - intros j j' id' r' Hj%send_waits Hj'%send_waits.
    destruct Hj as [(-> & -> & ->)|[_ Hj]], Hj' as [(-> & Hi' & Hr')|[_ Hj']];
      [done|by destruct (send_not_waited j')|by destruct (send_not_waited j); rewrite <- Hi', <- Hr'|by eapply Hu].
  - intros j id' t' key' k' b' r' Hj. cbn in Hj.
    apply list_lookup_insert_Some in Hj as [(<- & Hj & _)|[Hne Hj]]; [|by eapply send_poll_old].
    injection Hj as <- <- <- _ _ <-. apply send_poll_new.
Qed.

End send.

Lemma inv_send P B m i id t key k b n n' r p :
  mesh_inv P B m → B < 2 ^ 64 - 1 → mnodes m !! id = Some n → ReadRemote n t key = (n', Some (r, p)) →
  mesh_inv P (B + 1) (push [p] (resume m i id (PollRemote t key k) (Waiting b r) n')).
Proof. intros Hinv HB Hid (Hr & -> & f & -> & _ & Hfrom & Hty & Hf)%ReadRemote_sent. by apply inv_sent. Qed.

(** A request is answered from the store. *)
Lemma inv_answer P B m fl to f req n f' :
  mesh_inv P B m → fl ⊆ flight m → (to, f) ∈ flight m → mnodes m !! to = Some n →
  frame_req f = Some req → MessageType f' = MsgEphemeralReadResp → frame_resp f' = Some (answer n req) →
  (∀ i key v, Get (rn_store n) key = Some v → P i to key v) →
  mesh_inv P B (mkMesh (mnodes m) (fl ++ [(FNodeID f, f')]) (mprocs m)).
Proof.
  intros [Hn Hreq Hresp Hpend Hw Hu Hpoll] Hfl Hin Hto Hf Hty Hf' HP.
  assert (∀ req', frame_req f' ≠ Some req') as Hnr. { intros req' Hg%frame_as_type. by rewrite Hty in Hg. }
  constructor; cbn [mnodes flight mprocs] in *; try done.
  - intros to' g req' n1 [Hg|Hg%list_elem_of_singleton]%elem_of_app; [by eauto|].
    simplify_eq. intros Hg'. by destruct (Hnr req').
  - intros to' g resp n1 [Hg|Hg%list_elem_of_singleton]%elem_of_app; [by eauto|].
    simplify_eq. intros Hg Hn1. simplify_eq. by eapply (Hreq to f req).
  - intros i id t key k b r Hi. destruct (Hpoll i id t key k b r Hi) as [Ha Hb Hc].
    constructor; cbn [mnodes flight]; [| |done].
    + intros to' g req' [Hg|Hg%list_elem_of_singleton]%elem_of_app; [by eauto|].
      simplify_eq. intros Hg'. by destruct (Hnr req').
    + intros g resp [Hg|Hg%list_elem_of_singleton]%elem_of_app; [by eauto|].
      simplify_eq. intros Hg Hr Hfound. simplify_eq.
      destruct (Ha to f req) as [-> <-]; [done..|]. by apply HP, answer_found.
Qed.

(** A response is put into the channel that waits for it. *)
Lemma inv_fill P B m to f resp n :
  mesh_inv P B m → (to, f) ∈ flight m → mnodes m !! to = Some n → frame_resp f = Some resp →
  peerPending n !! RespID resp = Some None →
  mesh_inv P B (set_rnode to (set_pending (<[RespID resp := Some resp]> (peerPending n)) n) m).
Proof.
  intros [Hn Hreq Hresp Hpend Hw Hu Hpoll] Hin Hto Hf Hp. set (n' := set_pending _ _).
  assert (∀ id1 n1, <[to := n']> (mnodes m) !! id1 = Some n1 →
    ∃ n0, mnodes m !! id1 = Some n0 ∧ rn_id n0 = rn_id n1 ∧ requestCounter n0 = requestCounter n1) as Hback.
  { intros id1 n1 [[<- <-]|[_ Hn1]]%lookup_insert_Some; eauto. }
  assert (∀ n0 n1 r, rn_id n0 = rn_id n1 → requestCounter n0 = requestCounter n1 → issued n0 r → issued n1 r) as Hmono.
  { intros n0 n1 r Heq1 Heq2 (v & Hv & ->). exists v. rewrite <- Heq1, <- Heq2. done. }
  constructor; cbn [set_rnode mnodes flight mprocs] in *; try done.
  - intros id1 n1 (n0 & Hn0 & <- & <-)%Hback. by apply Hn.
  - intros to' g req n1 Hg Hg' (n0 & Hn0 & ? & ?)%Hback. eapply (Hmono n0); eauto.
  - intros to' g resp' n1 Hg Hg' (n0 & Hn0 & ? & ?)%Hback. eapply (Hmono n0); eauto.
  - intros id1 n1 r [[<- <-]|[_ Hn1]]%lookup_insert_Some Hr; [|by eauto]. cbn in Hr.
    apply (Hmono n); [done..|]. destruct (decide (r = RespID resp)) as [->|Hne]; [by eapply Hresp|].
    rewrite lookup_insert_ne in Hr by done. by eapply Hpend.
  - intros i id1 r Hi. destruct (Hw i id1 r Hi) as (n0 & Hn0 & Hiss). destruct (decide (id1 = to)) as [->|Hne].
    + exists n'. rewrite lookup_insert_eq. split; [done|]. simplify_eq. by apply (Hmono n).
    + exists n0. by rewrite lookup_insert_ne.
  - intros i id t key k b r Hi. destruct (Hpoll i id t key k b r Hi) as [Ha Hb Hc]. constructor; [done..|].
    cbn [mnodes set_rnode]. intros n1 resp' [[<- <-]|[_ Hn1]]%lookup_insert_Some; [|by eauto]. cbn.
    intros [[<- [= <-]]|[_ Hr]]%lookup_insert_Some; [|by eauto]. intros. by eapply Hb.
Qed.

Lemma inv_deliver P B m j to f n n' out :
  mesh_inv P B m → flight m !! j = Some (to, f) → mnodes m !! to = Some n → peer_frame n f = (n', out) →
  (∀ i key v, Get (rn_store n) key = Some v → P i to key v) →
  mesh_inv P B (push out (set_rnode to n' (take_packet j m))).
Proof.
  intros Hinv Hj Hto Hpf HP. pose proof (list_elem_of_lookup_2 _ _ _ Hj) as Hin.
  assert (delete j (flight m) ⊆ flight m) as Hsub by (apply sublist_subseteq, sublist_delete).
  destruct (peer_frame_cases _ _ _ _ Hpf) as [[-> ->]|[(req & f' & Hf & -> & -> & Hty & Hf')|(resp & Hf & Hp & -> & ->)]].
  - unfold push, set_rnode, take_packet. cbn. rewrite app_nil_r, insert_id by done. by apply inv_flight.
  - unfold push, set_rnode, take_packet. cbn. rewrite insert_id by done. by eapply inv_answer.
  - unfold push, take_packet. cbn. rewrite app_nil_r.
    apply (inv_flight P B (set_rnode to _ m)); [|done]. by eapply inv_fill.
Qed.

(** ** Every step *)

Definition mstores (m : mesh A) : gmap string Store := rn_store <$> mnodes m.

Lemma mstores_of m id n : mnodes m !! id = Some n → store_of (mstores m) id = rn_store n.
Proof. intros Hid. unfold store_of, mstores. by rewrite lookup_fmap, Hid. Qed.

Lemma next_later n : 0 ≤ requestCounter n < 2 ^ 64 - 1 →
  node_later n (nextRequestID n).2 ∧ requestCounter (nextRequestID n).2 = requestCounter n + 1.
Proof. intros Hc. cbn. rewrite u64_small by lia. split; [|done]. constructor; cbn; [done|lia|done]. Qed.

Lemma mesh_step_inv f P P' B m m' :
  mesh_inv P B m → B < 2 ^ 64 - 1 → mesh_step f m m' →
  (∀ i t key v, P i t key v → P' i t key v) →
  (∀ i t key v, Get (store_of (mstores m) t) key = Some v → P' i t key v) →
  mesh_inv P' (B + 1) m'.
Proof.
  intros Hinv HB Hstep HPP' HP'.
  assert (mesh_inv P' (B + 1) m) as Hinv' by (apply (inv_weaken P P' B); [done|lia|done]).
  assert (∀ id n, mnodes m !! id = Some n → 0 ≤ requestCounter n < 2 ^ 64 - 1 ∧ requestCounter n < B + 1) as Hc.
  { intros id n Hn. destruct (mi_node _ _ _ Hinv _ _ Hn). lia. }
  destruct Hstep as
    [m i id p ph n p' s Hp Hn Ha|m i id t key k b n n' r pkt Hp Hn Hr|m i id t key k b n n' Hp Hn Hr
    |m j to frame n n' out Hj Hn Hf|m i id t key k b r n resp n' Hp Hn Hr Hfd|m i id t key k b r n resp n' Hp Hn Hr Hfd
    |m i id p b n Hp Hn|m i id t key k b r n Hcx Hp Hn|m i id t key k b n Hcx Hp Hn|m id n Hn|m id n t Hn Ht Hne|m id n Hn
    |m j p Hb Hj|m id n t Hb Hn]; try (destruct (Hc _ _ Hn) as [Hcn HcB]).
  - eapply inv_resume; [done|done| |cbn; lia|done]. by constructor.
  - apply (inv_weaken P P' (B + 1)); [done|lia|]. by eapply inv_send.
  - apply ReadRemote_failed in Hr as (Hl & Hcnt & _); [|done]. eapply inv_resume; [done..|lia|done].
  - eapply inv_deliver; [done..|]. intros i key v Hv. apply HP'. by rewrite (mstores_of _ _ _ Hn).
  - apply ReadRemote_recv_Some in Hr as [_ ->]. eapply inv_resume; [done|done|apply done_later|cbn; lia|done].
  - apply ReadRemote_recv_Some in Hr as [_ ->]. eapply inv_resume; [done|done|apply done_later|cbn; lia|done].
  - eapply inv_resume; [done|done|apply node_later_refl|lia|done].
  - eapply inv_resume; [done|done|apply done_later|cbn; lia|done].
  - eapply inv_resume; [done|done|apply node_later_refl|lia|done].
  - eapply inv_node; [done|done|by constructor|cbn; lia].
  - eapply inv_node; [done|done|by constructor|cbn; lia].
  - destruct (next_later n Hcn) as [Hl Hcnt]. eapply inv_node; [done|done|done|lia].
  - apply inv_flight; [done|]. apply sublist_subseteq, sublist_delete.
  - eapply inv_node; [done|done|by constructor|cbn; lia].
Qed.

End steps.

End remote.
