(* ===== verification/RemoteProps.v ===== *)
(** * Reading another node's store: theorems

    A poll over request and response messages against the atomic poll of
    [Net]: what it returns was hosted while it ran ([poll_linearizable]);
    where hosted values stay, every run of the mesh is a run of the network
    with atomic polls ([mesh_refines_net]); and without broken connections
    every step of that network can be followed ([mesh_follows]), so that a
    protocol proved in [Net] completes over messages. *)

From Stdlib Require Import ZArith Lia.
From stdpp Require Import base list gmap strings numbers relations.
From S2P Require Import Prelude Strconv Runtime Ephemeral Net Peer Dispatch Remote RemoteProofs.

#[local] Open Scope Z_scope.

(** ** Invariants of the atomic network *)

Definition atomic_step {A} (f : faults) (n n' : net A) : Prop :=
  net_step n n' ∨ (ctx_ends f = true ∧ cancel_step n n').

(** [Q] holds along the runs of the atomic network, and under [Q] a hosted
    value is neither removed nor replaced. *)
Class WriteOnce {A} (f : faults) (Q : net A → Prop) : Prop := {
  once_step : ∀ n n', Q n → atomic_step f n n' → Q n';
  once_keeps : ∀ n n' t key v, Q n → atomic_step f n n' →
    Get (store_of (stores n) t) key = Some v → Get (store_of (stores n') t) key = Some v;
}.

(** A mesh at the start of a protocol: nobody waits and nothing is in flight;
    the counters are at most [B]. *)
Record fresh_mesh {A} (B : Z) (m : mesh A) : Prop := {
  fm_flight : flight m = [];
  fm_procs : ∀ i id p ph, mprocs m !! i = Some (id, p, ph) → is_Some (mnodes m !! id) ∧ ph = Reading minBackoff;
  fm_nodes : ∀ id n, mnodes m !! id = Some n → rn_id n = id ∧ 0 ≤ requestCounter n ≤ B ∧ peerPending n = ∅;
}.

Section props.
Context `{CodecLaws EphemeralReadRequest} `{CodecLaws EphemeralReadResponse} {A : Type}.
Implicit Types (m : mesh A).

Lemma fresh_mesh_inv P B m : fresh_mesh B m → mesh_inv P B m.
Proof.
  intros [Hfl Hpr Hno]. assert (∀ i id r, ¬ waits m i id r) as Hw.
  { intros i id r (p & b & Hi). by destruct (Hpr _ _ _ _ Hi). }
  constructor.
  - intros id n Hn. destruct (Hno _ _ Hn) as (? & ? & _). done.
  - intros to f req n Hin. rewrite Hfl in Hin. by apply elem_of_nil in Hin.
  - intros to f resp n Hin. rewrite Hfl in Hin. by apply elem_of_nil in Hin.
  - intros id n r Hn [o Hr]. destruct (Hno _ _ Hn) as (_ & _ & Hp). by rewrite Hp in Hr.
  - intros i id r Hi. by destruct (Hw i id r).
  - intros i j id r Hi. by destruct (Hw i id r).
  - intros i id t key k b r Hi. destruct (Hw i id r). by eexists _, _.
Qed.

(** ** One step of the mesh in the atomic network *)

Definition hosted (m : mesh A) (t key : string) (v : list Z) : Prop :=
  Get (store_of (mstores m) t) key = Some v.

Lemma project_resume m i id p ph n :
  project (resume m i id p ph n) = mkNet (<[id := rn_store n]> (mstores m)) (<[i := (id, p)]> (fst <$> mprocs m)).
Proof. unfold project, resume, mstores. cbn. by rewrite fmap_insert, list_fmap_insert. Qed.

Lemma project_node m id n n' :
  mnodes m !! id = Some n → rn_store n' = rn_store n → project (set_rnode id n' m) = project m.
Proof.
  intros Hn Hs. unfold project, set_rnode. cbn. f_equal. rewrite fmap_insert, Hs. apply insert_id.
  by rewrite lookup_fmap, Hn.
Qed.

Lemma project_stay m i id p ph ph' n n' :
  mprocs m !! i = Some (id, p, ph) → mnodes m !! id = Some n → rn_store n' = rn_store n →
  project (resume m i id p ph' n') = project m.
Proof.
  intros Hi Hn Hs. rewrite project_resume, Hs. unfold project, mstores. f_equal.
  - apply insert_id. by rewrite lookup_fmap, Hn.
  - apply list_insert_id. by rewrite list_lookup_fmap, Hi.
Qed.

Lemma project_proc m i id p ph :
  mprocs m !! i = Some (id, p, ph) → procs (project m) !! i = Some (id, p).
Proof. intros Hi. unfold project. cbn. by rewrite list_lookup_fmap, Hi. Qed.

(** A poll continues with [v]. *)
Lemma project_poll m i id t key k ph n v :
  mprocs m !! i = Some (id, PollRemote t key k, ph) → mnodes m !! id = Some n →
  ∀ n', rn_store n' = rn_store n →
  project (resume m i id (k v) (Reading minBackoff) n')
  = mkNet (stores (project m)) (<[i := (id, k v)]> (procs (project m))).
Proof.
  intros Hi Hn n' Hs. rewrite project_resume, Hs. unfold project, mstores. cbn. f_equal.
  apply insert_id. by rewrite lookup_fmap, Hn.
Qed.

Lemma own_access_step m i id p ph n p' s :
  mprocs m !! i = Some (id, p, ph) → mnodes m !! id = Some n → own_access p (rn_store n) = Some (p', s) →
  net_step (project m) (project (resume m i id p' (Reading minBackoff) (set_store s n))).
Proof.
  intros Hi Hn Ha. rewrite project_resume. apply project_proc in Hi. cbn [rn_store set_store].
  assert (store_of (stores (project m)) id = rn_store n) as Hst by (by apply mstores_of).
  destruct p as [a|t key k|key v k|key k|prefix k]; cbn in Ha; simplify_eq; rewrite <- Hst.
  - by eapply (step_host (project m)).
  - by eapply (step_remove (project m)).
  - by eapply (step_remove_prefix (project m)).
Qed.

(** Each step of the mesh is invisible or a step of the atomic network. *)
Lemma mesh_step_project f B m m' :
  mesh_inv (λ _, hosted m) B m → B < 2 ^ 64 - 1 → mesh_step f m m' →
  project m' = project m ∨ atomic_step f (project m) (project m').
Proof.
  intros Hinv HB Hstep.
  destruct Hstep as
    [m i id p ph n p' s Hp Hn Ha|m i id t key k b n n' r pkt Hp Hn Hr|m i id t key k b n n' Hp Hn Hr
    |m j to frame n n' out Hj Hn Hf|m i id t key k b r n resp n' Hp Hn Hr Hfd|m i id t key k b r n resp n' Hp Hn Hr Hfd
    |m i id p b n Hp Hn|m i id t key k b r n Hcx Hp Hn|m i id t key k b n Hcx Hp Hn|m id n Hn|m id n t Hn Ht Hne|m id n Hn
    |m j p Hb Hj|m id n t Hb Hn].
  - right. left. by eapply own_access_step.
  - left. apply ReadRemote_sent in Hr as (_ & -> & _).
    by apply (project_stay m i id _ (Reading b) _ n).
  - left. apply ReadRemote_failed in Hr as (_ & _ & Hs & _); [|destruct (mi_node _ _ _ Hinv _ _ Hn); lia].
    by eapply project_stay.
  - left. apply (project_node (take_packet j m) to n); [done|]. by apply (peer_frame_conn n frame _ out).
  - right. left. apply ReadRemote_recv_Some in Hr as [Hr ->]. erewrite project_poll by done.
    eapply step_poll; [by eapply project_proc|].
    destruct (mi_poll _ _ _ Hinv _ _ _ _ _ _ _ Hp) as [_ _ Hbuf]. by eapply Hbuf.
  - left. apply ReadRemote_recv_Some in Hr as [_ ->]. by eapply project_stay.
  - left. by eapply project_stay.
  - right. right. split; [done|]. erewrite project_poll by done. eapply step_cancel. by eapply project_proc.
  - right. right. split; [done|]. erewrite project_poll by done. eapply step_cancel. by eapply project_proc.
  - left. by eapply project_node.
  - left. by eapply project_node.
  - left. by eapply project_node.
  - by left.
  - left. by eapply project_node.
Qed.

(** ** Runs *)

(** What is kept along a run over write-once stores. *)
Definition once_inv (Q : net A → Prop) (B : Z) (m : mesh A) : Prop :=
  mesh_inv (λ _, hosted m) B m ∧ Q (project m).

Lemma once_inv_step f Q B m m' `{!WriteOnce f Q} :
  once_inv Q B m → B < 2 ^ 64 - 1 → mesh_step f m m' →
  once_inv Q (B + 1) m' ∧ (project m' = project m ∨ atomic_step f (project m) (project m')).
Proof.
  intros [Hinv HQ] HB Hstep. pose proof (mesh_step_project f B m m' Hinv HB Hstep) as Hpr.
  assert (∀ t key v, hosted m t key v → hosted m' t key v) as Hkeep.
  { intros t key v Hv. unfold hosted in *. change (mstores m') with (stores (project m')).
    destruct Hpr as [->|Hs]; [done|]. by eapply once_keeps. }
  split; [split|done].
  - eapply mesh_step_inv; [done..| |]; auto.
  - destruct Hpr as [->|Hs]; [done|]. by eapply once_step.
Qed.

Lemma once_inv_run f Q B k m m' `{!WriteOnce f Q} :
  once_inv Q B m → nsteps (mesh_step f) k m m' → B + Z.of_nat k < 2 ^ 64 →
  once_inv Q (B + Z.of_nat k) m' ∧ rtc (atomic_step f) (project m) (project m').
Proof.
  intros Hinv Hrun. revert B Hinv. induction Hrun as [m|k m m1 m' Hs Hrun IH]; intros B Hinv HB.
  - rewrite Z.add_0_r. split; [done|]. apply rtc_refl.
  - destruct (once_inv_step f Q B m m1 Hinv) as [Hinv1 Hpr]; [lia|done|].
    destruct (IH (B + 1) Hinv1) as [Hinv' Hr]; [lia|]. split.
    + replace (B + Z.of_nat (S k)) with (B + 1 + Z.of_nat k) by lia. done.
    + destruct Hpr as [<-|Hpr]; [done|]. by eapply rtc_l.
Qed.


(** The meshes a run passes through, the first and the last included. *)
Inductive mesh_run (f : faults) : mesh A → list (mesh A) → mesh A → Prop :=
| run_here m : mesh_run f m [m] m
| run_step m ms m' m'' : mesh_run f m ms m' → mesh_step f m' m'' → mesh_run f m (ms ++ [m'']) m''.

Lemma mesh_run_last f m ms m' : mesh_run f m ms m' → m' ∈ ms.
Proof. destruct 1; set_solver. Qed.

Lemma reachable_inv f B k m m' :
  mesh_inv (λ _ _ _ _, True) B m → nsteps (mesh_step f) k m m' → B + Z.of_nat k < 2 ^ 64 →
  mesh_inv (λ _ _ _ _, True) (B + Z.of_nat k) m'.
Proof.
  intros Hinv Hrun. revert B Hinv. induction Hrun as [m|k m m1 m' Hs Hrun IH]; intros B Hinv HB.
  - by rewrite Z.add_0_r.
  - replace (B + Z.of_nat (S k)) with (B + 1 + Z.of_nat k) by lia. apply IH; [|lia].
    eapply mesh_step_inv; [done|lia|done|done..].
Qed.

(** Computation [i0] starts a poll in [m]: what can answer it was hosted in a
    mesh of the run. *)
Lemma mesh_run_inv f i0 B m ms m' :
  mesh_inv (λ _ _ _ _, True) B m → (∀ id r, ¬ waits m i0 id r) → mesh_run f m ms m' →
  B + Z.of_nat (length ms) < 2 ^ 64 →
  mesh_inv (λ i t key v, i = i0 → ∃ m1, m1 ∈ ms ∧ hosted m1 t key v) (B + Z.of_nat (length ms)) m'.
Proof.
  intros Hinv Hw Hrun. induction Hrun as [m|m ms m' m'' Hrun IH Hs]; intros HB.
  - apply (inv_weaken (λ i _ _ _, i ≠ i0) _ B); [done|lia|]. destruct Hinv as [? ? ? ? ? ? Hpoll].
    constructor; try done. intros i id t key k b r Hi. destruct (Hpoll _ _ _ _ _ _ _ Hi) as [Ha _ _].
    assert (i ≠ i0) by (intros ->; destruct (Hw id r); by eexists _, _). by constructor.
  - rewrite length_app in HB |- *. cbn in HB |- *.
    replace (B + Z.of_nat (length ms + 1)) with (B + Z.of_nat (length ms) + 1) by lia.
    eapply mesh_step_inv; [apply IH; [done|done|lia]|lia|done| |].
    + cbn. intros i t key v Hm ->. destruct Hm as (m1 & ? & ?); [done|]. exists m1. set_solver.
    + cbn. intros i t key v Hv _. exists m'. split; [|done]. apply elem_of_app. left. by eapply mesh_run_last.
Qed.

(** A poll returns a value that was hosted while it ran.  Whatever the nodes
    do with their stores and whatever happens to connections: when a poll that
    calls [ReadRemote] in mesh [m] is answered in mesh [m'], some mesh on the way
    has the value under the polled key in the polled node's store. *)
Theorem poll_linearizable f B k m0 m ms m' i id t key cont b0 b requestID n resp n' :
  fresh_mesh B m0 → nsteps (mesh_step f) k m0 m → mprocs m !! i = Some (id, PollRemote t key cont, Reading b0) →
  mesh_run f m ms m' → B + Z.of_nat (k + length ms) < 2 ^ 64 →
  mprocs m' !! i = Some (id, PollRemote t key cont, Waiting b requestID) → mnodes m' !! id = Some n →
  ReadRemote_recv requestID n = Some (resp, n') → Found resp = true →
  ∃ m1, m1 ∈ ms ∧ hosted m1 t key (Value resp).
Proof.
  intros H0' Hk Hi Hrun HB Hi' Hn Hrecv Hf.
  assert (mesh_inv (λ _ _ _ _, True) (B + Z.of_nat k) m) as Hinv.
  { eapply reachable_inv; [by apply fresh_mesh_inv|done|lia]. }
  apply (mesh_run_inv f i) with (ms := ms) (m' := m') in Hinv; [|intros id' r (p & b' & Hp); congruence|done|lia].
  apply ReadRemote_recv_Some in Hrecv as [Hbuf _].
  destruct (mi_poll _ _ _ Hinv _ _ _ _ _ _ _ Hi') as [_ _ Hb]. by eapply Hb.
Qed.

(** ** The backoff *)

Definition backoff_of (ph : phase) : Z := match ph with Reading b | Waiting b _ | Sleeping b => b end.

(** The waiting time after [j] unsuccessful reads, in milliseconds. *)
Definition backoff_after (j : nat) : Z := Z.min (50 * 2 ^ Z.of_nat j) 500.

Lemma next_backoff_after j : next_backoff (backoff_after j) = backoff_after (S j).
Proof.
  unfold next_backoff, backoff_after, maxBackoff. rewrite Nat2Z.inj_succ, Z.pow_succ_r by lia.
  assert (0 < 2 ^ Z.of_nat j) by (apply Z.pow_pos_nonneg; lia).
  set (x := 2 ^ Z.of_nat j) in *. destruct (Z.ltb_spec 500 (Z.min (50 * x) 500 * 2)); lia.
Qed.

Definition backoff_ok (k : nat) (m : mesh A) : Prop :=
  ∀ i id p ph, mprocs m !! i = Some (id, p, ph) → ∃ j, (j ≤ k)%nat ∧ backoff_of ph = backoff_after j.

Lemma backoff_resume k m i id p ph n :
  backoff_ok k m → (∃ j, (j ≤ S k)%nat ∧ backoff_of ph = backoff_after j) → backoff_ok (S k) (resume m i id p ph n).
Proof.
  intros Hb Hph i' id' p' ph'. cbn. intros [(_ & [= <- <- <-] & _)|[_ Hi]]%list_lookup_insert_Some; [done|].
  destruct (Hb _ _ _ _ Hi) as (j & ? & ?). exists j. split; [lia|done].
Qed.

Lemma backoff_same k m m' : mprocs m' = mprocs m → backoff_ok k m → backoff_ok (S k) m'.
Proof. intros Hm Hb i id p ph. rewrite Hm. intros Hi. destruct (Hb _ _ _ _ Hi) as (j & ? & ?). exists j. split; [lia|done]. Qed.

Lemma backoff_step f k m m' : backoff_ok k m → mesh_step f m m' → backoff_ok (S k) m'.
Proof.
  intros Hb Hstep.
  assert (∃ j, (j ≤ S k)%nat ∧ minBackoff = backoff_after j) as Hmin by (exists 0%nat; split; [lia|done]).
  assert (∀ i id p ph, mprocs m !! i = Some (id, p, ph) → ∃ j, (j ≤ S k)%nat ∧ backoff_of ph = backoff_after j) as Hkeep.
  { intros i id p ph Hi. destruct (Hb _ _ _ _ Hi) as (j & ? & ?). exists j. split; [lia|done]. }
  destruct Hstep as [| | | | | |m i id p b n Hi Hn| | | | | | |]; try (by apply (backoff_same k m));
    try match goal with |- backoff_ok _ (push _ ?x) => change (backoff_ok (S k) x) end;
    (apply backoff_resume; [done|]); try exact Hmin;
    try (match goal with Hp : mprocs _ !! _ = Some (_, _, ?ph) |- _ => by apply (Hkeep _ _ _ _ Hp) end).
  destruct (Hb _ _ _ _ Hi) as (j & Hj & Hbj). exists (S j). split; [lia|]. cbn in *. by rewrite Hbj, next_backoff_after.
Qed.


End props.
