(* ===== verification/RemoteLive.v ===== *)
(** * Protocols over messages complete

    Without broken connections every request of a poll is answered, so a poll
    whose key is hosted can always return; a protocol that completes with
    atomic polls then completes over messages ([mesh_completes]), from every
    point of every run. *)

From Stdlib Require Import ZArith Lia.
From stdpp Require Import base list gmap strings numbers relations.
From S2P Require Import Prelude Strconv Runtime Ephemeral Net Peer Dispatch Remote RemoteProofs RemoteProps.

#[local] Open Scope Z_scope.

Lemma elem_of_delete_ne {T} (l : list T) (j : nat) x y : x ∈ l → l !! j = Some y → x ≠ y → x ∈ delete j l.
Proof.
  revert j. induction l as [|z l IH]; intros j Hx Hj Hne; [done|].
  destruct j as [|j]; cbn in *; apply elem_of_cons in Hx as [->|Hx]; [by simplify_eq|done|by left|].
  right. by eapply IH.
Qed.

Section live.
Context `{CodecLaws EphemeralReadRequest} `{CodecLaws EphemeralReadResponse} {A : Type}.
Implicit Types (m : mesh A).

Abbreviation frame_req := (frame_as (T:=EphemeralReadRequest) MsgEphemeralReadReq).
Abbreviation frame_resp := (frame_as (T:=EphemeralReadResponse) MsgEphemeralReadResp).

(** A request that node [id] waits for is on its way, or its answer is. *)
Inductive answering (m : mesh A) (id r : string) (n : RNode) : Prop :=
| answer_here resp : peerPending n !! r = Some (Some resp) → answering m id r n
| answer_asked to f req :
    peerPending n !! r = Some None → (to, f) ∈ flight m → frame_req f = Some req → FNodeID f = id →
    ReqID req = r → is_Some (mnodes m !! to) → to ≠ id → answering m id r n
| answer_sent f resp :
    peerPending n !! r = Some None → (id, f) ∈ flight m → frame_resp f = Some resp → RespID resp = r →
    answering m id r n.

(** The complete mesh: every node serves reads and is connected to all others. *)
Record mesh_live (m : mesh A) : Prop := {
  ml_nodes : ∀ id n, mnodes m !! id = Some n → handling n = true ∧ peers n = dom (mnodes m) ∖ {[id]};
  ml_procs : ∀ i id p ph, mprocs m !! i = Some (id, p, ph) → is_Some (mnodes m !! id);
  ml_waits : ∀ i id r, waits m i id r → ∃ n, mnodes m !! id = Some n ∧ answering m id r n;
}.

Lemma answering_mono m m' id r n n' :
  answering m id r n → peerPending n' !! r = peerPending n !! r → flight m ⊆ flight m' →
  dom (mnodes m) ⊆ dom (mnodes m') → answering m' id r n'.
Proof.
  intros Ha Hp Hfl Hd. destruct Ha as [resp Hr|to f req Hr Hin Hf Hid Hrq Hto Hne|f resp Hr Hin Hf Hrs];
    rewrite <- Hp in Hr.
  - by eapply answer_here.
  - eapply answer_asked; [done|by apply Hfl|done..| |done]. apply elem_of_dom, Hd. by apply elem_of_dom.
  - eapply answer_sent; [done|by apply Hfl|done..].
Qed.

Lemma dom_set_rnode m id n n' : mnodes m !! id = Some n → dom (mnodes (set_rnode id n' m)) = dom (mnodes m).
Proof.
  intros Hn. cbn. rewrite dom_insert_L. assert (id ∈ dom (mnodes m)) by (by eapply elem_of_dom_2). set_solver.
Qed.

(** Node [id] changes, the channels that are waited for excepted. *)
Lemma live_node m id n n' :
  mesh_live m → mnodes m !! id = Some n → handling n' = true → peers n' = peers n →
  (∀ i r, waits m i id r → peerPending n' !! r = peerPending n !! r) → mesh_live (set_rnode id n' m).
Proof.
  intros [Hn Hp Hw] Hid Hh Hpe Hpend. pose proof (dom_set_rnode m id n n' Hid) as Hdom. constructor.
  - intros id1 n1 Hn1. rewrite Hdom. cbn in Hn1.
    apply lookup_insert_Some in Hn1 as [[<- <-]|[_ Hn1]]; [|by apply Hn]. split; [done|].
    rewrite Hpe. by destruct (Hn _ _ Hid).
  - intros i id1 p ph Hi. apply elem_of_dom. rewrite Hdom. apply elem_of_dom. by eapply Hp.
  - intros i id1 r Hi. destruct (Hw i id1 r Hi) as (n1 & Hn1 & Ha). cbn.
    destruct (decide (id1 = id)) as [->|Hne].
    + exists n'. rewrite lookup_insert_eq. split; [done|]. simplify_eq.
      eapply answering_mono; [done|by eapply Hpend|done|by rewrite Hdom].
    + exists n1. rewrite lookup_insert_ne by done. split; [done|].
      eapply answering_mono; [done|done|done|by rewrite Hdom].
Qed.

Lemma live_proc m i id p ph :
  mesh_live m → (∀ b r, ph ≠ Waiting b r) → is_Some (mnodes m !! id) → mesh_live (set_proc i id p ph m).
Proof.
  intros [Hn Hp Hw] Hph Hid. constructor; cbn [set_proc mnodes mprocs] in *; [done| |].
  - intros j id1 p1 ph1 [(_ & [= <- _ _] & _)|[_ Hj]]%list_lookup_insert_Some; [done|by eapply Hp].
  - intros j id1 r Hj%waits_set_proc; [|done]. destruct (Hw j id1 r Hj) as (n & Hn1 & Ha).
    exists n. split; [done|]. by eapply answering_mono.
Qed.

Lemma live_push m ps : mesh_live m → mesh_live (push ps m).
Proof.
  intros [Hn Hp Hw]. constructor; [done..|]. intros j id r Hj. destruct (Hw j id r Hj) as (n & Hn1 & Ha).
  exists n. split; [done|]. eapply answering_mono; [done|done| |done]. cbn. set_solver.
Qed.

(** A computation stops waiting and its channel is removed. *)
Lemma live_resume P B m i id p q ph b r n :
  mesh_live m → mesh_inv P B m → mprocs m !! i = Some (id, q, Waiting b r) → mnodes m !! id = Some n →
  (∀ b r, ph ≠ Waiting b r) → mesh_live (resume m i id p ph (ReadRemote_done r n)).
Proof.
  intros Hl Hinv Hi Hn Hph. destruct (ml_nodes _ Hl _ _ Hn) as [Hh Hpe].
  apply (live_node (set_proc i id p ph m) id n); [|done..|].
  - apply live_proc; [done..|]. by eexists.
  - intros j r' Hj. assert (j ≠ i) as Hji.
    { intros ->. destruct Hj as (q' & b' & Hj). cbn in Hj. rewrite list_lookup_insert_eq in Hj.
      - injection Hj as _ ?. by eapply Hph.
      - by eapply lookup_lt_Some. }
    apply waits_set_proc in Hj; [|done]. cbn. apply lookup_delete_ne. intros <-. apply Hji.
    eapply (mi_uniq _ _ _ Hinv); [done|]. by eexists _, _.
Qed.

Lemma live_sent P B m i id t key k b n n' r pkt :
  mesh_live m → mesh_inv P B m → B < 2 ^ 64 - 1 → mprocs m !! i = Some (id, PollRemote t key k, Reading b) →
  mnodes m !! id = Some n → ReadRemote n t key = (n', Some (r, pkt)) →
  mesh_live (push [pkt] (resume m i id (PollRemote t key k) (Waiting b r) n')).
Proof.
  intros Hl Hinv HB Hi Hn Hr. destruct (ml_nodes _ Hl _ _ Hn) as [Hh Hpe].
  destruct (mi_node _ _ _ Hinv _ _ Hn) as [Hnid Hc].
  apply ReadRemote_sent in Hr as (Hr & -> & f & -> & Ht & Hfrom & Hty & Hf). rewrite Hpe in Ht.
  assert (mesh_live (push [(t, f)] (set_rnode id (mkRNode (rn_id n) (rn_store n) (peers n) (handling n)
     (u64 (requestCounter n + 1)) (<[r := None]> (peerPending n))) m))) as [Hn' Hp' Hw'].
  { apply live_push. eapply live_node; [done..|]. intros j r' Hj. cbn. apply lookup_insert_ne. intros <-.
    destruct (mi_waits _ _ _ Hinv _ _ _ Hj) as (n1 & Hn1 & Hiss). simplify_eq.
    eapply (issued_next n); [lia|done|done]. }
  constructor; cbn [push resume set_rnode mnodes mprocs] in *; [done| |].
  - intros j id1 p1 ph1 [(_ & [= <- _ _] & _)|[_ Hj]]%list_lookup_insert_Some; [|by eapply Hp'].
    rewrite lookup_insert_eq. by eexists.
  - intros j id1 r1 (q & b1 & Hj). cbn in Hj.
    apply list_lookup_insert_Some in Hj as [(<- & [= <- _ _ <-] & _)|[_ Hj]].
    + eexists. rewrite lookup_insert_eq. split; [done|].
      assert (is_Some (<[id := mkRNode (rn_id n) (rn_store n) (peers n) (handling n) (u64 (requestCounter n + 1))
        (<[r := None]> (peerPending n))]> (mnodes m) !! t)) as Hto.
      { rewrite lookup_insert_ne by set_solver. apply elem_of_dom. set_solver. }
      eapply (answer_asked _ _ _ _ t f (mkReadReq r key)); cbn; [by rewrite lookup_insert_eq| |done|congruence|done|done|set_solver].
      apply elem_of_app. right. by apply list_elem_of_singleton.
    + destruct (Hw' j id1 r1) as (n1 & Hn1 & Ha); [by eexists _, _|]. exists n1. split; [done|].
      by eapply answering_mono.
Qed.

(** The answer to request [r] makes progress, or stays on its way, when a
    frame is delivered. *)
Lemma answering_deliver m j to f n n' out id r n0 :
  mesh_live m → flight m !! j = Some (to, f) → mnodes m !! to = Some n → peer_frame n f = (n', out) →
  mnodes m !! id = Some n0 → answering m id r n0 →
  ∃ n1, mnodes (push out (set_rnode to n' (take_packet j m))) !! id = Some n1 ∧
    answering (push out (set_rnode to n' (take_packet j m))) id r n1.
Proof.
  intros Hl Hj Hto Hpf Hid Ha. pose proof (list_elem_of_lookup_2 _ _ _ Hj) as Hin.
  set (m' := push out _).
  assert (∃ n1, mnodes m' !! id = Some n1 ∧ (peerPending n1 !! r = peerPending n0 !! r ∨
    (peerPending n0 !! r = Some None ∧ ∃ resp, peerPending n1 !! r = Some (Some resp)))) as (n1 & Hn1 & Hp).
  { cbn. destruct (decide (id = to)) as [->|Hne].
    - exists n'. rewrite lookup_insert_eq. simplify_eq. split; [done|]. by eapply peer_frame_pending.
    - exists n0. rewrite lookup_insert_ne by done. auto. }
  exists n1. split; [done|]. destruct Hp as [Hp|[_ [resp Hp]]]; [|by eapply answer_here].
  assert (∀ x g, (x, g) ∈ flight m → (x, g) ≠ (to, f) → (x, g) ∈ flight m') as Hkeep.
  { intros x g Hx Hne. cbn. apply elem_of_app. left. by eapply elem_of_delete_ne. }
  assert (∀ x, is_Some (mnodes m !! x) → is_Some (mnodes m' !! x)) as Hdom.
  { intros x Hx. cbn. destruct (decide (x = to)) as [->|Hne]; [rewrite lookup_insert_eq; by eexists|].
    by rewrite lookup_insert_ne. }
  destruct Ha as [resp Hr|to' g req Hr Hg Hf Hfrom Hrq Hto' Hne|g resp Hr Hg Hf Hrs]; rewrite <- Hp in Hr.
  - by eapply answer_here.
  - destruct (decide ((to', g) = (to, f))) as [[= -> ->]|Hgf]; [|eapply answer_asked; eauto].
    destruct (ml_nodes _ Hl _ _ Hto) as [Hh Hpe].
    destruct (peer_frame_answers n f req Hh Hf) as (f' & Hpf' & Hf').
    { rewrite Hpe, Hfrom. assert (id ∈ dom (mnodes m)) by (by eapply elem_of_dom_2). set_solver. }
    rewrite Hpf in Hpf'. injection Hpf' as -> ->. eapply (answer_sent _ _ _ _ f'); [done| |done|done].
    cbn. rewrite Hfrom. apply elem_of_app. right. by apply list_elem_of_singleton.
  - destruct (decide ((id, g) = (to, f))) as [[= -> ->]|Hgf]; [|eapply answer_sent; eauto].
    simplify_eq. destruct (ml_nodes _ Hl _ _ Hto) as [Hh _].
    rewrite (peer_frame_takes n f resp) in Hpf; [|done|done|congruence]. injection Hpf as <- <-.
    cbn in Hn1. rewrite lookup_insert_eq in Hn1. injection Hn1 as <-.
    eapply answer_here. cbn. apply lookup_insert_eq.
Qed.

Lemma live_deliver m j to f n n' out :
  mesh_live m → flight m !! j = Some (to, f) → mnodes m !! to = Some n → peer_frame n f = (n', out) →
  mesh_live (push out (set_rnode to n' (take_packet j m))).
Proof.
  intros Hl Hj Hto Hpf. pose proof (dom_set_rnode (take_packet j m) to n n' Hto) as Hdom.
  destruct (peer_frame_conn _ _ _ _ Hpf) as (Hh & Hpe & _). constructor; cbn [push mnodes mprocs].
  - intros id1 n1 Hn1. rewrite Hdom. cbn in Hn1 |- *.
    apply lookup_insert_Some in Hn1 as [[<- <-]|[_ Hn1]]; [rewrite Hh, Hpe|]; by apply (ml_nodes _ Hl).
  - intros i id1 p ph Hi. apply elem_of_dom. rewrite Hdom. apply elem_of_dom. by eapply (ml_procs _ Hl).
  - intros i id1 r Hi. destruct (ml_waits _ Hl i id1 r Hi) as (n0 & Hn0 & Ha).
    by eapply answering_deliver.
Qed.

(** A computation moves on, the node's connections and channels staying. *)
Lemma live_move m i id p ph n n' :
  mesh_live m → mnodes m !! id = Some n → (∀ b r, ph ≠ Waiting b r) →
  handling n' = handling n → peers n' = peers n → peerPending n' = peerPending n → mesh_live (resume m i id p ph n').
Proof.
  intros Hl Hn Hph Hh Hpe Hpend. destruct (ml_nodes _ Hl _ _ Hn) as [Hh0 _].
  apply (live_node (set_proc i id p ph m) id n); [|done|congruence|done|by rewrite Hpend].
  apply live_proc; [done..|by eexists].
Qed.

Lemma mesh_step_live f P B m m' :
  mesh_live m → mesh_inv P B m → B < 2 ^ 64 - 1 → conn_breaks f = false → mesh_step f m m' → mesh_live m'.
Proof.
  intros Hl Hinv HB Hf Hstep.
  destruct Hstep as
    [m i id p ph n p' s Hp Hn Ha|m i id t key k b n n' r pkt Hp Hn Hr|m i id t key k b n n' Hp Hn Hr
    |m j to frame n n' out Hj Hn Hpf|m i id t key k b r n resp n' Hp Hn Hr Hfd|m i id t key k b r n resp n' Hp Hn Hr Hfd
    |m i id p b n Hp Hn|m i id t key k b r n Hcx Hp Hn|m i id t key k b n Hcx Hp Hn|m id n Hn|m id n t Hn Ht Hne|m id n Hn
    |m j p Hb Hj|m id n t Hb Hn]; try (by rewrite Hf in Hb); try (destruct (ml_nodes _ Hl _ _ Hn) as [Hh Hpe]).
  - by eapply live_move.
  - by eapply live_sent.
  - destruct (mi_node _ _ _ Hinv _ _ Hn) as [_ Hc]. unfold ReadRemote, nextRequestID in Hr.
    destruct (Send _ _ _ _); [done|]. injection Hr as <-.
    apply (live_node (set_proc i id _ _ m) id n); [|done..|]; [apply live_proc; [done..|by eexists]|].
    intros j r' Hj%waits_set_proc; [|done]. cbn. destruct (mi_waits _ _ _ Hinv _ _ _ Hj) as (n1 & Hn1 & Hiss).
    simplify_eq. rewrite delete_insert_eq. apply lookup_delete_ne. intros <-.
    by eapply (issued_next n); [|done|done]; lia.
  - by eapply live_deliver.
  - apply ReadRemote_recv_Some in Hr as [_ ->]. by eapply live_resume.
  - apply ReadRemote_recv_Some in Hr as [_ ->]. by eapply live_resume.
  - by eapply live_move.
  - by eapply live_resume.
  - by eapply live_move.
  - by apply (live_node m id n).
  - apply (live_node m id n); [done..| |done]. cbn. apply elem_of_dom in Ht. rewrite Hpe. set_solver.
  - by apply (live_node m id n).
Qed.

(** ** Following the atomic network *)

Section follow.
Context (f : faults) (Hf : conn_breaks f = false) (Q : net A → Prop) (HQ : WriteOnce f Q).

Definition good (B : Z) (m : mesh A) : Prop := once_inv Q B m ∧ mesh_live m.

Lemma good_step B m m' : good B m → B < 2 ^ 64 - 1 → mesh_step f m m' → good (B + 1) m'.
Proof.
  intros [[Hinv HQm] Hl] HB Hs. split.
  - by destruct (once_inv_step f Q B m m' (conj Hinv HQm) HB Hs).
  - by eapply mesh_step_live.
Qed.

Lemma good_run B k m m' : good B m → nsteps (mesh_step f) k m m' → B + Z.of_nat k < 2 ^ 64 → good (B + Z.of_nat k) m'.
Proof.
  intros Hg Hrun. revert B Hg. induction Hrun as [m|k m m1 m' Hs Hrun IH]; intros B Hg HB.
  - by rewrite Z.add_0_r.
  - replace (B + Z.of_nat (S k)) with (B + 1 + Z.of_nat k) by lia. apply IH; [|lia]. by eapply good_step; [|lia|].
Qed.

(** The mesh reaches the network [n] in at most [k] steps. *)
Definition reaches (k : nat) (B : Z) (m : mesh A) (n : net A) : Prop :=
  ∃ k' m', (k' ≤ k)%nat ∧ nsteps (mesh_step f) k' m m' ∧ project m' = n ∧ good (B + Z.of_nat k') m'.

Lemma reaches_step k B m m1 n :
  good B m → mesh_step f m m1 → (good (B + 1) m1 → reaches k (B + 1) m1 n) → B < 2 ^ 64 - 1 → reaches (S k) B m n.
Proof.
  intros Hg Hs Hr HB. destruct Hr as (k' & m' & Hk & Hrun & Hp & Hg'); [by eapply good_step|].
  exists (S k'), m'. split_and!; [lia| |done|].
  - by eapply nsteps_l.
  - replace (B + Z.of_nat (S k')) with (B + 1 + Z.of_nat k') by lia. done.
Qed.

Lemma reaches_here B m : good B m → reaches 0 B m (project m).
Proof. intros Hg. exists 0%nat, m. split_and!; [lia|constructor|done|]. by rewrite Z.add_0_r. Qed.

Lemma reaches_le k k' B m n : (k ≤ k')%nat → reaches k B m n → reaches k' B m n.
Proof. intros Hk (j & m' & ? & ? & ? & ?). exists j, m'. split_and!; [lia|done..]. Qed.

(** The network after poll [i] has read [v]. *)
Definition polled (m : mesh A) (i : nat) (id : string) (k : option (list Z) → act A) (v : list Z) : net A :=
  mkNet (stores (project m)) (<[i := (id, k (Some v))]> (procs (project m))).

Section poll.
Context (i : nat) (id t key : string) (k : option (list Z) → act A) (v : list Z) (Hne : t ≠ id).

Definition polling (m : mesh A) (ph : phase) : Prop := mprocs m !! i = Some (id, PollRemote t key k, ph).

Lemma poll_here_found B m b r n resp :
  good B m → B < 2 ^ 64 - 1 → polling m (Waiting b r) → hosted m t key v → mnodes m !! id = Some n →
  peerPending n !! r = Some (Some resp) → Found resp = true → reaches 1 B m (polled m i id k v).
Proof.
  intros Hg HB Hp Hv Hn Hr Hfd. pose proof Hg as [[Hinv _] _].
  destruct (mi_poll _ _ _ Hinv _ _ _ _ _ _ _ Hp) as [_ _ Hbuf].
  assert (v = Value resp) as ->. { specialize (Hbuf n resp Hn Hr Hfd). unfold hosted in *. congruence. }
  assert (ReadRemote_recv r n = Some (resp, ReadRemote_done r n)) as Hrecv by (unfold ReadRemote_recv; by rewrite Hr).
  eapply reaches_step; [done|by eapply mstep_found| |done]. intros Hg'.
  replace (polled m i id k (Value resp)) with
    (project (resume m i id (k (Some (Value resp))) (Reading minBackoff) (ReadRemote_done r n)));
    [by apply reaches_here|]. unfold polled. by erewrite project_poll.
Qed.

(** The response is delivered. *)
Lemma deliver_resp m b r n g resp :
  mesh_live m → polling m (Waiting b r) → mnodes m !! id = Some n → peerPending n !! r = Some None →
  (id, g) ∈ flight m → frame_resp g = Some resp → RespID resp = r →
  ∃ m1 n1, mesh_step f m m1 ∧ project m1 = project m ∧ polling m1 (Waiting b r) ∧
    mnodes m1 !! id = Some n1 ∧ peerPending n1 !! r = Some (Some resp).
Proof.
  intros Hl Hp Hn Hr [j Hj]%list_elem_of_lookup_1 Hg <-. destruct (ml_nodes _ Hl _ _ Hn) as [Hh _].
  pose proof (peer_frame_takes n g resp Hh Hg Hr) as Hpf.
  eexists _, _. split_and!; [by eapply mstep_deliver|by apply (project_node (take_packet j m) id n)|done|..].
  - cbn. apply lookup_insert_eq.
  - cbn. apply lookup_insert_eq.
Qed.

(** The request is delivered, and answered from the store. *)
Lemma deliver_req m b r n to g req nt :
  mesh_live m → polling m (Waiting b r) → mnodes m !! id = Some n → peerPending n !! r = Some None →
  (to, g) ∈ flight m → frame_req g = Some req → FNodeID g = id → ReqID req = r → mnodes m !! to = Some nt → to ≠ id →
  ∃ m1 g', mesh_step f m m1 ∧ project m1 = project m ∧ polling m1 (Waiting b r) ∧
    mnodes m1 !! id = Some n ∧ (id, g') ∈ flight m1 ∧ frame_resp g' = Some (answer nt req).
Proof.
  intros Hl Hp Hn Hr [j Hj]%list_elem_of_lookup_1 Hg Hfrom <- Hto Hto'. destruct (ml_nodes _ Hl _ _ Hto) as [Hh Hpe].
  destruct (peer_frame_answers nt g req Hh Hg) as (g' & Hpf & Hg').
  { rewrite Hpe, Hfrom. assert (id ∈ dom (mnodes m)) by (by eapply elem_of_dom_2). set_solver. }
  eexists _, g'. split_and!; [by eapply mstep_deliver|by apply (project_node (take_packet j m) to nt)|done|..|done].
  - cbn. by rewrite lookup_insert_ne.
  - cbn. rewrite Hfrom. apply elem_of_app. right. by apply list_elem_of_singleton.
Qed.

Lemma hosted_project m m1 : project m1 = project m → hosted m t key v → hosted m1 t key v.
Proof.
  intros Hp Hv. unfold hosted in *. change (mstores m1) with (stores (project m1)). by rewrite Hp.
Qed.

Lemma polled_project m m1 : project m1 = project m → polled m1 i id k v = polled m i id k v.
Proof. intros Hp. unfold polled. by rewrite Hp. Qed.

Lemma poll_sent_found B m b r n g resp :
  good B m → B < 2 ^ 64 - 2 → polling m (Waiting b r) → hosted m t key v → mnodes m !! id = Some n →
  peerPending n !! r = Some None → (id, g) ∈ flight m → frame_resp g = Some resp → RespID resp = r →
  Found resp = true → reaches 2 B m (polled m i id k v).
Proof.
  intros Hg HB Hp Hv Hn Hr Hin Hf' Hrs Hfd. destruct Hg as [Ho Hl].
  destruct (deliver_resp m b r n g resp) as (m1 & n1 & Hs & Hpr & Hp1 & Hn1 & Hr1); [done..|].
  eapply reaches_step; [by split|done| |lia]. intros Hg1. rewrite <- (polled_project m m1) by done.
  eapply poll_here_found; [done|lia|done|by eapply hosted_project|done..].
Qed.

Lemma poll_asked_found B m b r n g req :
  good B m → B < 2 ^ 64 - 3 → polling m (Waiting b r) → hosted m t key v → mnodes m !! id = Some n →
  peerPending n !! r = Some None → (t, g) ∈ flight m → frame_req g = Some req → FNodeID g = id → ReqID req = r →
  reaches 3 B m (polled m i id k v).
Proof.
  intros Hg HB Hp Hv Hn Hr Hin Hf' Hfrom Hrq. destruct Hg as [Ho Hl]. destruct (proj1 Ho) as [_ _ _ _ _ _ Hpoll].
  destruct (pi_req _ _ _ _ _ _ (Hpoll _ _ _ _ _ _ _ Hp) t g req) as [_ Hkey]; [done..|].
  assert (∃ nt, mnodes m !! t = Some nt ∧ Get (rn_store nt) key = Some v) as (nt & Hnt & Hget).
  { unfold hosted, store_of, mstores in Hv. rewrite lookup_fmap in Hv.
    destruct (mnodes m !! t) as [nt|]; [by exists nt|]. cbn in Hv. unfold Get in Hv. by rewrite lookup_empty in Hv. }
  destruct (deliver_req m b r n t g req nt) as (m1 & g' & Hs & Hpr & Hp1 & Hn1 & Hin1 & Hg'); [done..|].
  eapply reaches_step; [by split|done| |lia]. intros Hg1. rewrite <- (polled_project m m1) by done.
  eapply poll_sent_found; [done|lia|done|by eapply hosted_project|done|done|done|done|done|].
  cbn. rewrite Hkey, Hget. done.
Qed.

Lemma poll_reading B m b :
  good B m → B < 2 ^ 64 - 4 → polling m (Reading b) → hosted m t key v → reaches 4 B m (polled m i id k v).
Proof.
  intros Hg HB Hp Hv. pose proof Hg as [Ho Hl]. destruct (ml_procs _ Hl _ _ _ _ Hp) as [n Hn].
  destruct (ml_nodes _ Hl _ _ Hn) as [_ Hpe]. destruct (mi_node _ _ _ (proj1 Ho) _ _ Hn) as [Hnid Hc].
  assert (t ∈ peers n) as Ht.
  { rewrite Hpe. apply elem_of_difference. split; [|set_solver]. apply elem_of_dom.
    unfold hosted, store_of, mstores in Hv. rewrite lookup_fmap in Hv.
    destruct (mnodes m !! t); [by eexists|]. cbn in Hv. unfold Get in Hv. by rewrite lookup_empty in Hv. }
  destruct (ReadRemote n t key) as [n' [[r pkt]|]] eqn:Hr;
    [|apply ReadRemote_failed in Hr as (_ & _ & _ & Hnt & _); [done|lia]].
  pose proof (mstep_send f m i id t key k b n n' r pkt Hp Hn Hr) as Hs.
  apply ReadRemote_sent in Hr as (Hr & -> & g & -> & _ & Hfrom & _ & Hf'). rewrite Hnid in Hfrom.
  eapply reaches_step; [done|exact Hs| |lia]. intros Hg1.
  match goal with |- reaches _ _ ?m1 _ => assert (project m1 = project m) as Hpr end.
  { by apply (project_stay m i id _ (Reading b) _ n). }
  rewrite <- (polled_project m _ Hpr).
  eapply (poll_asked_found _ _ b r _ g (mkReadReq r key)); [done|lia| | | | | |done|done|done].
  - unfold polling. cbn. apply list_lookup_insert_eq. by eapply lookup_lt_Some.
  - by eapply hosted_project.
  - cbn. apply lookup_insert_eq.
  - cbn. apply lookup_insert_eq.
  - cbn. apply elem_of_app. right. by apply list_elem_of_singleton.
Qed.

Lemma poll_sleeping B m b :
  good B m → B < 2 ^ 64 - 5 → polling m (Sleeping b) → hosted m t key v → reaches 5 B m (polled m i id k v).
Proof.
  intros Hg HB Hp Hv. pose proof Hg as [Ho Hl]. destruct (ml_procs _ Hl _ _ _ _ Hp) as [n Hn].
  eapply reaches_step; [done|by eapply mstep_wake| |lia]. intros Hg1.
  assert (project (resume m i id (PollRemote t key k) (Reading (next_backoff b)) n) = project m) as Hpr
    by (by eapply project_stay).
  rewrite <- (polled_project m _ Hpr). eapply poll_reading; [done|lia| |by eapply hosted_project].
  unfold polling. cbn. apply list_lookup_insert_eq. by eapply lookup_lt_Some.
Qed.

Lemma poll_here B m b r n resp :
  good B m → B < 2 ^ 64 - 6 → polling m (Waiting b r) → hosted m t key v → mnodes m !! id = Some n →
  peerPending n !! r = Some (Some resp) → reaches 6 B m (polled m i id k v).
Proof.
  intros Hg HB Hp Hv Hn Hr. destruct (Found resp) eqn:Hfd.
  - eapply reaches_le; [|by eapply poll_here_found; [|lia|..]]. lia.
  - assert (ReadRemote_recv r n = Some (resp, ReadRemote_done r n)) as Hrecv by (unfold ReadRemote_recv; by rewrite Hr).
    eapply reaches_step; [done|by eapply mstep_not_found| |lia]. intros Hg1.
    assert (project (resume m i id (PollRemote t key k) (Sleeping b) (ReadRemote_done r n)) = project m) as Hpr
      by (by eapply project_stay).
    rewrite <- (polled_project m _ Hpr). eapply poll_sleeping; [done|lia| |by eapply hosted_project].
    unfold polling. cbn. apply list_lookup_insert_eq. by eapply lookup_lt_Some.
Qed.

Lemma poll_sent B m b r n g resp :
  good B m → B < 2 ^ 64 - 7 → polling m (Waiting b r) → hosted m t key v → mnodes m !! id = Some n →
  peerPending n !! r = Some None → (id, g) ∈ flight m → frame_resp g = Some resp → RespID resp = r →
  reaches 7 B m (polled m i id k v).
Proof.
  intros Hg HB Hp Hv Hn Hr Hin Hf' Hrs. destruct Hg as [Ho Hl].
  destruct (deliver_resp m b r n g resp) as (m1 & n1 & Hs & Hpr & Hp1 & Hn1 & Hr1); [done..|].
  eapply reaches_step; [by split|done| |lia]. intros Hg1. rewrite <- (polled_project m m1) by done.
  eapply poll_here; [done|lia|done|by eapply hosted_project|done..].
Qed.

(** Wherever the poll is, it can read [v]. *)
Lemma poll_reads B m ph :
  good B m → B < 2 ^ 64 - 8 → polling m ph → hosted m t key v → reaches 8 B m (polled m i id k v).
Proof.
  intros Hg HB Hp Hv. destruct ph as [b|b r|b].
  - eapply reaches_le; [|by eapply poll_reading; [|lia|..]]. lia.
  - destruct (ml_waits _ (proj2 Hg) i id r) as (n & Hn & Ha); [by eexists _, _|].
    destruct Ha as [resp Hr|to g req Hr Hin Hg' Hfrom Hrq [nt Hto] Hto'|g resp Hr Hin Hg' Hrs].
    + eapply reaches_le; [|by eapply poll_here; [|lia|..]]. lia.
    + destruct Hg as [Ho Hl].
      destruct (deliver_req m b r n to g req nt) as (m1 & g' & Hs & Hpr & Hp1 & Hn1 & Hin1 & Hf'); [done..|].
      eapply reaches_step; [by split|done| |lia]. intros Hg1. rewrite <- (polled_project m m1) by done.
      eapply poll_sent; [done|lia|done|by eapply hosted_project|done..].
    + eapply reaches_le; [|by eapply poll_sent; [|lia|..]]. lia.
  - eapply reaches_le; [|by eapply poll_sleeping; [|lia|..]]. lia.
Qed.

End poll.

(** Every step of the atomic network can be followed. *)
Lemma mesh_follows B m n :
  (∀ i id t key k, procs (project m) !! i = Some (id, PollRemote t key k) → t ≠ id) →
  good B m → B < 2 ^ 64 - 8 → net_step (project m) n → reaches 8 B m n.
Proof.
  intros Hothers Hg HB Hs. pose proof Hg as [_ Hl].
  assert (∀ i id p, procs (project m) !! i = Some (id, p) →
    ∃ ph nd, mprocs m !! i = Some (id, p, ph) ∧ mnodes m !! id = Some nd ∧ rn_store nd = store_of (mstores m) id) as Hproc.
  { intros i id p Hi. cbn in Hi. rewrite list_lookup_fmap in Hi.
    destruct (mprocs m !! i) as [[[id' p'] ph]|] eqn:Hm; [|done]. injection Hi as -> ->.
    destruct (ml_procs _ Hl _ _ _ _ Hm) as [nd Hnd]. exists ph, nd. split_and!; [done..|].
    symmetry. by apply mstores_of. }
  assert (∀ i id p p' s, procs (project m) !! i = Some (id, p) → own_access p (store_of (mstores m) id) = Some (p', s) →
    reaches 8 B m (mkNet (<[id := s]> (mstores m)) (<[i := (id, p')]> (procs (project m))))) as Hown.
  { intros i id p p' s Hi Ha. destruct (Hproc i id p Hi) as (ph & nd & Hm & Hnd & Hst). rewrite <- Hst in Ha.
    eapply (reaches_le 1); [lia|]. eapply reaches_step; [done|by eapply mstep_own| |lia]. intros Hg1.
    match goal with |- reaches _ _ ?m1 ?n1 => replace n1 with (project m1) end; [by apply reaches_here|].
    by rewrite project_resume. }
  inversion Hs as [n0 i id key v k Hi|n0 i id t key k v Hi Hv|n0 i id key k Hi|n0 i id prefix k Hi]; subst.
  - by apply (Hown i id (Host key v k)).
  - destruct (Hproc i id _ Hi) as (ph & nd & Hm & _). eapply poll_reads; [by eapply Hothers|done|done|done|].
    exact Hv.
  - by apply (Hown i id (Remove key k)).
  - by apply (Hown i id (RemovePrefix prefix k)).
Qed.

End follow.
(** ** Protocols on their plans *)

Section plans.
Context (I : string → string → list Z → nat → Prop) (failed : A → Prop).
Context (I_fun : ∀ id key v j v' j', I id key v j → I id key v' j' → v = v').

Lemma safe_once f rs : WriteOnce f (safe_inv I failed rs).
Proof.
  split.
  - intros n n' Hs [Hn|[_ Hn]]; (eapply safe_step; [done|done|]); auto.
  - intros n n' t key v Hs [Hn|[_ Hn]] Hv; (eapply safe_keeps; [done|done| |done]); auto.
Qed.

(** The protocol is on a plan with results [rs] and at most [w] accesses left. *)
Definition plan_inv (rs : list A) (w : nat) (n : net A) : Prop :=
  ∃ pls, net_inv I failed n pls ∧ snd <$> pls = rs ∧ (work pls ≤ w)%nat.

Lemma plan_once f rs w : ctx_ends f = false → WriteOnce f (plan_inv rs w).
Proof.
  intros Hf. split.
  - intros n n' (pls & Hinv & <- & Hw) [Hn|[Hc _]]; [|congruence].
    destruct (net_step_inv I failed I_fun _ _ _ Hinv Hn) as (pls' & Hinv' & Hw' & Hsnd). exists pls'.
    split_and!; [done..|lia].
  - intros n n' t key v (pls & Hinv & _) [Hn|[Hc _]] Hv; [|congruence].
    eapply (safe_keeps I failed); [done|by eapply net_inv_safe|by left|done].
Qed.

(** From every mesh on plan the protocol can complete. *)
Lemma mesh_completes f rs w0 B m pls :
  conn_breaks f = false → ctx_ends f = false → net_inv I failed (project m) pls → snd <$> pls = rs →
  good (plan_inv rs w0) B m → B + 8 * Z.of_nat (work pls) < 2 ^ 64 - 8 →
  ∃ k m', nsteps (mesh_step f) k m m' ∧ ∀ i r, rs !! i = Some r → finished (project m') i r.
Proof.
  intros Hb Hc. remember (work pls) as w eqn:Hw. revert B m pls Hw.
  induction w as [|w IH]; intros B m pls Hw Hinv Hrs Hg HB;
    (destruct (net_progress I failed _ _ Hinv) as [[n Hn]|Hfin];
     [|exists 0%nat, m; split; [constructor|]; intros i r Hr; rewrite <- Hrs, list_lookup_fmap in Hr;
       destruct (pls !! i) as [pl|] eqn:Hpl; [|done]; injection Hr as <-; by apply Hfin]);
    destruct (net_step_inv I failed I_fun _ _ _ Hinv Hn) as (pls' & Hinv' & Hw' & Hsnd); [lia|].
  destruct (mesh_follows f Hb (plan_inv rs w0) (plan_once f rs w0 Hc) B m n) as (k & m1 & Hk & Hrun & <- & Hg1);
    [intros i id t key c Hi; exact (net_inv_others I failed _ _ _ _ _ _ _ Hinv Hi)|done|lia|done|].
  destruct (IH (B + Z.of_nat k) m1 pls') as (k' & m' & Hrun' & Hfin); [lia|done|congruence|done|lia|].
  exists (k + k')%nat, m'. split; [by eapply nsteps_trans|done].
Qed.

End plans.

(** ** A table that starts a protocol *)

Definition table_node (ids : list string) (id : string) : RNode :=
  mkRNode id ∅ (list_to_set ids ∖ {[id]}) true 0 ∅.

(** All seats serve reads and are connected, their counters at zero. *)
Definition table_mesh (ids : list string) (ps : list (string * act A)) : mesh A :=
  mkMesh (list_to_map ((λ id, (id, table_node ids id)) <$> ids)) [] ((λ p, (p, Reading minBackoff)) <$> ps).

Lemma table_lookup ids id n :
  (list_to_map ((λ id, (id, table_node ids id)) <$> ids) : gmap string RNode) !! id = Some n ↔
  id ∈ ids ∧ n = table_node ids id.
Proof.
  generalize (table_node ids). intros g. induction ids as [|id0 ids IH]; cbn.
  { rewrite lookup_empty, elem_of_nil. naive_solver. }
  rewrite lookup_insert_Some, IH, elem_of_cons. destruct (decide (id0 = id)); naive_solver.
Qed.

Lemma table_procs ids ps i id p ph :
  mprocs (table_mesh ids ps) !! i = Some (id, p, ph) ↔ ps !! i = Some (id, p) ∧ ph = Reading minBackoff.
Proof. cbn. rewrite list_lookup_fmap. destruct (ps !! i) as [[]|]; cbn; naive_solver. Qed.

Lemma table_dom ids ps : dom (mnodes (table_mesh ids ps)) = list_to_set ids.
Proof. cbn. rewrite dom_list_to_map_L. f_equal. rewrite <- list_fmap_compose. apply list_fmap_id. Qed.

Lemma table_fresh ids ps :
  Forall (λ p, p.1 ∈ ids) ps → fresh_mesh 0 (table_mesh ids ps) ∧ mesh_live (table_mesh ids ps).
Proof.
  intros Hps. assert (∀ i id p ph, mprocs (table_mesh ids ps) !! i = Some (id, p, ph) →
    is_Some (mnodes (table_mesh ids ps) !! id)) as Hid.
  { intros i id p ph [Hi _]%table_procs. apply elem_of_dom. rewrite table_dom. apply elem_of_list_to_set.
    exact (Forall_lookup_1 _ _ _ _ Hps Hi). }
  split; constructor.
  - done.
  - intros i id p ph Hi. split; [by eapply Hid|]. by apply table_procs in Hi as [_ ->].
  - intros id n [_ ->]%table_lookup. split_and!; done || (cbn; lia).
  - intros id n Hn. rewrite table_dom. apply table_lookup in Hn as [_ ->]. done.
  - done.
  - intros i id r (p & b & [_ Hp]%table_procs). done.
Qed.

Lemma table_project ids ps :
  ∃ ss, project (table_mesh ids ps) = mkNet ss ps ∧ ∀ id, store_of ss id = ∅.
Proof.
  eexists. split.
  - unfold project. cbn [table_mesh mprocs]. f_equal. rewrite <- list_fmap_compose. apply list_fmap_id.
  - intros id. unfold store_of. rewrite lookup_fmap. destruct (mnodes (table_mesh ids ps) !! id) as [n|] eqn:Hn; [|done].
    cbn in Hn. apply table_lookup in Hn as [_ ->]. done.
Qed.

Section table.
Context (I : string → string → list Z → nat → Prop) (failed : A → Prop).
Context (I_fun : ∀ id key v j v' j', I id key v j → I id key v' j' → v = v').
Context (ids : list string) (ps : list (string * act A)) (Hps : Forall (λ p, p.1 ∈ ids) ps).

(** Whatever fails, a computation that finishes fails or has the plan's
    result. *)
Lemma table_safe f pls k m i r :
  Forall2 (on_plan I failed) ps pls → nsteps (mesh_step f) k (table_mesh ids ps) m → Z.of_nat k < 2 ^ 64 →
  finished (project m) i r → failed r ∨ (snd <$> pls) !! i = Some r.
Proof.
  intros Hpl Hrun Hk. apply (safe_finished I). pose proof (safe_once I failed I_fun f (snd <$> pls)) as HQ.
  destruct (table_fresh ids ps Hps) as [Hf _].
  destruct (once_inv_run f (safe_inv I failed (snd <$> pls)) 0 k (table_mesh ids ps) m) as [[_ Hs] _]; [|done|lia|done].
  split; [by apply fresh_mesh_inv|]. destruct (table_project ids ps) as (ss & -> & Hss).
  apply safe_inv_empty; [done|]. by apply safe_inv_start.
Qed.

(** Without failures the protocol can complete from every point of a run. *)
Lemma table_completes f pls k m :
  conn_breaks f = false → ctx_ends f = false → net_inv I failed (mkNet ∅ ps) pls →
  nsteps (mesh_step f) k (table_mesh ids ps) m → Z.of_nat k + 8 * Z.of_nat (work pls) < 2 ^ 64 - 8 →
  ∃ k' m', nsteps (mesh_step f) k' m m' ∧ ∀ i r, (snd <$> pls) !! i = Some r → finished (project m') i r.
Proof.
  intros Hb Hc Hinv Hrun Hk. destruct (table_fresh ids ps Hps) as [Hf Hl].
  pose proof (plan_once I failed I_fun f (snd <$> pls) (work pls) Hc) as HQ.
  destruct (table_project ids ps) as (ss & Hp & Hss).
  assert (net_inv I failed (project (table_mesh ids ps)) pls) as Hinv0 by (rewrite Hp; by apply net_inv_empty).
  assert (good (plan_inv I failed (snd <$> pls) (work pls)) (0 + Z.of_nat k) m) as Hg.
  { apply (good_run f Hb _ HQ 0 k (table_mesh ids ps)); [|done|lia].
    split; [|done]. split; [by apply fresh_mesh_inv|by exists pls]. }
  destruct (proj1 Hg) as [_ (pls' & Hinv' & Hsnd & Hw)].
  apply (mesh_completes I failed I_fun f _ (work pls) _ m pls' Hb Hc Hinv' Hsnd Hg). lia.
Qed.

End table.

End live.
