(* ===== verification/RemoteGames.v ===== *)
(** * Rounds and deals over messages, and what a lost frame costs

    The theorems on rounds and on dealing ([RunnerProps], [PeerProps]) with
    the polls run as messages; then the limits of [ReadRemote]: it does not
    retry a request that is lost, and takes a response from anybody. *)

From Stdlib Require Import ZArith Lia.
From stdpp Require Import base list gmap strings numbers relations countable.
From S2P Require Import Prelude Strconv Ephemeral Deck DeckProofs DeckProps Net Peer PeerProofs PeerProps GameState GameStateProofs GameLog.
From S2P Require Import GameLogProofs GameLogProps Runner RunnerProofs RoundNet RunnerProps Dispatch Remote RemoteProofs RemoteProps RemoteLive.

#[local] Open Scope Z_scope.

Section games.
Context `{CodecLaws EphemeralReadRequest} `{CodecLaws EphemeralReadResponse}.

(** C15: A round over messages.  The seats of a ready table run their attempts over
    the mesh.  Whatever frames are lost, connections broken and deadlines
    passed, a seat that finished has committed the proposer's entry or is back
    at the log it started with; and when nothing of this happens, from every
    point of every run all seats can still commit the proposer's entry. *)
Theorem round_over_messages `{C : SigScheme} `{L : !SigLaws C} `{CE : Codec Entry} `{EL : !EntryCodecLaws}
    `{CR : Codec VerifyReceipt} np stack SC ids l sks rs att q a e acts f k m :
  ready np stack SC ids l sks rs att q a e acts →
  nsteps (mesh_step f) k (table_mesh ids (attempt_procs SC ids l att rs acts)) m → Z.of_nat k < 2 ^ 63 →
  (∀ i x, (i < length ids)%nat → finished (project m) i x →
     (∃ r why, x = Ok (r, attemptTimeout, why) ∧ rlog r = l) ∨
     x = Ok (set_log (Append l e) (rs i), attemptCommitted, NoReason)) ∧
  (conn_breaks f = false → ctx_ends f = false →
     ∃ k' m', nsteps (mesh_step f) k' m m' ∧
       ∀ i, (i < length ids)%nat →
         finished (project m') i (Ok (set_log (Append l e) (rs i), attemptCommitted, NoReason))).
Proof.
  intros Hready Hrun Hk. destruct (ready_entry _ _ _ _ _ _ _ _ _ _ _ _ Hready) as (Hq & Hty & Hv).
  destruct Hready as [[Ht Hnp] Hsched [Hnd Hlen] Hl Hatt Hkeys Hseated Henc Hturn _ Hb Hacts].
  assert (net_inv (round_ideal ids l sks att q e) (rolled_back l) (mkNet ∅ (attempt_procs SC ids l att rs acts))
    (attempt_plans SC ids l att rs q e)) as Hinv by (by apply (attempt_net_inv SC Hsched np stack Ht Hnp) with (a := a)).
  assert (Forall (λ p, p.1 ∈ ids) (attempt_procs SC ids l att rs acts)) as Hps.
  { apply list.Forall_forall. intros p (i & -> & Hi%elem_of_seq)%list_elem_of_fmap. cbn.
    eapply list_elem_of_lookup_2, list_lookup_lookup_total_lt. lia. }
  assert (∀ i, (i < length ids)%nat →
    (snd <$> attempt_plans SC ids l att rs q e) !! i = Some (committed l rs e i)) as Hlk.
  { intros i Hi. unfold attempt_plans. by rewrite !list_lookup_fmap, lookup_seq_lt. }
  pose proof (round_ideal_fun ids Hnd l sks att Hatt q e) as Hfun. split.
  - intros i x Hi Hf. destruct (table_safe _ _ Hfun ids _ Hps f _ k m i x (inv_procs _ _ _ _ Hinv) Hrun ltac:(lia) Hf)
      as [He|Hx]; [by left|right]. rewrite Hlk in Hx by done. by injection Hx.
  - intros Hbr Hctx. pose proof (tb_n _ _ Ht) as Hn.
    pose proof (attempt_work SC Hsched np stack Ht Hnp ids Hlen l Hl sks att Hkeys rs Hseated Henc q Hq e Hty Hv) as Hw.
    destruct (table_completes _ _ Hfun ids _ Hps f _ k m Hbr Hctx Hinv Hrun) as (k' & m' & Hrun' & Hfin); [nia|].
    exists k', m'. split; [done|]. intros i Hi. by apply Hfin, Hlk.
Qed.

(** C16: Dealing over messages.  At every table and for every final deck: whatever
    fails, a dealing goroutine that finished reports an error or has dealt its
    slot correctly, the owner with the slot's card and the others with none;
    and when nothing fails, from every point of every run all goroutines can
    still do so. *)
Theorem deal_over_messages ids ks sc pts f k m :
  table_ok ids ks → pts ≡ₚ buildOrderedDeck →
  nsteps (mesh_step f) k (table_mesh ids (all_deal_procs ids ks PRIME sc PRIME_prime pts)) m → Z.of_nat k < 2 ^ 63 →
  (∀ j i s r, deal_index ids !! j = Some (i, s) → finished (project m) j r →
     is_err r ∨ r = if decide (i = (s / 2)%nat) then Ok (Some (Z.of_nat s, of_bytes (pts !!! s))) else Ok None) ∧
  (conn_breaks f = false → ctx_ends f = false →
     ∃ k' m', nsteps (mesh_step f) k' m m' ∧
       ∀ j i s, deal_index ids !! j = Some (i, s) →
         finished (project m') j
           (if decide (i = (s / 2)%nat) then Ok (Some (Z.of_nat s, of_bytes (pts !!! s))) else Ok None)).
Proof.
  intros (Hnd & Hlen & Hsize & Hks) Hpts Hrun Hk. destruct (perm_deck pts Hpts) as (Hr & Hn & Hl).
  destruct (deal_net_inv ids ks PRIME sc Hnd Hlen ltac:(lia) PRIME_prime Hks pts Hr ltac:(lia))
    as (pls & Hinv & Hsnd & Hw).
  assert (Forall (λ p, p.1 ∈ ids) (all_deal_procs ids ks PRIME sc PRIME_prime pts)) as Hps.
  { apply list.Forall_forall. intros p ([i s] & -> & Hi)%list_elem_of_fmap.
    apply (elem_of_deal_index ids ks Hlen ltac:(lia) pts ltac:(lia)) in Hi as [Hi _].
    by eapply list_elem_of_lookup_2, list_lookup_lookup_total_lt. }
  assert (∀ j i s, deal_index ids !! j = Some (i, s) → (snd <$> pls) !! j = Some (hole_result pts i s)) as Hlk.
  { intros j i s Hj. by rewrite Hsnd, list_lookup_fmap, Hj. }
  pose proof (hole_ideal_fun ids ks PRIME Hnd Hlen ltac:(lia) ltac:(lia) PRIME_prime pts ltac:(lia)) as Hfun. split.
  - intros j i s r Hj Hf. destruct (table_safe _ _ Hfun ids _ Hps f _ k m j r (inv_procs _ _ _ _ Hinv) Hrun ltac:(lia) Hf)
      as [He|Hx]; [by left|right]. rewrite (Hlk j i s Hj) in Hx. by injection Hx.
  - intros Hbr Hctx.
    destruct (table_completes _ _ Hfun ids _ Hps f _ k m Hbr Hctx Hinv Hrun) as (k' & m' & Hrun' & Hfin); [nia|].
    exists k', m'. split; [done|]. intros j i s Hj. by apply Hfin, Hlk.
Qed.

(** ** Lost requests *)

Abbreviation frame_req := (frame_as (T:=EphemeralReadRequest) MsgEphemeralReadReq).
Abbreviation frame_resp := (frame_as (T:=EphemeralReadResponse) MsgEphemeralReadResp).

Section lost.
Context {A : Type}.
Implicit Types (m : mesh A).

(** Computation [i] of node [id] waits for the answer to request [r], and
    neither the request nor an answer is on its way. *)
Record unanswered (m : mesh A) (i : nat) (id r : string) : Prop := {
  un_waits : ∃ t key k b, mprocs m !! i = Some (id, PollRemote t key k, Waiting b r);
  un_channel : ∃ n, mnodes m !! id = Some n ∧ peerPending n !! r = Some None;
  un_req : ∀ to g req, (to, g) ∈ flight m → frame_req g = Some req → FNodeID g = id → ReqID req ≠ r;
  un_resp : ∀ g resp, (id, g) ∈ flight m → frame_resp g = Some resp → RespID resp ≠ r;
}.

Lemma unanswered_node m i id r id1 n1 n' :
  unanswered m i id r → mnodes m !! id1 = Some n1 →
  (id1 = id → peerPending n' !! r = peerPending n1 !! r) → unanswered (set_rnode id1 n' m) i id r.
Proof.
  intros [Hw (n & Hn & Hp) Hq Hs] Hn1 Hp'. constructor; [done| |done|done]. cbn.
  destruct (decide (id1 = id)) as [->|Hne].
  - exists n'. rewrite lookup_insert_eq. split; [done|]. rewrite Hp' by done. congruence.
  - exists n. by rewrite lookup_insert_ne.
Qed.

Lemma unanswered_proc m i id r j id1 p ph :
  unanswered m i id r → j ≠ i → unanswered (set_proc j id1 p ph m) i id r.
Proof.
  intros [(t & key & k & b & Hw) Hc Hq Hs] Hne. constructor; [|done..]. exists t, key, k, b. cbn.
  by rewrite list_lookup_insert_ne.
Qed.

Lemma unanswered_resume m i id r j id1 p ph n1 n' :
  unanswered m i id r → j ≠ i → mnodes m !! id1 = Some n1 →
  (id1 = id → peerPending n' !! r = peerPending n1 !! r) → unanswered (resume m j id1 p ph n') i id r.
Proof.
  intros Hu Hne Hn1 Hp. apply (unanswered_proc (set_rnode id1 n' m)); [|done]. by eapply unanswered_node.
Qed.

Lemma unanswered_flight m i id r fl :
  unanswered m i id r → (∀ p, p ∈ fl → p ∈ flight m ∨
    (∀ req, frame_req p.2 = Some req → FNodeID p.2 = id → ReqID req ≠ r) ∧
    (∀ resp, p.1 = id → frame_resp p.2 = Some resp → RespID resp ≠ r)) →
  unanswered (mkMesh (mnodes m) fl (mprocs m)) i id r.
Proof.
  intros [Hw Hc Hq Hs] Hfl. constructor; [done|done|..]; cbn [flight].
  - intros to g req Hin. destruct (Hfl _ Hin) as [Hin'|[Hg _]]; [by eapply Hq|apply Hg].
  - intros g resp Hin. destruct (Hfl _ Hin) as [Hin'|[_ Hg]]; [by eapply Hs|by apply Hg].
Qed.

Lemma unanswered_deliver m i id r j to g n n' out :
  unanswered m i id r → flight m !! j = Some (to, g) → mnodes m !! to = Some n → peer_frame n g = (n', out) →
  unanswered (push out (set_rnode to n' (take_packet j m))) i id r.
Proof.
  intros Hu Hj Hto Hpf. pose proof (list_elem_of_lookup_2 _ _ _ Hj) as Hin.
  assert (∀ p, p ∈ delete j (flight m) → p ∈ flight m) as Hsub
    by (intros p; apply (sublist_subseteq _ _ (sublist_delete _ _))).
  destruct (peer_frame_cases _ _ _ _ Hpf)
    as [[-> ->]|[(req & g' & Hg & -> & -> & Hty & Hg')|(resp & Hg & Hp & -> & ->)]].
  - apply (unanswered_flight (set_rnode to n m)); [by eapply unanswered_node|]. cbn. rewrite app_nil_r. auto.
  - apply (unanswered_flight (set_rnode to n m)); [by eapply unanswered_node|]. cbn.
    intros p [Hp| ->%list_elem_of_singleton]%elem_of_app; [auto|right]. cbn. split.
    + intros req' Hr%frame_as_type. by rewrite Hty in Hr.
    + intros resp Hfrom Hr. rewrite Hg' in Hr. injection Hr as <-. cbn. by eapply (un_req _ _ _ _ Hu).
  - apply (unanswered_flight (set_rnode to (set_pending (<[RespID resp := Some resp]> (peerPending n)) n) m));
      [|cbn; rewrite app_nil_r; auto].
    eapply unanswered_node; [done|done|]. intros ->. cbn. apply lookup_insert_ne. by eapply (un_resp _ _ _ _ Hu).
Qed.

Lemma unanswered_step f P B m m' i id r :
  mesh_inv P B m → B < 2 ^ 64 - 1 → ctx_ends f = false → unanswered m i id r → mesh_step f m m' →
  unanswered m' i id r.
Proof.
  intros Hinv HB Hf Hu Hstep. pose proof Hu as [(t0 & key0 & k0 & b0 & Hi) (n0 & Hn0 & Hp0) _ _].
  assert (waits m i id r) as Hwi by (by eexists _, _).
  assert (∀ n1 r1, mnodes m !! id = Some n1 → 0 ≤ requestCounter n1 < 2 ^ 64 - 1 →
    r1 = request_id (rn_id n1) (u64 (requestCounter n1 + 1)) → r1 ≠ r) as Hfresh.
  { intros n1 r1 Hn1 Hc -> Heq. destruct (mi_waits _ _ _ Hinv _ _ _ Hwi) as (n2 & Hn2 & Hiss). simplify_eq.
    by eapply issued_next. }
  assert (∀ id1 n1, mnodes m !! id1 = Some n1 → 0 ≤ requestCounter n1 < 2 ^ 64 - 1) as Hc.
  { intros id1 n1 Hn1. destruct (mi_node _ _ _ Hinv _ _ Hn1). lia. }
  destruct Hstep as
    [m j id1 p ph n p' s Hp Hn Ha|m j id1 t key k b n n' r1 pkt Hp Hn Hr|m j id1 t key k b n n' Hp Hn Hr
    |m j to frame n n' out Hj Hn Hpf|m j id1 t key k b r1 n resp n' Hp Hn Hr Hfd|m j id1 t key k b r1 n resp n' Hp Hn Hr Hfd
    |m j id1 p b n Hp Hn|m j id1 t key k b r1 n Hcx Hp Hn|m j id1 t key k b n Hcx Hp Hn|m id1 n Hn|m id1 n t Hn Ht Hne|m id1 n Hn
    |m j p Hb Hj|m id1 n t Hb Hn]; try (by rewrite Hf in Hcx).
  - eapply unanswered_resume; [done| |done|done]. intros ->. by simplify_eq.
  - apply ReadRemote_sent in Hr as (Hr & -> & g & -> & _ & Hfrom & Hty & Hg).
    destruct (mi_node _ _ _ Hinv _ _ Hn) as [Hid1 _].
    apply (unanswered_flight (resume m j id1 (PollRemote t key k) (Waiting b r1) _)).
    + eapply unanswered_resume; [done|intros ->; simplify_eq|done|]. intros ->. cbn. apply lookup_insert_ne.
      exact (Hfresh n r1 Hn (Hc _ _ Hn) Hr).
    + cbn. intros p [Hin| ->%list_elem_of_singleton]%elem_of_app; [auto|right]. cbn. split.
      * intros req Hq Hid. rewrite Hg in Hq. injection Hq as <-. cbn. assert (id1 = id) as -> by congruence.
        exact (Hfresh n r1 Hn (Hc _ _ Hn) Hr).
      * intros resp _ Hq%frame_as_type. by rewrite Hty in Hq.
  - eapply unanswered_resume; [done|intros ->; simplify_eq|done|]. intros ->. unfold ReadRemote, nextRequestID in Hr.
    destruct (Send _ _ _ _); [done|]. injection Hr as <-. cbn. rewrite delete_insert_eq. apply lookup_delete_ne.
    exact (Hfresh n _ Hn (Hc _ _ Hn) eq_refl).
  - by eapply unanswered_deliver.
  - apply ReadRemote_recv_Some in Hr as [Hr ->]. assert (j ≠ i) as Hji by (intros ->; simplify_eq).
    eapply unanswered_resume; [done|done|done|]. intros ->. cbn. apply lookup_delete_ne. intros ->.
    apply Hji. eapply (mi_uniq _ _ _ Hinv); [|done]. by eexists _, _.
  - apply ReadRemote_recv_Some in Hr as [Hr ->]. assert (j ≠ i) as Hji by (intros ->; simplify_eq).
    eapply unanswered_resume; [done|done|done|]. intros ->. cbn. apply lookup_delete_ne. intros ->.
    apply Hji. eapply (mi_uniq _ _ _ Hinv); [|done]. by eexists _, _.
  - eapply unanswered_resume; [done|intros ->; simplify_eq|done|done].
  - by eapply unanswered_node.
  - by eapply unanswered_node.
  - by eapply unanswered_node.
  - apply unanswered_flight; [done|]. intros q Hq. left. by eapply (sublist_subseteq _ _ (sublist_delete _ _)).
  - by eapply unanswered_node.
Qed.

(** A lost request is never repeated.  When the request of a poll and its
    answer are gone (a frame of a broken connection, a request that reached a
    node before [InitEphemeralHandlers]), the poll waits until its context
    ends: no run without that, however the connections recover, lets it return
    or ask again. *)
Theorem lost_request_waits f g B k k' m0 m m' i id r :
  fresh_mesh B m0 → nsteps (mesh_step g) k m0 m → unanswered m i id r → ctx_ends f = false →
  nsteps (mesh_step f) k' m m' → B + Z.of_nat (k + k') < 2 ^ 64 → unanswered m' i id r.
Proof.
  intros Hm0 Hk Hu Hf Hk' HB.
  assert (mesh_inv (λ _ _ _ _, True) (B + Z.of_nat k) m) as Hinv.
  { eapply reachable_inv; [by apply fresh_mesh_inv|done|lia]. }
  assert (B + Z.of_nat k + Z.of_nat k' < 2 ^ 64) as HB' by lia. clear HB Hk.
  revert Hinv HB'. generalize (B + Z.of_nat k). induction Hk' as [m|k' m m1 m' Hs Hrun IH]; intros B' Hinv HB'; [done|].
  apply (IH) with (z := B' + 1); [eapply (unanswered_step f _ B'); [done|lia|done..]| |lia].
  eapply mesh_step_inv; [done|lia|done|done..].
Qed.

(** ** Forged responses *)

(** A response is taken from anybody.  Whoever sends it: a peer message with
    the id of an open request fills the request's channel, and the poll
    returns its value.  Request ids are the node's id and a counter. *)
Theorem forged_response_accepted n g resp :
  handling n = true → frame_resp g = Some resp → peerPending n !! RespID resp = Some None →
  ∃ n', peer_frame n g = (n', []) ∧ ReadRemote_recv (RespID resp) n' = Some (resp, ReadRemote_done (RespID resp) n').
Proof.
  intros Hh Hg Hp. exists (set_pending (<[RespID resp := Some resp]> (peerPending n)) n).
  split; [by apply peer_frame_takes|]. unfold ReadRemote_recv. cbn. by rewrite lookup_insert_eq.
Qed.

End lost.

End games.

(** ** Concrete runs *)

#[export] Instance read_req_eq_dec : EqDecision EphemeralReadRequest.
Proof. solve_decision. Defined.
#[export] Instance read_req_countable : Countable EphemeralReadRequest.
Proof. refine (inj_countable' (λ r, (ReqID r, ReqKey r)) (λ p, mkReadReq p.1 p.2) _). by intros []. Defined.
#[export] Instance read_resp_eq_dec : EqDecision EphemeralReadResponse.
Proof. solve_decision. Defined.
#[export] Instance read_resp_countable : Countable EphemeralReadResponse.
Proof.
  refine (inj_countable' (λ r, (RespID r, RespKey r, Value r, Found r))
    (λ p, let '(r, k, v, b) := p in mkReadResp r k v b) _). by intros [].
Defined.

#[local] Instance req_codec : Codec EphemeralReadRequest := countable_codec EphemeralReadRequest.
#[local] Instance req_codec_laws : CodecLaws EphemeralReadRequest := countable_codec_laws EphemeralReadRequest.
#[local] Instance resp_codec : Codec EphemeralReadResponse := countable_codec EphemeralReadResponse.
#[local] Instance resp_codec_laws : CodecLaws EphemeralReadResponse := countable_codec_laws EphemeralReadResponse.

Definition healthy : faults := mkFaults false false.
Definition faulty : faults := mkFaults true true.

(** Alice hosts a value, Bob polls for it. *)
Definition seven_procs : list (string * act (option (list Z))) :=
  [("alice", Host "k" [7] (Ret None)); ("bob", PollRemote "alice" "k" (λ v, Ret v))].
Definition seven_mesh : mesh (option (list Z)) := table_mesh ["alice"; "bob"] seven_procs.

(** Bob asks before the value is hosted, sleeps, and asks again. *)
Definition seven_schedule : list label :=
  [LSend 1; LDeliver 0; LDeliver 0; LTake 1; LOwn 0; LWake 1; LSend 1; LDeliver 0; LDeliver 0; LTake 1]%nat.

Example seven_read : (mprocs (mesh_end seven_schedule seven_mesh) !! 1%nat) = Some ("bob", Ret (Some [7]), Reading 50).
Proof. vm_compute. reflexivity. Qed.

Definition seven_ideal (id key : string) (v : list Z) (j : nat) : Prop := id = "alice" ∧ key = "k" ∧ v = [7] ∧ j = 0%nat.
Definition seven_results : list (option (list Z)) := [None; Some [7]].

Lemma seven_safe : safe_inv seven_ideal (λ r, r = None) seven_results (project seven_mesh).
Proof.
  unfold seven_mesh. destruct (table_project ["alice"; "bob"] seven_procs) as (ss & -> & Hss). apply safe_inv_empty; [done|].
  split; [done|].
  constructor; [|constructor; [|constructor]]; left; cbn.
  - exists [EHost "k" 0]. repeat constructor.
  - exists [EPoll "alice" "k" 0]. apply (follows_poll _ _ _ _ _ _ [7]); [done|done|constructor|done].
Qed.

Lemma seven_fresh : fresh_mesh 0 seven_mesh.
Proof. apply table_fresh. repeat constructor. Qed.



(** The poll of the second request, from Bob's waking up to the answer. *)
Lemma poll_linearizable_witness :
  ∃ m1, m1 ∈ [mesh_end (take 6 seven_schedule) seven_mesh; mesh_end (take 7 seven_schedule) seven_mesh;
              mesh_end (take 8 seven_schedule) seven_mesh; mesh_end (take 9 seven_schedule) seven_mesh] ∧
    hosted m1 "alice" "k" [7].
Proof.
  assert (∀ j, (6 ≤ j < 9)%nat → mesh_step faulty (mesh_end (take j seven_schedule) seven_mesh)
    (mesh_end (take (S j) seven_schedule) seven_mesh)) as Hstep.
  { intros j Hj. destruct (decide (j = 6%nat)) as [->|]; [|destruct (decide (j = 7%nat)) as [->|];
      [|replace j with 8%nat by lia]]; [apply (mesh_next_step faulty (LSend 1))|apply (mesh_next_step faulty (LDeliver 0))..];
      vm_compute; reflexivity. }
  apply (poll_linearizable faulty 0 6 seven_mesh (mesh_end (take 6 seven_schedule) seven_mesh)
    [mesh_end (take 6 seven_schedule) seven_mesh; mesh_end (take 7 seven_schedule) seven_mesh;
     mesh_end (take 8 seven_schedule) seven_mesh; mesh_end (take 9 seven_schedule) seven_mesh]
    (mesh_end (take 9 seven_schedule) seven_mesh) 1 "bob" "alice" "k" (λ v, Ret v) 100 100 "bob-2"
    (default (table_node [] "bob") (mnodes (mesh_end (take 9 seven_schedule) seven_mesh) !! "bob"))
    (mkReadResp "bob-2" "k" [7] true)
    (ReadRemote_done "bob-2"
      (default (table_node [] "bob") (mnodes (mesh_end (take 9 seven_schedule) seven_mesh) !! "bob")))).
  - apply seven_fresh.
  - apply (mesh_end_run faulty (take 6 seven_schedule)). vm_compute. reflexivity.
  - vm_compute. reflexivity.
  - apply (run_step faulty _ [_; _; _] (mesh_end (take 8 seven_schedule) seven_mesh)); [|apply Hstep; lia].
    apply (run_step faulty _ [_; _] (mesh_end (take 7 seven_schedule) seven_mesh)); [|apply Hstep; lia].
    apply (run_step faulty _ [_] (mesh_end (take 6 seven_schedule) seven_mesh)); [|apply Hstep; lia].
    apply run_here.
  - cbn [length]. lia.
  - vm_compute. reflexivity.
  - vm_compute. reflexivity.
  - vm_compute. reflexivity.
  - reflexivity.
Defined.

(** Alice has not yet received the game start: her node drops Bob's request. *)
Definition early_mesh : mesh (option (list Z)) :=
  set_rnode "alice" (mkRNode "alice" ∅ {["bob"]} false 0 ∅) seven_mesh.

Lemma early_fresh : fresh_mesh 0 early_mesh.
Proof.
  destruct seven_fresh as [Hf Hp Hn]. constructor; [done| |].
  - intros i id p ph Hi. destruct (Hp i id p ph Hi) as [Hs ->]. split; [|done]. cbn.
    destruct (decide (id = "alice")) as [->|Hne]; [rewrite lookup_insert_eq; by eexists|].
    by rewrite lookup_insert_ne.
  - intros id n Hid. cbn in Hid. apply lookup_insert_Some in Hid as [[<- <-]|[_ Hn']]; [|by apply Hn].
    split_and!; [done|cbn; lia..|done].
Qed.

Definition dropped_mesh : mesh (option (list Z)) := mesh_end [LSend 1; LDeliver 0]%nat early_mesh.

Lemma dropped_unanswered : unanswered dropped_mesh 1 "bob" "bob-1".
Proof.
  constructor.
  - exists "alice", "k", (λ v, Ret v), 50. vm_compute. reflexivity.
  - exists (mkRNode "bob" ∅ {["alice"]} true 1 {["bob-1" := None]}). split; vm_compute; reflexivity.
  - intros to g req Hin. change (flight dropped_mesh) with (@nil packet) in Hin. by apply elem_of_nil in Hin.
  - intros g resp Hin. change (flight dropped_mesh) with (@nil packet) in Hin. by apply elem_of_nil in Hin.
Qed.

(** Alice hosts the value, and Bob still waits. *)
Lemma lost_request_waits_witness :
  unanswered (mesh_end [LOwn 0]%nat dropped_mesh) 1 "bob" "bob-1".
Proof.
  apply (lost_request_waits healthy healthy 0 2 1 early_mesh dropped_mesh).
  - apply early_fresh.
  - apply (mesh_end_run healthy [LSend 1; LDeliver 0]%nat). vm_compute. reflexivity.
  - apply dropped_unanswered.
  - reflexivity.
  - apply (mesh_end_run healthy [LOwn 0]%nat). vm_compute. reflexivity.
  - lia.
Defined.

(** Mallory answers Bob's request to Alice. *)
Definition mallory : RNode := mkRNode "mallory" ∅ {["bob"]} true 0 ∅.
Definition forged : EphemeralReadResponse := mkReadResp "bob-1" "k" [13] true.
Definition forged_frame : Frame :=
  message_frame mallory MsgEphemeralReadResp (default [] (gob_encode forged)).
Definition waiting_bob : RNode := mkRNode "bob" ∅ {["alice"; "mallory"]} true 1 {["bob-1" := None]}.

Lemma forged_response_accepted_witness :
  ∃ n', peer_frame waiting_bob forged_frame = (n', []) ∧
    ReadRemote_recv "bob-1" n' = Some (forged, ReadRemote_done "bob-1" n').
Proof.
  apply (forged_response_accepted waiting_bob forged_frame forged).
  - reflexivity.
  - vm_compute. reflexivity.
  - vm_compute. reflexivity.
Defined.

Lemma deal_over_messages_witness :
  ∃ k' m', nsteps (mesh_step healthy) k' (table_mesh two_ids (all_deal_procs two_ids two_keys PRIME two_rules PRIME_prime buildOrderedDeck)) m' ∧
    finished (project m') 7 (Ok (Some (3, "4"%string))).
Proof.
  destruct (deal_over_messages two_ids two_keys two_rules buildOrderedDeck healthy 0
    (table_mesh two_ids (all_deal_procs two_ids two_keys PRIME two_rules PRIME_prime buildOrderedDeck)) two_table_ok
    (Permutation_refl _) (nsteps_O _ _) ltac:(lia)) as [_ Hcomplete].
  destruct (Hcomplete eq_refl eq_refl) as (k' & m' & Hrun & Hfin). exists k', m'. split; [exact Hrun|].
  exact (Hfin 7%nat 1%nat 3%nat eq_refl).
Defined.

#[local] Existing Instances toy_scheme toy_laws entry_codec entry_codec_laws receipt_codec.

Lemma round_over_messages_witness :
  ∃ k' m', nsteps (mesh_step healthy) k'
      (table_mesh three_ids (attempt_procs (λ _, in_order) three_ids three_log 0 three_runner three_acts)) m' ∧
    finished (project m') 2
      (Ok (set_log (Append three_log (three_entry raise_50)) (three_runner 2), attemptCommitted, NoReason)).
Proof.
  destruct (round_over_messages 3 100 (λ _, in_order) three_ids three_log three_sks three_runner 0 0 raise_50
    (three_entry raise_50) three_acts healthy 0
    (table_mesh three_ids (attempt_procs (λ _, in_order) three_ids three_log 0 three_runner three_acts))
    three_ready (nsteps_O _ _) ltac:(lia)) as [_ Hcomplete].
  destruct (Hcomplete eq_refl eq_refl) as (k' & m' & Hrun & Hfin). exists k', m'. split; [exact Hrun|].
  apply Hfin. cbn. lia.
Defined.
