(* ===== verification/Client.v ===== *)
(** * The node's side of the dispatch connection
      ([internal/peer/dispatch.go], [internal/peer/node.go])

    A node attached to a dispatch server has one goroutine that reads the
    connection ([dispatchReadLoop]) and any number of goroutines that wait for
    responses ([dispatchRequest]); [DetachDispatch] may run beside them.  The
    memory they share is a [Client]; each goroutine is where it is in its code,
    and a step of it is what it does under one lock, or on one channel or
    connection.  A [world] is the memory with all goroutines, and [world_step]
    lets any of them, or the network, take the next step. *)

From Stdlib Require Import ZArith Lia.
From stdpp Require Import base list gmap strings numbers relations.
From S2P Require Import Prelude Strconv Ephemeral Deck Peer Dispatch Remote.

#[local] Open Scope Z_scope.

(** ** Memory *)

(** A channel of capacity one. *)
Record chan := mkChan { cbuf : option Frame; cclosed : bool }.

(** A connection to a server: the frames that have arrived, and whether it is
    closed on either side. *)
Record dconn := mkDConn { inbox : list Frame; broken : bool }.

Record Client := mkClient {
  cnode : Node;
  cstore : Store;
  dispatchConn : option nat;
  csession : string;
  pending : gmap string nat;
  ccounter : Z;
  cpeers : gset string;
  peerPKs : gmap string (list Z);
  cpk : list Z;
  cpeerAddr : string;
  prefNodeID : string;
  chans : list chan;
  dconns : list dconn;
}.

Definition set_cnode (n : Node) (c : Client) : Client :=
  mkClient n (cstore c) (dispatchConn c) (csession c) (pending c) (ccounter c) (cpeers c) (peerPKs c) (cpk c)
    (cpeerAddr c) (prefNodeID c) (chans c) (dconns c).
Definition set_conn (o : option nat) (c : Client) : Client :=
  mkClient (cnode c) (cstore c) o (csession c) (pending c) (ccounter c) (cpeers c) (peerPKs c) (cpk c)
    (cpeerAddr c) (prefNodeID c) (chans c) (dconns c).
Definition set_session (s : string) (c : Client) : Client :=
  mkClient (cnode c) (cstore c) (dispatchConn c) s (pending c) (ccounter c) (cpeers c) (peerPKs c) (cpk c)
    (cpeerAddr c) (prefNodeID c) (chans c) (dconns c).
Definition set_pending (p : gmap string nat) (c : Client) : Client :=
  mkClient (cnode c) (cstore c) (dispatchConn c) (csession c) p (ccounter c) (cpeers c) (peerPKs c) (cpk c)
    (cpeerAddr c) (prefNodeID c) (chans c) (dconns c).
Definition set_counter (v : Z) (c : Client) : Client :=
  mkClient (cnode c) (cstore c) (dispatchConn c) (csession c) (pending c) v (cpeers c) (peerPKs c) (cpk c)
    (cpeerAddr c) (prefNodeID c) (chans c) (dconns c).
Definition set_cpeers (ps : gset string) (c : Client) : Client :=
  mkClient (cnode c) (cstore c) (dispatchConn c) (csession c) (pending c) (ccounter c) ps (peerPKs c) (cpk c)
    (cpeerAddr c) (prefNodeID c) (chans c) (dconns c).
Definition set_chans (cs : list chan) (c : Client) : Client :=
  mkClient (cnode c) (cstore c) (dispatchConn c) (csession c) (pending c) (ccounter c) (cpeers c) (peerPKs c) (cpk c)
    (cpeerAddr c) (prefNodeID c) cs (dconns c).
Definition set_dconns (ds : list dconn) (c : Client) : Client :=
  mkClient (cnode c) (cstore c) (dispatchConn c) (csession c) (pending c) (ccounter c) (cpeers c) (peerPKs c) (cpk c)
    (cpeerAddr c) (prefNodeID c) (chans c) ds.
Definition set_cstore (s : Store) (c : Client) : Client :=
  mkClient (cnode c) s (dispatchConn c) (csession c) (pending c) (ccounter c) (cpeers c) (peerPKs c) (cpk c)
    (cpeerAddr c) (prefNodeID c) (chans c) (dconns c).

Definition set_id (id : string) (n : Node) : Node :=
  mkNode id (modKey n) (prime n) (Started n) (FinalDeck n) (Order n) (SeatIdx n) (card1 n) (card2 n)
    (money n) (sessionConfig n) (community n).

Definition IsAttached (c : Client) : bool := bool_decide (is_Some (dispatchConn c)).
Definition ID (c : Client) : string := nid (cnode c).
Definition SetPeerPK (id : string) (pk : list Z) (c : Client) : Client :=
  mkClient (cnode c) (cstore c) (dispatchConn c) (csession c) (pending c) (ccounter c) (cpeers c)
    (<[id := pk]> (peerPKs c)) (cpk c) (cpeerAddr c) (prefNodeID c) (chans c) (dconns c).

Definition nextRequestID (c : Client) : string * Client :=
  let v := u64 (ccounter c + 1) in (request_id (ID c) v, set_counter v c).

(** [New], once the listener is up and the SRA key generated. *)
Definition NewNode (addr pref : string) (pk : list Z) (key : Key) : Client :=
  mkClient (mkNode "" key PRIME false [] [] (-1) "" "" 0 (mkSessionConfig 0 0) []) ∅ None "" ∅ 0 ∅ ∅ pk addr pref [] [].

(** Closing a connection. *)
Definition close_conn (d : nat) (c : Client) : Client :=
  set_dconns (alter (λ x, mkDConn (inbox x) true) d (dconns c)) c.

(** [close(ch)] for every waiting channel, and all entries deleted. *)
Definition closeAllPending (c : Client) : Client :=
  set_pending ∅ (set_chans (imap (λ ch x, if decide (ch ∈ (map_to_list (pending c)).*2) then mkChan (cbuf x) true else x)
                              (chans c)) c).

(** ** dispatchRequest *)

Inductive call_err := NotAttached | SendFailed | ConnClosed | CtxDone.

(** Where a call is; [Done] keeps the request id and what is returned. *)
Inductive call :=
| CallStart (f : Frame)
| CallAttached (f : Frame)
| CallRegistered (f : Frame) (ch : nat)
| CallWaiting (requestID : string) (ch : nat)
| CallDone (requestID : string) (r : res call_err Frame).

Definition with_request (f : Frame) (requestID : string) : Frame :=
  mkFrame (Kind f) requestID (FNodeID f) (FSessionID f) (FPeerAddr f) (MessageType f) (Payload f) (Success f)
    (Error f) (PeerIDs f) (PeerAddresses f) (SessionIDs f) (LeaseExpiresUnix f) (PublicKey f)
    (TimeoutIntervalMS f) (FMaxAttempts f).

(** Returning runs the deferred deletion. *)
Definition finish_call (requestID : string) (r : res call_err Frame) (c : Client) : Client * call :=
  (set_pending (delete requestID (pending c)) c, CallDone requestID r).

Inductive call_step (c : Client) : call → Client → call → list (nat * Frame) → Prop :=
| call_not_attached f :
    IsAttached c = false → call_step c (CallStart f) c (CallDone "" (Err NotAttached)) []
| call_attached f :
    IsAttached c = true → call_step c (CallStart f) c (CallAttached f) []
| call_register f requestID c' :
    nextRequestID c = (requestID, c') →
    call_step c (CallAttached f)
      (set_pending (<[requestID := length (chans c')]> (pending c')) (set_chans (chans c' ++ [mkChan None false]) c'))
      (CallRegistered (with_request f requestID) (length (chans c'))) []
| call_detached f ch c' k' :
    dispatchConn c = None → finish_call (RequestID f) (Err NotAttached) c = (c', k') →
    call_step c (CallRegistered f ch) c' k' []
| call_send f ch d x :
    dispatchConn c = Some d → dconns c !! d = Some x → broken x = false →
    call_step c (CallRegistered f ch) c (CallWaiting (RequestID f) ch) [(d, f)]
| call_send_fails f ch d x c' k' :
    dispatchConn c = Some d → dconns c !! d = Some x → broken x = true →
    finish_call (RequestID f) (Err SendFailed) c = (c', k') → call_step c (CallRegistered f ch) c' k' []
| call_response requestID ch x f c' k' :
    chans c !! ch = Some x → cbuf x = Some f →
    finish_call requestID (Ok f) (set_chans (<[ch := mkChan None (cclosed x)]> (chans c)) c) = (c', k') →
    call_step c (CallWaiting requestID ch) c' k' []
| call_closed requestID ch x c' k' :
    chans c !! ch = Some x → cbuf x = None → cclosed x = true → finish_call requestID (Err ConnClosed) c = (c', k') →
    call_step c (CallWaiting requestID ch) c' k' []
| call_ctx requestID ch c' k' :
    finish_call requestID (Err CtxDone) c = (c', k') → call_step c (CallWaiting requestID ch) c' k' [].

(** ** dispatchReadLoop

    At [Receive] on its connection, or about to send a frame on a channel. *)
Inductive loop := LoopReceive (d : nat) | LoopSend (d ch : nat) (f : Frame) | LoopEnded.

(** The push frames. *)
Definition handle_push (f : Frame) (c : Client) : Client :=
  if decide (Kind f = KindGameStart)
  then set_cnode (GameStart (cnode c) (PeerIDs f) (TimeoutIntervalMS f) (FMaxAttempts f)) c
  else c.

(** [Panic] is the send on a closed channel. *)
Inductive loop_step (c : Client) : loop → res Empty_set (Client * loop) → Prop :=
| loop_error d x :
    dconns c !! d = Some x → broken x = true →
    loop_step c (LoopReceive d) (Ok (closeAllPending c, LoopEnded))
| loop_response d x f fs ch :
    dconns c !! d = Some x → inbox x = f :: fs → RequestID f ≠ "" → pending c !! RequestID f = Some ch →
    loop_step c (LoopReceive d) (Ok (set_dconns (<[d := mkDConn fs (broken x)]> (dconns c)) c, LoopSend d ch f))
| loop_push d x f fs :
    dconns c !! d = Some x → inbox x = f :: fs → (RequestID f = "" ∨ pending c !! RequestID f = None) →
    loop_step c (LoopReceive d)
      (Ok (handle_push f (set_dconns (<[d := mkDConn fs (broken x)]> (dconns c)) c), LoopReceive d))
| loop_send d ch f x :
    chans c !! ch = Some x → cclosed x = false → cbuf x = None →
    loop_step c (LoopSend d ch f) (Ok (set_chans (<[ch := mkChan (Some f) false]> (chans c)) c, LoopReceive d))
| loop_send_closed d ch f x :
    chans c !! ch = Some x → cclosed x = true → loop_step c (LoopSend d ch f) Panic.

(** ** DetachDispatch, one lock after the other *)

Inductive detach :=
| DetachStart
| DetachClose (d : nat)
| DetachPending
| DetachPeers
| DetachSession
| DetachReset
| DetachDone.

Definition detach_step (p : detach) (c : Client) : Client * detach :=
  match p with
  | DetachStart =>
      let c' := set_conn None (set_cnode (set_id "" (cnode c)) c) in
      match dispatchConn c with None => (c', DetachDone) | Some d => (c', DetachClose d) end
  | DetachClose d => (close_conn d c, DetachPending)
  | DetachPending => (closeAllPending c, DetachPeers)
  | DetachPeers => (set_cpeers ∅ c, DetachSession)
  | DetachSession => (set_session "" c, DetachReset)
  | DetachReset =>
      let '(n, s) := resetGameState (cnode c) (cstore c) in (set_cstore s (set_cnode n c), DetachDone)
  | DetachDone => (c, DetachDone)
  end.

(** ** AttachDispatch *)

Inductive attach_err := ErrNoAddress | ErrAlreadyAttached | ErrDial | ErrRegisterSend | ErrRegisterReceive
  | ErrRegisterKind | ErrRegisterRefused (e : string).

Inductive attach := AttachStart (addr : string) | AttachDial | AttachRegister (d : nat)
  | AttachDone (r : res attach_err unit).

Definition register_frame (c : Client) : Frame :=
  mkFrame KindRegisterReq "" (prefNodeID c) "" (cpeerAddr c) "" [] false "" [] [] [] 0 [] 0 0.

(** The response to the registration; the last component is a new read loop. *)
Definition attach_response (d : nat) (resp : Frame) (c : Client) : Client * attach * list loop :=
  if negb (bool_decide (Kind resp = KindRegisterResp)) then (close_conn d c, AttachDone (Err ErrRegisterKind), [])
  else if negb (Success resp) then (close_conn d c, AttachDone (Err (ErrRegisterRefused (Error resp))), [])
  else
    match dispatchConn c with
    | Some _ => (close_conn d c, AttachDone (Err ErrAlreadyAttached), [])
    | None =>
        (SetPeerPK (FNodeID resp) (cpk c) (set_conn (Some d) (set_cnode (set_id (FNodeID resp) (cnode c)) c)),
         AttachDone (Ok tt), [LoopReceive d])
    end.

Inductive attach_step (c : Client) : attach → Client → attach → list loop → list (nat * Frame) → Prop :=
| attach_no_address : attach_step c (AttachStart "") c (AttachDone (Err ErrNoAddress)) [] []
| attach_already addr :
    addr ≠ "" → dispatchConn c ≠ None → attach_step c (AttachStart addr) c (AttachDone (Err ErrAlreadyAttached)) [] []
| attach_dial addr :
    addr ≠ "" → dispatchConn c = None → attach_step c (AttachStart addr) c AttachDial [] []
| attach_dial_fails : attach_step c AttachDial c (AttachDone (Err ErrDial)) [] []
| attach_connect :
    attach_step c AttachDial (set_dconns (dconns c ++ [mkDConn [] false]) c) (AttachRegister (length (dconns c)))
      [] [(length (dconns c), register_frame c)]
| attach_send_fails :
    attach_step c AttachDial (close_conn (length (dconns c)) (set_dconns (dconns c ++ [mkDConn [] false]) c))
      (AttachDone (Err ErrRegisterSend)) [] []
| attach_refused d x :
    dconns c !! d = Some x → broken x = true →
    attach_step c (AttachRegister d) (close_conn d c) (AttachDone (Err ErrRegisterReceive)) [] []
| attach_registered d x f fs c' a' ls :
    dconns c !! d = Some x → inbox x = f :: fs →
    attach_response d f (set_dconns (<[d := mkDConn fs (broken x)]> (dconns c)) c) = (c', a', ls) →
    attach_step c (AttachRegister d) c' a' ls [].

(** ** The world *)

Record world := mkWorld {
  mem : Client;
  loops : list loop;
  calls : list call;
  detachers : list detach;
  attachers : list attach;
  outgoing : list (nat * Frame);
  crashed : bool;
}.

Inductive world_step : world → world → Prop :=
| w_call w i k c' k' out :
    crashed w = false → calls w !! i = Some k → call_step (mem w) k c' k' out →
    world_step w (mkWorld c' (loops w) (<[i := k']> (calls w)) (detachers w) (attachers w) (outgoing w ++ out) false)
| w_loop w i l c' l' :
    crashed w = false → loops w !! i = Some l → loop_step (mem w) l (Ok (c', l')) →
    world_step w (mkWorld c' (<[i := l']> (loops w)) (calls w) (detachers w) (attachers w) (outgoing w) false)
| w_panic w i l :
    crashed w = false → loops w !! i = Some l → loop_step (mem w) l Panic →
    world_step w (mkWorld (mem w) (loops w) (calls w) (detachers w) (attachers w) (outgoing w) true)
| w_detach w i p :
    crashed w = false → detachers w !! i = Some p →
    world_step w (mkWorld (detach_step p (mem w)).1 (loops w) (calls w) (<[i := (detach_step p (mem w)).2]> (detachers w))
                    (attachers w) (outgoing w) false)
| w_attach w i a c' a' ls out :
    crashed w = false → attachers w !! i = Some a → attach_step (mem w) a c' a' ls out →
    world_step w (mkWorld c' (loops w ++ ls) (calls w) (detachers w) (<[i := a']> (attachers w)) (outgoing w ++ out) false)
| w_request w f :
    crashed w = false →
    world_step w (mkWorld (mem w) (loops w) (calls w ++ [CallStart f]) (detachers w) (attachers w) (outgoing w) false)
| w_start_detach w :
    crashed w = false →
    world_step w (mkWorld (mem w) (loops w) (calls w) (detachers w ++ [DetachStart]) (attachers w) (outgoing w) false)
| w_start_attach w addr :
    crashed w = false →
    world_step w (mkWorld (mem w) (loops w) (calls w) (detachers w) (attachers w ++ [AttachStart addr]) (outgoing w) false)
| w_arrive w d x f :
    crashed w = false → dconns (mem w) !! d = Some x → broken x = false →
    world_step w (mkWorld (set_dconns (<[d := mkDConn (inbox x ++ [f]) false]> (dconns (mem w))) (mem w))
                    (loops w) (calls w) (detachers w) (attachers w) (outgoing w) false)
| w_break w d :
    crashed w = false →
    world_step w (mkWorld (close_conn d (mem w)) (loops w) (calls w) (detachers w) (attachers w) (outgoing w) false).

Definition start_world (c : Client) : world := mkWorld c [] [] [] [] [] false.

(** ** Running a world

    An executable scheduler: what a goroutine does next when its context does
    not end, its dialling succeeds and its connection works. *)

Definition call_run (c : Client) (k : call) : option (Client * call * list (nat * Frame)) :=
  match k with
  | CallStart f => Some (if IsAttached c then (c, CallAttached f, []) else (c, CallDone "" (Err NotAttached), []))
  | CallAttached f =>
      let '(requestID, c') := nextRequestID c in
      Some (set_pending (<[requestID := length (chans c')]> (pending c')) (set_chans (chans c' ++ [mkChan None false]) c'),
            CallRegistered (with_request f requestID) (length (chans c')), [])
  | CallRegistered f ch =>
      match dispatchConn c with
      | None => let '(c', k') := finish_call (RequestID f) (Err NotAttached) c in Some (c', k', [])
      | Some d =>
          x ← dconns c !! d;
          if broken x then let '(c', k') := finish_call (RequestID f) (Err SendFailed) c in Some (c', k', [])
          else Some (c, CallWaiting (RequestID f) ch, [(d, f)])
      end
  | CallWaiting r ch =>
      x ← chans c !! ch;
      match cbuf x with
      | Some f =>
          let '(c', k') := finish_call r (Ok f) (set_chans (<[ch := mkChan None (cclosed x)]> (chans c)) c) in
          Some (c', k', [])
      | None => if cclosed x then let '(c', k') := finish_call r (Err ConnClosed) c in Some (c', k', []) else None
      end
  | CallDone _ _ => None
  end.

Definition loop_run (c : Client) (l : loop) : option (res Empty_set (Client * loop)) :=
  match l with
  | LoopReceive d =>
      x ← dconns c !! d;
      match inbox x with
      | [] => if broken x then Some (Ok (closeAllPending c, LoopEnded)) else None
      | f :: fs =>
          let c' := set_dconns (<[d := mkDConn fs (broken x)]> (dconns c)) c in
          if decide (RequestID f = "") then Some (Ok (handle_push f c', LoopReceive d))
          else match pending c !! RequestID f with
               | Some ch => Some (Ok (c', LoopSend d ch f))
               | None => Some (Ok (handle_push f c', LoopReceive d))
               end
      end
  | LoopSend d ch f =>
      x ← chans c !! ch;
      if cclosed x then Some Panic
      else match cbuf x with
           | None => Some (Ok (set_chans (<[ch := mkChan (Some f) false]> (chans c)) c, LoopReceive d))
           | Some _ => None
           end
  | LoopEnded => None
  end.

Definition attach_run (c : Client) (a : attach) : option (Client * attach * list loop * list (nat * Frame)) :=
  match a with
  | AttachStart addr =>
      if decide (addr = "") then Some (c, AttachDone (Err ErrNoAddress), [], [])
      else match dispatchConn c with
           | Some _ => Some (c, AttachDone (Err ErrAlreadyAttached), [], [])
           | None => Some (c, AttachDial, [], [])
           end
  | AttachDial =>
      Some (set_dconns (dconns c ++ [mkDConn [] false]) c, AttachRegister (length (dconns c)), [],
            [(length (dconns c), register_frame c)])
  | AttachRegister d =>
      x ← dconns c !! d;
      match inbox x with
      | [] => None
      | f :: fs =>
          let '(c', a', ls) := attach_response d f (set_dconns (<[d := mkDConn fs (broken x)]> (dconns c)) c) in
          Some (c', a', ls, [])
      end
  | AttachDone _ => None
  end.

Inductive wlabel := WCall (i : nat) | WLoop (i : nat) | WDetach (i : nat) | WAttach (i : nat) | WRequest (f : Frame)
  | WStartDetach | WStartAttach (addr : string) | WArrive (d : nat) (f : Frame) | WBreak (d : nat).

Definition world_next (l : wlabel) (w : world) : option world :=
  if crashed w then None
  else
    match l with
    | WCall i =>
        k ← calls w !! i; '(c', k', out) ← call_run (mem w) k;
        Some (mkWorld c' (loops w) (<[i := k']> (calls w)) (detachers w) (attachers w) (outgoing w ++ out) false)
    | WLoop i =>
        l ← loops w !! i; r ← loop_run (mem w) l;
        match r with
        | Ok (c', l') => Some (mkWorld c' (<[i := l']> (loops w)) (calls w) (detachers w) (attachers w) (outgoing w) false)
        | _ => Some (mkWorld (mem w) (loops w) (calls w) (detachers w) (attachers w) (outgoing w) true)
        end
    | WDetach i =>
        p ← detachers w !! i;
        Some (mkWorld (detach_step p (mem w)).1 (loops w) (calls w) (<[i := (detach_step p (mem w)).2]> (detachers w))
                (attachers w) (outgoing w) false)
    | WAttach i =>
        a ← attachers w !! i; '(c', a', ls, out) ← attach_run (mem w) a;
        Some (mkWorld c' (loops w ++ ls) (calls w) (detachers w) (<[i := a']> (attachers w)) (outgoing w ++ out) false)
    | WRequest f =>
        Some (mkWorld (mem w) (loops w) (calls w ++ [CallStart f]) (detachers w) (attachers w) (outgoing w) false)
    | WStartDetach =>
        Some (mkWorld (mem w) (loops w) (calls w) (detachers w ++ [DetachStart]) (attachers w) (outgoing w) false)
    | WStartAttach addr =>
        Some (mkWorld (mem w) (loops w) (calls w) (detachers w) (attachers w ++ [AttachStart addr]) (outgoing w) false)
    | WArrive d f =>
        x ← dconns (mem w) !! d;
        if broken x then None
        else Some (mkWorld (set_dconns (<[d := mkDConn (inbox x ++ [f]) false]> (dconns (mem w))) (mem w))
                     (loops w) (calls w) (detachers w) (attachers w) (outgoing w) false)
    | WBreak d =>
        Some (mkWorld (close_conn d (mem w)) (loops w) (calls w) (detachers w) (attachers w) (outgoing w) false)
    end.

Lemma call_run_step c k c' k' out : call_run c k = Some (c', k', out) → call_step c k c' k' out.
Proof.
  destruct k as [f|f|f ch|r ch|r x]; cbn [call_run].
  - destruct (IsAttached c) eqn:Ha; intros [= <- <- <-]; [by apply call_attached|by apply call_not_attached].
  - destruct (nextRequestID c) as [r c1] eqn:Hn. intros [= <- <- <-]. by apply call_register.
  - destruct (dispatchConn c) as [d|] eqn:Hd; [|intros [= <- <- <-]; by eapply call_detached].
    destruct (dconns c !! d) as [x|] eqn:Hx; [|done]. cbn.
    destruct (broken x) eqn:Hb; intros [= <- <- <-]; [by eapply call_send_fails|by eapply call_send].
  - destruct (chans c !! ch) as [x|] eqn:Hx; [|done]. cbn. destruct (cbuf x) as [f|] eqn:Hb.
    + intros [= <- <- <-]. by eapply call_response.
    + destruct (cclosed x) eqn:Hc; [|done]. intros [= <- <- <-]. by eapply call_closed.
  - done.
Qed.

Lemma loop_run_step c l r : loop_run c l = Some r → loop_step c l r.
Proof.
  destruct l as [d|d ch f|]; cbn [loop_run]; [| |done].
  - destruct (dconns c !! d) as [x|] eqn:Hx; [|done]. cbn. destruct (inbox x) as [|f fs] eqn:Hf.
    + destruct (broken x) eqn:Hb; [|done]. intros [= <-]. by eapply loop_error.
    + case_decide as Hr; [intros [= <-]; eapply loop_push; [done|done|by left]|].
      destruct (pending c !! RequestID f) as [ch|] eqn:Hp; intros [= <-]; [by eapply loop_response|].
      eapply loop_push; [done|done|by right].
  - destruct (chans c !! ch) as [x|] eqn:Hx; [|done]. cbn.
    destruct (cclosed x) eqn:Hc; [intros [= <-]; by eapply loop_send_closed|].
    destruct (cbuf x) eqn:Hb; [done|]. intros [= <-]. by eapply loop_send.
Qed.

Lemma attach_run_step c a c' a' ls out : attach_run c a = Some (c', a', ls, out) → attach_step c a c' a' ls out.
Proof.
  destruct a as [addr| |d|r]; cbn [attach_run].
  - case_decide as Ha; [subst; intros [= <- <- <- <-]; constructor|].
    destruct (dispatchConn c) as [d|] eqn:Hd; intros [= <- <- <- <-]; [|by apply attach_dial].
    apply attach_already; [done|by rewrite Hd].
  - intros [= <- <- <- <-]. constructor.
  - destruct (dconns c !! d) as [x|] eqn:Hx; [|done]. cbn. destruct (inbox x) as [|f fs] eqn:Hf; [done|].
    destruct (attach_response _ _ _) as [[c1 a1] ls1] eqn:Hr. intros [= <- <- <- <-]. by eapply attach_registered.
  - done.
Qed.

Lemma world_next_step l w w' : world_next l w = Some w' → world_step w w'.
Proof.
  unfold world_next. destruct (crashed w) eqn:Hc; [done|].
  destruct l as [i|i|i|i|f| |addr|d f|d].
  - destruct (calls w !! i) as [k|] eqn:Hk; [|done]. cbn.
    destruct (call_run (mem w) k) as [[[c' k'] out]|] eqn:Hr; [|done]. intros [= <-].
    by eapply w_call, call_run_step.
  - destruct (loops w !! i) as [k|] eqn:Hk; [|done]. cbn.
    destruct (loop_run (mem w) k) as [[[c' l']|[]|]|] eqn:Hr; [| |done]; apply loop_run_step in Hr; intros [= <-].
    + by eapply w_loop.
    + by eapply w_panic.
  - destruct (detachers w !! i) as [p|] eqn:Hk; [|done]. intros [= <-]. by apply w_detach.
  - destruct (attachers w !! i) as [a|] eqn:Hk; [|done]. cbn.
    destruct (attach_run (mem w) a) as [[[[c' a'] ls] out]|] eqn:Hr; [|done]. intros [= <-].
    by eapply w_attach, attach_run_step.
  - intros [= <-]. by apply w_request.
  - intros [= <-]. by apply w_start_detach.
  - intros [= <-]. by apply w_start_attach.
  - destruct (dconns (mem w) !! d) as [x|] eqn:Hx; [|done]. cbn. destruct (broken x) eqn:Hb; [done|].
    intros [= <-]. by apply w_arrive.
  - intros [= <-]. by apply w_break.
Qed.

Definition world_after (ls : list wlabel) (w : world) : option world :=
  foldl (λ o l, w ← o; world_next l w) (Some w) ls.

Lemma world_after_run ls w w' : world_after ls w = Some w' → nsteps world_step (length ls) w w'.
Proof.
  unfold world_after. revert w. induction ls as [|l ls IH]; intros w; cbn; [intros [= ->]; constructor|].
  destruct (world_next l w) as [w1|] eqn:Hl.
  - intros Hrun. eapply nsteps_l; [by eapply world_next_step|]. by apply IH.
  - intros Hrun. exfalso. clear -Hrun. induction ls as [|l ls IH]; [done|by apply IH].
Qed.

(** The world after a schedule that runs. *)
Definition world_end (ls : list wlabel) (w : world) : world := default w (world_after ls w).

Lemma world_end_run ls w :
  bool_decide (is_Some (world_after ls w)) = true → nsteps world_step (length ls) w (world_end ls w).
Proof.
  intros [w' Hw]%bool_decide_eq_true_1. apply world_after_run. unfold world_end. by rewrite Hw.
Qed.
