(* ===== verification/ClientProps.v ===== *)
(** * The node's side of the dispatch connection: theorems

    Every response reaches the call that asked for it; a detached node leaves
    no call waiting; the read loop cannot crash as long as nobody detaches,
    and what happens when somebody does. *)

From Stdlib Require Import ZArith Lia Ascii.
From stdpp Require Import base list gmap strings numbers relations.
From S2P Require Import Prelude Strconv Ephemeral Deck DeckProps Peer Dispatch Remote Client.

#[local] Open Scope Z_scope.

(** ** Request ids *)

(** A digit string has no dash, so the counter can be read off a request id
    whatever the node was called when it was issued. *)
Lemma digits_no_dash d id e : all_digits d → d ≠ id +:+ "-" +:+ e.
Proof.
  revert d. induction id as [|a id IH]; intros d Hd ->.
  - destruct Hd as [Ha _]. by apply Ha.
  - destruct Hd as [_ Hd]. by eapply IH.
Qed.

Lemma request_id_counter id id' v v' :
  0 ≤ v < 2 ^ 64 → 0 ≤ v' < 2 ^ 64 → request_id id v = request_id id' v' → v = v'.
Proof.
  unfold request_id. intros Hv Hv'. revert id'.
  pose proof (utoa_digits v ltac:(lia)) as Hd. pose proof (utoa_digits v' ltac:(lia)) as Hd'.
  induction id as [|a id IH]; intros [|a' id'] Heq.
  - apply (inj (String.app "-")) in Heq. by apply utoa_inj in Heq.
  - exfalso. injection Heq as _ Heq. by eapply digits_no_dash in Heq.
  - exfalso. injection Heq as _ Heq. symmetry in Heq. by eapply digits_no_dash in Heq.
  - injection Heq as _ Heq. by apply (IH id').
Qed.

(** ** Calls and their channels *)

Definition owner (k : call) : option (string * nat) :=
  match k with
  | CallRegistered f ch => Some (RequestID f, ch)
  | CallWaiting requestID ch => Some (requestID, ch)
  | _ => None
  end.

Definition owns (ks : list call) (i : nat) (r : string) (ch : nat) : Prop :=
  ∃ k, ks !! i = Some k ∧ owner k = Some (r, ch).

Definition issued (cnt : Z) (r : string) : Prop := ∃ id v, 0 ≤ v ≤ cnt ∧ r = request_id id v.

Definition chan_closed (chs : list chan) (ch : nat) (b : bool) : Prop := ∃ x, chs !! ch = Some x ∧ cclosed x = b.

(** The invariant of the waiting calls, over the part of the memory they use. *)
Record calls_ok (pend : gmap string nat) (chs : list chan) (cnt : Z) (ks : list call) (ls : list loop) : Prop := {
  co_counter : 0 ≤ cnt;
  co_chan : ∀ i r ch, owns ks i r ch → (ch < length chs)%nat;
  co_issued : ∀ i r ch, owns ks i r ch → issued cnt r;
  co_chan_uniq : ∀ i j r r' ch, owns ks i r ch → owns ks j r' ch → i = j;
  co_id_uniq : ∀ i j r ch ch', owns ks i r ch → owns ks j r ch' → i = j;
  co_pending : ∀ r ch, pend !! r = Some ch → (∃ i, owns ks i r ch) ∧ chan_closed chs ch false;
  co_waits : ∀ i r ch, owns ks i r ch → pend !! r = Some ch ∨ chan_closed chs ch true;
  co_buffer : ∀ i r ch x f, owns ks i r ch → chs !! ch = Some x → cbuf x = Some f → RequestID f = r;
  co_loop : ∀ d ch f, LoopSend d ch f ∈ ls → (ch < length chs)%nat ∧ ∀ i r, owns ks i r ch → RequestID f = r;
  co_done : ∀ i r f, ks !! i = Some (CallDone r (Ok f)) → RequestID f = r;
}.

Lemma owns_insert_inv ks i k j r ch :
  owns (<[i := k]> ks) j r ch → (j = i ∧ owner k = Some (r, ch)) ∨ (j ≠ i ∧ owns ks j r ch).
Proof.
  intros (k' & Hk & Ho). apply list_lookup_insert_Some in Hk as [(-> & <- & _)|[Hne Hk]]; [by left|right].
  split; [done|by exists k'].
Qed.

Lemma owns_insert_ne ks i k j r ch : j ≠ i → owns ks j r ch → owns (<[i := k]> ks) j r ch.
Proof. intros Hne (k' & Hk & Ho). exists k'. by rewrite list_lookup_insert_ne. Qed.

Lemma owns_insert_eq ks i k k0 r ch : ks !! i = Some k0 → owner k = Some (r, ch) → owns (<[i := k]> ks) i r ch.
Proof. intros Hi Ho. exists k. rewrite list_lookup_insert_eq; [done|]. by eapply lookup_lt_Some. Qed.

(** The calls may change as long as the same ones wait. *)
Lemma calls_ok_owners pend chs cnt ks ks' ls :
  calls_ok pend chs cnt ks ls → (∀ j r ch, owns ks' j r ch ↔ owns ks j r ch) →
  (∀ i r f, ks' !! i = Some (CallDone r (Ok f)) → RequestID f = r) → calls_ok pend chs cnt ks' ls.
Proof.
  intros [Hc Hch Hi Hcu Hiu Hp Hw Hb Hl Hd] Heq Hdone. constructor; try done.
  - intros j r ch Hj%Heq. by eapply Hch.
  - intros j r ch Hj%Heq. by eapply Hi.
  - intros j j' r r' ch Hj%Heq Hj'%Heq. by eapply Hcu.
  - intros j j' r ch ch' Hj%Heq Hj'%Heq. by eapply Hiu.
  - intros r ch Hr. destruct (Hp _ _ Hr) as [[j Hj] Hopen]. split; [exists j; by apply Heq|done].
  - intros j r ch Hj%Heq. by eapply Hw.
  - intros j r ch x f Hj%Heq. by eapply Hb.
  - intros d ch f Hin. destruct (Hl _ _ _ Hin) as [Hlt Hf]. split; [done|]. intros j r Hj%Heq. by eapply Hf.
Qed.

(** A call that neither starts nor stops waiting. *)
Lemma calls_ok_move pend chs cnt ks ls i k k' :
  calls_ok pend chs cnt ks ls → ks !! i = Some k → owner k' = owner k → (∀ r f, k' = CallDone r (Ok f) → RequestID f = r) →
  calls_ok pend chs cnt (<[i := k']> ks) ls.
Proof.
  intros Hok Hk Ho Hdone. eapply calls_ok_owners; [done| |].
  - intros j r ch. split.
    + intros [[-> Hk']|[_ ?]]%owns_insert_inv; [|done]. exists k. by rewrite <- Ho.
    + intros Hj. destruct (decide (j = i)) as [->|Hne]; [|by apply owns_insert_ne].
      eapply owns_insert_eq; [done|]. destruct Hj as (k0 & Hk0 & Ho0). simplify_eq. by rewrite Ho.
  - intros j r f Hj. apply list_lookup_insert_Some in Hj as [(-> & Hj & _)|[_ Hj]]; [by apply Hdone|].
    by eapply (co_done _ _ _ _ _ Hok).
Qed.

(** A call returns: its entry is deleted. *)
Lemma calls_ok_finish pend chs cnt ks ls i k r ch res :
  calls_ok pend chs cnt ks ls → ks !! i = Some k → owner k = Some (r, ch) →
  (∀ f, res = Ok f → RequestID f = r) → calls_ok (delete r pend) chs cnt (<[i := CallDone r res]> ks) ls.
Proof.
  intros [Hc Hch Hi Hcu Hiu Hp Hw Hb Hl Hd] Hk Ho Hres. assert (owns ks i r ch) as Hown by (by exists k).
  assert (∀ j r' ch', owns (<[i := CallDone r res]> ks) j r' ch' → j ≠ i ∧ owns ks j r' ch') as Hback.
  { intros j r' ch' [[-> Hk']|?]%owns_insert_inv; done. }
  constructor; try done.
  - intros j r' ch' [_ Hj]%Hback. by eapply Hch.
  - intros j r' ch' [_ Hj]%Hback. by eapply Hi.
  - intros j j' r1 r2 ch' [_ Hj]%Hback [_ Hj']%Hback. by eapply Hcu.
  - intros j j' r1 ch1 ch2 [_ Hj]%Hback [_ Hj']%Hback. by eapply Hiu.
  - intros r' ch' [Hne Hr]%lookup_delete_Some. destruct (Hp _ _ Hr) as [[j Hj] Hopen]. split; [|done].
    exists j. apply owns_insert_ne; [|done]. intros ->. destruct Hj as (k0 & Hk0 & Ho0). simplify_eq.
  - intros j r' ch' [Hne Hj]%Hback. destruct (Hw _ _ _ Hj) as [Hr|?]; [|by right]. left.
    rewrite lookup_delete_ne; [done|]. intros ->. by apply Hne, (Hiu _ _ _ _ _ Hj Hown).
  - intros j r' ch' x f [_ Hj]%Hback. by eapply Hb.
  - intros d ch' f Hin. destruct (Hl _ _ _ Hin) as [Hlt Hf]. split; [done|]. intros j r' [_ Hj]%Hback. by eapply Hf.
  - intros j r' f Hj. apply list_lookup_insert_Some in Hj as [(-> & Hj & _)|[_ Hj]]; [|by eapply Hd].
    injection Hj as <- ->. by apply Hres.
Qed.

(** A call registers a fresh id and channel. *)
Lemma calls_ok_register pend chs cnt ks ls i f f' id r :
  calls_ok pend chs cnt ks ls → cnt < 2 ^ 64 - 1 → ks !! i = Some (CallAttached f) →
  r = request_id id (cnt + 1) → RequestID f' = r →
  calls_ok (<[r := length chs]> pend) (chs ++ [mkChan None false]) (cnt + 1)
    (<[i := CallRegistered f' (length chs)]> ks) ls.
Proof.
  intros [Hc Hch Hi Hcu Hiu Hp Hw Hb Hl Hd] Hcnt Hk Hr Hf'.
  assert (∀ j r' ch, owns (<[i := CallRegistered f' (length chs)]> ks) j r' ch →
    (j = i ∧ r' = r ∧ ch = length chs) ∨ (j ≠ i ∧ owns ks j r' ch)) as Hback.
  { intros j r' ch [[-> Ho]|?]%owns_insert_inv; [left|by right]. cbn in Ho. naive_solver. }
  assert (∀ j ch, ¬ owns ks j r ch) as Hfresh.
  { intros j ch Hj. destruct (Hi _ _ _ Hj) as (id' & v & Hv & Hr'). rewrite Hr in Hr'.
    apply request_id_counter in Hr'; lia. }
  assert (∀ j r', ¬ owns ks j r' (length chs)) as Hfch by (intros j r' Hj%Hch; lia).
  assert (∀ ch x, (ch < length chs)%nat → (chs ++ [mkChan None false]) !! ch = Some x ↔ chs !! ch = Some x) as Hlk.
  { intros ch x Hlt. by rewrite lookup_app_l. }
  constructor.
  - lia.
  - intros j r' ch [(-> & -> & ->)|[_ Hj]]%Hback; rewrite length_app; cbn; [lia|]. apply Hch in Hj. lia.
  - intros j r' ch [(-> & -> & ->)|[_ Hj]]%Hback; [exists id, (cnt + 1); split; [lia|done]|].
    destruct (Hi _ _ _ Hj) as (id' & v & Hv & ->). exists id', v. split; [lia|done].
  - intros j j' r1 r2 ch Hj%Hback Hj'%Hback.
    destruct Hj as [(-> & -> & ->)|[_ Hj]], Hj' as [(-> & -> & ?)|[_ Hj']]; [done|by destruct (Hfch j' r2)| |by eapply Hcu].
    subst. by destruct (Hfch j r1).
  - intros j j' r1 ch ch' Hj%Hback Hj'%Hback.
    destruct Hj as [(-> & -> & ->)|[_ Hj]], Hj' as [(-> & ? & ->)|[_ Hj']]; [done|by destruct (Hfresh j' ch')| |by eapply Hiu].
    subst. by destruct (Hfresh j ch).
  - intros r' ch [[<- <-]|[Hne Hr']]%lookup_insert_Some.
    + split; [exists i; eapply owns_insert_eq; [done|by rewrite <- Hf']|].
      exists (mkChan None false). by rewrite lookup_app_r, Nat.sub_diag.
    + destruct (Hp _ _ Hr') as [[j Hj] (x & Hx & Hopen)]. split.
      * exists j. apply owns_insert_ne; [|done]. intros ->. destruct Hj as (k0 & Hk0 & Ho). by simplify_eq.
      * exists x. rewrite lookup_app_l; [done|]. by eapply lookup_lt_Some.
  - intros j r' ch [(-> & -> & ->)|[Hne Hj]]%Hback; [left; apply lookup_insert_eq|].
    destruct (Hw _ _ _ Hj) as [Hr'|(x & Hx & Hcl)].
    + left. rewrite lookup_insert_ne; [done|]. intros <-. by eapply Hfresh.
    + right. exists x. rewrite lookup_app_l; [done|]. by eapply lookup_lt_Some.
  - intros j r' ch x g [(-> & -> & ->)|[_ Hj]]%Hback Hx Hg.
    + rewrite lookup_app_r, Nat.sub_diag in Hx by done. by injection Hx as <-.
    + apply Hlk in Hx; [by eapply Hb|]. by eapply Hch.
  - intros d ch g Hin. destruct (Hl _ _ _ Hin) as [Hlt Hg]. split; [rewrite length_app; cbn; lia|].
    intros j r' [(-> & -> & ->)|[_ Hj]]%Hback; [lia|by eapply Hg].
  - intros j r' g Hj. apply list_lookup_insert_Some in Hj as [(-> & Hj & _)|[_ Hj]]; [done|by eapply Hd].
Qed.

(** A channel's buffer changes: emptied by its owner, or filled by a loop. *)
Lemma calls_ok_chan pend chs cnt ks ls ls' ch x b :
  calls_ok pend chs cnt ks ls → chs !! ch = Some x →
  (∀ f, b = Some f → ∀ i r, owns ks i r ch → RequestID f = r) → (∀ d c f, LoopSend d c f ∈ ls' → LoopSend d c f ∈ ls) →
  calls_ok pend (<[ch := mkChan b (cclosed x)]> chs) cnt ks ls'.
Proof.
  intros [Hc Hch Hi Hcu Hiu Hp Hw Hb Hl Hd] Hx Hf Hls.
  assert (∀ c b', chan_closed chs c b' → chan_closed (<[ch := mkChan b (cclosed x)]> chs) c b') as Hcl.
  { intros c b' (y & Hy & Hc'). destruct (decide (c = ch)) as [->|Hne].
    - assert (y = x) as -> by congruence. exists (mkChan b (cclosed x)). split; [|done]. apply list_lookup_insert_eq. by eapply lookup_lt_Some.
    - exists y. by rewrite list_lookup_insert_ne. }
  constructor; try done.
  - intros i r c Ho. rewrite length_insert. by eapply Hch.
  - intros r c Hr. destruct (Hp _ _ Hr). split; [done|by apply Hcl].
  - intros i r c Ho. destruct (Hw _ _ _ Ho); [by left|right; by apply Hcl].
  - intros i r c y f Ho Hy Hbuf. apply list_lookup_insert_Some in Hy as [(-> & <- & _)|[_ Hy]]; [by eapply Hf|by eapply Hb].
  - intros d c f Hin%Hls. rewrite length_insert. by eapply Hl.
Qed.

Lemma calls_ok_loops pend chs cnt ks ls ls' :
  calls_ok pend chs cnt ks ls →
  (∀ d ch f, LoopSend d ch f ∈ ls' → LoopSend d ch f ∈ ls ∨ pend !! RequestID f = Some ch) →
  calls_ok pend chs cnt ks ls'.
Proof.
  intros [Hc Hch Hi Hcu Hiu Hp Hw Hb Hl Hd] Hls. constructor; try done.
  intros d ch f Hin. destruct (Hls _ _ _ Hin) as [?|Hr]; [by eapply Hl|].
  destruct (Hp _ _ Hr) as [[i Ho] (x & Hx & _)]. split; [by eapply lookup_lt_Some|].
  intros j r Hj. assert (j = i) as -> by (by eapply Hcu). destruct Hj as (k & Hk & Hko), Ho as (k' & Hk' & Hko').
  by simplify_eq.
Qed.

Lemma calls_ok_close c cnt ks ls :
  calls_ok (pending c) (chans c) cnt ks ls →
  calls_ok (pending (closeAllPending c)) (chans (closeAllPending c)) cnt ks ls.
Proof.
  intros [Hc Hch Hi Hcu Hiu Hp Hw Hb Hl Hd]. cbn.
  set (g := λ ch x, if decide (ch ∈ (map_to_list (pending c)).*2) then mkChan (cbuf x) true else x).
  assert (∀ ch y, imap g (chans c) !! ch = Some y → ∃ x, chans c !! ch = Some x ∧ cbuf y = cbuf x) as Hback.
  { intros ch y. rewrite list_lookup_imap. destruct (chans c !! ch) as [x|]; [|done]. intros [= <-].
    exists x. split; [done|]. unfold g. by case_decide. }
  constructor; try done.
  - intros i r ch Ho. rewrite length_imap. by eapply Hch.
  - intros i r ch Ho. right. destruct (Hw _ _ _ Ho) as [Hr|(x & Hx & Hcl)].
    + destruct (Hp _ _ Hr) as [_ (x & Hx & _)]. exists (g ch x). rewrite list_lookup_imap, Hx. split; [done|].
      unfold g. rewrite decide_True; [done|]. apply list_elem_of_fmap. exists (r, ch). split; [done|].
      by apply elem_of_map_to_list.
    + exists (g ch x). rewrite list_lookup_imap, Hx. split; [done|]. unfold g. by case_decide.
  - intros i r ch y f Ho (x & Hx & Heq)%Hback Hbuf. eapply Hb; [done|done|congruence].
  - intros d ch f Hin. rewrite length_imap. by eapply Hl.
Qed.

Lemma calls_ok_request pend chs cnt ks ls f :
  calls_ok pend chs cnt ks ls → calls_ok pend chs cnt (ks ++ [CallStart f]) ls.
Proof.
  intros Hok. eapply calls_ok_owners; [done| |].
  - intros i r ch. split; intros (k & Hk & Ho).
    + apply lookup_app_Some in Hk as [Hk|[_ Hk]]; [by exists k|]. apply list_lookup_singleton_Some in Hk as [_ <-]. done.
    + exists k. split; [|done]. by apply lookup_app_l_Some.
  - intros j r g Hj. apply lookup_app_Some in Hj as [Hj|[_ Hj]]; [by eapply (co_done _ _ _ _ _ Hok)|].
    by apply list_lookup_singleton_Some in Hj as [_ ?].
Qed.

(** ** Every step of the world *)

Definition detaching (p : detach) : Prop := (∃ d, p = DetachClose d) ∨ p = DetachPending.

(** While the node is detached, the calls that still wait are released, or a
    detaching goroutine is about to release them. *)
Definition released (conn : option nat) (chs : list chan) (ks : list call) (ds : list detach) : Prop :=
  conn = None → ∀ i r ch, ks !! i = Some (CallWaiting r ch) →
    chan_closed chs ch true ∨ ∃ j p, ds !! j = Some p ∧ detaching p.

Record world_ok (B : Z) (w : world) : Prop := {
  wo_calls : calls_ok (pending (mem w)) (chans (mem w)) (ccounter (mem w)) (calls w) (loops w);
  wo_bound : ccounter (mem w) ≤ B;
  wo_released : released (dispatchConn (mem w)) (chans (mem w)) (calls w) (detachers w);
}.

Lemma released_calls conn chs chs' ks ks' ds :
  released conn chs ks ds → (∀ ch, chan_closed chs ch true → chan_closed chs' ch true) →
  (∀ i r ch, ks' !! i = Some (CallWaiting r ch) → ks !! i = Some (CallWaiting r ch) ∨ conn ≠ None) →
  released conn chs' ks' ds.
Proof.
  intros Hr Hcl Hks Hc i r ch Hi. destruct (Hks _ _ _ Hi) as [Hi'|?]; [|done].
  destruct (Hr Hc _ _ _ Hi') as [?|?]; [left; auto|by right].
Qed.

Lemma chan_closed_insert chs ch x b c :
  chs !! ch = Some x → chan_closed chs c true → chan_closed (<[ch := mkChan b (cclosed x)]> chs) c true.
Proof.
  intros Hx (y & Hy & Hc). destruct (decide (c = ch)) as [->|Hne].
  - assert (y = x) as -> by congruence. exists (mkChan b (cclosed x)). split; [|done].
    apply list_lookup_insert_eq. by eapply lookup_lt_Some.
  - exists y. by rewrite list_lookup_insert_ne.
Qed.

Lemma insert_waiting (ks : list call) i k j r ch :
  (∀ r ch, k ≠ CallWaiting r ch) → <[i := k]> ks !! j = Some (CallWaiting r ch) → ks !! j = Some (CallWaiting r ch).
Proof.
  intros Hk Hj. apply list_lookup_insert_Some in Hj as [(_ & Hj & _)|[_ Hj]]; [|done]. by destruct (Hk r ch).
Qed.

(** The calls other than the one that moved wait as before. *)
Ltac still_waiting :=
  eapply released_calls; [eassumption|done|];
  let Hj := fresh in intros ? ? ? Hj; left; eapply insert_waiting; [|exact Hj]; done.

Lemma world_call B w i k c' k' out :
  world_ok B w → B < 2 ^ 64 - 1 → calls w !! i = Some k → call_step (mem w) k c' k' out →
  world_ok (B + 1)
    (mkWorld c' (loops w) (<[i := k']> (calls w)) (detachers w) (attachers w) (outgoing w ++ out) false).
Proof.
  intros [Hok HB Hrel] HB' Hk Hs.
  destruct Hs as [f Ha|f Ha|f r c1 Hn|f ch c1 k1 Hc Hf|f ch d x Hc Hd Hx|f ch d x c1 k1 Hc Hd Hx Hf
    |r ch x f c1 k1 Hx Hb Hf|r ch x c1 k1 Hx Hb Hcl Hf|r ch c1 k1 Hf]; try (injection Hf as <- <-);
    (constructor; cbn; [|try lia|]).
  - by eapply calls_ok_move.
  - still_waiting.
  - by eapply calls_ok_move.
  - still_waiting.
  - injection Hn as <- <-. cbn. pose proof (co_counter _ _ _ _ _ Hok). rewrite u64_small by lia.
    by eapply (calls_ok_register _ _ _ _ _ _ f _ (ID (mem w))); [|lia|..].
  - injection Hn as <- <-. cbn. pose proof (co_counter _ _ _ _ _ Hok). rewrite u64_small; lia.
  - injection Hn as <- <-. cbn. eapply released_calls; [done| |].
    + intros ch (x & Hx & Hc). exists x. split; [by apply lookup_app_l_Some|done].
    + intros ? ? ? Hj. left. eapply insert_waiting; [|exact Hj]. done.
  - by eapply calls_ok_finish.
  - still_waiting.
  - by eapply calls_ok_move.
  - eapply released_calls; [done|done|]. intros. right. by rewrite Hc.
  - by eapply calls_ok_finish.
  - still_waiting.
  - assert (owns (calls w) i r ch) as Ho by (by exists (CallWaiting r ch)).
    eapply calls_ok_finish; [eapply calls_ok_chan; [done|done|done|done]|done|done|].
    intros g [= <-]. by eapply (co_buffer _ _ _ _ _ Hok).
  - eapply released_calls; [done| |].
    + intros c. by apply chan_closed_insert.
    + intros ? ? ? Hj. left. eapply insert_waiting; [|exact Hj]. done.
  - by eapply calls_ok_finish.
  - still_waiting.
  - by eapply calls_ok_finish.
  - still_waiting.
Qed.

Lemma send_in_insert (ls : list loop) i l d ch f :
  LoopSend d ch f ∈ <[i := l]> ls → LoopSend d ch f ∈ ls ∨ l = LoopSend d ch f.
Proof.
  intros [j Hj]%list_elem_of_lookup_1. apply list_lookup_insert_Some in Hj as [(_ & -> & _)|[_ Hj]]; [by right|left].
  by eapply list_elem_of_lookup_2.
Qed.

Lemma closed_closeAll c ch : chan_closed (chans c) ch true → chan_closed (chans (closeAllPending c)) ch true.
Proof.
  intros (x & Hx & Hc). cbn. eexists. rewrite list_lookup_imap, Hx. split; [done|]. by case_decide.
Qed.

Lemma handle_push_fields f c :
  pending (handle_push f c) = pending c ∧ chans (handle_push f c) = chans c ∧ ccounter (handle_push f c) = ccounter c ∧
  dispatchConn (handle_push f c) = dispatchConn c.
Proof. unfold handle_push. by case_decide. Qed.

Lemma world_loop B w i l c' l' :
  world_ok B w → loops w !! i = Some l → loop_step (mem w) l (Ok (c', l')) →
  world_ok B (mkWorld c' (<[i := l']> (loops w)) (calls w) (detachers w) (attachers w) (outgoing w) false).
Proof.
  intros [Hok HB Hrel] Hi Hs. pose proof (list_elem_of_lookup_2 _ _ _ Hi) as Hin.
  inversion Hs as [d x Hx Hb|d x f fs ch Hx Hf Hid Hp|d x f fs Hx Hf Hp|d ch f x Hx Hcl Hb|]; subst;
    (constructor; cbn [mem loops calls detachers]).
  - apply calls_ok_close. eapply calls_ok_loops; [done|]. intros d' ch f [?|?]%send_in_insert; [by left|done].
  - done.
  - eapply released_calls; [done|apply closed_closeAll|by left].
  - eapply calls_ok_loops; [done|]. intros d' ch' f' [?|[= <- <- <-]]%send_in_insert; [by left|by right].
  - done.
  - done.
  - destruct (handle_push_fields f (set_dconns (<[d := mkDConn fs (broken x)]> (dconns (mem w))) (mem w)))
      as (-> & -> & -> & _). eapply calls_ok_loops; [done|]. intros d' ch' f' [?|?]%send_in_insert; [by left|done].
  - by destruct (handle_push_fields f (set_dconns (<[d := mkDConn fs (broken x)]> (dconns (mem w))) (mem w)))
      as (_ & _ & -> & _).
  - by destruct (handle_push_fields f (set_dconns (<[d := mkDConn fs (broken x)]> (dconns (mem w))) (mem w)))
      as (_ & -> & _ & ->).
  - cbn. rewrite <- Hcl. eapply calls_ok_chan; [done|done| |].
    + intros g [= <-] j r Ho. destruct (co_loop _ _ _ _ _ Hok _ _ _ Hin) as [_ Hf]. by eapply Hf.
    + intros d' c g [?|?]%send_in_insert; done.
  - done.
  - cbn. rewrite <- Hcl. eapply released_calls; [done| |by left]. intros c. by apply chan_closed_insert.
Qed.

Lemma world_detach B w i p :
  world_ok B w → detachers w !! i = Some p →
  world_ok B (mkWorld (detach_step p (mem w)).1 (loops w) (calls w) (<[i := (detach_step p (mem w)).2]> (detachers w))
    (attachers w) (outgoing w) false).
Proof.
  intros [Hok HB Hrel] Hi. pose proof (lookup_lt_Some _ _ _ Hi) as Hlt.
  assert (∀ p', ¬ detaching p → released (dispatchConn (mem w)) (chans (mem w)) (calls w) (<[i := p']> (detachers w))) as Hother.
  { intros p' Hp Hc j r ch Hj. destruct (Hrel Hc j r ch Hj) as [?|(j' & q & Hq & Hd)]; [by left|right].
    exists j', q. split; [|done]. rewrite list_lookup_insert_ne; [done|]. intros <-. by simplify_eq. }
  assert (∀ d, ¬ detaching DetachDone ∧ ¬ detaching DetachStart ∧ ¬ detaching DetachPeers ∧ ¬ detaching DetachSession ∧
    ¬ detaching DetachReset ∧ detaching (DetachClose d) ∧ detaching DetachPending) as Hd.
  { unfold detaching. naive_solver. }
  specialize (Hd 0%nat) as Hd0. destruct Hd0 as (Hd1 & Hd2 & Hd3 & Hd4 & Hd5 & _ & Hd7).
  destruct p as [|d| | | | |]; cbn [detach_step].
  - destruct (dispatchConn (mem w)) as [d|] eqn:Hconn; (constructor; [done|done|]); cbn.
    + intros _ j r ch Hj. right. exists i, (DetachClose d). split; [by apply list_lookup_insert_eq|apply (Hd d)].
    + by apply Hother.
  - constructor; [done|done|]. cbn. intros Hc j r ch Hj. right. exists i, DetachPending.
    split; [by apply list_lookup_insert_eq|done].
  - constructor; cbn [fst snd mem calls loops detachers]; [by apply calls_ok_close|done|]. intros _ j r ch Hj. left.
    pose proof (calls_ok_close _ _ _ _ Hok) as Hok'.
    destruct (co_waits _ _ _ _ _ Hok' j r ch) as [Hr|?]; [by exists (CallWaiting r ch)|done|done].
  - constructor; [done|done|]. cbn. by apply Hother.
  - constructor; [done|done|]. cbn. by apply Hother.
  - constructor; [done|done|]. cbn. by apply Hother.
  - constructor; [done|done|]. cbn. by apply Hother.
Qed.

(** Attaching touches neither calls nor channels; a new loop sends nothing. *)
Lemma attach_step_fields c a c' a' ls out :
  attach_step c a c' a' ls out →
  pending c' = pending c ∧ chans c' = chans c ∧ ccounter c' = ccounter c ∧
  (∀ d ch f, LoopSend d ch f ∉ ls) ∧ (dispatchConn c' = dispatchConn c ∨ dispatchConn c' ≠ None).
Proof.
  intros Hs. destruct Hs as [|addr Ha Hc|addr Ha Hc| | | |d x Hx Hb|d x f fs c' a' ls Hx Hf Hr];
    try (split_and!; [done..|by left]); try (split_and!; [done..|by intros ? ? ? ?%elem_of_nil|by left]).
  unfold attach_response in Hr. cbn in Hr.
  repeat case_match; simplify_eq; (split_and!; [done..| |]);
    try (by intros ? ? ? ?%elem_of_nil); try (by left); try (by right).
  intros ? ? ? ?%list_elem_of_singleton. done.
Qed.

Lemma world_ok_step B w w' : world_ok B w → B < 2 ^ 64 - 1 → world_step w w' → world_ok (B + 1) w'.
Proof.
  intros Hw HB Hs. assert (∀ w1, world_ok B w1 → world_ok (B + 1) w1) as Hlater.
  { intros w1 [? ? ?]. constructor; [done|lia|done]. }
  destruct Hs as [w i k c' k' out Hc Hk Hs|w i l c' l' Hc Hl Hs|w i l Hc Hl Hs|w i p Hc Hp|w i a c' a' ls out Hc Ha Hs
    |w f Hc|w Hc|w addr Hc|w d x f Hc Hd Hx|w d Hc].
  - by eapply world_call.
  - by eapply Hlater, world_loop.
  - apply Hlater. by destruct Hw.
  - by apply Hlater, world_detach.
  - destruct Hw as [Hok Hb Hrel]. destruct (attach_step_fields _ _ _ _ _ _ Hs) as (Hp & Hch & Hcnt & Hls & Hconn).
    apply Hlater. constructor; cbn; rewrite ?Hp, ?Hch, ?Hcnt; [|done|].
    + eapply calls_ok_loops; [done|]. intros d ch f [?|?]%elem_of_app; [by left|by destruct (Hls d ch f)].
    + intros Hn. destruct Hconn as [Heq|?]; [|done]. by apply Hrel; rewrite <- Heq.
  - destruct Hw as [Hok Hb Hrel]. apply Hlater. constructor; cbn; [by apply calls_ok_request|done|].
    eapply released_calls; [done|done|]. intros i r ch [?|[_ Hi]]%lookup_app_Some; [by left|].
    by apply list_lookup_singleton_Some in Hi as [_ ?].
  - destruct Hw as [Hok Hb Hrel]. apply Hlater. constructor; [done|done|]. cbn.
    intros Hn i r ch Hi. destruct (Hrel Hn i r ch Hi) as [?|(j & p & Hj & Hp)]; [by left|right].
    exists j, p. split; [by apply lookup_app_l_Some|done].
  - apply Hlater. by destruct Hw.
  - apply Hlater. by destruct Hw.
  - apply Hlater. by destruct Hw.
Qed.

Lemma start_ok c : pending c = ∅ → 0 ≤ ccounter c → world_ok (ccounter c) (start_world c).
Proof.
  intros Hp Hc. assert (∀ i r ch, ¬ owns [] i r ch) as Hno by (intros i r ch (k & Hk & _); done).
  constructor; cbn; [|done|by intros _ i r ch Hi].
  constructor; try (intros * Hi; exfalso; eapply Hno; exact Hi).
  - done.
  - rewrite Hp. intros r ch Hr. by apply lookup_empty_Some in Hr.
  - intros d ch f Hin. by apply elem_of_nil in Hin.
  - intros i r f Hi. done.
Qed.

Lemma world_ok_run k c w :
  pending c = ∅ → 0 ≤ ccounter c → ccounter c + Z.of_nat k < 2 ^ 64 → nsteps world_step k (start_world c) w →
  world_ok (ccounter c + Z.of_nat k) w.
Proof.
  intros Hp Hc HB Hrun. pose proof (start_ok c Hp Hc) as Hok. revert HB Hok. generalize (ccounter c).
  induction Hrun as [w0|k w0 w1 w Hs Hrun IH]; intros B HB Hok; [by rewrite Z.add_0_r|].
  replace (B + Z.of_nat (S k)) with (B + 1 + Z.of_nat k) by lia. apply IH; [lia|]. by eapply world_ok_step; [|lia|].
Qed.

(** ** Theorems *)

(** C28: Responses reach their callers.  In every run of the read loops, calls,
    attaches and detaches, with the server sending what it likes: a call that
    returns a frame returns one with its own request id. *)
Theorem response_matches_request c k w i r f :
  pending c = ∅ → 0 ≤ ccounter c → ccounter c + Z.of_nat k < 2 ^ 64 → nsteps world_step k (start_world c) w →
  calls w !! i = Some (CallDone r (Ok f)) → RequestID f = r.
Proof. intros Hp Hc HB Hrun. apply (co_done _ _ _ _ _ (wo_calls _ _ (world_ok_run k c w Hp Hc HB Hrun))). Qed.

(** A call can return now, with a response or an error, without its context
    ending. *)
Definition can_return (w : world) (i : nat) : Prop :=
  ∃ w' r, world_step w w' ∧ calls w' !! i = Some (CallDone r.1 r.2) ∧ r.2 ≠ Err CtxDone.

(** C29: Detaching releases every caller.  When the node is detached and no
    [DetachDispatch] is still running, every call that waits can return at
    once. *)
Theorem detach_releases_calls c k w i r ch :
  pending c = ∅ → 0 ≤ ccounter c → ccounter c + Z.of_nat k < 2 ^ 64 → nsteps world_step k (start_world c) w →
  crashed w = false → dispatchConn (mem w) = None → Forall (λ p, ¬ detaching p) (detachers w) →
  calls w !! i = Some (CallWaiting r ch) → can_return w i.
Proof.
  intros Hp Hc HB Hrun Hcr Hconn Hd Hi. destruct (world_ok_run k c w Hp Hc HB Hrun) as [_ _ Hrel].
  destruct (Hrel Hconn i r ch Hi) as [(x & Hx & Hcl)|(j & p & Hj & Hp')];
    [|by destruct (Forall_lookup_1 _ _ _ _ Hd Hj)].
  pose proof (lookup_lt_Some _ _ _ Hi) as Hlt. destruct (cbuf x) as [f|] eqn:Hb.
  - eexists _, (r, Ok f). split_and!; [eapply (w_call w i); [done|done|by eapply call_response]| |done].
    cbn. by apply list_lookup_insert_eq.
  - eexists _, (r, Err ConnClosed). split_and!; [eapply (w_call w i); [done|done|by eapply call_closed]| |done].
    cbn. by apply list_lookup_insert_eq.
Qed.

(** ** The read loop and detaching *)

(** A step while nobody has called [DetachDispatch]. *)
Definition attached_step (w w' : world) : Prop := world_step w w' ∧ detachers w' = [].

Record loop_ok (w : world) : Prop := {
  lo_running : crashed w = false;
  lo_attached : dispatchConn (mem w) = None → loops w = [];
  lo_single : (length (loops w) ≤ 1)%nat;
  lo_open : ∀ d ch f, LoopSend d ch f ∈ loops w → chan_closed (chans (mem w)) ch false;
}.

Lemma call_step_chans c k c' k' out ch :
  call_step c k c' k' out → chan_closed (chans c) ch false →
  chan_closed (chans c') ch false ∧ dispatchConn c' = dispatchConn c.
Proof.
  intros Hs (x & Hx & Hcl).
  destruct Hs as [f Ha|f Ha|f r c1 Hn|f ch1 c1 k1 Hc Hf|f ch1 d y Hc Hd Hy|f ch1 d y c1 k1 Hc Hd Hy Hf
    |r ch1 y f c1 k1 Hy Hb Hf|r ch1 y c1 k1 Hy Hb Hcl1 Hf|r ch1 c1 k1 Hf]; try (injection Hf as <- <-);
    try (injection Hn as <- <-); (split; [|done]); try (by exists x).
  - exists x. split; [by apply lookup_app_l_Some|done].
  - cbn. destruct (decide (ch = ch1)) as [->|Hne].
    + assert (y = x) as -> by congruence. exists (mkChan None (cclosed x)). split; [|done].
      apply list_lookup_insert_eq. by eapply lookup_lt_Some.
    + exists x. by rewrite list_lookup_insert_ne.
Qed.

Lemma call_step_conn c k c' k' out : call_step c k c' k' out → dispatchConn c' = dispatchConn c.
Proof.
  intros Hs. destruct Hs as [| |? ? ? Hn|? ? ? ? ? Hf| |? ? ? ? ? ? ? ? ? Hf|? ? ? ? ? ? ? ? Hf|? ? ? ? ? ? ? ? Hf|? ? ? ? Hf];
    try (injection Hf as <- <-); try (injection Hn as <- <-); done.
Qed.

Lemma loop_ok_step B w w' : world_ok B w → loop_ok w → attached_step w w' → loop_ok w'.
Proof.
  intros Hw [Hrun Hatt Hone Hopen] [Hs Hnd].
  destruct Hs as [w i k c' k' out Hc Hk Hs|w i l c' l' Hc Hl Hs|w i l Hc Hl Hs|w i p Hc Hp|w i a c' a' ls out Hc Ha Hs
    |w f Hc|w Hc|w addr Hc|w d x f Hc Hd Hx|w d Hc]; cbn in Hnd.
  - constructor; cbn; [done| |done|].
    + by rewrite (call_step_conn _ _ _ _ _ Hs).
    + intros d ch f Hin. by eapply call_step_chans; [|eapply Hopen].
  - destruct (loops w) as [|l0 [|]] eqn:Hls; cbn in Hone; [done| |lia].
    destruct i as [|i]; [|done]. injection Hl as ->.
    assert (∀ c, dispatchConn c = dispatchConn (mem w) → (dispatchConn c = None → [l'] = [])) as Hno.
    { intros c Heq Hn. rewrite Heq in Hn. by specialize (Hatt Hn). }
    inversion Hs as [d x Hx Hb|d x f fs ch Hx Hf Hid Hp|d x f fs Hx Hf Hp|d ch f x Hx Hcl Hb|]; subst;
      (constructor; cbn; [done| |lia|]).
    + by apply Hno.
    + intros ? ? ? ?%list_elem_of_singleton. done.
    + by apply Hno.
    + intros ? ? ? [= -> -> ->]%list_elem_of_singleton. by eapply (co_pending _ _ _ _ _ (wo_calls _ _ Hw)).
    + apply Hno. by destruct (handle_push_fields f (set_dconns (<[d := mkDConn fs (broken x)]> (dconns (mem w))) (mem w)))
        as (_ & _ & _ & ->).
    + intros ? ? ? ?%list_elem_of_singleton. done.
    + by apply Hno.
    + intros ? ? ? ?%list_elem_of_singleton. done.
  - exfalso. inversion Hs as [| | | |d ch f x Hx Hcl]; subst.
    destruct (Hopen d ch f) as (y & Hy & Hcl'); [by eapply list_elem_of_lookup_2|]. congruence.
  - exfalso. destruct (detachers w) as [|q ds]; [done|]. by destruct i.
  - destruct Hs as [|addr Hne Hconn|addr Hne Hconn| | | |d x Hx Hb|d x f fs c' a' ls Hx Hf Hr];
      try (constructor; cbn; rewrite ?app_nil_r; done).
    unfold attach_response in Hr. cbn in Hr.
    repeat case_match; simplify_eq; (constructor; cbn; rewrite ?app_nil_r; try done).
    + congruence.
    + rewrite Hatt by done. cbn. lia.
    + rewrite Hatt by done. intros ? ? ? ?%list_elem_of_singleton. done.
  - by constructor.
  - by destruct (detachers w).
  - by constructor.
  - by constructor.
  - by constructor.
Qed.

(** The read loop does not crash while nobody detaches: in every run of
    attaches, calls and frames of any content, no send meets a closed
    channel. *)
Theorem read_loop_safe c k w :
  pending c = ∅ → dispatchConn c = None → 0 ≤ ccounter c → ccounter c + Z.of_nat k < 2 ^ 64 →
  nsteps attached_step k (start_world c) w → crashed w = false.
Proof.
  intros Hp Hconn Hc HB Hrun. pose proof (start_ok c Hp Hc) as Hok.
  assert (loop_ok (start_world c)) as Hl by (constructor; cbn; [done..|lia|by intros ? ? ? ?%elem_of_nil]).
  revert HB Hok Hl. generalize (ccounter c).
  induction Hrun as [w0|k w0 w1 w Hs Hrun IH]; intros B HB Hok Hl; [by destruct Hl|].
  apply (IH (B + 1)); [lia|eapply world_ok_step; [done|lia|apply Hs]|by eapply loop_ok_step].
Qed.

(** ** Concrete runs *)

Definition fresh_node : Client := NewNode "127.0.0.1:7000" "alice" [] key_5.

Definition registered : Frame :=
  mkFrame KindRegisterResp "" "alice" "" "" "" [] true "" [] [] [] 0 [] 0 0.
Definition create_req : Frame := mkFrame KindCreateSessionReq "" "" "s" "" "" [] false "" [] [] [] 0 [] 0 0.
Definition create_resp : Frame := reply_session KindCreateSessionResp "alice-1" "s".

(** Attach, register, send a request, receive its response into the loop. *)
Definition request_in_flight : list wlabel :=
  [WStartAttach "dispatch:9000"; WAttach 0; WAttach 0; WArrive 0 registered; WAttach 0;
   WRequest create_req; WCall 0; WCall 0; WCall 0; WArrive 0 create_resp]%nat.

(** Detaching can crash the node.  The read loop has looked up the channel of
    a response when [DetachDispatch] closes it, and then sends on a closed
    channel. *)
Theorem detach_crashes : ∃ w, rtc world_step (start_world fresh_node) w ∧ crashed w = true.
Proof.
  set (ls := request_in_flight ++ [WLoop 0; WStartDetach; WDetach 0; WDetach 0; WDetach 0; WLoop 0]%nat).
  exists (world_end ls (start_world fresh_node)). split; [|vm_compute; reflexivity].
  eapply rtc_nsteps_2, world_end_run. vm_compute. reflexivity.
Qed.

(** A read loop that outlives its connection fails the requests of the next
    one: after a detach and a new attach, the old loop's closing of all
    channels ends a request that the new connection would have answered. *)
Theorem stale_loop_fails_request :
  ∃ w, rtc world_step (start_world fresh_node) w ∧ dispatchConn (mem w) = Some 1%nat ∧
    calls w !! 0%nat = Some (CallDone "alice-1" (Err ConnClosed)).
Proof.
  set (ls := [WStartAttach "dispatch:9000"; WAttach 0; WAttach 0; WArrive 0 registered; WAttach 0;
    WStartDetach; WDetach 0; WDetach 0; WDetach 0; WDetach 0; WDetach 0; WDetach 0;
    WStartAttach "dispatch:9000"; WAttach 1; WAttach 1; WArrive 1 registered; WAttach 1;
    WRequest create_req; WCall 0; WCall 0; WCall 0; WLoop 0; WCall 0]%nat).
  exists (world_end ls (start_world fresh_node)). split; [|vm_compute; done].
  eapply rtc_nsteps_2, world_end_run. vm_compute. reflexivity.
Qed.

Lemma response_matches_request_witness : RequestID create_resp = "alice-1".
Proof.
  apply (response_matches_request fresh_node 13
    (world_end (request_in_flight ++ [WLoop 0; WLoop 0; WCall 0]%nat) (start_world fresh_node)) 0).
  - reflexivity.
  - cbn. lia.
  - cbn. lia.
  - apply (world_end_run (request_in_flight ++ [WLoop 0; WLoop 0; WCall 0]%nat)). vm_compute. reflexivity.
  - vm_compute. reflexivity.
Defined.

Lemma detach_releases_calls_witness :
  can_return (world_end (request_in_flight ++ [WStartDetach; WDetach 0; WDetach 0; WDetach 0]%nat) (start_world fresh_node)) 0.
Proof.
  apply (detach_releases_calls fresh_node 14
    (world_end (request_in_flight ++ [WStartDetach; WDetach 0; WDetach 0; WDetach 0]%nat) (start_world fresh_node))
    0 "alice-1" 0).
  - reflexivity.
  - cbn. lia.
  - cbn. lia.
  - apply (world_end_run (request_in_flight ++ [WStartDetach; WDetach 0; WDetach 0; WDetach 0]%nat)).
    vm_compute. reflexivity.
  - vm_compute. reflexivity.
  - vm_compute. reflexivity.
  - change (detachers _) with [DetachPeers]. constructor; [|constructor]. intros [[d Hd]|Hd]; done.
  - vm_compute. reflexivity.
Defined.

Lemma read_loop_safe_witness :
  crashed (world_end (request_in_flight ++ [WLoop 0; WLoop 0]%nat) (start_world fresh_node)) = false.
Proof.
  apply (read_loop_safe fresh_node 12); [reflexivity|reflexivity|cbn; lia|cbn; lia|].
  set (ls := request_in_flight ++ [WLoop 0; WLoop 0]%nat).
  assert (∀ j, (j < 12)%nat → attached_step (world_end (take j ls) (start_world fresh_node))
    (world_end (take (S j) ls) (start_world fresh_node))) as Hstep.
  { intros j Hj. destruct (lookup_lt_is_Some_2 ls j) as [l Hl]; [done|]. split.
    - apply (world_next_step l). do 12 (destruct j as [|j]; [injection Hl as <-; vm_compute; reflexivity|]). lia.
    - do 12 (destruct j as [|j]; [vm_compute; reflexivity|]). lia. }
  change (nsteps attached_step 12 (world_end (take 0 ls) (start_world fresh_node))
    (world_end (take 12 ls) (start_world fresh_node))).
  assert (∀ j, (j ≤ 12)%nat → nsteps attached_step j (world_end (take 0 ls) (start_world fresh_node))
    (world_end (take j ls) (start_world fresh_node))) as Hrun; [|by apply Hrun].
  induction j as [|j IH]; intros Hj; [constructor|]. eapply nsteps_r; [apply IH; lia|]. apply Hstep. lia.
Defined.
