(* ===== verification/ClientApi.v ===== *)
(** * The dispatch API of a node ([internal/peer/dispatch.go], [internal/peer/message.go])

    [CreateSession], [JoinSession], [ListSessions], [Heartbeat] and [ListPeers]
    are written over the interface [Requester]: something that performs a
    [dispatchRequest] and gives access to the node's session.  Its instance
    [lobby_requester] is a node and the server it is attached to. *)

From Stdlib Require Import ZArith Lia.
From stdpp Require Import base list gmap strings numbers.
From S2P Require Import Prelude Runtime Strconv Ephemeral Deck Peer Dispatch Remote Client.

#[local] Open Scope Z_scope.

(** What the API needs of the state [W] it runs in. *)
Class Requester (W : Type) := {
  dispatchRequest : Frame → W → W * res call_err Frame;
  dispatchSend : Frame → W → W * res call_err unit;
  store_session : string → W → W;
  attached : W → bool;
}.

Inductive api_err := ApiCall (e : call_err) | ApiRefused (msg : string).

Record PeerInfo := mkPeerInfo { PeerInfo_ID : string; PeerInfo_Addr : string }.

(** [protocol.Frame{Kind: kind, SessionID: sessionID}] *)
Definition request (kind sessionID : string) : Frame :=
  mkFrame kind "" "" sessionID "" "" [] false "" [] [] [] 0 [] 0 0.

Section api.
Context `{Requester W}.

(** A request whose response says whether it succeeded. *)
Definition checked {A} (r : W * res call_err Frame) (k : Frame → W → W * res api_err A) : W * res api_err A :=
  match r with
  | (w, Err e) => (w, Err (ApiCall e))
  | (w, Panic) => (w, Panic)
  | (w, Ok resp) => if Success resp then k resp w else (w, Err (ApiRefused (Error resp)))
  end.

Definition CreateSession (sessionID : string) (w : W) : W * res api_err string :=
  checked (dispatchRequest (request KindCreateSessionReq sessionID) w) (λ resp w,
    (store_session (FSessionID resp) w, Ok (FSessionID resp))).

Definition JoinSession (sessionID : string) (w : W) : W * res api_err unit :=
  checked (dispatchRequest (request KindJoinSessionReq sessionID) w) (λ resp w,
    (store_session (FSessionID resp) w, Ok tt)).

Definition ListSessions (w : W) : W * res api_err (list string) :=
  checked (dispatchRequest (request KindListSessionsReq "") w) (λ resp w, (w, Ok (SessionIDs resp))).

Definition StartGame (w : W) : W * res call_err unit := dispatchSend (request KindGameStart "") w.

Definition Heartbeat (w : W) : W * res api_err unit :=
  checked (dispatchRequest (request KindHeartbeatReq "") w) (λ _ w, (w, Ok tt)).

(** The interval of the ticker, and what one tick of it does. *)
Definition heartbeat_interval (interval : Z) : Z := if interval <=? 0 then 2 * 1000000000 else interval.
Definition heartbeat_tick (w : W) : W := if attached w then fst (Heartbeat w) else w.

(** [peers[i] = PeerInfo{resp.PeerIDs[i], resp.PeerAddresses[i]}] for every [i] below
    [len(resp.PeerIDs)]; indexing past the addresses panics. *)
Fixpoint zip_peers (ids addrs : list string) : res api_err (list PeerInfo) :=
  match ids, addrs with
  | [], _ => Ok []
  | _ :: _, [] => Panic
  | id :: ids, addr :: addrs =>
      match zip_peers ids addrs with
      | Ok ps => Ok (mkPeerInfo id addr :: ps)
      | r => r
      end
  end.

Definition ListPeers (w : W) : W * res api_err (list PeerInfo) :=
  checked (dispatchRequest (request KindListPeersReq "") w) (λ resp w,
    (w, zip_peers (PeerIDs resp) (PeerAddresses resp))).

(** The heartbeats of [n] ticks. *)
Definition heartbeats (n : nat) (w : W) : W := Nat.iter n heartbeat_tick w.

End api.

(** ** A node and its server

    [lconn] is the server's handle of the node's connection and [lclock] the
    time at which the server handles the next frame. *)
Record lobby_world := mkLobby { lserver : Server; lclient : Client; lconn : nat; lclock : Z }.

Section lobby.
Context `{GoRuntime}.

(** The frames of [out] that go to connection [c]. *)
Definition sent_to (c : nat) (out : list output) : list Frame :=
  omap (λ o, match o with Dispatch.Send c' f => if decide (c' = c) then Some f else None | Close _ => None end) out.

(** The request is sent, the server handles it, and the read loop hands the
    first frame with the request's id to the caller; when the server does not
    answer the caller waits until its context ends. *)
Definition lobby_request (f : Frame) (w : lobby_world) : lobby_world * res call_err Frame :=
  if negb (IsAttached (lclient w)) then (w, Err NotAttached)
  else
    let '(requestID, cl) := nextRequestID (lclient w) in
    match handleFrame (lconn w) (with_request f requestID) (lclock w) (lserver w) with
    | Ok (s, out) =>
        (mkLobby s cl (lconn w) (lclock w),
         match list_find (λ resp, RequestID resp = requestID) (sent_to (lconn w) out) with
         | Some (_, resp) => Ok resp
         | None => Err CtxDone
         end)
    | _ => (mkLobby (lserver w) cl (lconn w) (lclock w), Err ConnClosed)
    end.

(** A frame that is not answered: the read loop takes what the server pushes. *)
Definition lobby_send (f : Frame) (w : lobby_world) : lobby_world * res call_err unit :=
  if negb (IsAttached (lclient w)) then (w, Err NotAttached)
  else
    match handleFrame (lconn w) f (lclock w) (lserver w) with
    | Ok (s, out) =>
        (mkLobby s (foldl (λ cl f, handle_push f cl) (lclient w) (sent_to (lconn w) out)) (lconn w) (lclock w), Ok tt)
    | _ => (w, Err SendFailed)
    end.

#[export] Instance lobby_requester : Requester lobby_world := {
  dispatchRequest := lobby_request;
  dispatchSend := lobby_send;
  store_session sid w := mkLobby (lserver w) (set_session sid (lclient w)) (lconn w) (lclock w);
  attached w := IsAttached (lclient w);
}.

End lobby.
