(* ===== verification/ClientApiProps.v ===== *)
(** * The dispatch API against the server: theorems

    What a node believes about its session is what the server has recorded;
    [ListPeers] returns exactly the session's members; heartbeats keep the
    node's lease; and a game start gives every member the same seating with
    its own seat in it. *)

From Stdlib Require Import ZArith Lia.
From stdpp Require Import base list gmap strings numbers sorting relations fin_maps.
From S2P Require Import Prelude Runtime Strconv Ephemeral Deck DeckProps Peer Dispatch DispatchProps Remote Client ClientApi.

#[local] Open Scope Z_scope.

(** The node [id] is registered on its connection, attached, and agrees with
    the server about its session. *)
Record in_lobby (id : string) (nc : nodeConn) (w : lobby_world) : Prop := {
  il_consistent : consistent (lserver w);
  il_conn : conns (lserver w) !! lconn w = Some nc;
  il_node : nodes (lserver w) !! id = Some (lconn w);
  il_id : ncid nc = id;
  il_attached : IsAttached (lclient w) = true;
  il_name : nid (cnode (lclient w)) = id;
  il_session : csession (lclient w) = sessionID nc;
}.

Definition rejoins (sid : string) (w : lobby_world) : Prop :=
  sole_rejoin (lconn w) (request KindJoinSessionReq sid) (lserver w).

Section api.
Context (RT : GoRuntime) (L : @RuntimeLaws RT).

(** ** One request *)

(** The state in which the handlers run: the lease is renewed. *)
Definition renewed_conn (w : lobby_world) (nc : nodeConn) : nodeConn :=
  set_lease (lclock w + LeaseTTL (cfg (lserver w))) nc.

Definition renewed (w : lobby_world) (nc : nodeConn) : Server :=
  Dispatch.set_conn (lconn w) (renewed_conn w nc) (lserver w).

(** The switch of [handleFrame]. *)
Definition route (c : nat) (nc : nodeConn) (f : Frame) (now : Z) (s : Server) : res Empty_set (Server * list output) :=
  if decide (Kind f = KindCreateSessionReq) then Ok (handleCreateSession c nc f s)
  else if decide (Kind f = KindJoinSessionReq) then Ok (handleJoinSession c nc f s)
  else if decide (Kind f = KindListPeersReq) then handleListPeers c nc f s
  else if decide (Kind f = KindListSessionsReq) then Ok (handleListSessions c f s)
  else if decide (Kind f = KindHeartbeatReq) then Ok (handleHeartbeat c nc f now s)
  else if decide (Kind f = KindGameStart) then Ok (s, handleGameStart c nc s s)
  else Ok (s, [Dispatch.Send c (reply_err (Kind f) (RequestID f) "unknown frame kind")]).

Lemma handle_route id nc w f :
  in_lobby id nc w →
  handleFrame (lconn w) f (lclock w) (lserver w)
  = route (lconn w) (renewed_conn w nc) f (lclock w) (renewed w nc).
Proof.
  intros [Hcons Hc Hn Hid _ _ _]. unfold handleFrame. rewrite Hc, Hid.
  rewrite (renewLease_spec _ _ _ nc (lclock w) Hn Hc). cbn [conns Dispatch.set_conn].
  by rewrite lookup_insert_eq.
Qed.

Lemma renewed_ok id nc w :
  in_lobby id nc w →
  consistent (renewed w nc) ∧ abs (renewed w nc) = abs (lserver w) ∧
  nodes (renewed w nc) !! id = Some (lconn w) ∧ conns (renewed w nc) !! lconn w = Some (renewed_conn w nc).
Proof.
  intros [Hcons Hc Hn Hid _ _ _]. subst id.
  destruct (renew_consistent _ _ nc (lclock w + LeaseTTL (cfg (lserver w))) Hcons Hn Hc) as [? ?].
  split_and!; [done..|apply lookup_insert_eq].
Qed.

(** A request answered by one frame with its id. *)
Lemma lobby_request_reply id nc w f s' resp :
  in_lobby id nc w →
  let rid := (nextRequestID (lclient w)).1 in
  route (lconn w) (renewed_conn w nc) (with_request f rid) (lclock w) (renewed w nc)
  = Ok (s', [Dispatch.Send (lconn w) resp]) → RequestID resp = rid →
  lobby_request f w = (mkLobby s' (nextRequestID (lclient w)).2 (lconn w) (lclock w), Ok resp).
Proof.
  intros Hin rid Hroute Hr. unfold lobby_request. rewrite (il_attached _ _ _ Hin). cbn [negb].
  destruct (nextRequestID (lclient w)) as [r cl] eqn:Hnext. cbn [fst snd] in *. subst rid.
  rewrite (handle_route id nc w _ Hin), Hroute. unfold sent_to. cbn. rewrite decide_True by done. cbn.
  by rewrite decide_True.
Qed.

(** The world after a request, the node's own fields but the counter kept. *)
Lemma in_lobby_after id nc w s' nc' sid' :
  in_lobby id nc w → consistent s' → nodes s' !! id = Some (lconn w) → conns s' !! lconn w = Some nc' →
  ncid nc' = id → sid' = sessionID nc' →
  in_lobby id nc' (mkLobby s' (set_session sid' (nextRequestID (lclient w)).2) (lconn w) (lclock w)).
Proof. intros [] ? ? ? ? ->. by split. Qed.

Lemma next_keeps_session w : (nextRequestID (lclient w)).2 = set_session (csession (lclient w)) (nextRequestID (lclient w)).2.
Proof. by destruct w as [? [] ? ?]. Qed.

(** What a session request does to the connection's record, and its answer. *)
Inductive session_reply (c : nat) (nc : nodeConn) (f : Frame) (s s' : Server) (sid : string) (found : bool) : list output → Prop :=
| reply_moved resp :
    found = true → Success resp = true → RequestID resp = RequestID f → FSessionID resp = sid → sid ≠ "" →
    nodes s' = nodes s → conns s' !! c = Some (set_sessionID sid nc) →
    session_reply c nc f s s' sid found [Dispatch.Send c resp]
| reply_refused resp :
    found = false → Success resp = false → RequestID resp = RequestID f → nodes s' = nodes s → conns s' = conns s →
    session_reply c nc f s s' sid found [Dispatch.Send c resp].

Definition new_session (sid : string) (s : Server) : string := if decide (sid = "") then (nextSessionID s).1 else sid.

Lemma create_reply c nc f s :
  session_reply c nc f s (handleCreateSession c nc f s).1 (new_session (FSessionID f) s)
    (bool_decide (sessions s !! new_session (FSessionID f) s = None)) (handleCreateSession c nc f s).2.
Proof.
  unfold handleCreateSession.
  set (p := if decide (FSessionID f = "") then nextSessionID s else (FSessionID f, s)).
  assert (nodes p.2 = nodes s ∧ sessions p.2 = sessions s ∧ conns p.2 = conns s ∧ p.1 ≠ "" ∧
    p.1 = new_session (FSessionID f) s) as (Hn & Hs & Hcs & Hne & Hp).
  { unfold p, new_session. by destruct (decide (FSessionID f = "")). }
  rewrite <- Hp. clearbody p. destruct p as [sid s1]. cbn [fst snd] in *. rewrite Hs.
  destruct (sessions s !! sid) as [x|] eqn:Hx; cbn [fst snd].
  - by apply reply_refused.
  - rewrite leave_sessions. apply reply_moved; try done. apply lookup_insert_eq.
Qed.

Lemma join_reply c nc f s :
  session_reply c nc f s (handleJoinSession c nc f s).1 (FSessionID f)
    (bool_decide (FSessionID f ≠ "" ∧ is_Some (sessions s !! FSessionID f))) (handleJoinSession c nc f s).2.
Proof.
  unfold handleJoinSession. case_decide as Hd; cbn [fst snd].
  { apply reply_refused; try done. apply bool_decide_eq_false. by intros [? _]. }
  destruct (sessions s !! FSessionID f) as [x|] eqn:Hx; cbn [fst snd].
  - rewrite leave_sessions. apply reply_moved; try done.
    + apply bool_decide_eq_true. by split.
    + unfold add_member. by destruct (sessions (set_sessions _ _) !! _).
    + apply lookup_insert_eq.
  - apply reply_refused; try done. apply bool_decide_eq_false. by intros [_ [? ?]].
Qed.

(** What [CreateSession] and [JoinSession] do with the lobby. *)
Definition moved (w : lobby_world) (id sid : string) (w' : lobby_world) : Prop :=
  sid ≠ "" ∧ abs (lserver w') = <[id := sid]> (abs (lserver w)) ∧ csession (lclient w') = sid.
Definition stayed (w w' : lobby_world) : Prop :=
  abs (lserver w') = abs (lserver w) ∧ csession (lclient w') = csession (lclient w).

(** A session request of a node in the lobby, from what the handler does. *)
Lemma session_request id nc w f s' sid found out {A} (k : Frame → lobby_world → lobby_world * res api_err A) a :
  in_lobby id nc w →
  route (lconn w) (renewed_conn w nc) (with_request f (nextRequestID (lclient w)).1) (lclock w) (renewed w nc) = Ok (s', out) →
  session_reply (lconn w) (renewed_conn w nc) (with_request f (nextRequestID (lclient w)).1) (renewed w nc) s' sid found out →
  consistent s' → abs s' = (if found then <[id := sid]> (abs (lserver w)) else abs (lserver w)) →
  (∀ resp w', k resp w' = (store_session (FSessionID resp) w', Ok (a (FSessionID resp)))) →
  ∃ w' nc', in_lobby id nc' w' ∧
    if found then checked (lobby_request f w) k = (w', Ok (a sid)) ∧ moved w id sid w'
    else (∃ msg, checked (lobby_request f w) k = (w', Err (ApiRefused msg))) ∧ stayed w w'.
Proof.
  intros Hin Hroute Hr Hcons Habs Hk. destruct (renewed_ok id nc w Hin) as (_ & _ & Hn1 & Hc1).
  inversion Hr as [resp Hf Hs Hrid Hsid Hne Hn Hc Heq|resp Hf Hs Hrid Hn Hc Heq]; subst found out;
    rewrite (lobby_request_reply id nc w f s' resp Hin Hroute Hrid); unfold checked; rewrite Hs.
  - rewrite Hk, Hsid. eexists _, (set_sessionID sid (renewed_conn w nc)). split; [|split; [done|]].
    + apply (in_lobby_after id nc w s' _ sid Hin Hcons); [by rewrite Hn|done|apply (il_id _ _ _ Hin)|done].
    + done.
  - eexists _, (renewed_conn w nc). split; [|split; [by eexists|]].
    + rewrite (next_keeps_session w).
      apply (in_lobby_after id nc w s' _ _ Hin Hcons); [by rewrite Hn|by rewrite Hc|apply Hin|apply Hin].
    + split; [exact Habs|]. by rewrite (next_keeps_session w).
Qed.

Lemma create_session_spec id nc w sid :
  in_lobby id nc w →
  ∃ w' nc', in_lobby id nc' w' ∧
    if bool_decide (sessions (lserver w) !! new_session sid (lserver w) = None)
    then CreateSession sid w = (w', Ok (new_session sid (lserver w))) ∧ moved w id (new_session sid (lserver w)) w'
    else (∃ msg, CreateSession sid w = (w', Err (ApiRefused msg))) ∧ stayed w w'.
Proof.
  intros Hin. destruct (renewed_ok id nc w Hin) as (Hcons1 & Habs1 & Hn1 & Hc1).
  set (f := request KindCreateSessionReq sid). set (f' := with_request f (nextRequestID (lclient w)).1).
  pose proof (create_reply (lconn w) (renewed_conn w nc) f' (renewed w nc)) as Hr.
  assert (nodes (renewed w nc) !! ncid (renewed_conn w nc) = Some (lconn w)) as Hn by (by cbn; rewrite (il_id _ _ _ Hin)).
  pose proof (create_step (renewed w nc) (lconn w) (renewed_conn w nc) f' Hcons1 Hn Hc1) as Hstep.
  change (sessions (lserver w)) with (sessions (renewed w nc)).
  change (new_session sid (lserver w)) with (new_session (FSessionID f') (renewed w nc)).
  unfold new_session in Hr |- *.
  destruct (handleCreateSession (lconn w) (renewed_conn w nc) f' (renewed w nc)) as [s' out] eqn:Hh. cbn [fst snd] in Hr.
  assert (consistent s' ∧ abs s' = match sessions (renewed w nc) !! new_session (FSessionID f') (renewed w nc) with
    | Some _ => abs (renewed w nc) | None => <[id := new_session (FSessionID f') (renewed w nc)]> (abs (renewed w nc)) end)
    as [Hcons Habs].
  { unfold new_session. cbn [ncid renewed_conn set_lease] in Hstep. rewrite (il_id _ _ _ Hin) in Hstep.
    destruct (decide (FSessionID f' = "")); exact Hstep. }
  eapply (session_request id nc w f s' _ _ out _ (λ x, x)); [done| |exact Hr|done| |done].
  - unfold route. rewrite decide_True by done. fold f'. by rewrite Hh.
  - rewrite Habs, Habs1. unfold new_session. destruct (sessions (renewed w nc) !! _); [by rewrite bool_decide_eq_false_2|].
    by rewrite bool_decide_eq_true_2.
Qed.

Lemma join_session_spec id nc w sid :
  in_lobby id nc w → ¬ rejoins sid w →
  ∃ w' nc', in_lobby id nc' w' ∧
    if bool_decide (sid ≠ "" ∧ is_Some (sessions (lserver w) !! sid))
    then JoinSession sid w = (w', Ok tt) ∧ moved w id sid w'
    else (∃ msg, JoinSession sid w = (w', Err (ApiRefused msg))) ∧ stayed w w'.
Proof.
  intros Hin Hsole. destruct (renewed_ok id nc w Hin) as (Hcons1 & Habs1 & Hn1 & Hc1).
  set (f := request KindJoinSessionReq sid). set (f' := with_request f (nextRequestID (lclient w)).1).
  pose proof (join_reply (lconn w) (renewed_conn w nc) f' (renewed w nc)) as Hr.
  assert (nodes (renewed w nc) !! ncid (renewed_conn w nc) = Some (lconn w)) as Hn by (by cbn; rewrite (il_id _ _ _ Hin)).
  assert (¬ ∃ sess, FSessionID f' = sessionID (renewed_conn w nc) ∧
    sessions (renewed w nc) !! sessionID (renewed_conn w nc) = Some sess ∧ members sess = {[ncid (renewed_conn w nc)]}) as Hs1.
  { intros (sess & ? & ? & ?). apply Hsole. exists nc, sess. split_and!; try done. apply Hin. }
  pose proof (join_step (renewed w nc) (lconn w) (renewed_conn w nc) f' Hcons1 Hn Hc1 Hs1) as Hstep.
  destruct (handleJoinSession (lconn w) (renewed_conn w nc) f' (renewed w nc)) as [s' out] eqn:Hh. cbn [fst snd] in Hr.
  destruct Hstep as [Hcons Habs].
  eapply (session_request id nc w f s' _ _ out _ (λ _, tt)); [done| |exact Hr|done| |done].
  - unfold route. rewrite decide_False, decide_True by done. fold f'. by rewrite Hh.
  - rewrite Habs, Habs1. cbn [ncid renewed_conn set_lease]. rewrite (il_id _ _ _ Hin).
    change (FSessionID f') with sid. change (sessions (renewed w nc)) with (sessions (lserver w)).
    destruct (sessions (lserver w) !! sid) eqn:Hx; [destruct (decide (sid = ""))|].
    + rewrite bool_decide_eq_false_2; [done|]. by intros [? _].
    + by rewrite bool_decide_eq_true_2.
    + rewrite bool_decide_eq_false_2; [done|]. by intros [_ [? ?]].
Qed.

(** ** Requests that move nobody *)

Lemma zip_peers_pairs l : zip_peers l.*1 l.*2 = Ok ((λ p, mkPeerInfo p.1 p.2) <$> l).
Proof. induction l as [|[a b] l IH]; [done|]. cbn. by rewrite IH. Qed.

(** A request that is answered without changing the lobby. *)
Lemma read_request id nc w f resp s' {A} (k : Frame → lobby_world → lobby_world * res api_err A) r :
  in_lobby id nc w →
  route (lconn w) (renewed_conn w nc) (with_request f (nextRequestID (lclient w)).1) (lclock w) (renewed w nc)
  = Ok (s', [Dispatch.Send (lconn w) resp]) →
  RequestID resp = (nextRequestID (lclient w)).1 → Success resp = true →
  consistent s' → abs s' = abs (lserver w) → nodes s' = nodes (lserver w) → conns s' !! lconn w = Some (renewed_conn w nc) →
  (∀ w', k resp w' = (w', r)) →
  ∃ w', checked (lobby_request f w) k = (w', r) ∧ in_lobby id (renewed_conn w nc) w' ∧ stayed w w'.
Proof.
  intros Hin Hroute Hrid Hs Hcons Habs Hn Hc Hk.
  rewrite (lobby_request_reply id nc w f s' resp Hin Hroute Hrid). unfold checked. rewrite Hs, Hk.
  eexists. split; [done|]. rewrite (next_keeps_session w). split; [|done].
  apply (in_lobby_after id nc w s' _ _ Hin Hcons); [rewrite Hn; apply Hin|done|apply Hin|apply Hin].
Qed.

Lemma heartbeat_spec id nc w :
  in_lobby id nc w →
  ∃ w', Heartbeat w = (w', Ok tt) ∧ in_lobby id (renewed_conn w nc) w' ∧ stayed w w'.
Proof.
  intros Hin. destruct (renewed_ok id nc w Hin) as (Hcons1 & Habs1 & Hn1 & Hc1).
  assert (nodes (renewed w nc) !! ncid (renewed_conn w nc) = Some (lconn w)) as Hn by (by cbn; rewrite (il_id _ _ _ Hin)).
  destruct (renew_consistent _ _ _ (lclock w + LeaseTTL (cfg (lserver w))) Hcons1 Hn Hc1) as [Hcons2 Habs2].
  eapply (read_request id nc w); [exact Hin|..].
  1: { unfold route, handleHeartbeat. do 4 rewrite decide_False by done. rewrite decide_True by done.
       by rewrite (renewLease_spec _ _ _ _ (lclock w) Hn Hc1). }
  all: try done.
  - by rewrite <- Habs1.
  - apply lookup_insert_eq.
Qed.

Lemma list_sessions_spec id nc w :
  in_lobby id nc w →
  ∃ w' sids, ListSessions w = (w', Ok sids) ∧ in_lobby id (renewed_conn w nc) w' ∧ stayed w w' ∧ NoDup sids ∧
    (∀ sid, sid ∈ sids ↔ is_Some (sessions (lserver w) !! sid)).
Proof.
  intros Hin. destruct (renewed_ok id nc w Hin) as (Hcons1 & Habs1 & Hn1 & Hc1).
  set (sids := range_order (map_to_list (sessions (lserver w))).*1).
  assert (∃ w', ListSessions w = (w', Ok sids) ∧ in_lobby id (renewed_conn w nc) w' ∧ stayed w w')
    as (w' & Hl & Hin' & Hst).
  { eapply (read_request id nc w); [exact Hin|..].
    1: unfold route, handleListSessions; do 3 rewrite decide_False by done; by rewrite decide_True by done.
    all: done. }
  exists w', sids. split_and!; [done..| |].
  - unfold sids. rewrite range_perm. apply NoDup_fst_map_to_list.
  - intros sid. unfold sids. rewrite range_perm, list_elem_of_fmap. split.
    + intros ([? x] & -> & ?%elem_of_map_to_list). by exists x.
    + intros [x Hx]. exists (sid, x). split; [done|]. by apply elem_of_map_to_list.
Qed.

(** The members that [handleListPeers] lists, with their addresses. *)
Lemma list_members_elem s ids p :
  p ∈ list_members s ids ↔ p.1 ∈ ids ∧ ∃ c nc, nodes s !! p.1 = Some c ∧ conns s !! c = Some nc ∧ peerAddr nc = p.2.
Proof.
  unfold list_members. rewrite list_elem_of_omap. split.
  - intros (id & Hid & Hx). destruct (nodes s !! id) as [c|] eqn:Hc; [|done]. cbn in Hx.
    destruct (conns s !! c) as [nc|] eqn:Hnc; [|done]. injection Hx as <-. cbn. split; [done|]. by exists c, nc.
  - intros (Hid & c & nc & Hc & Hnc & Ha). exists p.1. split; [done|]. rewrite Hc. cbn. rewrite Hnc. cbn. rewrite Ha.
    by destruct p.
Qed.

Lemma list_members_ids s ids : NoDup ids → NoDup (list_members s ids).*1.
Proof.
  intros Hnd. induction Hnd as [|id ids Hid _ IH]; [constructor|]. unfold list_members in *. cbn.
  destruct (nodes s !! id ≫= _) as [p|] eqn:Hp; [|done]. cbn. constructor; [|done].
  assert (p.1 = id) as ->.
  { destruct (nodes s !! id) as [c|]; [|done]. cbn in Hp. destruct (conns s !! c); [|done]. by injection Hp as <-. }
  intros (q & Hq & Hin)%list_elem_of_fmap. apply list_members_elem in Hin as [? _]. congruence.
Qed.

(** [ListPeers] returns the session's members.  A node in the lobby that asks
    for its peers gets exactly the nodes the server has in the same session
    (itself among them), each once and with the address it registered, or is
    refused when it is in no session; indexing the addresses never panics, and
    neither side changes its view of the lobby. *)
Theorem list_peers_exact id nc w :
  in_lobby id nc w →
  ∃ w', in_lobby id (renewed_conn w nc) w' ∧ stayed w w' ∧
    if decide (sessionID nc = "") then ∃ msg, ListPeers w = (w', Err (ApiRefused msg))
    else ∃ ps, ListPeers w = (w', Ok ps) ∧ NoDup (PeerInfo_ID <$> ps) ∧
           mkPeerInfo id (peerAddr nc) ∈ ps ∧
           ∀ p, p ∈ ps ↔ abs (lserver w) !! PeerInfo_ID p = Some (sessionID nc) ∧
             ∃ c nc', nodes (lserver w) !! PeerInfo_ID p = Some c ∧ conns (lserver w) !! c = Some nc' ∧
               peerAddr nc' = PeerInfo_Addr p.
Proof.
  intros Hin. destruct (renewed_ok id nc w Hin) as (Hcons1 & Habs1 & Hn1 & Hc1).
  set (f := request KindListPeersReq ""). set (f' := with_request f (nextRequestID (lclient w)).1).
  assert (route (lconn w) (renewed_conn w nc) f' (lclock w) (renewed w nc)
    = handleListPeers (lconn w) (renewed_conn w nc) f' (renewed w nc)) as Hroute.
  { unfold route. do 2 rewrite decide_False by done. by rewrite decide_True by done. }
  unfold handleListPeers in Hroute. cbn [sessionID renewed_conn set_lease] in Hroute.
  destruct (decide (sessionID nc = "")) as [Hs|Hs].
  { unfold ListPeers. cbn [dispatchRequest lobby_requester]. fold f.
    rewrite (lobby_request_reply id nc w f _ _ Hin Hroute eq_refl). cbn [checked Success reply_err].
    eexists. split; [|split; [|by eexists]]; rewrite (next_keeps_session w); [|done].
    apply (in_lobby_after id nc w _ _ _ Hin Hcons1); [done|done|apply Hin|apply Hin]. }
  pose proof (consistent_abs _ _ _ _ Hcons1 Hn1 Hc1) as Ha. rewrite Habs1 in Ha. cbn in Ha.
  destruct (proj2 (proj2 (il_consistent _ _ _ Hin)) id (sessionID nc) Ha Hs) as [sess Hsess].
  destruct (proj1 (proj2 (il_consistent _ _ _ Hin)) _ _ Hsess) as (_ & _ & _ & Hmem).
  change (sessions (renewed w nc)) with (sessions (lserver w)) in Hroute. rewrite Hsess in Hroute.
  set (l := list_members (renewed w nc) (range_order (elements (members sess)))) in *.
  assert (∃ w', ListPeers w = (w', Ok ((λ p, mkPeerInfo p.1 p.2) <$> l)) ∧ in_lobby id (renewed_conn w nc) w' ∧ stayed w w')
    as (w' & Hl & Hin' & Hst).
  { eapply (read_request id nc w f); [exact Hin|exact Hroute|done..|]. intros w'. cbn. by rewrite zip_peers_pairs. }
  exists w'. split; [done|]. split; [done|]. eexists. split; [exact Hl|].
  assert (∀ p, p ∈ l ↔ abs (lserver w) !! p.1 = Some (sessionID nc) ∧
    ∃ c nc', nodes (lserver w) !! p.1 = Some c ∧ conns (lserver w) !! c = Some nc' ∧ peerAddr nc' = p.2) as Hel.
  { intros p. unfold l. rewrite list_members_elem, range_perm, elem_of_elements, Hmem.
    apply and_iff_compat_l. change (nodes (renewed w nc)) with (nodes (lserver w)).
    split; intros (c & nc' & Hc & Hnc & Hp); exists c.
    - cbn in Hnc. apply lookup_insert_Some in Hnc as [[<- <-]|[? Hnc]]; [|by exists nc'].
      exists nc. split_and!; [done|apply Hin|done].
    - cbn. destruct (decide (c = lconn w)) as [->|Hne].
      + rewrite lookup_insert_eq. eexists. split_and!; [done..|]. rewrite <- Hp. cbn. f_equal. pose proof (il_conn _ _ _ Hin). congruence.
      + rewrite lookup_insert_ne by done. by exists nc'. }
  split_and!.
  - rewrite <- list_fmap_compose. apply list_members_ids. rewrite range_perm. apply NoDup_elements.
  - apply list_elem_of_fmap. exists (id, peerAddr nc). split; [done|]. apply Hel. split; [done|].
    exists (lconn w), nc. split_and!; [apply Hin|apply Hin|done].
  - intros [pid pa]. rewrite list_elem_of_fmap. split.
    + intros (q & [= -> ->] & Hq). by apply Hel.
    + intros Hp. exists (pid, pa). split; [done|]. by apply Hel.
Qed.

(** ** Other nodes *)

(** What the rest of the world may do: events of other connections and nodes. *)
Definition foreign (id : string) (c : nat) (e : server_event) : Prop :=
  match e with
  | EvRegister c' _ _ => c' ≠ c
  | EvFrame c' _ _ => c' ≠ c
  | EvDisconnect id' => id' ≠ id
  end.

Lemma foreign_keeps id c nc e s s' out :
  consistent s → conns s !! c = Some nc → nodes s !! id = Some c → ncid nc = id →
  well_behaved e s → foreign id c e → serve e s = Ok (s', out) →
  consistent s' ∧ conns s' !! c = Some nc ∧ nodes s' !! id = Some c ∧ cfg s' = cfg s.
Proof.
  intros Hcons Hc Hn Hid Hw Hf Hs. split.
  { destruct (serve_step e s Hcons Hw) as (s1 & out1 & Hs1 & Hc1 & _). congruence. }
  destruct e as [c' f now|c' f now|id']; cbn in Hw, Hf, Hs.
  - revert Hs. unfold register. case_decide; [|by intros [= <- <-]].
    set (p := if decide (FNodeID f = "") then nextNodeID s else (FNodeID f, s)).
    assert (nodes p.2 = nodes s ∧ conns p.2 = conns s ∧ cfg p.2 = cfg s) as (Hpn & Hpc & Hpf).
    { unfold p. by destruct (decide (FNodeID f = "")). }
    clearbody p. destruct p as [nodeID s1]. cbn [fst snd] in *.
    destruct (nodes s1 !! nodeID) as [x|] eqn:Hx; intros [= <- <-]; [by rewrite Hpn, Hpc|].
    cbn. rewrite !lookup_insert_ne, Hpn, Hpc; [done| |done]. intros ->. congruence.
  - destruct Hw as [Hlive _]. destruct (handleFrame_frame _ _ _ _ _ _ Hlive Hs) as (-> & -> & Hco & _).
    by rewrite Hco.
  - unfold disconnect in Hs. destruct (nodes s !! id') as [c'|] eqn:Hc'; [|by injection Hs as <- <-].
    destruct (proj1 Hcons _ _ Hc') as (nc' & Hnc' & <-). rewrite Hnc', leave_sessions in Hs.
    injection Hs as <- <-. cbn. rewrite lookup_delete_ne by done. split_and!; [|done..].
    rewrite lookup_insert_ne; [done|]. intros ->. destruct Hf. by eapply handle_inj; [apply Hcons|..].
Qed.

(** One tick of the reaper leaves a node with a lease alone. *)
Lemma reap_keeps now s id c nc :
  consistent s → conns s !! c = Some nc → nodes s !! id = Some c → now ≤ leaseUntil nc →
  consistent (reap now s).1 ∧ conns (reap now s).1 !! c = Some nc ∧ nodes (reap now s).1 !! id = Some c ∧
  cfg (reap now s).1 = cfg s.
Proof.
  intros Hcons Hc Hn Hl. unfold reap.
  assert (id ∉ expired_nodes now s) as Hid.
  { intros (c' & nc' & ? & ? & ?)%elem_of_expired. assert (c' = c) by congruence. subst c'.
    assert (nc' = nc) by congruence. subst nc'. lia. }
  destruct (proj1 Hcons _ _ Hn) as (nc0 & Hnc0 & Hncid). assert (nc0 = nc) as -> by congruence.
  revert Hid. generalize (expired_nodes now s). intros ids. generalize (@nil output). revert s Hcons Hc Hn Hnc0.
  induction ids as [|i ids IH]; intros s Hcons Hc Hn Hnc0 out Hid; cbn [fold_left fst snd]; [done|].
  apply not_elem_of_cons in Hid as [Hne Hid]. destruct (disconnect i s) as [s' out'] eqn:Hd.
  destruct (foreign_keeps id c nc (EvDisconnect i) s s' out') as (? & ? & ? & Hcfg); [done..|by cbn; rewrite Hd|].
  rewrite <- Hcfg. by apply IH.
Qed.

(** ** A node's life in the lobby *)

Inductive api_op := OpCreate (sid : string) | OpJoin (sid : string) | OpListSessions | OpHeartbeat | OpListPeers.

Definition api_exec (op : api_op) (w : lobby_world) : lobby_world :=
  match op with
  | OpCreate sid => (CreateSession sid w).1
  | OpJoin sid => (JoinSession sid w).1
  | OpListSessions => (ListSessions w).1
  | OpHeartbeat => (Heartbeat w).1
  | OpListPeers => (ListPeers w).1
  end.

Definition allowed (op : api_op) (w : lobby_world) : Prop :=
  match op with OpJoin sid => ¬ rejoins sid w | _ => True end.

Definition op_frame (op : api_op) (r : string) : Frame :=
  with_request (match op with
                | OpCreate sid => request KindCreateSessionReq sid
                | OpJoin sid => request KindJoinSessionReq sid
                | OpListSessions => request KindListSessionsReq ""
                | OpHeartbeat => request KindHeartbeatReq ""
                | OpListPeers => request KindListPeersReq ""
                end) r.

Lemma api_exec_lobby id nc op w :
  in_lobby id nc w → allowed op w → ∃ nc', in_lobby id nc' (api_exec op w).
Proof.
  intros Hin Hal. destruct op as [sid|sid| | |]; cbn [api_exec].
  - destruct (create_session_spec id nc w sid Hin) as (w' & nc' & Hin' & Hr). exists nc'.
    case_bool_decide; [by destruct Hr as [-> _]|]. by destruct Hr as [[? ->] _].
  - destruct (join_session_spec id nc w sid Hin Hal) as (w' & nc' & Hin' & Hr). exists nc'.
    case_bool_decide; [by destruct Hr as [-> _]|]. by destruct Hr as [[? ->] _].
  - destruct (list_sessions_spec id nc w Hin) as (w' & ? & -> & Hin' & _). by eexists.
  - destruct (heartbeat_spec id nc w Hin) as (w' & -> & Hin' & _). by eexists.
  - destruct (list_peers_exact id nc w Hin) as (w' & Hin' & _ & Hr). exists (renewed_conn w nc).
    case_decide; [by destruct Hr as [? ->]|]. by destruct Hr as (? & -> & _).
Qed.

(** A call runs the server's handler once, at the current time. *)
Lemma api_exec_server id nc op w :
  in_lobby id nc w → allowed op w →
  lconn (api_exec op w) = lconn w ∧ lclock (api_exec op w) = lclock w ∧
  ∃ r out, handleFrame (lconn w) (op_frame op r) (lclock w) (lserver w) = Ok (lserver (api_exec op w), out).
Proof.
  intros Hin Hal.
  set (rid := (nextRequestID (lclient w)).1).
  assert (¬ sole_rejoin (lconn w) (op_frame op rid) (lserver w)) as Hsole.
  { destruct op; cbn in Hal |- *; [|exact Hal|..]; by intros (? & ? & ? & ? & _). }
  assert (live (lconn w) (lserver w)) as Hlive by (exists nc; destruct Hin as [? ? ? <-]; done).
  destruct (frame_step (lserver w) (lconn w) (op_frame op rid) (lclock w) (il_consistent _ _ _ Hin) Hlive Hsole)
    as (s' & out & Hh & _).
  assert (∀ A f (k : Frame → lobby_world → lobby_world * res api_err A), op_frame op rid = with_request f rid →
    (∀ resp w', lserver (k resp w').1 = lserver w' ∧ lconn (k resp w').1 = lconn w' ∧ lclock (k resp w').1 = lclock w') →
    let w' := (checked (lobby_request f w) k).1 in lserver w' = s' ∧ lconn w' = lconn w ∧ lclock w' = lclock w) as Hany.
  { intros A f k Hf Hk. unfold lobby_request. rewrite (il_attached _ _ _ Hin). cbn [negb].
    destruct (nextRequestID (lclient w)) as [r cl] eqn:Hn. cbn [fst] in rid. subst rid. rewrite <- Hf, Hh.
    unfold checked. destruct (list_find _ _) as [[? resp]|]; [|done]. destruct (Success resp); [|done].
    apply (Hk resp (mkLobby s' cl (lconn w) (lclock w))). }
  assert (lserver (api_exec op w) = s' ∧ lconn (api_exec op w) = lconn w ∧ lclock (api_exec op w) = lclock w)
    as (-> & -> & ->) by (destruct op; by apply Hany).
  split_and!; [done..|]. by exists rid, out.
Qed.

(** A node that has called [StartHeartbeat], among other nodes.  Time passes
    up to the next tick of the ticker; at a tick the node sends a heartbeat; at
    any moment it may call the API, other nodes may come, act and go, and the
    server's reaper may run.  [blast] is the time of the last tick. *)
Record beating := mkBeating { bworld : lobby_world; blast : Z }.

Definition set_server (s : Server) (w : lobby_world) : lobby_world := mkLobby s (lclient w) (lconn w) (lclock w).
Definition set_clock (t : Z) (w : lobby_world) : lobby_world := mkLobby (lserver w) (lclient w) (lconn w) t.

Inductive life_step (id : string) (interval : Z) : beating → beating → Prop :=
| life_time w last t :
    lclock w ≤ t ≤ last + heartbeat_interval interval →
    life_step id interval (mkBeating w last) (mkBeating (set_clock t w) last)
| life_tick w last :
    life_step id interval (mkBeating w last) (mkBeating (heartbeat_tick w) (lclock w))
| life_call op w last :
    allowed op w → life_step id interval (mkBeating w last) (mkBeating (api_exec op w) last)
| life_other e w last s' out :
    well_behaved e (lserver w) → foreign id (lconn w) e → serve e (lserver w) = Ok (s', out) →
    life_step id interval (mkBeating w last) (mkBeating (set_server s' w) last)
| life_reap w last :
    life_step id interval (mkBeating w last) (mkBeating (set_server (reap (lclock w) (lserver w)).1 w) last).

(** The node is in the lobby and its lease reaches beyond the next tick. *)
Definition leased (id : string) (interval : Z) (b : beating) : Prop :=
  ∃ nc, in_lobby id nc (bworld b) ∧
    blast b ≤ lclock (bworld b) ≤ blast b + heartbeat_interval interval ∧
    heartbeat_interval interval ≤ LeaseTTL (cfg (lserver (bworld b))) ∧
    blast b + LeaseTTL (cfg (lserver (bworld b))) ≤ leaseUntil nc.

Lemma leased_call id interval op w last last' :
  leased id interval (mkBeating w last) → allowed op w → last ≤ last' ≤ lclock w →
  leased id interval (mkBeating (api_exec op w) last').
Proof.
  intros (nc & Hin & Ht & Hi & Hl) Hal Hlast. cbn in *.
  destruct (api_exec_lobby id nc op w Hin Hal) as [nc' Hin'].
  destruct (api_exec_server id nc op w Hin Hal) as (Hconn & Hclock & r & out & Hh).
  assert (live (lconn w) (lserver w)) as Hlive by (exists nc; destruct Hin as [? ? ? <-]; done).
  destruct (handleFrame_frame _ _ _ _ _ _ Hlive Hh) as (_ & Hcfg & _ & Hlease).
  exists nc'. cbn. split_and!; [done|lia|lia|by rewrite Hcfg|].
  rewrite Hcfg, (Hlease nc'); [lia|]. rewrite <- Hconn. apply Hin'.
Qed.

Lemma in_lobby_server id nc w s' :
  in_lobby id nc w → consistent s' → conns s' !! lconn w = Some nc → nodes s' !! id = Some (lconn w) →
  in_lobby id nc (set_server s' w).
Proof. intros [] ? ? ?. by split. Qed.

Lemma leased_step nodeID interval b b' : leased nodeID interval b → life_step nodeID interval b b' → leased nodeID interval b'.
Proof.
  intros Hb Hstep. destruct Hstep as [w last t Ht|w last|op w last Hal|e w last s' out Hw Hf Hs|w last].
  - destruct Hb as (nc & Hin & ? & ? & ?). exists nc. cbn in *. split_and!; [|lia..]. by destruct Hin.
  - unfold heartbeat_tick. destruct Hb as (nc & Hin & Ht & ? & ?). cbn in Hin, Ht. cbn [attached lobby_requester].
    rewrite (il_attached _ _ _ Hin). apply (leased_call nodeID interval OpHeartbeat w last); [by exists nc|done|lia].
  - assert (last ≤ lclock w) by (destruct Hb as (? & _ & ? & _); cbn in *; lia). by eapply leased_call.
  - destruct Hb as (nc & Hin & ? & ? & ?). destruct (id Hin) as [Hcons Hc Hn Hid _ _ _]. cbn in *.
    destruct (foreign_keeps nodeID (lconn w) nc e _ s' out Hcons Hc Hn Hid Hw Hf Hs) as (? & ? & ? & Hcfg).
    exists nc. cbn. rewrite Hcfg. split_and!; [by apply in_lobby_server|lia..].
  - destruct Hb as (nc & Hin & ? & ? & ?). destruct (id Hin) as [Hcons Hc Hn Hid _ _ _]. cbn in *.
    destruct (reap_keeps (lclock w) (lserver w) nodeID (lconn w) nc Hcons Hc Hn ltac:(lia)) as (? & ? & ? & Hcfg).
    exists nc. cbn. rewrite Hcfg. split_and!; [by apply in_lobby_server|lia..].
Qed.


(** ** The start of a game, from the server to the seats *)

Lemma find_seat_spec id order z :
  id ∈ order → ∃ i, find_seat id order z = z + Z.of_nat i ∧ order !! i = Some id.
Proof.
  revert z. induction order as [|x order IH]; intros z Hin; [by apply not_elem_of_nil in Hin|]. cbn.
  case_decide as Hx; [exists 0%nat; split; [lia|by subst]|].
  apply elem_of_cons in Hin as [|Hin]; [congruence|]. destruct (IH (z + 1) Hin) as (i & -> & Hi).
  exists (S i). split; [lia|done].
Qed.

(** What a handle gets of a broadcast along a list of nodes. *)
Lemma broadcast_sent s f ids c :
  nodes_ok s → NoDup ids →
  sent_to c ((λ c', Dispatch.Send c' f) <$> omap (λ id, nodes s !! id) ids)
  = if decide (Exists (λ id, nodes s !! id = Some c) ids) then [f] else [].
Proof.
  intros Hok Hnd. induction Hnd as [|id ids Hid _ IH]; [done|].
  cbn. destruct (nodes s !! id) as [c'|] eqn:Hc'; cbn; unfold sent_to in IH |- *; cbn.
  - destruct (decide (c' = c)) as [->|Hne]; cbn; rewrite IH.
    + rewrite decide_False, decide_True; [done|by left|].
      intros (id' & Hid' & Hc)%list.Exists_exists. destruct Hid. by rewrite (handle_inj s id id' c Hok Hc' Hc).
    + apply decide_ext. rewrite List.Exists_cons. split; [by right|]. intros [?|?]; [congruence|done].
  - rewrite IH. apply decide_ext. rewrite List.Exists_cons. split; [by right|]. intros [?|?]; [congruence|done].
Qed.

(** The session's timeout survives the trip through milliseconds. *)
Lemma timeout_trip t : 0 ≤ t < 2 ^ 63 → i64 (u64 (Z.quot t 1000000) * 1000000) = t / 1000000 * 1000000.
Proof.
  intros Ht. rewrite Z.quot_div_nonneg by lia.
  assert (0 ≤ t / 1000000 ≤ t) by (split; [apply Z.div_pos; lia|apply Z.div_le_upper_bound; lia]).
  assert (t / 1000000 * 1000000 ≤ t) by (pose proof (Z.mul_div_le t 1000000); lia).
  rewrite u64_small by lia. by rewrite i64_small by lia.
Qed.

(** C32: A game start seats the whole session.  When a live connection in a session
    sends [game_start], there is one order of exactly the session's members
    such that every member is sent one frame, and the member that handles it is
    started with that order, its own id at its seat, and the session's attempts
    and timeout (to the millisecond); connections of other nodes are sent
    nothing. *)
Theorem game_start_seats c nc sess f now s :
  consistent s → conns s !! c = Some nc → nodes s !! ncid nc = Some c →
  sessions s !! sessionID nc = Some sess → Kind f = KindGameStart → 0 ≤ timeoutInterval sess < 2 ^ 63 →
  ∃ s' out order, handleFrame c f now s = Ok (s', out) ∧ abs s' = abs s ∧
    NoDup order ∧ (∀ id, id ∈ order ↔ abs s !! id = Some (sessionID nc)) ∧
    (∀ id, id ∈ order → ∃ c' g, nodes s !! id = Some c' ∧ sent_to c' out = [g] ∧
       ∀ cl, nid (cnode cl) = id →
         let n := cnode (handle_push g cl) in
         Started n = true ∧ nid n = id ∧ Order n = order ∧ (∃ i, SeatIdx n = Z.of_nat i ∧ order !! i = Some id) ∧
         sessionConfig n = mkSessionConfig (timeoutInterval sess / 1000000 * 1000000) (maxAttempts sess)) ∧
    (∀ c', (∀ id, id ∈ order → nodes s !! id ≠ Some c') → sent_to c' out = []).
Proof.
  intros Hcons Hc Hn Hsess Hk Ht.
  destruct (renew_consistent s c nc (now + LeaseTTL (cfg s)) Hcons Hn Hc) as [Hcons1 Habs1].
  unfold handleFrame. rewrite Hc, (renewLease_spec s _ c nc now Hn Hc).
  set (nc1 := set_lease (now + LeaseTTL (cfg s)) nc) in *. set (s1 := Dispatch.set_conn c nc1 s) in *.
  assert (conns s1 !! c = Some nc1) as -> by apply lookup_insert_eq. cbn [default from_option id]. rewrite Hk.
  do 5 rewrite decide_False by done. rewrite decide_True by done.
  destruct (game_start_facts RT L c nc1 s1 s1 sess Hsess) as (order & g & -> & Hids & Hatt & Hms & Hkind & Hnd & Hmem).
  destruct (proj1 (proj2 Hcons) _ _ Hsess) as (_ & _ & _ & Hlobby).
  eexists s1, _, order. split; [done|]. split_and!; [done|done|by intros id; rewrite Hmem| |].
  - intros id Hid. pose proof (proj1 (Hmem id) Hid) as Hid'. apply Hlobby in Hid'. rewrite abs_lookup in Hid'.
    destruct (nodes s !! id) as [c'|] eqn:Hc'; [|done]. exists c', g. split; [done|]. split.
    { rewrite (broadcast_sent s1 g order c' (proj1 Hcons1) Hnd), decide_True; [done|]. apply list.Exists_exists. by exists id. }
    intros cl Hcl. cbn zeta. unfold handle_push. rewrite decide_True by done. cbn. rewrite Hids, Hcl, Hatt, Hms.
    rewrite timeout_trip by done. split_and!; try done. destruct (find_seat_spec id order 0 Hid) as (i & -> & Hi).
    by exists i.
  - intros c' Hno. rewrite (broadcast_sent s1 g order c' (proj1 Hcons1) Hnd), decide_False; [done|].
    intros (id & Hid & Hx)%list.Exists_exists. by apply (Hno id Hid).
Qed.

(** A refused game start starts the game.  A node in no session that asks to
    start a game is sent the refusal as a [game_start] frame, which its read
    loop handles as a start: the call reports no error and the node is started
    at a table of nobody, with no seat. *)
Theorem refused_start_starts id nc w :
  in_lobby id nc w → sessionID nc = "" →
  ∃ w', StartGame w = (w', Ok tt) ∧
    let n := cnode (lclient w') in Started n = true ∧ Order n = [] ∧ SeatIdx n = -1.
Proof.
  intros Hin Hs. unfold StartGame. cbn [dispatchSend lobby_requester]. unfold lobby_send.
  rewrite (il_attached _ _ _ Hin). cbn [negb]. rewrite (handle_route id nc w _ Hin).
  unfold route. do 5 rewrite decide_False by done. rewrite decide_True by done.
  unfold handleGameStart, game_order. cbn [sessionID renewed_conn set_lease]. rewrite Hs.
  assert (sessions (renewed w nc) !! "" = None) as ->.
  { destruct (sessions (renewed w nc) !! "") as [x|] eqn:Hx; [|done].
    by destruct (proj1 (proj2 (il_consistent _ _ _ Hin)) _ _ Hx) as (_ & ? & _). }
  cbn [mbind option_bind]. unfold sent_to. cbn. rewrite decide_True by done. by eexists.
Qed.


End api.

(** ** The interface is implemented by the read loop

    [lobby_request] is what [dispatchRequest] and [dispatchReadLoop] do
    together: from every world with a working connection, an idle read loop and
    no response under way, a request followed by its response is a run of the
    goroutines in which the call returns that response, with exactly the memory
    that [lobby_request] leaves (the used channel apart). *)
Lemma request_runs w d i f resp :
  crashed w = false → dispatchConn (mem w) = Some d → dconns (mem w) !! d = Some (mkDConn [] false) →
  loops w !! i = Some (LoopReceive d) → RequestID resp = (nextRequestID (mem w)).1 →
  ∃ w', rtc world_step w w' ∧
    calls w' = calls w ++ [CallDone (nextRequestID (mem w)).1 (Ok resp)] ∧
    outgoing w' = outgoing w ++ [(d, with_request f (nextRequestID (mem w)).1)] ∧ loops w' = loops w ∧ crashed w' = false ∧
    mem w' = set_pending (delete (nextRequestID (mem w)).1 (pending (mem w)))
               (set_chans (chans (mem w) ++ [mkChan None false]) (nextRequestID (mem w)).2).
Proof.
  intros Hcr Hd Hx Hl Hr. destruct w as [c ls ks ds ats out cr]. cbn in *. subst cr.
  set (rid := request_id (ID c) (u64 (ccounter c + 1))) in *.
  assert (rid ≠ "") as Hne by (unfold rid, request_id; destruct (ID c); by cbn).
  assert (d < length (dconns c))%nat as Hlen by (by eapply lookup_lt_Some).
  set (n := length ks).
  assert (∀ k, (ks ++ [k]) !! n = Some k) as Hget by (intros k; apply list_lookup_middle; done).
  assert (∀ k k', <[n := k]> (ks ++ [k']) = ks ++ [k]) as Hput.
  { intros k k'. unfold n. by rewrite insert_app_r_alt, Nat.sub_diag by lia. }
  eexists. split.
  { eapply rtc_l; [by apply (w_request _ f)|]. cbn.
    eapply rtc_l; [apply (w_call _ n (CallStart f) c (CallAttached f) []); [done|apply Hget|]|].
    { apply call_attached. unfold IsAttached. apply bool_decide_eq_true. cbn. by rewrite Hd. }
    cbn. rewrite Hput.
    eapply rtc_l; [eapply (w_call _ n (CallAttached f)); [done|apply Hget|by eapply call_register]|]. cbn. rewrite Hput.
    eapply rtc_l; [eapply (w_call _ n); [done|apply Hget|by eapply call_send]|]. cbn. rewrite Hput.
    eapply rtc_l; [by eapply (w_arrive _ d (mkDConn [] false) resp)|]. cbn.
    eapply rtc_l; [eapply (w_loop _ i); [done|done|]|].
    { eapply (loop_response _ d _ resp []); cbn.
      - by apply list_lookup_insert_eq.
      - done.
      - by rewrite Hr.
      - rewrite Hr. apply lookup_insert_eq. }
    cbn. eapply rtc_l; [eapply (w_loop _ i); [done|apply list_lookup_insert_eq; by eapply lookup_lt_Some|]|].
    { eapply loop_send; cbn; [by apply list_lookup_middle|done..]. }
    cbn. eapply rtc_l; [eapply (w_call _ n); [done|apply Hget|]|].
    { eapply (call_response _ rid _ (mkChan (Some resp) false) resp); cbn; [|done|done].
      apply list_lookup_insert_eq. rewrite length_app. cbn. lia. }
    cbn. apply rtc_refl. }
  cbn. rewrite Hput. split_and!; [done|by rewrite !app_nil_r| |done|].
  - rewrite list_insert_insert_eq. by apply list_insert_id.
  - destruct c; cbn in *. unfold set_pending, set_chans; cbn. f_equal.
    + rewrite delete_insert_eq. done.
    + rewrite list_insert_insert_eq. by rewrite insert_app_r_alt, Nat.sub_diag by lia.
    + rewrite list_insert_insert_eq. by apply list_insert_id.
Qed.

(** ** Concrete runs *)

#[local] Existing Instance insertion_runtime.

(** A node named [id] with session [sid], attached on its connection 0. *)
Definition lobby_node (id sid : string) : Client :=
  mkClient (mkNode id key_5 PRIME false [] [] (-1) "" "" 0 (mkSessionConfig 0 0) []) ∅ (Some 0%nat) sid ∅ 0 ∅ ∅ []
    "addr" id [] [mkDConn [] false].

(** "a" is in session "t", "b" in none. *)
Definition world_a : lobby_world := mkLobby lobby_state (lobby_node "a" "t") 0 2.
Definition world_b : lobby_world := mkLobby lobby_state (lobby_node "b" "") 1 2.

Lemma world_a_lobby : in_lobby "a" (mkNodeConn "a" "addr" "t" 12 false) world_a.
Proof. split; try reflexivity. apply served_consistent, lobby_state_served. Qed.
Lemma world_b_lobby : in_lobby "b" (mkNodeConn "b" "addr" "" 11 false) world_b.
Proof. split; try reflexivity. apply served_consistent, lobby_state_served. Qed.

Lemma list_peers_exact_witness : ∃ w' ps, ListPeers world_a = (w', Ok ps) ∧ mkPeerInfo "a" "addr" ∈ ps.
Proof.
  destruct (list_peers_exact insertion_runtime insertion_laws "a" _ world_a world_a_lobby) as (w' & _ & _ & Hr).
  cbn in Hr. destruct Hr as (ps & Hl & _ & Hin & _). exists w', ps. split; assumption.
Defined.


(** Five units of time, a tick, and a run of the reaper. *)
Definition world_a_later : lobby_world := set_clock 7 world_a.
Definition world_a_ticked : lobby_world := heartbeat_tick world_a_later.
Definition world_a_reaped : lobby_world := set_server (reap 7 (lserver world_a_ticked)).1 world_a_ticked.


(** "b" has joined "t", and starts the game. *)
Definition full_session : Server := serve_all [EvFrame 1 (frame_of KindJoinSessionReq "" "t") 3] lobby_state.

Lemma full_session_served : served full_session.
Proof.
  apply serve_all_served; [apply lobby_state_served|]. intros [|n] e Hn; [|discriminate Hn].
  injection Hn as <-. split; [apply lobby_join_ok|by eexists _, _].
Qed.

Lemma game_start_seats_witness :
  ∃ s' out order c' g, handleFrame 1 (request KindGameStart "") 4 full_session = Ok (s', out) ∧
    nodes full_session !! "a" = Some c' ∧ sent_to c' out = [g] ∧
    Order (cnode (handle_push g (lobby_node "a" "t"))) = order ∧ "b" ∈ order.
Proof.
  destruct (game_start_seats insertion_runtime insertion_laws 1 (mkNodeConn "b" "addr" "t" 13 false)
    (mkSession "t" {["a"; "b"]} 30000000000 3) (request KindGameStart "") 4 full_session)
    as (s' & out & order & Hh & _ & _ & Hmem & Hsent & _).
  - apply served_consistent, full_session_served.
  - reflexivity.
  - reflexivity.
  - reflexivity.
  - reflexivity.
  - split; [discriminate|reflexivity].
  - destruct (Hsent "a") as (c' & g & Hc & Hg & Hn); [apply Hmem; reflexivity|].
    exists s', out, order, c', g. split; [exact Hh|]. split; [exact Hc|]. split; [exact Hg|]. split.
    + apply (Hn (lobby_node "a" "t")). reflexivity.
    + apply Hmem. reflexivity.
Defined.

Lemma refused_start_starts_witness :
  ∃ w', StartGame world_b = (w', Ok tt) ∧ SeatIdx (cnode (lclient w')) = -1.
Proof.
  destruct (refused_start_starts insertion_runtime "b" _ world_b world_b_lobby) as (w' & Hs & _ & _ & Hi); [reflexivity|].
  exists w'. split; assumption.
Defined.
