(* ===== verification/HostPort.v ===== *)
(** * Addresses ([internal/peer/node.go], [internal/sim/rounds.go])

    [net.SplitHostPort] and [net.JoinHostPort] of Go's standard library, and
    the two functions that use them: the address that a node advertises to its
    peers and the base address of the simulation's RPC servers. *)

From Stdlib Require Import ZArith Lia Ascii.
From stdpp Require Import base list strings.
From S2P Require Import Prelude Strconv.

#[local] Open Scope Z_scope.

(** ** Go's [net.SplitHostPort] and [net.JoinHostPort] *)

Fixpoint has_char (c : ascii) (s : string) : bool :=
  match s with
  | EmptyString => false
  | String.String d s => bool_decide (d = c) || has_char c s
  end.

(** What is before and after the last, and the first, [c] of [s]. *)
Fixpoint cut_last (c : ascii) (s : string) : option (string * string) :=
  match s with
  | EmptyString => None
  | String.String d s' =>
      match cut_last c s' with
      | Some (a, b) => Some (String.String d a, b)
      | None => if decide (d = c) then Some (EmptyString, s') else None
      end
  end.

Fixpoint cut_first (c : ascii) (s : string) : option (string * string) :=
  match s with
  | EmptyString => None
  | String.String d s' =>
      if decide (d = c) then Some (EmptyString, s')
      else match cut_first c s' with Some (a, b) => Some (String.String d a, b) | None => None end
  end.

Inductive addr_err := MissingPort | TooManyColons | MissingBracket | UnexpectedOpen | UnexpectedClose.

Definition string_tail (s : string) : string := match s with EmptyString => EmptyString | String.String _ s => s end.

(** A host in brackets: [a] is what is before the first closing bracket, [b]
    what is after it, [h] and [port] are cut at the last colon. *)
Definition split_bracketed (hostport h port : string) : res addr_err (string * string) :=
  match cut_first "]" hostport with
  | None => Err MissingBracket
  | Some (_, EmptyString) => Err MissingPort
  | Some (a, String.String c b as rest) =>
      if (String.length a + 1 =? String.length h)%nat then
        if has_char "[" (string_tail hostport) then Err UnexpectedOpen
        else if has_char "]" rest then Err UnexpectedClose
        else Ok (string_tail a, port)
      else if decide (c = ":"%char) then Err TooManyColons else Err MissingPort
  end.

Definition SplitHostPort (hostport : string) : res addr_err (string * string) :=
  match cut_last ":" hostport with
  | None => Err MissingPort
  | Some (h, port) =>
      match hostport with
      | String.String "[" _ => split_bracketed hostport h port
      | _ =>
          if has_char ":" h then Err TooManyColons
          else if has_char "[" hostport then Err UnexpectedOpen
          else if has_char "]" hostport then Err UnexpectedClose
          else Ok (h, port)
      end
  end.

Definition JoinHostPort (host port : string) : string :=
  if has_char ":" host then "[" +:+ host +:+ "]:" +:+ port else host +:+ ":" +:+ port.

(** ** Their uses *)

(** [listenAddr] is what the listener is bound to, [outbound] the local
    address of a datagram socket to the outside, when there is one. *)
Definition resolveAdvertiseAddr (outbound : option string) (advertise listenAddr : string) : res addr_err string :=
  if decide (advertise = EmptyString) then
    '(_, port) ← SplitHostPort listenAddr;
    Ok (match outbound with None => listenAddr | Some ip => JoinHostPort ip port end)
  else Ok advertise.

Inductive rpc_base_err := BadAddr (e : addr_err) | BadPort (e : num_err).

(** The empty address switches the servers off. *)
Definition parseRPCBase (addr : string) : res rpc_base_err (string * Z) :=
  if decide (addr = EmptyString) then Ok (EmptyString, 0)
  else
    '(host, portStr) ← wrap_err BadAddr (SplitHostPort addr);
    port ← wrap_err BadPort (Atoi portStr);
    Ok (host, port).

(** [fmt.Sprintf("%s:%d", rpcHost, rpcBasePort+i)]: where node [i] serves. *)
Definition rpc_addr (host : string) (base i : Z) : string := host +:+ ":" +:+ Itoa (i64 (base + i)).

(** ** Splitting what was joined *)

Lemma string_cons_app d s t : String.String d s +:+ t = String.String d (s +:+ t).
Proof. done. Qed.
Lemma string_nil_app t : EmptyString +:+ t = t.
Proof. done. Qed.
Create Rewrite HintDb str.
#[local] Hint Rewrite string_cons_app string_nil_app : str.

Lemma addr_app_assoc s t u : (s +:+ t) +:+ u = s +:+ t +:+ u.
Proof. induction s as [|d s IH]; autorewrite with str; [done|]. by rewrite IH. Qed.

Lemma string_length_app s t : String.length (s +:+ t) = (String.length s + String.length t)%nat.
Proof. induction s as [|d s IH]; autorewrite with str; [done|]. cbn. by rewrite IH. Qed.

Lemma has_char_app c s t : has_char c (s +:+ t) = has_char c s || has_char c t.
Proof. induction s as [|d s IH]; autorewrite with str; [done|]. cbn. by rewrite IH, orb_assoc. Qed.

Lemma cut_last_none c s : has_char c s = false → cut_last c s = None.
Proof.
  induction s as [|d s IH]; [done|]. cbn. intros [Hd Hs]%orb_false_iff. rewrite IH by done.
  apply bool_decide_eq_false in Hd. by case_decide.
Qed.

Lemma cut_last_app c a b : has_char c b = false → cut_last c (a +:+ String.String c b) = Some (a, b).
Proof.
  intros Hb. induction a as [|d a IH]; autorewrite with str; cbn [cut_last]; [|by rewrite IH].
  rewrite cut_last_none by done. by case_decide.
Qed.

Lemma cut_first_app c a b : has_char c a = false → cut_first c (a +:+ String.String c b) = Some (a, b).
Proof.
  induction a as [|d a IH]; autorewrite with str; cbn [cut_first has_char]; [by case_decide|].
  intros [Hd Ha]%orb_false_iff. apply bool_decide_eq_false in Hd. case_decide; [done|]. by rewrite IH.
Qed.

(** No bracket, and no bracket or colon. *)
Definition plain_host (s : string) : bool := negb (has_char "[" s || has_char "]" s).
Definition plain_port (s : string) : bool := plain_host s && negb (has_char ":" s).

Lemma plain_host_inv s : plain_host s = true → has_char "[" s = false ∧ has_char "]" s = false.
Proof. unfold plain_host. by intros [Ho Hc]%negb_true_iff%orb_false_iff. Qed.

Lemma plain_port_inv s : plain_port s = true → (has_char "[" s = false ∧ has_char "]" s = false) ∧ has_char ":" s = false.
Proof. unfold plain_port. intros [H1 H2]%andb_true_iff. split; [by apply plain_host_inv|by apply negb_true_iff]. Qed.

Lemma split_bracketed_join host port :
  plain_host host = true → plain_port port = true →
  SplitHostPort ("[" +:+ host +:+ "]:" +:+ port) = Ok (host, port).
Proof.
  intros [Ho Hc]%plain_host_inv [[Po Pc] Pcol]%plain_port_inv. unfold SplitHostPort.
  assert ("[" +:+ host +:+ "]:" +:+ port = ("[" +:+ host +:+ "]") +:+ String.String ":" port) as Heq
    by (by rewrite !addr_app_assoc).
  rewrite Heq, cut_last_app by done. rewrite <- Heq. autorewrite with str. unfold split_bracketed.
  cbn [cut_first string_tail]. rewrite decide_False by done.
  rewrite (cut_first_app "]" host (String.String ":" port)) by done.
  cbn [String.length]. rewrite string_length_app. cbn [String.length].
  rewrite (proj2 (Nat.eqb_eq _ _)) by lia. rewrite has_char_app, Ho. cbn. by rewrite Po, Pc.
Qed.

Lemma split_join_host host port :
  plain_host host = true → plain_port port = true → SplitHostPort (JoinHostPort host port) = Ok (host, port).
Proof.
  intros Hh Hp. unfold JoinHostPort. destruct (has_char ":" host) eqn:Hcol; [by apply split_bracketed_join|].
  apply plain_host_inv in Hh as [Ho Hc]. apply plain_port_inv in Hp as [[Po Pc] Pcol]. unfold SplitHostPort. autorewrite with str.
  rewrite (cut_last_app ":" host port), Hcol, !has_char_app by done. cbn [has_char]. rewrite Ho, Hc, Po, Pc. cbn.
  destruct host as [|d host]; [done|]. autorewrite with str.
  destruct d as [[] [] [] [] [] [] [] []]; done.
Qed.

(** The advertised address leads back to the node.  With no address configured
    a node whose listener is bound to [listenHost:port] advertises an address
    that splits into the detected outbound address and the listener's port; when
    nothing is detected it advertises what it is bound to, and a configured
    address is taken as it is. *)
Theorem advertised_addr_splits outbound advertise listenHost port :
  plain_host listenHost = true → plain_port port = true → (∀ ip, outbound = Some ip → plain_host ip = true) →
  ∃ addr, resolveAdvertiseAddr outbound advertise (JoinHostPort listenHost port) = Ok addr ∧
    (advertise ≠ EmptyString → addr = advertise) ∧
    (advertise = EmptyString → SplitHostPort addr = Ok (default listenHost outbound, port)).
Proof.
  intros Hh Hp Hip. unfold resolveAdvertiseAddr. case_decide as Ha; [|by exists advertise].
  rewrite split_join_host by done. cbn. eexists. split; [done|]. split; [done|]. intros _.
  destruct outbound as [ip|]; cbn; apply split_join_host; auto.
Qed.

Lemma advertised_addr_splits_witness :
  ∃ addr, resolveAdvertiseAddr (Some "fe80::1") EmptyString (JoinHostPort "::" "40123") = Ok addr ∧
    SplitHostPort addr = Ok ("fe80::1"%string, "40123"%string).
Proof.
  destruct (advertised_addr_splits (Some "fe80::1"%string) EmptyString "::" "40123" eq_refl eq_refl) as (addr & H1 & _ & H2).
  - intros ip [= <-]. reflexivity.
  - exists addr. split; [exact H1|exact (H2 eq_refl)].
Defined.

Lemma digits_plain s : all_digits s → plain_port s = true.
Proof.
  intros Hs. assert (∀ c, char_digit c = None → has_char c s = false) as Hno.
  { intros c Hc. induction s as [|d s IH]; [done|]. destruct Hs as [Hd Hs]. cbn. rewrite (IH Hs), orb_false_r.
    apply bool_decide_eq_false. by intros ->. }
  unfold plain_port, plain_host. by rewrite !Hno.
Qed.

Lemma Itoa_digits n : 0 ≤ n → all_digits (Itoa n).
Proof. intros Hn. unfold Itoa. rewrite (proj2 (Z.ltb_ge n 0)) by done. by apply utoa_digits. Qed.

Lemma not_bracket_first {A} (x y : A) host t :
  has_char "[" host = false → host ≠ EmptyString →
  match host +:+ t with String.String "[" _ => x | _ => y end = y.
Proof.
  intros Ho Hne. destruct host as [|d host]; [done|]. autorewrite with str.
  destruct d as [[] [] [] [] [] [] [] []]; done.
Qed.

(** The servers of the simulation's nodes.  The base address is read back as it
    was written; node [i]'s address then splits into the same host and the
    [i]-th port after the base, but for an IPv6 host, written without its
    brackets, it is no address at all. *)
Theorem rpc_addrs host base i :
  plain_host host = true → host ≠ EmptyString → 0 ≤ base → 0 ≤ i → base + i < 2 ^ 63 →
  parseRPCBase (JoinHostPort host (Itoa base)) = Ok (host, base) ∧
  SplitHostPort (rpc_addr host base i) = if has_char ":" host then Err TooManyColons else Ok (host, Itoa (base + i)).
Proof.
  intros Hh Hne Hb Hi Hbound. assert (i64 (base + i) = base + i) as Hi64 by (apply i64_small; lia). split.
  - unfold parseRPCBase. rewrite decide_False.
    + rewrite split_join_host by auto using digits_plain, Itoa_digits. cbn. by rewrite Atoi_Itoa by lia.
    + unfold JoinHostPort. destruct host; [done|]. by destruct (has_char _ _).
  - unfold rpc_addr. rewrite Hi64. destruct (has_char ":" host) eqn:Hcol.
    + unfold SplitHostPort. autorewrite with str.
      destruct (plain_port_inv (Itoa (base + i))) as [_ Hp]; [apply digits_plain, Itoa_digits; lia|].
      rewrite cut_last_app, Hcol by done. apply not_bracket_first; [by apply plain_host_inv in Hh as [? _]|done].
    + rewrite <- (split_join_host host (Itoa (base + i))); [|done|apply digits_plain, Itoa_digits; lia].
      unfold JoinHostPort. by rewrite Hcol.
Qed.

Lemma rpc_addrs_witness :
  parseRPCBase "127.0.0.1:50051" = Ok ("127.0.0.1"%string, 50051) ∧
  SplitHostPort (rpc_addr "127.0.0.1" 50051 3) = Ok ("127.0.0.1"%string, "50054"%string) ∧
  SplitHostPort (rpc_addr "::1" 50051 3) = Err TooManyColons.
Proof.
  destruct (rpc_addrs "127.0.0.1" 50051 3 eq_refl ltac:(done) ltac:(lia) ltac:(lia) ltac:(lia)) as [H1 H2].
  destruct (rpc_addrs "::1" 50051 3 eq_refl ltac:(done) ltac:(lia) ltac:(lia) ltac:(lia)) as [_ H3].
  split; [exact H1|split; [exact H2|exact H3]].
Defined.
