(* ===== verification/Lifecycle.v ===== *)
(** * Life cycle of a node ([internal/peer/node.go], [internal/peer/game.go])

    Making a node ([New], [Connect]) and closing it; the operating system
    gives the listeners and the outbound address.  [AttachDispatch] is here the
    whole call when nobody else uses the node ([Client] has it step by step).
    The second half is [WaitForGameStart] beside [GameStart] and
    [resetGameState], as goroutines that share the start flag and channel. *)

From Stdlib Require Import ZArith Lia.
From stdpp Require Import base list gmap strings numbers relations.
From S2P Require Import Prelude Strconv Ephemeral Deck Peer Dispatch Remote Client HostPort GameLog.

#[local] Open Scope Z_scope.

Record PeerConfig := mkPeerConfig {
  DispatchAddr : string;
  PeerAddr : string;
  AdvertiseAddr : string;
  CfgNodeID : string;
  CfgPublicKey : list Z;
}.

Inductive node_err := ErrNoPeerAddr | ErrNoPublicKey | ErrListen | ErrAdvertise (e : addr_err) | ErrKeygen (e : deck_err)
  | ErrAttach (e : attach_err).

(** ** Getters *)

Definition Money (c : Client) : Z := money (cnode c).
Definition GetSessionConfig (c : Client) : SessionConfig := sessionConfig (cnode c).
Definition GameStarted (c : Client) : bool := Started (cnode c).
Definition SeatIndex (c : Client) : Z := SeatIdx (cnode c).
Definition OrderSnapshot (c : Client) : list string := Order (cnode c).
Definition GetSessionID (c : Client) : string := csession c.
Definition GetStore (c : Client) : Store := cstore c.
Definition ListenAddr (c : Client) : string := cpeerAddr c.

(** ** Making and closing a node

    [listening] are the addresses the process listens on. *)

Section lifecycle.
Context (listen : string → option string) (outbound : option string) (key : res deck_err Key).

(** [net.Listen], then the key; every failure after the listener is up closes it. *)
Definition PeerNew (cfg : PeerConfig) (listening : gset string) : gset string * res node_err Client :=
  if decide (PeerAddr cfg = EmptyString) then (listening, Err ErrNoPeerAddr)
  else if negb (len (CfgPublicKey cfg) =? PublicKeySize) then (listening, Err ErrNoPublicKey)
  else
    match listen (PeerAddr cfg) with
    | None => (listening, Err ErrListen)
    | Some addr =>
        let up := {[addr]} ∪ listening in
        match resolveAdvertiseAddr outbound (AdvertiseAddr cfg) addr with
        | Err e => (up ∖ {[addr]}, Err (ErrAdvertise e))
        | Panic => (up, Panic)
        | Ok advertise =>
            match key with
            | Err e => (up ∖ {[addr]}, Err (ErrKeygen e))
            | Panic => (up, Panic)
            | Ok k => (up, Ok (NewNode advertise (CfgNodeID cfg) (CfgPublicKey cfg) k))
            end
        end
    end.

(** What the server's side of [AttachDispatch] does: no connection, a
    connection on which sending or receiving fails, or a response. *)
Inductive attach_outcome := DialFails | RegisterSendFails | RegisterReceiveFails | Responds (f : Frame).

Definition AttachDispatch (o : attach_outcome) (addr : string) (c : Client) : Client * res attach_err unit :=
  if decide (addr = EmptyString) then (c, Err ErrNoAddress)
  else
    match dispatchConn c with
    | Some _ => (c, Err ErrAlreadyAttached)
    | None =>
        let d := length (dconns c) in
        let dialled := set_dconns (dconns c ++ [mkDConn [] false]) c in
        match o with
        | DialFails => (c, Err ErrDial)
        | RegisterSendFails => (close_conn d dialled, Err ErrRegisterSend)
        | RegisterReceiveFails => (close_conn d dialled, Err ErrRegisterReceive)
        | Responds f =>
            match attach_response d f dialled with
            | (c, AttachDone r, _) => (c, r)
            | (c, _, _) => (c, Panic)
            end
        end
    end.

(** All steps of [DetachDispatch]. *)
Definition DetachDispatch (c : Client) : Client := fst (Nat.iter 6 (λ x, detach_step x.2 x.1) (c, DetachStart)).

(** [addr] is what the node's listener is bound to. *)
Definition NodeClose (addr : string) (c : Client) (listening : gset string) : gset string * Client :=
  (listening ∖ {[addr]}, DetachDispatch c).

Definition Connect (o : attach_outcome) (cfg : PeerConfig) (listening : gset string)
    : gset string * res node_err Client :=
  match PeerNew cfg listening with
  | (up, Ok c) =>
      match AttachDispatch o (DispatchAddr cfg) c with
      | (c, Ok _) => (up, Ok c)
      | (c, Err e) => ((NodeClose (default EmptyString (listen (PeerAddr cfg))) c up).1, Err (ErrAttach e))
      | (_, Panic) => (up, Panic)
      end
  | r => r
  end.

End lifecycle.

(** ** Waiting for the game to start

    The start flag, the channel that the next start closes, whether that start
    has happened ([gameStartOnce]), and the channels closed so far. *)
Record start_mem := mkStart {
  sm_started : bool;
  sm_ch : nat;
  sm_once : bool;
  sm_closed : gset nat;
  sm_next : nat;
}.

(** [WaitForGameStart]: at the check of the flag, or in the [select]. *)
Inductive waiter := WaitCheck | WaitOn (ch : nat) | WaitStarted | WaitCtx.

(** [GameStart]: the fields are set under the lock, the channel is closed
    after it. *)
Inductive starter := StarterSet | StarterClose | StarterDone.

Record start_world := mkStartWorld { sw_mem : start_mem; sw_waiters : list waiter; sw_starters : list starter }.

Definition waiter_check (m : start_mem) : waiter := if sm_started m then WaitStarted else WaitOn (sm_ch m).

Definition starter_step (s : starter) (m : start_mem) : start_mem * starter :=
  match s with
  | StarterSet => (mkStart true (sm_ch m) (sm_once m) (sm_closed m) (sm_next m), StarterClose)
  | StarterClose =>
      (if sm_once m then m
       else mkStart (sm_started m) (sm_ch m) true ({[sm_ch m]} ∪ sm_closed m) (sm_next m), StarterDone)
  | StarterDone => (m, StarterDone)
  end.

(** The part of [resetGameState] that concerns the start. *)
Definition reset_start (m : start_mem) : start_mem :=
  mkStart false (sm_next m) false (sm_closed m) (S (sm_next m)).

Inductive start_label := LWaiter | LCancel | LStarter | LReset.

Inductive start_step : start_label → start_world → start_world → Prop :=
| ss_check w i :
    sw_waiters w !! i = Some WaitCheck →
    start_step LWaiter w (mkStartWorld (sw_mem w) (<[i := waiter_check (sw_mem w)]> (sw_waiters w)) (sw_starters w))
| ss_woken w i ch :
    sw_waiters w !! i = Some (WaitOn ch) → ch ∈ sm_closed (sw_mem w) →
    start_step LWaiter w (mkStartWorld (sw_mem w) (<[i := WaitCheck]> (sw_waiters w)) (sw_starters w))
| ss_cancel w i ch :
    sw_waiters w !! i = Some (WaitOn ch) →
    start_step LCancel w (mkStartWorld (sw_mem w) (<[i := WaitCtx]> (sw_waiters w)) (sw_starters w))
| ss_starter w i s :
    sw_starters w !! i = Some s →
    start_step LStarter w (mkStartWorld (starter_step s (sw_mem w)).1 (sw_waiters w)
                             (<[i := (starter_step s (sw_mem w)).2]> (sw_starters w)))
| ss_reset w :
    start_step LReset w (mkStartWorld (reset_start (sw_mem w)) (sw_waiters w) (sw_starters w))
| ss_frame w :
    start_step LStarter w (mkStartWorld (sw_mem w) (sw_waiters w) (sw_starters w ++ [StarterSet]))
| ss_wait w :
    start_step LWaiter w (mkStartWorld (sw_mem w) (sw_waiters w ++ [WaitCheck]) (sw_starters w)).

(** A node that has just been made. *)
Definition fresh_start : start_world := mkStartWorld (mkStart false 0 false ∅ 1) [] [].
