(* ===== verification/LifecycleProps.v ===== *)
(** * Life cycle of a node: theorems *)

From Stdlib Require Import ZArith Lia.
From stdpp Require Import base list gmap strings numbers relations.
From S2P Require Import Prelude Strconv Ephemeral Deck DeckProofs Peer Dispatch Remote Client HostPort GameLog Lifecycle.

#[local] Open Scope Z_scope.

(** ** Connecting *)

(** How many connections to dispatch servers a node holds open. *)
Definition open_conns (c : Client) : nat := length (filter (λ x, broken x = false) (dconns c)).

Lemma close_last ds b c :
  dconns (close_conn (length ds) (set_dconns (ds ++ [b]) c)) = ds ++ [mkDConn (inbox b) true].
Proof. cbn. rewrite alter_app_r_alt by done. by rewrite Nat.sub_diag. Qed.

Lemma open_conns_closed ds c b : dconns c = ds ++ [mkDConn b true] → open_conns c = length (filter (λ x, broken x = false) ds).
Proof. intros Hc. unfold open_conns. rewrite Hc, filter_app, filter_cons_False, filter_nil by done. by rewrite app_nil_r. Qed.

(** A failed attach leaves no connection behind and the node as it was; a
    successful one adds one connection and gives the node its identity. *)
Lemma attach_dispatch_spec o addr c c' r :
  AttachDispatch o addr c = (c', r) →
  match r with
  | Ok _ => IsAttached c' = true ∧ open_conns c' = S (open_conns c) ∧
            ∃ f, o = Responds f ∧ Success f = true ∧ ID c' = FNodeID f
  | Err _ => dispatchConn c' = dispatchConn c ∧ open_conns c' = open_conns c ∧ ID c' = ID c
  | Panic => False
  end.
Proof.
  unfold AttachDispatch. case_decide as Ha; [by intros [= <- <-]|].
  destruct (dispatchConn c) as [d|] eqn:Hd; [by intros [= <- <-]|].
  assert (∀ x, x = close_conn (length (dconns c)) (set_dconns (dconns c ++ [mkDConn [] false]) c) →
    dispatchConn x = None ∧ open_conns x = open_conns c ∧ ID x = ID c) as Hclosed.
  { intros x ->. split_and!; [done| |done]. by eapply open_conns_closed, close_last. }
  destruct o as [| | |f]; [intros [= <- <-]; by split_and!|intros [= <- <-]; by apply Hclosed..|].
  unfold attach_response. cbn [dispatchConn set_dconns]. rewrite Hd.
  destruct (negb (bool_decide _)) eqn:Hk; [intros [= <- <-]; auto|].
  destruct (Success f) eqn:Hs; cbn [negb]; [|intros [= <- <-]; auto].
  intros [= <- <-]. split_and!; [done| |by exists f].
  unfold open_conns. cbn. rewrite filter_app, filter_cons_True, filter_nil, length_app by done. cbn. lia.
Qed.

Section lifecycle.
Context (listen : string → option string) (outbound : option string) (key : res deck_err Key).

(** C38: Connecting is all or nothing.  [Connect] ends with an attached node, one
    more listener and one open connection, or with an error and no listener
    more than before, whichever step failed. *)
Theorem connect_all_or_nothing o cfg listening :
  (∀ addr, listen (PeerAddr cfg) = Some addr → addr ∉ listening) → key ≠ Panic →
  match Connect listen outbound key o cfg listening with
  | (up, Ok c) => IsAttached c = true ∧ open_conns c = 1%nat ∧
      ∃ addr, listen (PeerAddr cfg) = Some addr ∧ up = {[addr]} ∪ listening
  | (up, Err _) => up = listening
  | (_, Panic) => False
  end.
Proof.
  intros Hfresh Hkey. unfold Connect, PeerNew.
  case_decide; [done|]. destruct (negb (len (CfgPublicKey cfg) =? PublicKeySize)); [done|]. destruct (listen (PeerAddr cfg)) as [addr|] eqn:Hl; [|done].
  specialize (Hfresh addr eq_refl). assert (({[addr]} ∪ listening) ∖ {[addr]} = listening) as Hback by set_solver.
  unfold resolveAdvertiseAddr.
  destruct (if decide _ then _ else _) as [adv|e|] eqn:Hadv; [|done|].
  2: { case_decide; [|done]. destruct (SplitHostPort addr) as [[h p]| |] eqn:Hsp; try done.
       clear -Hsp. exfalso. revert Hsp. unfold SplitHostPort, split_bracketed. repeat case_match; done. }
  destruct key as [k|e|]; [|done|done]. cbn zeta.
  destruct (AttachDispatch o (DispatchAddr cfg) _) as [c' r] eqn:Hatt.
  pose proof (attach_dispatch_spec _ _ _ _ _ Hatt) as Hspec. destruct r as [[]|e|]; [|done|done].
  destruct Hspec as (H1 & H2 & _). split_and!; [done|by rewrite H2|eauto].
Qed.

(** ** Closing *)

(** A closed node is detached: no connection, identity, session, peers or
    stored values are left, nobody waits for a response, and its listener is
    down. *)
Theorem close_releases addr c listening :
  let '(up, c') := NodeClose addr c listening in
  (addr ∉ up) ∧ up ⊆ listening ∧ IsAttached c' = false ∧ ID c' = EmptyString ∧
  (IsAttached c = true → csession c' = EmptyString ∧ cpeers c' = ∅ ∧ cstore c' = ∅ ∧ pending c' = ∅ ∧
    Started (cnode c') = false ∧ (∀ d x, dispatchConn c = Some d → dconns c' !! d = Some x → broken x = true)).
Proof.
  unfold NodeClose, DetachDispatch. cbn [Nat.iter nat_rect fst snd detach_step].
  destruct (dispatchConn c) as [d|] eqn:Hd; cbn.
  - split_and!; [set_solver|set_solver|done|done|]. intros _. split_and!; [done..|].
    intros d' x [= <-]. rewrite list_lookup_alter_eq. intros (y & _ & ->)%fmap_Some. done.
  - split_and!; [set_solver|set_solver|done|done|]. unfold IsAttached. rewrite Hd. done.
Qed.

End lifecycle.

(** ** Waiting for the game to start *)

Definition any_step (w w' : start_world) : Prop := ∃ l, start_step l w w'.
Definition kept_step (w w' : start_world) : Prop := ∃ l, l ≠ LReset ∧ start_step l w w'.

Lemma run_invariant {A} (R : relation A) (P : A → Prop) x y :
  (∀ a b, P a → R a b → P b) → P x → rtc R x y → P y.
Proof. intros Hstep Hx. induction 1; eauto. Qed.

(** Without a reset there is one channel, closed once the start is through. *)
Record one_start (w : start_world) : Prop := {
  os_ch : sm_ch (sw_mem w) = 0%nat;
  os_once : sm_once (sw_mem w) = true → 0%nat ∈ sm_closed (sw_mem w);
  os_started : sm_started (sw_mem w) = true → sm_once (sw_mem w) = true ∨ StarterClose ∈ sw_starters w;
  os_waiters : ∀ ch, WaitOn ch ∈ sw_waiters w → ch = 0%nat;
}.

Lemma elem_of_insert_inv {A} (l : list A) i x y : y ∈ <[i := x]> l → y = x ∨ y ∈ l.
Proof.
  intros [j Hj]%list_elem_of_lookup_1. destruct (decide (i = j)) as [->|Hne].
  - apply list_lookup_insert_Some in Hj as [(_ & -> & _)|(? & _)]; [by left|done].
  - rewrite list_lookup_insert_ne in Hj by done. right. by eapply list_elem_of_lookup_2.
Qed.

Lemma elem_of_insert_other {A} (l : list A) i x y z : l !! i = Some z → z ≠ y → y ∈ l → y ∈ <[i := x]> l.
Proof.
  intros Hi Hne [j Hj]%list_elem_of_lookup_1. apply (list_elem_of_lookup_2 _ j).
  rewrite list_lookup_insert_ne; [done|]. intros ->. congruence.
Qed.

Lemma one_start_step w w' : one_start w → kept_step w w' → one_start w'.
Proof.
  intros [Hch Honce Hst Hw] (l & Hl & Hs).
  destruct Hs as [w i Hi|w i ch Hi Hc|w i ch Hi|w i s Hi|w|w|w]; constructor; cbn; try done.
  - intros ch [Hx|Hin]%elem_of_insert_inv; [|by apply Hw]. unfold waiter_check in Hx. case_match; simplify_eq. done.
  - intros ch' [?|Hin]%elem_of_insert_inv; [done|by apply Hw].
  - intros ch' [?|Hin]%elem_of_insert_inv; [done|by apply Hw].
  - destruct s; cbn; try done. by destruct (sm_once (sw_mem w)).
  - destruct s; cbn; try done. destruct (sm_once (sw_mem w)) eqn:Ho; [by rewrite Ho|]. rewrite Hch. set_solver.
  - destruct s; cbn; intros Hstd.
    + right. apply (list_elem_of_lookup_2 _ i), list_lookup_insert_eq. by eapply lookup_lt_Some.
    + destruct (sm_once (sw_mem w)) eqn:Ho; [|by left]. rewrite Ho. by left.
    + destruct (Hst Hstd) as [|Hin]; [by left|]. right. by eapply elem_of_insert_other.
  - intros Hstd. destruct (Hst Hstd); [by left|]. right. apply elem_of_app. by left.
  - intros ch [Hin|Hin%list_elem_of_singleton]%elem_of_app; [by apply Hw|done].
Qed.

(** A start releases the waiters.  In every run without a reset, once the game
    has started and no start is between the flag and the channel, every call of
    [WaitForGameStart] whose context has not ended can return at once. *)
Theorem start_releases_waiters w i :
  rtc kept_step fresh_start w → sm_started (sw_mem w) = true → StarterClose ∉ sw_starters w →
  (i < length (sw_waiters w))%nat → sw_waiters w !! i ≠ Some WaitCtx →
  ∃ w', rtc (start_step LWaiter) w w' ∧ sw_mem w' = sw_mem w ∧ sw_waiters w' !! i = Some WaitStarted.
Proof.
  intros Hrun Hstd Hno Hi Hctx. assert (one_start w) as [Hch Honce Hst Hw].
  { eapply run_invariant; [apply one_start_step| |done]. constructor; [done..|]. by intros ? ?%elem_of_nil. }
  assert (0%nat ∈ sm_closed (sw_mem w)) as Hclosed by (destruct (Hst Hstd); auto; done).
  assert (∀ ws, ws !! i = Some WaitCheck → ∃ w', start_step LWaiter (mkStartWorld (sw_mem w) ws (sw_starters w)) w' ∧
    sw_mem w' = sw_mem w ∧ sw_waiters w' !! i = Some WaitStarted) as Hcheck.
  { intros ws Hws. eexists. split; [by eapply (ss_check (mkStartWorld _ ws _))|]. cbn. split; [done|].
    unfold waiter_check. rewrite Hstd. apply list_lookup_insert_eq. by eapply lookup_lt_Some. }
  destruct (lookup_lt_is_Some_2 _ _ Hi) as [x Hx]. destruct x as [|ch| |].
  - destruct (Hcheck _ Hx) as (w' & Hs & Hm & Hi'). exists w'. split_and!; [|done|done]. apply rtc_once. by destruct w.
  - assert (ch = 0%nat) as -> by (by eapply Hw, list_elem_of_lookup_2).
    destruct (Hcheck (<[i := WaitCheck]> (sw_waiters w))) as (w' & Hs & Hm & Hi'); [by apply list_lookup_insert_eq|].
    exists w'. split_and!; [|done|done]. eapply rtc_l; [by eapply ss_woken|]. by apply rtc_once.
  - by exists w.
  - done.
Qed.

(** Channels are numbered in the order they are made. *)
Definition numbered (w : start_world) : Prop :=
  (sm_ch (sw_mem w) < sm_next (sw_mem w))%nat ∧ ∀ ch, WaitOn ch ∈ sw_waiters w → (ch < sm_next (sw_mem w))%nat.

Lemma numbered_step w w' : numbered w → any_step w w' → numbered w'.
Proof.
  intros [Hch Hw] (l & Hs).
  destruct Hs as [w i Hi|w i ch Hi Hc|w i ch Hi|w i s Hi|w|w|w]; split; cbn; try done; try lia.
  - intros ch [Hx|Hin]%elem_of_insert_inv; [|by apply Hw]. unfold waiter_check in Hx. case_match; simplify_eq. done.
  - intros ch' [?|Hin]%elem_of_insert_inv; [done|by apply Hw].
  - intros ch' [?|Hin]%elem_of_insert_inv; [done|by apply Hw].
  - destruct s; cbn; try done. by destruct (sm_once (sw_mem w)).
  - intros ch Hin%Hw. destruct s; cbn; try done. by destruct (sm_once (sw_mem w)).
  - intros ch Hin%Hw. lia.
  - intros ch [Hin|Hin%list_elem_of_singleton]%elem_of_app; [by apply Hw|done].
Qed.

(** A waiter on a channel that is neither closed nor current stays there. *)
Definition stranded (i ch : nat) (w : start_world) : Prop :=
  (sw_waiters w !! i = Some (WaitOn ch) ∨ sw_waiters w !! i = Some WaitCtx) ∧
  (ch ∉ sm_closed (sw_mem w)) ∧ (ch < sm_ch (sw_mem w))%nat ∧ (sm_ch (sw_mem w) < sm_next (sw_mem w))%nat.

Lemma stranded_step i ch w w' : stranded i ch w → any_step w w' → stranded i ch w'.
Proof.
  intros (Hi & Hc & Hlt & Hn) (l & Hs).
  assert (∀ j x y, sw_waiters w !! j = Some x → x ≠ WaitOn ch → x ≠ WaitCtx →
    <[j := y]> (sw_waiters w) !! i = sw_waiters w !! i) as Hother.
  { intros j x y Hj H1 H2. apply list_lookup_insert_ne. intros ->. destruct Hi; congruence. }
  destruct Hs as [w j Hj|w j ch' Hj Hc'|w j ch' Hj|w j s Hj|w|w|w]; unfold stranded; cbn; try done.
  - rewrite (Hother _ _ _ Hj) by done. done.
  - rewrite (Hother _ _ _ Hj) by (intros [= ->]; done). done.
  - split; [|done]. destruct (decide (i = j)) as [->|Hne]; [|by rewrite list_lookup_insert_ne].
    right. apply list_lookup_insert_eq. by eapply lookup_lt_Some.
  - destruct s; cbn; try done. destruct (sm_once (sw_mem w)); [done|]. cbn. split_and!; [done| |done|done].
    intros [?%elem_of_singleton|]%elem_of_union; [lia|done].
  - split_and!; [done..|lia|lia].
  - split; [|done]. destruct Hi as [Hi|Hi]; [left|right]; by apply lookup_app_l_Some.
Qed.

(** A reset strands the waiters.  A call that waits for the start when the node
    is detached keeps waiting on a channel that nobody will close: whatever
    happens then, a new game included, it ends with its context or not at all. *)
Theorem reset_strands_waiter w w1 w2 i ch :
  rtc any_step fresh_start w → sw_waiters w !! i = Some (WaitOn ch) → ch ∉ sm_closed (sw_mem w) →
  start_step LReset w w1 → rtc any_step w1 w2 →
  sw_waiters w2 !! i = Some (WaitOn ch) ∨ sw_waiters w2 !! i = Some WaitCtx.
Proof.
  intros Hrun Hi Hc Hreset Hrest. assert (numbered w) as [Hn1 Hn2].
  { eapply run_invariant; [apply numbered_step| |done]. split; [cbn; lia|by intros ? ?%elem_of_nil]. }
  assert (stranded i ch w1) as H1.
  { inversion Hreset; subst. unfold stranded. cbn. split_and!; [by left|done| |lia].
    by eapply Hn2, list_elem_of_lookup_2. }
  eapply (run_invariant any_step (stranded i ch)) in Hrest as [H _]; [exact H|apply stranded_step|exact H1].
Qed.

(** ** Witnesses *)

Definition sample_cfg : PeerConfig := mkPeerConfig "server:9000" ":0" EmptyString "alice" (replicate 32 7).
Definition sample_listen (addr : string) : option string := if decide (addr = ":0"%string) then Some "[::]:40123"%string else None.
Definition sample_reply (ok : bool) : attach_outcome :=
  Responds (mkFrame KindRegisterResp "" "alice" "" "" "" [] ok "full" [] [] [] 0 [] 0 0).

Lemma connect_all_or_nothing_witness :
  (∃ c, Connect sample_listen (Some "192.0.2.1"%string) (Ok (mkKey 5 8171)) (sample_reply true) sample_cfg ∅ =
          ({["[::]:40123"%string]} ∪ ∅, Ok c) ∧ IsAttached c = true ∧ ListenAddr c = "192.0.2.1:40123"%string) ∧
  (Connect sample_listen (Some "192.0.2.1"%string) (Ok (mkKey 5 8171)) (sample_reply false) sample_cfg ∅).1 = ∅.
Proof.
  pose proof (λ ok, connect_all_or_nothing sample_listen (Some "192.0.2.1"%string) (Ok (mkKey 5 8171)) (sample_reply ok)
    sample_cfg ∅ ltac:(intros addr _; apply not_elem_of_empty) ltac:(discriminate)) as H.
  split; [|exact (H false)]. destruct (H true) as (Ha & _). eexists. split; [reflexivity|]. split; [exact Ha|reflexivity].
Defined.

(** A waiter, then a start. *)
Definition waiting_world : start_world := mkStartWorld (mkStart false 0 false ∅ 1) [WaitOn 0] [].
Definition started_world : start_world := mkStartWorld (mkStart true 0 true {[0%nat]} 1) [WaitOn 0] [StarterDone].

Lemma reach_waiting : rtc kept_step fresh_start waiting_world.
Proof.
  eapply rtc_l; [exists LWaiter; split; [done|apply ss_wait]|]. eapply rtc_l; [exists LWaiter; split; [done|]|].
  - by apply (ss_check _ 0).
  - cbn. apply rtc_refl.
Qed.

Lemma reach_started : rtc kept_step waiting_world started_world.
Proof.
  eapply rtc_l; [exists LStarter; split; [done|apply ss_frame]|].
  eapply rtc_l; [exists LStarter; split; [done|by apply (ss_starter _ 0 StarterSet)]|].
  eapply rtc_l; [exists LStarter; split; [done|by apply (ss_starter _ 0 StarterClose)]|].
  cbn. rewrite right_id_L by apply _. apply rtc_refl.
Qed.

Lemma start_releases_waiters_witness :
  ∃ w', rtc (start_step LWaiter) started_world w' ∧ sw_mem w' = sw_mem started_world ∧ sw_waiters w' !! 0%nat = Some WaitStarted.
Proof.
  apply (start_releases_waiters started_world 0).
  - etrans; [apply reach_waiting|apply reach_started].
  - reflexivity.
  - cbn. intros Hin%list_elem_of_singleton. discriminate Hin.
  - cbn. lia.
  - discriminate.
Defined.

(** A waiter, a detach, and then a game that starts. *)
Definition restarted_world : start_world := mkStartWorld (mkStart true 1 true {[1%nat]} 2) [WaitOn 0] [StarterDone].

Lemma reach_restarted : rtc any_step (mkStartWorld (reset_start (sw_mem waiting_world)) [WaitOn 0] []) restarted_world.
Proof.
  eapply rtc_l; [eexists; apply ss_frame|].
  eapply rtc_l; [eexists; by apply (ss_starter _ 0 StarterSet)|].
  eapply rtc_l; [eexists; by apply (ss_starter _ 0 StarterClose)|].
  cbn. rewrite right_id_L by apply _. apply rtc_refl.
Qed.

Lemma reset_strands_waiter_witness :
  sw_waiters restarted_world !! 0%nat = Some (WaitOn 0) ∨ sw_waiters restarted_world !! 0%nat = Some WaitCtx.
Proof.
  apply (reset_strands_waiter waiting_world (mkStartWorld (reset_start (sw_mem waiting_world)) [WaitOn 0] []) restarted_world 0 0).
  - eapply rtc_subrel; [|apply reach_waiting]. intros w w' (l & _ & Hs). exists l. exact Hs.
  - reflexivity.
  - cbn. apply not_elem_of_empty.
  - apply (ss_reset waiting_world).
  - apply reach_restarted.
Defined.
