(* ===== verification/Api.v ===== *)
(** * The forwarding handlers of the client RPC server ([internal/clientrpc/server.go])

    Each handler calls the node and turns its error into a status.  The session
    handlers run over the interface [Requester] that the node's own API uses. *)

From Stdlib Require Import ZArith Lia.
From stdpp Require Import base list gmap strings numbers.
From S2P Require Import Prelude Runtime Strconv Ephemeral Deck Peer Dispatch Remote Client ClientApi HostPort Lifecycle Rpc.

#[local] Open Scope Z_scope.

Record NodeInfo := mkNodeInfo { NodeInfoId : string; NodeListenAddr : string; NodeSessionId : string; NodeAttached : bool }.

Definition GetNodeInfo (c : Client) : NodeInfo := mkNodeInfo (ID c) (ListenAddr c) (GetSessionID c) (IsAttached c).

(** [status.Error(codes.Internal, err.Error())] *)
Definition internal {W E A} (r : W * res E A) : W * res status A := (r.1, wrap_err (λ _, Internal) r.2).

Section api.
Context `{Requester W}.

Definition RpcCreateSession (sessionID : string) (w : W) : W * res status string :=
  internal (CreateSession sessionID w).

(** The response repeats the request's session. *)
Definition RpcJoinSession (sessionID : string) (w : W) : W * res status string :=
  let '(w, r) := internal (JoinSession sessionID w) in (w, _ ← r; Ok sessionID).

Definition RpcListPeers (w : W) : W * res status (list (string * string)) :=
  let '(w, r) := internal (ListPeers w) in
  (w, peers ← r; Ok ((λ p, (PeerInfo_ID p, PeerInfo_Addr p)) <$> (peers : list PeerInfo))).

Definition RpcListSessions (w : W) : W * res status (list string) := internal (ListSessions w).

Definition RpcStartGame (w : W) : W * res status unit := internal (StartGame w).

(** [r] is what [ConnectToPeers] returned. *)
Definition RpcConnectPeers {E} (w : W) (r : res E unit) : W * res status unit := internal (w, r).

End api.

Definition RpcAttachDispatch (o : attach_outcome) (addr : string) (c : Client) : Client * res status string :=
  match AttachDispatch o addr c with
  | (c, Ok _) => (c, Ok (ID c))
  | (c, Err ErrAlreadyAttached) => (c, Err FailedPrecondition)
  | (c, Err _) => (c, Err Internal)
  | (c, Panic) => (c, Panic)
  end.

(** [closes] tells whether closing the connection succeeds. *)
Definition RpcDetachDispatch (closes : bool) (c : Client) : Client * res status unit :=
  (DetachDispatch c, if IsAttached c && negb closes then Err Internal else Ok tt).
