(* ===== verification/ApiProps.v ===== *)
(** * The forwarding handlers: theorems *)

From Stdlib Require Import ZArith Lia.
From stdpp Require Import base list gmap strings numbers.
From S2P Require Import Prelude Runtime Strconv Ephemeral Deck Peer Dispatch DispatchProps Remote Client ClientApi ClientApiProps.
From S2P Require Import HostPort Lifecycle LifecycleProps Rpc Api.

#[local] Open Scope Z_scope.

(** What a frontend is told is how the node stands.  Attaching over RPC answers
    with the identity that [GetNodeInfo] then reports, and is refused as a
    failed precondition exactly when the node is attached; a failed attach
    changes nothing that [GetNodeInfo] reports; after a detach, whether or not
    closing the connection went well, the node reports no identity, no session
    and that it is detached. *)
Theorem rpc_attach_lifecycle o addr closes c :
  (let '(c', r) := RpcAttachDispatch o addr c in
   match r with
   | Ok id => GetNodeInfo c' = mkNodeInfo id (ListenAddr c) (GetSessionID c) true
   | Err e => GetNodeInfo c' = GetNodeInfo c ∧ (e = FailedPrecondition ↔ addr ≠ EmptyString ∧ IsAttached c = true)
   | Panic => False
   end) ∧
  let '(c', r) := RpcDetachDispatch closes c in
  GetNodeInfo c' = mkNodeInfo EmptyString (ListenAddr c) (if IsAttached c then EmptyString else GetSessionID c) false ∧
  (r = Ok tt ↔ IsAttached c = false ∨ closes = true).
Proof.
  split.
  - unfold RpcAttachDispatch. destruct (AttachDispatch o addr c) as [c' r] eqn:Ha.
    pose proof (attach_dispatch_spec _ _ _ _ _ Ha) as Hspec.
    assert (ListenAddr c' = ListenAddr c ∧ GetSessionID c' = GetSessionID c ∧
      (r = Err ErrAlreadyAttached ↔ addr ≠ EmptyString ∧ IsAttached c = true)) as (Hl & Hs & He).
    { revert Ha. unfold AttachDispatch, IsAttached. case_decide as Hd; [intros [= <- <-]; split_and!; [done..|]; by split; [|intros [? _]]|].
      destruct (dispatchConn c) as [d|] eqn:Hconn; [intros [= <- <-]; split_and!; [done..|by split]|].
      destruct o as [| | |f]; try (intros [= <- <-]; split_and!; [done..|]; by split; [|intros [_ ?]]).
      unfold attach_response. cbn [dispatchConn set_dconns]. rewrite Hconn. repeat case_match; intros; simplify_eq;
        (split_and!; [done..|]; by split; [|intros [_ ?]]). }
    destruct r as [[]|e|]; [| |done].
    + destruct Hspec as (Hatt & _). unfold GetNodeInfo. by rewrite Hatt, Hl, Hs.
    + destruct Hspec as (Hd & _ & Hid).
      assert (GetNodeInfo c' = GetNodeInfo c) as Hinfo by (unfold GetNodeInfo, IsAttached; by rewrite Hd, Hid, Hl, Hs).
      destruct e; (split; [exact Hinfo|]); rewrite <- He; split; done.
  - unfold RpcDetachDispatch. split.
    + unfold DetachDispatch. cbn [Nat.iter nat_rect fst snd detach_step]. unfold IsAttached.
      by destruct (dispatchConn c) as [d|].
    + destruct (IsAttached c), closes; cbn; naive_solver.
Qed.

Section lobby.
Context (RT : GoRuntime) (L : @RuntimeLaws RT).

(** The session a frontend is told is the node's.  For a node in the lobby the
    session handlers answer exactly as the server decides: with the session
    that node and server then both record, or with an internal error and
    neither changed. *)
Theorem rpc_session_agrees id nc w sid :
  in_lobby id nc w → ¬ rejoins sid w →
  (let '(w', r) := RpcCreateSession sid w in
   match r with
   | Ok s => GetSessionID (lclient w') = s ∧ abs (lserver w') = <[id := s]> (abs (lserver w))
   | Err e => e = Internal ∧ is_Some (sessions (lserver w) !! new_session sid (lserver w)) ∧ stayed w w'
   | Panic => False
   end) ∧
  let '(w', r) := RpcJoinSession sid w in
  match r with
  | Ok s => s = sid ∧ GetSessionID (lclient w') = s ∧ abs (lserver w') = <[id := s]> (abs (lserver w))
  | Err e => e = Internal ∧ (sid = EmptyString ∨ sessions (lserver w) !! sid = None) ∧ stayed w w'
  | Panic => False
  end.
Proof.
  intros Hin Hre. split.
  - destruct (create_session_spec RT id nc w sid Hin) as (w' & nc' & _ & Hspec). unfold RpcCreateSession, internal.
    case_bool_decide as Hs.
    + destruct Hspec as [-> (_ & Habs & Hsess)]. done.
    + destruct Hspec as [[msg ->] Hst]. cbn. split_and!; [done| |done].
      by apply not_eq_None_Some.
  - destruct (join_session_spec RT id nc w sid Hin Hre) as (w' & nc' & _ & Hspec). unfold RpcJoinSession, internal.
    case_bool_decide as Hs.
    + destruct Hspec as [-> (_ & Habs & Hsess)]. done.
    + destruct Hspec as [[msg ->] Hst]. cbn. split_and!; [done| |done].
      destruct (decide (sid = EmptyString)); [by left|right]. apply eq_None_not_Some. naive_solver.
Qed.

End lobby.

Lemma rpc_session_agrees_witness :
  GetSessionID (lclient (@RpcJoinSession _ (@lobby_requester insertion_runtime) "t" world_b).1) = "t"%string.
Proof.
  destruct (rpc_session_agrees insertion_runtime "b" (mkNodeConn "b" "addr" "" 11 false) world_b "t" world_b_lobby) as [_ Hj].
  - intros (nc & sess & Hnc & _ & Hf & _). vm_compute in Hnc. injection Hnc as <-. discriminate Hf.
  - vm_compute in Hj. exact (proj1 (proj2 Hj)).
Defined.
