(* ===== verification/Stream.v ===== *)
(** * The event stream of the client RPC server ([internal/clientrpc/server.go])

    [SubscribeEvents] registers itself as the node's "chat" handler with a
    buffered channel, subscribes to the node's event bus ([Events]), and sends
    what arrives on either channel to the client until the stream ends.  Any
    number of streams run beside the node; a [streams] is the node's handler
    and bus with all of them, and [stream_step] lets any of them, the node or
    a peer take the next step. *)

From Stdlib Require Import ZArith Lia.
From stdpp Require Import base list gmap strings numbers relations.
From S2P Require Import Prelude Runtime Strconv Remote Events Rpc.

#[local] Open Scope Z_scope.

Definition chat_capacity : nat := 128.

(** Where a call of [SubscribeEvents] is. *)
Inductive stream_phase := Registered | Running (sub : nat) | Ended.

(** [chat_buf] is its chat channel, [sent] what the client was sent: an event
    of the bus or a chat message. *)
Record stream := mkStream {
  phase : stream_phase;
  chat_buf : list RpcEvent;
  sent : list (Event + RpcEvent);
}.

(** [handler] is the stream whose channel the "chat" handler writes to. *)
Record streams := mkStreams { bus : Bus; handler : option nat; calls_ : list stream }.

Definition chat_event (msg : Remote.Message) : RpcEvent := PeerMessageEvent (From msg) (Type_ msg) (MPayload msg).

(** What [stream.Send] is given. *)
Definition wire (x : Event + RpcEvent) : RpcEvent := match x with inl ev => translateBusEvent ev | inr ev => ev end.

(** The handler: a send that does not block. *)
Definition push_chat (ev : RpcEvent) (st : stream) : stream :=
  if decide (length (chat_buf st) < chat_capacity)%nat then mkStream (phase st) (chat_buf st ++ [ev]) (sent st) else st.

(** The deferred [unsubscribe]. *)
Definition end_stream (st : stream) : stream := mkStream Ended (chat_buf st) (sent st).

(** What a step is to the outside: an event emitted on the bus, a chat message
    that arrived, or neither. *)
Inductive stream_label := LEmitted (ev : Event) | LChatted (msg : Remote.Message) | LQuiet.

Inductive stream_step : stream_label → streams → streams → Prop :=
| st_register w :
    stream_step LQuiet w (mkStreams (bus w) (Some (length (calls_ w))) (calls_ w ++ [mkStream Registered [] []]))
| st_subscribe w i st :
    calls_ w !! i = Some st → phase st = Registered →
    stream_step LQuiet w (mkStreams (Subscribe (bus w)).2 (handler w)
                     (<[i := mkStream (Running (Subscribe (bus w)).1) (chat_buf st) (sent st)]> (calls_ w)))
| st_emit w now id session ev :
    stream_step (LEmitted (fill now id session ev)) w (mkStreams (Emit now id session ev (bus w)) (handler w) (calls_ w))
| st_chat w i msg :
    handler w = Some i →
    stream_step (LChatted msg) w (mkStreams (bus w) (handler w) (alter (push_chat (chat_event msg)) i (calls_ w)))
| st_send_bus w i st sub ev b ok :
    calls_ w !! i = Some st → phase st = Running sub → receive sub (bus w) = Some (ev, b) →
    stream_step LQuiet w (if ok : bool
                   then mkStreams b (handler w) (<[i := mkStream (phase st) (chat_buf st) (sent st ++ [inl ev])]> (calls_ w))
                   else mkStreams (cancel sub b) (handler w) (<[i := end_stream st]> (calls_ w)))
| st_send_chat w i st sub ev buf ok :
    calls_ w !! i = Some st → phase st = Running sub → chat_buf st = ev :: buf →
    stream_step LQuiet w (if ok : bool
                   then mkStreams (bus w) (handler w) (<[i := mkStream (phase st) buf (sent st ++ [inr ev])]> (calls_ w))
                   else mkStreams (cancel sub (bus w)) (handler w) (<[i := mkStream Ended buf (sent st)]> (calls_ w)))
| st_done w i st sub :
    calls_ w !! i = Some st → phase st = Running sub →
    stream_step LQuiet w (mkStreams (cancel sub (bus w)) (handler w) (<[i := end_stream st]> (calls_ w))).

Definition no_streams : streams := mkStreams empty_bus None [].
