(* ===== verification/StreamProps.v ===== *)
(** * The event stream: theorems *)

From Stdlib Require Import ZArith Lia.
From stdpp Require Import base list gmap strings numbers relations.
From S2P Require Import Prelude Runtime Strconv Remote Events Rpc RpcProps Stream.

#[local] Open Scope Z_scope.

(** ** Types *)

(** An event that the generated protobuf type can hold. *)
Definition event_typed (ev : RpcEvent) : Prop :=
  match ev with
  | GameStartEvent _ _ _ seat => - 2 ^ 31 ≤ seat < 2 ^ 31
  | RoundStartedEvent _ rid p seat => 0 ≤ rid < 2 ^ 64 ∧ 0 ≤ p < 2 ^ 32 ∧ - 2 ^ 31 ≤ seat < 2 ^ 31
  | ActionEvent _ rid att seat kind amount _ _ =>
      0 ≤ rid < 2 ^ 64 ∧ 0 ≤ att < 2 ^ 32 ∧ - 2 ^ 31 ≤ seat < 2 ^ 31 ∧ 0 ≤ kind ≤ 3 ∧ 0 ≤ amount < 2 ^ 64
  | AutoFoldEvent _ rid seat => 0 ≤ rid < 2 ^ 64 ∧ 0 ≤ seat < 2 ^ 32
  | LogEvent ts _ _ _ _ _ _ _ => - 2 ^ 63 ≤ ts < 2 ^ 63
  | HoleCardsEvent _ _ _ | CommunityCardsEvent _ _ | PeerMessageEvent _ _ _ => True
  end.

Lemma atou64_range s : 0 ≤ atou64 s < 2 ^ 64.
Proof. unfold atou64. destruct (ParseUint s 64) as [v e] eqn:H. by apply (ParseUint_range 64) in H. Qed.

Lemma atou32_range s : 0 ≤ atou32 s < 2 ^ 32.
Proof. unfold atou32. apply Z.mod_pos_bound. done. Qed.

Lemma atoi32_range s : - 2 ^ 31 ≤ atoi32 s < 2 ^ 31.
Proof. unfold atoi32, i32. pose proof (Z.mod_pos_bound ((ParseInt s 32).1 + 2 ^ 31) (2 ^ 32) ltac:(done)). lia. Qed.

Lemma kind_range s : 0 ≤ actionKindFromName s ≤ 3.
Proof. unfold actionKindFromName. repeat case_decide; done. Qed.



(** ** What a stream sends *)

Definition bus_part (l : list (Event + RpcEvent)) : list Event :=
  omap (λ x, match x with inl ev => Some ev | inr _ => None end) l.
Definition chat_part (l : list (Event + RpcEvent)) : list RpcEvent :=
  omap (λ x, match x with inl _ => None | inr ev => Some ev end) l.

(** The events and messages of a run, in order. *)
Inductive stream_run : list stream_label → streams → streams → Prop :=
| sr_refl w : stream_run [] w w
| sr_step ls l w w' w'' : stream_run ls w w' → stream_step l w' w'' → stream_run (ls ++ [l]) w w''.

Definition emitted (ls : list stream_label) : list Event :=
  omap (λ l, match l with LEmitted ev => Some ev | _ => None end) ls.

(** Subscriptions are the bus's own and belong to one stream each; a stream
    sends nothing before its subscription. *)
Record streams_ok (w : streams) : Prop := {
  so_fresh : ∀ i st, calls_ w !! i = Some st → phase st = Registered → sent st = [];
  so_sub : ∀ i st sub, calls_ w !! i = Some st → phase st = Running sub → (sub < next_chan (bus w))%nat;
  so_inj : ∀ i j st st' sub, calls_ w !! i = Some st → calls_ w !! j = Some st' → phase st = Running sub →
    phase st' = Running sub → i = j;
}.

(** What replaces the [i]-th stream keeps [streams_ok] when it keeps the phase,
    or ends, and has a known subscription. *)
Lemma streams_ok_update w i st st' b h :
  streams_ok w → calls_ w !! i = Some st → (phase st' = phase st ∨ phase st' = Ended) →
  (phase st' = Registered → sent st' = sent st) → next_chan b = next_chan (bus w) →
  streams_ok (mkStreams b h (<[i := st']> (calls_ w))).
Proof.
  intros [Hf Hs Hi] Hst Hph Hsent Hn.
  assert (∀ j x, <[i := st']> (calls_ w) !! j = Some x →
    ∃ y, calls_ w !! j = Some y ∧ (phase x = phase y ∨ phase x = Ended) ∧ (phase x = Registered → sent x = sent y)) as Hback.
  { intros j x [(<- & <- & _)|[_ Hx]]%list_lookup_insert_Some; eauto 10. }
  constructor; cbn.
  - intros j x (y & Hy & [Hp|Hp] & Hse)%Hback Hreg; [|congruence]. rewrite Hse by done. eapply Hf; [done|congruence].
  - intros j x sub (y & Hy & [Hp|Hp] & _)%Hback Hrun; [|congruence]. rewrite Hn. eapply Hs; [done|congruence].
  - intros j k x x' sub (y & Hy & Hp & _)%Hback (y' & Hy' & Hp' & _)%Hback Hrun Hrun'.
    apply (Hi j k y y' sub); [done|done|destruct Hp; congruence|destruct Hp'; congruence].
Qed.

Lemma receive_next sub b ev b' : receive sub b = Some (ev, b') → next_chan b' = next_chan b.
Proof. unfold receive. destruct (subs b !! sub) as [[|x buf]|]; [done| |done]. by intros [= _ <-]. Qed.

Lemma cancel_next sub b : next_chan (cancel sub b) = next_chan b.
Proof. unfold cancel. by destruct (subs b !! sub). Qed.

Lemma push_chat_same ev st : phase (push_chat ev st) = phase st ∧ sent (push_chat ev st) = sent st.
Proof. unfold push_chat. by case_decide. Qed.

Lemma alter_known {A} (f : A → A) (l : list A) (i : nat) x : l !! i = Some x → alter f i l = <[i := f x]> l.
Proof. revert i. induction l as [|y l IH]; intros [|i] Hi; cbn; simplify_eq/=; [done|]. f_equal. by apply IH. Qed.

Lemma alter_unknown {A} (f : A → A) (l : list A) (i : nat) : l !! i = None → alter f i l = l.
Proof. revert i. induction l as [|y l IH]; intros [|i] Hi; cbn; simplify_eq/=; [done..|]. f_equal. by apply IH. Qed.

Lemma streams_ok_step l w w' : streams_ok w → stream_step l w w' → streams_ok w'.
Proof.
  intros Hw Hs. pose proof Hw as [Hf Hsub Hi].
  destruct Hs as [w|w i st Hst Hph|w now id session ev|w i msg Hh|w i st sub ev b ok Hst Hph Hr|w i st sub ev buf ok Hst Hph Hb|w i st sub Hst Hph].
  - assert (∀ j x, (calls_ w ++ [mkStream Registered [] []]) !! j = Some x →
      calls_ w !! j = Some x ∨ x = mkStream Registered [] []) as Hback.
    { intros j x [Hx|[_ Hx]]%lookup_app_Some; [by left|right]. by destruct (j - length (calls_ w))%nat; simplify_eq/=. }
    constructor; cbn.
    + intros j x [Hx| ->]%Hback Hreg; [by eapply Hf|done].
    + intros j x sub [Hx| ->]%Hback Hrun; [by eapply Hsub|done].
    + intros j k x x' sub [Hx| ->]%Hback [Hx'| ->]%Hback Hrun Hrun'; [by eapply Hi|done..].
  - constructor; cbn.
    + intros j x [(<- & <- & _)|[_ Hx]]%list_lookup_insert_Some; [done|by eapply Hf].
    + intros j x sub [(<- & <- & _)|[_ Hx]]%list_lookup_insert_Some; cbn; [intros [= <-]; lia|].
      intros Hrun. specialize (Hsub _ _ _ Hx Hrun). lia.
    + intros j k x x' sub [(<- & <- & _)|[Hne Hx]]%list_lookup_insert_Some
        [(<- & <- & _)|[Hne' Hx']]%list_lookup_insert_Some; cbn; try done.
      * intros [= <-] Hrun. specialize (Hsub _ _ _ Hx' Hrun). lia.
      * intros Hrun [= <-]. specialize (Hsub _ _ _ Hx Hrun). lia.
      * by eapply Hi.
  - by constructor.
  - destruct (calls_ w !! i) as [st|] eqn:Hst.
    + rewrite (alter_known _ _ _ _ Hst). destruct (push_chat_same (chat_event msg) st) as [H1 H2].
      eapply streams_ok_update; eauto.
    + rewrite alter_unknown by done. by constructor.
  - destruct ok; eapply streams_ok_update; try done; try (by left); try (by right); cbn.
    + by rewrite Hph.
    + by eapply receive_next.
    + rewrite cancel_next. by eapply receive_next.
  - destruct ok; eapply streams_ok_update; try done; try (by left); try (by right); cbn.
    + by rewrite Hph.
    + by rewrite cancel_next.
  - eapply streams_ok_update; try done; [by right|]. by rewrite cancel_next.
Qed.

(** A stream from its subscription on: [evs] were emitted since. *)
Definition follows (i sub : nat) (evs : list Event) (w : streams) : Prop :=
  ∃ st, calls_ w !! i = Some st ∧
    ((phase st = Running sub ∧ ∃ buf, subs (bus w) !! sub = Some buf ∧ sublist (bus_part (sent st) ++ buf) evs ∧
        ((length evs ≤ bus_capacity)%nat → bus_part (sent st) ++ buf = evs)) ∨
     (phase st = Ended ∧ sublist (bus_part (sent st)) evs)).

(** A step that keeps the stream's place, what it sent and its buffer. *)
Lemma follows_kept i sub evs w w' st st' :
  follows i sub evs w → calls_ w !! i = Some st → calls_ w' !! i = Some st' → phase st' = phase st → sent st' = sent st →
  (phase st = Running sub → subs (bus w') !! sub = subs (bus w) !! sub) → follows i sub evs w'.
Proof.
  intros (x & Hx & Hcase) Hst Hst' Hp Hs Hb. rewrite Hst in Hx. injection Hx as <-. exists st'. split; [done|].
  rewrite Hp, Hs. destruct Hcase as [[Hrun Hc]|Hend]; [left|by right]. split; [done|]. by rewrite Hb.
Qed.

Lemma cancel_other sub sub' b : sub ≠ sub' → subs (cancel sub' b) !! sub = subs b !! sub.
Proof. intros Hne. unfold cancel. destruct (subs b !! sub'); [|done]. cbn. by rewrite lookup_delete_ne. Qed.

Lemma receive_other sub sub' b ev b' : sub ≠ sub' → receive sub' b = Some (ev, b') → subs b' !! sub = subs b !! sub.
Proof.
  intros Hne. unfold receive. destruct (subs b !! sub') as [[|x buf]|]; [done| |done]. intros [= _ <-]. cbn.
  by rewrite lookup_insert_ne.
Qed.

(** The stream ends: what it sent stays sent. *)
Lemma follows_ended i sub evs w w' st st' :
  follows i sub evs w → calls_ w !! i = Some st → calls_ w' !! i = Some st' → phase st' = Ended → sent st' = sent st →
  follows i sub evs w'.
Proof.
  intros (x & Hx & Hcase) Hst Hst' Hp Hs. rewrite Hst in Hx. injection Hx as <-. exists st'. split; [done|]. right.
  split; [done|]. rewrite Hs. destruct Hcase as [[_ (buf & _ & Hsub & _)]|[_ Hsub]]; [|done].
  etrans; [|exact Hsub]. by apply sublist_inserts_r.
Qed.

Lemma follows_emit i sub evs w now id session ev :
  follows i sub evs w →
  follows i sub (evs ++ [fill now id session ev]) (mkStreams (Emit now id session ev (bus w)) (handler w) (calls_ w)).
Proof.
  intros (st & Hst & Hcase). exists st. split; [done|]. destruct Hcase as [[Hrun (buf & Hbuf & Hsub & Heq)]|[Hend Hsub]].
  - left. split; [done|]. exists (try_send (fill now id session ev) buf). cbn [bus Emit subs].
    rewrite lookup_fmap, Hbuf. split; [done|]. unfold try_send.
    apply sublist_length in Hsub as Hlen. rewrite length_app in Hlen. split.
    + case_decide; [|by apply sublist_snoc_l]. rewrite app_assoc. by apply sublist_app.
    + rewrite length_app. cbn [length]. intros Hle. rewrite decide_True by lia. rewrite app_assoc, Heq by lia. done.
  - right. split; [done|]. by apply sublist_snoc_l.
Qed.

Lemma follows_step i sub evs l w w' :
  streams_ok w → follows i sub evs w → stream_step l w w' → follows i sub (evs ++ emitted [l]) w'.
Proof.
  intros [Hf Hsub Hinj] Hfol Hs. pose proof Hfol as (x & Hx & Hcase).
  assert (∀ j y sub', calls_ w !! j = Some y → phase y = Running sub' → phase x = Running sub → i ≠ j → sub ≠ sub') as Hne.
  { intros j y sub' Hy Hrun' Hrun Hij <-. apply Hij. by eapply Hinj. }
  destruct Hs as [w|w j st Hst Hph|w now id session ev|w j msg Hh|w j st s ev b ok Hst Hph Hr|w j st s ev buf ok Hst Hph Hb|w j st s Hst Hph];
    cbn [emitted omap list_omap]; rewrite ?app_nil_r.
  - eapply (follows_kept i sub evs w _ x x); [done|done| |done..]. cbn. by apply lookup_app_l_Some.
  - eapply (follows_kept i sub evs w _ x x); [done|done| |done|done|].
    + cbn. rewrite list_lookup_insert_ne; [done|]. intros ->. rewrite Hx in Hst. injection Hst as <-.
      destruct Hcase as [[? _]|[? _]]; congruence.
    + cbn. intros Hrun. rewrite lookup_insert_ne; [done|]. specialize (Hsub _ _ _ Hx Hrun). lia.
  - by apply follows_emit.
  - cbn. destruct (decide (i = j)) as [<-|Hij].
    + destruct (push_chat_same (chat_event msg) x). eapply (follows_kept i sub evs w _ x); [done|done| |done|done|done].
      cbn. by rewrite list_lookup_alter_eq, Hx.
    + eapply (follows_kept i sub evs w _ x x); [done|done| |done..]. cbn. by rewrite list_lookup_alter_ne.
  - destruct (decide (i = j)) as [<-|Hij].
    + rewrite Hx in Hst. injection Hst as <-. assert (i < length (calls_ w))%nat as Hlt by (by eapply lookup_lt_Some).
      destruct ok; [|eapply (follows_ended i sub evs w _ x); [done|done|cbn; by apply list_lookup_insert_eq|done|done]].
      destruct Hcase as [[Hrun (buf & Hbuf & Hsb & Heq)]|[Hend _]]; [|congruence]. rewrite Hph in Hrun. injection Hrun as ->.
      unfold receive in Hr. rewrite Hbuf in Hr. destruct buf as [|y buf]; [done|]. injection Hr as <- <-.
      eexists. split; [by apply list_lookup_insert_eq|]. left. split; [done|]. exists buf. cbn. rewrite lookup_insert_eq. split; [done|].
      unfold bus_part. rewrite omap_app. cbn. rewrite <- app_assoc. done.
    + assert (∀ b' cs, phase x = Running sub → subs b' !! sub = subs b !! sub → subs (bus (mkStreams b' (handler w) cs)) !! sub = subs (bus w) !! sub) as Hkeep.
      { intros b' cs Hrun Hb'. cbn. rewrite Hb'. eapply receive_other; [|exact Hr]. by apply (Hne j st s). }
      destruct ok; cbn [calls_]; (eapply (follows_kept i sub evs w _ x x); [done|done|cbn; by rewrite list_lookup_insert_ne|done|done|]);
        intros Hrun; apply Hkeep; [done|done|done|]. apply cancel_other. by apply (Hne j st s).
  - destruct (decide (i = j)) as [<-|Hij].
    + rewrite Hx in Hst. injection Hst as <-. assert (i < length (calls_ w))%nat as Hlt by (by eapply lookup_lt_Some).
      destruct ok; [|eapply (follows_ended i sub evs w _ x); [done|done|cbn; by apply list_lookup_insert_eq|done|done]].
      destruct Hcase as [[Hrun (buf' & Hbuf & Hsb & Heq)]|[Hend _]]; [|congruence].
      eexists. split; [by apply list_lookup_insert_eq|]. left. split; [done|]. exists buf'. split; [done|].
      unfold bus_part. cbn [sent]. rewrite omap_app. cbn [omap list_omap]. rewrite app_nil_r. done.
    + destruct ok; (eapply (follows_kept i sub evs w _ x x); [done|done|cbn; by rewrite list_lookup_insert_ne|done|done|]);
        intros Hrun; [done|]. apply cancel_other. by apply (Hne j st s).
  - destruct (decide (i = j)) as [<-|Hij].
    + rewrite Hx in Hst. injection Hst as <-. apply (follows_ended i sub evs w _ x (end_stream x)); [done|done| |done|done].
      apply list_lookup_insert_eq. by eapply lookup_lt_Some.
    + eapply (follows_kept i sub evs w _ x x); [done|done|cbn; by rewrite list_lookup_insert_ne|done|done|].
      intros Hrun. apply cancel_other. by apply (Hne j st s).
Qed.

Lemma run_ok ls w w' : streams_ok w → stream_run ls w w' → streams_ok w'.
Proof. intros Hw Hrun. induction Hrun as [w|ls l w w1 w2 _ IH Hs]; [done|]. by eapply streams_ok_step; [apply IH|]. Qed.

Lemma no_streams_ok : streams_ok no_streams.
Proof. by constructor. Qed.


(** ** Chat *)

(** What reached stream [i] over its chat channel is within [old]. *)
Definition cut_off (i : nat) (old : list RpcEvent) (w : streams) : Prop :=
  handler w ≠ Some i ∧ ∃ st, calls_ w !! i = Some st ∧ sublist (chat_part (sent st) ++ chat_buf st) old.

Lemma cut_off_kept i old w w' st st' :
  cut_off i old w → calls_ w !! i = Some st → calls_ w' !! i = Some st' → handler w' ≠ Some i →
  sublist (chat_part (sent st') ++ chat_buf st') (chat_part (sent st) ++ chat_buf st) → cut_off i old w'.
Proof.
  intros (_ & x & Hx & Hsub) Hst Hst' Hh Hs. rewrite Hst in Hx. injection Hx as <-. split; [done|].
  exists st'. split; [done|]. by etrans.
Qed.

Lemma chat_part_snoc l x : chat_part (l ++ [x]) = chat_part l ++ match x with inl _ => [] | inr ev => [ev] end.
Proof. unfold chat_part. rewrite omap_app. by destruct x. Qed.

Lemma cut_off_step i old l w w' : cut_off i old w → stream_step l w w' → cut_off i old w'.
Proof.
  intros Hcut Hs. pose proof Hcut as (Hh & x & Hx & _). assert (i < length (calls_ w))%nat as Hlt by (by eapply lookup_lt_Some).
  assert (∀ b j y, (j = i → sublist (chat_part (sent y) ++ chat_buf y) (chat_part (sent x) ++ chat_buf x)) →
    cut_off i old (mkStreams b (handler w) (<[j := y]> (calls_ w)))) as Hins.
  { intros b j y Hy. destruct (decide (j = i)) as [->|Hji].
    - eapply (cut_off_kept i old w _ x y); [done|done|by apply list_lookup_insert_eq|done|by apply Hy].
    - eapply (cut_off_kept i old w _ x x); [done|done|cbn; by rewrite list_lookup_insert_ne|done|done]. }
  destruct Hs as [w|w j st Hst Hph|w now id session ev|w j msg Hj|w j st s ev b ok Hst Hph Hr|w j st s ev buf ok Hst Hph Hb|w j st s Hst Hph].
  - eapply (cut_off_kept i old w _ x x); [done|done|cbn; by apply lookup_app_l_Some|cbn; intros [= ?]; lia|done].
  - apply Hins. intros ->. by simplify_eq.
  - done.
  - eapply (cut_off_kept i old w _ x x); [done|done| |done|done]. cbn. rewrite list_lookup_alter_ne; [done|]. intros ->. done.
  - destruct ok; apply Hins; intros ->; simplify_eq; [|done]. cbn. rewrite chat_part_snoc. by rewrite app_nil_r.
  - destruct ok; apply Hins; intros ->; simplify_eq; cbn; rewrite Hb.
    + rewrite chat_part_snoc. by rewrite <- app_assoc.
    + apply sublist_app; [done|]. by constructor.
  - apply Hins. intros ->. by simplify_eq.
Qed.

(** Chat goes to the last subscriber only.  Once another stream has registered
    for the chat messages, the streams before it never receive one again, even
    when that other stream has ended: all they can still send is what was
    buffered for them. *)
Theorem chat_stolen w1 i st ls w :
  handler w1 ≠ Some i → calls_ w1 !! i = Some st → stream_run ls w1 w →
  ∃ st', calls_ w !! i = Some st' ∧ sublist (chat_part (sent st') ++ chat_buf st') (chat_part (sent st) ++ chat_buf st).
Proof.
  intros Hh Hst Hrun. assert (cut_off i (chat_part (sent st) ++ chat_buf st) w) as (_ & st' & Hst' & Hsub); [|eauto].
  induction Hrun as [w|ls l w w' w'' Hrun IH Hstep]; [split; [done|]; eauto|]. eapply cut_off_step; eauto.
Qed.

(** ** Witnesses *)

(** One stream subscribes, an event is emitted, and the stream sends it. *)
Definition note : Event := mkBusEvent None EmptyString EmptyString "log" "test" "hello" ∅ ∅.
Definition one_registered : streams := mkStreams empty_bus (Some 0%nat) [mkStream Registered [] []].
Definition one_running : streams := mkStreams (Subscribe empty_bus).2 (Some 0%nat) [mkStream (Running 0) [] []].
Definition one_buffered : streams := mkStreams (Emit 5 "n" "s" note (bus one_running)) (Some 0%nat) [mkStream (Running 0) [] []].


(** A second stream registers and ends; a chat message then reaches nobody. *)
Definition two_registered : streams := mkStreams (bus one_running) (Some 1%nat) [mkStream (Running 0) [] []; mkStream Ended [] []].
Definition chat_lost : streams :=
  mkStreams (bus one_running) (Some 1%nat) (alter (push_chat (chat_event (mkMessage "bob" "chat" []))) 1%nat (calls_ two_registered)).

Lemma chat_stolen_witness :
  ∃ st', calls_ chat_lost !! 0%nat = Some st' ∧ sublist (chat_part (sent st') ++ chat_buf st') [].
Proof.
  apply (chat_stolen two_registered 0 (mkStream (Running 0) [] []) ([] ++ [LChatted (mkMessage "bob" "chat" [])]) chat_lost).
  - discriminate.
  - reflexivity.
  - eapply sr_step; [apply sr_refl|]. apply (st_chat two_registered 1). reflexivity.
Defined.
