(* ===== verification/Mesh.v ===== *)
(** * Forming the peer mesh ([internal/peer/mesh.go])

    Every node listens for peers; [ConnectToPeers] dials the peers that
    dispatch announced, and both ends of a new connection exchange a handshake
    with their node id and public key.  A [system] is a list of nodes, the TCP
    connections between them and their goroutines; [gor_outcomes] lists what a
    goroutine can do next, up to its next blocking operation.  The messages
    that go over the connections afterwards are the subject of [Remote]. *)

From Stdlib Require Import ZArith Lia.
From stdpp Require Import base list gmap strings numbers relations.
From S2P Require Import Prelude Strconv Ephemeral Deck Peer GameLog Dispatch Remote Client ClientApi.

#[local] Open Scope Z_scope.

(** What the mesh uses of a node: its identity and address, [peers] (the
    connection a message to a peer goes out on) and [peerPKs]. *)
Record member := mkMember {
  mid : string;
  mpk : list Z;
  maddr : string;
  mpeers : gmap string nat;
  mkeys : gmap string (list Z);
}.

Definition set_key (id : string) (pk : list Z) (m : member) : member :=
  mkMember (mid m) (mpk m) (maddr m) (mpeers m) (<[id := pk]> (mkeys m)).
Definition set_peer (id : string) (l : nat) (m : member) : member :=
  mkMember (mid m) (mpk m) (maddr m) (<[id := l]> (mpeers m)) (mkeys m).
Definition del_peer (id : string) (m : member) : member :=
  mkMember (mid m) (mpk m) (maddr m) (delete id (mpeers m)) (mkeys m).

(** A connection to the listener of node [link_to]: the frames under way in
    both directions, and whether it is broken or closed. *)
Record link := mkLink {
  link_to : nat;
  to_acceptor : list Frame;
  to_dialer : list Frame;
  dead : bool;
}.

Inductive connect_err := ErrListPeers | ErrDialPeer (peerID : string).

(** The goroutines: a call of [ConnectToPeers] (between two peers, or waiting
    for the answer to its handshake, or returned), an inbound connection
    (waiting for the handshake, about to answer it, about to register the
    connection), a [peerReadLoop], and one that has ended. *)
Inductive gor :=
| Connect (todo : list PeerInfo)
| Dialing (peerID : string) (l : nat) (todo : list PeerInfo)
| Connected (r : res connect_err unit)
| Incoming (l : nat)
| Replying (l : nat) (peerID : string)
| Registering (l : nat) (peerID : string)
| ReadLoop (peerID : string) (l : nat)
| Gone.

Record system := mkSystem { mems : list member; links : list link; gors : list (nat * gor) }.

(** [protocol.Frame{Kind: KindPeerHandshake, NodeID: n.ID(), PublicKey: n.pk}] *)
Definition handshake_frame (m : member) : Frame :=
  mkFrame KindPeerHandshake "" (mid m) "" "" "" [] false "" [] [] [] 0 (mpk m) 0 0.

Definition close_link (l : nat) (ls : list link) : list link :=
  alter (λ x, mkLink (link_to x) (to_acceptor x) (to_dialer x) true) l ls.

(** What [Receive] can return on one end: the next frame, or an error once the
    connection is dead. *)
Definition receive (inbox : list Frame) (broken : bool) : list (option (Frame * list Frame)) :=
  match inbox with f :: fs => [Some (f, fs)] | [] => [] end ++ (if broken then [None] else []).

(** The node listening at [addr]. *)
Definition listener (ms : list member) (addr : string) : option nat :=
  fst <$> list_find (λ m, maddr m = addr) ms.

(** What a goroutine of node [i] does next: the node afterwards, the
    connections, where the goroutine is, and the goroutines it has started. *)
Definition outcome : Type := member * list link * gor * list (nat * gor).

(** [dialPeer], after the handshake was answered. *)
Definition dial_response (i : nat) (me : member) (ls : list link) (peerID : string) (l : nat) (todo : list PeerInfo)
    (resp : Frame) : outcome :=
  if negb (bool_decide (Kind resp = KindPeerHandshake)) || negb (len (PublicKey resp) =? PublicKeySize)
  then (me, close_link l ls, Connected (Err (ErrDialPeer peerID)), [])
  else (set_peer peerID l (set_key peerID (PublicKey resp) me), ls, Connect todo, [(i, ReadLoop peerID l)]).

(** [handleIncomingPeer], once a frame has arrived. *)
Definition handle_handshake (me : member) (ls : list link) (l : nat) (frame : Frame) : outcome :=
  if negb (bool_decide (Kind frame = KindPeerHandshake)) || bool_decide (FNodeID frame = "")
     || negb (len (PublicKey frame) =? PublicKeySize)
  then (me, close_link l ls, Gone, [])
  else (set_key (FNodeID frame) (PublicKey frame) me, ls, Replying l (FNodeID frame), []).

(** [faults]: dialling may fail. *)
Definition gor_outcomes (faults : bool) (ms : list member) (ls : list link) (i : nat) (me : member) (g : gor)
    : list outcome :=
  match g with
  | Connect [] => [(me, ls, Connected (Ok tt), [])]
  | Connect (p :: todo) =>
      if decide (PeerInfo_ID p = mid me) then [(me, ls, Connect todo, [])]
      else if decide (is_Some (mpeers me !! PeerInfo_ID p)) then [(me, ls, Connect todo, [])]
      else
        (if faults then [(me, ls, Connected (Err (ErrDialPeer (PeerInfo_ID p))), [])] else []) ++
        match listener ms (PeerInfo_Addr p) with
        | None => [(me, ls, Connected (Err (ErrDialPeer (PeerInfo_ID p))), [])]
        | Some j =>
            [(me, ls ++ [mkLink j [handshake_frame me] [] false], Dialing (PeerInfo_ID p) (length ls) todo,
              [(j, Incoming (length ls))])]
        end
  | Dialing peerID l todo =>
      x ← option_list (ls !! l);
      r ← receive (to_dialer x) (dead x);
      [match r with
       | None => (me, close_link l ls, Connected (Err (ErrDialPeer peerID)), [])
       | Some (resp, fs) =>
           dial_response i me (<[l := mkLink (link_to x) (to_acceptor x) fs (dead x)]> ls) peerID l todo resp
       end]
  | Connected _ => []
  | Incoming l =>
      x ← option_list (ls !! l);
      r ← receive (to_acceptor x) (dead x);
      [match r with
       | None => (me, close_link l ls, Gone, [])
       | Some (frame, fs) =>
           handle_handshake me (<[l := mkLink (link_to x) fs (to_dialer x) (dead x)]> ls) l frame
       end]
  | Replying l peerID =>
      x ← option_list (ls !! l);
      [if dead x then (me, close_link l ls, Gone, [])
       else (me, <[l := mkLink (link_to x) (to_acceptor x) (to_dialer x ++ [handshake_frame me]) false]> ls,
             Registering l peerID, [])]
  | Registering l peerID => [(set_peer peerID l me, ls, ReadLoop peerID l, [])]
  | ReadLoop peerID l =>
      x ← option_list (ls !! l);
      if dead x then [(del_peer peerID me, ls, Gone, [])] else []
  | Gone => []
  end.

(** Any goroutine takes its next step; with [faults], a connection breaks. *)
Inductive form_step (faults : bool) : system → system → Prop :=
| form_gor s a i g me me' ls' g' sp :
    gors s !! a = Some (i, g) → mems s !! i = Some me →
    (me', ls', g', sp) ∈ gor_outcomes faults (mems s) (links s) i me g →
    form_step faults s (mkSystem (<[i := me']> (mems s)) ls' (<[a := (i, g')]> (gors s) ++ sp))
| form_break s l :
    faults = true → form_step faults s (mkSystem (mems s) (close_link l (links s)) (gors s)).

(** ** An executable scheduler: the [n]-th outcome of goroutine [a]. *)
Definition form_next (faults : bool) (a n : nat) (s : system) : option system :=
  '(i, g) ← gors s !! a; me ← mems s !! i;
  '(me', ls', g', sp) ← gor_outcomes faults (mems s) (links s) i me g !! n;
  Some (mkSystem (<[i := me']> (mems s)) ls' (<[a := (i, g')]> (gors s) ++ sp)).

Lemma form_next_step faults a n s s' : form_next faults a n s = Some s' → form_step faults s s'.
Proof.
  unfold form_next. destruct (gors s !! a) as [[i g]|] eqn:Ha; [|done]. cbn.
  destruct (mems s !! i) as [me|] eqn:Hi; [|done]. cbn.
  destruct (gor_outcomes faults (mems s) (links s) i me g !! n) as [[[[me' ls'] g'] sp]|] eqn:Ho; [|done].
  intros [= <-]. eapply form_gor; [done..|]. by eapply list_elem_of_lookup_2.
Qed.

(** Running the goroutines [as_] in turn, each its last outcome (with
    [faults], the first one of a dial is its failure). *)
Definition form_last (faults : bool) (a : nat) (s : system) : option system :=
  match form_next faults a 1 s with Some s' => Some s' | None => form_next faults a 0 s end.

Lemma form_last_step faults a s s' : form_last faults a s = Some s' → form_step faults s s'.
Proof.
  unfold form_last. destruct (form_next faults a 1 s) as [s1|] eqn:H1; [|apply form_next_step].
  intros [= <-]. by eapply form_next_step.
Qed.

Definition form_run (faults : bool) (as_ : list nat) (s : system) : option system :=
  foldl (λ o a, s ← o; form_last faults a s) (Some s) as_.

Lemma form_run_steps faults as_ s s' : form_run faults as_ s = Some s' → nsteps (form_step faults) (length as_) s s'.
Proof.
  unfold form_run. revert s. induction as_ as [|a as_ IH]; intros s; cbn; [intros [= ->]; constructor|].
  destruct (form_last faults a s) as [s1|] eqn:Hs.
  - intros Hrun. eapply nsteps_l; [by eapply form_last_step|]. by apply IH.
  - intros Hrun. exfalso. clear -Hrun. induction as_ as [|a as_ IH]; [done|by apply IH].
Qed.

(** ** The start: all nodes attached, nobody connected, everybody calling
    [ConnectToPeers] with a list of all nodes, in any order. *)
Definition announced (ids : list (string * list Z * string)) : list PeerInfo := (λ p, mkPeerInfo p.1.1 p.2) <$> ids.

Definition mesh_start (ids : list (string * list Z * string)) (lists : list (list PeerInfo)) : system :=
  mkSystem ((λ p, mkMember p.1.1 p.1.2 p.2 ∅ {[p.1.1 := p.1.2]}) <$> ids) [] (imap (λ i ps, (i, Connect ps)) lists).
