(* ===== verification/MeshProofs.v ===== *)
(** * Forming the peer mesh: invariants

    The moves of a goroutine; what holds of keys, connections and goroutines
    whatever fails ([form_safe]); what keeps the system going when nothing
    fails ([form_live]), and the measure that every step decreases. *)

From Stdlib Require Import ZArith Lia.
From stdpp Require Import base list gmap strings numbers relations.
From S2P Require Import Prelude Strconv Ephemeral Deck Peer GameLog Dispatch Remote Client ClientApi Mesh.

#[local] Open Scope Z_scope.

(** ** The moves of a goroutine *)

Definition good_handshake (f : Frame) : Prop :=
  Kind f = KindPeerHandshake ∧ len (PublicKey f) = PublicKeySize.

Inductive gor_move (faults : bool) (ms : list member) (ls : list link) (i : nat) (me : member) : gor → outcome → Prop :=
| mv_done : gor_move faults ms ls i me (Connect []) (me, ls, Connected (Ok tt), [])
| mv_skip p todo :
    PeerInfo_ID p = mid me ∨ is_Some (mpeers me !! PeerInfo_ID p) →
    gor_move faults ms ls i me (Connect (p :: todo)) (me, ls, Connect todo, [])
| mv_dial_fails p todo :
    faults = true ∨ listener ms (PeerInfo_Addr p) = None →
    gor_move faults ms ls i me (Connect (p :: todo)) (me, ls, Connected (Err (ErrDialPeer (PeerInfo_ID p))), [])
| mv_dial p todo j :
    PeerInfo_ID p ≠ mid me → mpeers me !! PeerInfo_ID p = None → listener ms (PeerInfo_Addr p) = Some j →
    gor_move faults ms ls i me (Connect (p :: todo))
      (me, ls ++ [mkLink j [handshake_frame me] [] false], Dialing (PeerInfo_ID p) (length ls) todo, [(j, Incoming (length ls))])
| mv_dial_dead peerID l todo x :
    ls !! l = Some x → dead x = true →
    gor_move faults ms ls i me (Dialing peerID l todo) (me, close_link l ls, Connected (Err (ErrDialPeer peerID)), [])
| mv_dial_refused peerID l todo x f fs :
    ls !! l = Some x → to_dialer x = f :: fs → ¬ good_handshake f →
    gor_move faults ms ls i me (Dialing peerID l todo)
      (me, close_link l (<[l := mkLink (link_to x) (to_acceptor x) fs (dead x)]> ls), Connected (Err (ErrDialPeer peerID)), [])
| mv_dial_ok peerID l todo x f fs :
    ls !! l = Some x → to_dialer x = f :: fs → good_handshake f →
    gor_move faults ms ls i me (Dialing peerID l todo)
      (set_peer peerID l (set_key peerID (PublicKey f) me), <[l := mkLink (link_to x) (to_acceptor x) fs (dead x)]> ls,
       Connect todo, [(i, ReadLoop peerID l)])
| mv_incoming_dead l x :
    ls !! l = Some x → dead x = true → gor_move faults ms ls i me (Incoming l) (me, close_link l ls, Gone, [])
| mv_incoming_refused l x f fs :
    ls !! l = Some x → to_acceptor x = f :: fs → ¬ (good_handshake f ∧ FNodeID f ≠ "") →
    gor_move faults ms ls i me (Incoming l)
      (me, close_link l (<[l := mkLink (link_to x) fs (to_dialer x) (dead x)]> ls), Gone, [])
| mv_incoming l x f fs :
    ls !! l = Some x → to_acceptor x = f :: fs → good_handshake f → FNodeID f ≠ "" →
    gor_move faults ms ls i me (Incoming l)
      (set_key (FNodeID f) (PublicKey f) me, <[l := mkLink (link_to x) fs (to_dialer x) (dead x)]> ls,
       Replying l (FNodeID f), [])
| mv_reply_dead l peerID x :
    ls !! l = Some x → dead x = true → gor_move faults ms ls i me (Replying l peerID) (me, close_link l ls, Gone, [])
| mv_reply l peerID x :
    ls !! l = Some x → dead x = false →
    gor_move faults ms ls i me (Replying l peerID)
      (me, <[l := mkLink (link_to x) (to_acceptor x) (to_dialer x ++ [handshake_frame me]) false]> ls, Registering l peerID, [])
| mv_register l peerID :
    gor_move faults ms ls i me (Registering l peerID) (set_peer peerID l me, ls, ReadLoop peerID l, [])
| mv_loop_ends peerID l x :
    ls !! l = Some x → dead x = true → gor_move faults ms ls i me (ReadLoop peerID l) (del_peer peerID me, ls, Gone, []).

Lemma elem_of_option_list {A} (x : A) o : x ∈ option_list o ↔ o = Some x.
Proof. destruct o as [y|]; cbn; [rewrite list_elem_of_singleton; naive_solver|]. by rewrite elem_of_nil. Qed.

Lemma elem_of_receive r inbox broken :
  r ∈ receive inbox broken ↔
  (r = None ∧ broken = true) ∨ ∃ f fs, inbox = f :: fs ∧ r = Some (f, fs).
Proof.
  unfold receive. rewrite elem_of_app. split.
  - intros [Hr|Hr].
    + destruct inbox as [|f fs]; [by apply not_elem_of_nil in Hr|]. apply list_elem_of_singleton in Hr. right. by exists f, fs.
    + destruct broken; [|by apply not_elem_of_nil in Hr]. apply list_elem_of_singleton in Hr. by left.
  - intros [[-> ->]|(f & fs & -> & ->)]; [right|left]; by apply list_elem_of_singleton.
Qed.

Lemma dial_check f :
  negb (bool_decide (Kind f = KindPeerHandshake)) || negb (len (PublicKey f) =? PublicKeySize) = false ↔ good_handshake f.
Proof.
  unfold good_handshake. rewrite orb_false_iff, !negb_false_iff, bool_decide_eq_true, Z.eqb_eq. done.
Qed.

Lemma incoming_check f :
  negb (bool_decide (Kind f = KindPeerHandshake)) || bool_decide (FNodeID f = "")
  || negb (len (PublicKey f) =? PublicKeySize) = false ↔ good_handshake f ∧ FNodeID f ≠ "".
Proof.
  unfold good_handshake. rewrite !orb_false_iff, !negb_false_iff, bool_decide_eq_true, bool_decide_eq_false, Z.eqb_eq. tauto.
Qed.

Lemma gor_outcomes_move faults ms ls i me g o : o ∈ gor_outcomes faults ms ls i me g → gor_move faults ms ls i me g o.
Proof.
  destruct g as [[|p todo]|peerID l todo|r|l|l peerID|l peerID|peerID l|]; cbn [gor_outcomes].
  - intros ->%list_elem_of_singleton. constructor.
  - case_decide as H1; [intros ->%list_elem_of_singleton; constructor; by left|].
    case_decide as H2; [intros ->%list_elem_of_singleton; constructor; by right|].
    apply eq_None_not_Some in H2. rewrite elem_of_app. intros [Ho|Ho].
    + destruct faults; [|by apply not_elem_of_nil in Ho]. apply list_elem_of_singleton in Ho as ->. constructor. by left.
    + destruct (listener ms (PeerInfo_Addr p)) as [j|] eqn:Hj; apply list_elem_of_singleton in Ho as ->; constructor; auto.
  - rewrite list_elem_of_bind. intros (x & Ho & Hx%elem_of_option_list). apply list_elem_of_bind in Ho as (r & Ho & Hr).
    apply list_elem_of_singleton in Ho as ->. apply elem_of_receive in Hr as [[-> Hd]|(f & fs & Hf & ->)].
    + by eapply mv_dial_dead.
    + unfold dial_response. destruct (_ || _) eqn:Hc; [|apply dial_check in Hc; by eapply mv_dial_ok].
      eapply mv_dial_refused; [done..|]. rewrite <- dial_check. by rewrite Hc.
  - by intros ?%not_elem_of_nil.
  - rewrite list_elem_of_bind. intros (x & Ho & Hx%elem_of_option_list). apply list_elem_of_bind in Ho as (r & Ho & Hr).
    apply list_elem_of_singleton in Ho as ->. apply elem_of_receive in Hr as [[-> Hd]|(f & fs & Hf & ->)].
    + by eapply mv_incoming_dead.
    + unfold handle_handshake. destruct (_ || _) eqn:Hc; [|apply incoming_check in Hc as [? ?]; by eapply mv_incoming].
      eapply mv_incoming_refused; [done..|]. rewrite <- incoming_check. by rewrite Hc.
  - rewrite list_elem_of_bind. intros (x & Ho & Hx%elem_of_option_list). apply list_elem_of_singleton in Ho as ->.
    destruct (dead x) eqn:Hd; [by eapply mv_reply_dead|by eapply mv_reply].
  - intros ->%list_elem_of_singleton. constructor.
  - rewrite list_elem_of_bind. intros (x & Ho & Hx%elem_of_option_list).
    destruct (dead x) eqn:Hd; [|by apply not_elem_of_nil in Ho]. apply list_elem_of_singleton in Ho as ->.
    by eapply mv_loop_ends.
  - by intros ?%not_elem_of_nil.
Qed.

(** ** Key tables *)

Definition ident (m : member) : string * list Z * string := (mid m, mpk m, maddr m).

(** Distinct names and addresses, real names, keys of the right size. *)
Record ids_ok (ids : list (string * list Z * string)) : Prop := {
  io_names : ∀ i j p q, ids !! i = Some p → ids !! j = Some q → p.1.1 = q.1.1 → i = j;
  io_addrs : ∀ i j p q, ids !! i = Some p → ids !! j = Some q → p.2 = q.2 → i = j;
  io_sizes : ∀ i p, ids !! i = Some p → len p.1.2 = PublicKeySize;
  io_real : ∀ i p, ids !! i = Some p → p.1.1 ≠ "";
}.

Definition frame_from (p : string * list Z * string) : Frame :=
  mkFrame KindPeerHandshake "" p.1.1 "" "" "" [] false "" [] [] [] 0 p.1.2 0 0.

Section forming.
Context (ids : list (string * list Z * string)) (Hids : ids_ok ids).

Definition knows (ms : list member) (i : nat) (id : string) : Prop := ∃ m, ms !! i = Some m ∧ is_Some (mkeys m !! id).

(** The connection [l] was dialled to the node [i]. *)
Definition leads (ls : list link) (l i : nat) : Prop := ∃ x, ls !! l = Some x ∧ link_to x = i.

(** A call that still has to see [todo] knows everybody else. *)
Definition covers (ms : list member) (i : nat) (todo : list PeerInfo) : Prop :=
  (∀ p, p ∈ todo → p ∈ announced ids) ∧ (∀ p, p ∈ announced ids → p ∈ todo ∨ knows ms i (PeerInfo_ID p)).

Definition gor_safe (ms : list member) (ls : list link) (i : nat) (g : gor) : Prop :=
  match g with
  | Connect todo => covers ms i todo
  | Dialing peerID l todo =>
      (∃ j p, leads ls l j ∧ ids !! j = Some p ∧ p.1.1 = peerID) ∧
      (∀ p, p ∈ todo → p ∈ announced ids) ∧
      (∀ p, p ∈ announced ids → PeerInfo_ID p = peerID ∨ p ∈ todo ∨ knows ms i (PeerInfo_ID p))
  | Connected (Ok tt) => ∀ p, p ∈ announced ids → knows ms i (PeerInfo_ID p)
  | Incoming l => leads ls l i
  | Replying l peerID => leads ls l i ∧ knows ms i peerID
  | Registering l peerID => knows ms i peerID
  | _ => True
  end.

Definition link_safe (x : link) : Prop :=
  (∃ p, ids !! link_to x = Some p ∧ Forall (λ f, f = frame_from p) (to_dialer x)) ∧
  Forall (λ f, ∃ p, p ∈ ids ∧ f = frame_from p) (to_acceptor x).

Definition mem_safe (m : member) : Prop :=
  (∀ id pk, mkeys m !! id = Some pk → ∃ p, p ∈ ids ∧ p.1.1 = id ∧ p.1.2 = pk) ∧
  is_Some (mkeys m !! mid m) ∧ (∀ id, is_Some (mpeers m !! id) → is_Some (mkeys m !! id)).

Record form_safe (s : system) : Prop := {
  fs_ids : ident <$> mems s = ids;
  fs_mems : Forall mem_safe (mems s);
  fs_links : Forall link_safe (links s);
  fs_gors : ∀ a i g, gors s !! a = Some (i, g) → gor_safe (mems s) (links s) i g;
}.

(** What only grows. *)
Definition grows (ms ms' : list member) (ls ls' : list link) : Prop :=
  (∀ i id, knows ms i id → knows ms' i id) ∧ (∀ l i, leads ls l i → leads ls' l i).

Lemma gor_safe_grows ms ms' ls ls' i g : grows ms ms' ls ls' → gor_safe ms ls i g → gor_safe ms' ls' i g.
Proof.
  intros [Hk Hl]. destruct g as [todo|peerID l todo|[[]|?|]|l|l peerID|l peerID|peerID l|]; cbn; try done.
  - intros [? Hc]. split; [done|]. intros p Hp. destruct (Hc p Hp); eauto.
  - intros ((j & p & ? & ? & ?) & ? & Hc). split_and!; [exists j, p; by eauto|done|].
    intros q Hq. destruct (Hc q Hq) as [?|[?|?]]; eauto.
  - eauto.
  - eauto.
  - intros [? ?]. eauto.
  - eauto.
Qed.

Lemma leads_insert ls l x x' l' i : ls !! l = Some x → link_to x' = link_to x → leads ls l' i → leads (<[l := x']> ls) l' i.
Proof.
  intros Hx Heq (y & Hy & <-). destruct (decide (l' = l)) as [->|Hne].
  - exists x'. split; [apply list_lookup_insert_eq; by eapply lookup_lt_Some|]. rewrite Heq. congruence.
  - exists y. by rewrite list_lookup_insert_ne.
Qed.

Lemma leads_close ls l l' i : leads ls l' i → leads (close_link l ls) l' i.
Proof.
  intros (y & Hy & <-). unfold close_link. destruct (decide (l' = l)) as [->|Hne].
  - eexists. rewrite list_lookup_alter_eq, Hy. cbn. by split.
  - exists y. by rewrite list_lookup_alter_ne.
Qed.

Lemma leads_app ls ls' l i : leads ls l i → leads (ls ++ ls') l i.
Proof. intros (y & Hy & ?). exists y. split; [by apply lookup_app_l_Some|done]. Qed.

Lemma knows_insert ms i m m' j id :
  ms !! i = Some m → (∀ id, is_Some (mkeys m !! id) → is_Some (mkeys m' !! id)) →
  knows ms j id → knows (<[i := m']> ms) j id.
Proof.
  intros Hm Hk (x & Hx & Hs). destruct (decide (j = i)) as [->|Hne].
  - exists m'. split; [apply list_lookup_insert_eq; by eapply lookup_lt_Some|]. apply Hk. congruence.
  - exists x. by rewrite list_lookup_insert_ne.
Qed.

Lemma set_key_knows m id pk id' : is_Some (mkeys m !! id') → is_Some (mkeys (set_key id pk m) !! id').
Proof. intros [y Hy]. cbn. destruct (decide (id' = id)) as [->|?]; [rewrite lookup_insert_eq|rewrite lookup_insert_ne by done]; eauto. Qed.

Lemma knows_set ms i id pk m : ms !! i = Some m → mkeys m !! id = Some pk → knows ms i id.
Proof. intros Hm Hk. exists m. by rewrite Hk. Qed.

Lemma knows_here ms i m id : (i < length ms)%nat → is_Some (mkeys m !! id) → knows (<[i := m]> ms) i id.
Proof. intros Hi Hk. exists m. by rewrite list_lookup_insert_eq. Qed.

(** The node that listens where an announced peer says is that peer. *)
Lemma listener_announced ms p :
  ident <$> ms = ids → p ∈ announced ids →
  ∃ j q, listener ms (PeerInfo_Addr p) = Some j ∧ ids !! j = Some q ∧ q.1.1 = PeerInfo_ID p.
Proof.
  intros Hms (q & -> & Hq)%list_elem_of_fmap. cbn.
  apply list_elem_of_lookup in Hq as [k Hk]. pose proof Hk as Hk'. rewrite <- Hms, list_lookup_fmap in Hk'.
  destruct (ms !! k) as [mk|] eqn:Hmk; [|done]. injection Hk' as Hk'. unfold listener.
  destruct (list_find (λ m, maddr m = q.2) ms) as [[j m]|] eqn:Hf.
  - apply list_find_Some in Hf as (Hj & Ha & _). exists j, q. cbn. split_and!; [done| |done].
    assert (ids !! j = Some (ident m)) as Hj' by (rewrite <- Hms, list_lookup_fmap, Hj; done).
    rewrite <- (io_addrs _ Hids j k _ _ Hj' Hk Ha) in Hk. done.
  - exfalso. apply list_find_None in Hf. rewrite list.Forall_forall in Hf. apply (Hf mk); [by eapply list_elem_of_lookup_2|].
    by rewrite <- Hk'.
Qed.

Lemma form_safe_update s a i g me me' ls' g' sp :
  form_safe s → gors s !! a = Some (i, g) → mems s !! i = Some me →
  ident me' = ident me → mem_safe me' → (∀ id, is_Some (mkeys me !! id) → is_Some (mkeys me' !! id)) →
  Forall link_safe ls' → (∀ l j, leads (links s) l j → leads ls' l j) →
  (let ms' := <[i := me']> (mems s) in
   gor_safe ms' ls' i g' ∧ ∀ j h, (j, h) ∈ sp → gor_safe ms' ls' j h) →
  form_safe (mkSystem (<[i := me']> (mems s)) ls' (<[a := (i, g')]> (gors s) ++ sp)).
Proof.
  intros [Hi Hm Hl Hg] Ha Hme Hid Hms Hk Hls Hlead [Hg' Hsp]. split; cbn.
  - rewrite list_fmap_insert, Hid, list_insert_id; [done|]. by rewrite list_lookup_fmap, Hme.
  - by apply Forall_insert.
  - done.
  - intros b j h [Hb|[_ Hb]]%lookup_app_Some; [|by eapply Hsp, list_elem_of_lookup_2].
    apply list_lookup_insert_Some in Hb as [(<- & [= <- <-] & _)|[Hne Hb]]; [done|].
    eapply gor_safe_grows; [|by eapply Hg]. split; [|done]. intros k id. by eapply knows_insert.
Qed.

Lemma close_safe l ls : Forall link_safe ls → Forall link_safe (close_link l ls).
Proof. intros Hf. apply Forall_alter; [done|]. intros x Hx [? ?]. by split. Qed.

Lemma insert_safe l x ls : Forall link_safe ls → link_safe x → Forall link_safe (<[l := x]> ls).
Proof. intros. by apply Forall_insert. Qed.

Lemma mem_ident s i me : form_safe s → mems s !! i = Some me → ids !! i = Some (ident me).
Proof. intros Hs Hm. rewrite <- (fs_ids _ Hs), list_lookup_fmap, Hm. done. Qed.

Lemma set_key_safe p m : mem_safe m → p ∈ ids → mem_safe (set_key p.1.1 p.1.2 m).
Proof.
  intros (Hk & Ho & Hp) Hin. split_and!.
  - intros id pk. cbn. intros [[<- <-]|[_ ?]]%lookup_insert_Some; [by exists p|by apply Hk].
  - by apply set_key_knows.
  - intros id Hid. by apply set_key_knows, Hp.
Qed.

Lemma set_peer_safe id l m : mem_safe m → is_Some (mkeys m !! id) → mem_safe (set_peer id l m).
Proof.
  intros (Hk & Ho & Hp) Hin. split_and!; [done..|]. intros id'. cbn.
  destruct (decide (id' = id)) as [->|?]; [done|]. rewrite lookup_insert_ne by done. apply Hp.
Qed.

Lemma del_peer_safe id m : mem_safe m → mem_safe (del_peer id m).
Proof.
  intros (Hk & Ho & Hp). split_and!; [done..|]. intros id' [y Hy]. cbn in Hy.
  apply lookup_delete_Some in Hy as [_ Hy]. apply Hp. by exists y.
Qed.

Lemma leads_lookup ls l x : ls !! l = Some x → leads ls l (link_to x).
Proof. intros Hx. by exists x. Qed.

Lemma good_from p i : ids !! i = Some p → good_handshake (frame_from p) ∧ FNodeID (frame_from p) ≠ "".
Proof. intros Hp. split; [split; [done|]|]; cbn; [by eapply io_sizes|by eapply io_real]. Qed.

(** What an outcome has to keep. *)
Definition out_safe (ms : list member) (ls : list link) (i : nat) (me : member) (o : outcome) : Prop :=
  let '(me', ls', g', sp) := o in
  ident me' = ident me ∧ mem_safe me' ∧ (∀ id, is_Some (mkeys me !! id) → is_Some (mkeys me' !! id)) ∧
  Forall link_safe ls' ∧ (∀ l j, leads ls l j → leads ls' l j) ∧
  gor_safe (<[i := me']> ms) ls' i g' ∧ ∀ j h, (j, h) ∈ sp → gor_safe (<[i := me']> ms) ls' j h.

(** Outcomes that start nothing. *)
Lemma out_safe_alone ms ls i me me' ls' g' :
  ident me' = ident me → mem_safe me' → (∀ id, is_Some (mkeys me !! id) → is_Some (mkeys me' !! id)) →
  Forall link_safe ls' → (∀ l j, leads ls l j → leads ls' l j) → gor_safe (<[i := me']> ms) ls' i g' →
  out_safe ms ls i me (me', ls', g', []).
Proof. intros. unfold out_safe. split_and!; try done. by intros j h ?%not_elem_of_nil. Qed.

Lemma link_dialer_head ls l x f fs :
  Forall link_safe ls → ls !! l = Some x → to_dialer x = f :: fs →
  (∃ p, ids !! link_to x = Some p ∧ f = frame_from p) ∧ link_safe (mkLink (link_to x) (to_acceptor x) fs (dead x)).
Proof.
  intros Hl Hx Hf. pose proof (Forall_lookup_1 _ _ _ _ Hl Hx) as ((p & Hp & Hd) & Ha). rewrite Hf in Hd.
  apply list.Forall_cons in Hd as [-> Hd]. split; [by exists p|]. split; [by exists p|done].
Qed.

Lemma link_acceptor_head ls l x f fs :
  Forall link_safe ls → ls !! l = Some x → to_acceptor x = f :: fs →
  (∃ p, p ∈ ids ∧ f = frame_from p) ∧ link_safe (mkLink (link_to x) fs (to_dialer x) (dead x)).
Proof.
  intros Hl Hx Hf. pose proof (Forall_lookup_1 _ _ _ _ Hl Hx) as (Hd & Ha). rewrite Hf in Ha.
  apply list.Forall_cons in Ha as [? Ha]. by split.
Qed.

Lemma connect_out_safe faults s i me todo o :
  form_safe s → mems s !! i = Some me → gor_safe (mems s) (links s) i (Connect todo) →
  gor_move faults (mems s) (links s) i me (Connect todo) o → out_safe (mems s) (links s) i me o.
Proof.
  intros Hs Hme [Hin Hc] Hmv. pose proof (fs_links _ Hs) as Hls. pose proof (fs_ids _ Hs) as Hms.
  assert (mem_safe me) as Hmm by (by eapply Forall_lookup_1; [apply Hs|]).
  assert (<[i := me]> (mems s) = mems s) as Hsame by (by apply list_insert_id).
  inversion Hmv as [|p todo' Hsk| |p todo' j Hne Hnp Hj| | | | | | | | | |]; subst.
  - apply out_safe_alone; try done. rewrite Hsame. cbn. intros q Hq. destruct (Hc q Hq) as [Hx|]; [|done].
    by apply not_elem_of_nil in Hx.
  - apply out_safe_alone; try done. rewrite Hsame. split; [intros q Hq; apply Hin; by right|]. intros q Hq.
    destruct (Hc q Hq) as [[->|?]%elem_of_cons|?]; [right|by left|by right].
    exists me. split; [done|]. destruct Hmm as (_ & Hown & Hpk). destruct Hsk as [->|Hsk]; [done|by apply Hpk].
  - apply out_safe_alone; done.
  - assert (p ∈ announced ids) as Hp by (apply Hin; by left).
    destruct (listener_announced (mems s) p Hms Hp) as (j' & q & Hj' & Hq & Hqp).
    assert (j' = j) as -> by congruence.
    assert (leads (links s ++ [mkLink j [handshake_frame me] [] false]) (length (links s)) j) as Hnew.
    { eexists. split; [apply list_lookup_middle; done|done]. }
    unfold out_safe. rewrite Hsame. split_and!; [done..| | | |].
    + apply Forall_app. split; [done|]. apply Forall_singleton. split; [by exists q|]. apply Forall_singleton.
      exists (ident me). split; [|done]. eapply list_elem_of_lookup_2. apply (mem_ident s i me Hs Hme).
    + intros. by apply leads_app.
    + cbn. split_and!; [by exists j, q|intros r Hr; apply Hin; by right|]. intros r Hr.
      destruct (Hc r Hr) as [[->|?]%elem_of_cons|?]; [by left|by right; left|by right; right].
    + intros k h [= -> ->]%list_elem_of_singleton. done.
Qed.

Lemma dialing_out_safe faults s i me peerID l todo o :
  form_safe s → mems s !! i = Some me → gor_safe (mems s) (links s) i (Dialing peerID l todo) →
  gor_move faults (mems s) (links s) i me (Dialing peerID l todo) o → out_safe (mems s) (links s) i me o.
Proof.
  intros Hs Hme (Hlead & Hin & Hc) Hmv. pose proof (fs_links _ Hs) as Hls.
  assert (mem_safe me) as Hmm by (by eapply Forall_lookup_1; [apply Hs|]).
  assert (i < length (mems s))%nat as Hi by (by eapply lookup_lt_Some).
  inversion Hmv as [| | | |? ? ? x Hx Hd|? ? ? x f fs Hx Hd Hbad|? ? ? x f fs Hx Hd Hgd| | | | | | |]; subst.
  - apply out_safe_alone; try done; [by apply close_safe|]. intros. by apply leads_close.
  - destruct (link_dialer_head _ _ _ _ _ Hls Hx Hd) as [_ ?]. apply out_safe_alone; try done.
    + by apply close_safe, insert_safe.
    + intros. by eapply leads_close, leads_insert.
  - destruct (link_dialer_head _ _ _ _ _ Hls Hx Hd) as [(p & Hp & ->) ?].
    destruct Hlead as (j & q & (x' & Hx' & Hj) & Hq & Hqp). assert (x' = x) as -> by congruence.
    assert (q = p) as -> by congruence. subst peerID.
    assert (∀ id, is_Some (mkeys me !! id) → is_Some (mkeys (set_peer p.1.1 l (set_key p.1.1 p.1.2 me)) !! id)) as Hgrow.
    { intros id Hid. by apply set_key_knows. }
    assert (is_Some (mkeys (set_key p.1.1 p.1.2 me) !! p.1.1)) as Hnow by (cbn; rewrite lookup_insert_eq; eauto).
    unfold out_safe. split_and!; [done| |done|by apply insert_safe|by intros; eapply leads_insert| |].
    + apply set_peer_safe; [|done]. apply set_key_safe; [done|by eapply list_elem_of_lookup_2].
    + split; [done|]. intros r Hr. destruct (Hc r Hr) as [->|[?|Hk]]; [right|by left|right].
      * by apply knows_here.
      * by eapply knows_insert.
    + by intros k h [= -> ->]%list_elem_of_singleton.
Qed.

Lemma accept_out_safe faults s i me g o :
  form_safe s → mems s !! i = Some me → gor_safe (mems s) (links s) i g →
  match g with Connect _ | Dialing _ _ _ => False | _ => True end →
  gor_move faults (mems s) (links s) i me g o → out_safe (mems s) (links s) i me o.
Proof.
  intros Hs Hme Hg Hkind Hmv. pose proof (fs_links _ Hs) as Hls.
  assert (mem_safe me) as Hmm by (by eapply Forall_lookup_1; [apply Hs|]).
  assert (i < length (mems s))%nat as Hi by (by eapply lookup_lt_Some).
  assert (<[i := me]> (mems s) = mems s) as Hsame by (by apply list_insert_id).
  inversion Hmv as [| | | | | | |l x Hx Hd|l x f fs Hx Hd Hbad|l x f fs Hx Hd Hgd Hnm|l peerID x Hx Hd|l peerID x Hx Hd
    |l peerID|peerID l x Hx Hd]; subst; try done.
  - apply out_safe_alone; try done; [by apply close_safe|]. intros. by apply leads_close.
  - destruct (link_acceptor_head _ _ _ _ _ Hls Hx Hd) as [_ ?]. apply out_safe_alone; try done.
    + by apply close_safe, insert_safe.
    + intros. by eapply leads_close, leads_insert.
  - destruct (link_acceptor_head _ _ _ _ _ Hls Hx Hd) as [(p & Hp & ->) ?]. apply out_safe_alone; try done.
    + by apply set_key_safe.
    + intros. by apply set_key_knows.
    + by apply insert_safe.
    + intros. by eapply leads_insert.
    + split; [by eapply leads_insert|]. apply knows_here; [done|]. cbn. rewrite lookup_insert_eq. eauto.
  - apply out_safe_alone; try done; [by apply close_safe|]. intros. by apply leads_close.
  - destruct Hg as [Hlead Hk]. apply out_safe_alone; try done; [|by intros; eapply leads_insert|by cbn; rewrite Hsame].
    destruct (Forall_lookup_1 _ _ _ _ Hls Hx) as ((p & Hp & Hfd) & Hfa). apply insert_safe; [done|].
    split; [|done]. exists p. split; [done|]. apply Forall_app. split; [done|]. apply Forall_singleton.
    destruct Hlead as (x' & Hx' & Hj). assert (x' = x) as -> by congruence.
    pose proof (mem_ident s i me Hs Hme) as Hid. cbn in Hp. rewrite Hj, Hid in Hp. by injection Hp as <-.
  - apply out_safe_alone; try done. destruct Hg as (m & Hm & Hk). apply set_peer_safe; [done|]. congruence.
  - apply out_safe_alone; try done. by apply del_peer_safe.
Qed.

Lemma form_safe_step faults s s' : form_safe s → form_step faults s s' → form_safe s'.
Proof.
  intros Hs Hstep. destruct Hstep as [s a i g me me' ls' g' sp Ha Hme Ho|s l _].
  - apply gor_outcomes_move in Ho. pose proof (fs_gors _ Hs _ _ _ Ha) as Hgs.
    assert (out_safe (mems s) (links s) i me (me', ls', g', sp)) as (? & ? & ? & ? & ? & ? & ?).
    { destruct g; [by eapply connect_out_safe|by eapply dialing_out_safe|by eapply accept_out_safe..]. }
    by eapply form_safe_update.
  - destruct Hs as [Hi Hm Hl Hg]. split; cbn; [done..|by apply close_safe|]. intros a i g Ha.
    eapply gor_safe_grows; [|by eapply Hg]. split; [done|]. intros. by apply leads_close.
Qed.

(** ** Progress when nothing fails *)

(** [D] and [A] name the goroutines at the two ends of a connection. *)
Definition link_live (D A : nat → nat) (ls : list link) (gs : list (nat * gor)) (a : nat) (g : gor) : Prop :=
  match g with
  | Dialing peerID l todo =>
      a = D l ∧ ∃ x, ls !! l = Some x ∧
        (to_dialer x ≠ [] ∨ ∃ j, gs !! A l = Some (j, Incoming l) ∨ ∃ peerID', gs !! A l = Some (j, Replying l peerID'))
  | Incoming l => a = A l ∧ ∃ x, ls !! l = Some x ∧ to_acceptor x ≠ []
  | Replying l _ => a = A l ∧ is_Some (ls !! l)
  | Gone => False
  | _ => True
  end.

(** Peers that node [m] has no connection to and that are not in [todo]. *)
Definition reaches (m : member) (todo : list PeerInfo) (also : string → Prop) : Prop :=
  ∀ p, p ∈ announced ids → p ∈ todo ∨ PeerInfo_ID p = mid m ∨ also (PeerInfo_ID p) ∨ is_Some (mpeers m !! PeerInfo_ID p).

Definition mem_live (ms : list member) (i : nat) (g : gor) : Prop :=
  ∃ m, ms !! i = Some m ∧
  match g with
  | Connect todo => reaches m todo (λ _, False)
  | Dialing peerID l todo => reaches m todo (λ id, id = peerID)
  | Connected r => r = Ok tt ∧ reaches m [] (λ _, False)
  | _ => True
  end.

Record form_live (D A : nat → nat) (s : system) : Prop := {
  fl_alive : Forall (λ x, dead x = false) (links s);
  fl_links : ∀ a i g, gors s !! a = Some (i, g) → link_live D A (links s) (gors s) a g;
  fl_mems : ∀ a i g, gors s !! a = Some (i, g) → mem_live (mems s) i g;
}.

Lemma reaches_grows m m' todo also :
  mid m' = mid m → (∀ id, is_Some (mpeers m !! id) → is_Some (mpeers m' !! id)) → reaches m todo also → reaches m' todo also.
Proof. intros Hid Hp Hr p Hin. rewrite Hid. destruct (Hr p Hin) as [?|[?|[?|?]]]; eauto. Qed.

Lemma mem_live_grows ms i me me' j g :
  ms !! i = Some me → mid me' = mid me → (∀ id, is_Some (mpeers me !! id) → is_Some (mpeers me' !! id)) →
  mem_live ms j g → mem_live (<[i := me']> ms) j g.
Proof.
  intros Hme Hid Hp (m & Hm & Hg). destruct (decide (j = i)) as [->|Hne].
  - assert (m = me) as -> by congruence. exists me'. split; [apply list_lookup_insert_eq; by eapply lookup_lt_Some|].
    destruct g; try done; [by eapply reaches_grows..|]. destruct Hg as [? ?]. split; [done|by eapply reaches_grows].
  - exists m. by rewrite list_lookup_insert_ne.
Qed.

(** A step of goroutine [a] keeps the others going when it leaves the links
    they wait for in order. *)
Lemma form_live_update D A D' A' s a i g me me' ls' g' sp :
  form_live D A s → gors s !! a = Some (i, g) → mems s !! i = Some me →
  mid me' = mid me → (∀ id, is_Some (mpeers me !! id) → is_Some (mpeers me' !! id)) →
  Forall (λ x, dead x = false) ls' →
  (let gs' := <[a := (i, g')]> (gors s) ++ sp in
   (∀ b j h, b ≠ a → gors s !! b = Some (j, h) → link_live D A (links s) (gors s) b h → link_live D' A' ls' gs' b h) ∧
   link_live D' A' ls' gs' a g' ∧ mem_live (<[i := me']> (mems s)) i g' ∧
   (∀ n j h, sp !! n = Some (j, h) → link_live D' A' ls' gs' (length (gors s) + n) h ∧ mem_live (<[i := me']> (mems s)) j h)) →
  form_live D' A' (mkSystem (<[i := me']> (mems s)) ls' (<[a := (i, g')]> (gors s) ++ sp)).
Proof.
  intros [Hal Hl Hm] Ha Hme Hid Hp Hls (Hother & Hself & Hmself & Hsp). split; cbn; [done| |].
  - intros b j h [Hb|[Hlen Hb]]%lookup_app_Some.
    + apply list_lookup_insert_Some in Hb as [(<- & [= <- <-] & _)|[Hne Hb]]; [done|]. eapply Hother; [by symmetry|done|by eapply Hl].
    + rewrite length_insert in *. destruct (Hsp _ _ _ Hb) as [Hx _].
      by replace (length (gors s) + (b - length (gors s)))%nat with b in Hx by lia.
  - intros b j h [Hb|[_ Hb]]%lookup_app_Some; [|by eapply Hsp].
    apply list_lookup_insert_Some in Hb as [(<- & [= <- <-] & _)|[Hne Hb]]; [done|].
    by eapply mem_live_grows; [..|eapply Hm].
Qed.

Lemma link_live_other D A D' A' ls ls' gs a i g g' sp b h :
  gs !! a = Some (i, g) → b ≠ a →
  (∀ l, (l < length ls)%nat → D' l = D l ∧ A' l = A l) →
  (∀ l x, ls !! l = Some x → ∃ x', ls' !! l = Some x' ∧
     (to_acceptor x ≠ [] → to_acceptor x' ≠ [] ∨ a = A l) ∧ (to_dialer x ≠ [] → to_dialer x' ≠ [] ∨ a = D l)) →
  (∀ l peerID, g = Incoming l ∨ g = Replying l peerID →
     (∃ peerID', g' = Replying l peerID') ∨ ∃ x', ls' !! l = Some x' ∧ to_dialer x' ≠ []) →
  link_live D A ls gs b h → link_live D' A' ls' (<[a := (i, g')]> gs ++ sp) b h.
Proof.
  intros Ha Hba Hghost Hlinks Hacc. destruct h as [|peerID l todo| |l|l peerID| | |]; cbn; try done.
  - intros [Hb (x & Hx & Hw)]. destruct (Hghost l) as [-> ->]; [by eapply lookup_lt_Some|]. split; [done|].
    destruct (Hlinks l x Hx) as (x' & Hx' & _ & Hdl). exists x'. split; [done|].
    destruct Hw as [Hne|(j & Hj)]; [left; destruct (Hdl Hne); [done|congruence]|].
    destruct (decide (A l = a)) as [He|Hne].
    + assert (i = j ∧ ∃ peerID', g = Incoming l ∨ g = Replying l peerID') as (-> & peerID' & Hg).
      { rewrite He, Ha in Hj. destruct Hj as [[= <- ->]|[q [= <- ->]]]; split; [done|exists ""; by left|done|exists q; by right]. }
      destruct (Hacc l peerID' Hg) as [[q ->]|(y & Hy & Hyne)]; [right|left; congruence].
      exists j. right. exists q. rewrite He. rewrite lookup_app_l; [apply list_lookup_insert_eq; by eapply lookup_lt_Some|].
      rewrite length_insert. by eapply lookup_lt_Some.
    + right. exists j. rewrite lookup_app_l; [rewrite list_lookup_insert_ne by done; done|].
      rewrite length_insert. destruct Hj as [Hj|[q Hj]]; by eapply lookup_lt_Some.
  - intros [Hb (x & Hx & Hw)]. destruct (Hghost l) as [_ ->]; [by eapply lookup_lt_Some|]. split; [done|].
    destruct (Hlinks l x Hx) as (x' & Hx' & Hac & _). exists x'. split; [done|].
    destruct (Hac Hw); [done|congruence].
  - intros [Hb [x Hx]]. destruct (Hghost l) as [_ ->]; [by eapply lookup_lt_Some|]. split; [done|].
    destruct (Hlinks l x Hx) as (x' & -> & _). eauto.
Qed.

(** Steps that leave the connections alone. *)
Lemma link_live_local D A ls gs a i g g' sp b h :
  gs !! a = Some (i, g) → b ≠ a → match g with Incoming _ | Replying _ _ => False | _ => True end →
  link_live D A ls gs b h → link_live D A ls (<[a := (i, g')]> gs ++ sp) b h.
Proof.
  intros Ha Hb Hg. eapply link_live_other; [done..| |].
  - intros l x Hx. exists x. split_and!; auto.
  - intros l q [->| ->]; done.
Qed.

Lemma connect_step_live s a i me todo me' ls' g' sp :
  form_safe s → gors s !! a = Some (i, Connect todo) → mems s !! i = Some me →
  gor_move false (mems s) (links s) i me (Connect todo) (me', ls', g', sp) →
  (∃ D A, form_live D A s) →
  ∃ D A, form_live D A (mkSystem (<[i := me']> (mems s)) ls' (<[a := (i, g')]> (gors s) ++ sp)).
Proof.
  intros Hs Ha Hme Hmv (D & A & Hlive).
  pose proof (fl_alive _ _ _ Hlive) as Hal. destruct (fs_gors _ Hs _ _ _ Ha) as [Hin _].
  destruct (fl_mems _ _ _ Hlive _ _ _ Ha) as (m & Hm & Hr). assert (m = me) as -> by congruence.
  assert (<[i := me]> (mems s) = mems s) as Hsame by (by apply list_insert_id).
  inversion Hmv as [|p todo' Hsk|p todo' Hf|p todo' j Hne Hnp Hj| | | | | | | | | |]; subst.
  - exists D, A. eapply form_live_update; try done. cbn zeta. rewrite Hsame. split_and!; [|done|by exists me'|done].
    intros. by eapply link_live_local.
  - exists D, A. eapply form_live_update; try done. cbn zeta. rewrite Hsame. split_and!; [|done| |done].
    + intros. by eapply link_live_local.
    + exists me'. split; [done|]. intros q Hq. destruct (Hr q Hq) as [[->|?]%elem_of_cons|?]; [right|by left|by right].
      destruct Hsk; eauto.
  - exfalso. destruct Hf as [?|Hf]; [done|].
    destruct (listener_announced (mems s) p (fs_ids _ Hs) (Hin p ltac:(by left))) as (? & ? & ? & _). congruence.
  - exists (λ l, if decide (l = length (links s)) then a else D l),
      (λ l, if decide (l = length (links s)) then length (gors s) else A l).
    assert ((links s ++ [mkLink j [handshake_frame me'] [] false]) !! length (links s)
      = Some (mkLink j [handshake_frame me'] [] false)) as Hnew by (by apply list_lookup_middle).
    eapply form_live_update; try done; [by apply Forall_app; split; [|apply Forall_singleton]|]. cbn zeta. rewrite Hsame.
    split_and!.
    + intros b k h Hb _. eapply link_live_other; [done..| | |].
      * intros l Hl. by rewrite !decide_False by lia.
      * intros l x Hx. exists x. split_and!; auto. by apply lookup_app_l_Some.
      * by intros l q [?|?].
    + cbn. rewrite decide_True by done. split; [done|]. eexists. split; [done|]. right. exists j. left.
      rewrite decide_True by done. rewrite <- (length_insert (gors s) a (i, Dialing (PeerInfo_ID p) (length (links s)) todo')).
      by apply list_lookup_middle.
    + exists me'. split; [done|]. intros q Hq. destruct (Hr q Hq) as [[->|?]%elem_of_cons|[?|[?|?]]]; [auto|auto|auto|done|auto].
    + intros [|n] k h Hn; [|done]. injection Hn as <- <-. cbn. rewrite decide_True, Nat.add_0_r by done. split.
      * split; [done|]. by eexists.
      * assert (is_Some (mems s !! j)) as [y Hy]; [|by exists y].
        unfold listener in Hj. destruct (list_find _ _) as [[? y]|] eqn:Hf; [|done]. injection Hj as ->.
        apply list_find_Some in Hf as [? _]. by exists y.
Qed.

Lemma not_dead ls l x : Forall (λ x, dead x = false) ls → ls !! l = Some x → dead x = true → False.
Proof. intros Hal Hx Hd. pose proof (Forall_lookup_1 _ _ _ _ Hal Hx) as He. cbn in He. congruence. Qed.

(** Only one link has changed. *)
Lemma link_insert_keeps (D A : nat → nat) (ls : list link) l x x' (a : nat) l' y :
  ls !! l = Some x →
  (to_acceptor x ≠ [] → to_acceptor x' ≠ [] ∨ a = A l) → (to_dialer x ≠ [] → to_dialer x' ≠ [] ∨ a = D l) →
  ls !! l' = Some y → ∃ y', <[l := x']> ls !! l' = Some y' ∧
    (to_acceptor y ≠ [] → to_acceptor y' ≠ [] ∨ a = A l') ∧ (to_dialer y ≠ [] → to_dialer y' ≠ [] ∨ a = D l').
Proof.
  intros Hx Ha Hd Hy. destruct (decide (l' = l)) as [->|Hne].
  - exists x'. split; [apply list_lookup_insert_eq; by eapply lookup_lt_Some|]. assert (y = x) as -> by congruence. done.
  - exists y. rewrite list_lookup_insert_ne by done. split_and!; auto.
Qed.

Lemma dialing_step_live s a i me peerID l todo me' ls' g' sp :
  form_safe s → gors s !! a = Some (i, Dialing peerID l todo) → mems s !! i = Some me →
  gor_move false (mems s) (links s) i me (Dialing peerID l todo) (me', ls', g', sp) →
  (∃ D A, form_live D A s) →
  ∃ D A, form_live D A (mkSystem (<[i := me']> (mems s)) ls' (<[a := (i, g')]> (gors s) ++ sp)).
Proof.
  intros Hs Ha Hme Hmv (D & A & Hlive). pose proof (fl_alive _ _ _ Hlive) as Hal.
  destruct (fl_links _ _ _ Hlive _ _ _ Ha) as [HD _].
  destruct (fl_mems _ _ _ Hlive _ _ _ Ha) as (m & Hm & Hr). assert (m = me) as -> by congruence.
  assert (i < length (mems s))%nat as Hi by (by eapply lookup_lt_Some).
  inversion Hmv as [| | | |? ? ? x Hx Hd|? ? ? x f fs Hx Hd Hbad|? ? ? x f fs Hx Hd Hgd| | | | | | |]; subst.
  - exfalso. by eapply not_dead.
  - exfalso. destruct (link_dialer_head _ _ _ _ _ (fs_links _ Hs) Hx Hd) as [(p & Hp & ->) _].
    by apply Hbad, (good_from p _ Hp).
  - exists D, A. eapply form_live_update; try done.
    + intros id Hid. cbn. destruct (decide (id = peerID)) as [->|?]; [rewrite lookup_insert_eq|rewrite lookup_insert_ne by done]; eauto.
    + apply Forall_insert; [done|]. by apply (Forall_lookup_1 _ _ _ _ Hal Hx).
    + cbn zeta. split_and!.
      * intros b j h Hb _. eapply link_live_other; [done..| |by intros ? ? [?|?]].
        intros l' y Hy. eapply (link_insert_keeps D A); [done|cbn; auto|auto|done].
      * done.
      * eexists. split; [by apply list_lookup_insert_eq|]. intros q Hq.
        destruct (Hr q Hq) as [?|[?|[->|?]]]; [auto|auto| |]; right; right; right; cbn.
        -- rewrite lookup_insert_eq. eauto.
        -- destruct (decide (PeerInfo_ID q = peerID)) as [->|?]; [rewrite lookup_insert_eq|rewrite lookup_insert_ne by done]; eauto.
      * intros [|n] k h Hn; [|done]. injection Hn as <- <-. split; [done|].
        eexists. split; [by apply list_lookup_insert_eq|done].
Qed.

Lemma accept_step_live s a i me g me' ls' g' sp :
  form_safe s → gors s !! a = Some (i, g) → mems s !! i = Some me →
  match g with Connect _ | Dialing _ _ _ => False | _ => True end →
  gor_move false (mems s) (links s) i me g (me', ls', g', sp) →
  (∃ D A, form_live D A s) →
  ∃ D A, form_live D A (mkSystem (<[i := me']> (mems s)) ls' (<[a := (i, g')]> (gors s) ++ sp)).
Proof.
  intros Hs Ha Hme Hkind Hmv (D & A & Hlive). exists D, A. pose proof (fl_alive _ _ _ Hlive) as Hal.
  pose proof (fl_links _ _ _ Hlive _ _ _ Ha) as Hg.
  assert (i < length (mems s))%nat as Hi by (by eapply lookup_lt_Some).
  inversion Hmv as [| | | | | | |l x Hx Hd|l x f fs Hx Hd Hbad|l x f fs Hx Hd Hgd Hnm|l peerID x Hx Hd|l peerID x Hx Hd
    |l peerID|peerID l x Hx Hd]; subst; try done; try (exfalso; by eapply not_dead).
  - exfalso. destruct (link_acceptor_head _ _ _ _ _ (fs_links _ Hs) Hx Hd) as [(p & Hp & ->) _].
    apply list_elem_of_lookup in Hp as [k Hk]. by apply Hbad, (good_from p _ Hk).
  - destruct Hg as [HA _]. eapply form_live_update; try done.
    + apply Forall_insert; [done|]. by apply (Forall_lookup_1 _ _ _ _ Hal Hx).
    + cbn zeta. split_and!; [| | |done].
      * intros b j h Hb _. eapply link_live_other; [done..| |].
        -- intros l' y Hy. eapply (link_insert_keeps D A); [done|auto|cbn; auto|done].
        -- intros l' q [[= <-]|?]; [|done]. left. by eexists.
      * split; [done|]. rewrite list_lookup_insert_eq; [eauto|]. by eapply lookup_lt_Some.
      * eexists. split; [by apply list_lookup_insert_eq|done].
  - destruct Hg as [HA _]. eapply form_live_update; try done.
    + by apply Forall_insert.
    + cbn zeta. split_and!; [|done| |done].
      * intros b j h Hb _. eapply link_live_other; [done..| |].
        -- intros l' y Hy. eapply (link_insert_keeps D A); [done|cbn; auto| |done].
           cbn. intros _. left. intros Hc. by apply app_nil in Hc as [_ ?].
        -- intros l' q [?|[= <- _]]; [done|]. right. eexists.
           split; [apply list_lookup_insert_eq; by eapply lookup_lt_Some|]. cbn. intros Hc. by apply app_nil in Hc as [_ ?].
      * eexists. split; [by apply list_lookup_insert_eq|done].
  - eapply form_live_update; try done.
    + intros id Hid. cbn. destruct (decide (id = peerID)) as [->|?]; [rewrite lookup_insert_eq|rewrite lookup_insert_ne by done]; eauto.
    + cbn zeta. split_and!; [|done| |done].
      * intros. by eapply link_live_local.
      * eexists. split; [by apply list_lookup_insert_eq|done].
Qed.

Lemma form_live_step s s' :
  form_safe s → (∃ D A, form_live D A s) → form_step false s s' → ∃ D A, form_live D A s'.
Proof.
  intros Hs Hlive Hstep. destruct Hstep as [s a i g me me' ls' g' sp Ha Hme Ho|]; [|done].
  apply gor_outcomes_move in Ho.
  destruct g; [by eapply connect_step_live|by eapply dialing_step_live|by eapply accept_step_live..].
Qed.

(** Goroutine [i] is the call of node [i]. *)
Definition is_call (g : gor) : Prop := match g with Connect _ | Dialing _ _ _ | Connected _ => True | _ => False end.
Definition callers (s : system) : Prop := ∀ i, (i < length ids)%nat → ∃ g, gors s !! i = Some (i, g) ∧ is_call g.

Lemma callers_step faults s s' : callers s → form_step faults s s' → callers s'.
Proof.
  intros Hc Hstep i Hi. destruct (Hc i Hi) as (h & Hh & Hcall).
  destruct Hstep as [s a j g me me' ls' g' sp Ha Hme Ho|s l _]; cbn; [|by exists h].
  destruct (decide (a = i)) as [->|Hne].
  - assert (j = i ∧ g = h) as [-> ->] by (rewrite Ha in Hh; by injection Hh). exists g'.
    rewrite lookup_app_l by (rewrite length_insert; by eapply lookup_lt_Some).
    rewrite list_lookup_insert_eq by (by eapply lookup_lt_Some). split; [done|].
    apply gor_outcomes_move in Ho. by inversion Ho; subst.
  - exists h. rewrite lookup_app_l by (rewrite length_insert; by eapply lookup_lt_Some). by rewrite list_lookup_insert_ne.
Qed.

(** How much a goroutine has left to do. *)
Definition weight (g : gor) : nat :=
  match g with
  | Connect todo => 5 * length todo + 1
  | Dialing _ _ todo => 5 * length todo + 2
  | Incoming _ => 3
  | Replying _ _ => 2
  | Registering _ _ => 1
  | _ => 0
  end.

Definition total (gs : list (nat * gor)) : nat := sum_list ((weight ∘ snd) <$> gs).

Lemma total_app gs gs' : total (gs ++ gs') = (total gs + total gs')%nat.
Proof. unfold total. by rewrite fmap_app, sum_list_with_app. Qed.

Lemma total_insert gs a p q : gs !! a = Some p → (total (<[a := q]> gs) + weight p.2 = total gs + weight q.2)%nat.
Proof. apply (sum_list_insert (weight ∘ snd)). Qed.

Lemma form_step_total s s' :
  (∃ D A, form_live D A s) → form_step false s s' → (total (gors s') < total (gors s))%nat.
Proof.
  intros (D & A & Hlive) Hstep. destruct Hstep as [s a i g me me' ls' g' sp Ha Hme Ho|]; [|done].
  apply gor_outcomes_move in Ho. cbn [gors]. rewrite total_app. pose proof (total_insert (gors s) a _ (i, g') Ha) as Ht. cbn in Ht.
  enough (weight g' + total sp < weight g)%nat by lia.
  inversion Ho; subst; unfold total; cbn; try lia.
  exfalso. eapply not_dead; [apply Hlive|done..].
Qed.

Lemma outcome_step s a i g me o :
  gors s !! a = Some (i, g) → mems s !! i = Some me → gor_outcomes false (mems s) (links s) i me g !! 0%nat = Some o →
  ∃ s', form_step false s s'.
Proof.
  intros Ha Hme Ho. destruct o as [[[me' ls'] g'] sp]. eexists. eapply form_gor; [done..|]. by eapply list_elem_of_lookup_2.
Qed.

Lemma form_progress s :
  form_safe s → (∃ D A, form_live D A s) → (total (gors s) ≠ 0)%nat → ∃ s', form_step false s s'.
Proof.
  intros Hs (D & A & Hlive) Ht.
  assert (∃ a i g, gors s !! a = Some (i, g) ∧ weight g ≠ 0%nat) as (a & i & g & Ha & Hw).
  { destruct (decide (Forall (λ p, weight p.2 = 0%nat) (gors s))) as [Hf|Hf].
    - exfalso. apply Ht. unfold total. clear -Hf. induction Hf as [|p gs Hp _ IH]; [done|]. cbn. lia.
    - apply not_Forall_Exists in Hf; [|apply _]. apply list.Exists_exists in Hf as ([i g] & Hin & Hw).
      apply list_elem_of_lookup in Hin as [a Ha]. by exists a, i, g. }
  destruct (fl_mems _ _ _ Hlive _ _ _ Ha) as (me & Hme & _). pose proof (fl_links _ _ _ Hlive _ _ _ Ha) as Hl.
  assert (∀ b j l x, gors s !! b = Some (j, Incoming l) → links s !! l = Some x → to_acceptor x ≠ [] →
    ∃ s', form_step false s s') as Hinc.
  { intros b j l x Hb Hx Hne. destruct (fl_mems _ _ _ Hlive _ _ _ Hb) as (m & Hm & _).
    destruct (to_acceptor x) as [|f fs] eqn:Hf; [done|]. eapply outcome_step; [done..|]. cbn. rewrite Hx. cbn. by rewrite Hf. }
  assert (∀ b j l peerID, gors s !! b = Some (j, Replying l peerID) → is_Some (links s !! l) →
    ∃ s', form_step false s s') as Hrep.
  { intros b j l q Hb [x Hx]. destruct (fl_mems _ _ _ Hlive _ _ _ Hb) as (m & Hm & _).
    eapply outcome_step; [done..|]. cbn. by rewrite Hx. }
  destruct g as [[|p todo]|peerID l todo|r|l|l peerID|l peerID|peerID l|]; try done.
  - by eapply outcome_step.
  - destruct (fs_gors _ Hs _ _ _ Ha) as [Hin _].
    destruct (listener_announced (mems s) p (fs_ids _ Hs) (Hin p ltac:(by left))) as (j & q & Hj & _).
    assert (∃ o, gor_outcomes false (mems s) (links s) i me (Connect (p :: todo)) !! 0%nat = Some o) as [o Ho];
      [|by eapply outcome_step].
    cbn. repeat case_decide; [by eexists..|]. rewrite Hj. by eexists.
  - destruct Hl as [_ (x & Hx & Hcase)]. destruct Hcase as [Hne|(j & [Hb|(q & Hb)])].
    + destruct (to_dialer x) as [|f fs] eqn:Hf; [done|]. eapply outcome_step; [done..|]. cbn. rewrite Hx. cbn. by rewrite Hf.
    + destruct (fl_links _ _ _ Hlive _ _ _ Hb) as [_ (y & Hy & Hne)]. by eapply Hinc.
    + destruct (fl_links _ _ _ Hlive _ _ _ Hb) as [_ Hy]. by eapply Hrep.
  - destruct Hl as [_ (x & Hx & Hne)]. by eapply Hinc.
  - destruct Hl as [_ Hx]. by eapply Hrep.
  - by eapply outcome_step.
Qed.

(** ** From the start *)

Section started.
Context (lists : list (list PeerInfo)) (Hlen : length lists = length ids)
  (Hlists : ∀ ps p, ps ∈ lists → p ∈ ps ↔ p ∈ announced ids).

Lemma start_gor a i g : gors (mesh_start ids lists) !! a = Some (i, g) → i = a ∧ ∃ ps, g = Connect ps ∧ ps ∈ lists.
Proof.
  cbn. rewrite list_lookup_imap. destruct (lists !! a) as [ps|] eqn:Hps; [|done]. intros [= <- <-].
  split; [done|]. exists ps. split; [done|by eapply list_elem_of_lookup_2].
Qed.

Lemma start_member i :
  mems (mesh_start ids lists) !! i = (λ p, mkMember p.1.1 p.1.2 p.2 ∅ {[p.1.1 := p.1.2]}) <$> ids !! i.
Proof. cbn. by rewrite list_lookup_fmap. Qed.

Lemma start_safe : form_safe (mesh_start ids lists).
Proof.
  split.
  - cbn. rewrite <- list_fmap_compose. rewrite <- (list_fmap_id ids) at 2. apply list_fmap_ext. by intros i [[? ?] ?].
  - apply list.Forall_forall. intros m (p & -> & Hp)%list_elem_of_fmap. split_and!; cbn.
    + intros id pk. rewrite lookup_singleton_Some. intros [<- <-]. by exists p.
    + rewrite lookup_singleton_eq. eauto.
    + intros id. rewrite lookup_empty. by intros [? ?].
  - constructor.
  - intros a i g Ha. apply start_gor in Ha as (-> & ps & -> & Hps). split; intros p Hp.
    + by apply (Hlists ps).
    + left. by apply (Hlists ps).
Qed.

Lemma start_callers : callers (mesh_start ids lists).
Proof.
  intros i Hi. cbn. rewrite list_lookup_imap. rewrite <- Hlen in Hi. apply lookup_lt_is_Some in Hi as [ps ->].
  by eexists.
Qed.

Lemma start_live : ∃ D A, form_live D A (mesh_start ids lists).
Proof.
  exists (λ _, 0%nat), (λ _, 0%nat). split; [constructor| |]; intros a i g Ha; pose proof Ha as Ha'.
  - by apply start_gor in Ha' as (_ & ps & -> & _).
  - apply start_gor in Ha' as (-> & ps & -> & Hps). unfold mem_live. rewrite start_member.
    assert (a < length ids)%nat as Hlt.
    { rewrite <- Hlen. cbn in Ha. apply lookup_lt_Some in Ha. by rewrite length_imap in Ha. }
    apply lookup_lt_is_Some in Hlt as [p ->]. eexists. split; [done|]. intros q Hq. left. by apply (Hlists ps).
Qed.

Lemma start_total : total (gors (mesh_start ids lists)) = sum_list ((λ ps, 5 * length ps + 1)%nat <$> lists).
Proof.
  unfold total. cbn [gors mesh_start]. f_equal. rewrite fmap_imap.
  exact (imap_const (λ ps : list PeerInfo, 5 * length ps + 1)%nat lists).
Qed.

(** The key of every member in the table of node [i]. *)
Lemma knows_key s i p : form_safe s → p ∈ ids → knows (mems s) i p.1.1 →
  ∃ m, mems s !! i = Some m ∧ mkeys m !! p.1.1 = Some p.1.2.
Proof.
  intros Hs Hp (m & Hm & [pk Hpk]). exists m. split; [done|]. rewrite Hpk. f_equal.
  destruct (Forall_lookup_1 _ _ _ _ (fs_mems _ Hs) Hm) as [Hk _]. destruct (Hk _ _ Hpk) as (q & Hq & Hqp & <-).
  apply list_elem_of_lookup in Hp as [j Hj]. apply list_elem_of_lookup in Hq as [k Hkk].
  rewrite (io_names _ Hids _ _ _ _ Hkk Hj Hqp) in Hkk. congruence.
Qed.

End started.
End forming.
