(* ===== verification/MeshProps.v ===== *)
(** * Forming the peer mesh: theorems

    Among nodes that run this code every key table is right, whatever fails;
    when nothing fails every interleaving of the nodes' [ConnectToPeers] ends
    in the full mesh.  A stranger, on the other hand, can put any key into any
    table. *)

From Stdlib Require Import ZArith Lia.
From stdpp Require Import base list gmap strings numbers relations.
From S2P Require Import Prelude Strconv Ephemeral Deck Peer GameState GameLog GameLogProps Dispatch Remote Client ClientApi.
From S2P Require Import Mesh MeshProofs.

#[local] Open Scope Z_scope.

(** The lists that the nodes got from dispatch: each names all nodes, in any
    order. *)
Definition lists_ok (ids : list (string * list Z * string)) (lists : list (list PeerInfo)) : Prop :=
  length lists = length ids ∧ ∀ ps p, ps ∈ lists → p ∈ ps ↔ p ∈ announced ids.

(** C19: Key tables are right.  However the nodes' [ConnectToPeers] interleave,
    whatever dialling fails and whatever connections break: every key in every
    node's table is the key of the node it is listed for, and when a call has
    returned without an error its node has the key of everybody. *)
Theorem mesh_keys_right ids lists faults s :
  ids_ok ids → lists_ok ids lists → rtc (form_step faults) (mesh_start ids lists) s →
  (∀ i m, mems s !! i = Some m → ids !! i = Some (mid m, mpk m, maddr m) ∧
     ∀ id pk, mkeys m !! id = Some pk → ∃ addr, (id, pk, addr) ∈ ids) ∧
  (∀ a i, gors s !! a = Some (i, Connected (Ok tt)) → ∀ id pk addr, (id, pk, addr) ∈ ids →
     ∃ m, mems s !! i = Some m ∧ mkeys m !! id = Some pk).
Proof.
  intros Hids [Hlen Hlists] Hrun.
  assert (form_safe ids s) as Hs.
  { assert (form_safe ids (mesh_start ids lists)) as H0 by (by apply start_safe).
    induction Hrun as [|s1 s2 s3 Hstep _ IH]; [done|]. apply IH. by eapply form_safe_step. }
  split.
  - intros i m Hm. split; [by apply (mem_ident ids s)|]. intros id pk Hpk.
    destruct (Forall_lookup_1 _ _ _ _ (fs_mems _ _ Hs) Hm) as [Hk _].
    destruct (Hk _ _ Hpk) as ([[? ?] addr] & Hp & [= <-] & [= <-]). by exists addr.
  - intros a i Ha id pk addr Hp. apply (knows_key ids Hids s i (id, pk, addr) Hs Hp).
    pose proof (fs_gors _ _ Hs _ _ _ Ha) as Hg. cbn in Hg.
    apply (Hg (mkPeerInfo id addr)). apply list_elem_of_fmap. by exists (id, pk, addr).
Qed.

(** C18: The mesh forms.  When dialling works and no connection breaks, every
    interleaving of the nodes' [ConnectToPeers] makes at most
    [5 * (entries of the lists) + (nodes)] steps, and one that cannot go on has
    formed the full mesh: every call has returned without an error, and every
    node has the key of everybody and a connection to everybody else. *)
Theorem mesh_forms ids lists k s :
  ids_ok ids → lists_ok ids lists → nsteps (form_step false) k (mesh_start ids lists) s →
  (k ≤ sum_list ((λ ps, 5 * length ps + 1) <$> lists))%nat ∧
  ((∃ s', form_step false s s') ∨
   ∀ i j p q, ids !! i = Some p → ids !! j = Some q →
     gors s !! i = Some (i, Connected (Ok tt)) ∧
     ∃ m, mems s !! i = Some m ∧ mkeys m !! q.1.1 = Some q.1.2 ∧ (i ≠ j → is_Some (mpeers m !! q.1.1))).
Proof.
  intros Hids [Hlen Hlists] Hrun.
  assert (form_safe ids s ∧ (∃ D A, form_live ids D A s) ∧ callers ids s ∧
    (k + total (gors s) ≤ total (gors (mesh_start ids lists)))%nat) as (Hs & Hl & Hc & Ht).
  { assert (form_safe ids (mesh_start ids lists)) as H0 by (by apply start_safe).
    pose proof (start_live ids lists Hlen Hlists) as H1. pose proof (start_callers ids lists Hlen) as H2.
    induction Hrun as [s1|k s1 s2 s3 Hstep _ IH]; [done|].
    pose proof (form_step_total ids s1 s2 H1 Hstep).
    destruct IH as (? & ? & ? & ?); [by eapply form_safe_step|by eapply form_live_step|by eapply callers_step|].
    split_and!; try done. lia. }
  rewrite start_total in Ht. split; [lia|].
  destruct (decide (total (gors s) = 0%nat)) as [Hz|Hz]; [right|left; by eapply form_progress].
  intros i j p q Hi Hj.
  destruct (Hc i) as (g & Hg & Hcall); [by eapply lookup_lt_Some|].
  destruct Hl as (D & A & Hl). destruct (fl_mems _ _ _ _ Hl _ _ _ Hg) as (m & Hm & Hmg).
  pose proof (total_insert (gors s) i (i, g) (i, Gone) Hg) as Hw. cbn in Hw. rewrite Hz in Hw.
  destruct g as [todo|? ? todo|r| | | | |]; cbn in Hw, Hmg; try done; try lia. destruct Hmg as [-> Hr].
  split; [done|].
  assert (q ∈ ids) as Hq by (by eapply list_elem_of_lookup_2).
  assert (mkPeerInfo q.1.1 q.2 ∈ announced ids) as Ha by (apply list_elem_of_fmap; by exists q).
  pose proof (fs_gors _ _ Hs _ _ _ Hg) as Hk. cbn in Hk.
  destruct (knows_key ids Hids s i q Hs Hq (Hk _ Ha)) as (m' & Hm' & Hkey). assert (m' = m) as -> by congruence.
  exists m. split; [done|]. split; [done|]. intros Hne.
  destruct (Hr _ Ha) as [Hx|[Hx|[Hx|Hx]]]; [by apply not_elem_of_nil in Hx| |done|done].
  exfalso. apply Hne. cbn in Hx. pose proof (mem_ident ids s i m Hs Hm) as Him.
  by eapply (io_names _ Hids); [exact Him|exact Hj|].
Qed.

(** ** What the handshake does not check *)

(** Anybody can take over a seat's key.  A stranger dials node [i] and sends a
    handshake that names [victim] and carries the stranger's own key: whatever
    node [i] knew about [victim], from then on it accepts the stranger's
    proposals as those of [victim], for every log and every legal action that
    is due. *)
Theorem handshake_impersonates `{C : SigScheme} `{L : !SigLaws C} faults s a i me l x fs victim sk log seat action e st :
  mems s !! i = Some me → gors s !! a = Some (i, Incoming l) → links s !! l = Some x →
  to_acceptor x = frame_from (victim, ed25519_Public sk, "") :: fs → victim ≠ "" → len sk = PrivateKeySize →
  BuildProposal log seat action sk = Ok e → ExpectedNextPlayer log = Ok seat →
  Log_Replay log = Ok st → ValidateAction st seat action = Ok tt →
  ∃ s' me', form_step faults s s' ∧ mems s' !! i = Some me' ∧
    VerifyProposal log e (default [] (mkeys me' !! victim)) = Ok tt.
Proof.
  intros Hme Ha Hx Hf Hv Hk Hb Hnext Hst Hval.
  exists (mkSystem (<[i := set_key victim (ed25519_Public sk) me]> (mems s))
            (<[l := mkLink (link_to x) fs (to_dialer x) (dead x)]> (links s)) (<[a := (i, Replying l victim)]> (gors s) ++ [])),
    (set_key victim (ed25519_Public sk) me).
  split_and!.
  - eapply form_gor; [done..|]. cbn. rewrite Hx. cbn. rewrite Hf. cbn. apply elem_of_cons. left.
    unfold handle_handshake. rewrite (proj2 (incoming_check _)); [done|]. split; [|done]. split; [done|].
    by apply public_size.
  - cbn. apply list_lookup_insert_eq. by eapply lookup_lt_Some.
  - cbn. rewrite lookup_insert_eq. cbn. apply (honest_proposal_accepted log seat action sk e Hb). split; [done|]. by exists st.
Qed.

(** ** Concrete meshes *)

Definition two_ids : list (string * list Z * string) :=
  [("a", replicate 32 1, "host:1"); ("b", replicate 32 2, "host:2")].
Definition two_lists : list (list PeerInfo) := [announced two_ids; reverse (announced two_ids)].

Lemma two_ids_ok : ids_ok two_ids.
Proof.
  split; intros i.
  - intros j p q Hi Hj. destruct i as [|[|i]], j as [|[|j]]; try done; injection Hi as <-; injection Hj as <-; done.
  - intros j p q Hi Hj. destruct i as [|[|i]], j as [|[|j]]; try done; injection Hi as <-; injection Hj as <-; done.
  - intros p Hi. destruct i as [|[|i]]; try done; injection Hi as <-; done.
  - intros p Hi. destruct i as [|[|i]]; try done; injection Hi as <-; done.
Qed.

Lemma two_lists_ok : lists_ok two_ids two_lists.
Proof.
  split; [done|]. intros ps p Hps. unfold two_lists in Hps. rewrite !elem_of_cons in Hps.
  destruct Hps as [->|[->|Hps]]; [done|apply elem_of_reverse|by apply not_elem_of_nil in Hps].
Qed.

(** Both nodes dial each other at the same time; all goroutines finish. *)
Definition two_schedule : list nat := [0; 0; 1; 1; 2; 2; 0; 0; 3; 3; 1; 1; 3; 2]%nat.
Definition two_mesh (faults : bool) : system :=
  default (mesh_start two_ids two_lists) (form_run faults two_schedule (mesh_start two_ids two_lists)).

Lemma two_mesh_run faults : nsteps (form_step faults) (length two_schedule) (mesh_start two_ids two_lists) (two_mesh faults).
Proof. apply form_run_steps. by destruct faults; vm_compute. Qed.

Lemma mesh_keys_right_witness :
  ∃ m, mems (two_mesh true) !! 0%nat = Some m ∧ mkeys m !! "b" = Some (replicate 32 2).
Proof.
  destruct (mesh_keys_right two_ids two_lists true (two_mesh true) two_ids_ok two_lists_ok) as [_ Hk].
  - eapply rtc_nsteps_2, two_mesh_run.
  - apply (Hk 0%nat 0%nat eq_refl "b" _ "host:2"). right. left.
Defined.

Lemma mesh_forms_witness :
  (length two_schedule ≤ 22)%nat ∧
  ((∃ s', form_step false (two_mesh false) s') ∨ ∃ m, mems (two_mesh false) !! 1%nat = Some m ∧ is_Some (mpeers m !! "a")).
Proof.
  destruct (mesh_forms two_ids two_lists _ _ two_ids_ok two_lists_ok (two_mesh_run false)) as [Hk [Hs|Hm]].
  - split; [exact Hk|]. left. exact Hs.
  - split; [exact Hk|]. right. destruct (Hm 1%nat 0%nat _ _ eq_refl eq_refl) as (_ & m & H1 & _ & H2).
    exists m. split; [exact H1|]. apply H2. discriminate.
Defined.

(** The end of an old connection forgets a live one.  Two nodes that dial each
    other at the same time have two connections; when the one breaks that "a"
    does not use, the deferred deletion of its read loop removes "b" from the
    peers of "a", although the other connection is alive and both ends are
    reading it. *)
Theorem stale_loop_drops_peer :
  ∃ s m m' x, rtc (form_step true) (mesh_start two_ids two_lists) s ∧
    mems (two_mesh true) !! 0%nat = Some m ∧ mpeers m !! "b" = Some 1%nat ∧
    mems s !! 0%nat = Some m' ∧ mpeers m' !! "b" = None ∧
    links s !! 1%nat = Some x ∧ dead x = false ∧
    (0%nat, ReadLoop "b" 1) ∈ gors s ∧ (1%nat, ReadLoop "a" 1) ∈ gors s.
Proof.
  set (broken := mkSystem (mems (two_mesh true)) (close_link 0 (links (two_mesh true))) (gors (two_mesh true))).
  exists (default broken (form_last true 4 broken)). eexists _, _, _. split_and!.
  - etrans; [eapply rtc_nsteps_2, two_mesh_run|].
    eapply rtc_l; [by apply (form_break true _ 0)|]. apply rtc_once. eapply (form_last_step true 4). by vm_compute.
  - by vm_compute.
  - by vm_compute.
  - by vm_compute.
  - by vm_compute.
  - by vm_compute.
  - by vm_compute.
  - apply (list_elem_of_lookup_2 _ 3). by vm_compute.
  - apply (list_elem_of_lookup_2 _ 5). by vm_compute.
Qed.

(** A stranger at the door of node "n". *)
Definition knocking : system :=
  mkSystem [mkMember "n" (replicate 32 3) "host:3" ∅ {["bob" := replicate 32 4]}]
    [mkLink 0 [frame_from ("bob", @ed25519_Public toy_scheme (toy_sk 1), "")] [] false] [(0%nat, Incoming 0)].

Lemma handshake_impersonates_witness :
  ∃ s' me', form_step false knocking s' ∧ mems s' !! 0%nat = Some me' ∧
    @VerifyProposal toy_scheme toy_log1 toy_p1 (default [] (mkeys me' !! "bob")) = Ok tt.
Proof.
  apply (@handshake_impersonates toy_scheme toy_laws false knocking 0 0 _ 0 _ [] "bob" (toy_sk 1) toy_log1 1
    (mkAction ActionCall 0) toy_p1 toy_state1 eq_refl eq_refl eq_refl).
  - reflexivity.
  - discriminate.
  - vm_compute. reflexivity.
  - vm_compute. reflexivity.
  - vm_compute. reflexivity.
  - vm_compute. reflexivity.
  - vm_compute. reflexivity.
Defined.
