(* ===== verification/ChanProofs.v ===== *)
(** * Certified channel programs run to the end

    For a program with a certificate ([Chan]): the invariant that relates the
    channels to the times the goroutines have reached, that every step keeps
    it, and that the goroutine whose next operation has the least time can
    always perform it. *)

From Stdlib Require Import ZArith Lia.
From stdpp Require Import base list gmap relations sorting.
From S2P Require Import Prelude Chan.

#[local] Open Scope nat_scope.

Section certified.
Context {C V S : Type} `{Countable C} (op_of : nat → S → op C V S).
Context (writer reader : C → nat) (history : C → list (@item V)) (traces : list (list (nat * S))).
Context (Hcert : cert op_of writer reader history traces).

#[local] Abbreviation linked_trace := (linked_trace op_of writer reader history).
#[local] Abbreviation linked := (linked op_of writer reader history).

Lemma sorted_lookup {A} (R : relation A) l i j x y :
  StronglySorted R l → l !! i = Some x → l !! j = Some y → i < j → R x y.
Proof.
  intros Hs. revert i j. induction Hs as [|z l _ IH Hf]; intros i j Hi Hj Hij; [done|].
  destruct j as [|j]; [lia|]. destruct i as [|i]; cbn in *; [|eapply IH; [done..|lia]].
  injection Hi as ->. by eapply Forall_lookup_1.
Qed.

(** ** Traces *)

Lemma linked_sorted i l : linked_trace i l → StronglySorted (λ p q, p.1 < q.1) l.
Proof.
  induction 1 as [t s|t s t' s' l Hlt _ Hl IH]; [repeat constructor|]. constructor; [done|].
  constructor; [done|]. inversion IH as [|? ? ? Hf]; subst. eapply Forall_impl; [exact Hf|]. cbn. lia.
Qed.

Lemma linked_suffix i pre p l : linked_trace i (pre ++ p :: l) → linked_trace i (p :: l).
Proof.
  revert p l. induction pre as [|q pre IH]; intros p l Hl; [done|]. apply (IH p l).
  destruct pre; inversion Hl; by subst.
Qed.

(** A time of the trace is before a given position, at it, or after it. *)
Lemma trace_split i pre t s l t0 s0 :
  linked_trace i (pre ++ (t, s) :: l) → (t0, s0) ∈ pre ++ (t, s) :: l →
  t0 < t ∨ (t0 = t ∧ s0 = s) ∨ (t < t0 ∧ (t0, s0) ∈ l).
Proof.
  intros Hl%linked_sorted. rewrite elem_of_app, elem_of_cons.
  apply StronglySorted_app in Hl as (Hpre & _ & Hl). intros [Hin|[[= -> ->]|Hin]].
  - left. apply (Hpre (t0, s0) (t, s) Hin). by left.
  - right. by left.
  - right. right. inversion Hl as [|? ? ? Hf]; subst. rewrite list.Forall_forall in Hf. split; [apply (Hf _ Hin)|done].
Qed.

(** No time of the trace lies between two consecutive ones. *)
Lemma trace_gap i pre t s t' s' l t0 s0 :
  linked_trace i (pre ++ (t, s) :: (t', s') :: l) → (t0, s0) ∈ pre ++ (t, s) :: (t', s') :: l →
  t0 < t' ↔ t0 < t ∨ (t0 = t ∧ s0 = s).
Proof.
  intros Hl Hin. pose proof (linked_suffix _ _ _ _ Hl) as Hs. inversion Hs as [|? ? ? ? ? Hlt]; subst.
  destruct (trace_split _ _ _ _ _ _ _ Hl Hin) as [?|[[-> ->]|[Hgt Hin']]]; [lia|split; [by right|lia]|].
  split; [|lia]. intros Hlt'. exfalso. apply elem_of_cons in Hin' as [[= -> ->]|Hin']; [lia|].
  apply (linked_sorted i) in Hs. inversion Hs as [|? ? Hs' _]; subst. inversion Hs' as [|? ? _ Hf]; subst.
  rewrite list.Forall_forall in Hf. specialize (Hf _ Hin'). cbn in Hf. lia.
Qed.

(** ** The invariant *)

(** What the goroutines still have to go through, and the time of their next
    operation. *)
Definition time (ls : list (list (nat * S))) (i : nat) : nat :=
  match ls !! i with Some ((t, _) :: _) => t | _ => 0 end.

Definition sent (ls : list (list (nat * S))) (c : C) (e : @item V) : Prop := sent_at e < time ls (writer c).
Definition received (ls : list (list (nat * S))) (c : C) (e : @item V) : Prop := recv_at e < time ls (reader c).

Record chan_inv (ls : list (list (nat * S))) (n : cnet C V S) : Prop := {
  ci_suffix : ∀ i l, ls !! i = Some l → ∃ pre t s rest, l = (t, s) :: rest ∧ traces !! i = Some (pre ++ l) ∧
    gstates n !! i = Some s;
  ci_length : length ls = length traces ∧ length (gstates n) = length traces;
  ci_bufs : ∀ c v, bufs n !! c = Some v ↔ ∃ e, e ∈ history c ∧ sent ls c e ∧ ¬ received ls c e ∧ value e = v;
  ci_causal : ∀ c e, e ∈ history c → received ls c e → sent ls c e;
  ci_cap : ∀ c e e', e ∈ history c → e' ∈ history c → recv_at e < sent_at e' → sent ls c e' → received ls c e;
}.

Lemma history_cases c e e' :
  e ∈ history c → e' ∈ history c → e = e' ∨ recv_at e < sent_at e' ∨ recv_at e' < sent_at e.
Proof.
  intros He He'. apply list_elem_of_lookup in He as [i Hi], He' as [j Hj].
  destruct (ct_order _ _ _ _ _ Hcert c) as [_ Hs].
  destruct (Nat.lt_trichotomy i j) as [Hlt|[->|Hlt]]; [right; left|left; congruence|right; right].
  - exact (sorted_lookup _ _ _ _ _ _ Hs Hi Hj Hlt).
  - exact (sorted_lookup _ _ _ _ _ _ Hs Hj Hi Hlt).
Qed.

Lemma item_order c e : e ∈ history c → sent_at e < recv_at e.
Proof. intros He. destruct (ct_order _ _ _ _ _ Hcert c) as [Hf _]. rewrite list.Forall_forall in Hf. by apply Hf. Qed.

(** Items of one channel with the same sending or receiving time are the same. *)
Lemma same_sent c e e' : e ∈ history c → e' ∈ history c → sent_at e = sent_at e' → e = e'.
Proof.
  intros He He' Heq. pose proof (item_order c e He). pose proof (item_order c e' He').
  destruct (history_cases c e e' He He') as [?|[?|?]]; [done|lia|lia].
Qed.

Lemma same_recv c e e' : e ∈ history c → e' ∈ history c → recv_at e = recv_at e' → e = e'.
Proof.
  intros He He' Heq. pose proof (item_order c e He). pose proof (item_order c e' He').
  destruct (history_cases c e e' He He') as [?|[?|?]]; [done|lia|lia].
Qed.

Lemma trace_of i l : traces !! i = Some l → linked_trace i l ∧ complete_trace op_of writer reader history i l.
Proof. apply (ct_trace _ _ _ _ _ Hcert). Qed.

Lemma time_here ls i t s l : ls !! i = Some ((t, s) :: l) → time ls i = t.
Proof. intros Hi. unfold time. by rewrite Hi. Qed.

Lemma time_insert ls i j t s l :
  time (<[i := (t, s) :: l]> ls) j = if decide (j = i ∧ i < length ls) then t else time ls j.
Proof.
  unfold time. destruct (decide (j = i)) as [->|Hne].
  - case_decide as Hd; [by rewrite list_lookup_insert_eq by tauto|].
    by rewrite list_insert_ge by (destruct (decide (i < length ls)); [tauto|lia]).
  - rewrite list_lookup_insert_ne by done. by rewrite decide_False by tauto.
Qed.

(** ** A step *)

(** The goroutine [i] goes from one state of its trace to the next. *)
Section step.
Context (ls : list (list (nat * S))) (i t : nat) (s : S) (t' : nat) (s' : S) (l : list (nat * S))
  (pre' : list (nat * S)).
Context (Hi : ls !! i = Some ((t, s) :: (t', s') :: l)) (Htr : traces !! i = Some (pre' ++ (t, s) :: (t', s') :: l)).

Let ls' := <[i := (t', s') :: l]> ls.

Lemma step_sent c e :
  e ∈ history c →
  sent ls' c e ↔ sent ls c e ∨ (writer c = i ∧ sent_at e = t ∧ ∃ v s1, op_of i s = SendOn c v s1).
Proof.
  intros He. unfold sent, ls'. rewrite time_insert. assert (i < length ls) as Hlen by (by eapply lookup_lt_Some).
  destruct (trace_of _ _ Htr) as [Hl Hc]. case_decide as Hd.
  - destruct Hd as [Hw _]. rewrite Hw, (time_here ls i _ _ _ Hi).
    destruct (proj1 (Hc c e He) Hw) as (s0 & v & s1 & Hin & Ho). rewrite (trace_gap _ _ _ _ _ _ _ _ _ Hl Hin).
    split; [intros [?|[? ->]]; [by left|right; eauto]|]. intros [?|(_ & Heq & _)]; [by left|].
    right. split; [done|]. destruct (trace_split _ _ _ _ _ _ _ Hl Hin) as [?|[[_ ?]|[? _]]]; [lia|done|lia].
  - split; [by left|]. intros [?|(? & _)]; [done|]. destruct Hd. by split.
Qed.

Lemma step_received c e :
  e ∈ history c →
  received ls' c e ↔ received ls c e ∨ (reader c = i ∧ recv_at e = t ∧ ∃ k, op_of i s = RecvOn c k).
Proof.
  intros He. unfold received, ls'. rewrite time_insert. assert (i < length ls) as Hlen by (by eapply lookup_lt_Some).
  destruct (trace_of _ _ Htr) as [Hl Hc]. case_decide as Hd.
  - destruct Hd as [Hw _]. rewrite Hw, (time_here ls i _ _ _ Hi).
    destruct (proj2 (Hc c e He) Hw) as (s0 & k & Hin & Ho). rewrite (trace_gap _ _ _ _ _ _ _ _ _ Hl Hin).
    split; [intros [?|[? ->]]; [by left|right; eauto]|]. intros [?|(_ & Heq & _)]; [by left|].
    right. split; [done|]. destruct (trace_split _ _ _ _ _ _ _ Hl Hin) as [?|[[_ ?]|[? _]]]; [lia|done|lia].
  - split; [by left|]. intros [?|(? & _)]; [done|]. destruct Hd. by split.
Qed.

(** The states and the suffixes after the step. *)
Lemma step_suffix n :
  chan_inv ls n →
  (∀ j l0, ls' !! j = Some l0 → ∃ pre t0 s0 rest, l0 = (t0, s0) :: rest ∧ traces !! j = Some (pre ++ l0) ∧
     <[i := s']> (gstates n) !! j = Some s0) ∧
  length ls' = length traces ∧ length (<[i := s']> (gstates n)) = length traces.
Proof.
  intros [Hsuf [Hl1 Hl2] _ _ _]. assert (i < length ls) as Hlen by (by eapply lookup_lt_Some). split.
  - intros j l0 Hj. unfold ls' in Hj. apply list_lookup_insert_Some in Hj as [(<- & <- & _)|[Hne Hj]].
    + exists (pre' ++ [(t, s)]), t', s', l. split_and!; [done|by rewrite <- app_assoc|]. cbn. apply list_lookup_insert_eq. lia.
    + destruct (Hsuf j l0 Hj) as (pre0 & t0 & s0 & rest & -> & ? & ?). exists pre0, t0, s0, rest. cbn.
      by rewrite list_lookup_insert_ne.
  - unfold ls'. by rewrite !length_insert.
Qed.

Lemma step_local_inv n s1 :
  chan_inv ls n → op_of i s = Local s1 → s1 = s' →
  chan_inv ls' (mkCNet (<[i := s1]> (gstates n)) (bufs n)).
Proof.
  intros Hinv Ho ->. destruct (step_suffix n Hinv) as (Hsuf & Hlen). destruct Hinv as [_ _ Hb Hc Hcap].
  assert (∀ c e, e ∈ history c → sent ls' c e ↔ sent ls c e) as Hs.
  { intros c e He. rewrite step_sent by done. rewrite Ho. naive_solver. }
  assert (∀ c e, e ∈ history c → received ls' c e ↔ received ls c e) as Hr.
  { intros c e He. rewrite step_received by done. rewrite Ho. naive_solver. }
  split; [done|done| | |]; cbn.
  - intros c v. rewrite Hb. split; intros (e & He & Hx); exists e; (split; [done|]); specialize (Hs c e He); specialize (Hr c e He); tauto.
  - intros c e He. rewrite Hs, Hr by done. by apply Hc.
  - intros c e e' He He'. rewrite Hs, Hr by done. by apply Hcap.
Qed.

Lemma step_send_inv n c0 v0 s1 tr :
  chan_inv ls n → op_of i s = SendOn c0 v0 s1 → s1 = s' → writer c0 = i → mkItem t v0 tr ∈ history c0 →
  bufs n !! c0 = None → chan_inv ls' (mkCNet (<[i := s1]> (gstates n)) (<[c0 := v0]> (bufs n))).
Proof.
  intros Hinv Ho -> Hw He0 Hnone. destruct (step_suffix n Hinv) as (Hsuf & Hlen).
  destruct Hinv as [_ _ Hb Hc Hcap].
  assert (∀ c e, e ∈ history c → sent ls' c e ↔ sent ls c e ∨ (c = c0 ∧ e = mkItem t v0 tr)) as Hs.
  { intros c e He. rewrite step_sent by done. rewrite Ho. split.
    - intros [?|(_ & Heq & v & s1 & [= <- <- <-])]; [by left|right]. split; [done|]. by apply (same_sent c0).
    - intros [?|[-> ->]]; [by left|right]. split; [done|]. split; [done|]. by exists v0, s'. }
  assert (∀ c e, e ∈ history c → received ls' c e ↔ received ls c e) as Hr.
  { intros c e He. rewrite step_received by done. rewrite Ho. naive_solver. }
  assert (¬ sent ls c0 (mkItem t v0 tr)) as Hnot by (unfold sent; rewrite Hw, (time_here ls i _ _ _ Hi); cbn; lia).
  assert (∀ e, e ∈ history c0 → sent ls c0 e → received ls c0 e) as Hempty.
  { intros e He Hse. destruct (decide (recv_at e < time ls (reader c0))) as [|Hnr]; [done|]. exfalso.
    assert (bufs n !! c0 = Some (value e)) as Hx by (apply Hb; by exists e). congruence. }
  split; [done|done| | |]; cbn.
  - intros c v. destruct (decide (c = c0)) as [->|Hne].
    + rewrite lookup_insert_eq. split.
      * intros [= ->]. exists (mkItem t v tr). rewrite Hs, Hr by done. split_and!; auto.
      * intros (e & He & Hse & Hre & <-). rewrite Hs in Hse by done. rewrite Hr in Hre by done.
        destruct Hse as [Hse|[_ ->]]; [|done]. by apply Hempty in Hse.
    + rewrite lookup_insert_ne by done. rewrite Hb.
      split; intros (e & He & Hx); exists e; (split; [done|]); specialize (Hs c e He); specialize (Hr c e He); tauto.
  - intros c e He. rewrite Hs, Hr by done. left. by apply Hc.
  - intros c e e' He He'. rewrite Hs, Hr by done. intros Hlt [?|[-> ->]]; [by eapply Hcap|]. apply Hempty; [done|].
    unfold sent. rewrite Hw, (time_here ls i _ _ _ Hi). pose proof (item_order c0 e He). cbn in Hlt. lia.
Qed.

Lemma step_recv_inv n c0 k ts v0 v :
  chan_inv ls n → op_of i s = RecvOn c0 k → reader c0 = i → mkItem ts v0 t ∈ history c0 → k v0 = s' →
  bufs n !! c0 = Some v → chan_inv ls' (mkCNet (<[i := k v]> (gstates n)) (delete c0 (bufs n))).
Proof.
  intros Hinv Ho Hw He0 Hk Hsome. destruct (step_suffix n Hinv) as (Hsuf & Hlen).
  destruct Hinv as [_ _ Hb Hc Hcap].
  assert (¬ received ls c0 (mkItem ts v0 t)) as Hnot by (unfold received; rewrite Hw, (time_here ls i _ _ _ Hi); cbn; lia).
  assert (∀ e, e ∈ history c0 → sent ls c0 e → ¬ received ls c0 e → e = mkItem ts v0 t) as Honly.
  { intros e He Hse Hre. destruct (history_cases c0 e (mkItem ts v0 t) He He0) as [?|[Hlt|Hlt]]; [done|exfalso..].
    - apply Hre. unfold received. rewrite Hw, (time_here ls i _ _ _ Hi). pose proof (item_order c0 _ He0). cbn in *. lia.
    - by apply Hnot, (Hcap c0 (mkItem ts v0 t) e). }
  apply Hb in Hsome as (e & He & Hse & Hre & Hv). pose proof (Honly e He Hse Hre) as ->. cbn in Hv. subst v0. rewrite Hk.
  assert (∀ c e, e ∈ history c → sent ls' c e ↔ sent ls c e) as Hs.
  { intros c e Hec. rewrite step_sent by done. rewrite Ho. naive_solver. }
  assert (∀ c e, e ∈ history c → received ls' c e ↔ received ls c e ∨ (c = c0 ∧ e = mkItem ts v t)) as Hr.
  { intros c e Hec. rewrite step_received by done. rewrite Ho. split.
    - intros [?|(_ & Heq & k' & [= <- <-])]; [by left|right]. split; [done|]. by apply (same_recv c0).
    - intros [?|[-> ->]]; [by left|right]. split; [done|]. split; [done|]. by exists k. }
  split; [done|done| | |]; cbn.
  - intros c w. destruct (decide (c = c0)) as [->|Hne].
    + rewrite lookup_delete_eq. split; [done|]. intros (e & Hec & Hse' & Hre' & _). exfalso.
      rewrite Hs in Hse' by done. rewrite Hr in Hre' by done. apply Hre'. right. split; [done|]. apply Honly; tauto.
    + rewrite lookup_delete_ne by done. rewrite Hb.
      split; intros (e & Hec & Hx); exists e; (split; [done|]); specialize (Hs c e Hec); specialize (Hr c e Hec); tauto.
  - intros c e Hec. rewrite Hs, Hr by done. intros [?|[-> ->]]; [by apply Hc|done].
  - intros c e e' Hec Hec'. rewrite Hs, Hr by done. left. by eapply Hcap.
Qed.

End step.

(** ** Runs *)

Lemma inv_linked ls n i l : chan_inv ls n → ls !! i = Some l → linked_trace i l.
Proof.
  intros Hinv Hi. destruct (ci_suffix _ _ Hinv i l Hi) as (pre & t & s & rest & -> & Htr & _).
  eapply linked_suffix, (trace_of _ _ Htr).
Qed.

(** A state whose operation is not [Stop] has a successor in the trace. *)
Lemma inv_next ls n i s :
  chan_inv ls n → gstates n !! i = Some s → op_of i s ≠ Stop →
  ∃ pre t t' s' l, ls !! i = Some ((t, s) :: (t', s') :: l) ∧ traces !! i = Some (pre ++ (t, s) :: (t', s') :: l) ∧
    linked i t s s'.
Proof.
  intros Hinv Hs Hop. destruct (ci_length _ _ Hinv) as [Hl1 Hl2].
  assert (is_Some (ls !! i)) as [l Hl] by (apply lookup_lt_is_Some; apply lookup_lt_Some in Hs; lia).
  destruct (ci_suffix _ _ Hinv i l Hl) as (pre & t & s0 & rest & -> & Htr & Hs'). assert (s0 = s) as -> by congruence.
  pose proof (inv_linked _ _ _ _ Hinv Hl) as Hlk. inversion Hlk as [|? ? t' s' l' Hlt Hlink _]; subst; [done|].
  by exists pre, t, t', s', l'.
Qed.

(** The number of steps still to be made. *)
Definition left_over (ls : list (list (nat * S))) : nat := sum_list ((λ l, length l - 1) <$> ls).

Lemma left_over_insert ls i t s t' s' l :
  ls !! i = Some ((t, s) :: (t', s') :: l) → Datatypes.S (left_over (<[i := (t', s') :: l]> ls)) = left_over ls.
Proof.
  intros Hi. pose proof (sum_list_insert (λ l, length l - 1) ls i _ ((t', s') :: l) Hi) as Hsum.
  unfold left_over. cbn [length] in Hsum. lia.
Qed.

Lemma inv_step ls n n' :
  chan_inv ls n → chan_step op_of n n' → ∃ ls', chan_inv ls' n' ∧ Datatypes.S (left_over ls') = left_over ls.
Proof.
  intros Hinv Hstep.
  assert (∀ i s, gstates n !! i = Some s → op_of i s ≠ Stop →
    ∃ pre t t' s' l, ls !! i = Some ((t, s) :: (t', s') :: l) ∧ traces !! i = Some (pre ++ (t, s) :: (t', s') :: l) ∧
      linked i t s s') as Hnext by (intros; by eapply inv_next).
  destruct Hstep as [n i s s1 Hs Ho|n i s c v s1 Hs Ho Hb|n i s c k v Hs Ho Hb];
    (destruct (Hnext i s Hs) as (pre & t & t' & s' & l & Hi & Htr & Hlk); [congruence|]);
    exists (<[i := (t', s') :: l]> ls); (split; [|by eapply left_over_insert]); unfold Chan.linked in Hlk; rewrite Ho in Hlk.
  - by eapply step_local_inv.
  - destruct Hlk as (<- & Hw & tr & He). by eapply step_send_inv.
  - destruct Hlk as (Hr & ts & v0 & He & Hk). by eapply step_recv_inv.
Qed.

(** A goroutine whose trace has an operation at or after its time has not
    returned. *)
Lemma inv_pending ls n i l t0 s0 :
  chan_inv ls n → traces !! i = Some l → (t0, s0) ∈ l → op_of i s0 ≠ Stop → time ls i ≤ t0 →
  ∃ s, gstates n !! i = Some s ∧ op_of i s ≠ Stop.
Proof.
  intros Hinv Hl Hin Hop Ht. destruct (ci_length _ _ Hinv) as [Hl1 Hl2].
  assert (is_Some (ls !! i)) as [l' Hl'] by (apply lookup_lt_is_Some; apply lookup_lt_Some in Hl; lia).
  destruct (ci_suffix _ _ Hinv i l' Hl') as (pre & t & s & rest & -> & Htr & Hs). exists s. split; [done|].
  rewrite (time_here ls i _ _ _ Hl') in Ht. assert (l = pre ++ (t, s) :: rest) as -> by congruence.
  destruct (trace_of _ _ Htr) as [Hlk _]. pose proof (linked_suffix _ _ _ _ Hlk) as Hsuf.
  destruct (trace_split _ _ _ _ _ _ _ Hlk Hin) as [?|[[-> ->]|[_ Hin']]]; [lia|done|].
  inversion Hsuf as [|? ? ? ? ? ? Hx]; subst; [by apply not_elem_of_nil in Hin'|].
  intros Hstop. unfold Chan.linked in Hx. by rewrite Hstop in Hx.
Qed.

(** Among the goroutines that have not returned there is one with the least
    time. *)
Lemma least_pending ls (n : cnet C V S) :
  (∃ i s, gstates n !! i = Some s ∧ op_of i s ≠ Stop) →
  ∃ i s, gstates n !! i = Some s ∧ op_of i s ≠ Stop ∧
    ∀ j s', gstates n !! j = Some s' → op_of j s' ≠ Stop → time ls i ≤ time ls j.
Proof.
  assert (∀ b i s, time ls i ≤ b → gstates n !! i = Some s → op_of i s ≠ Stop →
    ∃ i s, gstates n !! i = Some s ∧ op_of i s ≠ Stop ∧
      ∀ j s', gstates n !! j = Some s' → op_of j s' ≠ Stop → time ls i ≤ time ls j) as Hind.
  { induction b as [|b IH]; intros i s Hb Hs Ho.
    - exists i, s. split_and!; [done..|]. intros. lia.
    - set (below := λ j, match gstates n !! j with
        | Some s' => (match op_of j s' with Stop => false | _ => true end) && (time ls j <=? b) | None => false end).
      destruct (decide (Exists (λ j, below j = true) (seq 0 (length (gstates n))))) as [He|He].
      + apply list.Exists_exists in He as (j & _ & Hj). unfold below in Hj. destruct (gstates n !! j) as [s'|] eqn:Hs'; [|done].
        apply andb_true_iff in Hj as [Ho' Hj%Nat.leb_le]. apply (IH j s' Hj Hs'). intros Hstop. by rewrite Hstop in Ho'.
      + exists i, s. split_and!; [done..|]. intros j s' Hs' Ho'. destruct (decide (time ls j ≤ b)) as [Hj|]; [|lia].
        exfalso. apply He, list.Exists_exists. exists j. split.
        * apply elem_of_seq. apply lookup_lt_Some in Hs'. lia.
        * unfold below. rewrite Hs'. apply andb_true_iff. split; [by destruct (op_of j s')|by apply Nat.leb_le]. }
  intros (i & s & Hs & Ho). by eapply (Hind (time ls i)).
Qed.

Lemma inv_progress ls n :
  chan_inv ls n → (∃ i s, gstates n !! i = Some s ∧ op_of i s ≠ Stop) → ∃ n', chan_step op_of n n'.
Proof.
  intros Hinv Hex. destruct (least_pending ls n Hex) as (i & s & Hs & Ho & Hmin).
  destruct (inv_next ls n i s Hinv Hs Ho) as (pre & t & t' & s' & l & Hi & Htr & Hlk).
  pose proof (time_here ls i _ _ _ Hi) as Ht. unfold Chan.linked in Hlk.
  destruct (op_of i s) as [s1|c v s1|c k|] eqn:Hop; [| | |done].
  - eexists. by eapply step_local.
  - destruct Hlk as (_ & Hw & tr & He). destruct (bufs n !! c) as [w|] eqn:Hb; [|eexists; by eapply step_send].
    exfalso. apply (ci_bufs _ _ Hinv) in Hb as (e & Hec & Hse & Hre & _).
    unfold sent in Hse. rewrite Hw, Ht in Hse.
    assert (recv_at e < t) as Hlt.
    { pose proof (item_order c _ Hec). pose proof (item_order c _ He). destruct (history_cases c e _ Hec He) as [->|[?|?]]; cbn in *; lia. }
    destruct (ct_ends _ _ _ _ _ Hcert c e Hec) as (_ & _ & Hrd). apply lookup_lt_is_Some in Hrd as [lr Hlr].
    destruct (proj2 (proj2 (trace_of _ _ Hlr) c e Hec) eq_refl) as (sr & k & Hin & Hor).
    destruct (inv_pending ls n (reader c) lr _ _ Hinv Hlr Hin) as (s2 & Hs2 & Ho2); [congruence|unfold received in Hre; lia|].
    specialize (Hmin _ _ Hs2 Ho2). unfold received in Hre. lia.
  - destruct Hlk as (Hr & ts & v & He & _).
    assert (sent ls c (mkItem ts v t)) as Hse.
    { destruct (decide (ts < time ls (writer c))) as [|Hn]; [done|]. exfalso.
      pose proof (item_order c _ He) as Hlt. cbn in Hlt.
      destruct (ct_ends _ _ _ _ _ Hcert c _ He) as (_ & Hwr & _). apply lookup_lt_is_Some in Hwr as [lw Hlw].
      destruct (proj1 (proj2 (trace_of _ _ Hlw) c _ He) eq_refl) as (sw & v' & s2 & Hin & Hor).
      destruct (inv_pending ls n (writer c) lw _ _ Hinv Hlw Hin) as (s3 & Hs3 & Ho3); [congruence|cbn; lia|].
      specialize (Hmin _ _ Hs3 Ho3). lia. }
    assert (bufs n !! c = Some v) as Hb.
    { apply (ci_bufs _ _ Hinv). exists (mkItem ts v t). split_and!; [done..| |done].
      unfold received. cbn. rewrite Hr, Ht. lia. }
    eexists. by eapply step_recv.
Qed.

Lemma start_inv ss : starts traces ss → chan_inv traces (mkCNet ss ∅).
Proof.
  intros Hss.
  assert (∀ i l t s, traces !! i = Some l → (t, s) ∈ l → time traces i ≤ t) as Hfirst.
  { intros i l t s Hl Hin. destruct (trace_of _ _ Hl) as [Hlk%linked_sorted _]. unfold time. rewrite Hl.
    destruct l as [|[t0 s0] l]; [lia|]. apply elem_of_cons in Hin as [[= -> ->]|Hin]; [lia|].
    inversion Hlk as [|? ? _ Hf]; subst. rewrite list.Forall_forall in Hf. specialize (Hf _ Hin). cbn in Hf. lia. }
  assert (∀ c e, e ∈ history c → ¬ sent traces c e ∧ ¬ received traces c e) as Hnone.
  { intros c e He. destruct (ct_ends _ _ _ _ _ Hcert c e He) as (_ & Hw & Hr).
    apply lookup_lt_is_Some in Hw as [lw Hlw]. apply lookup_lt_is_Some in Hr as [lr Hlr].
    destruct (proj1 (proj2 (trace_of _ _ Hlw) c e He) eq_refl) as (? & ? & ? & Hin & _).
    destruct (proj2 (proj2 (trace_of _ _ Hlr) c e He) eq_refl) as (? & ? & Hin' & _).
    pose proof (Hfirst _ _ _ _ Hlw Hin). pose proof (Hfirst _ _ _ _ Hlr Hin'). unfold sent, received. lia. }
  split; cbn.
  - intros i l Hl. destruct (Forall2_lookup_l _ _ _ _ _ Hss Hl) as (s & Hs & t & rest & ->). by exists [], t, s, rest.
  - split; [done|]. symmetry. by eapply Forall2_length.
  - intros c v. rewrite lookup_empty. split; [done|]. intros (e & He & Hse & _). by destruct (Hnone c e He).
  - intros c e He Hre. by destruct (Hnone c e He).
  - intros c e e' He He' _ Hse. by destruct (Hnone c e' He').
Qed.

(** Every run makes one of a fixed number of steps at a time; it can go on, or
    every goroutine is in the last state of its trace. *)
Lemma cert_runs ss k n :
  starts traces ss → nsteps (chan_step op_of) k (mkCNet ss ∅) n →
  k ≤ left_over traces ∧
  ((∃ n', chan_step op_of n n') ∨
   (k = left_over traces ∧ ∀ i l, traces !! i = Some l → ∃ t s, last l = Some (t, s) ∧ gstates n !! i = Some s)).
Proof.
  intros Hss Hrun.
  assert (∃ ls, chan_inv ls n ∧ k + left_over ls = left_over traces) as (ls & Hinv & Hk).
  { assert (∀ m ls, chan_inv ls m → nsteps (chan_step op_of) k m n → ∃ ls', chan_inv ls' n ∧ k + left_over ls' = left_over ls)
      as Hgen; [|by eapply Hgen; [apply start_inv|]].
    clear Hrun. intros m ls Hm Hr. revert ls Hm. induction Hr as [m|k m1 m2 m3 Hstep _ IH]; intros ls Hm; [by exists ls|].
    destruct (inv_step ls m1 m2 Hm Hstep) as (ls1 & Hm1 & Hl1). destruct (IH ls1 Hm1) as (ls2 & ? & ?).
    exists ls2. split; [done|lia]. }
  split; [lia|].
  destruct (decide (left_over ls = 0)) as [Hz|Hz].
  - right. split; [lia|]. intros i l Hl. destruct (ci_length _ _ Hinv) as [Hlen _].
    assert (is_Some (ls !! i)) as [l' Hl'] by (apply lookup_lt_is_Some; apply lookup_lt_Some in Hl; lia).
    destruct (ci_suffix _ _ Hinv i l' Hl') as (pre & t & s & rest & -> & Htr & Hs).
    pose proof (sum_list_insert (λ l, length l - 1) ls i _ [] Hl') as Hsum. cbn [length] in Hsum. unfold left_over in Hz.
    destruct rest as [|r rest]; [|cbn in Hsum; lia]. assert (l = pre ++ [(t, s)]) as -> by congruence.
    exists t, s. split; [by apply last_snoc|done].
  - left. apply (inv_progress ls); [done|].
    assert (∃ i l, ls !! i = Some l ∧ length l - 1 ≠ 0) as (i & l & Hl & Hne).
    { destruct (decide (Forall (λ l, length l - 1 = 0) ls)) as [Hf|Hf].
      - exfalso. apply Hz. unfold left_over. clear -Hf. induction Hf as [|x ls Hx _ IH]; [done|]. cbn in *. lia.
      - apply not_Forall_Exists in Hf; [|apply _]. apply list.Exists_exists in Hf as (l & Hin & Hw).
        apply list_elem_of_lookup in Hin as [i Hi]. by exists i, l. }
    destruct (ci_suffix _ _ Hinv i l Hl) as (pre & t & s & rest & -> & Htr & Hs). exists i, s. split; [done|].
    pose proof (inv_linked _ _ _ _ Hinv Hl) as Hlk. inversion Hlk as [|? ? ? ? ? ? Hx]; subst; [done|].
    intros Hstop. unfold Chan.linked in Hx. by rewrite Hstop in Hx.
Qed.

End certified.
