(* ===== verification/Sim.v ===== *)
(** * The in-process simulation of shuffling and dealing ([internal/sim/sim.go])

    One goroutine per node, connected by two grids of channels of capacity one:
    the deck is shuffled and encrypted around the ring, the leader broadcasts
    it, and every player sends its two cards around the ring to have the other
    layers removed.  A goroutine is where it is in its code; [sim_op] is what
    it does there ([Chan] says how channels behave).  Printing is left out.

    A deck that goes over a channel is a slice shared by both ends, but the
    sender does not touch it afterwards and [EncryptDeck] makes a new one, so
    decks are values here. *)

From Stdlib Require Import ZArith Lia.
From stdpp Require Import base list gmap strings numbers.
From S2P Require Import Prelude Strconv Deck Peer Chan.

#[local] Open Scope Z_scope.

Record SimConfig := mkSimConfig { NumNodes : Z; Prime : option Z }.

Record DealingRequest := mkRequest {
  OwnerID : nat;
  Index1 : nat;
  Index2 : nat;
  Value1 : bytes;
  Value2 : bytes;
}.

(** The channels of the grids are made by [setupGrids]; they are named here. *)
Record Network := mkNetwork { numNodes : nat; sim_prime : Z }.

Inductive sim_err := ErrNumNodes | ErrNoPrime.

Definition NewNetwork (cfg : SimConfig) : res sim_err Network :=
  if NumNodes cfg <? 2 then Err ErrNumNodes
  else
    match Prime cfg with
    | None => Err ErrNoPrime
    | Some p => if p <=? 0 then Err ErrNoPrime else Ok (mkNetwork (Z.to_nat (NumNodes cfg)) p)
    end.

(** [shuffleGrid[i][j]] and [dealingGrid[i][j]]. *)
Inductive grid := ShuffleGrid | DealingGrid.

#[export] Instance grid_eq_dec : EqDecision grid.
Proof. solve_decision. Defined.
#[export] Instance grid_countable : Countable grid.
Proof.
  refine (inj_countable' (λ g, match g with ShuffleGrid => true | DealingGrid => false end)
                         (λ b : bool, if b then ShuffleGrid else DealingGrid) _). by intros [].
Defined.

Abbreviation chanid := (grid * nat * nat)%type.
Definition shuffleGrid (i j : nat) : chanid := (ShuffleGrid, i, j).
Definition dealingGrid (i j : nat) : chanid := (DealingGrid, i, j).

(** What the channels of the two grids carry. *)
Inductive msg := MDeck (deck : list bytes) | MRequest (r : DealingRequest).

(** Where a goroutine is. *)
Inductive sim_state :=
| SimStart
| LeaderSend (key : Key) (deck : list bytes)
| LeaderWait (key : Key)
| LeaderCast (key : Key) (finalDeck : list bytes) (i : nat)
| FollowerWait (key : Key)
| FollowerSend (key : Key) (deck : list bytes)
| FollowerFinal (key : Key)
| DealSend (key : Key) (r : DealingRequest)
| DealWait (key : Key)
| Received (card1 card2 : string)
| Failed
| Crashed.

(** The deck that [shufflePhaseLeader] builds. *)
Definition sim_deck : list bytes := (λ i : nat, to_bytes (Itoa (Z.of_nat i))) <$> seq 0 52.

Section sim.
Context (net : Network).

(** Node [id]'s random source: the result of its [GenerateKey], and the
    source's position at its [Shuffle]. *)
Context (keys : nat → res deck_err Key) (rands : nat → RandSource) (draws : nat → nat).

(** [deckcrypto.Shuffle] and [EncryptDeck] *)
Definition reencrypt (id : nat) (key : Key) (deck : list bytes) (k : list bytes → sim_state) : sim_state :=
  match @Shuffle (rands id) (draws id) deck with
  | Ok deck => k (EncryptDeck deck key (sim_prime net))
  | Err _ => Failed
  | Panic => Crashed
  end.

(** The end of the shuffle phase: [sample] cards are printed, then
    [dealCards] builds the player's own request. *)
Definition deal_start (id sample : nat) (key : Key) (finalDeck : list bytes) : sim_state :=
  if (length finalDeck <? sample)%nat then Crashed
  else
    match finalDeck !! (2 * id)%nat, finalDeck !! (2 * id + 1)%nat with
    | Some v1, Some v2 => DealSend key (mkRequest id (2 * id) (2 * id + 1) v1 v2)
    | _, _ => Crashed
    end.

(** The body of the loop of [dealCards]. *)
Definition deal_receive (id : nat) (key : Key) (r : DealingRequest) : sim_state :=
  let decryptedCard1 := DecryptCard (Value1 r) key (sim_prime net) in
  let decryptedCard2 := DecryptCard (Value2 r) key (sim_prime net) in
  if (OwnerID r =? id)%nat then Received (of_bytes decryptedCard1) (of_bytes decryptedCard2)
  else DealSend key (mkRequest (OwnerID r) (Index1 r) (Index2 r) decryptedCard1 decryptedCard2).

(** A channel carries values of one type. *)
Definition on_deck (k : list bytes → sim_state) (m : msg) : sim_state :=
  match m with MDeck d => k d | MRequest _ => Crashed end.
Definition on_request (k : DealingRequest → sim_state) (m : msg) : sim_state :=
  match m with MRequest r => k r | MDeck _ => Crashed end.

Definition sim_op (id : nat) (s : sim_state) : op chanid msg sim_state :=
  let n := numNodes net in
  let next := ((id + 1) mod n)%nat in
  match s with
  | SimStart =>
      Local match keys id with
            | Err _ => Failed
            | Panic => Crashed
            | Ok key => if (id =? 0)%nat then reencrypt id key sim_deck (LeaderSend key) else FollowerWait key
            end
  | LeaderSend key deck => SendOn (shuffleGrid 0 1) (MDeck deck) (LeaderWait key)
  | LeaderWait key => RecvOn (shuffleGrid (n - 1) 0) (on_deck (λ d, LeaderCast key d 1))
  | LeaderCast key finalDeck i =>
      if (i <? n)%nat then SendOn (shuffleGrid 0 i) (MDeck finalDeck) (LeaderCast key finalDeck (i + 1))
      else Local (deal_start id 5 key finalDeck)
  | FollowerWait key => RecvOn (shuffleGrid (id - 1) id) (on_deck (λ d, reencrypt id key d (FollowerSend key)))
  | FollowerSend key deck => SendOn (shuffleGrid id next) (MDeck deck) (FollowerFinal key)
  | FollowerFinal key => RecvOn (shuffleGrid 0 id) (on_deck (λ d, deal_start id 2 key d))
  | DealSend key r => SendOn (dealingGrid id next) (MRequest r) (DealWait key)
  | DealWait key => RecvOn (dealingGrid ((n + id - 1) mod n) id) (on_request (deal_receive id key))
  | Received _ _ | Failed | Crashed => Stop
  end.

(** [Run]: the goroutines of all nodes, with empty channels. *)
Definition sim_run : cnet chanid msg sim_state := mkCNet (replicate (numNodes net) SimStart) ∅.

End sim.
