(* ===== verification/SimProofs.v ===== *)
(** * The simulation: its certificate

    The times at which the goroutines of [Sim] perform their operations, the
    decks and requests that go over the channels, and the proof that they form
    a certificate in the sense of [Chan]. *)

From Stdlib Require Import ZArith Lia.
From stdpp Require Import base list gmap strings numbers sorting.
From S2P Require Import Prelude Strconv Deck DeckProofs DeckProps Peer Chan ChanProofs Sim.

#[local] Open Scope nat_scope.

Section cert.
Context (n : nat) (p : Z) (keys : nat → res deck_err Key) (rands : nat → RandSource) (draws : nat → nat).
Context (Hn : 2 ≤ n ≤ 26) (k : nat → Key) (Hkeys : ∀ i, i < n → keys i = Ok (k i)).

Let net := mkNetwork n p.
Abbreviation sim_op := (sim_op (mkNetwork n p) keys rands draws).

(** ** Decks and requests *)

Definition shuffled (i : nat) (d : list bytes) : list bytes :=
  match @Shuffle (rands i) (draws i) d with Ok d' => d' | _ => d end.

(** The deck as node [i] gets it. *)
Fixpoint deck_at (i : nat) : list bytes :=
  match i with 0 => sim_deck | S i => EncryptDeck (shuffled i (deck_at i)) (k i) p end.

Context (Hshuffle : ∀ i d, i < n → length d = 52 → ∃ d', @Shuffle (rands i) (draws i) d = Ok d' ∧ d' ≡ₚ d).

Lemma shuffled_ok i d : i < n → length d = 52 → @Shuffle (rands i) (draws i) d = Ok (shuffled i d) ∧ shuffled i d ≡ₚ d.
Proof. intros Hi Hd. unfold shuffled. destruct (Hshuffle i d Hi Hd) as (d' & -> & ?). done. Qed.

Lemma deck_at_length i : i ≤ n → length (deck_at i) = 52.
Proof.
  induction i as [|i IH]; intros Hi; [done|]. cbn. unfold EncryptDeck. rewrite length_fmap.
  destruct (shuffled_ok i (deck_at i)) as [_ Hp]; [lia|apply IH; lia|]. rewrite (Permutation_length Hp). apply IH. lia.
Qed.

Definition final : list bytes := deck_at n.

(** The keys of the [m] nodes after [o]. *)
Definition ring_keys (o m : nat) : list Key := (λ j, k ((o + 1 + j) mod n)) <$> seq 0 m.

(** Card [x] of owner [o] after [m] hops, and the request. *)
Definition card_at (o x m : nat) : bytes := fold_left (λ c key, DecryptCard c key p) (ring_keys o m) (final !!! x).
Definition request_at (o m : nat) : DealingRequest :=
  mkRequest o (2 * o) (2 * o + 1) (card_at o (2 * o) m) (card_at o (2 * o + 1) m).

Lemma card_at_next o x m : card_at o x (S m) = DecryptCard (card_at o x m) (k ((o + 1 + m) mod n)) p.
Proof.
  unfold card_at, ring_keys. rewrite seq_S, fmap_app, fold_left_app. done.
Qed.

(** The owner of the [m]-th request that node [i] sends on. *)
Definition owner_at (i m : nat) : nat := (i + n - m) mod n.

(** ** Channels *)

Definition history (c : chanid) : list (@item msg) :=
  match c with
  | (ShuffleGrid, i, j) =>
      if decide (i < n ∧ j < n) then
        (if decide (j = (i + 1) mod n) then [mkItem (2 * i + 1) (MDeck (deck_at (S i))) (2 * i + 2)] else []) ++
        (if decide (i = 0 ∧ 0 < j) then [mkItem (2 * n + j) (MDeck final) (3 * n + 1)] else [])
      else []
  | (DealingGrid, i, j) =>
      if decide (i < n ∧ j = (i + 1) mod n) then
        (λ m, mkItem (4 * n + 2 * m) (MRequest (request_at (owner_at i m) m)) (4 * n + 2 * m + 1)) <$> seq 0 n
      else []
  end.

Definition writer (c : chanid) : nat := c.1.2.
Definition reader (c : chanid) : nat := c.2.

Lemma history_relay i : i < n →
  mkItem (2 * i + 1) (MDeck (deck_at (S i))) (2 * i + 2) ∈ history (shuffleGrid i ((i + 1) mod n)).
Proof.
  intros Hi. unfold history, shuffleGrid. rewrite decide_True by (split; [done|apply Nat.mod_upper_bound; lia]).
  rewrite (decide_True (P := (i + 1) mod n = (i + 1) mod n)) by done. by left.
Qed.

Lemma history_cast j : 0 < j < n → mkItem (2 * n + j) (MDeck final) (3 * n + 1) ∈ history (shuffleGrid 0 j).
Proof.
  intros Hj. unfold history, shuffleGrid. rewrite decide_True by lia. apply elem_of_app. right.
  rewrite decide_True by lia. by left.
Qed.

Lemma history_deal i m : i < n → m < n →
  mkItem (4 * n + 2 * m) (MRequest (request_at (owner_at i m) m)) (4 * n + 2 * m + 1) ∈ history (dealingGrid i ((i + 1) mod n)).
Proof.
  intros Hi Hm. unfold history, dealingGrid. rewrite decide_True by done. apply list_elem_of_fmap. exists m.
  split; [done|]. apply elem_of_seq. lia.
Qed.

(** What the items of a channel are. *)
Lemma history_inv c e :
  e ∈ history c →
  (∃ i, i < n ∧ c = shuffleGrid i ((i + 1) mod n) ∧ e = mkItem (2 * i + 1) (MDeck (deck_at (S i))) (2 * i + 2)) ∨
  (∃ j, 0 < j < n ∧ c = shuffleGrid 0 j ∧ e = mkItem (2 * n + j) (MDeck final) (3 * n + 1)) ∨
  (∃ i m, i < n ∧ m < n ∧ c = dealingGrid i ((i + 1) mod n) ∧
     e = mkItem (4 * n + 2 * m) (MRequest (request_at (owner_at i m) m)) (4 * n + 2 * m + 1)).
Proof.
  destruct c as [[[|] i] j]; cbn [history].
  - case_decide as Hij; [|by intros ?%not_elem_of_nil]. rewrite elem_of_app. intros [He|He].
    + case_decide as Hj; [|by apply not_elem_of_nil in He]. apply list_elem_of_singleton in He as ->. left.
      exists i. rewrite Hj. split_and!; [lia|done|done].
    + case_decide as Hj; [|by apply not_elem_of_nil in He]. apply list_elem_of_singleton in He as ->. right. left.
      exists j. destruct Hj as [-> ?]. split_and!; [lia|lia|done|done].
  - case_decide as Hij; [|by intros ?%not_elem_of_nil]. destruct Hij as [Hi ->].
    intros (m & -> & Hm%elem_of_seq)%list_elem_of_fmap. right. right. exists i, m. split_and!; [done|lia|done|done].
Qed.

(** ** Traces *)

(** Dealing from the [m]-th request on, [cnt] requests to go. *)
Fixpoint deal_trace (i m cnt : nat) : list (nat * sim_state) :=
  match cnt with
  | 0 => [(6 * n, Received (of_bytes (card_at i (2 * i) n)) (of_bytes (card_at i (2 * i + 1) n)))]
  | S cnt =>
      (4 * n + 2 * m, DealSend (k i) (request_at (owner_at i m) m)) :: (4 * n + 2 * m + 1, DealWait (k i))
      :: deal_trace i (S m) cnt
  end.

(** The broadcast of the leader from node [j] on. *)
Fixpoint cast_trace (j cnt : nat) : list (nat * sim_state) :=
  match cnt with
  | 0 => (2 * n + j, LeaderCast (k 0) final j) :: deal_trace 0 0 n
  | S cnt => (2 * n + j, LeaderCast (k 0) final j) :: cast_trace (S j) cnt
  end.

Definition node_trace (i : nat) : list (nat * sim_state) :=
  if decide (i = 0)
  then (0, SimStart) :: (1, LeaderSend (k 0) (deck_at 1)) :: (2 * n, LeaderWait (k 0)) :: cast_trace 1 (n - 1)
  else (0, SimStart) :: (2 * i, FollowerWait (k i)) :: (2 * i + 1, FollowerSend (k i) (deck_at (S i)))
       :: (3 * n + 1, FollowerFinal (k i)) :: deal_trace i 0 n.

Definition sim_traces : list (list (nat * sim_state)) := node_trace <$> seq 0 n.

Lemma deal_trace_first i m cnt :
  cnt ≠ 0 → ∃ rest, deal_trace i m cnt = (4 * n + 2 * m, DealSend (k i) (request_at (owner_at i m) m)) :: rest.
Proof. destruct cnt; [done|]. by eexists. Qed.

Lemma deal_trace_elem i m cnt j :
  m ≤ j < m + cnt →
  (4 * n + 2 * j, DealSend (k i) (request_at (owner_at i j) j)) ∈ deal_trace i m cnt ∧
  (4 * n + 2 * j + 1, DealWait (k i)) ∈ deal_trace i m cnt.
Proof.
  revert m. induction cnt as [|cnt IH]; intros m Hj; [lia|]. cbn [deal_trace]. destruct (decide (j = m)) as [->|Hne].
  - split; [by left|by right; left].
  - destruct (IH (S m)) as [H1 H2]; [lia|]. split; by right; right.
Qed.

Lemma cast_trace_elem j cnt j' :
  j ≤ j' < j + cnt → (2 * n + j', LeaderCast (k 0) final j') ∈ cast_trace j cnt.
Proof.
  revert j. induction cnt as [|cnt IH]; intros j Hj; [lia|]. cbn [cast_trace].
  destruct (decide (j' = j)) as [->|Hne]; [by left|]. right. apply IH. lia.
Qed.

Lemma cast_trace_deal j cnt x : x ∈ deal_trace 0 0 n → x ∈ cast_trace j cnt.
Proof. revert j. induction cnt as [|cnt IH]; intros j Hx; cbn [cast_trace]; right; [done|by apply IH]. Qed.

Lemma node_trace_deal i x : x ∈ deal_trace i 0 n → x ∈ node_trace i.
Proof.
  intros Hx. unfold node_trace. case_decide as Hi; [subst i; do 3 right; by apply cast_trace_deal|by do 4 right].
Qed.

(** ** Around the ring *)

Lemma mod_below a : a < n → a mod n = a.
Proof. intros. apply Nat.mod_small. lia. Qed.

Lemma mod_above a : n ≤ a < 2 * n → a mod n = a - n.
Proof. intros. symmetry. apply (Nat.mod_unique a n 1); lia. Qed.

Lemma next_cases i : i < n → ((i + 1) mod n = i + 1 ∧ i + 1 < n) ∨ ((i + 1) mod n = 0 ∧ i = n - 1).
Proof.
  intros Hi. destruct (decide (i + 1 < n)); [left; by rewrite mod_below|right]. rewrite mod_above by lia. lia.
Qed.

Lemma prev_cases i : i < n → ((n + i - 1) mod n = i - 1 ∧ 0 < i) ∨ ((n + i - 1) mod n = n - 1 ∧ i = 0).
Proof.
  intros Hi. destruct (decide (0 < i)); [left; rewrite mod_above by lia|right; rewrite mod_below by lia]; lia.
Qed.

Lemma owner_cases i m :
  i < n → m ≤ n → (owner_at i m = i - m ∧ m ≤ i) ∨ (owner_at i m = i + n - m ∧ i < m).
Proof.
  intros Hi Hm. unfold owner_at. destruct (decide (m ≤ i)); [left; rewrite mod_above by lia|right; rewrite mod_below by lia]; lia.
Qed.

Lemma prev_next i : i < n → (n + i - 1) mod n < n ∧ ((n + i - 1) mod n + 1) mod n = i.
Proof.
  intros Hi. destruct (prev_cases i Hi) as [[-> ?]|[-> ->]]; (split; [lia|]).
  - by rewrite mod_below by lia; lia.
  - rewrite mod_above by lia. lia.
Qed.

(** The request that arrives as the [m]-th at node [i]. *)
Lemma owner_prev i m : i < n → m < n → owner_at ((n + i - 1) mod n) m = owner_at i (S m).
Proof.
  intros Hi Hm. destruct (prev_next i Hi) as [Hq _]. destruct (prev_cases i Hi) as [[He ?]|[He ->]]; rewrite He in *;
    match goal with |- owner_at ?a ?b = _ => destruct (owner_cases a b ltac:(lia) ltac:(lia)) as [[-> ?]|[-> ?]] end;
    match goal with |- _ = owner_at ?a ?b => destruct (owner_cases a b ltac:(lia) ltac:(lia)) as [[-> ?]|[-> ?]] end; lia.
Qed.

Lemma owner_self i m : i < n → m < n → owner_at i (S m) = i ↔ S m = n.
Proof. intros Hi Hm. destruct (owner_cases i (S m) Hi ltac:(lia)) as [[-> ?]|[-> ?]]; lia. Qed.

Lemma owner_key i m : i < n → m < n → (owner_at i (S m) + 1 + m) mod n = i.
Proof.
  intros Hi Hm. destruct (owner_cases i (S m) Hi ltac:(lia)) as [[-> ?]|[-> ?]].
  - rewrite mod_below by lia. lia.
  - rewrite mod_above by lia. lia.
Qed.

(** One pass through the loop of [dealCards]. *)
Lemma deal_receive_at i m :
  i < n → m < n →
  deal_receive (mkNetwork n p) i (k i) (request_at (owner_at ((n + i - 1) mod n) m) m)
  = if decide (S m = n) then Received (of_bytes (card_at i (2 * i) n)) (of_bytes (card_at i (2 * i + 1) n))
    else DealSend (k i) (request_at (owner_at i (S m)) (S m)).
Proof.
  intros Hi Hm. rewrite owner_prev by done. unfold deal_receive. cbn [OwnerID Index1 Index2 Value1 Value2 sim_prime request_at].
  pose proof (owner_key i m Hi Hm) as Hk.
  assert (∀ x, DecryptCard (card_at (owner_at i (S m)) x m) (k i) p = card_at (owner_at i (S m)) x (S m)) as Hcard
    by (intros x; by rewrite card_at_next, Hk).
  rewrite !Hcard. case_decide as Hd.
  - assert (owner_at i (S m) = i) as Ho by (by apply owner_self). rewrite Ho, Nat.eqb_refl. by rewrite Hd.
  - destruct (Nat.eqb_spec (owner_at i (S m)) i) as [Ho|_]; [|done]. apply owner_self in Ho; [done|done|done].
Qed.

Lemma deal_start_at i sample :
  i < n → sample ≤ 52 → deal_start i sample (k i) final = DealSend (k i) (request_at (owner_at i 0) 0).
Proof.
  intros Hi Hs. assert (length final = 52) as Hl by (apply deck_at_length; lia). unfold deal_start.
  destruct (Nat.ltb_spec (length final) sample) as [?|_]; [lia|].
  destruct (owner_cases i 0 Hi ltac:(lia)) as [[Ho _]|[_ ?]]; [|lia]. rewrite Ho, Nat.sub_0_r. unfold request_at, card_at. cbn [ring_keys seq fmap list_fmap fold_left].
  by rewrite !(list_lookup_lookup_total_lt final) by lia.
Qed.

(** ** The certificate *)

Abbreviation sim_linked := (linked_trace sim_op writer reader history).

Lemma linked_step i t s l s1 t1 :
  t < t1 → linked sim_op writer reader history i t s s1 → (∃ rest, l = (t1, s1) :: rest) → sim_linked i l →
  sim_linked i ((t, s) :: l).
Proof. intros Hlt Hlk [rest ->] Hl. by constructor. Qed.

Lemma deal_trace_linked i m cnt : i < n → m + cnt = n → sim_linked i (deal_trace i m cnt).
Proof.
  intros Hi. revert m. induction cnt as [|cnt IH]; intros m Hm; cbn [deal_trace]; [by constructor|].
  pose proof (deal_receive_at i m Hi ltac:(lia)) as Hrec.
  eapply linked_step; [| |by eexists|].
  - lia.
  - split_and!; [done|done|]. eexists. apply history_deal; lia.
  - assert (∃ t s rest, deal_trace i (S m) cnt = (t, s) :: rest ∧ 4 * n + 2 * m + 1 < t ∧
      deal_receive (mkNetwork n p) i (k i) (request_at (owner_at ((n + i - 1) mod n) m) m) = s) as (t & s & rest & Ht & Hlt & Hs).
    { rewrite Hrec. destruct cnt as [|cnt]; cbn [deal_trace].
      - rewrite decide_True by lia. eexists _, _, _. split_and!; [done|lia|done].
      - rewrite decide_False by lia. eexists _, _, _. split_and!; [done|lia|done]. }
    eapply (linked_step _ _ _ _ s t); [done| |by exists rest|by apply IH; lia].
    cbn. split; [done|]. destruct (prev_next i Hi) as [Hq Hqn].
    exists (4 * n + 2 * m), (MRequest (request_at (owner_at ((n + i - 1) mod n) m) m)). split; [|exact Hs].
    pose proof (history_deal ((n + i - 1) mod n) m Hq ltac:(lia)) as He. rewrite Hqn in He. exact He.
Qed.

Lemma cast_trace_linked j cnt : 0 < j → j + cnt = n → sim_linked 0 (cast_trace j cnt).
Proof.
  revert j. induction cnt as [|cnt IH]; intros j Hj Hc; cbn [cast_trace].
  - eapply linked_step; [| |apply deal_trace_first; lia|apply deal_trace_linked; lia]; [lia|].
    unfold linked. cbn [Sim.sim_op numNodes]. rewrite (proj2 (Nat.ltb_ge j n)) by lia. apply deal_start_at; lia.
  - assert (∃ rest, cast_trace (S j) cnt = (2 * n + S j, LeaderCast (k 0) final (S j)) :: rest) as Hhead
      by (destruct cnt; by eexists).
    eapply linked_step; [| |exact Hhead|apply IH; lia]; [lia|].
    unfold linked. cbn [Sim.sim_op numNodes]. rewrite (proj2 (Nat.ltb_lt j n)) by lia. split_and!; [by rewrite Nat.add_1_r|done|].
    eexists. apply history_cast. lia.
Qed.

Lemma reencrypt_at i s : i < n → reencrypt (mkNetwork n p) rands draws i (k i) (deck_at i) s = s (deck_at (S i)).
Proof.
  intros Hi. unfold reencrypt. destruct (shuffled_ok i (deck_at i) Hi) as [-> _]; [apply deck_at_length; lia|done].
Qed.

Lemma node_trace_linked i : i < n → sim_linked i (node_trace i).
Proof.
  intros Hi. unfold node_trace. case_decide as H0.
  - subst i. assert (∃ rest, cast_trace 1 (n - 1) = (2 * n + 1, LeaderCast (k 0) final 1) :: rest) as Hhead
      by (destruct (n - 1); by eexists).
    eapply linked_step; [| |by eexists|eapply linked_step; [| |by eexists|eapply linked_step; [| |exact Hhead|]]]; try lia.
    + unfold linked. cbn. rewrite Hkeys by lia. by apply (reencrypt_at 0).
    + split_and!; [done|done|]. eexists. pose proof (history_relay 0 ltac:(lia)) as He.
      rewrite mod_below in He by lia. exact He.
    + split; [done|]. exists (2 * (n - 1) + 1), (MDeck final). split; [|done]. cbn. pose proof (history_relay (n - 1) ltac:(lia)) as He.
      rewrite mod_above in He by lia. replace (n - 1 + 1 - n) with 0 in He by lia.
      replace (2 * (n - 1) + 2) with (2 * n) in He by lia. replace (S (n - 1)) with n in He by lia. exact He.
    + apply cast_trace_linked; lia.
  - eapply linked_step; [| |by eexists|eapply linked_step; [| |by eexists|eapply linked_step; [| |by eexists|
      eapply linked_step; [| |apply deal_trace_first; lia|]]]]; try lia.
    + unfold linked. cbn. rewrite Hkeys by lia. destruct (Nat.eqb_spec i 0); [lia|done].
    + split; [done|]. pose proof (history_relay (i - 1) ltac:(lia)) as He. eexists _, _. split.
      * replace (i - 1 + 1) with i in He by lia. rewrite (mod_below i) in He by lia.
        replace (2 * (i - 1) + 2) with (2 * i) in He by lia. replace (S (i - 1)) with i in He by lia. exact He.
      * cbn. by apply reencrypt_at.
    + split_and!; [done|done|]. eexists. by apply history_relay.
    + split; [done|]. exists (2 * n + i), (MDeck final). split; [apply history_cast; lia|]. apply deal_start_at; lia.
    + by apply deal_trace_linked.
Qed.

Lemma node_trace_complete i : i < n → complete_trace sim_op writer reader history i (node_trace i).
Proof.
  intros Hi c e He. apply history_inv in He as [(j & Hj & -> & ->)|[(j & Hj & -> & ->)|(j & m & Hj & Hm & -> & ->)]];
    cbn [writer reader fst snd shuffleGrid dealingGrid sent_at recv_at]; split; intros Hx; unfold writer, reader in Hx; cbn in Hx.
  - subst j. unfold node_trace. destruct (decide (i = 0)) as [->|Hne].
    + exists (LeaderSend (k 0) (deck_at 1)), (MDeck (deck_at 1)), (LeaderWait (k 0)). split; [by right; left|].
      cbn. by rewrite mod_below by lia.
    + exists (FollowerSend (k i) (deck_at (S i))), (MDeck (deck_at (S i))), (FollowerFinal (k i)). by split; [do 2 right; left|].
  - subst i. unfold node_trace. destruct (next_cases j Hj) as [[-> Hlt]|[-> ->]].
    + rewrite decide_False by lia. eexists (FollowerWait (k (j + 1))), _. split.
      * replace (2 * j + 2) with (2 * (j + 1)) by lia. right. left.
      * cbn. by replace (j + 1 - 1) with j by lia.
    + rewrite decide_True by done. eexists (LeaderWait (k 0)), _. split; [|done].
      replace (2 * (n - 1) + 2) with (2 * n) by lia. do 2 right. left.
  - subst i. unfold node_trace. rewrite decide_True by done.
    exists (LeaderCast (k 0) final j), (MDeck final), (LeaderCast (k 0) final (j + 1)). split.
    + do 3 right. apply cast_trace_elem. lia.
    + cbn [Sim.sim_op numNodes]. by rewrite (proj2 (Nat.ltb_lt j n)) by lia.
  - subst i. unfold node_trace. rewrite decide_False by lia. eexists (FollowerFinal (k j)), _. by split; [do 3 right; left|].
  - subst j. destruct (deal_trace_elem i 0 n m ltac:(lia)) as [H1 _].
    eexists _, _, _. split; [apply node_trace_deal; exact H1|done].
  - destruct (deal_trace_elem i 0 n m ltac:(lia)) as [_ H2].
    assert ((n + i - 1) mod n = j) as Hprev.
    { subst i. destruct (next_cases j Hj) as [[-> ?]|[-> ->]]; [rewrite mod_above by lia|rewrite mod_below by lia]; lia. }
    eexists _, _. split; [apply node_trace_deal; exact H2|]. cbn. by rewrite Hprev, Hx.
Qed.

Lemma history_sorted c :
  Forall (λ e, sent_at e < recv_at e) (history c) ∧ StronglySorted (λ e e', recv_at e < sent_at e') (history c).
Proof.
  split.
  - apply list.Forall_forall. intros e He.
    apply history_inv in He as [(j & Hj & -> & ->)|[(j & Hj & -> & ->)|(j & m & Hj & Hm & -> & ->)]]; cbn; lia.
  - destruct c as [[[|] i] j]; cbn [history]; (case_decide as Hij; [|constructor]).
    + do 2 case_decide; cbn; repeat constructor; cbn. destruct Hij. lia.
    + match goal with |- StronglySorted _ (?f <$> seq 0 n) =>
        enough (∀ cnt m, StronglySorted (λ e e', recv_at e < sent_at e') (f <$> seq m cnt)) as Hall by apply Hall end.
      induction cnt as [|cnt IH]; intros m; [constructor|]. cbn [seq fmap list_fmap].
      constructor; [apply IH|]. apply list.Forall_forall. intros e (m' & -> & Hm%elem_of_seq)%list_elem_of_fmap. cbn. lia.
Qed.

Lemma sim_cert : cert sim_op writer reader history sim_traces.
Proof.
  split.
  - intros i l Hl. unfold sim_traces in Hl. rewrite list_lookup_fmap in Hl.
    destruct (seq 0 n !! i) as [i'|] eqn:Hi; [|done]. apply lookup_seq in Hi as [-> Hi]. injection Hl as <-.
    split; [by apply node_trace_linked|by apply node_trace_complete].
  - apply history_sorted.
  - intros c e He. unfold sim_traces. rewrite length_fmap, length_seq.
    apply history_inv in He as [(j & Hj & -> & ->)|[(j & Hj & -> & ->)|(j & m & Hj & Hm & -> & ->)]]; unfold writer, reader; cbn.
    + destruct (next_cases j Hj) as [[-> ?]|[-> ?]]; lia.
    + lia.
    + destruct (next_cases j Hj) as [[-> ?]|[-> ?]]; lia.
Qed.

(** ** Lengths *)

Lemma deal_trace_length i m cnt : length (deal_trace i m cnt) = 2 * cnt + 1.
Proof. revert m. induction cnt as [|cnt IH]; intros m; cbn [deal_trace length]; [done|]. rewrite IH. lia. Qed.

Lemma cast_trace_length j cnt : length (cast_trace j cnt) = cnt + 2 * n + 2.
Proof.
  revert j. induction cnt as [|cnt IH]; intros j; cbn [cast_trace length]; [rewrite deal_trace_length; lia|]. rewrite IH. lia.
Qed.

Lemma sim_traces_left : left_over sim_traces = 2 * n * n + 5 * n - 1.
Proof.
  unfold left_over, sim_traces. rewrite <- list_fmap_compose.
  assert (∀ cnt j, 0 < j → sum_list ((λ l, length l - 1) ∘ node_trace <$> seq j cnt) = cnt * (2 * n + 4)) as Hf.
  { induction cnt as [|cnt IH]; intros j Hj; [done|]. cbn [seq fmap list_fmap]. unfold sum_list in *. cbn [sum_list_with compose].
    specialize (IH (S j) ltac:(lia)). cbn in IH |- *. unfold node_trace at 1. rewrite decide_False by lia.
    cbn [length]. rewrite deal_trace_length. lia. }
  assert (seq 0 n = 0 :: seq 1 (n - 1)) as -> by (replace n with (S (n - 1)) at 1 by lia; done).
  cbn [fmap list_fmap]. specialize (Hf (n - 1) 1 ltac:(lia)). unfold sum_list in *. cbn [sum_list_with compose] in *.
  unfold node_trace at 1. rewrite decide_True by done. cbn [length]. rewrite cast_trace_length. cbn in Hf |- *. rewrite Hf. nia.
Qed.

Lemma sim_starts : starts sim_traces (replicate n SimStart).
Proof.
  unfold starts, sim_traces. apply Forall2_same_length_lookup. split; [by rewrite length_fmap, length_seq, length_replicate|].
  intros i l s Hl [-> _]%lookup_replicate. rewrite list_lookup_fmap in Hl. destruct (seq 0 n !! i) as [i'|]; [|done].
  injection Hl as <-. unfold node_trace. case_decide; by eexists _, _.
Qed.

Lemma deal_trace_last i m cnt :
  last (deal_trace i m cnt)
  = Some (6 * n, Received (of_bytes (card_at i (2 * i) n)) (of_bytes (card_at i (2 * i + 1) n))).
Proof. revert m. induction cnt as [|cnt IH]; intros m; [done|]. cbn [deal_trace]. rewrite !last_cons, IH. done. Qed.

Lemma cast_trace_last j cnt :
  last (cast_trace j cnt) = Some (6 * n, Received (of_bytes (card_at 0 (2 * 0) n)) (of_bytes (card_at 0 (2 * 0 + 1) n))).
Proof. revert j. induction cnt as [|cnt IH]; intros j; cbn [cast_trace]; rewrite last_cons; [by rewrite deal_trace_last|by rewrite IH]. Qed.

Lemma node_trace_last i :
  last (node_trace i) = Some (6 * n, Received (of_bytes (card_at i (2 * i) n)) (of_bytes (card_at i (2 * i + 1) n))).
Proof.
  unfold node_trace. case_decide as Hi; [subst i|]; rewrite !last_cons; [by rewrite cast_trace_last|by rewrite deal_trace_last].
Qed.

End cert.
