(* ===== verification/SimProps.v ===== *)
(** * The simulation: theorems

    Every interleaving of the goroutines deals every player its two cards; what
    happens when a node fails, or when there are more players than cards. *)

From Stdlib Require Import ZArith Lia List.
From stdpp Require Import base list gmap strings numbers sorting relations.
From S2P Require Import Prelude Strconv Deck DeckProofs DeckProps Peer Chan ChanProofs Sim SimProofs.

#[local] Open Scope nat_scope.

(** The cards of the deck are bytes of decimal numbers, the largest of which
    is ["51"]. *)
Lemma sim_deck_residues p : (13617 < p)%Z → Forall (residue p) sim_deck.
Proof.
  intros Hp.
  assert (forallb (λ m, (0 <? SetBytes m) && (SetBytes m <=? 13617) && bool_decide (big_Bytes (SetBytes m) = m))%Z sim_deck = true)
    as Hf by (vm_compute; reflexivity).
  rewrite forallb_forall in Hf. apply list.Forall_forall. intros m Hm%list_elem_of_In%Hf.
  rewrite !andb_true_iff, Z.ltb_lt, Z.leb_le, bool_decide_eq_true in Hm. destruct Hm as [[? ?] ?]. split; [lia|done].
Qed.

Lemma fmap_perm_inv {A B} (f : A → B) (l : list A) (l' : list B) :
  l' ≡ₚ f <$> l → ∃ l0, l0 ≡ₚ l ∧ l' = f <$> l0.
Proof.
  intros Hp. remember (f <$> l) as m eqn:Hm. revert l Hm.
  induction Hp as [|x l1 l2 _ IH|x y l1|l1 l2 l3 _ IH1 _ IH2]; intros l Hm.
  - exists []. destruct l; done.
  - destruct l as [|a l]; [done|]. injection Hm as -> ->. destruct (IH l eq_refl) as (l0 & Hl & ->).
    exists (a :: l0). split; [by constructor|done].
  - destruct l as [|a [|b l]]; try done. injection Hm as -> -> ->. exists (b :: a :: l). split; [constructor|done].
  - destruct (IH2 l Hm) as (l0 & Hl0 & ->). destruct (IH1 l0 eq_refl) as (l4 & Hl4 & ->). exists l4. split; [by etrans|done].
Qed.

Section cards.
Context (n : nat) (p : Z) (Hp : Z.prime p) (rands : nat → RandSource) (draws : nat → nat).
Context (Hn : 2 ≤ n ≤ 26) (k : nat → Key) (Hk : ∀ i, i < n → key_ok p (k i)) (Hres : Forall (residue p) sim_deck).
Context (Hshuffle : ∀ i d, i < n → length d = 52 → ∃ d', @Shuffle (rands i) (draws i) d = Ok d' ∧ d' ≡ₚ d).

#[local] Abbreviation deck_at := (deck_at p rands draws k).
#[local] Abbreviation cipher := (sra_cipher p Hp).

Lemma deck_at_layers i : i ≤ n → deck_at i ≡ₚ @layers _ _ cipher (k <$> seq 0 i) <$> sim_deck.
Proof.
  induction i as [|i IH]; intros Hi.
  { change (@layers _ _ cipher (k <$> seq 0 0)) with (@id bytes). by rewrite list_fmap_id. }
  rewrite seq_S, fmap_app. cbn [SimProofs.deck_at fmap list_fmap].
  destruct (shuffled_ok n rands draws Hshuffle i (deck_at i)) as [_ Hs]; [lia|by eapply deck_at_length; eauto; lia|].
  assert (∀ d, @layers _ _ cipher ((k <$> seq 0 i) ++ [k i]) <$> d
    = EncryptDeck (@layers _ _ cipher (k <$> seq 0 i) <$> d) (k i) p) as ->.
  { intros d. unfold EncryptDeck. rewrite <- list_fmap_compose. apply list_fmap_ext. intros ? x _. cbn.
    unfold layers. by rewrite fold_left_app. }
  unfold EncryptDeck. rewrite Hs, IH by lia. done.
Qed.

(** The deck underneath the layers. *)
Lemma final_layers : ∃ pts, pts ≡ₚ sim_deck ∧ final n p rands draws k = @layers _ _ cipher (k <$> seq 0 n) <$> pts.
Proof.
  apply fmap_perm_inv, deck_at_layers. lia.
Qed.

Lemma ring_perm o : o < n → ring_keys n k o n ≡ₚ k <$> seq 0 n.
Proof.
  intros Ho. unfold ring_keys.
  assert ((λ j, k ((o + 1 + j) mod n)) <$> seq 0 n = k <$> (seq (o + 1) (n - o - 1) ++ seq 0 (o + 1))) as ->.
  { apply list_eq. intros j. rewrite !list_lookup_fmap. destruct (decide (j < n)) as [Hj|Hj].
    - rewrite lookup_seq_lt by done. cbn. destruct (decide (j < n - o - 1)).
      + rewrite lookup_app_l by (rewrite length_seq; lia). rewrite lookup_seq_lt by lia. cbn. rewrite Nat.mod_small by lia. do 2 f_equal.
      + rewrite lookup_app_r by (rewrite length_seq; lia). rewrite length_seq, lookup_seq_lt by lia. cbn. do 2 f_equal.
        symmetry. apply (Nat.mod_unique _ n 1); lia.
    - rewrite !(proj2 (lookup_ge_None _ _)); [done|rewrite length_app, !length_seq; lia|rewrite length_seq; lia]. }
  apply fmap_Permutation. rewrite Permutation_app_comm.
  change (seq (o + 1) (n - o - 1)) with (seq (0 + (o + 1)) (n - o - 1)). rewrite <- seq_app. by replace (o + 1 + (n - o - 1)) with n by lia.
Qed.

Lemma card_opened pts i x :
  pts ≡ₚ sim_deck → final n p rands draws k = @layers _ _ cipher (k <$> seq 0 n) <$> pts → i < n → x < 52 →
  card_at n p rands draws k i x n = pts !!! x.
Proof.
  intros Hpts Hf Hi Hx. unfold card_at. rewrite Hf.
  assert (length pts = 52) as Hlen by (by rewrite (Permutation_length Hpts)).
  destruct (lookup_lt_is_Some_2 pts x) as [m Hm]; [lia|]. rewrite (list_lookup_total_correct _ _ m Hm).
  rewrite (list_lookup_total_correct _ _ (@layers _ _ cipher (k <$> seq 0 n) m)) by (by rewrite list_lookup_fmap, Hm).
  assert (Forall (key_ok p) (ring_keys n k i n)) as Hring.
  { apply list.Forall_forall. intros key (j & -> & _)%list_elem_of_fmap. apply Hk, Nat.mod_upper_bound. lia. }
  assert (residue p m) as Hm'.
  { rewrite list.Forall_forall in Hres. apply Hres. rewrite <- Hpts. by eapply list_elem_of_lookup_2. }
  pose proof (ring_perm i Hi) as Hperm.
  pose proof (@strip_layers _ _ cipher _ [] m Hring ltac:(constructor) Hm') as Hs.
  rewrite app_nil_r, (@layers_perm _ _ cipher _ _ m Hperm Hring Hm') in Hs. exact Hs.
Qed.

End cards.

(** C20: The simulation deals everybody in.  For two to twenty-six nodes, a prime
    above the largest card and a random source that does not fail, there is one
    order of the deck such that every interleaving of the goroutines makes at
    most [2n² + 5n - 1] steps and, unless it can go on, has given every player
    the two cards of its places: no schedule deadlocks, although every channel
    holds only one message. *)
Theorem sim_deals_everyone cfg net keys rands draws :
  NewNetwork cfg = Ok net → numNodes net ≤ 26 → Z.prime (sim_prime net) → (13617 < sim_prime net)%Z →
  (∀ i, @RandLaws (rands i)) → (∀ i c max, (0 < max)%Z → @rand_Int (rands i) c max ≠ None) →
  (∀ i, i < numNodes net → ∃ fuel key, @GenerateKey (rands i) fuel 0 (sim_prime net) = Some (Ok key) ∧ keys i = Ok key) →
  ∃ pts, pts ≡ₚ sim_deck ∧
    ∀ steps s, nsteps (chan_step (sim_op net keys rands draws)) steps (sim_run net) s →
      steps ≤ 2 * numNodes net * numNodes net + 5 * numNodes net - 1 ∧
      ((∃ s', chan_step (sim_op net keys rands draws) s s') ∨
       ∀ i, i < numNodes net →
         gstates s !! i = Some (Received (of_bytes (pts !!! (2 * i))) (of_bytes (pts !!! (2 * i + 1))))).
Proof.
  intros Hcfg Hmax Hp Hlarge Hlaws Hrand Hkeys.
  assert (2 ≤ numNodes net) as Hmin.
  { unfold NewNetwork in Hcfg. destruct (Z.ltb_spec (NumNodes cfg) 2); [done|]. destruct (Prime cfg) as [q|]; [|done].
    destruct (q <=? 0)%Z; [done|]. injection Hcfg as <-. cbn. lia. }
  destruct net as [n p]. cbn [numNodes sim_prime] in *.
  set (k := λ i, match keys i with Ok key => key | _ => mkKey 1 1 end).
  assert (∀ i, i < n → keys i = Ok (k i) ∧ key_ok p (k i)) as Hk.
  { intros i Hi. destruct (Hkeys i Hi) as (fuel & key & Hg & He). unfold k. rewrite He. split; [done|].
    by apply (proj1 (@generate_key_correct (rands i) (Hlaws i) p fuel 0 Hp)). }
  assert (∀ i d, i < n → length d = 52 → ∃ d', @Shuffle (rands i) (draws i) d = Ok d' ∧ d' ≡ₚ d) as Hshuffle.
  { intros i d _ Hd. pose proof (@shuffle_permutes_lemma (rands i) (Hlaws i) (draws i) d) as Hs.
    destruct (@Shuffle (rands i) (draws i) d) as [d'|e|]; [by exists d'| |done]. exfalso. destruct Hs as (_ & t & _ & Hx).
    eapply Hrand; [|exact Hx]. lia. }
  destruct (final_layers n p Hp rands draws ltac:(lia) k Hshuffle) as (pts & Hpts & Hf). exists pts. split; [done|].
  intros steps s Hrun.
  pose proof (sim_cert n p keys rands draws ltac:(lia) k ltac:(intros; by apply Hk) Hshuffle) as Hcert.
  destruct (cert_runs _ _ _ _ _ Hcert (replicate n SimStart) steps s (sim_starts n p rands draws k) Hrun) as [Hle Hor].
  rewrite (sim_traces_left n p rands draws ltac:(lia) k) in Hle. split; [done|]. destruct Hor as [Hs|[_ Hend]]; [by left|right].
  intros i Hi. destruct (Hend i (node_trace n p rands draws k i)) as (t & st & Hl & Hst).
  { unfold sim_traces. by rewrite list_lookup_fmap, lookup_seq_lt. }
  rewrite node_trace_last in Hl. injection Hl as <- <-. rewrite Hst.
  by rewrite !(card_opened n p Hp rands draws ltac:(lia) k ltac:(intros; by apply Hk) (sim_deck_residues p Hlarge) pts i) by (done || lia).
Qed.

(** ** Failures *)

(** A node that fails stops the others.  When the follower of two nodes cannot
    generate its key it returns, the leader waits for its deck for ever, and
    [Run], which waits for both, does not return. *)
Theorem failed_node_hangs net keys rands draws key deck :
  numNodes net = 2 → keys 0 = Ok key → keys 1 = Err ErrRand →
  reencrypt net rands draws 0 key sim_deck (LeaderSend key) = LeaderSend key deck →
  ∃ s, rtc (chan_step (sim_op net keys rands draws)) (sim_run net) s ∧
    gstates s = [LeaderWait key; Failed] ∧ ¬ ∃ s', chan_step (sim_op net keys rands draws) s s'.
Proof.
  intros Hn H0 H1 Hd. exists (mkCNet [LeaderWait key; Failed] {[shuffleGrid 0 1 := MDeck deck]}). split_and!; [|done|].
  - unfold sim_run. rewrite Hn.
    eapply rtc_l; [eapply (step_local _ _ 0 SimStart); [done|cbn -[reencrypt sim_deck]; rewrite H0, Hd; done]|]. cbn.
    eapply rtc_l; [eapply (step_local _ _ 1 SimStart); [done|cbn -[reencrypt sim_deck]; rewrite H1; done]|]. cbn.
    eapply rtc_l; [eapply (step_send _ _ 0 (LeaderSend key deck)); [done|done|apply lookup_empty]|]. cbn. apply rtc_refl.
  - intros [s' [i Hs]%step_next]. unfold chan_next in Hs. cbn [gstates] in Hs.
    destruct i as [|[|i]]; cbn in Hs; [|done|done]. rewrite Hn in Hs. by vm_compute in Hs.
Qed.

(** Too many players crash the simulation.  [NewNetwork] accepts any number of
    nodes; the 27th player asks for cards 52 and 53 of the deck. *)
Theorem too_many_players_crash id key d sample :
  length d = 52 → 26 ≤ id → deal_start id sample key d = Crashed.
Proof.
  intros Hd Hid. unfold deal_start. case_match; [done|]. rewrite (proj2 (lookup_ge_None d (2 * id))) by lia. done.
Qed.

(** ** Concrete simulations *)

Definition four_nodes : SimConfig := mkSimConfig 4 (Some PRIME).
Definition four_net : Network := mkNetwork 4 PRIME.

(** A source that never fails: 5, or 0 when 5 is too large. *)
Definition steady_rand : RandSource := λ _ max,
  if (5 <? max)%Z then Some 5%Z else if (0 <? max)%Z then Some 0%Z else None.

#[export] Instance steady_laws : @RandLaws steady_rand.
Proof.
  intros c max r. unfold rand_Int, steady_rand. destruct (Z.ltb_spec 5 max); [intros [= <-]; lia|].
  destruct (Z.ltb_spec 0 max); [intros [= <-]; lia|done].
Qed.

Definition steady_key : Key := match @GenerateKey steady_rand 1 0 PRIME with Some (Ok key) => key | _ => mkKey 1 1 end.

(** Nodes 0 to 3 start, then whoever can go on does. *)
Definition four_start : cnet chanid msg sim_state :=
  default (sim_run four_net) (chan_next (sim_op four_net (λ _, Ok steady_key) (λ _, steady_rand) (λ _, 1%nat)) 0 (sim_run four_net)).

Lemma sim_deals_everyone_witness :
  ∃ pts, pts ≡ₚ sim_deck ∧
    ((∃ s', chan_step (sim_op four_net (λ _, Ok steady_key) (λ _, steady_rand) (λ _, 1)) four_start s') ∨
     gstates four_start !! 3 = Some (Received (of_bytes (pts !!! 6)) (of_bytes (pts !!! 7)))).
Proof.
  destruct (sim_deals_everyone four_nodes four_net (λ _, Ok steady_key) (λ _, steady_rand) (λ _, 1)) as (pts & Hp & Hrun).
  - reflexivity.
  - cbn. lia.
  - exact PRIME_prime.
  - reflexivity.
  - intros _. exact steady_laws.
  - intros _ c max Hmax. unfold rand_Int, steady_rand. destruct (5 <? max)%Z; [discriminate|].
    destruct (Z.ltb_spec 0 max); [discriminate|lia].
  - intros i _. exists 1, steady_key. split; vm_compute; reflexivity.
  - exists pts. split; [exact Hp|]. destruct (Hrun 1 four_start) as [_ [Hs|Hend]].
    + apply nsteps_once. apply (chan_next_step _ 0). vm_compute. reflexivity.
    + left. exact Hs.
    + right. apply (Hend 3). cbn. lia.
Defined.

Lemma failed_node_hangs_witness :
  ∃ s, rtc (chan_step (sim_op (mkNetwork 2 PRIME) (λ i, if (i =? 0)%nat then Ok steady_key else Err ErrRand)
    (λ _, steady_rand) (λ _, 1))) (sim_run (mkNetwork 2 PRIME)) s ∧ gstates s = [LeaderWait steady_key; Failed].
Proof.
  destruct (failed_node_hangs (mkNetwork 2 PRIME) (λ i, if (i =? 0)%nat then Ok steady_key else Err ErrRand) (λ _, steady_rand)
    (λ _, 1) steady_key (EncryptDeck (match @Shuffle steady_rand 1 sim_deck with Ok d => d | _ => [] end) steady_key PRIME))
    as (s & Hr & Hg & _); try reflexivity.
  exists s. split; assumption.
Defined.

Lemma too_many_players_crash_witness : deal_start 26 2 steady_key sim_deck = Crashed.
Proof. apply (too_many_players_crash 26 steady_key sim_deck 2); [reflexivity|lia]. Defined.
