(* ===== verification/Rounds.v ===== *)
(** * The round simulation ([internal/sim/rounds.go])

    [RunRounds] attaches nodes to a dispatch server, starts a game and drives
    the proposer of each round through a script, checking what happens.  It
    runs beside the nodes' runners, so what it does is a function of what it
    sees of them:
    - the nodes' answers to its calls ([sim_answers]); the calls are recorded;
    - the runners' logs and event channels while the rounds run ([RoundsView]).

    A channel or poll that delivers nothing more is one whose wait ends with
    the context.  Printing is left out; [simLog]'s events on the nodes' buses
    are [sim_log]. *)

From Stdlib Require Import ZArith Lia.
From stdpp Require Import base list gmap strings numbers.
From S2P Require Import Prelude Runtime Strconv HostPort Peer Dispatch GameState GameLog Runner Events.

#[local] Open Scope Z_scope.

Record RoundsConfig := mkRoundsConfig {
  RDispatchAddr : string;
  RNumNodes : Z;
  RSessionID : string;
  NumRounds : Z;
  RPCBaseAddr : string;
}.

Inductive events_err := EventCount (got want : Z) | EventAt (i : nat).

Inductive rounds_err :=
| ErrDispatchAddr | ErrFewNodes | ErrNoRounds | ErrRPCBase (e : rpc_base_err)
| ErrNodeKeygen (i : nat) | ErrNodeNew (i : nat) | ErrNodeAttach (i : nat)
| ErrCreateSession | ErrJoin (i : nat) | ErrConnectPeers (i : nat) | ErrStartGame
| ErrContext
| ErrNotLocal (r : nat) (proposerID : string)
| ErrSubmit (r submitted : nat) (e : submit_err)
| ErrExpectedAutoFold (r : nat) (got : string) | ErrExpectedCommit (r : nat) (got : string)
| ErrEvents (r : nat) (e : events_err)
| ErrTooQuick (r : nat) | ErrTooLong (r : nat)
| ErrNotFolded (r i : nat).

(** ** Scripts *)

Record expectedEvent := mkExpected { XAttempt : Z; XOutcome : string }.

Record roundScript := mkScript {
  Attempts : list Action;
  ExpectAutoFold : bool;
  ExpectedEvents : list expectedEvent;
  ExpectedDurationMin : Z;
  ExpectedDurationMax : Z;
}.

Record roundReport := mkReport { ROutcome : string; REvents : list AttemptEvent; RDuration : Z }.

Definition expectedAutoFoldEvents (maxAttempts : Z) (includeInitialReject : bool) : list expectedEvent :=
  (if includeInitialReject then [mkExpected 0 "rejected"] else [])
  ++ ((λ a, mkExpected a "timeout") <$> seqZ 0 maxAttempts) ++ [mkExpected 0 "auto_fold"].

(** A duration is in nanoseconds, an int64. *)
Definition second : Z := 1000000000.

Definition scripts (timeoutInterval maxAttempts : Z) : list roundScript :=
  let act a := mkScript [a] false [] 0 0 in
  let illegal := mkAction ActionRaise 1000000 in
  [act (mkAction ActionRaise 100);
   act (mkAction ActionFold 0);
   act (mkAction ActionCall 0);
   act (mkAction ActionCall 0);
   mkScript [illegal; illegal; illegal; mkAction ActionCheck 0] false
     [mkExpected 0 "rejected"; mkExpected 0 "rejected"; mkExpected 0 "rejected"; mkExpected 0 "committed"] 0 0;
   mkScript [illegal] true (expectedAutoFoldEvents maxAttempts true)
     (Z.quot (i64 (timeoutInterval * maxAttempts)) 2) (i64 (i64 (timeoutInterval * maxAttempts) + 2 * second))].

(** ** Driving a round *)

(** The next event of round [target] that the channel delivers, and the rest. *)
Fixpoint nextRoundEvent (target : Z) (stream : list AttemptEvent) : option (AttemptEvent * list AttemptEvent) :=
  match stream with
  | [] => None
  | ev :: stream => if EvRoundID ev =? target then Some (ev, stream) else nextRoundEvent target stream
  end.

(** The terminal outcomes. *)
Definition terminal (ev : AttemptEvent) : bool :=
  bool_decide (EvOutcome ev = "committed"%string) || bool_decide (EvOutcome ev = "auto_fold"%string).

Section drive.
(** The [k]-th call of [SubmitAction] finds the runner [runner k]; [stream]
    are the events the runner's channel delivers; [elapsed] is what
    [time.Since(start)] gives at the end. *)
Context (runner : nat → Runner) (elapsed : Z) (roundID : nat).

(** Nothing is left to submit: events are read until a terminal one. *)
Fixpoint drain (stream events : list AttemptEvent) : res rounds_err roundReport :=
  match stream with
  | [] => Err ErrContext
  | ev :: stream =>
      if EvRoundID ev =? Z.of_nat roundID then
        if terminal ev then Ok (mkReport (EvOutcome ev) (events ++ [ev]) elapsed) else drain stream (events ++ [ev])
      else drain stream events
  end.

Fixpoint drive (attempts : list Action) (submitted : nat) (currentAttempt : Z) (stream events : list AttemptEvent)
    : res rounds_err roundReport :=
  match attempts with
  | [] => drain stream events
  | action :: attempts =>
      match SubmitAction action (runner submitted) with
      | Panic => Panic
      | Err (ErrIllegalAction e) =>
          drive attempts (S submitted) currentAttempt stream
            (events ++ [mkEvent (Z.of_nat roundID) currentAttempt "rejected" (Refused (IllegalAction e))])
      | Err e => Err (ErrSubmit roundID submitted e)
      | Ok _ =>
          match nextRoundEvent (Z.of_nat roundID) stream with
          | None => Err ErrContext
          | Some (ev, stream) =>
              if terminal ev then Ok (mkReport (EvOutcome ev) (events ++ [ev]) elapsed)
              else
                drive attempts (S submitted)
                  (if decide (EvOutcome ev = "timeout"%string) then u32 (EvAttempt ev + 1) else EvAttempt ev)
                  stream (events ++ [ev])
          end
      end
  end.

Definition driveScriptedRound (attempts : list Action) (stream : list AttemptEvent) : res rounds_err roundReport :=
  drive attempts 0 0 stream [].

End drive.

Fixpoint events_match (got : list AttemptEvent) (want : list expectedEvent) (i : nat) : option events_err :=
  match got, want with
  | g :: got, w :: want =>
      if bool_decide (EvAttempt g ≠ XAttempt w) || bool_decide (EvOutcome g ≠ XOutcome w) then Some (EventAt i)
      else events_match got want (S i)
  | _, _ => None
  end.

Definition verifyExpectedEvents (got : list AttemptEvent) (want : list expectedEvent) : option events_err :=
  if negb (len got =? len want) then Some (EventCount (len got) (len want)) else events_match got want 0.

(** [samples] are the values of [r.Log().RoundID()] that the loop reads. *)
Fixpoint waitForRound (target : Z) (samples : list Z) : res rounds_err unit :=
  match samples with
  | [] => Err ErrContext
  | id :: samples => if target <=? id then Ok tt else waitForRound target samples
  end.

(** ** The rounds *)

(** What the loop over the rounds sees; a runner or node has the index of its
    node in [nodes]. *)
Record RoundsView := mkRoundsView {
  rv_ids : list string;
  rv_before : nat → nat → list Z;
  rv_log0 : nat → Log;
  rv_runner : nat → nat → nat → Runner;
  rv_stream : nat → nat → list AttemptEvent;
  rv_elapsed : nat → Z;
  rv_after : nat → nat → list Z;
  rv_logs : nat → list Log;
}.

(** [waitForRound] on all runners. *)
Definition wait_all (target : Z) (polls : nat → list Z) (n : nat) : res rounds_err unit :=
  foldM (λ _ i, waitForRound target (polls i)) (seq 0 n) tt.

Definition check_report (r : nat) (s : roundScript) (report : roundReport) : res rounds_err unit :=
  if ExpectAutoFold s && negb (bool_decide (ROutcome report = "auto_fold"%string)) then
    Err (ErrExpectedAutoFold r (ROutcome report))
  else if negb (ExpectAutoFold s) && negb (bool_decide (ROutcome report = "committed"%string)) then
    Err (ErrExpectedCommit r (ROutcome report))
  else
    match (if 0 <? len (ExpectedEvents s) then verifyExpectedEvents (REvents report) (ExpectedEvents s) else None) with
    | Some e => Err (ErrEvents r e)
    | None =>
        if (0 <? ExpectedDurationMin s) && (RDuration report <? ExpectedDurationMin s) then Err (ErrTooQuick r)
        else if (0 <? ExpectedDurationMax s) && (ExpectedDurationMax s <? RDuration report) then Err (ErrTooLong r)
        else Ok tt
    end.

(** Every replica must agree that the seat is folded. *)
Definition check_folded (r : nat) (seat : Z) (logs : list Log) : res rounds_err unit :=
  foldM (λ _ '(i, l),
    state ← no_err (Log_Replay l);
    f ← idx (Folded state) seat;
    if (f : bool) then Ok tt else Err (ErrNotFolded r i)) (imap pair logs) tt.

Definition play_round (v : RoundsView) (order : list string) (r : nat) (s : roundScript) : res rounds_err unit :=
  let n := length (rv_ids v) in
  _ ← wait_all (Z.of_nat r) (rv_before v r) n;
  proposerSeat ← no_err (ExpectedNextPlayer (rv_log0 v r));
  proposerID ← idx order proposerSeat;
  match list_find (λ id, id = proposerID) (rv_ids v) with
  | None => Err (ErrNotLocal r proposerID)
  | Some (localIdx, _) =>
      report ← driveScriptedRound (rv_runner v r localIdx) (rv_elapsed v r) r (Attempts s) (rv_stream v r localIdx);
      _ ← check_report r s report;
      _ ← wait_all (Z.of_nat (S r)) (rv_after v r) n;
      if ExpectAutoFold s then check_folded r proposerSeat (rv_logs v r) else Ok tt
  end.

(** The dispatcher's rules, or the defaults. *)
Definition session_scripts (sc : SessionConfig) : list roundScript :=
  scripts (if TimeoutInterval sc <=? 0 then 30 * second else TimeoutInterval sc)
    (if MaxAttempts sc =? 0 then 3 else MaxAttempts sc).

(** [numRounds] is cut to the number of scripts. *)
Definition play_rounds (v : RoundsView) (order : list string) (sc : SessionConfig) (numRounds : Z) : res rounds_err unit :=
  foldM (λ _ '(r, s), play_round v order r s) (imap pair (take (Z.to_nat numRounds) (session_scripts sc))) tt.

(** ** The whole simulation *)

Inductive sim_call :=
| CKeygen (i : nat) | CNew (i : nat) | CAttach (i : nat) | CHeartbeat (i : nat) | CServe (i : nat) (addr : string)
| CCreate (sessionID : string) | CJoin (i : nat) (sessionID : string) | CConnect (i : nat)
| CStartGame | CWaitStart (i : nat)
| CRun (i : nat) | CAwaitRunner (i : nat) | CCancel | CJoinRunners
| CClose (i : nat).

(** Which calls succeed; the id under which the session was created; what the
    rounds see, given the calls so far. *)
Record sim_answers := mkAnswers {
  sa_ok : sim_call → bool;
  sa_session : string;
  sa_config : SessionConfig;
  sa_view : RoundsView;
}.

(** Calls are recorded in the order they are made, in every case. *)
Abbreviation traced A := (list sim_call * res rounds_err A)%type.

Definition tbind {A B} (m : traced A) (f : A → traced B) : traced B :=
  match m with
  | (t, Ok a) => let '(t', r) := f a in (t ++ t', r)
  | (t, Err e) => (t, Err e)
  | (t, Panic) => (t, Panic)
  end.

#[local] Notation "'let+' x := p 'in' q" := (tbind p (λ x, q))
  (at level 10, x pattern, p at level 100, q at level 200).

(** [defer]: the calls [cs] are made when the body returns. *)
Definition deferring {A} (cs : list sim_call) (m : traced A) : traced A := (m.1 ++ cs, m.2).

Definition quiet {A} (m : res rounds_err A) : traced A := ([], m).

Section run.
Context `{GoRuntime} (ans : sim_answers).

Definition try_call (c : sim_call) (e : rounds_err) : traced unit := ([c], if sa_ok ans c then Ok tt else Err e).
Definition do_call (c : sim_call) : traced unit := ([c], Ok tt).

Fixpoint for_each (f : nat → traced unit) (is_ : list nat) : traced unit :=
  match is_ with
  | [] => ([], Ok tt)
  | i :: is_ => let+ _ := f i in for_each f is_
  end.

(** The checks and the default of [RunRounds]. *)
Definition check_config (cfg : RoundsConfig) : res rounds_err RoundsConfig :=
  if decide (RDispatchAddr cfg = EmptyString) then Err ErrDispatchAddr
  else if RNumNodes cfg <? 2 then Err ErrFewNodes
  else if NumRounds cfg <=? 0 then Err ErrNoRounds
  else if decide (RSessionID cfg = EmptyString) then
    Ok (mkRoundsConfig (RDispatchAddr cfg) (RNumNodes cfg) "sim-session" (NumRounds cfg) (RPCBaseAddr cfg))
  else Ok cfg.

Definition attach_node (cfg : RoundsConfig) (rpcHost : string) (rpcBasePort : Z) (i : nat) : traced unit :=
  let+ _ := try_call (CKeygen i) (ErrNodeKeygen i) in
  let+ _ := try_call (CNew i) (ErrNodeNew i) in
  let+ _ := try_call (CAttach i) (ErrNodeAttach i) in
  let+ _ := do_call (CHeartbeat i) in
  if decide (RPCBaseAddr cfg = EmptyString) then quiet (Ok tt)
  else do_call (CServe i (rpc_addr rpcHost rpcBasePort (Z.of_nat i))).

(** From the session to the start of the game. *)
Definition open_session (cfg : RoundsConfig) (n : nat) : traced unit :=
  let+ _ := try_call (CCreate (RSessionID cfg)) ErrCreateSession in
  let+ _ := for_each (λ i, try_call (CJoin i (sa_session ans)) (ErrJoin i)) (seq 1 (n - 1)) in
  let+ _ := for_each (λ i, try_call (CConnect i) (ErrConnectPeers i)) (seq 0 n) in
  let+ _ := try_call CStartGame ErrStartGame in
  for_each (λ i, try_call (CWaitStart i) ErrContext) (seq 0 n).

(** The seating that the dispatcher makes. *)
Definition sim_order : list string := sort_slice string_less (rv_ids (sa_view ans)).

Definition run_session (cfg : RoundsConfig) (n : nat) : traced unit :=
  let+ _ := open_session cfg n in
  deferring [CCancel] (
    let+ _ := for_each (λ i, do_call (CRun i)) (seq 0 n) in
    let+ _ := for_each (λ i, try_call (CAwaitRunner i) ErrContext) (seq 0 n) in
    let+ _ := quiet (play_rounds (sa_view ans) sim_order (sa_config ans) (NumRounds cfg)) in
    let+ _ := do_call CCancel in
    do_call CJoinRunners).

Definition RunRounds (cfg : RoundsConfig) : traced unit :=
  let+ cfg := quiet (check_config cfg) in
  let+ (rpcHost, rpcBasePort) := quiet (wrap_err ErrRPCBase (parseRPCBase (RPCBaseAddr cfg))) in
  let n := Z.to_nat (RNumNodes cfg) in
  let+ _ := for_each (attach_node cfg rpcHost rpcBasePort) (seq 0 n) in
  deferring (CClose <$> seq 0 n) (run_session cfg n).

End run.

(** [simLog] on the buses of the nodes that exist. *)
Definition sim_log (now : Z) (msg : string) (nodes : list (option (string * string * Bus)))
    : list (option (string * string * Bus)) :=
  (λ o, match o with
        | None => None
        | Some (id, session, b) =>
            Some (id, session, Emit now id session (mkBusEvent None "" "" "sim" "sim" msg ∅ ∅) b)
        end) <$> nodes.
