(* ===== verification/RoundsProofs.v ===== *)
(** * The round simulation: supporting lemmas *)

From Stdlib Require Import ZArith Lia.
From stdpp Require Import base list gmap strings numbers.
From S2P Require Import Prelude Runtime Strconv HostPort Ephemeral Deck Net Peer Dispatch GameState GameStateProofs GameLog.
From S2P Require Import Showdown GameLogProofs GameLogProps Runner RunnerProofs Events Rounds.

#[local] Open Scope Z_scope.

(** ** Events *)

(** What the harness compares of an event. *)
Definition shape (ev : AttemptEvent) : expectedEvent := mkExpected (EvAttempt ev) (EvOutcome ev).

Lemma events_match_spec got want i :
  length got = length want → events_match got want i = None ↔ shape <$> got = want.
Proof.
  revert want i. induction got as [|g got IH]; intros [|w want] i Hlen; try done. cbn.
  injection Hlen as Hlen. destruct w as [a o]. cbn. case_bool_decide as Ha; cbn.
  { split; [done|]. intros [= H1 H2 H3]. done. }
  case_bool_decide as Ho; cbn; [split; [done|]; intros [= H1 H2 H3]; done|].
  rewrite IH by done. unfold shape at 2. rewrite Ha, Ho.
  split; [by intros ->|by intros [= ->]].
Qed.

Lemma verify_events_spec got want : verifyExpectedEvents got want = None ↔ shape <$> got = want.
Proof.
  unfold verifyExpectedEvents, len. destruct (Z.eqb_spec (Z.of_nat (length got)) (Z.of_nat (length want))) as [Hlen|Hlen]; cbn.
  - apply events_match_spec. lia.
  - split; [done|]. intros <-. by rewrite length_fmap in Hlen.
Qed.

(** Events of other rounds make no difference. *)
Abbreviation of_round r := (λ ev : AttemptEvent, EvRoundID ev = Z.of_nat r).

Lemma next_event_filter r stream :
  match nextRoundEvent (Z.of_nat r) stream with
  | None => filter (of_round r) stream = []
  | Some (ev, rest) => filter (of_round r) stream = ev :: filter (of_round r) rest
  end.
Proof.
  induction stream as [|ev stream IH]; [done|]. cbn [nextRoundEvent].
  destruct (Z.eqb_spec (EvRoundID ev) (Z.of_nat r)) as [He|He].
  - by rewrite filter_cons_True.
  - by rewrite filter_cons_False.
Qed.

Lemma filter_own r (evs : list AttemptEvent) : Forall (of_round r) evs → filter (of_round r) evs = evs.
Proof. induction 1 as [|ev evs Hev _ IH]; [done|]. by rewrite filter_cons_True, IH. Qed.

Lemma filter_idemp r (stream : list AttemptEvent) : filter (of_round r) (filter (of_round r) stream) = filter (of_round r) stream.
Proof. apply filter_own, list.Forall_forall. by intros ev [? _]%list_elem_of_filter. Qed.

Lemma next_event_nil r ev rest : EvRoundID ev = Z.of_nat r → nextRoundEvent (Z.of_nat r) (ev :: rest) = Some (ev, rest).
Proof. intros He. cbn. by rewrite (proj2 (Z.eqb_eq _ _)). Qed.

Section drive.
Context (runner : nat → Runner) (elapsed : Z) (r : nat).

Lemma drain_filter stream events : drain elapsed r stream events = drain elapsed r (filter (of_round r) stream) events.
Proof.
  revert events. induction stream as [|ev stream IH]; intros events; [done|]. rewrite filter_cons. cbn [drain].
  destruct (Z.eqb_spec (EvRoundID ev) (Z.of_nat r)) as [He|He]; case_decide; try done.
  cbn [drain]. rewrite (proj2 (Z.eqb_eq _ _)) by done. by rewrite IH.
Qed.

Lemma drive_filter attempts k a stream events :
  drive runner elapsed r attempts k a stream events = drive runner elapsed r attempts k a (filter (of_round r) stream) events.
Proof.
  revert k a stream events. induction attempts as [|x attempts IH]; intros k a stream events; cbn [drive]; [apply drain_filter|].
  destruct (SubmitAction x (runner k)) as [?|[]|]; try done.
  pose proof (next_event_filter r stream) as Hn.
  destruct (nextRoundEvent (Z.of_nat r) stream) as [[ev rest]|]; rewrite Hn; [|done].
  assert (EvRoundID ev = Z.of_nat r) as He.
  { assert (ev ∈ filter (of_round r) stream) as [? _]%list_elem_of_filter by (rewrite Hn; left). done. }
  rewrite next_event_nil by done. case_match; [done|]. rewrite IH. symmetry. rewrite IH, filter_idemp. done.
Qed.

(** Events that are not terminal are collected up to the terminal one. *)
Lemma drain_collects pre ev rest events :
  Forall (λ x, EvRoundID x = Z.of_nat r ∧ terminal x = false) pre → EvRoundID ev = Z.of_nat r → terminal ev = true →
  drain elapsed r (pre ++ ev :: rest) events = Ok (mkReport (EvOutcome ev) (events ++ pre ++ [ev]) elapsed).
Proof.
  intros Hpre He Ht. revert events. induction Hpre as [|x pre [Hx Hxt] _ IH]; intros events; cbn [drain app].
  - by rewrite (proj2 (Z.eqb_eq _ _)), Ht by done.
  - rewrite (proj2 (Z.eqb_eq _ _)), Hxt by done. rewrite IH, <- app_assoc. done.
Qed.

End drive.

(** ** A round in which the proposer stalls *)

(** What its runner publishes: a timeout per attempt, then the auto-fold. *)
Definition timeout_events (roundID maxAttempts : Z) : list AttemptEvent :=
  (λ a, mkEvent roundID a "timeout" NoLegalAction) <$> seqZ 0 maxAttempts.

Definition emit_all (evs : list AttemptEvent) (r : Runner) : Runner := foldl (λ r ev, emit ev r) r evs.

Lemma emit_all_log evs r : rlog (emit_all evs r) = rlog r ∧ same_setup r (emit_all evs r).
Proof.
  unfold emit_all. revert r. induction evs as [|ev evs IH]; intros r; [done|]. cbn.
  destruct (IH (emit ev r)) as [H1 H2]. rewrite H1. split; [done|]. by etrans; [apply emit_setup|].
Qed.

Lemma emit_all_published evs r :
  Forall (λ ev, EvOutcome ev ≠ "committed"%string) evs → published (emit_all evs r) = published r ++ ((λ ev, (ev, [])) <$> evs).
Proof.
  unfold emit_all. intros Hall. revert r. induction Hall as [|ev evs Hev _ IH]; intros r; cbn; [by rewrite app_nil_r|].
  rewrite IH. cbn. unfold commit_fields. rewrite decide_False by done. by rewrite <- app_assoc.
Qed.

Section stalled.
Context `{C : SigScheme} `{L : !SigLaws C} `{CE : Codec Entry} `{EL : !EntryCodecLaws}.
Context `{CR : Codec VerifyReceipt} `{SC : Schedule} `{SL : !ScheduleLaws}.
Context (np stack : Z) (Ht : table np stack) (Hnp : 2 ≤ np) (remote : oracle).

Lemma stalled_attempts env r rid att n :
  currentRole r = Ok RoleProposer → (∀ a, received env rid a = [] ∧ ctx_ended env rid a = false) →
  result remote (attempts_loop env r rid att n) =
    Ok (inr (emit_all ((λ a, mkEvent rid a "timeout" NoLegalAction) <$> seqZ att (Z.of_nat n)) r)).
Proof.
  intros Hrole Henv. revert r att Hrole. induction n as [|n IH]; intros r att Hrole; [done|].
  cbn [attempts_loop]. unfold rbind at 1. rewrite result_bind. unfold runAttempt, rbind at 1.
  rewrite result_bind. cbn [lift result]. rewrite Hrole. destruct (Henv att) as [-> ->]. cbn [runProposerAttempt result].
  rewrite cleanup_result. rewrite IH by done.
  rewrite (seqZ_cons att (Z.of_nat (S n))) by lia.
  replace (Z.succ att) with (att + 1) by lia. by replace (Z.pred (Z.of_nat (S n))) with (Z.of_nat n) by lia.
Qed.

(** Whatever the peers answer. *)
Lemma stalled_round env r :
  runner_ok np stack r → currentRole r = Ok RoleProposer → 0 ≤ cfgMaxAttempts (rcfg r) →
  (∀ a, received env (Log_RoundID (rlog r)) a = [] ∧ ctx_ended env (Log_RoundID (rlog r)) a = false) →
  total (result remote (runRound env r)) (λ x, ∃ why,
    published x.1 = published r ++ ((λ ev, (ev, [])) <$>
      timeout_events (Log_RoundID (rlog r)) (cfgMaxAttempts (rcfg r)) ++ [mkEvent (Log_RoundID (rlog r)) 0 "auto_fold" why])).
Proof using L Ht Hnp SL.
  intros Hr Hrole Hmax Henv. unfold runRound.
  eapply total_rbind; [apply (expected_total np stack Ht Hnp), Hr|]. intros target Htg.
  unfold rbind at 1. rewrite result_bind, stalled_attempts by done. rewrite Z2Nat.id by done.
  set (evs := _ <$> _). destruct (emit_all_log evs r) as [Hlog Hss]. set (r1 := emit_all evs r) in *.
  assert (runner_ok np stack r1) as Hr1 by (eapply runner_ok_setup; [done|done|]; rewrite Hlog; apply Hr).
  assert (published r1 = published r ++ ((λ ev, (ev, [])) <$> evs)) as Hpub.
  { apply emit_all_published. apply list.Forall_forall. intros ev (a & -> & _)%list_elem_of_fmap. done. }
  rewrite <- Hlog. eapply total_rbind; [by apply (driveAutoFold_total np stack)|].
  intros [r2 err] ([_ Heq] & _). cbn in Heq. rewrite Hlog.
  destruct err; apply total_Ok; (eexists; rewrite Heq; cbn -[evs]; rewrite Hpub, <- app_assoc, fmap_app; done).
Qed.

End stalled.
