(* ===== verification/RoundsProps.v ===== *)
(** * The round simulation: theorems *)

From Stdlib Require Import ZArith Lia.
From stdpp Require Import base list gmap strings numbers.
From S2P Require Import Prelude Runtime Strconv HostPort Ephemeral Deck Net Peer Dispatch GameState GameStateProofs GameLog.
From S2P Require Import Showdown GameLogProofs GameLogProps Runner RunnerProofs RunnerProps Events Rounds RoundsProofs.

#[local] Open Scope Z_scope.

(** ** A stalling proposer *)

Section stalled.
Context `{C : SigScheme} `{L : !SigLaws C} `{CE : Codec Entry} `{EL : !EntryCodecLaws}.
Context `{CR : Codec VerifyReceipt} `{SC : Schedule} `{SL : !ScheduleLaws}.

(** C23: The simulation's auto-fold script is what a runner does.  Whatever the
    other nodes answer, a proposer that is only given an illegal action ends its
    round; and when its event channel delivers what it published, among events
    of other rounds, the harness reports "auto_fold" with exactly the events the
    script expects: the rejection, one timeout per attempt, the auto-fold. *)
Theorem stalled_round_reported np stack remote store env r rid a e elapsed :
  table np stack → 2 ≤ np → runner_ok np stack r → currentRole r = Ok RoleProposer →
  0 ≤ cfgMaxAttempts (rcfg r) → Log_RoundID (rlog r) = Z.of_nat rid →
  (∀ att, received env (Z.of_nat rid) att = [] ∧ ctx_ended env (Z.of_nat rid) att = false) →
  SubmitAction a r = Err (ErrIllegalAction e) →
  ∃ store' r' err evs, exec remote store (runRound env r) = (store', Ok (r', err)) ∧
    published r' = published r ++ ((λ ev, (ev, [])) <$> evs) ∧
    ∀ stream, filter (λ ev, EvRoundID ev = Z.of_nat rid) stream = evs →
      ∃ report, driveScriptedRound (λ _, r) elapsed rid [a] stream = Ok report ∧
        ROutcome report = "auto_fold"%string ∧
        verifyExpectedEvents (REvents report) (expectedAutoFoldEvents (cfgMaxAttempts (rcfg r)) true) = None.
Proof using L SL.
  intros Ht Hnp Hr Hrole Hmax Hrid Henv Ha.
  destruct (stalled_round np stack Ht Hnp remote env r Hr Hrole Hmax) as ([r' err] & Hres & why & Hpub);
    [by rewrite Hrid|]. rewrite Hrid in Hpub. cbn [fst] in Hpub.
  pose proof (exec_result remote store (runRound env r)) as Hex. rewrite Hres in Hex.
  destruct (exec remote store (runRound env r)) as [store' x]. cbn in Hex. subst x.
  do 4 eexists. split; [done|]. split; [exact Hpub|]. intros stream Hs.
  unfold driveScriptedRound. rewrite drive_filter, Hs. cbn [drive]. rewrite Ha.
  rewrite drain_collects; [|by (apply list.Forall_forall; intros ev (t & -> & _)%list_elem_of_fmap)|done|done].
  eexists. split; [done|]. split; [done|]. apply verify_events_spec. cbn [REvents app].
  unfold expectedAutoFoldEvents, timeout_events. cbn. f_equal. rewrite fmap_app. cbn. f_equal.
  by rewrite <- list_fmap_compose.
Qed.

End stalled.

(** ** The script *)

(** Two logs with the same moves at the same table are the same to the rules. *)
Record same_moves (l l' : Log) : Prop := {
  sm_players : numPlayers l = numPlayers l';
  sm_stack : startingStack l = startingStack l';
  sm_moves : (λ e, (PlayerID e, EAction e)) <$> entries l = (λ e, (PlayerID e, EAction e)) <$> entries l';
}.

#[export] Instance same_moves_equiv : Equivalence same_moves.
Proof.
  split; [done|by intros l l' [? ? ?]|]. intros l1 l2 l3 [] []. constructor; congruence.
Qed.

Lemma replay_loop_moves es es' s u :
  (λ e, (PlayerID e, EAction e)) <$> es = (λ e, (PlayerID e, EAction e)) <$> es' → replay_loop es s u = replay_loop es' s u.
Proof.
  revert es' s u. induction es as [|e es IH]; intros [|e' es'] s u; cbn; try done. intros [= Hp Ha Hrest].
  destruct (HandOver s); [done|]. unfold replay_action. rewrite Hp, Ha.
  match goal with |- (?m ≫= _) = _ => destruct m as [[s1 u1]| |]; [|done|done] end. cbn.
  destruct (replay_close s1 u1). by apply IH.
Qed.

Lemma Log_Replay_moves l l' : same_moves l l' → Log_Replay l = Log_Replay l'.
Proof.
  intros [Hn Hs Hm]. unfold Log_Replay, Replay. by rewrite Hn, Hs, (replay_loop_moves _ _ _ _ Hm).
Qed.

Lemma next_player_moves l l' : same_moves l l' → ExpectedNextPlayer l = ExpectedNextPlayer l'.
Proof.
  intros Hsm. pose proof Hsm as [Hn Hs Hm]. unfold ExpectedNextPlayer, Log_RoundID, len. rewrite (Log_Replay_moves _ _ Hsm), Hn.
  apply (f_equal length) in Hm. rewrite !length_fmap in Hm. by rewrite Hm.
Qed.

Lemma append_moves l l' e e' :
  same_moves l l' → PlayerID e = PlayerID e' → EAction e = EAction e' → same_moves (Append l e) (Append l' e').
Proof. intros [Hn Hs Hm] Hp Ha. constructor; cbn; [done|done|]. rewrite !fmap_app, Hm. cbn. by rewrite Hp, Ha. Qed.

(** What the rules say about a script at a log: the report of the round, and
    the move that is committed. *)
Definition fold_move : Action := mkAction ActionFold 0.
Definition committed_ev (r : nat) : AttemptEvent := mkEvent (Z.of_nat r) 0 "committed" NoReason.
Definition stalled_evs (r : nat) (max : Z) : list AttemptEvent :=
  timeout_events (Z.of_nat r) max ++ [mkEvent (Z.of_nat r) 0 "auto_fold" NoReason].
Definition rejected_ev (r : nat) (e : validate_err) : AttemptEvent :=
  mkEvent (Z.of_nat r) 0 "rejected" (Refused (IllegalAction e)).

Section predict.
Context (max : Z) (elapsed : nat → Z).

Fixpoint predict_drive (s : State) (p : Z) (r : nat) (attempts : list Action) (events : list AttemptEvent)
    : res rounds_err (roundReport * Action) :=
  match attempts with
  | [] =>
      if HandOver s then Err ErrContext
      else Ok (mkReport "auto_fold" (events ++ stalled_evs r max) (elapsed r), fold_move)
  | a :: attempts =>
      match ValidateAction s p a with
      | Ok _ => Ok (mkReport "committed" (events ++ [committed_ev r]) (elapsed r), a)
      | Err e => predict_drive s p r attempts (events ++ [rejected_ev r e])
      | Panic => Panic
      end
  end.

(** [n] is the number of replicas, which agree. *)
Definition predict_round (n : nat) (l : Log) (r : nat) (s : roundScript) : res rounds_err Log :=
  p ← no_err (ExpectedNextPlayer l);
  _ ← idx (replicate n tt) p;
  state ← no_err (Log_Replay l);
  '(report, a) ← predict_drive state p r (Attempts s) [];
  _ ← check_report r s report;
  let l' := Append l (mkEntry (Log_RoundID l) p a [] [] [] []) in
  _ ← (if ExpectAutoFold s then check_folded r p (replicate n l') else Ok tt);
  Ok l'.

Definition predict_rounds (n : nat) (l : Log) (ss : list (nat * roundScript)) : res rounds_err Log :=
  foldM (λ l '(r, s), predict_round n l r s) ss l.

End predict.

(** A round of honest nodes, as the harness sees it.  The proposer's channel
    is free when an action is submitted; the first legal action is committed
    in the first attempt, and without one the proposer is folded after [max]
    timeouts; nothing happens once the hand is over. *)
Definition is_legal (st : State) (p : Z) (a : Action) : bool :=
  match ValidateAction st p a with Ok _ => true | _ => false end.

Definition round_evs (max : Z) (st : State) (p : Z) (r : nat) (attempts : list Action) : list AttemptEvent :=
  if HandOver st then []
  else match find (is_legal st p) attempts with Some _ => [committed_ev r] | None => stalled_evs r max end.

Record honest_round (v : RoundsView) (order : list string) (max : Z) (r : nat) (s : roundScript) (l l' : Log) : Prop := {
  hr_log0 : rv_log0 v r = l;
  hr_before : ∀ i, (i < length (rv_ids v))%nat → ∃ x, x ∈ rv_before v r i ∧ Z.of_nat r ≤ x;
  hr_runner : ∀ i k id p, rv_ids v !! i = Some id → order !! Z.to_nat p = Some id → ExpectedNextPlayer l = Ok p →
    rlog (rv_runner v r i k) = l ∧ SeatIdx (rnode (rv_runner v r i k)) = p ∧ actionCh (rv_runner v r i k) = None;
  hr_stream : ∀ i id p st, rv_ids v !! i = Some id → order !! Z.to_nat p = Some id → ExpectedNextPlayer l = Ok p →
    Log_Replay l = Ok st →
    filter (λ ev, EvRoundID ev = Z.of_nat r) (rv_stream v r i) = round_evs max st p r (Attempts s);
  hr_next : ∀ p st, ExpectedNextPlayer l = Ok p → Log_Replay l = Ok st → HandOver st = false →
    ∃ e, l' = Append l e ∧ PlayerID e = p ∧ EAction e = default fold_move (find (is_legal st p) (Attempts s));
  hr_after : ∀ st, Log_Replay l = Ok st → HandOver st = false →
    (∀ i, (i < length (rv_ids v))%nat → ∃ x, x ∈ rv_after v r i ∧ Z.of_nat (S r) ≤ x) ∧
    length (rv_logs v r) = length (rv_ids v) ∧ Forall (same_moves l') (rv_logs v r);
}.

Lemma wait_ok target samples : (∃ x, x ∈ samples ∧ target ≤ x) → waitForRound target samples = Ok tt.
Proof.
  intros (x & Hin & Hx). induction samples as [|y samples IH]; [by apply elem_of_nil in Hin|]. cbn.
  destruct (Z.leb_spec target y); [done|]. apply elem_of_cons in Hin as [->|Hin]; [lia|auto].
Qed.

Lemma wait_all_ok target polls n : (∀ i, (i < n)%nat → ∃ x, x ∈ polls i ∧ target ≤ x) → wait_all target polls n = Ok tt.
Proof.
  intros Hall. unfold wait_all. assert (Forall (λ i, i < n)%nat (seq 0 n)) as Hf
    by (apply list.Forall_forall; intros i Hi%elem_of_seq; lia).
  induction Hf as [|i is_ Hi _ IH]; [done|]. cbn. rewrite wait_ok by auto. cbn. apply IH.
Qed.

Section drive.
Context (runner : nat → Runner) (elapsed : nat → Z) (max : Z) (r : nat) (l : Log) (p : Z) (st : State).
Context (Hp : 0 ≤ p < 256) (Hnext : ExpectedNextPlayer l = Ok p) (Hst : Log_Replay l = Ok st).
Context (Hrunner : ∀ k, rlog (runner k) = l ∧ SeatIdx (rnode (runner k)) = p ∧ actionCh (runner k) = None).

Lemma submit_judges a k :
  match ValidateAction st p a with
  | Ok _ => ∃ r', SubmitAction a (runner k) = Ok r'
  | Err e => SubmitAction a (runner k) = Err (ErrIllegalAction e)
  | Panic => SubmitAction a (runner k) = Panic
  end.
Proof using Hp Hnext Hst Hrunner.
  destruct (Hrunner k) as (Hl & Hs & Hc). unfold SubmitAction, currentRole. rewrite Hl, Hs, Hnext, Hst, Hc.
  rewrite u8_small by lia. cbn. rewrite Z.eqb_refl. cbn.
  destruct (ValidateAction st p a); cbn; eauto.
Qed.

Lemma drive_predicted attempts k events :
  drive runner (elapsed r) r attempts k 0 (round_evs max st p r attempts) events =
    (x ← predict_drive max elapsed st p r attempts events; Ok x.1).
Proof using Hp Hnext Hst Hrunner.
  revert k events. induction attempts as [|a attempts IH]; intros k events; cbn [drive predict_drive]; unfold round_evs.
  - destruct (HandOver st); [done|]. cbn [find]. unfold stalled_evs.
    by rewrite drain_collects; [|apply list.Forall_forall; intros ev (t & -> & _)%list_elem_of_fmap|..].
  - pose proof (submit_judges a k) as Hsub. cbn [find].
    change (is_legal st p a) with (match ValidateAction st p a with Ok _ => true | _ => false end).
    destruct (ValidateAction st p a) as [[]|e|] eqn:Hv; [|by rewrite Hsub; apply IH|by rewrite Hsub].
    destruct Hsub as [r' ->]. assert (HandOver st = false) as ->.
    { destruct (HandOver st) eqn:Ho; [|done]. unfold ValidateAction in Hv. by rewrite Ho in Hv. }
    rewrite next_event_nil by done. done.
Qed.

Lemma predict_drive_action attempts events report a :
  predict_drive max elapsed st p r attempts events = Ok (report, a) →
  HandOver st = false ∧ a = default fold_move (find (is_legal st p) attempts).
Proof.
  revert events. induction attempts as [|b attempts IH]; intros events; cbn [predict_drive find].
  - destruct (HandOver st) eqn:Ho; [done|]. intros [= _ <-]. done.
  - change (is_legal st p b) with (match ValidateAction st p b with Ok _ => true | _ => false end).
    destruct (ValidateAction st p b) as [[]|e|] eqn:Hv; [|apply IH|done].
    intros [= _ <-]. split; [|done]. destruct (HandOver st) eqn:Ho; [|done]. unfold ValidateAction in Hv. by rewrite Ho in Hv.
Qed.

End drive.

Lemma foldM_Forall2 {E S A B} (f : S → A → res E S) (g : S → B → res E S) l1 l2 s :
  Forall2 (λ a b, ∀ s, f s a = g s b) l1 l2 → foldM f l1 s = foldM g l2 s.
Proof.
  intros Hall. revert s. induction Hall as [|a b l1 l2 Hab _ IH]; intros s; [done|]. cbn. rewrite Hab.
  destruct (g s b); [apply IH|done..].
Qed.

Lemma check_folded_moves r p l logs :
  Forall (same_moves l) logs → check_folded r p logs = check_folded r p (replicate (length logs) l).
Proof.
  intros Hall. apply foldM_Forall2, Forall2_same_length_lookup_2; [by rewrite !length_imap, length_replicate|].
  intros i x y Hx Hy _. rewrite list_lookup_imap in Hx, Hy.
  destruct (logs !! i) as [l1|] eqn:H1; [|done]. injection Hx as <-.
  rewrite lookup_replicate_2 in Hy by (by eapply lookup_lt_Some). injection Hy as <-.
  by rewrite (Log_Replay_moves l l1) by (by eapply (Forall_lookup_1 _ _ _ _ Hall)).
Qed.

Lemma list_find_id (ids : list string) i id : NoDup ids → ids !! i = Some id → list_find (λ x, x = id) ids = Some (i, id).
Proof.
  intros Hnd Hi. apply list_find_Some. split_and!; [done|done|]. intros j y Hj Hlt ->.
  pose proof (NoDup_lookup _ _ _ _ Hnd Hi Hj). lia.
Qed.

Section table.
Context (v : RoundsView) (order : list string) (max : Z).
Context (Hnd : NoDup (rv_ids v)) (Hperm : order ≡ₚ rv_ids v) (Hsmall : (length (rv_ids v) ≤ 255)%nat).

(** One round as the harness plays it is the round the rules predict. *)
Lemma play_round_predicted r s l l' lp :
  honest_round v order max r s l l' → same_moves l lp → numPlayers lp ≠ 0 →
  play_round v order r s =
    (_ ← predict_round max (rv_elapsed v) (length (rv_ids v)) lp r s; Ok tt) ∧
  ∀ lp', predict_round max (rv_elapsed v) (length (rv_ids v)) lp r s = Ok lp' → same_moves l' lp' ∧ numPlayers lp' = numPlayers lp.
Proof using Hnd Hperm Hsmall.
  intros [H0 Hbefore Hrun Hstr Hnext Hafter] Hsm Hnp.
  unfold play_round, predict_round. rewrite (wait_all_ok (Z.of_nat r)) by done. rewrite H0. cbn [mbind res_bind].
  rewrite (next_player_moves l lp) in * by done. rewrite (Log_Replay_moves l lp) in * by done.
  destruct (ExpectedNextPlayer lp) as [p|[]|] eqn:Hp; cbn [no_err wrap_err mbind res_bind]; [|by split].
  assert (length order = length (rv_ids v)) as Hlen by (by rewrite Hperm).
  assert (0 ≤ p < Z.of_nat (length (rv_ids v)) ∨ ∀ A (xs : list A), length xs = length (rv_ids v) → idx (E:=rounds_err) xs p = Panic) as [Hr|Hout].
  { destruct (decide (0 ≤ p < Z.of_nat (length (rv_ids v)))) as [|Hn]; [by left|]. right. intros A xs Hxs.
    unfold idx. case_decide; [|done]. by rewrite (lookup_ge_None_2 xs) by lia. }
  2: { rewrite (Hout _ order Hlen), (Hout _ (replicate _ tt)) by (by rewrite length_replicate). by split. }
  destruct (idx_in_range (E:=rounds_err) order p) as (id & Hid & ->); [by rewrite Hlen|].
  destruct (idx_in_range (E:=rounds_err) (replicate (length (rv_ids v)) tt) p) as ([] & _ & ->); [by rewrite length_replicate|].
  cbn [mbind res_bind]. destruct (Log_Replay lp) as [st|[]|] eqn:Hst; cbn [no_err wrap_err mbind res_bind].
  2: { exfalso. unfold ExpectedNextPlayer in Hp. rewrite (proj2 (Z.eqb_neq _ _)), Hst in Hp by done. done. }
  assert (id ∈ rv_ids v) as [i Hi]%list_elem_of_lookup_1 by (rewrite <- Hperm; by eapply list_elem_of_lookup_2).
  rewrite (list_find_id _ i id) by done. unfold driveScriptedRound. rewrite drive_filter, (Hstr i id p st) by done.
  rewrite (drive_predicted _ _ _ r l p st ltac:(lia)); [|by rewrite (next_player_moves l lp)|by rewrite (Log_Replay_moves l lp)|
    intros k; by apply (Hrun i k id p)].
  destruct (predict_drive max (rv_elapsed v) st p r (Attempts s) []) as [[report a]|e|] eqn:Hpd; cbn [mbind res_bind]; [|by split..].
  apply predict_drive_action in Hpd as [Ho Ha]. cbn [fst].
  destruct (check_report r s report) as [[]|e|]; cbn [mbind res_bind]; [|by split..].
  destruct (Hafter st eq_refl Ho) as (Hwait & Hlogs & Hall). destruct (Hnext p st eq_refl eq_refl Ho) as (e & -> & Hep & Hea).
  rewrite wait_all_ok by done. cbn [mbind res_bind]. set (lp' := Append lp _).
  assert (same_moves (Append l e) lp') as Hsm' by (apply append_moves; [done|done|by rewrite Hea, Ha]).
  assert (check_folded r p (rv_logs v r) = check_folded r p (replicate (length (rv_ids v)) lp')) as ->.
  { rewrite <- Hlogs. apply check_folded_moves. eapply list.Forall_impl; [exact Hall|]. intros x Hx. by rewrite <- Hsm'. }
  split.
  - destruct (ExpectAutoFold s); [|done]. by destruct (check_folded _ _ _) as [[]| |].
  - intros x. destruct (if ExpectAutoFold s then _ else _) as [[]| |]; [|done..]. cbn. intros [= <-]. done.
Qed.

(** The rounds, one after the other. *)
Lemma play_rounds_predicted ss ls lp :
  (∀ r s, (r, s) ∈ ss → honest_round v order max r s (ls r) (ls (S r))) →
  (∀ j r s, ss !! j = Some (r, s) → ∃ r0 s0, ss !! 0%nat = Some (r0, s0) ∧ r = (r0 + j)%nat) →
  (∀ r s, head ss = Some (r, s) → same_moves (ls r) lp) → numPlayers lp ≠ 0 →
  foldM (λ _ '(r, s), play_round v order r s) ss tt =
    (_ ← predict_rounds max (rv_elapsed v) (length (rv_ids v)) lp ss; Ok tt).
Proof using Hnd Hperm Hsmall.
  revert lp. induction ss as [|[r s] ss IH]; intros lp Hall Hseq Hhead Hnp; [done|]. cbn.
  destruct (play_round_predicted r s (ls r) (ls (S r)) lp) as [-> Hnext]; [apply Hall; left|by eapply Hhead|done|].
  destruct (predict_round _ _ _ lp r s) as [lp'|e|]; cbn; [|done|done].
  destruct (Hnext lp' eq_refl) as [Hsm Hn]. apply IH.
  - intros r' s' Hin. apply Hall. by right.
  - intros j r' s' Hj. destruct (Hseq (S j) r' s' Hj) as (r0 & s0 & [= <- <-] & ->).
    destruct ss as [|[r1 s1] ss]; [done|]. exists r1, s1. split; [done|].
    destruct (Hseq 1%nat r1 s1 eq_refl) as (r0 & s0 & [= <- <-] & ->). lia.
  - intros r' s' Hh. destruct ss as [|[r1 s1] ss]; [done|]. injection Hh as -> ->.
    destruct (Hseq 1%nat r' s' eq_refl) as (r0 & s0 & [= <- <-] & ->). by rewrite Nat.add_1_r.
  - by rewrite Hn.
Qed.

End table.

(** The rules in force, as [RunRounds] reads them. *)
Definition rule_attempts (sc : SessionConfig) : Z := if MaxAttempts sc =? 0 then 3 else MaxAttempts sc.

(** The duration of a round is within what the script allows. *)
Definition in_time (s : roundScript) (d : Z) : Prop :=
  (0 < ExpectedDurationMin s → ExpectedDurationMin s ≤ d) ∧ (0 < ExpectedDurationMax s → d ≤ ExpectedDurationMax s).

(** The first five scripts are the same under all rules. *)
Definition five : list (nat * roundScript) := imap pair (take 5 (scripts 0 0)).
Definition log5 : Log :=
  Eval vm_compute in match predict_rounds 0 (λ _, 0) 4 (NewLog 4 2000) five with Ok l => l | _ => NewLog 4 2000 end.

Definition state5 : State := Eval vm_compute in ok_or (initial_state 4 2000) (Log_Replay log5).

Lemma five_rounds n max el : (2 ≤ n ≤ 23)%nat →
  match predict_rounds max el n (NewLog (Z.of_nat n) 2000) five with
  | Ok l => n = 4%nat ∧ l = log5
  | Err _ => n ≠ 4%nat
  | Panic => False
  end.
Proof.
  intros Hn. do 24 (destruct n as [|n]; [try (exfalso; lia); vm_compute; done|]). lia.
Qed.

Lemma last_round sc el :
  let s := mkScript [mkAction ActionRaise 1000000] true (expectedAutoFoldEvents (rule_attempts sc) true)
    (Z.quot (i64 ((if TimeoutInterval sc <=? 0 then 30 * second else TimeoutInterval sc) * rule_attempts sc)) 2)
    (i64 (i64 ((if TimeoutInterval sc <=? 0 then 30 * second else TimeoutInterval sc) * rule_attempts sc) + 2 * second)) in
  in_time s (el 5%nat) → ∃ l, predict_round (rule_attempts sc) el 4 log5 5 s = Ok l.
Proof.
  cbn zeta. set (lo := Z.quot _ _). set (hi := i64 (i64 _ + _)). intros [Hlo Hhi]. cbn in Hlo, Hhi. unfold predict_round.
  assert (ExpectedNextPlayer log5 = Ok 2) as -> by (vm_compute; reflexivity). cbn [no_err wrap_err mbind res_bind].
  assert (idx (E:=rounds_err) (replicate 4 tt) 2 = Ok tt) as -> by done. cbn [mbind res_bind].
  assert (Log_Replay log5 = Ok state5) as -> by (vm_compute; reflexivity). cbn [no_err wrap_err mbind res_bind Attempts].
  assert (ValidateAction state5 2 (mkAction ActionRaise 1000000) = Err (RaiseTooExpensive 1000000 1900)) as Hv by (vm_compute; reflexivity).
  assert (HandOver state5 = false) as Ho by reflexivity. set (e := RaiseTooExpensive _ _) in Hv.
  cbn [predict_drive]. rewrite Hv, Ho. cbn [mbind res_bind]. unfold check_report. cbn [ExpectAutoFold ROutcome ExpectedEvents REvents RDuration
    ExpectedDurationMin ExpectedDurationMax]. cbn [negb andb]. rewrite bool_decide_true by done. cbn [negb andb].
  assert (verifyExpectedEvents ([] ++ [rejected_ev 5 e] ++ stalled_evs 5 (rule_attempts sc))
    (expectedAutoFoldEvents (rule_attempts sc) true) = None) as Hver.
  { apply verify_events_spec. unfold stalled_evs, expectedAutoFoldEvents, timeout_events. cbn. f_equal.
    rewrite fmap_app. cbn. f_equal. by rewrite <- list_fmap_compose. }
  rewrite app_assoc in Hver. cbn [app] in Hver. cbn [app]. rewrite Hver.
  assert ((if 0 <? len (expectedAutoFoldEvents (rule_attempts sc) true) then None else None) = @None events_err) as -> by (by case_match).
  rewrite (proj2 (andb_false_iff _ _)); [|destruct (Z.ltb_spec 0 lo); [right; apply Z.ltb_ge; auto|by left]].
  rewrite (proj2 (andb_false_iff _ _)); [|destruct (Z.ltb_spec 0 hi); [right; apply Z.ltb_ge; auto|by left]].
  cbn [mbind res_bind]. set (l := Append log5 _).
  assert (check_folded 5 2 (replicate 4 l) = Ok tt) as -> by (vm_compute; reflexivity). by exists l.
Qed.

(** What the harness sees of a table of honest nodes under the rules [sc]. *)
Record honest_table (v : RoundsView) (order : list string) (sc : SessionConfig) : Prop := {
  ht_ids : NoDup (rv_ids v) ∧ order ≡ₚ rv_ids v;
  ht_rounds : ∃ ls, ls 0%nat = NewLog (Z.of_nat (length (rv_ids v))) 2000 ∧
    ∀ r s, session_scripts sc !! r = Some s → honest_round v order (rule_attempts sc) r s (ls r) (ls (S r));
  ht_time : ∀ r s, session_scripts sc !! r = Some s → in_time s (rv_elapsed v r);
}.

Lemma take_scripts sc k : (5 ≤ k)%nat →
  imap pair (take k (session_scripts sc)) = five ∨ ∃ s, session_scripts sc !! 5%nat = Some s ∧
    imap pair (take k (session_scripts sc)) = five ++ [(5%nat, s)].
Proof.
  intros Hk. unfold session_scripts, scripts. do 5 (destruct k as [|k]; [lia|]).
  destruct k as [|k]; [by left|]. right. eexists. split; [done|]. by destruct k.
Qed.

(** The script is written for four players.  At a table of honest nodes with
    the standard stacks, whatever the rules say about attempts and timeouts, a
    simulation of at least five rounds passes with four nodes and fails with
    any other number of them. *)
Theorem script_fits_four v order sc numRounds :
  honest_table v order sc → (2 ≤ length (rv_ids v) ≤ 23)%nat → 5 ≤ numRounds →
  play_rounds v order sc numRounds = Ok tt ↔ length (rv_ids v) = 4%nat.
Proof.
  intros [[Hnd Hperm] (ls & Hls & Hrounds) Htime] Hn Hnum. unfold play_rounds.
  set (n := length (rv_ids v)) in *. pose proof (take_scripts sc (Z.to_nat numRounds) ltac:(lia)) as Hcase.
  set (ss := imap pair (take (Z.to_nat numRounds) (session_scripts sc))) in *.
  assert (∀ j r s, ss !! j = Some (r, s) → r = j ∧ session_scripts sc !! r = Some s) as Hss.
  { intros j r s. unfold ss. rewrite list_lookup_imap. intros (s' & Hs & [= <- <-])%fmap_Some.
    split; [done|]. by apply lookup_take_Some in Hs as [? _]. }
  rewrite (play_rounds_predicted v order (rule_attempts sc) Hnd Hperm ltac:(unfold n in *; lia) ss ls (NewLog (Z.of_nat n) 2000)).
  - pose proof (five_rounds n (rule_attempts sc) (rv_elapsed v) Hn) as Hfive. fold n.
    assert (predict_rounds (rule_attempts sc) (rv_elapsed v) n (NewLog (Z.of_nat n) 2000) ss =
      (l ← predict_rounds (rule_attempts sc) (rv_elapsed v) n (NewLog (Z.of_nat n) 2000) five;
       predict_rounds (rule_attempts sc) (rv_elapsed v) n l (drop 5 ss))) as ->.
    { unfold predict_rounds. rewrite <- foldM_app. f_equal. by destruct Hcase as [->|(s & _ & ->)]. }
    destruct (predict_rounds _ _ n _ five) as [l|e|]; cbn [mbind res_bind]; [|by split; [|intros ->]|done].
    destruct Hfive as [-> ->]. split; [done|]. intros _. destruct Hcase as [->|(s & Hs & ->)]; [done|].
    change (drop 5 (five ++ [(5%nat, s)])) with [(5%nat, s)]. unfold predict_rounds. cbn [foldM]. destruct (last_round sc (rv_elapsed v)) as [l Hl].
    { apply (Htime 5%nat). unfold session_scripts, rule_attempts. done. }
    assert (predict_round (rule_attempts sc) (rv_elapsed v) 4 log5 5 s = Ok l) as ->; [|done].
    rewrite <- Hl. unfold session_scripts in Hs. injection Hs as <-. done.
  - intros r s [j Hj]%list_elem_of_lookup_1. by apply Hrounds, (Hss j).
  - intros j r s Hj. destruct (Hss _ _ _ Hj) as [-> _]. assert (∃ x, ss !! 0%nat = Some x) as [[r0 s0] H0].
    { apply lookup_lt_is_Some_2. apply lookup_lt_Some in Hj. lia. }
    exists r0, s0. split; [done|]. by destruct (Hss _ _ _ H0) as [-> _].
  - intros r s Hh. destruct (Hss 0%nat r s) as [-> _]; [by rewrite <- head_lookup|]. by rewrite Hls.
  - cbn. lia.
Qed.

(** ** Cleaning up *)

Section cleanup.
Context `{GoRuntime} (ans : sim_answers).

Definition is_close (c : sim_call) : bool := match c with CClose _ => true | _ => false end.
Abbreviation no_close t := (Forall (λ c, is_close c = false) t).

Lemma tbind_no_close {A B} (m : traced A) (f : A → traced B) :
  no_close m.1 → (∀ a, no_close (f a).1) → no_close (tbind m f).1.
Proof.
  destruct m as [t [a| |]]; cbn; intros Ht Hf; [|done..]. specialize (Hf a). destruct (f a). cbn in *.
  by apply Forall_app.
Qed.

Lemma for_each_no_close f is_ : (∀ i, no_close (f i).1) → no_close (for_each f is_).1.
Proof. intros Hf. induction is_ as [|i is_ IH]; [done|]. by apply tbind_no_close. Qed.

Lemma try_no_close c e : is_close c = false → no_close (try_call ans c e).1.
Proof. intros Hc. by constructor. Qed.

Lemma attach_no_close cfg host port i : no_close (attach_node ans cfg host port i).1.
Proof.
  do 3 (apply tbind_no_close; [by apply try_no_close|intros _]). apply tbind_no_close; [by constructor|intros _].
  case_decide; by repeat constructor.
Qed.

Lemma session_no_close cfg n : no_close (run_session ans cfg n).1.
Proof.
  apply tbind_no_close.
  - repeat (apply tbind_no_close; [|intros _]); try (by apply try_no_close); apply for_each_no_close; intros i; by apply try_no_close.
  - intros _. cbn [deferring fst]. apply Forall_app. split; [|by constructor].
    repeat (apply tbind_no_close; [|intros _]); try (by constructor); apply for_each_no_close; intros i; by constructor.
Qed.

(** The calls that node [i] needs to be attached succeed. *)
Definition attaches (i : nat) : bool := sa_ok ans (CKeygen i) && sa_ok ans (CNew i) && sa_ok ans (CAttach i).

Lemma attach_node_ok cfg host port i : attaches i = true ↔ (attach_node ans cfg host port i).2 = Ok tt.
Proof.
  unfold attaches, attach_node, try_call, do_call, quiet, tbind. repeat (destruct (sa_ok ans _); cbn); try done.
  case_decide; done.
Qed.

Lemma for_each_ok f is_ : (∀ i, i ∈ is_ → (f i).2 = Ok tt) ↔ (for_each f is_).2 = Ok tt.
Proof.
  induction is_ as [|i is_ IH]; [split; [done|by intros _ i ?%elem_of_nil]|]. cbn. destruct (f i) as [t [[]| |]] eqn:Hf; cbn.
  - destruct (for_each f is_) as [t' r']. cbn in *. rewrite <- IH. split; [intros Hall j Hj; apply Hall; by right|].
    intros Hall j [->|Hj]%elem_of_cons; [by rewrite Hf|by apply Hall].
  - split; [|done]. intros Hall. specialize (Hall i ltac:(left)). by rewrite Hf in Hall.
  - split; [|done]. intros Hall. specialize (Hall i ltac:(left)). by rewrite Hf in Hall.
Qed.

(** Nodes are closed at the end, unless one could not be attached.  When all
    nodes are attached, every way [RunRounds] ends - a session that cannot be
    opened, a failing round, success - closes each node once, in order, as the
    last thing it does.  When some node cannot be attached, no node is closed at
    all, though the ones before it have listeners, connections and heartbeats. *)
Theorem rounds_cleanup cfg cfg' base :
  check_config cfg = Ok cfg' → parseRPCBase (RPCBaseAddr cfg') = Ok base →
  let n := Z.to_nat (RNumNodes cfg) in
  if forallb attaches (seq 0 n)
  then ∃ t, (RunRounds ans cfg).1 = t ++ (CClose <$> seq 0 n) ∧ no_close t
  else no_close (RunRounds ans cfg).1 ∧ (RunRounds ans cfg).2 ≠ Ok tt.
Proof.
  intros Hcfg Hbase. assert (RNumNodes cfg' = RNumNodes cfg) as Hn.
  { unfold check_config in Hcfg. repeat case_decide; repeat case_match; simplify_eq; done. }
  cbn zeta. unfold RunRounds. rewrite Hcfg. cbn [quiet tbind]. rewrite Hbase, Hn. destruct base as [host port]. cbn [wrap_err tbind quiet].
  set (n := Z.to_nat (RNumNodes cfg)).
  pose proof (for_each_no_close (attach_node ans cfg' host port) (seq 0 n) (attach_no_close cfg' host port)) as Hno.
  pose proof (for_each_ok (attach_node ans cfg' host port) (seq 0 n)) as Hok.
  destruct (forallb attaches (seq 0 n)) eqn:Hall.
  - rewrite forallb_forall in Hall.
    assert ((for_each (attach_node ans cfg' host port) (seq 0 n)).2 = Ok tt) as Hr.
    { apply Hok. intros i Hi. apply attach_node_ok, Hall. by apply list_elem_of_In. }
    destruct (for_each _ _) as [t r]. cbn in Hr, Hno. subst r. cbn.
    exists (t ++ (run_session ans cfg' n).1). rewrite <- app_assoc. split; [done|]. apply Forall_app. split; [done|apply session_no_close].
  - assert ((for_each (attach_node ans cfg' host port) (seq 0 n)).2 ≠ Ok tt) as Hr.
    { intros Hr. pose proof (proj2 Hok Hr) as Hev. apply not_true_iff_false in Hall. apply Hall, forallb_forall. intros i Hi%list_elem_of_In.
      by apply (attach_node_ok cfg' host port), Hev. }
    destruct (for_each _ _) as [t [[]| |]]; cbn in *; done.
Qed.

End cleanup.

(** ** Witnesses *)

Definition four_rules : SessionConfig := mkSessionConfig (2 * second) 3.
Definition four_ids : list string := ["a"; "b"; "c"; "d"].
Definition four_moves : list (Z * Action) :=
  [(0, mkAction ActionRaise 100); (1, mkAction ActionFold 0); (2, mkAction ActionCall 0); (3, mkAction ActionCall 0);
   (0, mkAction ActionCheck 0); (2, mkAction ActionFold 0)].
Definition four_log (r : nat) : Log :=
  mkLog (imap (λ i m, mkEntry (Z.of_nat i) m.1 m.2 [] [] [] []) (take r four_moves)) 4 2000.
Definition four_seat (r : nat) : Z := ok_or 0 (ExpectedNextPlayer (four_log r)).
Definition four_state (r : nat) : State := ok_or (initial_state 4 2000) (Log_Replay (four_log r)).
Definition four_runner (r i : nat) : Runner :=
  mkRunner (mkNode "" (mkKey 5 8171) 13619 true [] four_ids (Z.of_nat i) "" "" 2000 four_rules []) (four_log r) [] []
    (mkConfig (2 * second) 3) ∅ None [] [].
Definition four_script (r : nat) : roundScript := nth r (session_scripts four_rules) (mkScript [] false [] 0 0).

Definition four_view : RoundsView := {|
  rv_ids := four_ids;
  rv_before r i := [Z.of_nat r];
  rv_log0 := four_log;
  rv_runner r i k := four_runner r i;
  rv_stream r i := mkEvent 77 0 "committed" NoReason :: round_evs 3 (four_state r) (four_seat r) r (Attempts (four_script r));
  rv_elapsed r := 6 * second;
  rv_after r i := [Z.of_nat r; Z.of_nat (S r)];
  rv_logs r := replicate 4 (four_log (S r));
|}.

Lemma four_facts r : (r < 6)%nat →
  ExpectedNextPlayer (four_log r) = Ok (four_seat r) ∧ 0 ≤ four_seat r ∧ Log_Replay (four_log r) = Ok (four_state r) ∧
  HandOver (four_state r) = false ∧
  ∃ e, four_log (S r) = Append (four_log r) e ∧ PlayerID e = four_seat r ∧
    EAction e = default fold_move (find (is_legal (four_state r) (four_seat r)) (Attempts (four_script r))).
Proof.
  intros Hr. do 6 (destruct r as [|r]; [split_and!; [vm_compute; reflexivity|vm_compute; discriminate|vm_compute; reflexivity|
    vm_compute; reflexivity|eexists; split_and!; [reflexivity|vm_compute; reflexivity|vm_compute; reflexivity]]|]). lia.
Qed.

Lemma round_evs_own max st p r acts : Forall (λ ev, EvRoundID ev = Z.of_nat r) (round_evs max st p r acts).
Proof.
  unfold round_evs. repeat case_match; repeat constructor. unfold stalled_evs, timeout_events. apply Forall_app. split; [|by constructor].
  apply list.Forall_forall. intros ev (t & -> & _)%list_elem_of_fmap. done.
Qed.

Lemma four_honest : honest_table four_view four_ids four_rules.
Proof.
  assert (NoDup four_ids) as Hnd by (apply (bool_decide_unpack _); vm_compute; done).
  constructor; [done| |].
  - exists four_log. split; [done|]. intros r s Hs. assert (r < 6)%nat as Hr by (by apply lookup_lt_Some in Hs).
    assert (s = four_script r) as -> by (unfold four_script; by erewrite nth_lookup_Some by exact Hs).
    destruct (four_facts r Hr) as (Hp & Hpos & Hst & Ho & Hnext). constructor.
    + done.
    + intros i _. exists (Z.of_nat r). split; [left|lia].
    + intros i k id p Hi Hid Hp'. rewrite Hp in Hp'. injection Hp' as <-. split_and!; [done| |done].
      cbn. pose proof (NoDup_lookup _ _ _ _ Hnd Hi Hid). lia.
    + intros i id p st Hi Hid Hp' Hst'. rewrite Hp in Hp'. rewrite Hst in Hst'. injection Hp' as <-. injection Hst' as <-.
      cbn [four_view rv_stream]. rewrite filter_cons_False by (cbn; lia).
      apply filter_own, round_evs_own.
    + intros p st Hp' Hst' _. rewrite Hp in Hp'. rewrite Hst in Hst'. injection Hp' as <-. injection Hst' as <-. exact Hnext.
    + intros st _ _. split; [|by split; [|repeat constructor]]. intros i _. exists (Z.of_nat (S r)). split; [right; left|lia].
  - intros r s Hs. cbn [four_view rv_elapsed]. do 6 (destruct r as [|r]; [injection Hs as <-; split; vm_compute; [by intros|by intros]|]). done.
Qed.

Lemma script_fits_four_witness : play_rounds four_view four_ids four_rules 11 = Ok tt.
Proof.
  apply (script_fits_four four_view four_ids four_rules 11); [apply four_honest|cbn; lia|lia|reflexivity].
Defined.

(** Two nodes, the second of which cannot reach the server. *)
Definition two_config : RoundsConfig := mkRoundsConfig "server:9000" 2 "" 5 "".
Definition answers (ok : sim_call → bool) : sim_answers := mkAnswers ok "s" four_rules four_view.
Definition second_detached (c : sim_call) : bool := match c with CAttach 1 => false | _ => true end.

Lemma rounds_cleanup_witness :
  (∃ t, (@RunRounds insertion_runtime (answers (λ _, true)) two_config).1 = t ++ [CClose 0; CClose 1]) ∧
  Forall (λ c, is_close c = false) (@RunRounds insertion_runtime (answers second_detached) two_config).1.
Proof.
  destruct (@rounds_cleanup insertion_runtime (answers (λ _, true)) two_config
    (mkRoundsConfig "server:9000" 2 "sim-session" 5 "") (EmptyString, 0) eq_refl eq_refl) as (t & Ht & _).
  destruct (@rounds_cleanup insertion_runtime (answers second_detached) two_config
    (mkRoundsConfig "server:9000" 2 "sim-session" 5 "") (EmptyString, 0) eq_refl eq_refl) as [Hno _].
  split; [exists t; exact Ht|exact Hno].
Defined.

#[local] Existing Instances toy_scheme toy_laws entry_codec entry_codec_laws receipt_codec.

(** Alice only tries to raise more than she has; nobody answers. *)
Lemma stalled_round_reported_witness :
  ∃ report, driveScriptedRound (λ _, three_runner 0) 6 0 [mkAction ActionRaise 1000000]
      (mkEvent 9 0 "timeout" NoReason :: timeout_events 0 3 ++ [mkEvent 0 0 "auto_fold" AutoFoldFailed]) = Ok report ∧
    ROutcome report = "auto_fold"%string ∧
    verifyExpectedEvents (REvents report) (expectedAutoFoldEvents 3 true) = None.
Proof.
  destruct (@stalled_round_reported _ _ _ _ in_order in_order_laws 3 100 (λ _ _, None) ∅
    (mkEnv (λ _ _, []) (λ _ _, false) (λ _, false)) (three_runner 0) 0 (mkAction ActionRaise 1000000)
    (RaiseTooExpensive 1000000 100) 6) as (store' & r' & err & evs & Hex & Hpub & Hreport).
  - split; lia.
  - lia.
  - apply three_ok. lia.
  - vm_compute. reflexivity.
  - vm_compute. discriminate.
  - reflexivity.
  - intros att. split; reflexivity.
  - vm_compute. reflexivity.
  - apply Hreport.
    assert (∀ l : list AttemptEvent, fst <$> ((λ ev : AttemptEvent, (ev, @nil (string * string))) <$> l) = l) as Hfst
      by (intros l; induction l as [|ev l IH]; [reflexivity|cbn; f_equal; exact IH]).
    cbn [published three_runner app] in Hpub. rewrite <- (Hfst evs), <- Hpub.
    apply (f_equal snd) in Hex. vm_compute in Hex. injection Hex as <- _. vm_compute. reflexivity.
Defined.

(** ** The seating *)

(** The simulation mirrors the dispatcher.  When the simulated nodes are the
    members of the session that is started, the order the simulation works out
    for itself is the one in the dispatcher's frames, whatever sort and map
    order either of the two processes uses. *)
Theorem sim_order_mirrors (RT RT' : GoRuntime) (L : @RuntimeLaws RT) (L' : @RuntimeLaws RT') ans nc s sess :
  sessions s !! sessionID nc = Some sess → NoDup (rv_ids (sa_view ans)) →
  (∀ id, id ∈ rv_ids (sa_view ans) ↔ id ∈ members sess) →
  ∃ t a, @game_order RT nc s = Some (@sim_order RT' ans, t, a).
Proof.
  intros Hs Hnd Hids. unfold game_order. rewrite Hs. cbn [mbind option_bind]. eexists _, _. do 3 f_equal. unfold sim_order.
  assert (rv_ids (sa_view ans) ≡ₚ elements (members sess)) as Hp.
  { apply NoDup_Permutation; [done|apply NoDup_elements|]. intros id. by rewrite elem_of_elements. }
  apply (sorted_unique string_less).
  - intros x y _ _. apply string_less_total.
  - by apply (@sort_sorted RT L), string_less_weak.
  - by apply (@sort_sorted RT' L'), string_less_weak.
  - rewrite (@sort_perm RT L), (@sort_perm RT' L'), (@range_perm RT L). done.
Qed.

Definition seated_ids : list string := ["node-2"; "node-1"].
Definition seated_answers : sim_answers :=
  mkAnswers (λ _, true) "t" (mkSessionConfig 0 0)
    (mkRoundsView seated_ids (λ _ _, []) (λ _, NewLog 2 100) (λ _ _ _, three_runner 0) (λ _ _, []) (λ _, 0) (λ _ _, []) (λ _, [])).
Definition seated_server : Server :=
  mkServer (mkDConfig ":9000" 10 30000000000 3) {["t" := mkSession "t" {["node-1"; "node-2"]} 30000000000 3]} ∅ ∅ 2 0.

Lemma sim_order_mirrors_witness :
  ∃ t a, @game_order insertion_runtime (mkNodeConn "node-1" "addr" "t" 12 false) seated_server
         = Some (["node-1"; "node-2"]%string, t, a).
Proof.
  exact (sim_order_mirrors insertion_runtime insertion_runtime insertion_laws insertion_laws seated_answers
    (mkNodeConn "node-1" "addr" "t" 12 false) seated_server (mkSession "t" {["node-1"; "node-2"]} 30000000000 3) eq_refl
    ltac:(apply (bool_decide_unpack _); vm_compute; exact I)
    ltac:(cbn; set_solver)).
Defined.
