(* ===== verification/Commands.v ===== *)
(** * The commands ([cmd/dispatch], [cmd/node], [cmd/sim])

    What the three programs do with their flags, and the node process that
    [cmd/node] leaves running: the node, its RPC server and the goroutines that
    run a game each.  A flag's value is a field of a record; printing is left
    out; a process that calls [os.Exit] is [Exit] with its code. *)

From Stdlib Require Import ZArith Lia.
From stdpp Require Import base list gmap strings numbers relations.
From S2P Require Import Prelude Runtime Strconv HostPort Deck Peer Dispatch Remote Client Lifecycle GameState GameLog Runner Rpc Api Rounds.

#[local] Open Scope Z_scope.

Inductive command A := Exit (code : Z) | Up (a : A).
Arguments Exit {A} code.
Arguments Up {A} a.

(** ** [cmd/dispatch] *)

Record dispatch_flags := mkDispatchFlags { fl_addr : string; fl_lease_ttl : Z; fl_timeout : Z; fl_max_attempts : Z }.

Definition dispatch_defaults : dispatch_flags := mkDispatchFlags ":9000" (10 * second) (30 * second) 3.

(** The server that [Run] serves, unless it cannot be built. *)
Definition dispatch_main (fl : dispatch_flags) : command Server :=
  match NewServer (mkDConfig (fl_addr fl) (fl_lease_ttl fl) (fl_timeout fl) (u32 (fl_max_attempts fl))) with
  | Ok s => Up s
  | _ => Exit 1
  end.

(** ** [cmd/sim] *)

Record sim_flags := mkSimFlags {
  fl_dispatch : string; fl_n : Z; fl_session : string; fl_rounds : Z; fl_rpc_base : string;
}.

Definition sim_defaults : sim_flags := mkSimFlags "" 4 "sim-session" 5 "".

(** The exit code, and the calls made before it; a panic has code 2. *)
Definition sim_main `{GoRuntime} (ans : sim_answers) (fl : sim_flags) : list sim_call * Z :=
  if decide (fl_dispatch fl = EmptyString) then ([], 2)
  else
    match RunRounds ans (mkRoundsConfig (fl_dispatch fl) (fl_n fl) (fl_session fl) (fl_rounds fl) (fl_rpc_base fl)) with
    | (t, Ok _) => (t, 0)
    | (t, Err _) => (t, 1)
    | (t, Panic) => (t, 2)
    end.

(** ** [cmd/node] *)

Record node_flags := mkNodeFlags {
  nf_dispatch : string; nf_peer_addr : string; nf_advertise : string; nf_id : string; nf_rpc_addr : string;
}.

Definition node_defaults : node_flags := mkNodeFlags "" ":0" "" "" "127.0.0.1:50051".

(** The goroutine of a game start: before [SetRunner], running its runner,
    returned. *)
Inductive game_phase := GameStarting | GameRunning (r : Runner) | GameEnded.

(** [pr_rpc] is [None] without an RPC server; otherwise the game whose runner
    the server holds.  [pr_games] are the goroutines in the order of their
    starts. *)
Record process := mkProcess { pr_client : Client; pr_rpc : option (option nat); pr_games : list game_phase }.

Definition runner_of (ph : game_phase) : option Runner := match ph with GameRunning r => Some r | _ => None end.

(** The RPC server with the runner it holds. *)
Definition rpc_server (p : process) : option RpcServer :=
  reg ← pr_rpc p;
  Some (SetRunner (i ← reg; ph ← pr_games p !! i; runner_of ph) (NewRpcServer (cnode (pr_client p)))).

(** What can happen to the process: a frame on the dispatch connection, the
    steps of a game's goroutine, calls of a frontend. *)
Inductive plabel :=
| PFrame (f : Frame)
| PBegin (i : nat)
| PRun (i : nat) (r : Runner)
| PReturn (i : nat)
| PSubmit (kind amount : Z)
| PAttach (o : attach_outcome) (addr : string)
| PDetach.

Section node.
Context (listen : string → option string) (outbound : option string) (key : res deck_err Key) (signer : option (list Z * list Z)).

(** Everything before [<-ctx.Done()]; [os.Exit] does not run the deferred
    [Close], the end of the process closes the listener.  The heartbeats that
    are started in both cases are [heartbeat_tick] of [ClientApi], the handlers
    of [InitEphemeralHandlers] those of [Remote]; the handler that
    [SetGameStartHandler] registers is the goroutine of [process_step]. *)
Definition node_main (o : attach_outcome) (fl : node_flags) (listening : gset string) : command process :=
  match signer with
  | None => Exit 1
  | Some (pk, _) =>
      match (PeerNew listen outbound key (mkPeerConfig EmptyString (nf_peer_addr fl) (nf_advertise fl) (nf_id fl) pk) listening).2 with
      | Ok c =>
          let rpc := if decide (nf_rpc_addr fl = EmptyString) then None else Some None in
          if decide (nf_dispatch fl = EmptyString) then Up (mkProcess c rpc [])
          else
            match AttachDispatch o (nf_dispatch fl) c with
            | (c, Ok _) => Up (mkProcess c rpc [])
            | _ => Exit 1
            end
      | _ => Exit 1
      end
  end.

Definition set_reg (reg : option nat) (p : process) : option (option nat) := (λ _, reg) <$> pr_rpc p.

(** The runner that the game's goroutine makes. *)
Definition game_runner (c : Client) : Runner :=
  let sc := GetSessionConfig c in
  let '(pk, sk) := default ([], []) signer in
  NewRunner (cnode c) sk pk (mkConfig (TimeoutInterval sc) (MaxAttempts sc)) (Client.peerPKs c).

(** [None]: the step is not enabled, or a handler panics and the process ends. *)
Definition process_step (l : plabel) (p : process) : option process :=
  match l with
  | PFrame f =>
      Some (mkProcess (handle_push f (pr_client p)) (pr_rpc p)
              (if decide (Dispatch.Kind f = KindGameStart) then pr_games p ++ [GameStarting] else pr_games p))
  | PBegin i =>
      match pr_games p !! i with
      | Some GameStarting =>
          Some (mkProcess (pr_client p) (set_reg (Some i) p) (<[i := GameRunning (game_runner (pr_client p))]> (pr_games p)))
      | _ => None
      end
  | PRun i r =>
      match pr_games p !! i with
      | Some (GameRunning _) => Some (mkProcess (pr_client p) (pr_rpc p) (<[i := GameRunning r]> (pr_games p)))
      | _ => None
      end
  | PReturn i =>
      match pr_games p !! i with
      | Some (GameRunning _) => Some (mkProcess (pr_client p) (set_reg None p) (<[i := GameEnded]> (pr_games p)))
      | _ => None
      end
  | PSubmit kind amount =>
      srv ← rpc_server p;
      match RpcSubmitAction kind amount srv, pr_rpc p with
      | Ok srv', Some (Some i) =>
          Some (mkProcess (pr_client p) (pr_rpc p)
                  (match srv_runner srv' with Some r => <[i := GameRunning r]> (pr_games p) | None => pr_games p end))
      | Panic, _ => None
      | _, _ => Some p
      end
  | PAttach o addr =>
      _ ← pr_rpc p;
      match RpcAttachDispatch o addr (pr_client p) with
      | (_, Panic) => None
      | (c, _) => Some (mkProcess c (pr_rpc p) (pr_games p))
      end
  | PDetach => _ ← pr_rpc p; Some (mkProcess (DetachDispatch (pr_client p)) (pr_rpc p) (pr_games p))
  end.

(** A game start that comes when every earlier game has ended. *)
Definition in_turn (l : plabel) (p : process) : Prop :=
  match l with
  | PFrame f => Dispatch.Kind f = KindGameStart → ∀ i ph, pr_games p !! i = Some ph → ph = GameEnded
  | _ => True
  end.

End node.
