(* ===== verification/CommandsProps.v ===== *)
(** * The commands: theorems *)

From Stdlib Require Import ZArith Lia.
From stdpp Require Import base list gmap strings numbers relations.
From S2P Require Import Prelude Runtime Strconv HostPort Deck Peer Dispatch DispatchProps DispatchServe Remote Client ClientApi ClientApiProps Lifecycle LifecycleProps.
From S2P Require Import GameState GameLog Runner Rpc Api Rounds Commands.

#[local] Open Scope Z_scope.

Section node.
Context (listen : string → option string) (outbound : option string) (key : res deck_err Key) (signer : option (list Z * list Z)).

Definition without_dispatch (fl : node_flags) : node_flags :=
  mkNodeFlags EmptyString (nf_peer_addr fl) (nf_advertise fl) (nf_id fl) (nf_rpc_addr fl).

(** Attaching later is the same.  A node process started with [-dispatch] is
    the process started without it, after a frontend has called
    [AttachDispatch] with that address; and when starting with the flag fails,
    starting without it fails in the same way or the frontend's call does. *)
Theorem late_attach_same o o' fl listening :
  nf_dispatch fl ≠ EmptyString → nf_rpc_addr fl ≠ EmptyString →
  let later := node_main listen outbound key signer o' (without_dispatch fl) listening in
  match node_main listen outbound key signer o fl listening with
  | Up p => ∃ p0, later = Up p0 ∧ process_step signer (PAttach o (nf_dispatch fl)) p0 = Some p
  | Exit code =>
      later = Exit code ∨ ∃ p0 e, later = Up p0 ∧ (RpcAttachDispatch o (nf_dispatch fl) (pr_client p0)).2 = Err e
  end.
Proof.
  intros Hd Hr. cbn zeta. unfold node_main, without_dispatch. cbn [nf_dispatch nf_peer_addr nf_advertise nf_id nf_rpc_addr].
  destruct signer as [[pk sk]|]; [|by left].
  destruct (PeerNew _ _ _ _ _) as [up [c|e|]]; cbn [snd]; [|by left|by left].
  rewrite (decide_False (P := nf_rpc_addr fl = _)), (decide_False (P := nf_dispatch fl = _)) by done.
  rewrite (decide_True (P := EmptyString = EmptyString)) by done.
  pose proof (attach_dispatch_spec o (nf_dispatch fl) c) as Hspec.
  unfold process_step, RpcAttachDispatch. cbn [pr_rpc pr_client].
  destruct (AttachDispatch o (nf_dispatch fl) c) as [c' [u|e|]] eqn:Ha; cbn [snd] in *.
  - eexists. split; [done|]. cbn. by rewrite Ha.
  - right. eexists. destruct e; eexists; (split; [done|]); cbn; by rewrite Ha.
  - by destruct (Hspec _ _ eq_refl).
Qed.

(** ** One game at a time *)

Definition turn_step (p p' : process) : Prop := ∃ l, in_turn l p ∧ process_step signer l p = Some p'.

(** Only the last game may be going on, and its runner is the one held. *)
Record one_game (p : process) : Prop := {
  og_last : ∀ i ph, pr_games p !! i = Some ph → ph ≠ GameEnded → S i = length (pr_games p);
  og_held : ∃ reg, pr_rpc p = Some reg ∧
    ∀ i, reg = Some i ↔ ∃ r, pr_games p !! i = Some (GameRunning r);
}.

Lemma insert_phase (games : list game_phase) i ph x j y :
  games !! i = Some ph → <[i := x]> games !! j = Some y → (j = i ∧ y = x) ∨ (j ≠ i ∧ games !! j = Some y).
Proof.
  intros Hi. destruct (decide (j = i)) as [->|Hne].
  - rewrite list_lookup_insert_eq by (by eapply lookup_lt_Some). intros [= <-]. by left.
  - rewrite list_lookup_insert_ne by done. by right.
Qed.

(** A step of game [i]'s goroutine, which was not over. *)
Lemma one_game_insert p i ph x c reg :
  one_game p → pr_games p !! i = Some ph → ph ≠ GameEnded →
  (∀ k, reg = Some k ↔ k = i ∧ is_Some (runner_of x)) →
  one_game (mkProcess c (Some reg) (<[i := x]> (pr_games p))).
Proof.
  intros [Hlast _] Hi Hne Hreg. pose proof (Hlast _ _ Hi Hne) as Hlen. constructor; cbn.
  - intros j y Hj Hy. rewrite length_insert. destruct (insert_phase _ _ _ _ _ _ Hi Hj) as [[-> _]|[_ Hj']]; [done|].
    by apply (Hlast j y).
  - exists reg. split; [done|]. intros k. rewrite Hreg. split.
    + intros [-> [r Hr]]. exists r. rewrite list_lookup_insert_eq by (by eapply lookup_lt_Some).
      destruct x; by simplify_eq/=.
    + intros [r Hk]. destruct (insert_phase _ _ _ _ _ _ Hi Hk) as [[-> <-]|[Hki Hk']]; [by split; [|eexists]|].
      pose proof (Hlast _ _ Hk' ltac:(done)). lia.
Qed.

Lemma one_game_held p i r : one_game p → pr_games p !! i = Some (GameRunning r) → pr_rpc p = Some (Some i).
Proof. intros [_ (reg & -> & Hr)] Hi. f_equal. apply Hr. by exists r. Qed.

Lemma one_game_client p c : one_game p → one_game (mkProcess c (pr_rpc p) (pr_games p)).
Proof. intros [Hl Hh]. by constructor. Qed.

Lemma one_game_step p p' : one_game p → turn_step p p' → one_game p'.
Proof.
  intros Hp (l & Hturn & Hstep). destruct l as [f|i|i r|i|kind amount|o addr|]; cbn in Hstep.
  - injection Hstep as <-. destruct (decide _) as [Hk|_]; [|by apply one_game_client].
    pose proof (Hturn Hk) as Hended. destruct Hp as [_ (reg & Hrpc & Hreg)]. constructor; cbn.
    + intros i ph [Hi|[Hge Hi]]%lookup_app_Some Hph; [by destruct Hph; eapply Hended|].
      rewrite length_app. cbn. apply lookup_lt_Some in Hi. cbn in Hi. lia.
    + exists reg. split; [done|]. intros i. rewrite Hreg. split.
      * intros [r Hi]. by specialize (Hended _ _ Hi).
      * intros [r [Hi|[_ Hi]]%lookup_app_Some]; [by exists r|]. by destruct (i - _)%nat as [|[|]].
  - destruct (pr_games p !! i) as [[| |]|] eqn:Hi; simplify_eq. destruct (og_held _ Hp) as (reg & Hrpc & _).
    unfold set_reg. rewrite Hrpc. cbn. eapply one_game_insert; [done|done|done|]. intros k. cbn. split; [by intros [= ->]|].
    by intros [-> _].
  - destruct (pr_games p !! i) as [[| |]|] eqn:Hi; simplify_eq. rewrite (one_game_held _ _ _ Hp Hi).
    eapply one_game_insert; [done|done|done|]. intros k. cbn. split; [by intros [= ->]|]. by intros [-> _].
  - destruct (pr_games p !! i) as [[| |]|] eqn:Hi; simplify_eq. unfold set_reg. rewrite (one_game_held _ _ _ Hp Hi).
    cbn. eapply one_game_insert; [done|done|done|]. intros k. cbn. split; [done|]. by intros [_ [? ?]].
  - destruct (rpc_server p) as [srv|] eqn:Hsrv; [|done]. cbn in Hstep.
    destruct (RpcSubmitAction kind amount srv) as [srv'|e|]; [|by injection Hstep as <-|done].
    destruct (pr_rpc p) as [[i|]|] eqn:Hrpc; try (by injection Hstep as <-).
    injection Hstep as <-. destruct (og_held _ Hp) as (reg & Hrpc' & Hreg). rewrite Hrpc in Hrpc'. injection Hrpc' as <-.
    destruct (proj1 (Hreg i) eq_refl) as [r0 Hi].
    destruct (srv_runner srv') as [r|]; [|rewrite <- Hrpc; by apply one_game_client].
    eapply one_game_insert; [done|done|done|]. intros k. cbn. split; [by intros [= ->]|]. by intros [-> _].
  - destruct (pr_rpc p) as [rpc|] eqn:Hrpc; [|done]. cbn in Hstep.
    destruct (RpcAttachDispatch o addr (pr_client p)) as [c [id|e|]]; simplify_eq; rewrite <- Hrpc; by apply one_game_client.
  - destruct (pr_rpc p) as [rpc|] eqn:Hrpc; [|done]. cbn in Hstep. injection Hstep as <-. rewrite <- Hrpc. by apply one_game_client.
Qed.


(** ** Two games at once *)

Definition process_steps (ls : list plabel) (p : process) : option process :=
  foldl (λ o l, p ← o; process_step signer l p) (Some p) ls.

(** A second game cannot be played.  Two game starts reach the node before the
    first game is over, both runners start, and the first one returns: its
    deferred [SetRunner(nil)] takes the second, which is running, away from the
    frontend, whose actions are all refused. *)
Theorem stale_game_unregisters c f g :
  Dispatch.Kind f = KindGameStart → Dispatch.Kind g = KindGameStart →
  ∃ p r srv, process_steps [PFrame f; PFrame g; PBegin 0; PBegin 1; PReturn 0] (mkProcess c (Some None) []) = Some p ∧
    pr_games p = [GameEnded; GameRunning r] ∧ rpc_server p = Some srv ∧
    ∀ kind amount, RpcSubmitAction kind amount srv = Err FailedPrecondition.
Proof.
  intros Hf Hg. unfold process_steps. cbn. rewrite Hf, Hg. cbn. eexists _, _, _. split_and!; [reflexivity|reflexivity|reflexivity|].
  done.
Qed.

End node.

(** ** The rules of a session *)

Section rules.
Context (T A : Z).

(** The server and all its sessions have timeout [T] and [A] attempts. *)
Record ruled (s : Server) : Prop := {
  ru_timeout : CfgTimeoutInterval (cfg s) = T;
  ru_attempts : CfgMaxAttempts (cfg s) = A;
  ru_sessions : map_Forall (λ _ sess, timeoutInterval sess = T ∧ maxAttempts sess = A) (sessions s);
}.

Lemma ruled_same s s' : ruled s → cfg s' = cfg s → sessions s' = sessions s → ruled s'.
Proof. intros [H1 H2 H3] Hc Hs. constructor; by rewrite ?Hc, ?Hs. Qed.

Lemma ruled_sessions s ss :
  ruled s → map_Forall (λ _ sess, timeoutInterval sess = T ∧ maxAttempts sess = A) ss → ruled (Dispatch.set_sessions ss s).
Proof. intros [H1 H2 _] Hs. by constructor. Qed.

Lemma ruled_set_conn c nc s : ruled s → ruled (Dispatch.set_conn c nc s).
Proof. intros Hr. by apply (ruled_same s). Qed.

Lemma remove_ruled id sid s : ruled s → ruled (removeNodeFromSessionLocked id sid s).
Proof.
  intros Hr. unfold removeNodeFromSessionLocked. destruct (sessions s !! sid) as [sess|] eqn:Hs; [|done].
  cbn zeta. case_decide; apply ruled_sessions; try done.
  - by apply map_Forall_delete, ru_sessions.
  - apply map_Forall_insert_2; [|by apply ru_sessions]. exact (ru_sessions _ Hr _ _ Hs).
Qed.

Lemma leave_ruled id sid s : ruled s → ruled (if decide (sid = ""%string) then s else removeNodeFromSessionLocked id sid s).
Proof. intros Hr. case_decide; [done|by apply remove_ruled]. Qed.

Lemma renew_ruled id now s : ruled s → ruled (renewLease id now s).2.
Proof. intros Hr. unfold renewLease. repeat case_match; try done. by apply ruled_set_conn. Qed.

Lemma disconnect_ruled id s : ruled s → ruled (disconnect id s).1.
Proof.
  intros Hr. unfold disconnect. repeat (case_match; [|done]). cbn [fst].
  apply ruled_set_conn, leave_ruled. by apply (ruled_same s).
Qed.

Lemma reap_ruled `{GoRuntime} now s : ruled s → ruled (reap now s).1.
Proof.
  unfold reap. generalize (@nil output) as out. generalize (expired_nodes now s) as ids. intros ids. revert s.
  induction ids as [|id ids IH]; intros s out Hr; [done|]. cbn [fold_left fst snd].
  pose proof (disconnect_ruled id s Hr) as Hd. destruct (disconnect id s) as [s' o]. by apply IH.
Qed.

Lemma register_ruled c f now s : ruled s → ruled (register c f now s).1.2.
Proof.
  intros Hr. unfold register. case_decide; [|done].
  destruct (if decide _ then _ else _) as [id s1] eqn:Hid.
  assert (ruled s1) as Hr1 by (case_decide; injection Hid as <- <-; [by apply (ruled_same s)|done]).
  cbn zeta. destruct (nodes s1 !! id); [done|]. by apply (ruled_same s1).
Qed.

Lemma create_ruled c nc f s : ruled s → ruled (handleCreateSession c nc f s).1.
Proof.
  intros Hr. unfold handleCreateSession. destruct (if decide _ then _ else _) as [sid s1] eqn:Hid.
  assert (ruled s1) as Hr1 by (case_decide; injection Hid as <- <-; [by apply (ruled_same s)|done]).
  destruct (sessions s1 !! sid); [done|]. cbn [fst].
  pose proof (leave_ruled (ncid nc) (sessionID nc) _ Hr1) as Hr2. apply ruled_set_conn.
  apply (ruled_sessions _ _ Hr2). apply map_Forall_insert_2; [|by apply ru_sessions]. split; apply Hr2.
Qed.

Lemma join_ruled c nc f s : ruled s → ruled (handleJoinSession c nc f s).1.
Proof.
  intros Hr. unfold handleJoinSession. case_decide; [done|]. destruct (sessions s !! _); [|done]. cbn [fst].
  pose proof (leave_ruled (ncid nc) (sessionID nc) _ Hr) as Hr2. set (s2 := if decide _ then _ else _) in *.
  apply ruled_set_conn. unfold add_member. destruct (sessions s2 !! _) as [sess|] eqn:Hs; [|done].
  apply (ruled_sessions _ _ Hr2). apply map_Forall_insert_2; [|by apply ru_sessions]. exact (ru_sessions _ Hr2 _ _ Hs).
Qed.

(** What a successful game start carries. *)
Definition start_ruled (o : output) : Prop :=
  match o with
  | Dispatch.Send _ g => Dispatch.Kind g = KindGameStart → Success g = true →
      TimeoutIntervalMS g = u64 (Z.quot T 1000000) ∧ FMaxAttempts g = A
  | Dispatch.Close _ => True
  end.

Lemma frame_ruled `{GoRuntime} c f now s s' out :
  ruled s → handleFrame c f now s = Ok (s', out) → ruled s' ∧ Forall start_ruled out.
Proof.
  intros Hr Hf. unfold handleFrame in Hf. destruct (conns s !! c) as [nc0|]; [|done].
  pose proof (renew_ruled (ncid nc0) now s Hr) as Hr1. destruct (renewLease _ _ s) as [t s1]. cbn [snd] in Hr1.
  set (nc := default nc0 _) in Hf. repeat case_decide; try (injection Hf as <- <-).
  - injection Hf as Hf. pose proof (create_ruled c nc f s1 Hr1) as Hc. rewrite Hf in Hc. split; [done|].
    unfold handleCreateSession in Hf. destruct (if decide _ then _ else _) as [sid s2].
    destruct (sessions s2 !! sid); injection Hf as <- <-; by repeat constructor.
  - injection Hf as Hf. pose proof (join_ruled c nc f s1 Hr1) as Hc. rewrite Hf in Hc. split; [done|].
    unfold handleJoinSession in Hf. repeat case_match; injection Hf as <- <-; by repeat constructor.
  - unfold handleListPeers in Hf. repeat case_match; simplify_eq; (split; [done|by repeat constructor]).
  - split; [done|by repeat constructor].
  - injection Hf as Hf. unfold handleHeartbeat in Hf. pose proof (renew_ruled (ncid nc) now s1 Hr1) as Hr2.
    destruct (renewLease _ _ _). injection Hf as <- <-. split; [done|by repeat constructor].
  - split; [done|]. unfold handleGameStart, game_order.
    destruct (sessions s1 !! sessionID nc) as [sess|] eqn:Hs; cbn; [|by repeat constructor].
    destruct (ru_sessions _ Hr1 _ _ Hs) as [-> ->]. apply list.Forall_forall. intros x (c' & -> & _)%list_elem_of_fmap. done.
  - split; [done|]. repeat constructor; done.
Qed.

Lemma conn_step_ruled `{GoRuntime} l w w' : ruled (dw_server w) → conn_step l w = Some w' → ruled (dw_server w').
Proof.
  intros Hr Hs. unfold conn_step in Hs. destruct (dw_crashed w); [done|]. destruct l as [|c f now|c|c f now|c|now].
  - by injection Hs as <-.
  - case_decide; [|done]. pose proof (register_ruled c f now _ Hr) as Hr1.
    destruct (register c f now (dw_server w)) as [[r s] out]. by injection Hs as <-.
  - case_decide; [|done]. by injection Hs as <-.
  - destruct (dw_phases w !! c) as [[| |]|]; try done. case_decide; [done|].
    destruct (handleFrame c f now (dw_server w)) as [[s out]|[]|] eqn:Hf; injection Hs as <-; [|done].
    by eapply frame_ruled.
  - destruct (dw_phases w !! c) as [[|id|]|]; try done. pose proof (disconnect_ruled id _ Hr) as Hr1.
    destruct (disconnect id (dw_server w)) as [s out]. by injection Hs as <-.
  - pose proof (reap_ruled now _ Hr) as Hr1. destruct (reap now (dw_server w)) as [s out]. by injection Hs as <-.
Qed.

End rules.

Definition any_step `{GoRuntime} (w w' : dworld) : Prop := ∃ l, conn_step l w = Some w'.

(** C24: The flags are the rules.  Whatever happens at a dispatch server started
    with a timeout and a number of attempts, every runner that a node makes on
    a successful game start has that timeout, to the millisecond, or 30 s when
    it is below one, and that number of attempts modulo [2^32], or 3 when it is
    a multiple of that. *)
Theorem flags_reach_runners (RT : GoRuntime) signer fl s w c f now s' out c' g cl :
  dispatch_main fl = Up s → rtc any_step (start_serving s) w → 0 ≤ fl_timeout fl < 2 ^ 63 →
  handleFrame c f now (dw_server w) = Ok (s', out) → Dispatch.Send c' g ∈ out →
  Dispatch.Kind g = KindGameStart → Success g = true →
  rcfg (game_runner signer (handle_push g cl))
  = mkConfig (if fl_timeout fl <? 1000000 then 30 * second else fl_timeout fl / 1000000 * 1000000)
      (if fl_max_attempts fl mod 2 ^ 32 =? 0 then 3 else fl_max_attempts fl mod 2 ^ 32).
Proof.
  intros Hmain Hrun Ht Hf Hin Hk Hok.
  assert (ruled (fl_timeout fl) (u32 (fl_max_attempts fl)) (dw_server w)) as Hr.
  { apply (run_invariant any_step (λ w, ruled (fl_timeout fl) (u32 (fl_max_attempts fl)) (dw_server w)) (start_serving s) w);
      [| |done].
    - intros a b Ha [l Hl]. by eapply conn_step_ruled.
    - unfold dispatch_main, NewServer in Hmain. case_decide; [done|]. cbn [LeaseTTL] in Hmain.
      destruct (fl_lease_ttl fl <=? 0); [done|]. injection Hmain as <-. by constructor. }
  destruct (frame_ruled _ _ c f now _ _ _ Hr Hf) as [_ Hall]. pose proof (proj1 (list.Forall_forall _ _) Hall _ Hin) as Hg.
  destruct (Hg Hk Hok) as [Hms Hatt]. unfold game_runner, handle_push. rewrite decide_True by done.
  destruct (default _ signer) as [pk sk]. cbn. rewrite Hms, Hatt, ClientApiProps.timeout_trip by done. unfold u32. f_equal.
  destruct (Z.ltb_spec (fl_timeout fl) 1000000).
  - rewrite Z.div_small by lia. done.
  - rewrite (proj2 (Z.leb_gt _ _)); [done|]. assert (1 ≤ fl_timeout fl / 1000000) by (apply Z.div_le_lower_bound; lia). lia.
Qed.

(** ** A second game in a session *)

(** The board of an old game stays.  [GameStart] does not clear the board and
    [setCommunity] keeps a slot that is filled: when a second game starts in a
    session, a board slot that the first one filled keeps its card, whatever
    card the second game reveals for it. *)
Theorem second_game_keeps_board n ids timeoutMS attempts i c card :
  community n !! i = Some c → c ≠ EmptyString →
  let n' := GameStart n ids timeoutMS attempts in
  setCommunity n' (communityBase n' + Z.of_nat i) card = Ok n'.
Proof.
  intros Hi Hc n'. unfold setCommunity. replace (communityBase n' + Z.of_nat i - communityBase n') with (Z.of_nat i) by lia.
  pose proof (lookup_lt_Some _ _ _ Hi) as Hlt. unfold pad_board. change (community n') with (community n).
  replace (Z.to_nat (Z.of_nat i + 1) - length (community n))%nat with 0%nat by lia. cbn [replicate]. rewrite app_nil_r.
  rewrite (proj2 (idx_Ok (community n) (Z.of_nat i) c)) by (rewrite Nat2Z.id; split; [lia|done]). cbn. rewrite bool_decide_true by done. done.
Qed.

(** ** Witnesses *)

Definition some_key : res deck_err Key := Ok (mkKey 5 8171).
Definition some_signer : option (list Z * list Z) := Some (replicate 32 7, replicate 64 9).
Definition some_flags : node_flags := mkNodeFlags "server:9000" ":0" "" "alice" "127.0.0.1:50051".

Definition started (o : attach_outcome) (fl : node_flags) : command process :=
  node_main sample_listen (Some "192.0.2.1"%string) some_key some_signer o fl ∅.

Lemma late_attach_same_witness :
  ∃ p0 p, started DialFails (without_dispatch some_flags) = Up p0 ∧ started (sample_reply true) some_flags = Up p ∧
    process_step some_signer (PAttach (sample_reply true) "server:9000") p0 = Some p.
Proof.
  pose proof (late_attach_same sample_listen (Some "192.0.2.1"%string) some_key some_signer (sample_reply true) DialFails
    some_flags ∅ ltac:(discriminate) ltac:(discriminate)) as H. cbv beta zeta in H.
  destruct (node_main sample_listen (Some "192.0.2.1"%string) some_key some_signer (sample_reply true) some_flags ∅)
    as [code|p] eqn:Hp; [vm_compute in Hp; discriminate Hp|].
  destruct H as (p0 & Hp0 & Hs). exists p0, p. split; [exact Hp0|]. split; [exact Hp|exact Hs].
Defined.

(** A node that plays with one other. *)
Definition some_client : Client := NewNode "192.0.2.1:40123" "alice" (replicate 32 7) (mkKey 5 8171).
Definition some_start : Frame :=
  mkFrame KindGameStart "" "" "t" "" "" [] true "" ["alice"; "bob"]%string [] [] 0 [] 30000 3.
Definition playing : process :=
  default (mkProcess some_client (Some None) [])
    (process_steps some_signer [PFrame some_start; PBegin 0] (mkProcess some_client (Some None) [])).


Lemma stale_game_unregisters_witness :
  ∃ p r srv, process_steps some_signer [PFrame some_start; PFrame some_start; PBegin 0; PBegin 1; PReturn 0]
      (mkProcess some_client (Some None) []) = Some p ∧
    pr_games p = [GameEnded; GameRunning r] ∧ rpc_server p = Some srv ∧
    ∀ kind amount, RpcSubmitAction kind amount srv = Err FailedPrecondition.
Proof. apply (stale_game_unregisters some_signer some_client some_start some_start); reflexivity. Defined.

#[local] Existing Instance insertion_runtime.

(** A server whose attempts wrap to zero and whose timeout is below a millisecond. *)
Definition odd_flags : dispatch_flags := mkDispatchFlags ":9000" (10 * second) 500000 (2 ^ 32).
Definition odd_server : Server := match dispatch_main odd_flags with Up s => s | Exit _ => sample_server end.
Definition odd_world : dworld :=
  default (start_serving odd_server)
    (foldl (λ o l, w ← o; conn_step l w) (Some (start_serving odd_server))
       [DAccept; DRegister 0 (frame_of KindRegisterReq "alice" "") 0; DFrame 0 (frame_of KindCreateSessionReq "" "t") 1]).

Definition odd_start : Frame :=
  mkFrame KindGameStart "" "" "t" "" "" [] true "" ["alice"]%string [] [] 0 [] 0 0.

Lemma flags_reach_runners_witness :
  rcfg (game_runner some_signer (handle_push odd_start some_client)) = mkConfig (30 * second) 3.
Proof.
  pose proof (flags_reach_runners insertion_runtime some_signer odd_flags odd_server odd_world 0
    (frame_of KindGameStart "" "") 2) as H.
  destruct (handleFrame 0 (frame_of KindGameStart "" "") 2 (dw_server odd_world)) as [[s' out]|e|] eqn:Hf;
    [|vm_compute in Hf; discriminate Hf|vm_compute in Hf; discriminate Hf].
  assert (out = [Dispatch.Send 0 odd_start]) as ->.
  { replace out with (match handleFrame 0 (frame_of KindGameStart "" "") 2 (dw_server odd_world) with Ok x => x.2 | _ => [] end)
      by (rewrite Hf; reflexivity). vm_compute. reflexivity. }
  apply (H s' [Dispatch.Send 0 odd_start] 0%nat odd_start some_client); [reflexivity| | |reflexivity| |reflexivity|reflexivity].
  - eapply rtc_l; [exists DAccept; reflexivity|].
    eapply rtc_l; [exists (DRegister 0 (frame_of KindRegisterReq "alice" "") 0); reflexivity|].
    eapply rtc_l; [exists (DFrame 0 (frame_of KindCreateSessionReq "" "t") 1); reflexivity|apply rtc_refl].
  - cbn. lia.
  - apply list_elem_of_singleton. reflexivity.
Defined.

Definition old_node : Node := set_community ["3"; "17"; "40"]%string (cnode some_client).

Lemma second_game_keeps_board_witness :
  let n := GameStart old_node ["alice"; "bob"] 30000 3 in setCommunity n 5 "21" = Ok n.
Proof. exact (second_game_keeps_board old_node ["alice"; "bob"]%string 30000 3 1 "17" "21" eq_refl ltac:(discriminate)). Defined.
